(* ===== verification/_CoqProject ===== *)
-Q . S2P
Prelude.v
Utf8.v
Text.v
Frame.v
Presence.v
ChatText.v
Config.v
Prog.v
Schedule.v
Rely.v
Net.v
Binary64.v
RateLimit.v
Rounding.v
RateWindow.v
Registry.v
State.v
StateInv.v
Room.v
Admission.v
Connection.v
Server.v
Scenario.v
ServerTests.v
Broadcast.v
StateProps.v
Replay.v
Order.v
OrderProps.v
ConnectionProps.v
ClientNet.v
Tests.v
ClientApp.v
Render.v
Screen.v
Tui.v
Main.v
EndToEnd.v
