(* ===== verification/Prelude.v ===== *)
(** * drocsid: a verified model of the terminal chat server and client

    drocsid is a Cargo workspace: a TCP chat server ([crates/server], [crates/protocol],
    [crates/config]) and a terminal client ([crates/client], [crates/tui]), started by one
    executable ([apps/drocsid], [crates/cli]).  Clients send a handshake frame with a user
    name and then chat frames; the server keeps the registries of connected clients, a
    history of a hundred messages and a rate limiter, and sends every message and the user
    list to everybody.  This library is a shallow embedding of that program: functions as
    functions, state passed explicitly, errors as [result], panics as [exec], concurrency as
    interleavings of atomic sections.

    ** Files

    - [Prelude]: results, panics, bytes, list and map lemmas, automation.
    - [Utf8], [Text]: what the program uses of Rust's [char] and [String] (standard library):
      UTF-8, trimming, searching, slicing at byte offsets (off a boundary it panics).  The
      Unicode tables behind [is_alphanumeric] are the class [UnicodeTables].
    - [Frame], [Presence], [ChatText]: [protocol/src/lib.rs] (frames and the blocking reader;
      user lists; chat lines and mentions).
    - [Config]: [config/src/lib.rs], [cli/src/lib.rs] and the dispatch of
      [apps/drocsid/src/main.rs]; the parser clap generates is a parameter.
    - [Prog]: tasks as programs of atomic steps, and the relation that interleaves them;
      [Schedule]: schedules one can run, [Rely]: a rely-guarantee logic for programs.
    - [Net]: addresses, [ServerError], hash maps, and tokio's primitives as the class [Tokio]
      with its documented laws [TokioLaws]; [model_tokio] is an instance.
    - [Binary64], [RateLimit]: the token bucket of [state.rs] in IEEE binary64; [Rounding],
      [RateWindow]: rounding errors, and the limit over a window of time.
    - [Registry]: [ClientRegistry] of [state.rs]: sessions and the counters of the limits.
    - [State]: [ServerState] ([state.rs], [delivery.rs]): every function that locks it.
    - [StateInv]: the invariant [Inv] of the shared state; every section preserves it.
    - [Room]: the abstract specification of the server, a chat room.
    - [Admission]: [ConnectionAdmission] and [ConnectionPermit] of [server/src/lib.rs].
    - [Connection]: [connection.rs]: the handshake, a session, the outbound writer.
    - [Server]: [run_server_async]: accept loop, clean-up task, all handlers, [reachable];
      [Scenario]: a concrete run of it.
    - [Broadcast], [StateProps], [Replay], [ConnectionProps]: the functional behaviour of the
      server's operations.
    - [Order], [OrderProps]: the ghost state that orders the messages, and the whole server
      verified against it.
    - [ClientNet]: [client/src/network.rs]; [ClientApp]: [client/src/app.rs].
    - [Render], [Screen]: [tui/src/components.rs], [theme.rs], [layout.rs] and [render]; the
      layout solver of the widget library is the class [Widgets].
    - [Tui]: the client's main loop, [tui/src/lib.rs].
    - [Main]: [apps/drocsid/src/main.rs]: logging, launching, exit status; [EndToEnd]: client
      and server together.
    - [Tests], [ServerTests]: the repository's unit tests, run on the model.

    ** How state and operations correspond to the code

    The server's [Arc<ServerState>] and the objects its handles point to (channels, watch
    channels, atomic flags, sockets) are one record [State.World]; a channel is an identifier
    into it, so clones of a sender alias.  A function whose body is one critical section is an
    action of the monad [State.M] (state, [ServerError], panic); [locking] is the scope of a
    [MutexGuard] and poisons the lock when the body panics.  A function of several sections is
    a program ([Prog.prog]): [Step] runs an action atomically, [Ask] takes an answer from the
    environment (a timeout, the branch of a [select!], the wall clock, a socket write),
    [Spawn] starts a task, [Loop] iterates, and the replay barrier is held across sections by
    [with_barrier].  [csteps] interleaves all tasks at these points, and [Server.reachable] is
    what [run_server_async] can reach.  Reading a frame from a socket is one step: a read that
    never completes is a task that is never scheduled again.  Logging is dropped.

    A socket write is one step too, with one of two outcomes: the whole frame, or a failure
    (a timeout among them) that leaves a beginning of the frame, of the environment's choice,
    on the socket.  [written] holds the frames sent whole, [wire] every byte sent, torn frames
    included; a write in progress is a reader that has got a prefix of the bytes so far.
    [outlet] holds the socket each queue is drained to, in the code the pair of variables
    [outbound_writer] is started with.  The client's writes have the same two outcomes.

    Iteration over a [HashMap] takes its order from the class [HashOrder]; theorems hold for
    every order.  Time is a clock in nanoseconds that a task of its own advances.

    The client is sequential: a run of its loop is a function of a list of iterations, each
    with the events in the channel and the answers of terminal and socket.

    ** What the theorems show

    - Safety of the whole server ([Server]): in no interleaving does a task panic or a mutex
      get poisoned; the two registries agree; the connection limits and every memory bound
      hold.  [Admission]: permits are counted exactly.
    - The order of messages ([OrderProps]): in every interleaving there is one log of
      messages; every socket gets a replayed window of it and then its messages in order; what
      a ready client's socket was sent, what its writer has in hand and what its queue holds
      are together everything up to the last message; every execution is one of the abstract
      room.
    - Client and server ([EndToEnd]): what a user types is what the session is given, up to
      the first write that fails; what the server sends on a socket is shown by the client,
      which nothing disconnects but the end of the stream, inside a torn frame or not.
    - The executable ([Main]): what it starts, what it reports, the status it ends with.
    - Operations of the server: registration, removal, broadcast, presence, history, replay,
      a session's handling of a message and of the handshake, each on every branch
      ([StateProps], [Broadcast], [Replay], [ConnectionProps]).
    - Rate limiting ([RateLimit]): token counts are finite, between zero and the burst, the
      burst is exactly twenty, a message costs exactly one token.  Over a window of time a
      sender gets no more than the burst, the rate, and one message for all rounding errors,
      whatever the clean-up forgets, and the clean-up of idle limiters changes no answer
      ([RateWindow]).
    - Wire formats ([Frame], [Presence], [ChatText], [ConnectionProps]): round trips, both
      readers refine one specification whatever the chunks, errors.
    - The client ([ClientNet], [Render], [Screen], [Tui]): it never panics, its state stays
      well formed, it shows what the server sent, and what it writes is what the server's
      format reads back; each key and each event on every branch.
    - Divergences and defects stated as theorems: [ConnectionProps.impersonation],
      [ChatText.mentions_overlap_missed], [Frame.interrupted_read_asymmetry],
      [Replay.replay_race_duplicates], [Render.system_message_spoof],
      [Screen.mention_selection_visible], [Tui.notice_waits_for_enter].

    Theorems marked C1, C2, ... are the properties of the development; those with hypotheses
    are applied at a concrete input by a lemma named after them with [_witness].

    ** Bounds and fuel

    [Frame.read_frames] and [ClientNet.reader_loop] take fuel: one more than the number of
    frames, or than the number of bytes left, since a frame takes at least its six-byte
    header; [EndToEnd.session_contents] likewise; the theorems state the result for that fuel.
    Other recursions are structural.  [RateWindow.rate_limit_window] holds for windows of up to
    2^40 seconds and calls, where the rounding errors of all refills add up to less than one
    message.  The schedules of [Scenario] and [ServerTests] give each task enough steps for
    what they check; no theorem but their own evaluation depends on the numbers.
    Lengths are [nat] or [Z] where the code cannot overflow (they are bounded by the frame
    limit); 16-bit sums and [usize] decrements are checked, as in a build with overflow checks,
    and the theorems show that no check fails, so that a release build computes the same.

    ** The tests

    [Tests] and [ServerTests] state the repository's unit tests as definitions over the model
    and evaluate them: the tests' assertions hold of it.  A test that starts tasks is a
    schedule.  The tests of the command line are left out: they test the parser clap derives.

    ** Not modelled

    The drawing, wrapping and layout inside the widget library, the argument parser clap
    derives, tokio's scheduler and the operating system's sockets, which are parameters; log
    lines other than the error [main] reports.

    ** Planned

    The end of a session after its disconnect signal and the delivery of every queued frame,
    which need a fair scheduler; the composition of a client's socket with the server's, byte
    for byte, in one transition system. *)
From Stdlib Require Export ZArith Lia.
From Stdlib Require Import Strings.Byte.
From stdpp Require Export strings countable gmap.
From stdpp Require Export base tactics numbers option list.

#[global] Set Default Proof Using "Type".

(** ** Results: [Result<A, E>] of the source *)

Inductive result (E A : Type) : Type :=
  | Ok (a : A)
  | Err (e : E).
Arguments Ok {E A} a.
Arguments Err {E A} e.

#[export] Instance result_ret {E} : MRet (result E) := λ A a, Ok a.
#[export] Instance result_bind {E} : MBind (result E) := λ A B k m,
  match m with Ok a => k a | Err e => Err e end.
#[export] Instance result_fmap {E} : FMap (result E) := λ A B f m,
  match m with Ok a => Ok (f a) | Err e => Err e end.

Definition map_err {E E' A} (f : E → E') (m : result E A) : result E' A :=
  match m with Ok a => Ok a | Err e => Err (f e) end.

Definition ok_or {E A} (o : option A) (e : E) : result E A :=
  match o with Some a => Ok a | None => Err e end.

Definition is_ok {E A} (m : result E A) : bool :=
  match m with Ok _ => true | Err _ => false end.

#[export] Instance result_eq_dec {E A} `{EqDecision E, EqDecision A} :
  EqDecision (result E A).
Proof. solve_decision. Defined.

(** ** Computations that may panic

    Slicing a string off a character boundary, indexing out of range, unwrapping
    [None] and an arithmetic underflow abort the Rust thread.  [Panic] is that
    outcome; theorems show where it cannot happen. *)

Inductive exec (A : Type) : Type :=
  | Val (a : A)
  | Panic.
Arguments Val {A} a.
Arguments Panic {A}.

#[export] Instance exec_ret : MRet exec := λ A a, Val a.
#[export] Instance exec_bind : MBind exec := λ A B k m,
  match m with Val a => k a | Panic => Panic end.

Definition unwrap {A} (o : option A) : exec A :=
  match o with Some a => Val a | None => Panic end.

#[export] Instance exec_eq_dec {A} `{EqDecision A} : EqDecision (exec A).
Proof. solve_decision. Defined.

(** ** Machine bytes *)

Abbreviation u8 := Byte.byte (only parsing).

Definition u8_val (b : u8) : Z := Z.of_N (Byte.to_N b).

(** [z as u8]: the low eight bits. *)
Definition u8_of_Z (z : Z) : u8 := default Byte.x00 (Byte.of_N (Z.to_N (z `mod` 256))).

Lemma u8_val_bound b : (0 <= u8_val b < 256)%Z.
Proof. unfold u8_val. pose proof (Byte.to_N_bounded b). lia. Qed.

Lemma u8_val_of_Z z : u8_val (u8_of_Z z) = (z `mod` 256)%Z.
Proof.
  unfold u8_val, u8_of_Z.
  pose proof (Z.mod_pos_bound z 256 ltac:(lia)) as Hb.
  destruct (Byte.of_N (Z.to_N (z `mod` 256))) as [b|] eqn:E; cbn.
  - apply Byte.to_of_N in E. rewrite E. lia.
  - apply Byte.of_N_None_iff in E. lia.
Qed.

Lemma u8_val_of_Z_small z : (0 <= z < 256)%Z → u8_val (u8_of_Z z) = z.
Proof. intros. rewrite u8_val_of_Z. by apply Z.mod_small. Qed.

Lemma u8_of_Z_val b : u8_of_Z (u8_val b) = b.
Proof.
  unfold u8_of_Z. rewrite Z.mod_small by apply u8_val_bound.
  unfold u8_val. by rewrite N2Z.id, Byte.of_to_N.
Qed.

#[export] Instance u8_val_inj : Inj (=) (=) u8_val.
Proof. intros a b H. by rewrite <-(u8_of_Z_val a), H, u8_of_Z_val. Qed.

#[export] Instance u8_eq_dec : EqDecision u8.
Proof.
  intros a b. destruct (decide (u8_val a = u8_val b)) as [H|H].
  - left. by apply (inj u8_val).
  - right. congruence.
Defined.

(** [u8_bounds] brings the range of every byte value in sight into the context;
    [u8_lia] is [lia] with those ranges. *)
Ltac u8_bounds :=
  repeat match goal with
  | |- context [u8_val ?b] =>
      lazymatch goal with
      | _ : (0 <= u8_val b < 256)%Z |- _ => fail
      | _ => pose proof (u8_val_bound b)
      end
  | _ : context [u8_val ?b] |- _ =>
      lazymatch goal with
      | _ : (0 <= u8_val b < 256)%Z |- _ => fail
      | _ => pose proof (u8_val_bound b)
      end
  end.
Ltac u8_lia := u8_bounds; lia.

(** ** Lengths as machine integers *)

Definition zlen {A} (l : list A) : Z := Z.of_nat (length l).

Lemma zlen_app {A} (l k : list A) : zlen (l ++ k) = (zlen l + zlen k)%Z.
Proof. unfold zlen. rewrite length_app. lia. Qed.
Lemma zlen_nil {A} : zlen (@nil A) = 0%Z.
Proof. done. Qed.
Lemma zlen_cons {A} (x : A) l : zlen (x :: l) = (1 + zlen l)%Z.
Proof. unfold zlen. cbn [length]. lia. Qed.
Lemma zlen_nonneg {A} (l : list A) : (0 <= zlen l)%Z.
Proof. unfold zlen. lia. Qed.
Lemma Z_to_nat_zlen {A} (l : list A) : Z.to_nat (zlen l) = length l.
Proof. unfold zlen. lia. Qed.

Definition USIZE_MAX : Z := (2 ^ 64 - 1)%Z.
Definition U16_MAX : Z := (2 ^ 16 - 1)%Z.

(** ** Big-endian integers of the wire formats *)

Definition u16_to_be_bytes (z : Z) : list u8 := [u8_of_Z (z ≫ 8); u8_of_Z z].
Definition u16_from_be_bytes (b1 b0 : u8) : Z := (u8_val b1 * 256 + u8_val b0)%Z.
Definition u32_from_be_bytes (b3 b2 b1 b0 : u8) : Z :=
  (((u8_val b3 * 256 + u8_val b2) * 256 + u8_val b1) * 256 + u8_val b0)%Z.

Lemma u16_from_be_bytes_bound b1 b0 : (0 <= u16_from_be_bytes b1 b0 <= U16_MAX)%Z.
Proof. unfold u16_from_be_bytes, U16_MAX. u8_lia. Qed.

Lemma u32_from_be_bytes_bound b3 b2 b1 b0 :
  (0 <= u32_from_be_bytes b3 b2 b1 b0 < 2 ^ 32)%Z.
Proof. unfold u32_from_be_bytes. u8_lia. Qed.

Lemma u16_be_roundtrip z : (0 <= z <= U16_MAX)%Z →
  ∃ b1 b0, u16_to_be_bytes z = [b1; b0] ∧ u16_from_be_bytes b1 b0 = z.
Proof.
  intros Hz. exists (u8_of_Z (z ≫ 8)), (u8_of_Z z). split; [done|].
  unfold u16_from_be_bytes, U16_MAX in *. rewrite !u8_val_of_Z.
  rewrite Z.shiftr_div_pow2 by lia. change (2 ^ 8)%Z with 256%Z.
  rewrite (Z.mod_small (z `div` 256)%Z) by (split; [|apply Z.div_lt_upper_bound]; Z.to_euclidean_division_equations; lia).
  pose proof (Z.div_mod z 256). lia.
Qed.

Lemma u16_be_roundtrip_inv b1 b0 :
  u16_to_be_bytes (u16_from_be_bytes b1 b0) = [b1; b0].
Proof.
  unfold u16_to_be_bytes, u16_from_be_bytes.
  rewrite Z.shiftr_div_pow2 by lia. change (2 ^ 8)%Z with 256%Z.
  rewrite Z.div_add_l, Z.div_small, Z.add_0_r by u8_lia. rewrite u8_of_Z_val. f_equal.
  f_equal. apply (inj u8_val). rewrite u8_val_of_Z.
  rewrite Z.add_comm, Z.mod_add by lia. apply Z.mod_small. apply u8_val_bound.
Qed.

Lemma length_u16_to_be_bytes z : length (u16_to_be_bytes z) = 2.
Proof. done. Qed.

#[global] Arguments u8_val : simpl never.
#[global] Arguments u8_of_Z : simpl never.
#[global] Arguments u16_to_be_bytes : simpl never.
#[global] Arguments u16_from_be_bytes : simpl never.
#[global] Arguments u32_from_be_bytes : simpl never.
#[global] Arguments zlen : simpl never.

(** ** Generic list lemmas *)

(** [payload.get(a..b)] of a slice. *)
Definition slice {A} (l : list A) (a b : nat) : option (list A) :=
  if decide (a ≤ b ∧ b ≤ length l) then Some (take (b - a) (drop a l)) else None.

Lemma slice_app_mid {A} (l k m : list A) a b :
  a = length l → b = length l + length k → slice (l ++ k ++ m) a b = Some k.
Proof.
  intros -> ->. unfold slice. rewrite decide_True.
  - by rewrite drop_app_length, Nat.add_comm, Nat.add_sub, take_app_length.
  - rewrite !length_app. lia.
Qed.

Lemma slice_Some {A} (l k : list A) a b :
  slice l a b = Some k → ∃ p s, l = p ++ k ++ s ∧ length p = a ∧ b = a + length k.
Proof.
  unfold slice. case_decide as H; [|done]. intros [= <-].
  exists (take a l), (drop (b - a) (drop a l)). rewrite !take_drop.
  rewrite !length_take, length_drop. split_and!; [done|lia|lia].
Qed.

Lemma slice_None {A} (l : list A) a b :
  slice l a b = None ↔ b < a ∨ length l < b.
Proof. unfold slice. case_decide; split; intros; try done; lia. Qed.

(** The first element satisfying a test, replaced by its image ([iter_mut().find]). *)
Fixpoint alter_first {A} (p : A → bool) (f : A → A) (l : list A) : list A :=
  match l with
  | [] => []
  | x :: l => if p x then f x :: l else x :: alter_first p f l
  end.

Lemma length_alter_first {A} p (f : A → A) l : length (alter_first p f l) = length l.
Proof. induction l as [|x l IH]; cbn; [done|]. destruct (p x); cbn; auto. Qed.

(** The last [n] elements. *)
Definition lastn {A} (n : nat) (l : list A) : list A := drop (length l - n) l.

Lemma length_lastn {A} n (l : list A) : length (lastn n l) = n `min` length l.
Proof. unfold lastn. rewrite length_drop. lia. Qed.

Lemma lastn_snoc {A} n (l : list A) x :
  lastn (S n) (l ++ [x]) = lastn n l ++ [x].
Proof.
  unfold lastn. rewrite length_app. cbn [length].
  rewrite drop_app_le by lia. do 2 f_equal. lia.
Qed.

Lemma lastn_snoc_ex {A} n (l : list A) x : ∃ k, lastn (S n) (l ++ [x]) = k ++ [x].
Proof. exists (lastn n l). apply lastn_snoc. Qed.

Lemma lastn_all {A} n (l : list A) : length l ≤ n → lastn n l = l.
Proof. intros. unfold lastn. replace (length l - n) with 0 by lia. done. Qed.

Lemma lastn_lastn {A} n m (l : list A) : n ≤ m → lastn n (lastn m l) = lastn n l.
Proof.
  intros. unfold lastn. rewrite length_drop, drop_drop. f_equal. lia.
Qed.

Lemma lastn_app {A} n (l k : list A) : lastn n (lastn n l ++ k) = lastn n (l ++ k).
Proof.
  rewrite <-(lastn_lastn n (n + length k) (l ++ k)) by lia. f_equal.
  unfold lastn. rewrite length_app, drop_app_le by lia. do 2 f_equal. lia.
Qed.

(** ** Sums over finite maps *)

Definition msum `{Countable K} {V} (f : K → V → nat) (m : gmap K V) : nat :=
  map_fold (λ k v acc, f k v + acc) 0 m.
#[global] Arguments msum : simpl never.

Section msum.
Context `{Countable K} {V : Type}.
Implicit Types (f : K → V → nat) (m : gmap K V).

Lemma msum_empty f : msum f ∅ = 0.
Proof. apply map_fold_empty. Qed.

Lemma msum_insert_fresh f m k v : m !! k = None → msum f (<[k := v]> m) = f k v + msum f m.
Proof. intros Hk. apply (map_fold_insert_L (λ k v acc, f k v + acc)); [lia|done]. Qed.

Lemma msum_delete f m k v : m !! k = Some v → msum f m = f k v + msum f (delete k m).
Proof.
  intros Hk. rewrite <-(insert_delete_id m k v Hk) at 1.
  apply msum_insert_fresh. apply lookup_delete_eq.
Qed.

(** Overwriting an entry, present or not. *)
Lemma msum_insert f m k v :
  msum f (<[k := v]> m) = f k v + msum f (delete k m).
Proof. rewrite <-insert_delete_eq. apply msum_insert_fresh, lookup_delete_eq. Qed.

Lemma msum_delete_default f m k :
  msum f m = from_option (f k) 0 (m !! k) + msum f (delete k m).
Proof.
  destruct (m !! k) as [v|] eqn:Hk; cbn.
  - by apply msum_delete.
  - by rewrite delete_id.
Qed.

Lemma msum_lookup_le f m k v : m !! k = Some v → f k v ≤ msum f m.
Proof. intros Hk. rewrite (msum_delete f m k v Hk). lia. Qed.

Lemma msum_zero f m : (∀ k v, m !! k = Some v → f k v = 0) → msum f m = 0.
Proof.
  intros Hz. induction m as [|k v m Hk IH] using map_ind; [apply msum_empty|].
  rewrite msum_insert_fresh by done. rewrite IH, (Hz k v); [done|by rewrite lookup_insert_eq|].
  intros k' v' Hl. apply Hz. rewrite lookup_insert_ne; [done|]. by intros ->; simplify_eq.
Qed.

Lemma msum_le f g m : (∀ k v, m !! k = Some v → f k v ≤ g k v) → msum f m ≤ msum g m.
Proof.
  intros Hz. induction m as [|k v m Hk IH] using map_ind; [by rewrite !msum_empty|].
  rewrite !msum_insert_fresh by done.
  assert (f k v ≤ g k v) by (apply Hz; by rewrite lookup_insert_eq).
  assert (msum f m ≤ msum g m); [|lia].
  apply IH. intros k' v' Hl. apply Hz. rewrite lookup_insert_ne; [done|]. by intros ->; simplify_eq.
Qed.
End msum.

(** Checked subtraction on [usize]: an underflow panics. *)
Definition checked_sub (n m : nat) : exec nat :=
  if decide (m ≤ n) then Val (n - m) else Panic.

Lemma checked_sub_Val n m : m ≤ n → checked_sub n m = Val (n - m).
Proof. intros. unfold checked_sub. by rewrite decide_True. Qed.

(** Keys that appear once: removing the elements with a key removes one element. *)
Lemma filter_key_length {A B} `{EqDecision B} (f : A → B) (k : B) (l : list A) :
  NoDup (f <$> l) →
  length (filter (λ x, f x ≠ k) l) = length l - (if decide (k ∈ f <$> l) then 1 else 0).
Proof.
  induction l as [|x l IH]; intros Hnd; [done|]. rewrite fmap_cons in Hnd |- *.
  apply NoDup_cons in Hnd as [Hx Hnd]. specialize (IH Hnd). rewrite filter_cons.
  destruct (decide (f x = k)) as [Hk|Hne].
  - rewrite Hk in Hx |- *. rewrite decide_False by (intros H; by apply H).
    rewrite (decide_True (P := k ∈ k :: _)) by (by left).
    rewrite IH, decide_False by done. cbn. lia.
  - rewrite (decide_True (P := f x ≠ k)) by done. cbn [length]. rewrite IH.
    assert (∀ k' : B, k' ∈ f <$> l → 1 ≤ length l) as Hlen.
    { intros k' Hk'. destruct l; [by apply not_elem_of_nil in Hk'|cbn; lia]. }
    destruct (decide (k ∈ f <$> l)) as [Hin|Hin].
    + rewrite decide_True by (by right). specialize (Hlen _ Hin). lia.
    + rewrite decide_False; [lia|]. intros [->|?]%elem_of_cons; done.
Qed.

Lemma filter_map_key {A B} `{EqDecision B} (f : A → B) (k : B) (l : list A) :
  f <$> filter (λ x, f x ≠ k) l = filter (λ y, y ≠ k) (f <$> l).
Proof.
  induction l as [|x l IH]; [done|]. rewrite fmap_cons, !filter_cons.
  destruct (decide (f x ≠ k)); rewrite ?fmap_cons; by rewrite IH.
Qed.

(** ** Automation *)

Create HintDb drocsid discriminated.
#[export] Hint Resolve u8_val_bound zlen_nonneg u16_from_be_bytes_bound
  u32_from_be_bytes_bound : drocsid.
Create HintDb drocsid_rw.
#[export] Hint Rewrite @zlen_app @zlen_nil @zlen_cons @length_app
  @length_u16_to_be_bytes : drocsid_rw.

(** [simp_result]: reads off a successful monadic step. *)
Ltac simp_result :=
  repeat first
    [ progress simplify_eq/=
    | match goal with
      | H : context [match ?x with _ => _ end] |- _ =>
          is_var x; destruct x
      end ].

(** [decide_goal]: case on the first test of the conclusion only. *)
Ltac decide_goal :=
  match goal with |- context [decide ?P] => destruct (decide P) end.
