(* ===== verification/Utf8.v ===== *)
(** Rust's [char] and [str]: Unicode scalar values, strings as sequences of them, and
    the UTF-8 bytes they stand for ([as_bytes], [from_utf8], [len]).  The decoder is the
    strict one of the standard library: overlong forms, surrogates and values above
    U+10FFFF are refused.  The codec is proved a bijection between strings and the byte
    sequences it accepts, so the rest of the development works on [str]. *)
From Stdlib Require Import Eqdep_dec.
From S2P Require Import Prelude.


#[local] Open Scope Z_scope.

(** ** Characters *)

Definition is_scalar (z : Z) : bool :=
  ((0 <=? z) && (z <? 0xD800)) || ((0xE000 <=? z) && (z <=? 0x10FFFF)).

(** A [char] carries the proof that its code is a scalar value; the proof is a boolean
    equality, so characters with equal codes are equal. *)
Record char := mk_char { code : Z; code_ok : is_scalar code = true }.

Lemma char_ext (c d : char) : code c = code d → c = d.
Proof.
  destruct c as [x Hx], d as [y Hy]. cbn. intros ->. f_equal.
  apply UIP_dec, Bool.bool_dec.
Qed.

#[export] Instance code_inj : Inj (=) (=) code.
Proof. intros c d. apply char_ext. Qed.

#[export] Instance char_eq_dec : EqDecision char.
Proof.
  intros c d. destruct (decide (code c = code d)) as [H|H].
  - left. by apply char_ext.
  - right. congruence.
Defined.

(** [char::from_u32] *)
Definition of_code (z : Z) : option char :=
  match is_scalar z as b return is_scalar z = b → option char with
  | true => λ H, Some (mk_char z H)
  | false => λ _, None
  end eq_refl.

Lemma of_code_code c : of_code (code c) = Some c.
Proof.
  unfold of_code.
  assert (∀ b (H : is_scalar (code c) = b), b = true →
    (match b as b return is_scalar (code c) = b → option char with
     | true => λ H, Some (mk_char (code c) H) | false => λ _, None end) H = Some c) as Haux.
  { intros [] H ?; [|done]. f_equal. by apply char_ext. }
  apply Haux, code_ok.
Qed.

Lemma of_code_Some z c : of_code z = Some c → code c = z.
Proof.
  unfold of_code.
  assert (∀ b (H : is_scalar z = b),
    (match b as b return is_scalar z = b → option char with
     | true => λ H, Some (mk_char z H) | false => λ _, None end) H = Some c → code c = z) as Haux.
  { intros [] H ?; simplify_eq/=; done. }
  apply Haux.
Qed.

Lemma of_code_None z : of_code z = None → is_scalar z = false.
Proof.
  unfold of_code.
  assert (∀ b (H : is_scalar z = b),
    (match b as b return is_scalar z = b → option char with
     | true => λ H, Some (mk_char z H) | false => λ _, None end) H = None → b = false) as Haux.
  { intros [] H ?; simplify_eq/=; done. }
  apply Haux.
Qed.

Lemma code_bound c : 0 <= code c <= 0x10FFFF.
Proof. pose proof (code_ok c) as H. unfold is_scalar in H. lia. Qed.

Lemma code_not_surrogate c : code c < 0xD800 ∨ 0xE000 <= code c.
Proof. pose proof (code_ok c) as H. unfold is_scalar in H. lia. Qed.

(** The replacement character stands for the codes that are no character. *)
Definition chr (z : Z) : char := default (mk_char 0xFFFD eq_refl) (of_code z).

(** ** Encoding *)

Definition len_utf8 (c : char) : nat :=
  if code c <? 0x80 then 1 else if code c <? 0x800 then 2
  else if code c <? 0x10000 then 3 else 4.

Definition encode_char (c : char) : list u8 :=
  let z := code c in
  if z <? 0x80 then [u8_of_Z z]
  else if z <? 0x800 then [u8_of_Z (0xC0 + z `div` 64); u8_of_Z (0x80 + z `mod` 64)]
  else if z <? 0x10000 then
    [u8_of_Z (0xE0 + z `div` 4096); u8_of_Z (0x80 + (z `div` 64) `mod` 64);
     u8_of_Z (0x80 + z `mod` 64)]
  else
    [u8_of_Z (0xF0 + z `div` 262144); u8_of_Z (0x80 + (z `div` 4096) `mod` 64);
     u8_of_Z (0x80 + (z `div` 64) `mod` 64); u8_of_Z (0x80 + z `mod` 64)].

Abbreviation str := (list char).

(** [str::as_bytes] *)
Fixpoint as_bytes (s : str) : list u8 :=
  match s with
  | [] => []
  | c :: s => encode_char c ++ as_bytes s
  end.

(** [str::len]: the number of bytes. *)
Definition blen (s : str) : nat := length (as_bytes s).
#[global] Arguments blen : simpl never.

(** ** Decoding *)

Definition is_cont (b : u8) : bool := (0x80 <=? u8_val b) && (u8_val b <? 0xC0).
Definition cont_bits (b : u8) : Z := u8_val b - 0x80.

(** A code of a multi-byte form is accepted when it needs that many bytes. *)
Definition code_at_least (min z : Z) : option char :=
  if min <=? z then of_code z else None.

(** [std::str::from_utf8] / [String::from_utf8] *)
Fixpoint from_utf8 (bs : list u8) : option str :=
  match bs with
  | [] => Some []
  | b0 :: bs0 =>
    let z0 := u8_val b0 in
    if z0 <? 0x80 then c ← of_code z0; s ← from_utf8 bs0; Some (c :: s)
    else if z0 <? 0xC0 then None
    else match bs0 with
    | [] => None
    | b1 :: bs1 =>
      if negb (is_cont b1) then None
      else if z0 <? 0xE0 then
        c ← code_at_least 0x80 ((z0 - 0xC0) * 64 + cont_bits b1);
        s ← from_utf8 bs1; Some (c :: s)
      else match bs1 with
      | [] => None
      | b2 :: bs2 =>
        if negb (is_cont b2) then None
        else if z0 <? 0xF0 then
          c ← code_at_least 0x800 (((z0 - 0xE0) * 64 + cont_bits b1) * 64 + cont_bits b2);
          s ← from_utf8 bs2; Some (c :: s)
        else match bs2 with
        | [] => None
        | b3 :: bs3 =>
          if negb (is_cont b3) then None
          else if z0 <? 0xF8 then
            c ← code_at_least 0x10000
              ((((z0 - 0xF0) * 64 + cont_bits b1) * 64 + cont_bits b2) * 64 + cont_bits b3);
            s ← from_utf8 bs3; Some (c :: s)
          else None
        end
      end
    end
  end.

(** String literals of the source. *)
Definition lit (s : string) : str :=
  default [] (from_utf8 (String.list_byte_of_string s)).
#[global] Arguments lit : simpl never.

(** ** The codec is a bijection *)

Ltac div_mod_lia := Z.to_euclidean_division_equations; lia.

Lemma length_encode_char c : length (encode_char c) = len_utf8 c.
Proof. unfold encode_char, len_utf8. repeat case_match; done. Qed.

Lemma len_utf8_pos c : (1 ≤ len_utf8 c ≤ 4)%nat.
Proof. unfold len_utf8. repeat case_match; lia. Qed.

Lemma is_cont_of_Z z : 0 <= z < 64 → is_cont (u8_of_Z (0x80 + z)) = true.
Proof. intros. unfold is_cont. rewrite u8_val_of_Z_small by lia. lia. Qed.

Lemma cont_bits_of_Z z : 0 <= z < 64 → cont_bits (u8_of_Z (0x80 + z)) = z.
Proof. intros. unfold cont_bits. rewrite u8_val_of_Z_small by lia. lia. Qed.

Lemma mod64_bound z : 0 <= z `mod` 64 < 64.
Proof. apply Z.mod_pos_bound. lia. Qed.

Lemma code_at_least_code min c z :
  min <= code c → z = code c → code_at_least min z = Some c.
Proof.
  intros ? ->. unfold code_at_least. rewrite (proj2 (Z.leb_le _ _)) by done.
  apply of_code_code.
Qed.

Lemma from_utf8_encode_char c bs :
  from_utf8 (encode_char c ++ bs) = s ← from_utf8 bs; Some (c :: s).
Proof.
  pose proof (code_bound c) as Hc. unfold encode_char.
  destruct (Z.ltb_spec (code c) 0x80);
    [|destruct (Z.ltb_spec (code c) 0x800); [|destruct (Z.ltb_spec (code c) 0x10000)]];
    cbn [app from_utf8].
  - rewrite u8_val_of_Z_small by lia.
    rewrite (proj2 (Z.ltb_lt _ _)) by lia. by rewrite of_code_code.
  - rewrite u8_val_of_Z_small by div_mod_lia.
    rewrite (proj2 (Z.ltb_ge _ 0x80)), (proj2 (Z.ltb_ge _ 0xC0)), (proj2 (Z.ltb_lt _ 0xE0))
      by div_mod_lia.
    rewrite is_cont_of_Z, cont_bits_of_Z by apply mod64_bound. cbn [negb].
    by rewrite (code_at_least_code _ c) by div_mod_lia.
  - rewrite u8_val_of_Z_small by div_mod_lia.
    rewrite (proj2 (Z.ltb_ge _ 0x80)), (proj2 (Z.ltb_ge _ 0xC0)),
      (proj2 (Z.ltb_ge _ 0xE0)), (proj2 (Z.ltb_lt _ 0xF0)) by div_mod_lia.
    rewrite !is_cont_of_Z, !cont_bits_of_Z by apply mod64_bound. cbn [negb].
    by rewrite (code_at_least_code _ c) by div_mod_lia.
  - rewrite u8_val_of_Z_small by div_mod_lia.
    rewrite (proj2 (Z.ltb_ge _ 0x80)), (proj2 (Z.ltb_ge _ 0xC0)),
      (proj2 (Z.ltb_ge _ 0xE0)), (proj2 (Z.ltb_ge _ 0xF0)), (proj2 (Z.ltb_lt _ 0xF8))
      by div_mod_lia.
    rewrite !is_cont_of_Z, !cont_bits_of_Z by apply mod64_bound. cbn [negb].
    by rewrite (code_at_least_code _ c) by div_mod_lia.
Qed.

Lemma from_utf8_as_bytes s : from_utf8 (as_bytes s) = Some s.
Proof.
  induction s as [|c s IH]; [done|]. cbn [as_bytes].
  by rewrite from_utf8_encode_char, IH.
Qed.

#[export] Instance as_bytes_inj : Inj (=) (=) as_bytes.
Proof.
  intros s t H. apply (f_equal from_utf8) in H. rewrite !from_utf8_as_bytes in H. congruence.
Qed.

Lemma code_at_least_Some min z c :
  code_at_least min z = Some c → code c = z ∧ min <= z.
Proof.
  unfold code_at_least. destruct (Z.leb_spec min z); [|done]. intros H1.
  apply of_code_Some in H1. lia.
Qed.

Lemma is_cont_inv b : is_cont b = true → u8_of_Z (0x80 + cont_bits b) = b ∧ 0 <= cont_bits b < 64.
Proof.
  unfold is_cont, cont_bits. intros H. replace (0x80 + (u8_val b - 0x80)) with (u8_val b) by lia.
  rewrite u8_of_Z_val. split; [done|lia].
Qed.

(** The encoded form of a character, from the bit groups the decoder reads. *)
Lemma encode_char_1 c : code c < 0x80 → encode_char c = [u8_of_Z (code c)].
Proof. intros. unfold encode_char. by rewrite (proj2 (Z.ltb_lt _ 0x80)) by lia. Qed.

Lemma encode_char_2 c a b :
  code c = a * 64 + b → 0 <= b < 64 → 0x80 <= code c → a < 32 →
  encode_char c = [u8_of_Z (0xC0 + a); u8_of_Z (0x80 + b)].
Proof.
  intros Hc ???. unfold encode_char.
  rewrite (proj2 (Z.ltb_ge _ 0x80)), (proj2 (Z.ltb_lt _ 0x800)) by lia.
  by replace (code c `div` 64) with a by div_mod_lia;
    replace (code c `mod` 64) with b by div_mod_lia.
Qed.

Lemma encode_char_3 c a b d :
  code c = (a * 64 + b) * 64 + d → 0 <= b < 64 → 0 <= d < 64 → 0x800 <= code c → a < 16 →
  encode_char c = [u8_of_Z (0xE0 + a); u8_of_Z (0x80 + b); u8_of_Z (0x80 + d)].
Proof.
  intros Hc ????. unfold encode_char.
  rewrite (proj2 (Z.ltb_ge _ 0x80)), (proj2 (Z.ltb_ge _ 0x800)),
    (proj2 (Z.ltb_lt _ 0x10000)) by lia.
  replace (code c `div` 4096) with a by div_mod_lia.
  replace (code c `div` 64) with (a * 64 + b) by div_mod_lia.
  by replace ((a * 64 + b) `mod` 64) with b by div_mod_lia;
    replace (code c `mod` 64) with d by div_mod_lia.
Qed.

Lemma encode_char_4 c a b d e :
  code c = ((a * 64 + b) * 64 + d) * 64 + e →
  0 <= b < 64 → 0 <= d < 64 → 0 <= e < 64 → 0x10000 <= code c →
  encode_char c =
    [u8_of_Z (0xF0 + a); u8_of_Z (0x80 + b); u8_of_Z (0x80 + d); u8_of_Z (0x80 + e)].
Proof.
  intros Hc ????. unfold encode_char.
  rewrite (proj2 (Z.ltb_ge _ 0x80)), (proj2 (Z.ltb_ge _ 0x800)),
    (proj2 (Z.ltb_ge _ 0x10000)) by lia.
  replace (code c `div` 262144) with a by div_mod_lia.
  replace (code c `div` 4096) with (a * 64 + b) by div_mod_lia.
  replace (code c `div` 64) with ((a * 64 + b) * 64 + d) by div_mod_lia.
  replace ((a * 64 + b) `mod` 64) with b by div_mod_lia.
  by replace (((a * 64 + b) * 64 + d) `mod` 64) with d by div_mod_lia;
    replace (code c `mod` 64) with e by div_mod_lia.
Qed.

Lemma u8_of_lead k b : u8_of_Z (k + (u8_val b - k)) = b.
Proof. replace (k + (u8_val b - k)) with (u8_val b) by lia. apply u8_of_Z_val. Qed.

(** One decoding step accepted: the rest decodes, and the character is named. *)
Ltac utf8_step Hs IH :=
  match type of Hs with
  | (?o ≫= _) = Some _ =>
      let c := fresh "c" in let Hc := fresh "Hc" in
      destruct o as [c|] eqn:Hc; [|done]; cbn in Hs;
      match type of Hs with
      | (from_utf8 ?r ≫= _) = Some _ =>
          let s := fresh "s" in let Hr := fresh "Hr" in
          destruct (from_utf8 r) as [s|] eqn:Hr; [|done]; simplify_eq/=;
          apply IH in Hr; [|lia]; rewrite Hr;
          first [apply code_at_least_Some in Hc as [Hc ?] | apply of_code_Some in Hc]
      end
  end.
(** One continuation byte accepted. *)
Ltac utf8_cont bs Hs Hle b E B :=
  destruct bs as [|b bs]; [done|]; cbn [length] in Hle;
  destruct (is_cont b) eqn:E; [|done]; cbn [negb] in Hs;
  apply is_cont_inv in E as [E B].

Lemma as_bytes_from_utf8_aux n bs s :
  (length bs ≤ n)%nat → from_utf8 bs = Some s → as_bytes s = bs.
Proof.
  revert bs s. induction n as [|n IH]; intros bs s Hle Hs.
  { destruct bs; cbn in *; [by simplify_eq|lia]. }
  destruct bs as [|b0 bs]; cbn [from_utf8] in Hs; [by simplify_eq|].
  cbn [length] in Hle. pose proof (u8_val_bound b0) as Hb0.
  destruct (Z.ltb_spec (u8_val b0) 0x80).
  { utf8_step Hs IH. by rewrite encode_char_1, Hc, u8_of_Z_val by lia. }
  destruct (Z.ltb_spec (u8_val b0) 0xC0); [done|].
  utf8_cont bs Hs Hle b1 E1 B1. destruct (Z.ltb_spec (u8_val b0) 0xE0).
  { utf8_step Hs IH. erewrite encode_char_2 by (done || lia). by rewrite u8_of_lead, E1. }
  utf8_cont bs Hs Hle b2 E2 B2. destruct (Z.ltb_spec (u8_val b0) 0xF0).
  { utf8_step Hs IH. erewrite encode_char_3 by (done || lia). by rewrite u8_of_lead, E1, E2. }
  utf8_cont bs Hs Hle b3 E3 B3. destruct (Z.ltb_spec (u8_val b0) 0xF8); [|done].
  utf8_step Hs IH. erewrite encode_char_4 by (done || lia). by rewrite u8_of_lead, E1, E2, E3.
Qed.

Lemma as_bytes_from_utf8 bs s : from_utf8 bs = Some s → as_bytes s = bs.
Proof. by apply as_bytes_from_utf8_aux with (length bs). Qed.

Lemma from_utf8_iff bs s : from_utf8 bs = Some s ↔ as_bytes s = bs.
Proof. split; [apply as_bytes_from_utf8|intros <-; apply from_utf8_as_bytes]. Qed.

(** ** Lengths *)

#[local] Open Scope nat_scope.

Lemma as_bytes_app s t : as_bytes (s ++ t) = as_bytes s ++ as_bytes t.
Proof. induction s as [|c s IH]; cbn; [done|]. by rewrite IH, app_assoc. Qed.

Lemma blen_nil : blen [] = 0.
Proof. done. Qed.
Lemma blen_cons c s : blen (c :: s) = len_utf8 c + blen s.
Proof. unfold blen. cbn. by rewrite length_app, length_encode_char. Qed.
Lemma blen_app s t : blen (s ++ t) = blen s + blen t.
Proof. unfold blen. by rewrite as_bytes_app, length_app. Qed.
Lemma blen_zero s : blen s = 0 → s = [].
Proof. destruct s as [|c s]; [done|]. rewrite blen_cons. pose proof (len_utf8_pos c). lia. Qed.
#[export] Hint Rewrite blen_nil blen_cons blen_app : drocsid_rw.

Lemma length_le_blen s : length s ≤ blen s.
Proof.
  induction s as [|c s IH]; [done|]. rewrite blen_cons. cbn.
  pose proof (len_utf8_pos c). lia.
Qed.

(** Prefixes of a string are told apart by their byte length. *)
Lemma app_inj_blen s1 s2 t1 t2 :
  s1 ++ s2 = t1 ++ t2 → blen s1 = blen t1 → s1 = t1 ∧ s2 = t2.
Proof.
  revert t1. induction s1 as [|c s1 IH]; intros [|d t1] H Hl; cbn in H.
  - done.
  - rewrite blen_cons in Hl. pose proof (len_utf8_pos d). rewrite blen_nil in Hl. lia.
  - rewrite blen_cons in Hl. pose proof (len_utf8_pos c). rewrite blen_nil in Hl. lia.
  - simplify_eq. rewrite !blen_cons in Hl. destruct (IH t1); [done|lia|]. by subst.
Qed.

Example lit_ascii : map code (lit "ab:") = [97; 98; 58]%Z.
Proof. reflexivity. Qed.
Example lit_euro : map code (lit "x€") = [120; 8364]%Z.
Proof. vm_compute. reflexivity. Qed.
