(* ===== verification/Text.v ===== *)
(** The [char] and [str] operations of the standard library the program uses: character
    classes, trimming, searching, slicing at byte offsets (with the panic or [None] of an
    offset inside a character), ASCII case folding.  Offsets are byte offsets, as in Rust. *)
From S2P Require Import Prelude Utf8.

(** ** Character classes *)

(** [char::is_control]: general category Cc. *)
Definition is_control (c : char) : bool :=
  ((code c <? 0x20) || ((0x7F <=? code c) && (code c <? 0xA0)))%Z.

(** [char::is_whitespace]: the Unicode property White_Space. *)
Definition is_whitespace (c : char) : bool :=
  (((0x09 <=? code c) && (code c <=? 0x0D)) || (code c =? 0x20) || (code c =? 0x85)
   || (code c =? 0xA0) || (code c =? 0x1680)
   || ((0x2000 <=? code c) && (code c <=? 0x200A))
   || (code c =? 0x2028) || (code c =? 0x2029) || (code c =? 0x202F)
   || (code c =? 0x205F) || (code c =? 0x3000))%Z.

Definition is_ascii_alphanumeric (c : char) : bool :=
  (((48 <=? code c) && (code c <=? 57)) || ((65 <=? code c) && (code c <=? 90))
   || ((97 <=? code c) && (code c <=? 122)))%Z.

(** Outside ASCII, [char::is_alphanumeric] reads the tables of the Unicode release the
    compiler ships; the model takes that part as a parameter. *)
Class UnicodeTables := unicode_alphanumeric : char → bool.

Definition is_alphanumeric `{UnicodeTables} (c : char) : bool :=
  if (code c <? 0x80)%Z then is_ascii_alphanumeric c else unicode_alphanumeric c.

(** A table for concrete runs: Latin-1 and Latin Extended letters. *)
Definition latin_tables : UnicodeTables := λ c, ((0xC0 <=? code c) && (code c <? 0x250))%Z.

Definition to_ascii_lowercase_char (c : char) : char :=
  if ((65 <=? code c) && (code c <=? 90))%Z then chr (code c + 32) else c.
Definition to_ascii_lowercase (s : str) : str := map to_ascii_lowercase_char s.

(** ** Trimming *)

Fixpoint trim_start_by (p : char → bool) (s : str) : str :=
  match s with
  | [] => []
  | c :: s' => if p c then trim_start_by p s' else s
  end.
Definition trim_end_by (p : char → bool) (s : str) : str :=
  reverse (trim_start_by p (reverse s)).

Definition trim (s : str) : str := trim_end_by is_whitespace (trim_start_by is_whitespace s).
Definition trim_end (s : str) : str := trim_end_by is_whitespace s.
(** [trim_end_matches(ch)] *)
Definition trim_end_matches (ch : char) (s : str) : str :=
  trim_end_by (λ c, bool_decide (c = ch)) s.

Definition is_empty {A} (l : list A) : bool := match l with [] => true | _ => false end.

(** ** Searching *)

Fixpoint starts_with (p s : str) : bool :=
  match p, s with
  | [], _ => true
  | c :: p, d :: s => bool_decide (c = d) && starts_with p s
  | _ :: _, [] => false
  end.

(** [s.find(p)] *)
Fixpoint find (p s : str) : option nat :=
  if starts_with p s then Some 0
  else match s with
       | [] => None
       | c :: s' => Nat.add (len_utf8 c) <$> find p s'
       end.

(** [s.rfind(ch)] for a character *)
Fixpoint rfind (ch : char) (s : str) : option nat :=
  match s with
  | [] => None
  | c :: s' =>
      match rfind ch s' with
      | Some i => Some (len_utf8 c + i)
      | None => if decide (c = ch) then Some 0 else None
      end
  end.

Definition contains_char (p : char → bool) (s : str) : bool := existsb p s.

(** ** Slicing at byte offsets *)

(** [s.split_at(n)], [None] where [n] is out of range or not a character boundary. *)
Fixpoint split_at (s : str) (n : nat) : option (str * str) :=
  match n, s with
  | O, _ => Some ([], s)
  | S _, [] => None
  | S _, c :: s' =>
      if decide (len_utf8 c ≤ n) then
        '(a, b) ← split_at s' (n - len_utf8 c); Some (c :: a, b)
      else None
  end.

(** [s.get(a..)], [s.get(a..b)]: [None] off the boundaries. *)
Definition get_from (s : str) (a : nat) : option str := snd <$> split_at s a.
Definition get_range (s : str) (a b : nat) : option str :=
  if decide (a ≤ b) then t ← get_from s a; fst <$> split_at t (b - a) else None.

(** [&s[a..]], [&s[..a]] and [s.truncate(a)] panic there. *)
Definition index_from (s : str) (a : nat) : exec str := unwrap (get_from s a).
Definition index_to (s : str) (a : nat) : exec str := unwrap (fst <$> split_at s a).
Definition truncate (s : str) (a : nat) : exec str :=
  if decide (a ≤ blen s) then index_to s a else Val s.

(** ** Trimming: lemmas *)

Lemma trim_start_by_split p s :
  ∃ w, s = w ++ trim_start_by p s ∧ forallb p w = true.
Proof.
  induction s as [|c s (w & Hs & Hw)]; [by exists []|]. cbn.
  destruct (p c) eqn:Hc; [|by exists []].
  exists (c :: w). cbn. rewrite Hc, Hw. split; [by f_equal|done].
Qed.

Lemma trim_start_by_head p s c t : trim_start_by p s = c :: t → p c = false.
Proof.
  induction s as [|d s IH]; cbn; [done|]. destruct (p d) eqn:Hd; [auto|].
  intros [= <- _]. done.
Qed.

Lemma trim_start_by_id p s :
  match s with c :: _ => p c = false | [] => True end → trim_start_by p s = s.
Proof. destruct s as [|c s]; cbn; [done|]. by intros ->. Qed.

Lemma trim_start_by_nil p s : trim_start_by p s = [] ↔ forallb p s = true.
Proof.
  induction s as [|c s IH]; cbn; [done|]. destruct (p c); cbn; [done|].
  split; intros; done.
Qed.

Lemma trim_end_by_split p s :
  ∃ w, s = trim_end_by p s ++ w ∧ forallb p w = true.
Proof.
  unfold trim_end_by. destruct (trim_start_by_split p (reverse s)) as (w & Hs & Hw).
  exists (reverse w). rewrite <-reverse_app, <-Hs, reverse_involutive. split; [done|].
  rewrite forallb_forall in Hw |- *. intros x Hx. apply Hw.
  apply list_elem_of_In, elem_of_reverse, list_elem_of_In, Hx.
Qed.

Lemma trim_end_by_nil p s : trim_end_by p s = [] ↔ forallb p s = true.
Proof.
  unfold trim_end_by. split.
  - intros H. apply (f_equal reverse) in H. rewrite reverse_involutive in H.
    apply trim_start_by_nil in H. rewrite forallb_forall in *. intros x Hx. apply H.
    apply list_elem_of_In, elem_of_reverse, list_elem_of_In, Hx.
  - intros H. replace (trim_start_by p (reverse s)) with (@nil char); [done|].
    symmetry. apply trim_start_by_nil. rewrite forallb_forall in *. intros x Hx. apply H.
    apply list_elem_of_In, elem_of_reverse, list_elem_of_In, Hx.
Qed.

Lemma trim_end_by_id p s :
  match last s with Some c => p c = false | None => True end → trim_end_by p s = s.
Proof.
  unfold trim_end_by. intros H. rewrite trim_start_by_id; [apply reverse_involutive|].
  destruct s as [|c s _] using rev_ind; [done|].
  rewrite last_snoc in H. by rewrite reverse_snoc.
Qed.

(** What [trim] leaves: an infix between whitespace, with no whitespace at its ends. *)
Lemma trim_split s :
  ∃ w1 w2, s = w1 ++ trim s ++ w2 ∧
    forallb is_whitespace w1 = true ∧ forallb is_whitespace w2 = true.
Proof.
  destruct (trim_start_by_split is_whitespace s) as (w1 & H1 & Hw1).
  destruct (trim_end_by_split is_whitespace (trim_start_by is_whitespace s)) as (w2 & H2 & Hw2).
  exists w1, w2. split_and!; [|done..]. rewrite H1 at 1. by rewrite H2 at 1.
Qed.

Lemma trim_nil_iff s : trim s = [] ↔ forallb is_whitespace s = true.
Proof.
  unfold trim. rewrite trim_end_by_nil.
  destruct (trim_start_by_split is_whitespace s) as (w & Hs & Hw).
  rewrite Hs at 2. rewrite forallb_app, Hw. done.
Qed.

Lemma trim_end_by_head p s c t : trim_end_by p s = c :: t → ∃ t', s = c :: t'.
Proof.
  destruct (trim_end_by_split p s) as (w & Hs & _). intros H. rewrite H in Hs. eauto.
Qed.

Lemma trim_end_by_last p s c : last (trim_end_by p s) = Some c → p c = false.
Proof.
  unfold trim_end_by. rewrite last_reverse.
  destruct (trim_start_by p (reverse s)) eqn:E; [done|]. intros [= ->].
  by apply trim_start_by_head in E.
Qed.

Lemma trim_head s c t : trim s = c :: t → is_whitespace c = false.
Proof.
  unfold trim. intros H. apply trim_end_by_head in H as [t' H].
  by apply trim_start_by_head in H.
Qed.

Lemma trim_last s c : last (trim s) = Some c → is_whitespace c = false.
Proof. unfold trim. apply trim_end_by_last. Qed.

Lemma trim_id s :
  match s with c :: _ => is_whitespace c = false | [] => True end →
  match last s with Some c => is_whitespace c = false | None => True end →
  trim s = s.
Proof. intros H1 H2. unfold trim. by rewrite trim_start_by_id, trim_end_by_id. Qed.

Lemma trim_trim s : trim (trim s) = trim s.
Proof.
  apply trim_id.
  - destruct (trim s) eqn:E; [done|]. by eapply trim_head.
  - destruct (last (trim s)) eqn:E; [|done]. by eapply trim_last.
Qed.

Lemma blen_trim s : blen (trim s) ≤ blen s.
Proof.
  destruct (trim_split s) as (w1 & w2 & Hs & _). rewrite Hs at 2.
  rewrite !blen_app. lia.
Qed.

Lemma trim_elem c s : c ∈ trim s → c ∈ s.
Proof.
  intros H. destruct (trim_split s) as (w1 & w2 & -> & _).
  rewrite !elem_of_app. auto.
Qed.

Lemma blen_trim_end_by p s : blen (trim_end_by p s) ≤ blen s.
Proof.
  destruct (trim_end_by_split p s) as (w & Hs & _). rewrite Hs at 2.
  rewrite blen_app. lia.
Qed.

Lemma is_empty_nil {A} (l : list A) : is_empty l = true ↔ l = [].
Proof. by destruct l. Qed.

Lemma is_empty_false {A} (l : list A) : is_empty l = false ↔ l ≠ [].
Proof. by destruct l. Qed.

(** ** Searching: lemmas *)

Lemma starts_with_true p s : starts_with p s = true ↔ ∃ t, s = p ++ t.
Proof.
  revert s. induction p as [|c p IH]; intros s; cbn; [split; eauto|].
  destruct s as [|d s]; [split; [done|intros [t ?]; done]|].
  rewrite andb_true_iff, bool_decide_eq_true, IH. split.
  - intros [-> [t ->]]. eauto.
  - intros [t [= -> ->]]. eauto.
Qed.

Lemma starts_with_app p t : starts_with p (p ++ t) = true.
Proof. apply starts_with_true. eauto. Qed.

(** Where [find] succeeds there is an occurrence, and none starts earlier. *)
Lemma find_Some p s i :
  find p s = Some i →
  ∃ a b, s = a ++ p ++ b ∧ blen a = i ∧
    ∀ a' b', s = a' ++ p ++ b' → blen a ≤ blen a'.
Proof.
  revert i. induction s as [|c s IH]; intros i; cbn [find].
  - destruct (starts_with p []) eqn:Hp; [|done]. intros [= <-].
    apply starts_with_true in Hp as [t Ht]. exists [], t. split_and!; [done..|].
    intros. rewrite blen_nil. lia.
  - destruct (starts_with p (c :: s)) eqn:Hp.
    + intros [= <-]. apply starts_with_true in Hp as [t Ht]. exists [], t.
      split_and!; [done..|]. intros. rewrite blen_nil. lia.
    + destruct (find p s) as [j|]; [|done]. cbn. intros [= <-].
      destruct (IH j) as (a & b & -> & <- & Hmin); [done|].
      exists (c :: a), b. split_and!; [done|by rewrite blen_cons|].
      intros a' b' H. destruct a' as [|d a'].
      * cbn [app] in H. by rewrite H, starts_with_app in Hp.
      * injection H as <- H. rewrite !blen_cons. specialize (Hmin a' b' H). lia.
Qed.

Lemma find_None p s : find p s = None → ∀ a b, s ≠ a ++ p ++ b.
Proof.
  induction s as [|c s IH]; cbn [find]; destruct (starts_with p _) eqn:Hp; try done.
  - intros _ a b H. destruct a; [|done]. cbn in H. by rewrite H, starts_with_app in Hp.
  - destruct (find p s) as [j|]; [done|]. intros _ a b H. destruct a as [|d a]; cbn in H.
    + by rewrite H, starts_with_app in Hp.
    + injection H as _ H. by eapply IH.
Qed.

(** A first occurrence is what [find] returns. *)
Lemma find_first p s a b :
  s = a ++ p ++ b → (∀ a' b', s = a' ++ p ++ b' → blen a ≤ blen a') →
  find p s = Some (blen a).
Proof.
  intros -> Hmin. destruct (find p (a ++ p ++ b)) as [i|] eqn:E.
  - apply find_Some in E as (a2 & b2 & H & <- & Hmin2). f_equal.
    specialize (Hmin _ _ H). specialize (Hmin2 _ _ eq_refl). lia.
  - by eapply find_None in E.
Qed.

(** Skipping a prefix in which no occurrence starts. *)
Lemma find_app_skip p a s :
  (∀ a1 a2, a = a1 ++ a2 → a2 ≠ [] → starts_with p (a2 ++ s) = false) →
  find p (a ++ s) = Nat.add (blen a) <$> find p s.
Proof.
  induction a as [|c a IH]; intros H.
  - cbn. by destruct (find p s).
  - cbn [app find].
    assert (starts_with p (c :: a ++ s) = false) as -> by (by apply (H [] (c :: a))).
    rewrite IH; [destruct (find p s); cbn; [by rewrite ?blen_cons, ?Nat.add_assoc|done]|].
    intros a1 a2 -> ?. by apply (H (c :: a1) a2).
Qed.

(** [rfind] splits at the last occurrence. *)
Lemma rfind_Some ch s i :
  rfind ch s = Some i → ∃ a b, s = a ++ ch :: b ∧ blen a = i ∧ ch ∉ b.
Proof.
  revert i. induction s as [|c s IH]; intros i; cbn; [done|].
  destruct (rfind ch s) as [j|] eqn:E.
  - intros [= <-]. destruct (IH _ eq_refl) as (a & b & -> & <- & ?).
    exists (c :: a), b. by rewrite blen_cons.
  - case_decide; [|done]. intros [= <-]. subst. exists [], s. split_and!; [done..|].
    clear IH. induction s as [|d s IH2]; [set_solver|]. cbn in E.
    destruct (rfind ch s); [done|]. case_decide; [done|]. set_solver.
Qed.

Lemma rfind_None ch s : rfind ch s = None ↔ ch ∉ s.
Proof.
  induction s as [|c s IH]; cbn; [set_solver|]. destruct (rfind ch s) as [j|] eqn:E.
  - split; [done|]. intros H. destruct IH as [_ IH]. rewrite IH in E; set_solver.
  - case_decide; set_solver.
Qed.

Lemma rfind_app ch a b : ch ∉ b → rfind ch (a ++ ch :: b) = Some (blen a).
Proof.
  intros Hb. induction a as [|c a IH].
  - cbn. rewrite (proj2 (rfind_None ch b)) by done. by rewrite decide_True.
  - cbn. by rewrite IH, blen_cons.
Qed.

(** A pattern occurs in a string. *)
Definition occurs (p s : str) : Prop := ∃ a b, s = a ++ p ++ b.

Lemma occurs_find p s : occurs p s ↔ is_Some (find p s).
Proof.
  split.
  - intros (a & b & ->). destruct (find p (a ++ p ++ b)) eqn:E; [eauto|].
    by eapply find_None in E.
  - intros [i Hi]. apply find_Some in Hi as (a & b & ? & _). by exists a, b.
Qed.

#[export] Instance occurs_dec p s : Decision (occurs p s).
Proof.
  refine (cast_if (decide (is_Some (find p s)))); by rewrite occurs_find.
Defined.

Lemma occurs_app_l p s t : occurs p s → occurs p (s ++ t).
Proof. intros (a & b & ->). exists a, (b ++ t). by rewrite <-!app_assoc. Qed.

Lemma occurs_app_r p s t : occurs p t → occurs p (s ++ t).
Proof. intros (a & b & ->). exists (s ++ a), b. by rewrite <-!app_assoc. Qed.

(** No proper suffix of the pattern is also a prefix: occurrences cannot overlap. *)
Definition unbordered (p : str) : Prop :=
  ∀ p1 p2 p3, p = p1 ++ p2 → p = p2 ++ p3 → p1 ≠ [] → p2 = [].

(** An unbordered pattern is found right after a text it does not occur in. *)
Lemma find_unbordered p a b :
  unbordered p → ¬ occurs p a → find p (a ++ p ++ b) = Some (blen a).
Proof.
  intros Hp Ha. apply find_first with b; [done|]. intros a' b' H.
  apply app_eq_app in H as (k & [(-> & H)|(-> & H)]).
  2: { rewrite blen_app. lia. }
  destruct k as [|c k]; [rewrite app_nil_r; lia|]. exfalso.
  symmetry in H. apply app_eq_app in H as (l & [(Hk & _)|(Hpk & H)]).
  - apply Ha. exists a', l. by rewrite Hk.
  - apply app_eq_app in H as (q & [(Hpq & _)|(-> & _)]).
    + assert (l = []) as -> by (by eapply (Hp (c :: k) l q)).
      apply Ha. exists a', []. rewrite app_nil_r in Hpk. by rewrite app_nil_r, <-Hpk.
    + apply (f_equal length) in Hpk. rewrite length_app in Hpk. cbn in Hpk.
      rewrite length_app in Hpk. lia.
Qed.

(** ** Slicing: lemmas *)

Lemma split_at_app a b : split_at (a ++ b) (blen a) = Some (a, b).
Proof.
  induction a as [|c a IH]; [by destruct b|]. cbn [app]. rewrite blen_cons.
  pose proof (len_utf8_pos c).
  destruct (len_utf8 c + blen a) as [|n] eqn:E; [lia|]. cbn [split_at].
  rewrite decide_True by lia. replace (S n - len_utf8 c) with (blen a) by lia.
  by rewrite IH.
Qed.

Lemma split_at_Some s n a b : split_at s n = Some (a, b) → s = a ++ b ∧ blen a = n.
Proof.
  revert n a b. induction s as [|c s IH]; intros [|n] a b; cbn [split_at].
  1-3: by intros; simplify_eq.
  case_decide as Hd; [|done]. pose proof (len_utf8_pos c).
  destruct (split_at s (S n - len_utf8 c)) as [[x y]|] eqn:E; [|done].
  cbn. intros [= <- <-]. apply IH in E as [-> E]. rewrite blen_cons. split; [done|lia].
Qed.

Lemma get_from_app a b : get_from (a ++ b) (blen a) = Some b.
Proof. unfold get_from. by rewrite split_at_app. Qed.

Lemma get_from_Some s n t : get_from s n = Some t → ∃ a, s = a ++ t ∧ blen a = n.
Proof.
  unfold get_from. destruct (split_at s n) as [[a b]|] eqn:E; [|done].
  cbn. intros [= <-]. apply split_at_Some in E. naive_solver.
Qed.

Lemma get_range_app a m b : get_range (a ++ m ++ b) (blen a) (blen a + blen m) = Some m.
Proof.
  unfold get_range. rewrite decide_True by lia. rewrite get_from_app. cbn.
  rewrite Nat.add_comm, Nat.add_sub. by rewrite split_at_app.
Qed.

Lemma get_range_Some s i j m :
  get_range s i j = Some m → ∃ a b, s = a ++ m ++ b ∧ blen a = i ∧ blen a + blen m = j.
Proof.
  unfold get_range. case_decide; [|done].
  destruct (get_from s i) as [t|] eqn:E; [|done]. cbn.
  destruct (split_at t (j - i)) as [[x y]|] eqn:E2; [|done]. cbn. intros [= <-].
  apply get_from_Some in E as (a & -> & <-). apply split_at_Some in E2 as [-> E2].
  exists a, y. split_and!; [done..|lia].
Qed.

(** A range that starts at a known boundary, and the rest of the string from one. *)
Lemma get_range_at s a k i j m :
  get_range s i j = Some m → s = a ++ k → i = blen a → ∃ y, k = m ++ y ∧ j = blen a + blen m.
Proof.
  intros H -> ->. apply get_range_Some in H as (x & y & Hx & Hbx & <-).
  apply app_inj_blen in Hx as [-> ->]; [|done]. eauto.
Qed.

Lemma get_from_at s a k i t : get_from s i = Some t → s = a ++ k → i = blen a → t = k.
Proof. intros H -> ->. rewrite get_from_app in H. congruence. Qed.

Lemma index_from_app a b : index_from (a ++ b) (blen a) = Val b.
Proof. unfold index_from. by rewrite get_from_app. Qed.

Lemma index_to_app a b : index_to (a ++ b) (blen a) = Val a.
Proof. unfold index_to. by rewrite split_at_app. Qed.

Lemma truncate_app a b : truncate (a ++ b) (blen a) = Val a.
Proof. unfold truncate. rewrite decide_True by (rewrite blen_app; lia). apply index_to_app. Qed.

#[export] Hint Rewrite split_at_app get_from_app index_from_app index_to_app truncate_app
  : drocsid_rw.
#[export] Hint Resolve blen_trim trim_trim : drocsid.

Example trim_ex : trim (lit "  a b ") = lit "a b".
Proof. vm_compute. reflexivity. Qed.
Example find_ex : find (lit "](") (lit "[é](1") = Some 3.
Proof. vm_compute. reflexivity. Qed.
