(* ===== verification/Frame.v ===== *)
(** Wire framing of [crates/protocol/src/lib.rs] (lines 1-110): frame types, the frame
    encoder, and the incremental frame reader over a [std::io::Read].

    A reader is the trace of what successive [read] calls find: chunks of bytes of any
    size (an empty chunk is a call that returns [Ok(0)]) and I/O errors; after the trace
    every call returns [Ok(0)], the end of the stream.  The theorems are about every such
    trace, so they cover every way a transport may split the bytes. *)
From S2P Require Import Prelude.

(** ** Data *)

Definition CURRENT_PROTOCOL_VERSION : u8 := u8_of_Z 1.
Definition FRAME_HEADER_BYTES : nat := 6.
Definition MAX_CHAT_MESSAGE_BYTES : Z := 4 * 1024.
Definition MAX_FRAME_PAYLOAD_BYTES : Z := 16 * 1024.

Inductive FrameType := Handshake | Chat | Presence.

(** [std::io::ErrorKind]: the kinds the program names, and the others by number. *)
Inductive ErrorKind :=
  | UnexpectedEof | Interrupted | InvalidInput | TimedOut
  | BrokenPipe | ConnectionAborted | ConnectionReset | Other
  | OtherKind (n : nat).

Inductive FrameError :=
  | Io (kind : ErrorKind)
  | UnsupportedVersion (version : u8)
  | UnknownType (value : u8)
  | TooLarge (size : Z)
  | InvalidUsername
  | Truncated.

Record Frame := mk_Frame { version : u8; kind : FrameType; payload : list u8 }.

#[export] Instance FrameType_eq_dec : EqDecision FrameType.
Proof. solve_decision. Defined.
#[export] Instance ErrorKind_eq_dec : EqDecision ErrorKind.
Proof. solve_decision. Defined.
#[export] Instance FrameError_eq_dec : EqDecision FrameError.
Proof. solve_decision. Defined.
#[export] Instance Frame_eq_dec : EqDecision Frame.
Proof. solve_decision. Defined.

(** [kind as u8], from the enum's discriminants. *)
Definition FrameType_as_u8 (k : FrameType) : u8 :=
  match k with Handshake => u8_of_Z 1 | Chat => u8_of_Z 2 | Presence => u8_of_Z 3 end.

(** [FrameType::try_from(value)] *)
Definition FrameType_try_from (value : u8) : result FrameError FrameType :=
  match u8_val value with
  | 1 => Ok Handshake
  | 2 => Ok Chat
  | 3 => Ok Presence
  | _ => Err (UnknownType value)
  end%Z.

(** ** Encoding *)

Definition frame_header (k : FrameType) (len : Z) : list u8 :=
  [CURRENT_PROTOCOL_VERSION;
   FrameType_as_u8 k;
   u8_of_Z (Z.land (Z.shiftr len 24) 0xff);
   u8_of_Z (Z.land (Z.shiftr len 16) 0xff);
   u8_of_Z (Z.land (Z.shiftr len 8) 0xff);
   u8_of_Z (Z.land len 0xff)].

Definition encode_frame (k : FrameType) (payload : list u8) : result FrameError (list u8) :=
  if decide (MAX_FRAME_PAYLOAD_BYTES < zlen payload)%Z then Err (TooLarge (zlen payload))
  else Ok (frame_header k (zlen payload) ++ payload).

(** ** Readers *)

Inductive read_event :=
  | Data (bs : list u8)
  | Fail (k : ErrorKind).

Definition reader := list read_event.

(** [reader.read(buffer)] with a buffer of [n] bytes. *)
Definition read (r : reader) (n : nat) : result ErrorKind (list u8) * reader :=
  match r with
  | [] => (Ok [], [])
  | Fail k :: r => (Err k, r)
  | Data bs :: r =>
      (Ok (take n bs), if decide (length bs ≤ n) then r else Data (drop n bs) :: r)
  end.

(** [Read::read_exact], as the standard library defines it: read until the buffer is full,
    retry on [Interrupted], report the end of the stream as [UnexpectedEof].  The trace is
    consumed event by event, so the recursion follows it. *)
Fixpoint read_exact (r : reader) (n : nat) : result ErrorKind (list u8) * reader :=
  match r with
  | [] => if decide (n = 0) then (Ok [], []) else (Err UnexpectedEof, [])
  | Fail k :: r' =>
      if decide (n = 0) then (Ok [], r)
      else if decide (k = Interrupted) then read_exact r' n else (Err k, r')
  | Data bs :: r' =>
      if decide (n = 0) then (Ok [], r)
      else if decide (bs = []) then (Err UnexpectedEof, r')
      else if decide (n < length bs) then (Ok (take n bs), Data (drop n bs) :: r')
      else match read_exact r' (n - length bs) with
           | (Ok rest, r'') => (Ok (bs ++ rest), r'')
           | (Err e, r'') => (Err e, r'')
           end
  end.

(** [read_header]: [missing] bytes of the six are still to be read and [header] holds the
    others.  [Ok None] is the clean end of stream ([Ok(false)]), [Ok (Some h)] the header. *)
Fixpoint read_header (r : reader) (header : list u8) (missing : nat)
  : result FrameError (option (list u8)) * reader :=
  match missing with
  | O => (Ok (Some header), r)
  | S missing' =>
      match read r missing with
      | (Ok [], r') =>
          if decide (header = []) then (Ok None, r') else (Err Truncated, r')
      | (Ok (b :: bytes), r') => read_header r' (header ++ b :: bytes) (missing' - length bytes)
      | (Err k, r') => (Err (Io k), r')
      end
  end.

(** The checks on a header that both readers of the repository make, in the order of
    [read_frame]: version, type, size. *)
Definition payload_len (header : list u8) : Z :=
  match header with
  | [_; _; b3; b2; b1; b0] => u32_from_be_bytes b3 b2 b1 b0
  | _ => 0
  end.

Definition read_frame (r : reader) : result FrameError (option Frame) * reader :=
  match read_header r [] FRAME_HEADER_BYTES with
  | (Err e, r) => (Err e, r)
  | (Ok None, r) => (Ok None, r)
  | (Ok (Some header), r) =>
      let version := nth 0 header Byte.x00 in
      if decide (version ≠ CURRENT_PROTOCOL_VERSION) then (Err (UnsupportedVersion version), r)
      else match FrameType_try_from (nth 1 header Byte.x00) with
      | Err e => (Err e, r)
      | Ok kind =>
          let payload_len := payload_len header in
          if decide (MAX_FRAME_PAYLOAD_BYTES < payload_len)%Z
          then (Err (TooLarge payload_len), r)
          else match read_exact r (Z.to_nat payload_len) with
          | (Ok payload, r) => (Ok (Some (mk_Frame version kind payload)), r)
          | (Err UnexpectedEof, r) => (Err Truncated, r)
          | (Err k, r) => (Err (Io k), r)
          end
      end
  end.

(** ** What the readers promise, on the bytes alone *)

(** The bytes a trace carries. *)
Definition contents (r : reader) : list u8 :=
  r ≫= λ ev, match ev with Data bs => bs | Fail _ => [] end.

(** A trace without errors, and without a premature [Ok(0)]. *)
Definition clean_event (ev : read_event) : bool :=
  match ev with Data [] => false | Data _ => true | Fail _ => false end.
Definition clean (r : reader) : bool := forallb clean_event r.

(** The specification of [read_frame]: one frame off the front of a byte string. *)
Definition parse_frame (bs : list u8) : result FrameError (option (Frame * list u8)) :=
  match bs with
  | [] => Ok None
  | v :: t :: b3 :: b2 :: b1 :: b0 :: rest =>
      if decide (v ≠ CURRENT_PROTOCOL_VERSION) then Err (UnsupportedVersion v)
      else k ← FrameType_try_from t;
           let n := u32_from_be_bytes b3 b2 b1 b0 in
           if decide (MAX_FRAME_PAYLOAD_BYTES < n)%Z then Err (TooLarge n)
           else if decide (length rest < Z.to_nat n) then Err Truncated
           else Ok (Some (mk_Frame v k (take (Z.to_nat n) rest), drop (Z.to_nat n) rest))
  | _ => Err Truncated
  end.

(** Reading a whole stream: frames until the clean end or the first error. *)
Fixpoint read_frames (fuel : nat) (r : reader) : list Frame * option (result FrameError unit) :=
  match fuel with
  | O => ([], None)
  | S fuel =>
      match read_frame r with
      | (Ok (Some f), r) => let '(fs, e) := read_frames fuel r in (f :: fs, e)
      | (Ok None, _) => ([], Some (Ok tt))
      | (Err e, _) => ([], Some (Err e))
      end
  end.

(** ** Lemmas *)

Lemma FrameType_try_from_as_u8 k : FrameType_try_from (FrameType_as_u8 k) = Ok k.
Proof. by destruct k. Qed.

Lemma FrameType_try_from_Ok v k : FrameType_try_from v = Ok k → v = FrameType_as_u8 k.
Proof.
  unfold FrameType_try_from. intros H. apply (inj u8_val).
  destruct (u8_val v) as [|p|p] eqn:E; [done| |done].
  destruct p as [[]|[]|]; simplify_eq/=; reflexivity.
Qed.

Lemma FrameType_try_from_Err v e : FrameType_try_from v = Err e → e = UnknownType v.
Proof.
  unfold FrameType_try_from. destruct (u8_val v) as [|p|p]; [congruence| |congruence].
  destruct p as [[]|[]|]; congruence.
Qed.

Lemma length_frame_header k n : length (frame_header k n) = FRAME_HEADER_BYTES.
Proof. done. Qed.

Lemma payload_len_frame_header k n :
  (0 <= n < 2 ^ 32)%Z → payload_len (frame_header k n) = n.
Proof.
  intros Hn. unfold payload_len, frame_header, u32_from_be_bytes.
  rewrite !u8_val_of_Z, !Z.shiftr_div_pow2 by lia.
  change 0xff%Z with (Z.ones 8). rewrite !Z.land_ones by lia.
  change (2 ^ 24)%Z with 16777216%Z. change (2 ^ 16)%Z with 65536%Z.
  change (2 ^ 8)%Z with 256%Z. Z.to_euclidean_division_equations. lia.
Qed.

Lemma encode_frame_Ok k p bs :
  encode_frame k p = Ok bs →
  bs = frame_header k (zlen p) ++ p ∧ (zlen p <= MAX_FRAME_PAYLOAD_BYTES)%Z.
Proof. unfold encode_frame. case_decide; intros; simplify_eq. split; [done|lia]. Qed.

Lemma encode_frame_small k p :
  (zlen p <= MAX_FRAME_PAYLOAD_BYTES)%Z → encode_frame k p = Ok (frame_header k (zlen p) ++ p).
Proof. intros. unfold encode_frame. rewrite decide_False; [done|lia]. Qed.

(** *** Clean traces *)

Lemma contents_cons ev r :
  contents (ev :: r) = (match ev with Data bs => bs | Fail _ => [] end) ++ contents r.
Proof. done. Qed.

Lemma clean_cons_inv ev r :
  clean (ev :: r) = true → ∃ b bs, ev = Data (b :: bs) ∧ clean r = true.
Proof.
  cbn. rewrite andb_true_iff. intros [Hev Hr]. destruct ev as [[|b bs]|]; naive_solver.
Qed.

Lemma clean_cons_Data bs r : bs ≠ [] → clean (Data bs :: r) = clean r.
Proof. by destruct bs. Qed.

Lemma drop_nonempty {A} n (l : list A) : n < length l → drop n l ≠ [].
Proof. intros H E. apply (f_equal length) in E. rewrite length_drop in E. cbn in E. lia. Qed.

Lemma clean_contents_nil r : clean r = true → contents r = [] → r = [].
Proof.
  destruct r as [|ev r]; [done|]. intros H. apply clean_cons_inv in H as (b & bs & -> & _).
  by rewrite contents_cons.
Qed.

(** One [read] on a clean trace takes a prefix of what it carries, and takes nothing only
    at the end. *)
Lemma read_clean r n :
  clean r = true → 0 < n →
  ∃ m r', read r n = (Ok (take m (contents r)), r') ∧ clean r' = true ∧
    contents r' = drop m (contents r) ∧ m ≤ n ∧ m ≤ length (contents r) ∧
    (m = 0 → contents r = []).
Proof.
  intros Hr Hn. destruct r as [|ev r].
  { exists 0, []. split_and!; try done; lia. }
  apply clean_cons_inv in Hr as (b & bs & -> & Hr). cbn [read].
  rewrite contents_cons. set (l := b :: bs) in *.
  assert (0 < length l) by (cbn; lia).
  case_decide as Hd.
  - exists (length l), r. rewrite take_ge by done.
    rewrite take_app_length, drop_app_length, length_app. split_and!; [done..|lia|lia|lia].
  - exists n, (Data (drop n l) :: r).
    rewrite take_app_le, drop_app_le, contents_cons, length_app by lia.
    split_and!; [done| |done|lia|lia|lia].
    rewrite clean_cons_Data; [done|]. apply drop_nonempty. lia.
Qed.

(** [read_header] on a clean trace. *)
Lemma read_header_clean r h n :
  clean r = true →
  (n ≤ length (contents r) →
    ∃ r', read_header r h n = (Ok (Some (h ++ take n (contents r))), r') ∧
      clean r' = true ∧ contents r' = drop n (contents r)) ∧
  (length (contents r) < n →
    ∃ r', read_header r h n =
      ((if decide (h ++ contents r = []) then Ok None else Err Truncated), r')).
Proof.
  revert r h. induction n as [n IH] using lt_wf_ind. intros r h Hr.
  destruct n as [|n].
  { split; [|lia]. intros _. exists r. cbn. rewrite take_0, app_nil_r, drop_0. done. }
  destruct (read_clean r (S n) Hr) as (m & r1 & Hread & Hr1 & Hc1 & Hmn & Hm & Hm0); [lia|].
  cbn [read_header]. rewrite Hread.
  destruct (take m (contents r)) as [|b bytes] eqn:Et.
  - assert (contents r = []) as Hc.
    { apply Hm0. apply (f_equal length) in Et. rewrite length_take in Et. cbn in Et. lia. }
    rewrite Hc. cbn [length]. split; [lia|]. intros _. exists r1.
    rewrite app_nil_r. by case_decide.
  - assert (m = S (length bytes)) as Hmeq.
    { apply (f_equal length) in Et. rewrite length_take in Et. cbn in Et. lia. }
    destruct (IH (n - length bytes)) with (r := r1) (h := h ++ b :: bytes) as [IH1 IH2];
      [lia|done|].
    assert (length (contents r1) = length (contents r) - m) as Hl.
    { by rewrite Hc1, length_drop. }
    split.
    + intros Hn. destruct IH1 as (r' & -> & ? & Hc'); [lia|]. exists r'.
      split_and!; [|done|].
      * do 3 f_equal. rewrite <-app_assoc, <-Et, Hc1. f_equal.
        replace (S n) with (m + (n - length bytes)) by lia.
        by rewrite take_take_drop.
      * rewrite Hc', Hc1, drop_drop. f_equal. lia.
    + intros Hn. destruct IH2 as (r' & ->); [lia|]. exists r'. f_equal.
      destruct (contents r) as [|c cs]; [destruct m; cbn in *; lia|].
      rewrite !decide_False; [done| |]; intros Happ; by destruct h.
Qed.

(** [read_exact] on a clean trace. *)
Lemma read_exact_clean r n :
  clean r = true →
  (n ≤ length (contents r) →
    ∃ r', read_exact r n = (Ok (take n (contents r)), r') ∧
      clean r' = true ∧ contents r' = drop n (contents r)) ∧
  (length (contents r) < n → ∃ r', read_exact r n = (Err UnexpectedEof, r')).
Proof.
  revert n. induction r as [|ev r IH]; intros n Hr.
  - cbn. destruct n; split; try lia; eauto.
  - apply clean_cons_inv in Hr as (b & bs & -> & Hr). rewrite contents_cons.
    cbn [read_exact]. set (l := b :: bs) in *. assert (0 < length l) by (cbn; lia).
    destruct (decide (n = 0)) as [->|Hn].
    { split; [|lia]. intros _. exists (Data l :: r). by rewrite take_0, drop_0. }
    rewrite (decide_False (P := l = [])) by done. rewrite length_app.
    destruct (decide (n < length l)).
    { split; [|lia]. intros _. eexists. rewrite take_app_le, drop_app_le by lia.
      split_and!; [done| |done]. rewrite clean_cons_Data; [done|].
      apply drop_nonempty. lia. }
    destruct (IH (n - length l) Hr) as [IH1 IH2]. split; intros Hlen.
    + destruct IH1 as (r' & -> & ? & Hc'); [lia|]. exists r'.
      rewrite Hc', take_app_ge, drop_app_ge by lia. done.
    + destruct IH2 as (r' & ->); [lia|]. by exists r'.
Qed.

(** ** The reader computes the specification on clean traces *)

Lemma parse_frame_short bs :
  length bs < FRAME_HEADER_BYTES →
  parse_frame bs = if decide (bs = []) then Ok None else Err Truncated.
Proof.
  intros H. unfold FRAME_HEADER_BYTES in H.
  do 6 (destruct bs as [|? bs]; [by case_decide|]). cbn in H. lia.
Qed.

Lemma split_header (bs : list u8) :
  FRAME_HEADER_BYTES ≤ length bs →
  ∃ v t b3 b2 b1 b0 rest, bs = v :: t :: b3 :: b2 :: b1 :: b0 :: rest.
Proof.
  unfold FRAME_HEADER_BYTES. intros H.
  do 6 (destruct bs as [|? bs]; [cbn in H; lia|]). naive_solver.
Qed.

(** The outcome of [read_frame] on a clean trace is [parse_frame] of its bytes, and after a
    frame the trace carries the remaining bytes. *)
Lemma read_frame_parse r :
  clean r = true →
  match parse_frame (contents r) with
  | Ok (Some (f, rest)) =>
      ∃ r', read_frame r = (Ok (Some f), r') ∧ clean r' = true ∧ contents r' = rest
  | Ok None => ∃ r', read_frame r = (Ok None, r')
  | Err e => ∃ r', read_frame r = (Err e, r')
  end.
Proof.
  intros Hr. destruct (read_header_clean r [] FRAME_HEADER_BYTES Hr) as [Hlong Hshort].
  unfold read_frame. destruct (decide (length (contents r) < FRAME_HEADER_BYTES)) as [Hs|Hl].
  { rewrite parse_frame_short by done. destruct (Hshort Hs) as (r' & ->). cbn [app].
    destruct (decide (contents r = [])); by exists r'. }
  destruct Hlong as (r1 & -> & Hr1 & Hc1); [lia|].
  destruct (split_header (contents r)) as (v & t & b3 & b2 & b1 & b0 & rest & E); [lia|].
  rewrite E in Hc1 |- *. change (drop FRAME_HEADER_BYTES _) with rest in Hc1.
  change ([] ++ take FRAME_HEADER_BYTES _) with [v; t; b3; b2; b1; b0].
  cbn [nth parse_frame payload_len]. decide_goal; [eauto|].
  destruct (FrameType_try_from t) as [k|e]; cbn [mbind result_bind]; [|eauto].
  decide_goal; [eauto|].
  destruct (read_exact_clean r1 (Z.to_nat (u32_from_be_bytes b3 b2 b1 b0)) Hr1) as [Hex1 Hex2].
  rewrite Hc1 in Hex1, Hex2. decide_goal.
  - destruct Hex2 as (r' & ->); eauto.
  - destruct Hex1 as (r' & -> & ? & <-); [lia|]. eauto.
Qed.

Lemma parse_frame_encoded k p rest :
  (zlen p <= MAX_FRAME_PAYLOAD_BYTES)%Z →
  parse_frame ((frame_header k (zlen p) ++ p) ++ rest) =
    Ok (Some (mk_Frame CURRENT_PROTOCOL_VERSION k p, rest)).
Proof.
  intros Hp. pose proof (zlen_nonneg p) as H0. unfold MAX_FRAME_PAYLOAD_BYTES in *.
  assert (payload_len (frame_header k (zlen p)) = zlen p) as Hl
    by (apply payload_len_frame_header; lia).
  cbn -[u8_of_Z Z.land Z.shiftr zlen u32_from_be_bytes FrameType_try_from] in Hl |- *.
  rewrite decide_False by (intros Hne; by apply Hne). rewrite FrameType_try_from_as_u8, Hl. cbn [mbind result_bind].
  unfold MAX_FRAME_PAYLOAD_BYTES. rewrite decide_False by lia.
  unfold zlen. rewrite Nat2Z.id, length_app, decide_False by lia.
  by rewrite take_app_length, drop_app_length.
Qed.

(** Only an encoded frame parses. *)
Lemma parse_frame_Some bs f rest :
  parse_frame bs = Ok (Some (f, rest)) →
  encode_frame (kind f) (payload f) ≫= (λ e, Ok (e ++ rest)) = Ok bs ∧
  version f = CURRENT_PROTOCOL_VERSION.
Proof.
  intros H. destruct (decide (length bs < FRAME_HEADER_BYTES)) as [Hs|Hl].
  { rewrite parse_frame_short in H by done. by case_decide. }
  destruct (split_header bs) as (v & t & b3 & b2 & b1 & b0 & tl & ->); [lia|].
  cbn [parse_frame] in H. case_decide as Hv; [done|].
  destruct (decide (v = CURRENT_PROTOCOL_VERSION)) as [->|]; [|done].
  destruct (FrameType_try_from t) as [k|] eqn:Hk; [|done]. cbn [mbind result_bind] in H.
  apply FrameType_try_from_Ok in Hk as ->.
  case_decide as Hn; [done|]. case_decide as Ht; [done|]. simplify_eq.
  pose proof (u32_from_be_bytes_bound b3 b2 b1 b0) as Hb. cbn [kind payload version].
  set (n := u32_from_be_bytes b3 b2 b1 b0) in *.
  assert (zlen (take (Z.to_nat n) tl) = n) as Hlen.
  { unfold zlen. rewrite length_take. lia. }
  rewrite encode_frame_small by lia. cbn [mbind result_bind]. split; [|done]. f_equal.
  rewrite Hlen. rewrite <-app_assoc, take_drop.
  enough (frame_header k n = [CURRENT_PROTOCOL_VERSION; FrameType_as_u8 k; b3; b2; b1; b0])
    as -> by done.
  unfold frame_header. rewrite !Z.shiftr_div_pow2 by lia.
  change 0xff%Z with (Z.ones 8). rewrite !Z.land_ones by lia.
  change (2 ^ 24)%Z with 16777216%Z. change (2 ^ 16)%Z with 65536%Z.
  change (2 ^ 8)%Z with 256%Z. subst n. unfold u32_from_be_bytes.
  repeat f_equal; apply (inj u8_val); rewrite u8_val_of_Z; u8_bounds;
    Z.to_euclidean_division_equations; lia.
Qed.

(** ** Any trace: what a reader returns was on the wire *)

Lemma read_Ok r n bs r' :
  read r n = (Ok bs, r') → contents r = bs ++ contents r' ∧ length bs ≤ n.
Proof.
  destruct r as [|[l|k] r]; cbn [read]; intros H; simplify_eq; [split; [done|cbn; lia]|].
  rewrite length_take. split; [|lia]. rewrite contents_cons. case_decide.
  - by rewrite take_ge.
  - by rewrite contents_cons, app_assoc, take_drop.
Qed.

Lemma read_header_Ok r h n h' r' :
  read_header r h n = (Ok (Some h'), r') →
  ∃ bs, h' = h ++ bs ∧ length bs = n ∧ contents r = bs ++ contents r'.
Proof.
  revert r h. induction n as [n IH] using lt_wf_ind. intros r h H.
  destruct n as [|n]; cbn [read_header] in H.
  { simplify_eq. exists []. by rewrite app_nil_r. }
  destruct (read r (S n)) as [[[|b bytes]|k] r1] eqn:E; [by case_decide| |done].
  apply read_Ok in E as [Hc Hl]. cbn [length] in Hl.
  apply IH in H as (bs & -> & Hbs & Hc'); [|lia].
  exists (b :: bytes ++ bs). rewrite Hc, Hc'. cbn [app length].
  rewrite length_app, <-!app_assoc. split_and!; [done|lia|done].
Qed.

Lemma read_exact_Ok r n bs r' :
  read_exact r n = (Ok bs, r') → length bs = n ∧ contents r = bs ++ contents r'.
Proof.
  revert n bs. induction r as [|[l|k] r IH]; intros n bs; cbn [read_exact].
  - case_decide; intros; by simplify_eq.
  - rewrite contents_cons. case_decide; [intros; by simplify_eq|].
    case_decide; [done|]. case_decide.
    + intros; simplify_eq. rewrite length_take, contents_cons, app_assoc, take_drop.
      split; [lia|done].
    + destruct (read_exact r (n - length l)) as [[rest|e] r1] eqn:E; [|done].
      intros; simplify_eq. apply IH in E as [Hl ->].
      rewrite length_app, app_assoc. split; [lia|done].
  - rewrite contents_cons. case_decide; [intros; by simplify_eq|].
    case_decide; [|done]. intros. by apply IH.
Qed.

Lemma read_frame_Some r f r' :
  read_frame r = (Ok (Some f), r') →
  ∃ header rest, contents r = header ++ rest ∧ length header = FRAME_HEADER_BYTES ∧
    nth 0 header Byte.x00 = CURRENT_PROTOCOL_VERSION ∧ version f = CURRENT_PROTOCOL_VERSION ∧
    FrameType_try_from (nth 1 header Byte.x00) = Ok (kind f) ∧
    (payload_len header <= MAX_FRAME_PAYLOAD_BYTES)%Z ∧
    zlen (payload f) = payload_len header ∧ rest = payload f ++ contents r'.
Proof.
  unfold read_frame. intros H.
  destruct (read_header r [] FRAME_HEADER_BYTES) as [[[h|]|] r1] eqn:Eh; [|done..].
  case_decide as Hv; [done|].
  destruct (FrameType_try_from (nth 1 h Byte.x00)) as [k|] eqn:Ek; [|done].
  case_decide as Hm; [done|].
  destruct (read_exact r1 (Z.to_nat (payload_len h))) as [[p|[]] r2] eqn:Ep; simplify_eq.
  apply read_header_Ok in Eh as (bs & -> & Hbs & Hc). cbn [app] in *.
  apply read_exact_Ok in Ep as [Hp Hc'].
  exists bs, (contents r1). cbn [version kind payload].
  destruct (decide (nth 0 bs Byte.x00 = CURRENT_PROTOCOL_VERSION)); [|done].
  assert (0 <= payload_len bs)%Z.
  { unfold payload_len. repeat case_match; try lia. apply u32_from_be_bytes_bound. }
  unfold zlen. rewrite Hp, Z2Nat.id by done. split_and!; try done; lia.
Qed.

(** A frame that is returned is the encoding at the front of the trace's bytes. *)
Lemma read_frame_wire r f r' :
  read_frame r = (Ok (Some f), r') →
  encode_frame (kind f) (payload f) ≫= (λ e, Ok (e ++ contents r')) = Ok (contents r).
Proof.
  intros H. apply read_frame_Some in H
    as (h & rest & Hc & Hh & Hv & Hfv & Hk & Hm & Hp & Hrest).
  assert (parse_frame (contents r) = Ok (Some (f, contents r'))) as Hparse.
  { rewrite Hc. destruct (split_header h) as (v & t & b3 & b2 & b1 & b0 & tl & ->); [lia|].
    destruct tl; [|cbn in Hh; unfold FRAME_HEADER_BYTES in Hh; lia].
    cbn [nth payload_len app] in *. cbn [parse_frame]. rewrite Hv, Hk. cbn [mbind result_bind].
    rewrite decide_False by (intros Hne; by apply Hne). rewrite decide_False by lia.
    assert (Z.to_nat (u32_from_be_bytes b3 b2 b1 b0) = length (payload f)) as ->.
    { rewrite <-Hp. unfold zlen. lia. }
    rewrite Hrest, decide_False by (rewrite length_app; lia).
    rewrite take_app_length, drop_app_length. rewrite <-Hfv. by destruct f. }
  by apply parse_frame_Some in Hparse as [? _].
Qed.

(** ** Streams of frames *)

Definition encode_all (fs : list (FrameType * list u8)) : list u8 :=
  fs ≫= λ '(k, p), frame_header k (zlen p) ++ p.

Lemma read_frames_encoded r fs :
  clean r = true → contents r = encode_all fs →
  Forall (λ '(_, p), zlen p <= MAX_FRAME_PAYLOAD_BYTES)%Z fs →
  read_frames (S (length fs)) r =
    (map (λ '(k, p), mk_Frame CURRENT_PROTOCOL_VERSION k p) fs, Some (Ok tt)).
Proof.
  intros Hr Hc Hfs. revert r Hr Hc. induction Hfs as [|[k p] fs Hp Hfs IH]; intros r Hr Hc.
  - cbn in Hc. pose proof (read_frame_parse r Hr) as H. rewrite Hc in H. cbn in H.
    destruct H as (r' & H). cbn [read_frames length]. by rewrite H.
  - cbn [encode_all mbind list_bind] in Hc. pose proof (read_frame_parse r Hr) as H.
    rewrite Hc, parse_frame_encoded in H by done. destruct H as (r' & H & Hr' & Hc').
    specialize (IH r' Hr' Hc'). remember (S (length fs)) as n eqn:Hn.
    cbn [length]. rewrite <-Hn. cbn [read_frames]. by rewrite H, IH.
Qed.

(** ** Properties *)

(** C13: a stream of encoded frames is read back as exactly those frames, then the clean end
    of stream, whatever chunks the transport splits the bytes into. *)
Theorem frame_stream_roundtrip (fs : list (FrameType * list u8)) (encs : list (list u8)) r :
  Forall2 (λ '(k, p) e, encode_frame k p = Ok e) fs encs →
  clean r = true → contents r = concat encs →
  read_frames (S (length fs)) r =
    (map (λ '(k, p), mk_Frame CURRENT_PROTOCOL_VERSION k p) fs, Some (Ok tt)).
Proof.
  intros Henc Hr Hc.
  assert (concat encs = encode_all fs ∧
          Forall (λ '(_, p), zlen p <= MAX_FRAME_PAYLOAD_BYTES)%Z fs) as [Hall Hsz].
  { clear Hr Hc. induction Henc as [|[k p] e fs encs He _ [IH1 IH2]]; [done|].
    apply encode_frame_Ok in He as [-> ?]. split; [|by constructor].
    cbn. by rewrite IH1. }
  apply read_frames_encoded; [done|congruence|done].
Qed.

Definition two_frames : list (FrameType * list u8) :=
  [(Chat, map u8_of_Z [104; 105]%Z); (Handshake, [])].
Definition two_frames_bytes : list u8 := encode_all two_frames.

Lemma frame_stream_roundtrip_witness :
  read_frames 3 (map (λ b, Data [b]) two_frames_bytes) =
    ([mk_Frame (u8_of_Z 1) Chat (map u8_of_Z [104; 105]%Z); mk_Frame (u8_of_Z 1) Handshake []],
     Some (Ok tt)).
Proof.
  apply (frame_stream_roundtrip two_frames
    [frame_header Chat 2 ++ map u8_of_Z [104; 105]%Z; frame_header Handshake 0]).
  - repeat constructor.
  - reflexivity.
  - reflexivity.
Defined.

(** C28: on every error-free trace [read_frame] computes the specification [parse_frame] of
    the bytes carried: the same frame and the remaining bytes, a clean end exactly on the
    empty stream, and the same error otherwise. *)
Theorem read_frame_refines_parse r :
  clean r = true →
  fst (read_frame r) =
    match parse_frame (contents r) with Ok o => Ok (option_map fst o) | Err e => Err e end ∧
  ∀ f rest, parse_frame (contents r) = Ok (Some (f, rest)) →
    clean (snd (read_frame r)) = true ∧ contents (snd (read_frame r)) = rest.
Proof.
  intros Hr. pose proof (read_frame_parse r Hr) as H.
  destruct (parse_frame (contents r)) as [[[f rest]|]|e].
  - destruct H as (r' & -> & ? & ?). split; [done|]. intros; by simplify_eq.
  - destruct H as (r' & ->). split; [done|]. done.
  - destruct H as (r' & ->). split; [done|]. done.
Qed.

Lemma read_frame_refines_parse_witness :
  fst (read_frame [Data (map u8_of_Z [1; 2; 0]%Z); Data (map u8_of_Z [0; 0; 1; 65; 66]%Z)]) =
    Ok (Some (mk_Frame (u8_of_Z 1) Chat [u8_of_Z 65])).
Proof.
  destruct (read_frame_refines_parse
    [Data (map u8_of_Z [1; 2; 0]%Z); Data (map u8_of_Z [0; 0; 1; 65; 66]%Z)] eq_refl) as [H _].
  rewrite H. vm_compute. reflexivity.
Defined.

(** On any trace, errors and interruptions included, a frame that [read_frame] returns has
    the current version, a payload within the limit, and is the encoding that stood at the
    front of the bytes; the bytes after it are left for the next call. *)
Theorem read_frame_sound r f r' :
  read_frame r = (Ok (Some f), r') →
  version f = CURRENT_PROTOCOL_VERSION ∧ (zlen (payload f) <= MAX_FRAME_PAYLOAD_BYTES)%Z ∧
  ∃ e, encode_frame (kind f) (payload f) = Ok e ∧ contents r = e ++ contents r'.
Proof.
  intros H. pose proof (read_frame_wire _ _ _ H) as Hw.
  apply read_frame_Some in H as (h & rest & _ & _ & _ & ? & _ & ? & ? & _).
  split_and!; [done|lia|].
  destruct (encode_frame (kind f) (payload f)) as [e|] eqn:E; [|done].
  cbn in Hw. exists e. split; [done|congruence].
Qed.

Lemma read_frame_sound_witness :
  ∃ e, encode_frame Chat [u8_of_Z 65] = Ok e ∧
    contents [Data (map u8_of_Z [1; 2; 0; 0; 0; 1]%Z); Fail Interrupted; Data (map u8_of_Z [65; 7]%Z)]
      = e ++ [u8_of_Z 7].
Proof.
  destruct (read_frame_sound
    [Data (map u8_of_Z [1; 2; 0; 0; 0; 1]%Z); Fail Interrupted; Data (map u8_of_Z [65; 7]%Z)]
    (mk_Frame (u8_of_Z 1) Chat [u8_of_Z 65]) [Data [u8_of_Z 7]]) as (_ & _ & H).
  - vm_compute. reflexivity.
  - exact H.
Defined.

(** An interrupted system call is retried while a payload is read, but ends the
    connection with an I/O error while a header is read. *)
Theorem interrupted_read_asymmetry r h n :
  read_header (Fail Interrupted :: r) h (S n) = (Err (Io Interrupted), r) ∧
  read_exact (Fail Interrupted :: r) (S n) = read_exact r (S n).
Proof. done. Qed.
