(* ===== verification/Presence.v ===== *)
(** Presence frames and username validity ([crates/protocol/src/lib.rs], lines 112-151): the
    list of connected users as a count and length-prefixed UTF-8 names.  The encoder and the
    parser are proved inverse of each other in both directions, with the encoder's errors
    characterised and a size bound under which it cannot fail. *)
From S2P Require Import Prelude Utf8 Text Frame.

(** ** Operations *)

Definition is_valid_username (username : str) : bool :=
  negb (is_empty (trim username)) && negb (existsb is_control username).

(** [u16::try_from(n)] on a length. *)
Definition u16_try_from {E} (n : Z) (e : E) : result E Z :=
  if decide (n <= U16_MAX)%Z then Ok n else Err e.

(** The loop over [users], extending [payload]. *)
Fixpoint encode_users (users : list str) (payload : list u8) : result FrameError (list u8) :=
  match users with
  | [] => Ok payload
  | user :: users =>
      if negb (is_valid_username user) then Err InvalidUsername
      else
        let bytes := as_bytes user in
        length ← u16_try_from (zlen bytes) (TooLarge (zlen bytes));
        encode_users users (payload ++ u16_to_be_bytes length ++ bytes)
  end.

Definition encode_presence (users : list str) : result FrameError (list u8) :=
  count ← u16_try_from (zlen users) (TooLarge USIZE_MAX);
  payload ← encode_users users (u16_to_be_bytes count);
  encode_frame Presence payload.

(** [u16::from_be_bytes(payload.get(offset..offset + 2)?.try_into().ok()?)] *)
Definition get_u16 (payload : list u8) (offset : nat) : option Z :=
  bytes ← slice payload offset (offset + 2);
  match bytes with
  | [b1; b0] => Some (u16_from_be_bytes b1 b0)
  | _ => None
  end.

(** The loop [for _ in 0..count]. *)
Fixpoint parse_users (count : nat) (payload : list u8) (offset : nat) (users : list str)
  : option (nat * list str) :=
  match count with
  | O => Some (offset, users)
  | S count =>
      length ← get_u16 payload offset;
      let offset := offset + 2 in
      bytes ← slice payload offset (offset + Z.to_nat length);
      user ← from_utf8 bytes;
      if negb (is_valid_username user) then None
      else parse_users count payload (offset + Z.to_nat length) (users ++ [user])
  end.

Definition parse_presence (payload : list u8) : option (list str) :=
  count ← get_u16 payload 0;
  '(offset, users) ← parse_users (Z.to_nat count) payload 2 [];
  if decide (offset = length payload) then Some users else None.

(** ** Specification: the payload of a list of users *)

Definition user_bytes (u : str) : list u8 := u16_to_be_bytes (zlen (as_bytes u)) ++ as_bytes u.
Definition users_bytes (users : list str) : list u8 := concat (map user_bytes users).
Definition presence_payload (users : list str) : list u8 :=
  u16_to_be_bytes (zlen users) ++ users_bytes users.

(** A user name that can be sent. *)
Definition sendable (u : str) : Prop :=
  is_valid_username u = true ∧ (Z.of_nat (blen u) <= U16_MAX)%Z.

(** ** Lemmas: the encoder *)

Lemma zlen_as_bytes u : zlen (as_bytes u) = Z.of_nat (blen u).
Proof. done. Qed.

Lemma user_bytes_eq u : user_bytes u = u16_to_be_bytes (Z.of_nat (blen u)) ++ as_bytes u.
Proof. done. Qed.
Lemma users_bytes_nil : users_bytes [] = [].
Proof. done. Qed.
Lemma users_bytes_cons u us : users_bytes (u :: us) = user_bytes u ++ users_bytes us.
Proof. done. Qed.

Lemma length_user_bytes u : length (user_bytes u) = 2 + blen u.
Proof. unfold user_bytes. by rewrite length_app. Qed.
#[local] Opaque user_bytes users_bytes.

Lemma u16_try_from_Ok {E} n (e : E) m : u16_try_from n e = Ok m ↔ n = m ∧ (n <= U16_MAX)%Z.
Proof. unfold u16_try_from. case_decide; naive_solver. Qed.

Lemma encode_users_Ok users payload p :
  encode_users users payload = Ok p ↔
  Forall sendable users ∧ p = payload ++ users_bytes users.
Proof.
  revert payload. induction users as [|u users IH]; intros payload; cbn [encode_users].
  { rewrite users_bytes_nil, app_nil_r. split; [intros; by simplify_eq|by intros [_ ->]]. }
  destruct (is_valid_username u) eqn:Hu; cbn [negb].
  2: { split; [done|]. intros [H _]. rewrite Forall_cons in H. destruct H as [[H _] _]. congruence. }
  destruct (u16_try_from (zlen (as_bytes u)) (TooLarge (zlen (as_bytes u)))) as [l|e] eqn:El.
  - apply u16_try_from_Ok in El as [<- Hl]. cbn [mbind result_bind]. rewrite IH.
    rewrite users_bytes_cons, user_bytes_eq, zlen_as_bytes, <-!app_assoc, Forall_cons.
    rewrite zlen_as_bytes in Hl. unfold sendable at 2. tauto.
  - cbn [mbind result_bind]. split; [done|]. intros [H _].
    rewrite Forall_cons in H. destruct H as [[_ H] _]. rewrite <-zlen_as_bytes in H.
    unfold u16_try_from in El. by rewrite decide_True in El.
Qed.

Lemma encode_presence_Ok users f :
  encode_presence users = Ok f ↔
  (zlen users <= U16_MAX)%Z ∧ Forall sendable users ∧
  encode_frame Presence (presence_payload users) = Ok f.
Proof.
  unfold encode_presence.
  destruct (u16_try_from (zlen users) (TooLarge USIZE_MAX)) as [c|e] eqn:Ec.
  - apply u16_try_from_Ok in Ec as [<- Hc]. cbn [mbind result_bind].
    destruct (encode_users users (u16_to_be_bytes (zlen users))) as [p|e] eqn:Ep.
    + apply encode_users_Ok in Ep as [? ->]. cbn [mbind result_bind]. fold (presence_payload users).
      tauto.
    + cbn [mbind result_bind]. split; [done|]. intros (_ & Hs & _).
      assert (encode_users users (u16_to_be_bytes (zlen users)) = Ok (presence_payload users))
        by (by apply encode_users_Ok). congruence.
  - cbn [mbind result_bind]. unfold u16_try_from in Ec. case_decide; [done|]. naive_solver.
Qed.

Lemma zlen_presence_payload users :
  zlen (presence_payload users) = (2 + Z.of_nat (sum_list_with (λ u, 2 + blen u)%nat users))%Z.
Proof.
  unfold presence_payload, zlen. rewrite length_app, length_u16_to_be_bytes.
  enough (length (users_bytes users) = sum_list_with (λ u, 2 + blen u) users) by lia.
  induction users as [|u users IH]; [done|]. cbn [sum_list_with].
  rewrite users_bytes_cons, length_app, length_user_bytes. lia.
Qed.

Lemma sum_list_with_bound {A} (f : A → nat) n l :
  Forall (λ x, f x ≤ n) l → sum_list_with f l ≤ n * length l.
Proof. induction 1; cbn; lia. Qed.

(** Lists of up to 256 names of up to 32 bytes always fit a frame. *)
Lemma presence_payload_fits users :
  length users ≤ 256 → Forall (λ u, blen u ≤ 32) users →
  (zlen (presence_payload users) <= MAX_FRAME_PAYLOAD_BYTES)%Z.
Proof.
  intros Hn Hl. rewrite zlen_presence_payload. unfold MAX_FRAME_PAYLOAD_BYTES.
  assert (sum_list_with (λ u, 2 + blen u) users ≤ 34 * length users); [|lia].
  apply sum_list_with_bound. eapply Forall_impl; [done|cbn; lia].
Qed.

Lemma encode_presence_small users :
  length users ≤ 256 →
  Forall (λ u, is_valid_username u = true ∧ blen u ≤ 32) users →
  encode_presence users =
    Ok (frame_header Presence (zlen (presence_payload users)) ++ presence_payload users).
Proof.
  intros Hn Hu. apply encode_presence_Ok. split_and!.
  - unfold zlen, U16_MAX. lia.
  - eapply Forall_impl; [done|]. intros u [? ?]. split; [done|]. unfold U16_MAX. lia.
  - apply encode_frame_small, presence_payload_fits; [done|].
    eapply Forall_impl; [done|]. by intros u [].
Qed.

(** ** Lemmas: the parser *)

Lemma get_u16_app l z m :
  (0 <= z <= U16_MAX)%Z → get_u16 (l ++ u16_to_be_bytes z ++ m) (length l) = Some z.
Proof.
  intros Hz. destruct (u16_be_roundtrip z Hz) as (b1 & b0 & E & Ez).
  unfold get_u16. rewrite (slice_app_mid l (u16_to_be_bytes z) m); [|done|done].
  rewrite E. cbn. by rewrite Ez.
Qed.

Lemma get_u16_Some l a z :
  get_u16 l a = Some z →
  ∃ p s, l = p ++ u16_to_be_bytes z ++ s ∧ length p = a ∧ (0 <= z <= U16_MAX)%Z.
Proof.
  unfold get_u16. destruct (slice l a (a + 2)) as [bs|] eqn:E; [|done]. cbn.
  apply slice_Some in E as (p & s & -> & Hp & _).
  destruct bs as [|b1 [|b0 [|]]]; try done. intros [= <-].
  exists p, s. rewrite u16_be_roundtrip_inv. split_and!; [done..| |];
    apply u16_from_be_bytes_bound.
Qed.

Lemma parse_users_app us pre users rest :
  Forall sendable us →
  parse_users (length us) (pre ++ users_bytes us ++ rest) (length pre) users =
    Some (length pre + length (users_bytes us), users ++ us).
Proof.
  intros Hus. revert pre users. induction Hus as [|u us [Hu Hlen] Hus IH]; intros pre users.
  { cbn [length parse_users]. by rewrite users_bytes_nil, Nat.add_0_r, app_nil_r. }
  cbn [length parse_users]. rewrite users_bytes_cons, user_bytes_eq, <-!app_assoc.
  rewrite get_u16_app by lia. cbn [mbind option_bind].
  rewrite Nat2Z.id, (app_assoc pre (u16_to_be_bytes _)).
  rewrite slice_app_mid; [|by rewrite length_app|by rewrite length_app].
  cbn [mbind option_bind]. rewrite from_utf8_as_bytes. cbn [mbind option_bind].
  rewrite Hu. cbn [negb]. rewrite app_assoc.
  replace (length pre + 2 + blen u) with
    (length ((pre ++ u16_to_be_bytes (Z.of_nat (blen u))) ++ as_bytes u))
    by (rewrite !length_app; done).
  rewrite IH, !length_app, <-app_assoc, length_u16_to_be_bytes. do 2 f_equal. lia.
Qed.

Lemma parse_users_Some n payload off users off' users' :
  off ≤ length payload →
  parse_users n payload off users = Some (off', users') →
  ∃ us pre rest, payload = pre ++ users_bytes us ++ rest ∧ length pre = off ∧
    length us = n ∧ users' = users ++ us ∧ Forall sendable us ∧
    off' = off + length (users_bytes us).
Proof.
  revert off users. induction n as [|n IH]; intros off users Hoff; cbn [parse_users].
  { intros [= <- <-]. exists [], (take off payload), (drop off payload).
    rewrite users_bytes_nil. cbn [app length].
    rewrite take_drop, app_nil_r, length_take. split_and!; try done; lia. }
  destruct (get_u16 payload off) as [l|] eqn:El; [|done]. cbn [mbind option_bind].
  apply get_u16_Some in El as (pre & s & Hpay & Hpre & Hl).
  destruct (slice payload (off + 2) _) as [bytes|] eqn:Eb; [|done]. cbn [mbind option_bind].
  apply slice_Some in Eb as (p2 & s2 & Hpay2 & Hp2 & Hbytes).
  destruct (from_utf8 bytes) as [u|] eqn:Eu; [|done]. cbn [mbind option_bind].
  apply as_bytes_from_utf8 in Eu. subst bytes.
  destruct (is_valid_username u) eqn:Hu; [|done]. cbn [negb]. intros H.
  assert (p2 = pre ++ u16_to_be_bytes l) as ->.
  { rewrite Hpay, app_assoc in Hpay2. apply app_inj_1 in Hpay2 as [? _]; [done|].
    rewrite length_app, length_u16_to_be_bytes. lia. }
  rewrite Hpay2, !length_app in Hoff.
  assert (l = Z.of_nat (blen u)) as Hlu by (unfold blen; lia).
  apply IH in H as (us & pre' & rest & Hpay3 & Hpre' & Hn & -> & Hus & ->);
    [|rewrite Hpay2, !length_app, length_u16_to_be_bytes; lia].
  exists (u :: us), pre, rest. rewrite users_bytes_cons.
  assert (pre' = pre ++ user_bytes u) as ->.
  { rewrite Hpay2, <-!app_assoc, (app_assoc (u16_to_be_bytes l)), app_assoc in Hpay3.
    rewrite user_bytes_eq, <-Hlu. apply app_inj_1 in Hpay3 as [? _]; [done|].
    rewrite !length_app, length_u16_to_be_bytes. fold (blen u). lia. }
  split_and!; [by rewrite Hpay3, <-!app_assoc|done|by cbn; rewrite Hn|by rewrite <-app_assoc| |].
  - constructor; [split; [done|lia]|done].
  - rewrite length_app, length_user_bytes. lia.
Qed.

Lemma parse_presence_payload users :
  (zlen users <= U16_MAX)%Z → Forall sendable users →
  parse_presence (presence_payload users) = Some users.
Proof.
  intros Hn Hu. unfold parse_presence, presence_payload.
  pose proof (zlen_nonneg users).
  pose proof (get_u16_app [] (zlen users) (users_bytes users)) as Hc.
  cbn [app length] in Hc. rewrite Hc by lia. cbn [mbind option_bind].
  rewrite Z_to_nat_zlen.
  pose proof (parse_users_app users (u16_to_be_bytes (zlen users)) [] [] Hu) as Hp.
  rewrite app_nil_r, length_u16_to_be_bytes in Hp. rewrite Hp.
  cbn [mbind option_bind]. rewrite length_app, length_u16_to_be_bytes.
  by rewrite decide_True.
Qed.

Lemma parse_presence_Some payload users :
  parse_presence payload = Some users →
  payload = presence_payload users ∧ Forall sendable users ∧ (zlen users <= U16_MAX)%Z.
Proof.
  unfold parse_presence. destruct (get_u16 payload 0) as [c|] eqn:Ec; [|done].
  cbn [mbind option_bind]. apply get_u16_Some in Ec as (p & s & Hpay & Hp & Hc).
  destruct p; [|done]. cbn [app] in Hpay.
  destruct (parse_users _ _ _ _) as [[off us]|] eqn:Eu; [|done]. cbn [mbind option_bind].
  case_decide as Hoff; [|done]. intros [= ->].
  apply parse_users_Some in Eu as (us & pre & rest & Hpay2 & Hpre & Hn & -> & Hus & ->);
    [|rewrite Hpay, length_app, length_u16_to_be_bytes; lia].
  cbn [app]. assert (rest = []) as ->.
  { rewrite Hpay2, !length_app in Hoff. destruct rest; [done|]. cbn in Hoff. lia. }
  rewrite app_nil_r in Hpay2. assert (c = zlen us) as -> by (unfold zlen; lia).
  assert (pre = u16_to_be_bytes (zlen us)) as ->.
  { rewrite Hpay in Hpay2. apply app_inj_1 in Hpay2 as [? _]; [done|]. by rewrite Hpre. }
  split_and!; [done|done|lia].
Qed.

(** ** Properties *)

(** C29: whatever [encode_presence] accepts, [parse_presence] reads back from the payload of
    the frame: the same users in the same order. *)
Theorem presence_roundtrip users f :
  encode_presence users = Ok f →
  ∃ p, f = frame_header Presence (zlen p) ++ p ∧ parse_presence p = Some users.
Proof.
  intros H. apply encode_presence_Ok in H as (Hn & Hu & Hf).
  apply encode_frame_Ok in Hf as [-> _]. exists (presence_payload users).
  split; [done|]. by apply parse_presence_payload.
Qed.

Lemma presence_roundtrip_witness :
  ∃ p, frame_header Presence 18 ++ presence_payload [lit "alice,ops"; lit "bob"] =
      frame_header Presence (zlen p) ++ p ∧
    parse_presence p = Some [lit "alice,ops"; lit "bob"].
Proof. apply (presence_roundtrip [lit "alice,ops"; lit "bob"]). vm_compute. reflexivity. Defined.

(** C30: a payload that [parse_presence] accepts is the canonical encoding of the users it
    returns, which are all valid names; within the frame limit, re-encoding them gives the
    frame with exactly that payload.  No two payloads parse to the same list. *)
Theorem parse_presence_canonical p users :
  parse_presence p = Some users →
  Forall (λ u, is_valid_username u = true) users ∧ p = presence_payload users ∧
  ((zlen p <= MAX_FRAME_PAYLOAD_BYTES)%Z →
   encode_presence users = Ok (frame_header Presence (zlen p) ++ p)).
Proof.
  intros H. apply parse_presence_Some in H as (-> & Hu & Hn). split_and!; [|done|].
  - eapply Forall_impl; [done|]. by intros u [].
  - intros Hp. apply encode_presence_Ok. split_and!; [done..|]. by apply encode_frame_small.
Qed.

Lemma parse_presence_canonical_witness :
  encode_presence [lit "bo"] =
    Ok (frame_header Presence 6 ++ map u8_of_Z [0; 1; 0; 2; 98; 111]%Z).
Proof.
  destruct (parse_presence_canonical (map u8_of_Z [0; 1; 0; 2; 98; 111]%Z) [lit "bo"])
    as (_ & _ & H).
  - vm_compute. reflexivity.
  - apply H. vm_compute. discriminate.
Defined.

(** [encode_presence] fails exactly when the list is longer than [u16::MAX], a name is
    invalid or longer than [u16::MAX] bytes, or the payload exceeds the frame limit; an
    invalid name before any over-long one is reported as [InvalidUsername]. *)
Theorem encode_presence_errors users :
  ((∃ f, encode_presence users = Ok f) ↔
     (zlen users <= U16_MAX)%Z ∧ Forall sendable users ∧
     (2 + Z.of_nat (sum_list_with (λ u, 2 + blen u)%nat users) <= MAX_FRAME_PAYLOAD_BYTES)%Z) ∧
  (∀ pre u post, users = pre ++ u :: post → (zlen users <= U16_MAX)%Z →
     Forall sendable pre → is_valid_username u = false →
     encode_presence users = Err InvalidUsername).
Proof.
  split.
  - rewrite <-zlen_presence_payload. split.
    + intros [f Hf]. apply encode_presence_Ok in Hf as (? & ? & Hf).
      apply encode_frame_Ok in Hf as [_ ?]. done.
    + intros (? & ? & Hp). eexists. apply encode_presence_Ok. split_and!; [done..|].
      by apply encode_frame_small.
  - intros pre u post -> Hn Hpre Hu. unfold encode_presence.
    unfold u16_try_from at 1. rewrite decide_True by done. cbn [mbind result_bind].
    generalize (u16_to_be_bytes (zlen (pre ++ u :: post))). clear Hn.
    induction Hpre as [|v pre [Hv Hl] Hpre IH]; intros acc; cbn [app encode_users].
    + by rewrite Hu.
    + rewrite Hv. cbn [negb]. unfold u16_try_from at 1. rewrite decide_True by done. apply IH.
Qed.

Lemma encode_presence_errors_witness :
  encode_presence [lit "ann"; []; lit "bob"] = Err InvalidUsername.
Proof.
  destruct (encode_presence_errors [lit "ann"; []; lit "bob"]) as [_ H].
  apply (H [lit "ann"] [] [lit "bob"]); [reflexivity|vm_compute; discriminate| |reflexivity].
  constructor; [split; [reflexivity|vm_compute; discriminate]|constructor].
Defined.
