(* ===== verification/ChatText.v ===== *)
(** The text of chat messages ([crates/protocol/src/lib.rs], lines 153-185): formatting,
    parsing, and the detection of [@username] mentions.  String slices that would panic in
    Rust are the [Panic] outcome of [exec]; the theorems show it is never reached. *)
From Equations Require Import Equations.
From S2P Require Import Prelude Utf8 Text.

(** ** Operations *)

Definition format_chat_message (username timestamp content : str) : str :=
  lit "[" ++ username ++ lit "](" ++ timestamp ++ lit "): " ++ content.

Definition parse_chat_message (message : str) : exec (option (str * str * str)) :=
  match find (lit "](") message with
  | None => Val None
  | Some close_user =>
      rest ← index_from message (close_user + 2);
      match find (lit "): ") rest with
      | None => Val None
      | Some time =>
          let close_time := time + close_user + 2 in
          Val (username ← get_range message 1 close_user;
               timestamp ← get_range message (close_user + 2) close_time;
               body ← get_from message (close_time + 3);
               if starts_with (lit "[") message then Some (username, timestamp, body)
               else None)
      end
  end.

Definition at_sign : char := chr 64.
Definition underscore : char := chr 95.
Definition needle (username : str) : str := at_sign :: username.

(** [after.is_none_or(|ch| !ch.is_alphanumeric() && ch != '_')] *)
Definition word_boundary `{UnicodeTables} (after : option char) : bool :=
  match after with
  | None => true
  | Some ch => negb (is_alphanumeric ch) && negb (bool_decide (ch = underscore))
  end.

Lemma mentions_progress text username search_start rest relative :
  index_from text search_start = Val rest → find (needle username) rest = Some relative →
  blen text + 1 - (search_start + relative + blen (needle username)) <
  blen text + 1 - search_start.
Proof.
  intros H1 H2. unfold index_from in H1.
  destruct (get_from text search_start) as [t|] eqn:E; simplify_eq/=.
  apply get_from_Some in E as (a & -> & <-). apply find_Some in H2 as (x & y & -> & <- & _).
  unfold needle. rewrite !blen_app, !blen_cons. pose proof (len_utf8_pos at_sign). lia.
Qed.

(** A scrutinee together with the equation of the branch taken. *)
Definition inspect {A} (a : A) : { b : A | a = b } := exist _ a eq_refl.

Section Mentions.
Context `{UnicodeTables}.

(** The loop of [message_mentions_user], from [search_start]. *)
Equations mentions_from (text username : str) (search_start : nat) : exec bool
  by wf (blen text + 1 - search_start) lt :=
  mentions_from text username search_start with inspect (index_from text search_start) := {
    | exist _ Panic Hrest => Panic;
    | exist _ (Val rest) Hrest with inspect (find (needle username) rest) := {
      | exist _ None Hfind => Val false;
      | exist _ (Some relative_index) Hfind with
          index_from text (search_start + relative_index + blen (needle username)) := {
        | Panic => Panic;
        | Val after with word_boundary (head after) := {
          | true => Val true;
          | false => mentions_from text username
                       (search_start + relative_index + blen (needle username)) } } } }.
Next Obligation. intros. by eapply mentions_progress. Qed.

Definition message_mentions_user (text username : str) : exec bool :=
  mentions_from text username 0.
End Mentions.

(** ** Lemmas: separators *)

Lemma unbordered_user_sep : unbordered (lit "](").
Proof.
  intros p1 p2 p3 H1 H2 Hp1. destruct p1 as [|c1 [|c2 [|c3 p1]]]; [done| | |].
  - injection H1 as <- <-. discriminate.
  - by injection H1 as <- <- <-.
  - discriminate.
Qed.

Lemma unbordered_time_sep : unbordered (lit "): ").
Proof.
  intros p1 p2 p3 H1 H2 Hp1. destruct p1 as [|c1 [|c2 [|c3 [|c4 p1]]]]; [done| | | |].
  - injection H1 as <- <-. discriminate.
  - injection H1 as <- <- <-. discriminate.
  - by injection H1 as <- <- <- <-.
  - discriminate.
Qed.

Lemma unbordered_needle u : at_sign ∉ u → unbordered (needle u).
Proof.
  intros Hu p1 p2 p3 H1 H2 Hp1. destruct p2 as [|c p2]; [done|exfalso].
  unfold needle in *. cbn [app] in H2. injection H2 as <- _.
  destruct p1 as [|d p1]; [done|]. cbn [app] in H1. injection H1 as _ ->. set_solver.
Qed.

Lemma occurs_cons p c s : occurs p (c :: s) ↔ starts_with p (c :: s) = true ∨ occurs p s.
Proof.
  rewrite starts_with_true. split.
  - intros ([|d a] & b & H); [left; by exists b|]. right. injection H as _ ->. by exists a, b.
  - intros [[t H]|(a & b & ->)]; [exists [], t; done|]. by exists (c :: a), b.
Qed.

(** ** Lemmas: parsing *)

Lemma format_split u t b :
  format_chat_message u t b = (lit "[" ++ u) ++ lit "](" ++ (t ++ lit "): " ++ b).
Proof. unfold format_chat_message. by rewrite <-!app_assoc. Qed.

Lemma blen_lit_user : blen (lit "](") = 2.
Proof. reflexivity. Qed.
Lemma blen_lit_time : blen (lit "): ") = 3.
Proof. reflexivity. Qed.
Lemma blen_lit_open : blen (lit "[") = 1.
Proof. reflexivity. Qed.

Lemma occurs_user_open u : occurs (lit "](") (lit "[" ++ u) ↔ occurs (lit "](") u.
Proof.
  change (lit "[" ++ u) with (chr 91 :: u). rewrite occurs_cons. split; [|tauto].
  intros [H|]; [|done]. exfalso. apply starts_with_true in H as [t H]. discriminate.
Qed.

Lemma parse_format u t b :
  ¬ occurs (lit "](") u → ¬ occurs (lit "): ") t →
  parse_chat_message (format_chat_message u t b) = Val (Some (u, t, b)).
Proof.
  intros Hu Ht. unfold parse_chat_message. rewrite format_split.
  rewrite find_unbordered by (apply unbordered_user_sep || by rewrite occurs_user_open).
  assert (blen (lit "[" ++ u) + 2 = blen ((lit "[" ++ u) ++ lit "](")) as E
    by (by rewrite (blen_app _ (lit "]("))).
  rewrite E, app_assoc, index_from_app. cbn [mbind exec_bind].
  rewrite find_unbordered by (apply unbordered_time_sep || done).
  f_equal. rewrite <-E.
  assert (((lit "[" ++ u) ++ lit "](") ++ t ++ lit "): " ++ b =
          lit "[" ++ u ++ lit "](" ++ t ++ lit "): " ++ b) as ->
    by (by rewrite <-!app_assoc).
  set (m := lit "[" ++ u ++ lit "](" ++ t ++ lit "): " ++ b).
  assert (get_range m 1 (blen (lit "[" ++ u)) = Some u) as Hu'.
  { rewrite (blen_app (lit "[")). apply (get_range_app (lit "[")). }
  assert (get_range m (blen (lit "[" ++ u) + 2) (blen t + blen (lit "[" ++ u) + 2) = Some t)
    as Ht'.
  { replace (blen t + _ + 2) with (blen ((lit "[" ++ u) ++ lit "](") + blen t) by lia.
    rewrite E. pose proof (get_range_app ((lit "[" ++ u) ++ lit "](") t (lit "): " ++ b)) as H.
    by rewrite <-!app_assoc in H |- *. }
  assert (get_from m (blen t + blen (lit "[" ++ u) + 2 + 3) = Some b) as Hb'.
  { pose proof (get_from_app ((lit "[" ++ u) ++ lit "](" ++ t ++ lit "): ") b) as H.
    rewrite <-!app_assoc in H. rewrite <-H. f_equal.
    rewrite !blen_app, blen_lit_user, blen_lit_time. lia. }
  by rewrite Hu', Ht', Hb'.
Qed.

(** A string split at a separator it does not contain before the split. *)
Lemma first_not_occurs p a b :
  (∀ a' b', a ++ p ++ b = a' ++ p ++ b' → blen a ≤ blen a') → 0 < blen p → ¬ occurs p a.
Proof.
  intros Hmin Hp (x & y & ->). specialize (Hmin x (y ++ p ++ b)).
  rewrite !blen_app, <-!app_assoc in Hmin. specialize (Hmin eq_refl). lia.
Qed.

Lemma parse_chat_message_total m :
  ∃ o, parse_chat_message m = Val o ∧
    ∀ u t b, o = Some (u, t, b) →
      m = format_chat_message u t b ∧ ¬ occurs (lit "](") u ∧ ¬ occurs (lit "): ") t.
Proof.
  unfold parse_chat_message. destruct (find (lit "](") m) as [i|] eqn:Ei; [|eexists; done].
  apply find_Some in Ei as (a & r & Hm & Hi & Hmin).
  assert (m = (a ++ lit "](") ++ r) as Hm2 by (by rewrite Hm, <-app_assoc).
  assert (i + 2 = blen (a ++ lit "](")) as Hi2 by (by rewrite blen_app, Hi).
  assert (index_from m (i + 2) = Val r) as -> by (rewrite Hi2, Hm2; apply index_from_app).
  cbn [mbind exec_bind].
  destruct (find (lit "): ") r) as [j|] eqn:Ej; [|eexists; done].
  eexists. split; [done|]. intros u t b Ho.
  apply find_Some in Ej as (t' & b' & Hr' & Hj & Hmin').
  destruct (get_range m 1 i) as [u'|] eqn:Eu; [|done]. cbn [mbind option_bind] in Ho.
  destruct (get_range m (i + 2) _) as [t2|] eqn:Et; [|done]. cbn [mbind option_bind] in Ho.
  destruct (get_from m _) as [b2|] eqn:Eb; [|done]. cbn [mbind option_bind] in Ho.
  destruct (starts_with (lit "[") m) eqn:Es; [|done]. injection Ho as -> -> ->.
  apply starts_with_true in Es as [m' Hm'].
  apply (get_range_at m (lit "[") m') in Eu as (y & -> & Hbu); [|done|done].
  assert (lit "[" ++ u = a) as <-.
  { rewrite Hm', app_assoc in Hm. apply app_inj_blen in Hm as [? _]; [done|].
    rewrite blen_app. lia. }
  destruct (get_range_at m _ r _ _ _ Et Hm2 Hi2) as (y2 & Hty & Hbt).
  rewrite Hr' in Hty. apply app_inj_blen in Hty as [-> _]; [|rewrite <-Hi2 in Hbt; lia].
  apply (get_from_at m (((lit "[" ++ u) ++ lit "](") ++ t ++ lit "): ") b') in Eb as ->.
  2: { by rewrite Hm2, Hr', <-!app_assoc. }
  2: { rewrite Hbt, !blen_app, blen_lit_time. lia. }
  rewrite Hm, format_split, Hr'. split_and!; [done| |].
  - rewrite <-occurs_user_open. eapply first_not_occurs; [by rewrite <-Hm|by compute; lia].
  - eapply first_not_occurs; [by rewrite <-Hr'|by compute; lia].
Qed.

(** ** Lemmas: mentions *)

Section MentionLemmas.
Context `{UnicodeTables}.

(** A mention of [username] at the place [rest] starts. *)
Definition mention (username rest : str) : Prop :=
  ∃ a b, rest = a ++ needle username ++ b ∧ word_boundary (head b) = true.

Lemma blen_needle_pos u : 0 < blen (needle u).
Proof. unfold needle. rewrite blen_cons. pose proof (len_utf8_pos at_sign). lia. Qed.

Lemma mentions_from_miss pre rest u :
  find (needle u) rest = None → mentions_from (pre ++ rest) u (blen pre) = Val false.
Proof.
  intros Hf. rewrite mentions_from_equation_1. unfold mentions_from_unfold_clause_1.
  destruct (inspect (index_from (pre ++ rest) (blen pre))) as [[rest'|] E];
    pose proof E as E'; rewrite index_from_app in E'; [|done].
  injection E' as <-. cbv beta iota. unfold mentions_from_unfold_clause_1_clause_2.
  destruct (inspect (find (needle u) rest)) as [[i|] E2]; [congruence|done].
Qed.

Lemma mentions_from_hit pre rest u a b :
  rest = a ++ needle u ++ b → find (needle u) rest = Some (blen a) →
  mentions_from (pre ++ rest) u (blen pre) =
    if word_boundary (head b) then Val true
    else mentions_from ((pre ++ a ++ needle u) ++ b) u (blen (pre ++ a ++ needle u)).
Proof.
  intros Hrest Hf. rewrite mentions_from_equation_1. unfold mentions_from_unfold_clause_1.
  destruct (inspect (index_from (pre ++ rest) (blen pre))) as [[rest'|] E];
    pose proof E as E'; rewrite index_from_app in E'; [|done].
  injection E' as <-. cbv beta iota. unfold mentions_from_unfold_clause_1_clause_2.
  destruct (inspect (find (needle u) rest)) as [[i|] E2]; [|congruence].
  pose proof E2 as E2'. rewrite Hf in E2'. injection E2' as <-. cbv beta iota. unfold mentions_from_unfold_clause_1_clause_2_clause_2. clear Hf. subst rest.
  assert (blen pre + blen a + blen (needle u) = blen (pre ++ a ++ needle u)) as Hlen
    by (rewrite !blen_app; lia).
  assert (pre ++ a ++ needle u ++ b = (pre ++ a ++ needle u) ++ b) as Happ
    by (by rewrite <-!app_assoc).
  assert (index_from (pre ++ a ++ needle u ++ b) (blen pre + blen a + blen (needle u)) = Val b)
    as Hi by (rewrite Hlen, Happ; apply index_from_app).
  rewrite Hi. unfold mentions_from_unfold_clause_1_clause_2_clause_2_clause_2.
  destruct (word_boundary (head b)); [done|]. by rewrite Hlen, Happ.
Qed.

Lemma mention_skip u a b :
  unbordered (needle u) → find (needle u) (a ++ needle u ++ b) = Some (blen a) →
  word_boundary (head b) = false → mention u (a ++ needle u ++ b) → mention u b.
Proof.
  intros Hun Hf Hb (a' & b' & Heq & Hb'). apply find_Some in Hf as (x & y & _ & Hbx & Hmin).
  specialize (Hmin a' b' Heq). rewrite Hbx in Hmin. clear Hbx.
  apply app_eq_app in Heq as (k & [(-> & Hk)|(-> & Hk)]).
  - rewrite blen_app in Hmin. assert (k = []) as -> by (apply blen_zero; lia).
    rewrite app_nil_l in Hk. apply app_inv_head in Hk as ->. congruence.
  - destruct k as [|c k]; [rewrite app_nil_l in Hk; apply app_inv_head in Hk as ->; congruence|].
    apply app_eq_app in Hk as (l & [(Hl & Hb2)|(Hl & ->)]).
    + destruct l as [|d l].
      * rewrite app_nil_l in Hb2. exists [], b'. by rewrite app_nil_l, Hb2.
      * exfalso. apply app_eq_app in Hb2 as (q & [(Hq & _)|(Hq & _)]).
        -- assert (d :: l = []); [|done]. by eapply (Hun (c :: k) (d :: l) q).
        -- apply (f_equal length) in Hl, Hq. rewrite length_app in Hl, Hq. cbn in Hl, Hq. lia.
    + exists l, b'. by rewrite app_assoc.
Qed.

(** The loop never panics; it finds only mentions; it finds one when there is one and the
    needle cannot overlap itself. *)
Lemma mentions_from_spec pre rest u :
  ∃ r, mentions_from (pre ++ rest) u (blen pre) = Val r ∧
    (r = true → mention u rest) ∧
    (unbordered (needle u) → mention u rest → r = true).
Proof.
  remember (length rest) as n eqn:Hn. revert pre rest Hn.
  induction n as [n IH] using lt_wf_ind. intros pre rest ->.
  destruct (find (needle u) rest) as [i|] eqn:Ef.
  - pose proof Ef as Hf. apply find_Some in Ef as (a & b & -> & <- & _).
    rewrite (mentions_from_hit pre _ u a b) by done.
    destruct (word_boundary (head b)) eqn:Hb.
    + exists true. split_and!; [done| |done]. intros _. by exists a, b.
    + destruct (IH (length b)) with (pre := pre ++ a ++ needle u) (rest := b)
        as (r & -> & Hr1 & Hr2); [|done|].
      { rewrite !length_app. unfold needle. cbn. lia. }
      exists r. split_and!; [done| |].
      * intros (x & y & -> & Hy)%Hr1. exists (a ++ needle u ++ x), y.
        by rewrite <-!app_assoc.
      * intros Hun Hm. apply Hr2; [done|]. by eapply mention_skip.
  - exists false. split_and!; [by apply mentions_from_miss|done|].
    intros _ (a & b & -> & _). by eapply find_None in Ef.
Qed.

End MentionLemmas.

(** ** Properties *)

(** C37: formatting and parsing are inverse: [parse_chat_message] returns a user, a time and a
    body exactly when the message is the formatted text of the three, the user name holds no
    "](" and the time no "): "; it never slices off a character boundary. *)
Theorem chat_message_parse_spec m :
  (∃ o, parse_chat_message m = Val o) ∧
  ∀ u t b, parse_chat_message m = Val (Some (u, t, b)) ↔
    m = format_chat_message u t b ∧ ¬ occurs (lit "](") u ∧ ¬ occurs (lit "): ") t.
Proof.
  destruct (parse_chat_message_total m) as (o & Ho & Hspec). split; [eauto|].
  intros u t b. split.
  - intros H. rewrite H in Ho. injection Ho as <-. by apply Hspec.
  - intros (-> & Hu & Ht). by apply parse_format.
Qed.

(** C39: [message_mentions_user] terminates without a panic, reports only true mentions
    (an "@name" followed by the end or a character that is neither alphanumeric nor "_"), and
    reports every one when the name holds no "@"; this for any Unicode tables. *)
Theorem mentions_spec `{UnicodeTables} text u :
  ∃ r, message_mentions_user text u = Val r ∧
    (r = true → mention u text) ∧
    (at_sign ∉ u → mention u text → r = true).
Proof.
  destruct (mentions_from_spec [] text u) as (r & Hr & H1 & H2).
  exists r. split_and!; [exact Hr|done|].
  intros Hu. apply H2. by apply unbordered_needle.
Qed.

(** The scan resumes after a failed match, so a mention that overlaps it is missed: a user
    named "ab@a" is mentioned by "@ab@ab@a" and not told so. *)
Theorem mentions_overlap_missed :
  let _ := latin_tables in
  message_mentions_user (lit "@ab@ab@a") (lit "ab@a") = Val false ∧
  mention (lit "ab@a") (lit "@ab@ab@a").
Proof.
  split; [vm_compute; reflexivity|]. exists (lit "@ab"), []. by vm_compute.
Qed.
