(* ===== verification/Config.v ===== *)
(** Startup: the shared configuration ([crates/config/src/lib.rs]), the command line
    ([crates/cli/src/lib.rs]) and the dispatch of the executable
    ([apps/drocsid/src/main.rs]).  The argument parser clap generates is a parameter; what
    the program relies on is that a username it returns went through the value parser. *)
From S2P Require Import Prelude Utf8 Text Presence.

(** ** Configuration *)

(** A [Duration] as its number of nanoseconds. *)
Definition Duration := Z.
Definition from_millis (ms : Z) : Duration := (ms * 1000000)%Z.
Definition from_secs (s : Z) : Duration := (s * 1000000000)%Z.

Definition DEFAULT_SERVER_BIND_ADDR : str := lit "127.0.0.1:7878".
Definition DEFAULT_SERVER_CONNECT_ADDR : str := lit "127.0.0.1:7878".
Definition DEFAULT_SERVER_SIMULATED_LATENCY_MS : Z := 0.

Record ServerConfig := mk_ServerConfig {
  bind_addr : str;
  connect_addr : str;
  simulated_latency : Duration }.

Definition for_server (listen_addr : option str) (latency_ms : option Z) : ServerConfig :=
  mk_ServerConfig
    (default DEFAULT_SERVER_BIND_ADDR listen_addr)
    DEFAULT_SERVER_CONNECT_ADDR
    (from_millis (default DEFAULT_SERVER_SIMULATED_LATENCY_MS latency_ms)).

Definition for_client (connect_addr : option str) : ServerConfig :=
  mk_ServerConfig
    DEFAULT_SERVER_BIND_ADDR
    (default DEFAULT_SERVER_CONNECT_ADDR connect_addr)
    (from_millis DEFAULT_SERVER_SIMULATED_LATENCY_MS).

(** ** Command line *)

(** The [value_parser] of [--username]. *)
Definition non_empty_username (value : str) : result str str :=
  if is_empty (trim value) then Err (lit "username cannot be empty")
  else if negb (is_valid_username value) then
    Err (lit "username cannot contain control characters")
  else Ok value.

(** The derived subcommands ([CliCommand]) and the program's own [Command]. *)
Inductive CliCommand :=
  | CliServer (listen : option str) (latency_ms : option Z)
  | CliClient (username : str) (connect : option str).
Inductive Command :=
  | Server (listen : option str) (latency_ms : option Z)
  | Client (username : str) (connect : option str).

Section Cli.
Context {ClapError : Type} (try_parse_from : list str → result ClapError CliCommand).

Definition parse_command (args : list str) : result ClapError Command :=
    (λ cli, match cli with
            | CliServer listen latency_ms => Server listen latency_ms
            | CliClient username connect => Client username connect
            end) <$> try_parse_from args.
End Cli.

(** What [main]'s [run] starts for a command. *)
Inductive Launch :=
  | RunServer (config : ServerConfig)
  | RunClient (username : str) (config : ServerConfig).

Definition dispatch (command : Command) : Launch :=
  match command with
  | Server listen latency_ms => RunServer (for_server listen latency_ms)
  | Client username connect => RunClient username (for_client connect)
  end.

(** ** Lemmas *)

Lemma is_valid_username_iff u :
  is_valid_username u = true ↔
    (∃ c, c ∈ u ∧ is_whitespace c = false) ∧ (∀ c, c ∈ u → is_control c = false).
Proof.
  unfold is_valid_username. rewrite andb_true_iff, !negb_true_iff, is_empty_false.
  assert (trim u ≠ [] ↔ ∃ c, c ∈ u ∧ is_whitespace c = false) as ->.
  { rewrite trim_nil_iff. rewrite not_true_iff_false. split.
    - intros H. induction u as [|c u IH]; [done|]. cbn in H.
      destruct (is_whitespace c) eqn:Hc; [|exists c; set_solver].
      destruct (IH H) as (d & ? & ?). exists d. set_solver.
    - intros (c & Hc & Hw). apply not_true_iff_false. intros H.
      rewrite forallb_forall in H. apply list_elem_of_In in Hc. rewrite H in Hw; done. }
  f_equiv. split.
  - intros H c Hc. apply not_true_iff_false. intros Hcc. apply not_true_iff_false in H.
    apply H. apply existsb_exists. exists c. by rewrite <-list_elem_of_In.
  - intros H. apply not_true_iff_false. intros (c & Hc & Hcc)%existsb_exists.
    apply list_elem_of_In in Hc. rewrite H in Hcc; done.
Qed.

(** Trimming keeps a valid name valid. *)
Lemma is_valid_username_trim u : is_valid_username u = true → is_valid_username (trim u) = true.
Proof.
  unfold is_valid_username. rewrite !andb_true_iff, trim_trim, !negb_true_iff.
  intros [? H]. split; [done|]. apply not_true_iff_false.
  intros (c & Hc & Hcc)%existsb_exists. apply list_elem_of_In in Hc. apply trim_elem in Hc.
  apply not_true_iff_false in H. apply H. apply existsb_exists. exists c.
  by rewrite <-list_elem_of_In.
Qed.

Lemma non_empty_username_Ok v u :
  non_empty_username v = Ok u ↔ u = v ∧ is_valid_username v = true.
Proof.
  unfold non_empty_username. destruct (is_empty (trim v)) eqn:E; cbn.
  - split; [done|]. intros [_ H]. unfold is_valid_username in H. by rewrite E in H.
  - destruct (is_valid_username v); cbn; [|by split; [|intros []]].
    split; [intros; by simplify_eq|by intros [-> _]].
Qed.

(** ** Properties *)

(** The client is started only with a username the protocol accepts, and the options
    given override the defaults; for any argument parser that applies the declared value
    parser to [--username]. *)
Theorem parse_command_sound {ClapError} (try_parse_from : list str → result ClapError CliCommand)
    (applies_value_parser : ∀ args u c, try_parse_from args = Ok (CliClient u c) →
      ∃ v, v ∈ args ∧ non_empty_username v = Ok u) args cmd :
  parse_command try_parse_from args = Ok cmd →
  match dispatch cmd with
  | RunClient u cfg =>
      is_valid_username u = true ∧ u ∈ args ∧
      ∃ c, cmd = Client u c ∧ connect_addr cfg = default DEFAULT_SERVER_CONNECT_ADDR c
  | RunServer cfg =>
      ∃ l ms, cmd = Server l ms ∧ bind_addr cfg = default DEFAULT_SERVER_BIND_ADDR l ∧
        simulated_latency cfg = from_millis (default 0%Z ms)
  end.
Proof.
  unfold parse_command. destruct (try_parse_from args) as [[l ms|u c]|e] eqn:E; [| |done];
    cbn; intros; simplify_eq/=.
  - eauto.
  - destruct (applies_value_parser _ _ _ E) as (v & Hv & Hok).
    apply non_empty_username_Ok in Hok as [-> ?]. eauto.
Qed.

(** A miniature parser: [client NAME] and [server]. *)
Definition tiny_parser (args : list str) : result unit CliCommand :=
  match args with
  | [_; cmd] => if decide (cmd = lit "server") then Ok (CliServer None None) else Err tt
  | [_; cmd; name] =>
      if decide (cmd = lit "client") then
        match non_empty_username name with Ok u => Ok (CliClient u None) | Err _ => Err tt end
      else Err tt
  | _ => Err tt
  end.

Lemma tiny_parser_value_parser args u c :
  tiny_parser args = Ok (CliClient u c) → ∃ v, v ∈ args ∧ non_empty_username v = Ok u.
Proof.
  destruct args as [|a [|b [|d [|]]]]; cbn; try done.
  - by case_decide.
  - case_decide; [|done]. destruct (non_empty_username d) as [u'|] eqn:E; [|done].
    intros; simplify_eq. exists d. split; [set_solver|done].
Qed.

Lemma parse_command_sound_witness :
  is_valid_username (lit "alice") = true ∧ lit "alice" ∈ [lit "drocsid"; lit "client"; lit "alice"] ∧
  ∃ c, Client (lit "alice") None = Client (lit "alice") c ∧
    connect_addr (for_client None) = default DEFAULT_SERVER_CONNECT_ADDR c.
Proof.
  apply (parse_command_sound tiny_parser tiny_parser_value_parser
    [lit "drocsid"; lit "client"; lit "alice"] (Client (lit "alice") None)).
  vm_compute. reflexivity.
Defined.
