(* ===== verification/Prog.v ===== *)
(** Concurrent programs over a shared world.

    The server runs one asynchronous task per connection, plus one writer task each, on
    several worker threads; tasks share state behind mutexes.  A task is a [prog]: a tree
    whose [Step] nodes are critical sections, each executed as a whole while its mutex is
    held, so that tasks interleave exactly at the boundaries of critical sections.  The one
    mutex that is held across several sections (the replay barrier) is explicit in
    [Acquire]/[Release].  [Ask] is a value the environment supplies (clock, socket, select),
    [Spawn] is [tokio::spawn], [Loop] is Rust's [loop] with the value it breaks with.

    [run] executes a program alone; [cstep] is the interleaving of a pool of tasks.  The main
    result is [csteps_safe]: an invariant every critical section preserves without panicking
    holds in every state of every interleaving, no task panics, and no mutex is poisoned. *)
From S2P Require Import Prelude.

(** The outcome of a critical section: its [Result], or a panic. *)
Inductive outcome (E A : Type) : Type :=
  | Done (r : result E A)
  | Panicking.
Arguments Done {E A} r.
Arguments Panicking {E A}.

Section Prog.
Context {W E : Type} {Q : Type → Type}.

Inductive prog : Type → Type :=
  | Ret {A} (a : A) : prog A
  | Step {A B} (act : W → outcome E B * W) (k : result E B → prog A) : prog A
  | Ask {A B} (q : Q B) (k : B → prog A) : prog A
  | Acquire {A} (k : bool → prog A) : prog A
  | Release {A} (k : prog A) : prog A
  | Spawn {A} (child : prog unit) (k : prog A) : prog A
  | Loop {A R} (body : prog (option R)) (k : R → prog A) : prog A.

Fixpoint pbind {A B} (p : prog A) : (A → prog B) → prog B :=
  match p with
  | Ret a => λ f, f a
  | Step act k => λ f, Step act (λ r, pbind (k r) f)
  | Ask q k => λ f, Ask q (λ b, pbind (k b) f)
  | Acquire k => λ f, Acquire (λ b, pbind (k b) f)
  | Release k => λ f, Release (pbind k f)
  | Spawn child k => λ f, Spawn child (pbind k f)
  | Loop body k => λ f, Loop body (λ r, pbind (k r) f)
  end.

(** A fallible function is a program that returns a [Result]; [?] passes the error on. *)
Definition tprog (A : Type) : Type := prog (result E A).

Definition try_bind {A B} (p : tprog A) (f : A → tprog B) : tprog B :=
  pbind p (λ r, match r with Ok a => f a | Err e => Ret (Err e) end).

(** One critical section as a fallible function. *)
Definition section {A} (act : W → outcome E A * W) : tprog A := Step act Ret.

(** A scope that holds the barrier: taken at its start, released at each of its exits;
    [poison_error] is returned when a panicking holder has poisoned it. *)
Definition with_barrier {A} (poison_error : E) (p : tprog A) : tprog A :=
  Acquire (λ poisoned,
    if poisoned then Ret (Err poison_error)
    else pbind p (λ r, Release (Ret r))).

(** [for x in xs { f(x)?; }] *)
Fixpoint for_each {A} (xs : list A) (f : A → tprog unit) : tprog unit :=
  match xs with
  | [] => Ret (Ok tt)
  | x :: xs => try_bind (f x) (λ _, for_each xs f)
  end.

(** ** Execution of one task without interference

    [held] says whether the task holds the barrier.  [None] is an execution that panics,
    deadlocks on the barrier, or needs the environment. *)
Fixpoint run {A} (p : prog A) (held : bool) (w : W) : option (A * bool * W) :=
  match p with
  | Ret a => Some (a, held, w)
  | Step act k =>
      match act w with
      | (Done r, w') => run (k r) held w'
      | (Panicking, _) => None
      end
  | Acquire k => if held then None else run (k false) true w
  | Release k => if held then run k false w else None
  | Ask _ _ | Spawn _ _ | Loop _ _ => None
  end.

(** The critical sections such an execution goes through: whether the barrier is held, for
    each. *)
Fixpoint sections_held {A} (p : prog A) (held : bool) (w : W) : list bool :=
  match p with
  | Step act k =>
      held ::
      match act w with
      | (Done r, w') => sections_held (k r) held w'
      | (Panicking, _) => []
      end
  | Acquire k => if held then [] else sections_held (k false) true w
  | Release k => if held then sections_held k false w else []
  | Ret _ | Ask _ _ | Spawn _ _ | Loop _ _ => []
  end.

(** The same with an environment that answers the task's queries. *)
Fixpoint run_env {A} (env : ∀ B, Q B → B) (p : prog A) (held : bool) (w : W)
  : option (A * bool * W) :=
  match p with
  | Ret a => Some (a, held, w)
  | Step act k =>
      match act w with
      | (Done r, w') => run_env env (k r) held w'
      | (Panicking, _) => None
      end
  | Acquire k => if held then None else run_env env (k false) true w
  | Release k => if held then run_env env k false w else None
  | Ask q k => run_env env (k (env _ q)) held w
  | Spawn _ _ | Loop _ _ => None
  end.

(** ** Interleaving *)

Record config := mk_config {
  world : W;
  owner : option nat;              (* the task that holds the barrier *)
  barrier_poisoned : bool;
  panics : nat;                    (* tasks that have panicked *)
  pool : gmap nat (prog unit) }.

(** What the environment may answer to a query in a world. *)
Context (answers : ∀ {B}, Q B → W → B → Prop).

Definition set_task (c : config) (t : nat) (p : prog unit) (w : W) (o : option nat) : config :=
  mk_config w o (barrier_poisoned c) (panics c) (<[t := p]> (pool c)).

Inductive cstep : config → config → Prop :=
  | cstep_section c t B (act : W → outcome E B * W) k r w' :
      pool c !! t = Some (Step act k) → act (world c) = (Done r, w') →
      cstep c (set_task c t (k r) w' (owner c))
  | cstep_panic c t B (act : W → outcome E B * W) k w' :
      pool c !! t = Some (Step act k) → act (world c) = (Panicking, w') →
      cstep c (mk_config w'
        (if decide (owner c = Some t) then None else owner c)
        (if decide (owner c = Some t) then true else barrier_poisoned c)
        (S (panics c)) (delete t (pool c)))
  | cstep_ask c t B (q : Q B) k b :
      pool c !! t = Some (Ask q k) → answers B q (world c) b →
      cstep c (set_task c t (k b) (world c) (owner c))
  | cstep_acquire c t k :
      pool c !! t = Some (Acquire k) → owner c = None →
      cstep c (set_task c t (k (barrier_poisoned c)) (world c)
        (if barrier_poisoned c then None else Some t))
  | cstep_release c t k :
      pool c !! t = Some (Release k) → owner c = Some t →
      cstep c (set_task c t k (world c) None)
  | cstep_spawn c t t' child k :
      pool c !! t = Some (Spawn child k) → pool c !! t' = None →
      cstep c (mk_config (world c) (owner c) (barrier_poisoned c) (panics c)
        (<[t := k]> (<[t' := child]> (pool c))))
  | cstep_loop c t R (body : prog (option R)) k :
      pool c !! t = Some (Loop body k) →
      cstep c (set_task c t
        (pbind body (λ o, match o with Some r => k r | None => Loop body k end))
        (world c) (owner c))
  | cstep_exit c t :
      pool c !! t = Some (Ret tt) →
      cstep c (mk_config (world c) (owner c) (barrier_poisoned c) (panics c)
        (delete t (pool c))).

Definition csteps : config → config → Prop := rtc cstep.

(** The configurations an execution goes through after its first. *)
Inductive execution : config → list config → Prop :=
  | execution_nil c : execution c []
  | execution_cons c c' cs : cstep c c' → execution c' cs → execution c (c' :: cs).

Lemma csteps_execution c c' : csteps c c' → c' = c ∨ ∃ cs, execution c (cs ++ [c']).
Proof.
  induction 1 as [c|c c1 c2 Hs _ [->|(cs & Hex)]]; [by left| |]; right.
  - exists []. eapply execution_cons; [done|]. constructor.
  - exists (c1 :: cs). by eapply execution_cons.
Qed.

Definition initial (w : W) (p : prog unit) : config := mk_config w None false 0 {[0 := p]}.

(** ** Safety of programs against an invariant *)

Context (I : W → Prop).

(** A critical section that preserves the invariant and does not panic. *)
Definition act_ok {B} (act : W → outcome E B * W) : Prop :=
  ∀ w, I w → ∃ r w', act w = (Done r, w') ∧ I w'.

Fixpoint safe {A} (p : prog A) : Prop :=
  match p with
  | Ret _ => True
  | Step act k => act_ok act ∧ ∀ w r w', I w → act w = (Done r, w') → safe (k r)
  | Ask _ k => ∀ b, safe (k b)
  | Acquire k => ∀ b, safe (k b)
  | Release k => safe k
  | Spawn child k => safe child ∧ safe k
  | Loop body k => safe body ∧ ∀ r, safe (k r)
  end.

Lemma safe_bind {A B} (p : prog A) (f : A → prog B) :
  safe p → (∀ a, safe (f a)) → safe (pbind p f).
Proof.
  intros Hp Hf. induction p; cbn in *; naive_solver.
Qed.

Lemma safe_try_bind {A B} (p : tprog A) (f : A → tprog B) :
  safe p → (∀ a, safe (f a)) → safe (try_bind p f).
Proof. intros Hp Hf. apply safe_bind; [done|]. by intros []. Qed.

Lemma safe_section {A} (act : W → outcome E A * W) : act_ok act → safe (section act).
Proof. intros H. by split. Qed.

(** What follows a section may rely on its result being one the section can return. *)
Lemma safe_section_bind {A B} (act : W → outcome E A * W) (f : A → tprog B) :
  act_ok act → (∀ w a w', I w → act w = (Done (Ok a), w') → safe (f a)) →
  safe (try_bind (section act) f).
Proof. intros Hact Hf. split; [done|]. intros w [a|e] w' HI Ew; [|done]. by eapply Hf. Qed.

Lemma safe_with_barrier {A} e (p : tprog A) : safe p → safe (with_barrier e p).
Proof. intros H []; [done|]. by apply safe_bind. Qed.

Lemma safe_for_each {A} (xs : list A) (f : A → tprog unit) :
  (∀ x, safe (f x)) → safe (for_each xs f).
Proof. intros H. induction xs as [|x xs IH]; [done|]. by apply safe_try_bind. Qed.

(** The state of a pool in which the invariant holds and nothing has gone wrong. *)
Definition config_safe (c : config) : Prop :=
  I (world c) ∧ barrier_poisoned c = false ∧ panics c = 0 ∧
  map_Forall (λ _ p, safe p) (pool c).

Lemma set_task_safe c t p w o :
  config_safe c → I w → safe p → config_safe (set_task c t p w o).
Proof.
  intros (_ & ? & ? & Hp) ? ?. split_and!; [done..|]. cbn. by apply map_Forall_insert_2.
Qed.

Lemma cstep_safe c c' : cstep c c' → config_safe c → config_safe c'.
Proof.
  intros Hstep Hc. pose proof Hc as (HI & Hb & Hn & Hp).
  destruct Hstep as [c t B act k r w' Ht Hact|c t B act k w' Ht Hact|c t B q k b Ht _|
    c t k Ht _|c t k Ht _|c t t' child k Ht _|c t R body k Ht|c t Ht];
    pose proof (map_Forall_lookup_1 _ _ _ _ Hp Ht) as Hsafe; cbn in Hsafe.
  - destruct Hsafe as [Hok Hk]. destruct (Hok _ HI) as (r' & w2 & E2 & HI').
    assert (w2 = w') as -> by congruence.
    apply set_task_safe; [done..|]. by apply (Hk _ _ _ HI Hact).
  - destruct Hsafe as [Hok _]. destruct (Hok _ HI) as (r' & w2 & E2 & HI'). congruence.
  - by apply set_task_safe.
  - apply set_task_safe; [done..|apply Hsafe].
  - by apply set_task_safe.
  - destruct Hsafe. split_and!; [done..|]. cbn. by repeat apply map_Forall_insert_2.
  - destruct Hsafe as [Hbody Hk]. apply set_task_safe; [done..|].
    apply safe_bind; [done|]. by intros [].
  - split_and!; [done..|]. cbn. by apply map_Forall_delete.
Qed.

(** Every interleaving of safe tasks keeps the invariant and never panics. *)
Lemma csteps_safe c c' : csteps c c' → config_safe c → config_safe c'.
Proof. induction 1; [done|]. eauto using cstep_safe. Qed.

Lemma initial_safe w p : I w → safe p → config_safe (initial w p).
Proof. intros. split_and!; [done..|]. cbn. by apply map_Forall_singleton. Qed.

(** Run alone, a safe program ends in a state that satisfies the invariant. *)
Lemma run_safe {A} (p : prog A) held w a held' w' :
  safe p → I w → run p held w = Some (a, held', w') → I w'.
Proof.
  intros Hp. revert held w. induction p as [A a0|A B act k IH|A B q k IH|A k IH|A k IH|
    A child IHc k IH|A R body IHb k IH]; intros held w HI Hrun; cbn in *; try done.
  - by simplify_eq.
  - destruct Hp as [Hok Hk]. destruct (Hok w HI) as (r & w2 & E2 & HI2).
    rewrite E2 in Hrun. eapply IH; [exact (Hk _ _ _ HI E2)|exact HI2|exact Hrun].
  - destruct held; [done|]. by eapply IH.
  - destruct held; [|done]. by eapply IH.
Qed.

(** [run] of the composed forms. *)
Lemma run_bind {A B} (p : prog A) (f : A → prog B) held w :
  run (pbind p f) held w =
    '(a, held', w') ← run p held w; run (f a) held' w'.
Proof.
  revert held w. induction p; intros held w; cbn; try done.
  - destruct (act w) as [[r|] w']; [auto|done].
  - destruct held; auto.
  - destruct held; auto.
Qed.

Lemma run_try_bind {A B} (p : tprog A) (f : A → tprog B) held w :
  run (try_bind p f) held w =
    '(r, held', w') ← run p held w;
    match r with Ok a => run (f a) held' w' | Err e => Some (Err e, held', w') end.
Proof.
  unfold try_bind. rewrite run_bind. destruct (run p held w) as [[[[a|e] h] w']|]; done.
Qed.

Lemma run_section {A} (act : W → outcome E A * W) held w r w' :
  act w = (Done r, w') → run (section act) held w = Some (r, held, w').
Proof. intros H. cbn. by rewrite H. Qed.

Lemma run_with_barrier {A} e (p : tprog A) w r w' :
  run p true w = Some (r, true, w') →
  run (with_barrier e p) false w = Some (r, false, w').
Proof. intros H. cbn. by rewrite run_bind, H. Qed.

(** A program that leaves the barrier alone. *)
Fixpoint steady {A} (p : prog A) : Prop :=
  match p with
  | Ret _ => True
  | Step _ k => ∀ r, steady (k r)
  | Acquire _ | Release _ => False
  | Ask _ k => ∀ b, steady (k b)
  | Spawn _ k => steady k
  | Loop body k => steady body ∧ ∀ r, steady (k r)
  end.

Lemma steady_bind {A B} (p : prog A) (f : A → prog B) :
  steady p → (∀ a, steady (f a)) → steady (pbind p f).
Proof. intros Hp Hf. induction p; cbn in *; naive_solver. Qed.

Lemma steady_try_bind {A B} (p : tprog A) (f : A → tprog B) :
  steady p → (∀ a, steady (f a)) → steady (try_bind p f).
Proof. intros Hp Hf. apply steady_bind; [done|]. by intros []. Qed.

Lemma steady_section {A} (act : W → outcome E A * W) : steady (section act).
Proof. done. Qed.

Lemma steady_for_each {A} (xs : list A) (f : A → tprog unit) :
  (∀ x, steady (f x)) → steady (for_each xs f).
Proof. intros Hf. induction xs as [|x xs IH]; [done|]. by apply steady_try_bind. Qed.

Lemma steady_held {A} (p : prog A) held w :
  steady p → Forall (eq held) (sections_held p held w).
Proof.
  revert w. induction p; intros w Hp; cbn in *; try done.
  constructor; [done|]. destruct (act w) as [[r|] w']; auto.
Qed.

Lemma held_bind {A B} (p : prog A) (f : A → prog B) held w :
  sections_held (pbind p f) held w =
    sections_held p held w ++
    match run p held w with Some (a, held', w') => sections_held (f a) held' w' | None => [] end.
Proof.
  revert held w. induction p; intros held w; cbn; try done.
  - f_equal. destruct (act w) as [[r|] w']; [auto|done].
  - destruct held; auto.
  - destruct held; auto.
Qed.

(** In the scope of the barrier every section holds it. *)
Lemma with_barrier_held {A} e (p : tprog A) w :
  steady p → sections_held (with_barrier e p) false w = sections_held p true w.
Proof.
  intros Hp. cbn. rewrite held_bind. destruct (run p true w) as [[[a []] w']|]; by rewrite app_nil_r.
Qed.

(** A task that asks nothing runs the same in every environment. *)
Lemma run_env_run {A} env (p : prog A) held w x :
  run p held w = Some x → run_env env p held w = Some x.
Proof.
  revert held w. induction p; intros held w; cbn; try done.
  - destruct (act w) as [[r|] w']; [auto|done].
  - destruct held; [done|auto].
  - destruct held; [auto|done].
Qed.

Lemma run_env_bind {A B} env (p : prog A) (f : A → prog B) held w :
  run_env env (pbind p f) held w =
    '(a, held', w') ← run_env env p held w; run_env env (f a) held' w'.
Proof.
  revert held w. induction p; intros held w; cbn; try done.
  - destruct (act w) as [[r|] w']; [auto|done].
  - destruct held; auto.
  - destruct held; auto.
Qed.

End Prog.

Arguments prog : clear implicits.
Arguments tprog : clear implicits.
Arguments config : clear implicits.

Declare Scope prog_scope.
Delimit Scope prog_scope with prog.
Notation "x ←? p ; q" := (try_bind p (λ x, q))
  (at level 20, p at level 100, q at level 200, only parsing) : prog_scope.
Notation "' x ←? p ; q" := (try_bind p (λ y, match y with x => q end))
  (at level 20, x pattern, p at level 100, q at level 200, only parsing) : prog_scope.
Notation "p ;? q" := (try_bind p (λ _, q))
  (at level 100, q at level 200, right associativity, only parsing) : prog_scope.
