(* ===== verification/Schedule.v ===== *)
(** Executable schedules.

    [Prog.cstep] says which interleavings are possible; [perform] is the same as a function:
    it executes the next step of a given task, with an environment that answers the task's
    query.  A schedule is a list of such choices, and a configuration a schedule leads to is
    reachable ([follow_reachable]).  Concrete runs of the server are schedules evaluated by
    the kernel. *)
From S2P Require Import Prelude Prog.

Section Schedule.
Context {W E : Type} {Q : Type → Type}.
Abbreviation config := (config W E Q).

Definition environment : Type := ∀ B, Q B → W → B.

(** An identity no task has. *)
Definition new_task (c : config) : nat := S (map_fold (λ t _ n, t `max` n) 0 (pool c)).

(** The next step of a task, whose program [p] is put back by [f]. *)
Definition perform_prog (env : environment) (c : config) (t : nat) {A} (p : prog W E Q A)
  : (prog W E Q A → prog W E Q unit) → option config :=
  match p with
  | Ret _ => λ _, Some (mk_config (world c) (owner c) (barrier_poisoned c) (panics c)
                          (delete t (pool c)))
  | Step act k => λ f,
      match act (world c) with
      | (Done r, w') => Some (set_task c t (f (k r)) w' (owner c))
      | (Panicking, _) => None
      end
  | Ask q k => λ f, Some (set_task c t (f (k (env _ q (world c)))) (world c) (owner c))
  | Acquire k => λ f,
      if decide (owner c = None) then
        Some (set_task c t (f (k (barrier_poisoned c))) (world c)
          (if barrier_poisoned c then None else Some t))
      else None
  | Release k => λ f,
      if decide (owner c = Some t) then Some (set_task c t (f k) (world c) None) else None
  | Spawn child k => λ f,
      if decide (pool c !! new_task c = None) then
        Some (mk_config (world c) (owner c) (barrier_poisoned c) (panics c)
          (<[t := f k]> (<[new_task c := child]> (pool c))))
      else None
  | Loop body k => λ f,
      Some (set_task c t
        (f (pbind body (λ o, match o with Some r => k r | None => Loop body k end)))
        (world c) (owner c))
  end.

Definition perform (env : environment) (t : nat) (c : config) : option config :=
  p ← pool c !! t; perform_prog env c t p id.

(** At most [n] steps of task [t]: fewer when it waits for the barrier or has ended. *)
Record choice := Run { task : nat; steps : nat; env : environment }.

Fixpoint repeat_perform (n : nat) (e : environment) (t : nat) (c : config) : config :=
  match n with
  | O => c
  | S n => match perform e t c with Some c' => repeat_perform n e t c' | None => c end
  end.

Definition follow (l : list choice) (c : config) : config :=
  foldl (λ c x, repeat_perform (steps x) (env x) (task x) c) c l.

(** The configurations on the way. *)
Fixpoint trace_steps (n : nat) (e : environment) (t : nat) (c : config) : list config :=
  match n with
  | O => []
  | S n => match perform e t c with Some c' => c' :: trace_steps n e t c' | None => [] end
  end.

Fixpoint trace (l : list choice) (c : config) : list config :=
  match l with
  | [] => []
  | x :: l =>
      let cs := trace_steps (steps x) (env x) (task x) c in
      cs ++ trace l (List.last cs c)
  end.

(** ** Soundness *)

Context (answers : ∀ B, Q B → W → B → Prop).

Definition truthful (e : environment) : Prop := ∀ B (q : Q B) w, answers B q w (e B q w).

(** A program of type [prog unit], seen at its own type. *)
Definition at_unit {A} (EA : @eq Type unit A) : prog W E Q A → prog W E Q unit :=
  match EA with eq_refl => id end.

Lemma perform_prog_step e c t c' A (p : prog W E Q A) (EA : @eq Type unit A) :
  truthful e → pool c !! t = Some (at_unit EA p) →
  perform_prog e c t p (at_unit EA) = Some c' → cstep answers c c'.
Proof.
  intros He. destruct p as [A a|A B act k|A B q k|A k|A k|A child k|A R body k];
    destruct EA; cbn; intros Ht Hp.
  - injection Hp as <-. destruct a. by apply cstep_exit.
  - destruct (act (world c)) as [[r|] w'] eqn:Ea; [|done]. injection Hp as <-.
    by eapply cstep_section.
  - injection Hp as <-. eapply cstep_ask; [exact Ht|apply He].
  - case_decide; [|done]. injection Hp as <-. by apply cstep_acquire.
  - case_decide; [|done]. injection Hp as <-. by apply cstep_release.
  - case_decide; [|done]. injection Hp as <-. by apply cstep_spawn.
  - injection Hp as <-. by apply cstep_loop.
Qed.

Lemma perform_step e t c c' : truthful e → perform e t c = Some c' → cstep answers c c'.
Proof.
  intros He. unfold perform. destruct (pool c !! t) as [p|] eqn:Ht; [|done].
  by apply (perform_prog_step e c t c' unit p eq_refl).
Qed.

Lemma repeat_perform_steps n e t c : truthful e → csteps answers c (repeat_perform n e t c).
Proof.
  intros He. revert c. induction n as [|n IH]; intros c; cbn; [apply rtc_refl|].
  destruct (perform e t c) as [c1|] eqn:E1; [|apply rtc_refl].
  eapply rtc_l; [by eapply perform_step|apply IH].
Qed.

(** A schedule leads to a reachable configuration. *)
Lemma follow_reachable l c : Forall (λ x, truthful (env x)) l → csteps answers c (follow l c).
Proof.
  unfold follow. intros Hl. revert c. induction Hl as [|x l Hx _ IH]; intros c; cbn; [apply rtc_refl|].
  etrans; [by apply repeat_perform_steps|apply IH].
Qed.

Lemma last_cons_default {A} (l : list A) x d : List.last (x :: l) d = List.last l x.
Proof.
  revert x d. induction l as [|y l IH]; intros x d; [done|].
  change (List.last (x :: y :: l) d) with (List.last (y :: l) d). by rewrite !IH.
Qed.

Lemma execution_app (c : config) cs ds :
  execution answers c cs → execution answers (List.last cs c) ds → execution answers c (cs ++ ds).
Proof.
  intros Hcs Hds. induction Hcs as [c|c c1 cs H1 Hcs IH]; [done|]. cbn [app].
  eapply execution_cons; [done|]. apply IH. by rewrite last_cons_default in Hds.
Qed.

Lemma trace_steps_execution n e t (c : config) : truthful e → execution answers c (trace_steps n e t c).
Proof.
  intros He. revert c. induction n as [|n IH]; intros c; cbn; [constructor|].
  destruct (perform e t c) as [c1|] eqn:E1; [|constructor].
  eapply execution_cons; [by eapply perform_step|apply IH].
Qed.

Lemma trace_execution (l : list choice) (c : config) :
  Forall (λ x, truthful (env x)) l → execution answers c (trace l c).
Proof.
  intros Hl. revert c. induction Hl as [|x l Hx _ IH]; intros c; cbn; [constructor|].
  apply execution_app; [by apply trace_steps_execution|apply IH].
Qed.
End Schedule.
Arguments environment : clear implicits.
Arguments choice : clear implicits.
