(* ===== verification/Rely.v ===== *)
(** A rely-guarantee logic for the interleaved programs of [Prog].

    [safe] of [Prog] proves what every section preserves; this logic also tracks what a task
    knows between its sections.  A triple [tri p h r P h' rf Post] speaks about a task that
    holds the barrier ([h]), owns the resources [r] (identities nobody else acts on) and knows
    [P].  What a task knows is stable: no step of another task, which owns other resources and
    does not hold the barrier when this one does, can falsify it.  [I] holds always, [J]
    whenever the barrier is free; ghost state is chosen by the proof at each section. *)
From Stdlib Require Import Sorting.Sorted.
From S2P Require Import Prelude Prog.

Section Rely.
Context {W E : Type} {Q : Type → Type} {Ghost : Type} `{Countable Res}.
Abbreviation prog := (prog W E Q).

Definition st : Type := W * Ghost.

Context (answers : ∀ {B}, Q B → W → B → Prop).
Context (I J : st → Prop) (used : Ghost → gset Res) (G : bool → gset Res → st → st → Prop).

Definition G_monotone : Prop := ∀ h r r' s s', r ⊆ r' → G h r s s' → G h r' s s'.

Lemma disjoint_mono (X Y X' Y' : gset Res) : X ## Y → X' ⊆ X → Y' ⊆ Y → X' ## Y'.
Proof. clear. set_solver. Qed.

(** ** What others may do, and what they cannot falsify *)

Definition rely (h : bool) (r : gset Res) (s s' : st) : Prop :=
  ∃ h' r', r ## r' ∧ (h = true → h' = false) ∧ (h' = false → J s → J s') ∧
    used s.2 ⊆ used s'.2 ∧ G h' r' s s'.

Definition stable (h : bool) (r : gset Res) (P : st → Prop) : Prop :=
  ∀ s s', I s → I s' → r ⊆ used s.2 → rely h r s s' → P s → P s'.

Lemma stable_weaken h r r' P : r ⊆ r' → stable h r P → stable h r' P.
Proof.
  intros Hr Hst s s' Hs Hs' Hu (h' & r2 & Hd & Hrest). apply Hst; [done|done|set_solver|].
  exists h', r2. split; [set_solver|done].
Qed.

Lemma stable_True h r : stable h r (λ _, True).
Proof. done. Qed.

Lemma stable_and h r P1 P2 :
  stable h r P1 → stable h r P2 → stable h r (λ s, P1 s ∧ P2 s).
Proof. intros H1 H2 s s' ? ? ? Hr [? ?]. split; [by apply (H1 s s')|by apply (H2 s s')]. Qed.

Lemma stable_exists {A} h r (P : A → st → Prop) :
  (∀ a, stable h r (P a)) → stable h r (λ s, ∃ a, P a s).
Proof. intros HP s s' ? ? ? Hr [a ?]. exists a. by apply (HP a s s'). Qed.

Lemma stable_pure h r (P : Prop) : stable h r (λ _, P).
Proof. by intros s s' _ _ _ _. Qed.

(** The holder of the barrier may rely on [J] once it knows it. *)
Lemma stable_J r : stable true r J.
Proof.
  intros s s' _ _ _ (h' & r' & _ & Hh & HJ & _) Hs. exact (HJ (Hh eq_refl) Hs).
Qed.

(** ** Triples *)

(** A section from [s]: it returns, keeps the invariants, stays within the guarantee, and may
    create resources. *)
Definition section_ok {B} (h : bool) (r : gset Res) (s : st) (res : result E B) (s' : st)
    (r' : gset Res) : Prop :=
  I s' ∧ G h r s s' ∧ (h = false → J s → J s') ∧ used s.2 ⊆ used s'.2 ∧
  r' ⊆ r ∪ (used s'.2 ∖ used s.2).

Fixpoint tri {A} (p : prog A) : bool → gset Res → (st → Prop) →
    bool → (A → gset Res) → (A → st → Prop) → Prop :=
  match p with
  | Ret a => λ h r P h' rf Post,
      h = h' ∧ rf a ⊆ r ∧ ∀ s, I s → r ⊆ used s.2 → P s → Post a s
  | Step act k => λ h r P h' rf Post,
      ∀ s, I s → r ⊆ used s.2 → P s →
        ∃ res w' g' r' P', act s.1 = (Done res, w') ∧ section_ok h r s res (w', g') r' ∧
          stable h r' P' ∧ P' (w', g') ∧ tri (k res) h r' P' h' rf Post
  | Ask q k => λ h r P h' rf Post, ∀ b, tri (k b) h r P h' rf Post
  | Acquire k => λ h r P h' rf Post,
      h = false ∧ ∃ P', stable true r P' ∧
        (∀ s, I s → r ⊆ used s.2 → J s → P s → P' s) ∧ tri (k false) true r P' h' rf Post
  | Release k => λ h r P h' rf Post,
      h = true ∧ ∃ P', stable false r P' ∧
        (∀ s, I s → r ⊆ used s.2 → P s → J s ∧ P' s) ∧ tri k false r P' h' rf Post
  | Spawn child k => λ h r P h' rf Post,
      ∃ r1 r2 P1 P2, r1 ## r2 ∧ r1 ∪ r2 ⊆ r ∧ stable false r1 P1 ∧ stable h r2 P2 ∧
        (∀ s, I s → r ⊆ used s.2 → P s → P1 s ∧ P2 s) ∧
        tri child false r1 P1 false (λ _, ∅) (λ _ _, True) ∧ tri k h r2 P2 h' rf Post
  | Loop body k => λ h r P h' rf Post,
      ∃ r0 rx Iv Ex, r0 ⊆ r ∧ stable h r0 Iv ∧ (∀ s, I s → r ⊆ used s.2 → P s → Iv s) ∧
        tri body h r0 Iv h (λ o, match o with None => r0 | Some x => rx x end)
          (λ o s, match o with None => Iv s | Some x => Ex x s end) ∧
        ∀ x, tri (k x) h (rx x) (Ex x) h' rf Post
  end.

Context (Gm : G_monotone).

Lemma tri_weaken {A} (p : prog A) h r r0 (P P0 : st → Prop) h' rf Post :
  r0 ⊆ r → (∀ s, I s → r ⊆ used s.2 → P s → P0 s) →
  tri p h r0 P0 h' rf Post → tri p h r P h' rf Post.
Proof using Gm.
  revert h r r0 P P0. induction p as [A a|A B act k IH|A B q k IH|A k IH|A k IH|A child _ k IH|
    A R body _ k IH]; intros h r r0 P P0 Hr HP Htri; cbn in *.
  - destruct Htri as (? & ? & Hpost). split_and!; [done|set_solver|].
    intros s Hs Hu HPs. apply Hpost; [done|set_solver|auto].
  - intros s Hs Hu HPs. destruct (Htri s Hs) as (res & w' & g' & r' & P' & Ea & Hok & Hrest);
      [set_solver|auto|].
    exists res, w', g', r', P'. split; [done|]. split; [|done].
    destruct Hok as (? & ? & ? & ? & ?). split_and!; [done|by eapply Gm|done|done|set_solver].
  - intros b. by eapply IH.
  - destruct Htri as (? & P' & Hst & HP' & Hk). split; [done|]. exists P'. split_and!.
    + by eapply stable_weaken.
    + intros s Hs Hu HJ HPs. apply HP'; [done|set_solver|done|auto].
    + eapply IH; [exact Hr| |exact Hk]. done.
  - destruct Htri as (? & P' & Hst & HP' & Hk). split; [done|]. exists P'. split_and!.
    + by eapply stable_weaken.
    + intros s Hs Hu HPs. apply HP'; [done|set_solver|auto].
    + eapply IH; [exact Hr| |exact Hk]. done.
  - destruct Htri as (r1 & r2 & P1 & P2 & ? & ? & ? & ? & HP12 & ? & ?).
    exists r1, r2, P1, P2. split_and!; try done; [set_solver|].
    intros s Hs Hu HPs. apply HP12; [done|set_solver|auto].
  - destruct Htri as (r1 & rx & Iv & Ex & ? & ? & HIv & ? & ?). exists r1, rx, Iv, Ex.
    split_and!; try done; [set_solver|]. intros s Hs Hu HPs. apply HIv; [done|set_solver|auto].
Qed.

Lemma tri_pre {A} (p : prog A) h r (P P0 : st → Prop) h' rf Post :
  (∀ s, I s → r ⊆ used s.2 → P s → P0 s) →
  tri p h r P0 h' rf Post → tri p h r P h' rf Post.
Proof using Gm. by apply tri_weaken. Qed.

Lemma tri_bind {A B} (p : prog A) (f : A → prog B) h r P h1 rf1 Mid h2 rf2 Post :
  tri p h r P h1 rf1 Mid → (∀ a, tri (f a) h1 (rf1 a) (Mid a) h2 rf2 Post) →
  tri (pbind p f) h r P h2 rf2 Post.
Proof using Gm.
  intros Hp Hf. revert h r P Hp. induction p as [A a|A X act k IH|A X q k IH|A k IH|A k IH|
    A child _ k IH|A R body _ k IH]; intros h r P Hp; cbn in *.
  - destruct Hp as (-> & Hr & HP). by eapply tri_weaken.
  - intros s Hs Hu HPs. destruct (Hp s Hs Hu HPs) as (res & w' & g' & r' & P' & ? & ? & ? & ? & ?).
    exists res, w', g', r', P'. split_and!; try done. by eapply IH.
  - intros b. by eapply IH.
  - destruct Hp as (? & P' & ? & ? & ?). split; [done|]. exists P'. split_and!; try done.
    by eapply IH.
  - destruct Hp as (? & P' & ? & ? & ?). split; [done|]. exists P'. split_and!; try done.
    by eapply IH.
  - destruct Hp as (r1 & r2 & P1 & P2 & ? & ? & ? & ? & ? & ? & ?).
    exists r1, r2, P1, P2. split_and!; try done. by eapply IH.
  - destruct Hp as (r1 & rx & Iv & Ex & ? & ? & ? & ? & Hk). exists r1, rx, Iv, Ex.
    split_and!; try done. intros x. by eapply IH.
Qed.

Lemma tri_post_rf {A} (p : prog A) h r P h' rf rf' (Post Post' : A → st → Prop) :
  (∀ a, rf' a ⊆ rf a) → (∀ a s, Post a s → Post' a s) →
  tri p h r P h' rf Post → tri p h r P h' rf' Post'.
Proof.
  intros Hrf HP. revert h r P.
  induction p as [A a|A B act k IH|A B q k IH|A k IH|A k IH|A child _ k IH|A R body _ k IH];
    intros h r P Htri; cbn in *; [| |naive_solver..|].
  - destruct Htri as (? & ? & ?). split_and!; [done|etrans; [apply Hrf|done]|auto].
  - intros s Hs Hu HPs. destruct (Htri s Hs Hu HPs) as (res & w' & g' & r' & P' & ? & ? & ? & ? & ?).
    exists res, w', g', r', P'. split_and!; try done; by eapply IH.
  - destruct Htri as (r0 & rx & Iv & Ex & ? & ? & ? & ? & ?). exists r0, rx, Iv, Ex.
    split_and!; try done; naive_solver.
Qed.

Lemma tri_post {A} (p : prog A) h r P h' rf (Post Post' : A → st → Prop) :
  (∀ a s, Post a s → Post' a s) → tri p h r P h' rf Post → tri p h r P h' rf Post'.
Proof. intros. by eapply tri_post_rf. Qed.

(** A fallible program: nothing is known, and nothing owned, after an error. *)
Lemma tri_try_bind {A B} (p : tprog W E Q A) (f : A → tprog W E Q B) h r P rf1 Mid rf2 Post :
  tri p h r P h (λ x, match x with Ok a => rf1 a | Err _ => ∅ end)
    (λ x s, match x with Ok a => Mid a s | Err e => Post (Err e) s end) →
  (∀ e, rf2 (Err e) = ∅) →
  (∀ a, tri (f a) h (rf1 a) (Mid a) h rf2 Post) →
  tri (try_bind p f) h r P h rf2 Post.
Proof using Gm.
  intros Hp Hrf Hf. eapply tri_bind; [exact Hp|]. intros [a|e]; [apply Hf|].
  cbn. rewrite Hrf. split_and!; [done|done|]. by intros s _ _.
Qed.

(** ** Soundness *)

Definition is_owner (c : config W E Q) (t : nat) : bool := bool_decide (owner c = Some t).

Definition task_ok (c : config W E Q) (g : Ghost) (t : nat) (p : prog unit) (r : gset Res) : Prop :=
  ∃ P, r ⊆ used g ∧ stable (is_owner c t) r P ∧ P (world c, g) ∧
    tri p (is_owner c t) r P false (λ _, ∅) (λ _ _, True).

Record config_ok (c : config W E Q) (g : Ghost) (T : nat → gset Res) : Prop := {
  cfg_I : I (world c, g);
  cfg_J : owner c = None → J (world c, g);
  cfg_owner t : owner c = Some t → is_Some (pool c !! t);
  cfg_barrier : barrier_poisoned c = false;
  cfg_panics : panics c = 0;
  cfg_tasks t p : pool c !! t = Some p → task_ok c g t p (T t);
  cfg_disjoint t t' : t ≠ t' → is_Some (pool c !! t) → is_Some (pool c !! t') → T t ## T t' }.

(** No change of the world. *)
Definition G_refl : Prop := ∀ h r s, G h r s s.
Context (Gr : G_refl).

(** The other tasks survive a step that stays within the guarantee. *)
Lemma task_ok_step c g t t0 p T w' g' o' pl :
  config_ok c g T → t0 ≠ t → pool c !! t0 = Some p → is_Some (pool c !! t) →
  I (w', g') → G (is_owner c t) (T t) (world c, g) (w', g') →
  (is_owner c t = false → J (world c, g) → J (w', g')) → used g ⊆ used g' →
  (o' = Some t0 ↔ owner c = Some t0) →
  task_ok (mk_config w' o' false 0 pl) g' t0 p (T t0).
Proof using Gm Gr.
  intros Hc Hne Ht0 Ht HI HG HJ Hu Ho.
  destruct (cfg_tasks _ _ _ Hc _ _ Ht0) as (P & Hr & Hst & HP & Htri).
  assert (is_owner (mk_config w' o' false 0 pl) t0 = is_owner c t0) as Eo.
  { unfold is_owner. cbn. by apply bool_decide_ext. }
  exists P. rewrite Eo. split_and!; [set_solver|done| |done]. cbn.
  apply (Hst (world c, g)); [apply Hc|done|done| |done].
  exists (is_owner c t), (T t). split_and!; try done.
  - apply (cfg_disjoint _ _ _ Hc); eauto.
  - unfold is_owner. intros ?%bool_decide_eq_true. apply bool_decide_eq_false. congruence.
Qed.

(** A step of one task: it may change the world within its guarantee, take or release the
    barrier, and end. *)
Lemma set_task_ok c g T t p w' g' r' o' P' :
  config_ok c g T → is_Some (pool c !! t) →
  I (w', g') → G (is_owner c t) (T t) (world c, g) (w', g') →
  (is_owner c t = false → J (world c, g) → J (w', g')) → used g ⊆ used g' →
  r' ⊆ T t ∪ (used g' ∖ used g) →
  (∀ t0, t0 ≠ t → o' = Some t0 ↔ owner c = Some t0) →
  (o' = None → J (w', g')) →
  r' ⊆ used g' → stable (bool_decide (o' = Some t)) r' P' → P' (w', g') →
  tri p (bool_decide (o' = Some t)) r' P' false (λ _, ∅) (λ _ _, True) →
  config_ok (set_task c t p w' o') g' (λ t0, if decide (t0 = t) then r' else T t0).
Proof using Gm Gr.
  intros Hc Ht HI HG HJ Hu Hr' Ho HJ' Hru Hst HP Htri.
  pose proof (cfg_barrier _ _ _ Hc) as Hb. pose proof (cfg_panics _ _ _ Hc) as Hn.
  unfold set_task. rewrite Hb, Hn. split; cbn; try done.
  - intros t1 ->. destruct (decide (t1 = t)) as [->|Hne]; [by rewrite lookup_insert_eq|].
    rewrite lookup_insert_ne by done. apply (cfg_owner _ _ _ Hc), Ho; [|done]. done.
  - intros t0 p0 Hp0. destruct (decide (t0 = t)) as [->|Hne].
    + rewrite lookup_insert_eq in Hp0. simplify_eq. exists P'. split_and!; done.
    + rewrite lookup_insert_ne in Hp0 by done. eapply task_ok_step; try done. by apply Ho.
  - assert (∀ t1, t1 ≠ t → is_Some (pool c !! t1) → r' ## T t1) as Hd.
    { intros t1 Hne [p1 Hp1]. destruct (cfg_tasks _ _ _ Hc _ _ Hp1) as (_ & Hr1 & _).
      assert (T t ## T t1) by (apply (cfg_disjoint _ _ _ Hc); eauto). set_solver. }
    intros t1 t2 Hne H1 H2. destruct (decide (t1 = t)) as [->|], (decide (t2 = t)) as [->|];
      [done| | |]; repeat rewrite lookup_insert_ne in H1 by done;
      repeat rewrite lookup_insert_ne in H2 by done.
    + by apply Hd.
    + symmetry. by apply Hd.
    + by apply (cfg_disjoint _ _ _ Hc).
Qed.

Lemma set_task_same_ok c g T t p r' o' P' :
  config_ok c g T → is_Some (pool c !! t) → r' ⊆ T t →
  (∀ t0, t0 ≠ t → o' = Some t0 ↔ owner c = Some t0) →
  (o' = None → J (world c, g)) → T t ⊆ used g →
  stable (bool_decide (o' = Some t)) r' P' → P' (world c, g) →
  tri p (bool_decide (o' = Some t)) r' P' false (λ _, ∅) (λ _ _, True) →
  config_ok (set_task c t p (world c) o') g (λ t0, if decide (t0 = t) then r' else T t0).
Proof using Gm Gr.
  intros Hc Ht Hr Ho HJ Hu Hst HP Htri.
  eapply set_task_ok; try done; [apply Hc|set_solver|set_solver].
Qed.

Ltac pick_owner := intros ? ?; split; congruence.

(** A task that starts another gives it what it owns of the resources. *)
Lemma spawn_ok c g T t t' child k r1 r2 P1 P2 :
  config_ok c g T → is_Some (pool c !! t) → pool c !! t' = None → T t ⊆ used g →
  r1 ## r2 → r1 ∪ r2 ⊆ T t → stable false r1 P1 → stable (is_owner c t) r2 P2 →
  P1 (world c, g) → P2 (world c, g) →
  tri child false r1 P1 false (λ _, ∅) (λ _ _, True) →
  tri k (is_owner c t) r2 P2 false (λ _, ∅) (λ _ _, True) →
  config_ok (mk_config (world c) (owner c) (barrier_poisoned c) (panics c)
      (<[t := k]> (<[t' := child]> (pool c)))) g
    (λ t0, if decide (t0 = t) then r2 else if decide (t0 = t') then r1 else T t0).
Proof using Gm Gr.
  intros Hc Hsome Ht' Hu Hd Hr Hst1 Hst2 HP1 HP2 Hchild Hk.
  assert (t ≠ t') as Hne by (intros ->; rewrite Ht' in Hsome; by destruct Hsome).
  assert (owner c ≠ Some t') as Hno.
  { intros Ho. destruct (cfg_owner _ _ _ Hc _ Ho). congruence. }
  assert (r1 ⊆ T t ∧ r2 ⊆ T t) as [Hr1 Hr2] by (clear -Hr; set_solver).
  rewrite (cfg_barrier _ _ _ Hc), (cfg_panics _ _ _ Hc). split; cbn; try done; try apply Hc.
  - intros t0 Ho. destruct (decide (t0 = t)) as [->|]; [by rewrite lookup_insert_eq|].
    rewrite !lookup_insert_ne; [by apply (cfg_owner _ _ _ Hc)|congruence|done].
  - intros t0 p0 Hp0. destruct (decide (t0 = t)) as [->|].
    { rewrite lookup_insert_eq in Hp0. simplify_eq. exists P2. split_and!; try done. set_solver. }
    rewrite lookup_insert_ne in Hp0 by done. destruct (decide (t0 = t')) as [->|].
    { rewrite lookup_insert_eq in Hp0. simplify_eq. exists P1. unfold is_owner. cbn.
      rewrite bool_decide_eq_false_2 by done. split_and!; try done. set_solver. }
    rewrite lookup_insert_ne in Hp0 by done. exact (cfg_tasks _ _ _ Hc _ _ Hp0).
  - assert (∀ t0, t0 ≠ t → is_Some (pool c !! t0) → T t ## T t0) as HTd.
    { intros t0 ? ?. apply (cfg_disjoint _ _ _ Hc); eauto. }
    assert (∀ t0 : nat, t0 ≠ t → t0 ≠ t' → is_Some (<[t:=k]> (<[t':=child]> (pool c)) !! t0) →
      is_Some (pool c !! t0)) as Hl.
    { intros t0 ? ?. by rewrite !lookup_insert_ne. }
    intros t1 t2 Hne' H1 H2.
    assert (∀ X t0, X ⊆ T t → t0 ≠ t → is_Some (pool c !! t0) → X ## T t0) as HX.
    { intros X t0 HX ? ?. by eapply disjoint_mono; [by apply (HTd t0)|done|done]. }
    destruct (decide (t1 = t)) as [->|], (decide (t2 = t)) as [->|]; [done| | |].
    + destruct (decide (t2 = t')) as [->|]; [done|]. by apply HX; auto.
    + destruct (decide (t1 = t')) as [->|]; [done|]. symmetry. by apply HX; auto.
    + destruct (decide (t1 = t')) as [->|], (decide (t2 = t')) as [->|]; [done| | |].
      * by apply HX; auto.
      * symmetry. by apply HX; auto.
      * apply (cfg_disjoint _ _ _ Hc); auto.
Qed.

(** A task that ends. *)
Lemma exit_ok c g T t :
  config_ok c g T → is_owner c t = false →
  config_ok (mk_config (world c) (owner c) (barrier_poisoned c) (panics c)
    (delete t (pool c))) g T.
Proof using Gm Gr.
  intros Hc Ho%bool_decide_eq_false. rewrite (cfg_barrier _ _ _ Hc), (cfg_panics _ _ _ Hc).
  split; cbn; try done; try apply Hc.
  - intros t0 Ho'. rewrite lookup_delete_ne by congruence. by apply (cfg_owner _ _ _ Hc).
  - intros t0 p0 [Hne Hp0]%lookup_delete_Some. exact (cfg_tasks _ _ _ Hc _ _ Hp0).
  - intros t1 t2 Hne [? [_ H1]%lookup_delete_Some] [? [_ H2]%lookup_delete_Some].
    apply (cfg_disjoint _ _ _ Hc); eauto.
Qed.

(** One step of any task keeps every task's knowledge, and stays within the guarantee. *)
Lemma cstep_ok c c' g T :
  cstep (@answers) c c' → config_ok c g T →
  ∃ g' T', config_ok c' g' T' ∧ ∃ h r, G h r (world c, g) (world c', g').
Proof using Gm Gr.
  intros Hstep Hc. destruct Hstep as [c t B act k res w' Ht Hact|c t B act k w' Ht Hact|
    c t B q k b Ht _|c t k Ht Ho|c t k Ht Ho|c t t' child k Ht Ht'|c t R body k Ht|c t Ht];
    pose proof (cfg_tasks _ _ _ Hc _ _ Ht) as (P & Hu & Hst & HP & Htri);
    assert (Hsome : is_Some (pool c !! t)) by eauto;
    pose proof (cfg_I _ _ _ Hc) as HI; cbn in Htri.
  - destruct (Htri _ HI Hu HP) as (res2 & w2 & g' & r' & P' & Ea & Hok & Hst' & HP' & Hk).
    cbn in Ea. rewrite Hact in Ea. simplify_eq.
    destruct Hok as (HI' & HG & HJ & Hu' & Hr').
    eexists g', _. split; [|by eexists _, _]. apply (set_task_ok _ _ _ _ _ _ _ r' _ P' Hc Hsome); try done.
    + intros Ho. apply HJ; [apply bool_decide_eq_false_2; congruence|]. by apply (cfg_J _ _ _ Hc).
    + cbn in *. set_solver.
  - destruct (Htri _ HI Hu HP) as (res2 & w2 & g' & r' & P' & Ea & _).
    cbn in Ea. congruence.
  - eexists g, _. split; [|by exists false, ∅; apply Gr]. apply (set_task_same_ok _ _ _ _ _ (T t) _ P Hc Hsome); try done.
    apply (cfg_J _ _ _ Hc).
  - destruct Htri as (Hh & P' & Hst' & HP' & Hk).
    rewrite (cfg_barrier _ _ _ Hc).
    eexists g, _. split; [|by exists false, ∅; apply Gr]. apply (set_task_same_ok _ _ _ _ _ (T t) _ P' Hc Hsome); try done.
    + pick_owner.
    + by rewrite bool_decide_eq_true_2.
    + apply HP'; [done|done| |done]. by apply (cfg_J _ _ _ Hc).
    + by rewrite bool_decide_eq_true_2.
  - destruct Htri as (Hh & P' & Hst' & HP' & Hk). destruct (HP' _ HI Hu HP) as [HJ HP2].
    eexists g, _. split; [|by exists false, ∅; apply Gr]. apply (set_task_same_ok _ _ _ _ _ (T t) _ P' Hc Hsome); try done.
    pick_owner.
  - destruct Htri as (r1 & r2 & P1 & P2 & Hd & Hr & Hst1 & Hst2 & HP12 & Hchild & Hk).
    destruct (HP12 _ HI Hu HP) as [HP1 HP2].
    eexists g, _. split; [|by exists false, ∅; apply Gr].
    by apply (spawn_ok c g T t t' child k r1 r2 P1 P2).
  - destruct Htri as (r0 & rx & Iv & Ex & Hr & Hst' & HIv & Hbody & Hk).
    eexists g, _. split; [|by exists false, ∅; apply Gr]. apply (set_task_same_ok _ _ _ _ _ r0 _ Iv Hc Hsome); try done.
    + apply (cfg_J _ _ _ Hc).
    + by apply HIv.
    + eapply tri_bind; [exact Hbody|]. intros [x|]; [apply Hk|].
      cbn. exists r0, rx, Iv, Ex. split_and!; done.
  - destruct Htri as (Hh & _ & _). exists g, T. split; [|by exists false, ∅; apply Gr].
    by apply exit_ok.
Qed.

(** Adequacy: what the logic proves of the first task holds in every reachable configuration. *)
Lemma csteps_ok c c' g T :
  csteps (@answers) c c' → config_ok c g T → ∃ g' T', config_ok c' g' T'.
Proof using Gm Gr.
  intros Hsteps. revert g T. induction Hsteps as [|c c1 c2 H1 _ IH]; intros g T Hc; [eauto|].
  destruct (cstep_ok _ _ _ _ H1 Hc) as (g1 & T1 & Hc1 & _). eauto.
Qed.

(** The same along an execution: what is observed of the state moves as the guarantee says. *)
Lemma execution_ok {O} (f : st → O) (Rel : O → O → Prop) c cs g T :
  (∀ h r s s', G h r s s' → Rel (f s) (f s')) →
  execution (@answers) c cs → config_ok c g T →
  ∃ os, Forall2 (λ c' o, ∃ g' T', config_ok c' g' T' ∧ o = f (world c', g')) cs os ∧
    Sorted Rel (f (world c, g) :: os).
Proof using Gm Gr.
  intros HR Hex. revert g T. induction Hex as [c|c c1 cs H1 Hex IH]; intros g T Hc.
  - exists []. split; [done|]. repeat constructor.
  - destruct (cstep_ok _ _ _ _ H1 Hc) as (g1 & T1 & Hc1 & h & r & HG).
    destruct (IH g1 T1 Hc1) as (os & Hos & Hsorted).
    exists (f (world c1, g1) :: os). split.
    + constructor; [|done]. by exists g1, T1.
    + constructor; [done|]. constructor. by apply (HR h r).
Qed.

Lemma initial_ok w p g r P :
  I (w, g) → J (w, g) → r ⊆ used g → stable false r P → P (w, g) →
  tri p false r P false (λ _, ∅) (λ _ _, True) →
  config_ok (initial w p) g (λ _, r).
Proof using Gm Gr.
  intros HI HJ Hr Hst HP Htri. split; cbn; try done.
  - intros t p0 [<- <-]%lookup_singleton_Some. exists P. by unfold is_owner.
  - intros t1 t2 Hne [? [<- _]%lookup_singleton_Some] [? [<- _]%lookup_singleton_Some]. done.
Qed.

(** ** Mild sections

    A section anybody may execute at any time, the barrier held or not: it acts on nobody's
    resources.  What the task itself knows survives it, as if another task had executed it. *)

Definition G_weak : Prop := ∀ h s s', G false ∅ s s' → G h ∅ s s'.
Context (Gw : G_weak).

Definition mild {B} (act : W → outcome E B * W) (R : result E B → Prop) : Prop :=
  ∀ s, I s → ∃ res w' g', act s.1 = (Done res, w') ∧ I (w', g') ∧ G false ∅ s (w', g') ∧
    (J s → J (w', g')) ∧ used s.2 ⊆ used g' ∧ R res.

Lemma tri_mild_at {A B} (act : W → outcome E B * W) (k : result E B → prog A) h r P h' rf Post :
  stable h r P →
  (∀ s, I s → P s → ∃ res w' g', act s.1 = (Done res, w') ∧ I (w', g') ∧
    G false ∅ s (w', g') ∧ (J s → J (w', g')) ∧ used s.2 ⊆ used g' ∧
    tri (k res) h r P h' rf Post) →
  tri (Step act k) h r P h' rf Post.
Proof using Gm Gr Gw.
  intros Hst Hact s Hs Hu HP.
  destruct (Hact s Hs HP) as (res & w' & g' & E1 & HI & HG & HJ & Hu' & Hk).
  exists res, w', g', r, P. split_and!; [done| |done| |done].
  - split_and!; [done| |done|done|set_solver]. eapply Gm; [|by apply Gw]. set_solver.
  - apply (Hst s); [done|done|done| |done]. exists false, ∅. split_and!; [set_solver|done..].
Qed.

Lemma tri_mild {A B} (act : W → outcome E B * W) (k : result E B → prog A) R h r P h' rf Post :
  stable h r P → mild act R → (∀ res, R res → tri (k res) h r P h' rf Post) →
  tri (Step act k) h r P h' rf Post.
Proof using Gm Gr Gw.
  intros Hst Hact Hk. apply tri_mild_at; [done|]. intros s Hs _.
  destruct (Hact s Hs) as (res & w' & g' & ? & ? & ? & ? & ? & ?).
  exists res, w', g'. split_and!; auto.
Qed.

Lemma mild_weaken {B} (act : W → outcome E B * W) (R R' : result E B → Prop) :
  mild act R → (∀ res, R res → R' res) → mild act R'.
Proof using.
  intros Hact HR s Hs. destruct (Hact s Hs) as (res & w' & g' & ? & ? & ? & ? & ? & ?).
  exists res, w', g'. split_and!; auto.
Qed.

(** Programs that need to know nothing. *)
Definition plain {A} (p : prog A) : Prop :=
  tri p false ∅ (λ _, True) false (λ _, ∅) (λ _ _, True).

Lemma tri_plain {A} (p : prog A) r P :
  plain p → tri p false r P false (λ _, ∅) (λ _ _, True).
Proof using Gm Gr Gw. by apply tri_weaken; [set_solver|]. Qed.

Lemma plain_ret {A} (a : A) : plain (Ret a).
Proof using Gm Gr Gw. split_and!; done. Qed.

Lemma plain_bind {A B} (p : prog A) (f : A → prog B) :
  plain p → (∀ a, plain (f a)) → plain (pbind p f).
Proof using Gm Gr Gw. intros Hp Hf. eapply tri_bind; [exact Hp|exact Hf]. Qed.

Lemma plain_try_bind {A B} (p : tprog W E Q A) (f : A → tprog W E Q B) :
  plain p → (∀ a, plain (f a)) → plain (try_bind p f).
Proof using Gm Gr Gw. intros Hp Hf. apply plain_bind; [done|]. intros []; [done|apply plain_ret]. Qed.

Lemma plain_step {A B} (act : W → outcome E B * W) (k : result E B → prog A) R :
  mild act R → (∀ res, R res → plain (k res)) → plain (Step act k).
Proof using Gm Gr Gw. intros Hact Hk. eapply tri_mild; done. Qed.

Lemma plain_section {A} (act : W → outcome E A * W) R : mild act R → plain (section act).
Proof using Gm Gr Gw. intros Hact. eapply plain_step; [done|]. intros. apply plain_ret. Qed.

Lemma plain_for_each {A} (xs : list A) (f : A → tprog W E Q unit) :
  (∀ x, plain (f x)) → plain (for_each xs f).
Proof using Gm Gr Gw.
  intros Hf. induction xs as [|x xs IH]; [apply plain_ret|]. by apply plain_try_bind.
Qed.

Lemma plain_spawn {A} (child : prog unit) (k : prog A) :
  plain child → plain k → plain (Spawn child k).
Proof using Gm Gr Gw.
  intros ? ?. exists ∅, ∅, (λ _, True), (λ _, True). split_and!; try done; set_solver.
Qed.

Lemma plain_loop {A R} (body : prog (option R)) (k : R → prog A) :
  plain body → (∀ x, plain (k x)) → plain (Loop body k).
Proof using Gm Gr Gw.
  intros Hb Hk. exists ∅, (λ _, ∅), (λ _, True), (λ _ _, True). split_and!; try done.
  eapply tri_post_rf; [| |exact Hb]; by intros [].
Qed.

(** Taking the barrier: [J] is known until it is given back. *)
Lemma tri_with_barrier {A} (e : E) (p : tprog W E Q A) r (P : st → Prop) rf Post :
  stable true r P →
  tri p true r (λ s, P s ∧ J s) true rf (λ x s, J s ∧ Post x s) →
  (∀ x, stable false (rf x) (Post x)) →
  tri (with_barrier e p) false r P false rf Post.
Proof using Gm Gr Gw.
  intros Hst Hp Hpost. split; [done|]. exists (λ s, P s ∧ J s). split_and!.
  - apply stable_and; [done|apply stable_J].
  - done.
  - eapply tri_bind; [exact Hp|]. intros x. split; [done|].
    exists (Post x). split_and!; [apply Hpost|naive_solver|]. split_and!; naive_solver.
Qed.
End Rely.
