(* ===== verification/Net.v ===== *)
(** Addresses, the server's error type, hash-map iteration, and the interfaces of the tokio
    primitives the server uses ([tokio::sync::mpsc], [tokio::sync::watch]).

    The tokio channels are third-party code: they are the operations of the class [Tokio],
    with their documented behaviour in [TokioLaws], stated on a view of a channel's state.
    [model_tokio] is an instance, used by the concrete runs. *)
From S2P Require Import Prelude Utf8 Frame.

(** ** Addresses *)

(** [std::net::IpAddr], as the 32 or 128 bits of the address. *)
Inductive IpAddr := V4 (bits : N) | V6 (bits : N).

(** [std::net::SocketAddr]; the last two fields are those of an IPv6 address. *)
Record SocketAddr := mk_SocketAddr { ip : IpAddr; port : N; flowinfo : N; scope_id : N }.

#[export] Instance IpAddr_eq_dec : EqDecision IpAddr.
Proof. solve_decision. Defined.
#[export] Instance SocketAddr_eq_dec : EqDecision SocketAddr.
Proof. solve_decision. Defined.

#[export] Instance IpAddr_countable : Countable IpAddr.
Proof.
  refine (inj_countable'
    (λ i, match i with V4 b => inl b | V6 b => inr b end)
    (λ s, match s with inl b => V4 b | inr b => V6 b end) _).
  by intros [].
Defined.
#[export] Instance SocketAddr_countable : Countable SocketAddr.
Proof.
  refine (inj_countable'
    (λ a, (ip a, port a, flowinfo a, scope_id a))
    (λ '(i, p, f, s), mk_SocketAddr i p f s) _).
  by intros [].
Defined.

Definition socket_v4 (a b c d : N) (p : N) : SocketAddr :=
  mk_SocketAddr (V4 (((a * 256 + b) * 256 + c) * 256 + d)) p 0 0.

(** [IpAddr::is_loopback]: 127.0.0.0/8 and ::1. *)
Definition is_loopback (i : IpAddr) : bool :=
  match i with
  | V4 bits => (N.shiftr bits 24 =? 127)%N
  | V6 bits => (bits =? 1)%N
  end.

(** [bind_is_not_loopback] of the server: whether start-up logs the exposure warning. *)
Definition bind_is_not_loopback (i : IpAddr) : bool := negb (is_loopback i).

(** ** Errors of the server ([ServerError] of [crates/server/src/lib.rs]) *)

Inductive ServerError :=
  | EmptyHandshakeUsername
  | UsernameContainsControlCharacters
  | UsernameTooLong
  | MessageTooLong
  | InvalidFrameType
  | UnsupportedProtocolVersion
  | UnknownProtocolFrameType
  | TruncatedProtocolFrame
  | PresenceEncodingFailed
  | InvalidUtf8
  | ConnectionLimitReached
  | MessageRateLimitExceeded
  | OutboundQueueFull
  | OutboundWriterGone
  | UnknownClient
  | ClientStatePoisoned
  | ServerIo (kind : ErrorKind).

#[export] Instance ServerError_eq_dec : EqDecision ServerError.
Proof. solve_decision. Defined.

(** Its text, derived by [thiserror]; the text of an I/O error is the operating system's. *)
Definition error_message (io_text : ErrorKind → str) (e : ServerError) : str :=
  match e with
  | EmptyHandshakeUsername => lit "received an empty username during client handshake"
  | UsernameContainsControlCharacters => lit "username contains control characters"
  | UsernameTooLong => lit "username exceeds the maximum length"
  | MessageTooLong => lit "message exceeds the maximum length"
  | InvalidFrameType => lit "received an unexpected protocol frame type"
  | UnsupportedProtocolVersion => lit "unsupported protocol version"
  | UnknownProtocolFrameType => lit "unknown protocol frame type"
  | TruncatedProtocolFrame => lit "truncated protocol frame"
  | PresenceEncodingFailed => lit "failed to encode a presence frame"
  | InvalidUtf8 => lit "received invalid UTF-8 data"
  | ConnectionLimitReached => lit "connection limit reached"
  | MessageRateLimitExceeded => lit "message rate limit exceeded"
  | OutboundQueueFull => lit "client outbound queue is full"
  | OutboundWriterGone => lit "client outbound writer is gone"
  | UnknownClient => lit "client is unknown or no longer active"
  | ClientStatePoisoned => lit "shared client state is poisoned"
  | ServerIo kind => lit "io error: " ++ io_text kind
  end.

(** ** Hash maps

    A [HashMap] is a finite map; its iteration order is unspecified.  Every definition that
    iterates takes the order from this class, so the theorems hold for each of them. *)
Class HashOrder := {
  hash_iter {V} : gmap SocketAddr V → list (SocketAddr * V);
  hash_iter_perm {V} (m : gmap SocketAddr V) : hash_iter m ≡ₚ map_to_list m }.

Definition canonical_order : HashOrder :=
  {| hash_iter V := map_to_list; hash_iter_perm V m := Permutation_refl _ |}.

(** [m.values().flatten()] *)
Definition hash_values `{HashOrder} {V} (m : gmap SocketAddr (list V)) : list V :=
  concat (map snd (hash_iter m)).

(** ** Channels *)

(** [Arc<[u8]>]: an immutable frame. *)
Abbreviation OutboundMessage := (list u8).

Inductive SendResult := Sent | QueueFull | QueueClosed.
Inductive RecvResult := Received (m : OutboundMessage) | ChannelEnd | RecvPending.

(** The operations: a bounded multi-producer channel and a watch channel of [bool]. *)
Class Tokio := {
  chan : Type;
  mpsc_channel : nat → chan;
  try_send : chan → OutboundMessage → SendResult * chan;
  chan_is_closed : chan → bool;
  clone_sender : chan → chan;
  drop_sender : chan → chan;
  drop_receiver : chan → chan;
  poll_recv : chan → RecvResult * chan;
  watch : Type;
  watch_channel : watch;
  watch_send : watch → watch;          (* [send(true)] *)
  watch_ready : watch → bool;          (* [changed()] has completed *)
  stream : Type;                       (* the reading half of a socket *)
  stream_read : stream → nat → result ErrorKind (list u8) * stream;
  stream_read_exact : stream → nat → result ErrorKind (list u8) * stream;
  closed_stream : stream;
  semaphore : Type;
  semaphore_new : nat → semaphore;
  try_acquire_owned : semaphore → option semaphore;
  release : semaphore → semaphore }.

(** What their documentation says, on the state of a channel. *)
Record ChanView := mk_ChanView {
  queue : list OutboundMessage; capacity : nat; senders : nat; receiver_alive : bool }.

Definition view_send (v : ChanView) (m : OutboundMessage) : SendResult * ChanView :=
  if negb (receiver_alive v) then (QueueClosed, v)
  else if decide (length (queue v) < capacity v) then
    (Sent, mk_ChanView (queue v ++ [m]) (capacity v) (senders v) true)
  else (QueueFull, v).

Definition view_recv (v : ChanView) : RecvResult * ChanView :=
  match queue v with
  | m :: q => (Received m, mk_ChanView q (capacity v) (senders v) (receiver_alive v))
  | [] => (if decide (senders v = 0) then ChannelEnd else RecvPending, v)
  end.

Class TokioLaws `{Tokio} := {
  view : chan → ChanView;
  view_new n : view (mpsc_channel n) = mk_ChanView [] n 1 true;
  view_try_send c m :
    fst (try_send c m) = fst (view_send (view c) m) ∧
    view (snd (try_send c m)) = snd (view_send (view c) m);
  view_is_closed c : chan_is_closed c = negb (receiver_alive (view c));
  view_clone c : view (clone_sender c) =
    mk_ChanView (queue (view c)) (capacity (view c)) (S (senders (view c)))
      (receiver_alive (view c));
  view_drop c : view (drop_sender c) =
    mk_ChanView (queue (view c)) (capacity (view c)) (pred (senders (view c)))
      (receiver_alive (view c));
  view_drop_receiver c : view (drop_receiver c) =
    mk_ChanView (queue (view c)) (capacity (view c)) (senders (view c)) false;
  view_poll_recv c :
    fst (poll_recv c) = fst (view_recv (view c)) ∧
    view (snd (poll_recv c)) = snd (view_recv (view c));
  watch_new : watch_ready watch_channel = false;
  watch_send_ready w : watch_ready (watch_send w) = true;
  (* the bytes a stream will deliver before a clean end, if it will *)
  arriving : stream → option (list u8);
  arriving_read s bs n : arriving s = Some bs → 0 < n →
    ∃ k s', stream_read s n = (Ok (take k bs), s') ∧ arriving s' = Some (drop k bs) ∧
      k ≤ n ∧ k ≤ length bs ∧ (k = 0 → bs = []);
  arriving_read_exact s bs n : arriving s = Some bs → n ≤ length bs →
    ∃ s', stream_read_exact s n = (Ok (take n bs), s') ∧ arriving s' = Some (drop n bs);
  arriving_read_short s bs n : arriving s = Some bs → length bs < n →
    ∃ s', stream_read_exact s n = (Err UnexpectedEof, s');
  available : semaphore → nat;
  available_new n : available (semaphore_new n) = n;
  available_acquire s :
    match try_acquire_owned s with
    | Some s' => available s = S (available s')
    | None => available s = 0
    end;
  available_release s : available (release s) = S (available s) }.

(** An implementation: a channel is its view, a watch the flag that it has changed. *)
Definition model_tokio : Tokio := {|
  chan := ChanView;
  mpsc_channel n := mk_ChanView [] n 1 true;
  try_send := view_send;
  chan_is_closed c := negb (receiver_alive c);
  clone_sender c := mk_ChanView (queue c) (capacity c) (S (senders c)) (receiver_alive c);
  drop_sender c := mk_ChanView (queue c) (capacity c) (pred (senders c)) (receiver_alive c);
  drop_receiver c := mk_ChanView (queue c) (capacity c) (senders c) false;
  poll_recv := view_recv;
  watch := bool;
  watch_channel := false;
  watch_send _ := true;
  watch_ready w := w;
  stream := reader;
  stream_read := read;
  stream_read_exact := read_exact;
  closed_stream := [];
  semaphore := nat;
  semaphore_new n := n;
  try_acquire_owned s := match s with O => None | S s => Some s end;
  release := S |}.

Definition model_arriving (r : reader) : option (list u8) :=
  if clean r then Some (contents r) else None.

Definition model_tokio_laws : @TokioLaws model_tokio.
Proof.
  refine {| view := λ c : @chan model_tokio, c; arriving := model_arriving;
    available := λ s : @semaphore model_tokio, s |}; try done.
  - intros s bs n Hs Hn. unfold model_arriving in *. destruct (clean s) eqn:Hc; simplify_eq.
    destruct (read_clean s n Hc Hn) as (k & s' & E & Hc' & Hd & ? & ? & ?).
    exists k, s'. rewrite Hc', Hd. done.
  - intros s bs n Hs Hn. unfold model_arriving in *. destruct (clean s) eqn:Hc; simplify_eq.
    destruct (read_exact_clean s n Hc) as [Hok _]. destruct (Hok Hn) as (s' & E & Hc' & Hd).
    exists s'. by rewrite Hc', Hd.
  - intros s bs n Hs Hn. unfold model_arriving in *. destruct (clean s) eqn:Hc; simplify_eq.
    by apply (read_exact_clean s n Hc).
  - by intros [].
Defined.

(** ** Lemmas *)

Lemma hash_iter_NoDup `{HashOrder} {V} (m : gmap SocketAddr V) : NoDup (hash_iter m).*1.
Proof. rewrite hash_iter_perm. apply NoDup_fst_map_to_list. Qed.

Lemma elem_of_hash_iter `{HashOrder} {V} (m : gmap SocketAddr V) k v :
  (k, v) ∈ hash_iter m ↔ m !! k = Some v.
Proof. rewrite hash_iter_perm. apply elem_of_map_to_list. Qed.

Lemma elem_of_hash_values `{HashOrder} {V} (m : gmap SocketAddr (list V)) x :
  x ∈ hash_values m ↔ ∃ k l, m !! k = Some l ∧ x ∈ l.
Proof.
  unfold hash_values. rewrite list_elem_of_In, in_concat. split.
  - intros (l & Hl & Hx). apply in_map_iff in Hl as ([k l'] & <- & Hl).
    apply list_elem_of_In, elem_of_hash_iter in Hl. apply list_elem_of_In in Hx. eauto.
  - intros (k & l & Hl & Hx). exists l. split; [|by apply list_elem_of_In].
    apply in_map_iff. exists (k, l). split; [done|].
    by apply list_elem_of_In, elem_of_hash_iter.
Qed.

(** The values of a map of lists, in some fixed order. *)
Definition all_values {V} (m : gmap SocketAddr (list V)) : list V :=
  concat (map_to_list m).*2.

#[export] Instance concat_Permutation {V} :
  Proper ((≡ₚ) ==> (≡ₚ)) (@concat V).
Proof.
  induction 1 as [|x l k _ IH|x y l|]; cbn.
  - done.
  - by rewrite IH.
  - rewrite !(assoc_L (++)). by rewrite (Permutation_app_comm x y).
  - by etrans.
Qed.

Section all_values.
Context {V : Type}.
Implicit Types (m : gmap SocketAddr (list V)) (l : list V).

Lemma hash_values_perm `{HashOrder} m : hash_values m ≡ₚ all_values m.
Proof. unfold hash_values, all_values. by rewrite (hash_iter_perm m). Qed.

Lemma all_values_insert m a l :
  all_values (<[a := l]> m) ≡ₚ l ++ all_values (delete a m).
Proof.
  unfold all_values. rewrite <-insert_delete_eq.
  by rewrite map_to_list_insert by apply lookup_delete_eq.
Qed.

Lemma all_values_split m a :
  all_values m ≡ₚ default [] (m !! a) ++ all_values (delete a m).
Proof.
  destruct (m !! a) as [l|] eqn:Ha; cbn.
  - rewrite <-(insert_id m a l Ha) at 1. apply all_values_insert.
  - by rewrite delete_id.
Qed.

Lemma elem_of_all_values m x : x ∈ all_values m ↔ ∃ a l, m !! a = Some l ∧ x ∈ l.
Proof.
  rewrite <-(@hash_values_perm canonical_order). apply elem_of_hash_values.
Qed.
End all_values.

#[export] Hint Resolve hash_iter_NoDup : drocsid.
