(* ===== verification/Binary64.v ===== *)
(** Binary64 arithmetic as the executable IEEE 754 specification of the Standard Library
    ([SpecFloat] at precision 53), and what the rate limiter needs of it: rounding gives
    canonical numbers, non-negative operands give non-negative results, comparison is the
    order of values, and subtracting one from a number of at least one is exact. *)
From S2P Require Import Prelude.
From Stdlib Require Export SpecFloat.
#[local] Open Scope Z_scope.

(** ** Operations of [f64] *)

Definition f64 := spec_float.
Definition f64_add : f64 → f64 → f64 := SFadd 53 1024.
Definition f64_sub : f64 → f64 → f64 := SFsub 53 1024.
Definition f64_mul : f64 → f64 → f64 := SFmul 53 1024.
Definition f64_div : f64 → f64 → f64 := SFdiv 53 1024.
(** [n as f64] for an unsigned integer. *)
Definition f64_of_Z (n : Z) : f64 := binary_normalize 53 1024 n 0 false.
Definition f64_lt : f64 → f64 → bool := SFltb.
Definition f64_le : f64 → f64 → bool := SFleb.
(** [f64::min]: a NaN operand is ignored. *)
Definition f64_min (x y : f64) : f64 :=
  match x, y with
  | S754_nan, _ => y
  | _, S754_nan => x
  | _, _ => if f64_lt x y then x else y
  end.

(** ** Digits *)

Lemma fexp_eq e : fexp 53 1024 e = Z.max (e - 53) (-1074).
Proof. reflexivity. Qed.

Lemma digits2_pos_log2 p : Zpos (digits2_pos p) = Z.log2 (Zpos p) + 1.
Proof.
  induction p as [p IH|p IH|]; cbn [digits2_pos]; [| |reflexivity].
  - rewrite Pos2Z.inj_succ, IH. rewrite (Pos2Z.inj_xI p), Z.log2_succ_double by lia. lia.
  - rewrite Pos2Z.inj_succ, IH. rewrite (Pos2Z.inj_xO p), Z.log2_double by lia. lia.
Qed.

Lemma Zdigits2_log2 m : 0 < m → Zdigits2 m = Z.log2 m + 1.
Proof. destruct m as [|p|p]; [lia| |lia]. intros _. apply digits2_pos_log2. Qed.

Lemma Zdigits2_bounds m : 0 < m → 2 ^ (Zdigits2 m - 1) <= m < 2 ^ Zdigits2 m.
Proof.
  intros Hm. rewrite Zdigits2_log2 by done. pose proof (Z.log2_spec m Hm) as H.
  replace (Z.log2 m + 1 - 1) with (Z.log2 m) by lia. by rewrite Z.add_1_r.
Qed.

Lemma Zdigits2_unique m d : 0 < d → 2 ^ (d - 1) <= m < 2 ^ d → Zdigits2 m = d.
Proof.
  intros Hd Hm. assert (0 < 2 ^ (d - 1)) by (apply Z.pow_pos_nonneg; lia).
  rewrite Zdigits2_log2 by lia.
  rewrite (Z.log2_unique m (d - 1)); [lia|lia|].
  by replace (Z.succ (d - 1)) with d by lia.
Qed.

Lemma Zdigits2_nonneg m : 0 <= m → 0 <= Zdigits2 m.
Proof. destruct m; cbn; lia. Qed.

Lemma Zdigits2_le m d : 0 <= d → 0 <= m < 2 ^ d → Zdigits2 m <= d.
Proof.
  intros Hd Hm. destruct (Z.eq_dec m 0) as [->|]; [done|].
  rewrite Zdigits2_log2 by lia. pose proof (Z.log2_lt_pow2 m d). lia.
Qed.

Lemma Zdigits2_ge m d : 0 < d → 2 ^ (d - 1) <= m → d <= Zdigits2 m.
Proof.
  intros Hd Hm. assert (0 < 2 ^ (d - 1)) by (apply Z.pow_pos_nonneg; lia).
  rewrite Zdigits2_log2 by lia. pose proof (Z.log2_le_pow2 m (d - 1)). lia.
Qed.

(** ** Shifting right is division *)

Lemma shr_1_m r : 0 <= shr_m r → shr_m (shr_1 r) = shr_m r / 2.
Proof.
  intros H. rewrite <-Z.div2_div.
  destruct r as [[|[p|p|]|p] br bs]; cbn in *; (reflexivity || lia).
Qed.

Lemma iter_shr_1_m p r :
  0 <= shr_m r → shr_m (iter_pos shr_1 p r) = shr_m r / 2 ^ Zpos p.
Proof.
  revert r. induction p as [p IH|p IH|]; intros r Hr; cbn [iter_pos].
  - rewrite IH, IH, shr_1_m; [|lia|rewrite shr_1_m by lia; apply Z.div_pos; lia|
      rewrite IH; rewrite shr_1_m by lia; repeat apply Z.div_pos; lia].
    rewrite !Z.div_div by lia. f_equal.
    rewrite (Pos2Z.inj_xI p), Z.pow_add_r, Z.pow_mul_r by lia.
    rewrite <-Z.pow_mul_r by lia. replace (2 * Zpos p) with (Zpos p + Zpos p) by lia.
    rewrite Z.pow_add_r by lia. lia.
  - rewrite IH, IH; [|lia|rewrite IH by lia; apply Z.div_pos; lia].
    rewrite Z.div_div by lia. f_equal. rewrite (Pos2Z.inj_xO p).
    replace (2 * Zpos p) with (Zpos p + Zpos p) by lia. by rewrite Z.pow_add_r by lia.
  - rewrite shr_1_m by done. done.
Qed.

Lemma shr_record_of_loc_m m l : shr_m (shr_record_of_loc m l) = m.
Proof. by destruct l as [|[]]. Qed.

(** One alignment to the target exponent: nothing, or a division by a power of two. *)
Lemma shr_fexp_spec m e l :
  0 <= m →
  let n := Z.max 0 (fexp 53 1024 (Zdigits2 m + e) - e) in
  shr_m (fst (shr_fexp 53 1024 m e l)) = m / 2 ^ n ∧
  snd (shr_fexp 53 1024 m e l) = e + n.
Proof.
  intros Hm n. unfold shr_fexp, shr. subst n.
  destruct (fexp 53 1024 (Zdigits2 m + e) - e) as [|p|p]; cbn [fst snd Z.max Z.compare].
  - rewrite shr_record_of_loc_m, Z.div_1_r. lia.
  - rewrite iter_shr_1_m; rewrite shr_record_of_loc_m; [|done]. done.
  - rewrite shr_record_of_loc_m, Z.div_1_r. lia.
Qed.

Lemma round_nearest_even_cases m l :
  round_nearest_even m l = m ∨ round_nearest_even m l = m + 1.
Proof. destruct l as [|[]]; cbn; auto. destruct (Z.even m); auto. Qed.

(** ** Rounding gives canonical numbers *)

(** A number in canonical form, not NaN, not negative. *)
Definition good (x : f64) : bool :=
  match x with
  | S754_zero _ => true
  | S754_infinity s => negb s
  | S754_nan => false
  | S754_finite s m e => negb s && bounded 53 1024 m e
  end.

Lemma canonical_iff m e :
  canonical_mantissa 53 1024 m e = true ↔ Z.max (Zdigits2 (Zpos m) + e - 53) (-1074) = e.
Proof. unfold canonical_mantissa. rewrite Z.eqb_eq, fexp_eq. done. Qed.

(** The mantissa and exponent that come out of the rounding step. *)
Lemma round_canonical m e l m1 e1 :
  0 < m → e <= fexp 53 1024 (Zdigits2 m + e) →
  m1 = m / 2 ^ (fexp 53 1024 (Zdigits2 m + e) - e) → e1 = fexp 53 1024 (Zdigits2 m + e) →
  let m2 := round_nearest_even m1 l in
  let n2 := Z.max 0 (fexp 53 1024 (Zdigits2 m2 + e1) - e1) in
  0 < m2 / 2 ^ n2 →
  fexp 53 1024 (Zdigits2 (m2 / 2 ^ n2) + (e1 + n2)) = e1 + n2.
Proof.
  intros Hm He Hm1 He1 m2 n2 Hpos. rewrite fexp_eq in *.
  set (d := Zdigits2 m) in *. set (n := Z.max (d + e - 53) (-1074) - e) in *.
  pose proof (Zdigits2_bounds m Hm) as Hd. fold d in Hd.
  assert (0 <= n) by lia. assert (1 <= d) by (pose proof (Zdigits2_nonneg m); unfold d in *;
    rewrite Zdigits2_log2 by lia; pose proof (Z.log2_nonneg m); lia).
  assert (0 <= m1) as Hm1p by (rewrite Hm1; apply Z.div_pos; [lia|apply Z.pow_pos_nonneg; lia]).
  assert (m1 < 2 ^ 53) as Hm1u.
  { rewrite Hm1. apply Z.div_lt_upper_bound; [apply Z.pow_pos_nonneg; lia|].
    rewrite <-Z.pow_add_r by lia. eapply Z.lt_le_trans; [apply Hd|].
    apply Z.pow_le_mono_r; lia. }
  assert (-1074 < e1 → 2 ^ 52 <= m1) as Hnorm.
  { intros He1'. rewrite Hm1. apply Z.div_le_lower_bound; [apply Z.pow_pos_nonneg; lia|].
    rewrite <-Z.pow_add_r by lia. replace (n + 52) with (d - 1) by lia. lia. }
  assert (m1 <= m2 <= m1 + 1) as Hm2.
  { subst m2. destruct (round_nearest_even_cases m1 l) as [-> | ->]; lia. }
  destruct (Z.eq_dec m2 (2 ^ 53)) as [Hcarry|Hcarry].
  - assert (Zdigits2 m2 = 54) as Hd2 by (rewrite Hcarry; reflexivity).
    assert (n2 = 1) as Hn2 by (unfold n2; rewrite fexp_eq; lia).
    rewrite Hn2, Hcarry. change (Zdigits2 (2 ^ 53 / 2 ^ 1)) with 53. lia.
  - assert (n2 = 0) as Hn2.
    { unfold n2. rewrite fexp_eq. pose proof (Zdigits2_le m2 53). lia. }
    rewrite Hn2 in *. change (2 ^ 0) with 1 in *. rewrite Z.div_1_r in *.
    destruct (Z.eq_dec e1 (-1074)) as [->|].
    + pose proof (Zdigits2_le m2 53). lia.
    + rewrite (Zdigits2_unique m2 53); [lia|lia|]. cbn [Z.sub Z.add Z.opp]. lia.
Qed.

Lemma binary_round_aux_good m e l :
  0 < m → e <= fexp 53 1024 (Zdigits2 m + e) →
  good (binary_round_aux 53 1024 false m e l) = true.
Proof.
  intros Hm He. unfold binary_round_aux.
  pose proof (shr_fexp_spec m e l ltac:(lia)) as [H1 H1e].
  rewrite Z.max_r in H1, H1e by lia.
  destruct (shr_fexp 53 1024 m e l) as [r1 e1]. cbn [fst snd] in H1, H1e.
  assert (0 <= shr_m r1) as Hr1.
  { rewrite H1. apply Z.div_pos; [lia|]. apply Z.pow_pos_nonneg; lia. }
  set (m2 := round_nearest_even (shr_m r1) (loc_of_shr_record r1)).
  assert (0 <= m2) as Hm2.
  { subst m2. destruct (round_nearest_even_cases (shr_m r1) (loc_of_shr_record r1))
      as [-> | ->]; lia. }
  pose proof (shr_fexp_spec m2 e1 loc_Exact Hm2) as [H2 H2e].
  destruct (shr_fexp 53 1024 m2 e1 loc_Exact) as [r2 e2]. cbn [fst snd] in H2, H2e.
  assert (0 <= shr_m r2) as Hr2.
  { rewrite H2. apply Z.div_pos; [done|]. apply Z.pow_pos_nonneg; lia. }
  destruct (shr_m r2) as [|p|p] eqn:Ep; [done| |lia].
  destruct (Z.leb_spec e2 (1024 - 53)); [|done]. cbn [good negb andb]. unfold bounded.
  apply andb_true_iff. split; [|by apply Z.leb_le].
  unfold canonical_mantissa. apply Z.eqb_eq.
  change (Zpos (digits2_pos p)) with (Zdigits2 (Zpos p)). rewrite H2e, H2.
  assert (e1 = fexp 53 1024 (Zdigits2 m + e)) as He1 by lia. clear H1e.
  apply (round_canonical m e (loc_of_shr_record r1) (shr_m r1)); [done..|].
  fold m2. rewrite <-H2. lia.
Qed.

(** Aligning to the left: the digits move, the value does not. *)
Lemma Pos_iter_xO m d : Zpos (Pos.iter xO m d) = Zpos m * 2 ^ Zpos d.
Proof.
  induction d as [|d IH] using Pos.peano_ind; [cbn; lia|].
  rewrite Pos.iter_succ, Pos2Z.inj_succ, Z.pow_succ_r by lia.
  rewrite (Pos2Z.inj_xO (Pos.iter _ _ _)), IH. lia.
Qed.

Lemma shl_align_spec m e e' :
  let k := Z.max 0 (e - e') in
  Zpos (fst (shl_align m e e')) = Zpos m * 2 ^ k ∧ snd (shl_align m e e') = e - k.
Proof.
  intros k. subst k. unfold shl_align.
  destruct (e' - e) as [|d|d] eqn:Ed; cbn [fst snd].
  - rewrite Z.max_l by lia. cbn. lia.
  - rewrite Z.max_l by lia. cbn. lia.
  - rewrite Z.max_r by lia. rewrite Pos_iter_xO. replace (e - e') with (Zpos d) by lia. lia.
Qed.

Lemma Zdigits2_shl m k : 0 < m → 0 <= k → Zdigits2 (m * 2 ^ k) = Zdigits2 m + k.
Proof.
  intros Hm Hk. assert (0 < 2 ^ k) by (apply Z.pow_pos_nonneg; lia).
  rewrite !Zdigits2_log2 by nia. rewrite Z.log2_mul_pow2 by lia. lia.
Qed.

Lemma binary_normalize_good m e :
  0 <= m → good (binary_normalize 53 1024 m e false) = true.
Proof.
  intros Hm. destruct m as [|m|m]; [done| |lia]. cbn [binary_normalize]. unfold binary_round.
  change (Zpos (digits2_pos m)) with (Zdigits2 (Zpos m)).
  pose proof (shl_align_spec m e (fexp 53 1024 (Zdigits2 (Zpos m) + e))) as [H1 H2].
  destruct (shl_align m e _) as [m' e']. cbn [fst snd] in *.
  apply binary_round_aux_good; [lia|]. rewrite H1, Zdigits2_shl by lia.
  rewrite !fexp_eq in *. clear H1 Hm m'. generalize dependent (Zdigits2 (Zpos m)). lia.
Qed.

Lemma f64_of_Z_good n : 0 <= n → good (f64_of_Z n) = true.
Proof. apply binary_normalize_good. Qed.

Lemma f64_add_good x y : good x = true → good y = true → good (f64_add x y) = true.
Proof.
  destruct x as [sx|[]| |[] mx ex], y as [sy|[]| |[] my ey]; cbn; try done; intros Hx Hy.
  all: try (by destruct sx); try (by destruct sy); try (by destruct sx, sy).
  apply binary_normalize_good. lia.
Qed.

(** Multiplication by a number with a full mantissa. *)
Lemma f64_mul_good x m e :
  good x = true → 53 <= Zdigits2 (Zpos m) → good (f64_mul x (S754_finite false m e)) = true.
Proof.
  destruct x as [sx|[]| |[] mx ex]; cbn [good]; try done; intros Hx Hm.
  cbn [f64_mul SFmul xorb]. unfold f64_mul, SFmul. cbn [xorb].
  apply binary_round_aux_good; [lia|]. rewrite fexp_eq.
  assert (53 <= Zdigits2 (Zpos (mx * m))); [|lia].
  pose proof (Zdigits2_bounds (Zpos m) ltac:(lia)) as Hb.
  apply Zdigits2_ge; [lia|]. rewrite Pos2Z.inj_mul.
  assert (2 ^ (53 - 1) <= 2 ^ (Zdigits2 (Zpos m) - 1)) by (apply Z.pow_le_mono_r; lia). nia.
Qed.

(** ** Exactly representable numbers *)

Lemma shr_1_exact c : 0 <= c →
  shr_1 (Build_shr_record (c * 2) false false) = Build_shr_record c false false.
Proof. intros Hc. rewrite Z.mul_comm. by destruct c. Qed.

Lemma iter_shr_1_exact p c : 0 <= c →
  iter_pos shr_1 p (Build_shr_record (c * 2 ^ Zpos p) false false) =
    Build_shr_record c false false.
Proof.
  revert c. induction p as [p IH|p IH|]; intros c Hc; cbn [iter_pos].
  - assert (0 < 2 ^ Zpos p) by (apply Z.pow_pos_nonneg; lia).
    replace (2 ^ Zpos p~1) with (2 ^ Zpos p * 2 ^ Zpos p * 2).
    2: { rewrite (Pos2Z.inj_xI p), <-Z.pow_add_r, Z.mul_comm, <-Z.pow_succ_r by lia.
         f_equal. lia. }
    rewrite !Z.mul_assoc, shr_1_exact by nia. by rewrite !IH by nia.
  - assert (0 < 2 ^ Zpos p) by (apply Z.pow_pos_nonneg; lia).
    replace (2 ^ Zpos p~0) with (2 ^ Zpos p * 2 ^ Zpos p).
    2: { rewrite (Pos2Z.inj_xO p), <-Z.pow_add_r by lia. f_equal. lia. }
    by rewrite !Z.mul_assoc, !IH by nia.
  - by rewrite shr_1_exact.
Qed.

(** The value of a finite number, in units of 2^-1074. *)
Definition sval (x : f64) : Z :=
  match x with
  | S754_finite false m e => Zpos m * 2 ^ (e + 1074)
  | _ => 0
  end.

Definition is_finite (x : f64) : bool :=
  match x with S754_zero _ | S754_finite _ _ _ => true | _ => false end.

(** The number one in those units. *)
Definition ONE : Z := 2 ^ 1074.

Lemma shr_fexp_exact c n e :
  0 <= c → 0 <= n → n = Z.max 0 (fexp 53 1024 (Zdigits2 (c * 2 ^ n) + e) - e) →
  shr_fexp 53 1024 (c * 2 ^ n) e loc_Exact = (Build_shr_record c false false, e + n).
Proof.
  intros Hc Hn Hfexp. unfold shr_fexp, shr. cbn [shr_record_of_loc].
  destruct (fexp 53 1024 (Zdigits2 (c * 2 ^ n) + e) - e) as [|p|p] eqn:Ef;
    cbn in Hfexp; subst n.
  - by rewrite Z.mul_1_r, Z.add_0_r.
  - by rewrite iter_shr_1_exact.
  - by rewrite Z.mul_1_r, Z.add_0_r.
Qed.

(** A mantissa of at most 53 significant bits is rounded to itself. *)
Lemma binary_round_aux_exact c n e :
  0 < c < 2 ^ 53 → 0 <= n → -1074 <= e + n → e + n <= 971 →
  n = Z.max 0 (fexp 53 1024 (Zdigits2 (c * 2 ^ n) + e) - e) →
  (e + n = -1074 ∨ Zdigits2 c = 53) →
  sval (binary_round_aux 53 1024 false (c * 2 ^ n) e loc_Exact) = c * 2 ^ (e + n + 1074) ∧
  is_finite (binary_round_aux 53 1024 false (c * 2 ^ n) e loc_Exact) = true.
Proof.
  intros Hc Hn Hlo Hhi Hfexp Hcan. unfold binary_round_aux.
  rewrite shr_fexp_exact by lia. cbn [shr_m loc_of_shr_record round_nearest_even].
  pose proof (Zdigits2_le c 53 ltac:(lia) ltac:(lia)) as Hd.
  pose proof (shr_fexp_exact c 0 (e + n)) as E2. rewrite Z.mul_1_r, Z.add_0_r in E2.
  rewrite E2; [|lia|done|rewrite fexp_eq; lia]. cbn [shr_m].
  destruct c as [|p|p]; [lia| |lia].
  destruct (Z.leb_spec (e + n) (1024 - 53)); [done|lia].
Qed.

Lemma shl_lt c j d : 0 < c → 0 <= j → Zdigits2 c + j <= d → 0 < c * 2 ^ j < 2 ^ d.
Proof.
  intros Hc Hj Hd. pose proof (Zdigits2_bounds c Hc) as Hb.
  assert (0 < 2 ^ j) by (apply Z.pow_pos_nonneg; lia). split; [nia|].
  apply Z.lt_le_trans with (2 ^ Zdigits2 c * 2 ^ j); [apply Z.mul_lt_mono_pos_r; lia|].
  pose proof (Zdigits2_nonneg c ltac:(lia)).
  rewrite <-Z.pow_add_r by lia. apply Z.pow_le_mono_r; lia.
Qed.

Lemma binary_normalize_exact c k e :
  0 <= c < 2 ^ 53 → 0 <= k → -1074 <= e → Zdigits2 c + k + e <= 1024 →
  sval (binary_normalize 53 1024 (c * 2 ^ k) e false) = c * 2 ^ k * 2 ^ (e + 1074) ∧
  is_finite (binary_normalize 53 1024 (c * 2 ^ k) e false) = true.
Proof.
  intros Hc Hk He Hmax. destruct (Z.eq_dec c 0) as [->|Hc0]; [done|].
  assert (0 < 2 ^ k) by (apply Z.pow_pos_nonneg; lia).
  pose proof (Zdigits2_le c 53 ltac:(lia) ltac:(lia)) as Hd53.
  pose proof (Zdigits2_shl c k ltac:(lia) Hk) as Hd.
  destruct (c * 2 ^ k) as [|m|m] eqn:Em; [nia| |nia].
  cbn [binary_normalize]. unfold binary_round.
  change (Zpos (digits2_pos m)) with (Zdigits2 (Zpos m)). rewrite Hd.
  pose proof (shl_align_spec m e (fexp 53 1024 (Zdigits2 c + k + e))) as [H1 H2].
  destruct (shl_align m e _) as [m' e']. cbn [fst snd] in *. rewrite !fexp_eq in H1, H2.
  set (f := Z.max (Zdigits2 c + k + e - 53) (-1074)) in *.
  assert (-1074 <= f ∧ f <= k + e ∧ Zdigits2 c + (k + e - f) <= 53 ∧
    (f = -1074 ∨ f = Zdigits2 c + k + e - 53)) as (Hf1 & Hf2 & Hf3 & Hf4) by lia.
  set (n := Z.max 0 (f - e)). clearbody f.
  assert (Zpos m' = c * 2 ^ (k + e - f) * 2 ^ n) as Em'.
  { rewrite H1, <-Em, <-!Z.mul_assoc, <-!Z.pow_add_r by lia. do 2 f_equal. lia. }
  pose proof (shl_lt c (k + e - f) 53 ltac:(lia) ltac:(lia) Hf3) as Hc'.
  pose proof (Zdigits2_shl c (k + e - f) ltac:(lia) ltac:(lia)) as Hdc'.
  rewrite Em'.
  destruct (binary_round_aux_exact (c * 2 ^ (k + e - f)) n e') as [E1 E2]; try lia.
  - rewrite Zdigits2_shl, Hdc', fexp_eq by lia. lia.
  - rewrite E1, E2. split; [|done]. rewrite <-Em.
    rewrite <-!Z.mul_assoc, <-!Z.pow_add_r by lia. do 2 f_equal. lia.
Qed.

(** ** Comparison is the order of values *)

Lemma good_bounded m e : good (S754_finite false m e) = true →
  -1074 <= e ∧ e <= 971 ∧ Zdigits2 (Zpos m) <= 53 ∧ (e = -1074 ∨ Zdigits2 (Zpos m) = 53).
Proof.
  cbn [good negb andb]. unfold bounded. intros [Hcan He]%andb_true_iff.
  apply canonical_iff in Hcan. apply Z.leb_le in He. lia.
Qed.

Lemma sval_nonneg x : 0 <= sval x.
Proof.
  destruct x as [| | |[] m e]; cbn [sval]; try done.
  apply Z.mul_nonneg_nonneg; [lia|]. apply Z.pow_nonneg. lia.
Qed.

Lemma sval_exponent_lt m1 e1 m2 e2 :
  good (S754_finite false m1 e1) = true → good (S754_finite false m2 e2) = true → e1 < e2 →
  sval (S754_finite false m1 e1) < sval (S754_finite false m2 e2).
Proof.
  intros H1 H2 Hlt. cbn [sval].
  apply good_bounded in H1 as (? & ? & Hd1 & _). apply good_bounded in H2 as (? & ? & ? & Hd2).
  destruct Hd2 as [|Hd2]; [lia|].
  pose proof (Zdigits2_bounds (Zpos m1) ltac:(lia)) as [_ Hb1].
  pose proof (Zdigits2_bounds (Zpos m2) ltac:(lia)) as [Hb2 _]. rewrite Hd2 in Hb2.
  apply Z.lt_le_trans with (2 ^ 53 * 2 ^ (e1 + 1074)).
  - apply Z.mul_lt_mono_pos_r; [apply Z.pow_pos_nonneg; lia|].
    eapply Z.lt_le_trans; [exact Hb1|]. by apply Z.pow_le_mono_r.
  - apply Z.le_trans with (2 ^ (53 - 1) * 2 ^ (e2 + 1074)).
    + rewrite <-!Z.pow_add_r by lia. apply Z.pow_le_mono_r; lia.
    + apply Z.mul_le_mono_nonneg_r; [apply Z.pow_nonneg; lia|done].
Qed.

Lemma sval_mantissa m1 m2 e : -1074 <= e →
  (sval (S754_finite false m1 e) ?= sval (S754_finite false m2 e)) = Pos.compare m1 m2.
Proof.
  intros He. cbn [sval]. assert (0 < 2 ^ (e + 1074)) by (apply Z.pow_pos_nonneg; lia).
  symmetry. apply (Zmult_compare_compat_r (Zpos m1) (Zpos m2)). lia.
Qed.

Lemma SFcompare_good x y :
  good x = true → good y = true → is_finite x = true → is_finite y = true →
  SFcompare x y = Some (sval x ?= sval y).
Proof.
  intros Hx Hy Fx Fy.
  assert (∀ m e, -1074 <= e → 0 < sval (S754_finite false m e)) as Hpos.
  { intros m e He. cbn [sval]. apply Z.mul_pos_pos; [lia|]. apply Z.pow_pos_nonneg; lia. }
  destruct x as [sx|[]| |[] mx ex], y as [sy|[]| |[] my ey]; try done.
  - pose proof (good_bounded _ _ Hy) as [? _]. cbn [SFcompare].
    f_equal. symmetry. apply Z.compare_lt_iff. by apply Hpos.
  - pose proof (good_bounded _ _ Hx) as [? _]. cbn [SFcompare].
    f_equal. symmetry. apply Z.compare_gt_iff. by apply Hpos.
  - unfold SFcompare. f_equal. destruct (Z.compare_spec ex ey) as [->|He|He].
    + rewrite sval_mantissa; [done|]. by apply (good_bounded _ _ Hx).
    + symmetry. apply Z.compare_lt_iff. by apply sval_exponent_lt.
    + symmetry. apply Z.compare_gt_iff. by apply sval_exponent_lt.
Qed.

Lemma f64_lt_sval x y :
  good x = true → good y = true → is_finite x = true → is_finite y = true →
  f64_lt x y = (sval x <? sval y).
Proof.
  intros. unfold f64_lt, SFltb. rewrite SFcompare_good by done.
  unfold Z.ltb. by destruct (sval x ?= sval y).
Qed.

(** The smaller of a number (possibly infinite) and a finite one. *)
Lemma f64_min_good x y :
  good x = true → good y = true → is_finite y = true →
  good (f64_min x y) = true ∧ is_finite (f64_min x y) = true ∧
  sval (f64_min x y) <= sval y ∧
  (is_finite x = true → sval (f64_min x y) = Z.min (sval x) (sval y)).
Proof.
  intros Hx Hy Fy. destruct (is_finite x) eqn:Fx.
  - assert (f64_min x y = if sval x <? sval y then x else y) as ->.
    { rewrite <-f64_lt_sval by done. by destruct x, y. }
    destruct (Z.ltb_spec (sval x) (sval y)); split_and!; try done; lia.
  - destruct x as [|[]| |]; try done. destruct y as [|[]| |[]]; done.
Qed.

(** ** Subtracting one is exact *)

Lemma f64_one : f64_of_Z 1 = S754_finite false 4503599627370496 (-52).
Proof. reflexivity. Qed.

(** A number of at least one is normal. *)
Lemma good_ge_one x : good x = true → is_finite x = true → ONE <= sval x →
  ∃ m e, x = S754_finite false m e ∧ -52 <= e ∧ Zdigits2 (Zpos m) = 53.
Proof.
  intros Hx Fx Hlo.
  assert (0 < ONE) as H1 by (by apply Z.pow_pos_nonneg).
  destruct x as [sx|[]| |[] m e]; cbn [sval] in Hlo; try done.
  assert (sval (S754_finite false 4503599627370496 (-52)) = ONE) as E1 by reflexivity.
  assert (-52 <= e) as He.
  { apply Z.le_ngt. intros Hlt.
    pose proof (sval_exponent_lt m e 4503599627370496 (-52) Hx ltac:(reflexivity) Hlt) as Hs.
    cbn [sval] in Hs, E1. lia. }
  exists m, e. pose proof (good_bounded _ _ Hx) as (_ & _ & _ & [|]); [lia|done].
Qed.

(** A token count: canonical, finite, less than [2^53]. *)
Lemma f64_sub_one x :
  good x = true → is_finite x = true → sval x < 2 ^ 53 * ONE → ONE <= sval x →
  good (f64_sub x (f64_of_Z 1)) = true ∧ is_finite (f64_sub x (f64_of_Z 1)) = true ∧
  sval (f64_sub x (f64_of_Z 1)) = sval x - ONE.
Proof.
  intros Hx Fx Hhi Hlo. rewrite f64_one.
  destruct (good_ge_one x Hx Fx Hlo) as (m & e & -> & He & Hd).
  pose proof (Zdigits2_bounds (Zpos m) ltac:(lia)) as [_ Hm].
  assert (Zpos m < 2 ^ 53) as Hm53.
  { by rewrite Hd in Hm. }
  unfold f64_sub, SFsub. rewrite Z.min_r by lia.
  assert (fst (shl_align 4503599627370496 (-52) (-52)) = 4503599627370496%positive) as ->
    by reflexivity.
  pose proof (shl_align_spec m e (-52)) as [Em _]. rewrite Z.max_r in Em by lia.
  cbn [cond_Zopp]. rewrite Em.
  assert (e <= 0) as He0.
  { apply Z.le_ngt. intros Hgt.
    pose proof (Zdigits2_bounds (Zpos m) ltac:(lia)) as [Hm2 _]. rewrite Hd in Hm2.
    cbn [sval] in Hhi. unfold ONE in Hhi.
    assert (2 ^ 53 * 2 ^ 1074 <= Zpos m * 2 ^ (e + 1074)); [|lia].
    replace (2 ^ 53) with (2 ^ (53 - 1) * 2 ^ 1) by reflexivity.
    rewrite <-Z.mul_assoc, <-Z.pow_add_r by lia.
    apply Z.mul_le_mono_nonneg; [done|done|apply Z.pow_nonneg; lia|].
    apply Z.pow_le_mono_r; lia. }
  assert (2 ^ (e - -52) * 2 ^ (- e) = 4503599627370496) as Epow.
  { rewrite <-Z.pow_add_r by lia. by replace (e - -52 + - e) with 52 by lia. }
  assert (0 < 2 ^ (e - -52)) by (apply Z.pow_pos_nonneg; lia).
  assert (0 < 2 ^ (- e)) by (apply Z.pow_pos_nonneg; lia).
  assert (2 ^ (- e) <= Zpos m) as Hle.
  { cbn [sval] in Hlo. unfold ONE in Hlo.
    replace 1074 with (- e + (e + 1074)) in Hlo at 1 by lia.
    rewrite Z.pow_add_r in Hlo by lia.
    apply Z.mul_le_mono_pos_r in Hlo; [done|]. apply Z.pow_pos_nonneg; lia. }
  replace (Zpos m * 2 ^ (e - -52) - 4503599627370496)
    with ((Zpos m - 2 ^ (- e)) * 2 ^ (e - -52)) by lia.
  pose proof (Zdigits2_le (Zpos m - 2 ^ (- e)) 53 ltac:(lia) ltac:(lia)) as Hdc.
  destruct (binary_normalize_exact (Zpos m - 2 ^ (- e)) (e - -52) (-52)) as [Es Ef];
    [lia..|].
  split_and!; [apply binary_normalize_good; nia|done|]. rewrite Es. cbn [sval]. unfold ONE.
  rewrite <-Z.mul_assoc, <-Z.pow_add_r by lia.
  replace (e - -52 + (-52 + 1074)) with (e + 1074) by lia.
  rewrite Z.mul_sub_distr_r. f_equal. rewrite <-Z.pow_add_r by lia. f_equal. lia.
Qed.

(** ** Division by a normal number keeps canonical numbers *)

Lemma f64_div_good m1 e1 m2 e2 :
  Zdigits2 (Zpos m1) = 53 → Zdigits2 (Zpos m2) = 53 → -1021 <= e1 - e2 →
  good (f64_div (S754_finite false m1 e1) (S754_finite false m2 e2)) = true.
Proof.
  intros H1 H2 He. unfold f64_div, SFdiv. cbn [xorb]. unfold SFdiv_core_binary.
  rewrite H1, H2, fexp_eq.
  assert (Z.min (Z.max (53 + e1 - (53 + e2) - 53) (-1074)) (e1 - e2) = e1 - e2 - 53)
    as -> by lia.
  replace (e1 - e2 - (e1 - e2 - 53)) with 53 by lia.
  rewrite Z.shiftl_mul_pow2 by lia.
  pose proof (Zdigits2_bounds (Zpos m1) ltac:(lia)) as Hb1. rewrite H1 in Hb1.
  pose proof (Zdigits2_bounds (Zpos m2) ltac:(lia)) as Hb2. rewrite H2 in Hb2.
  assert (2 ^ (53 - 1) <= Zpos m1 * 2 ^ 53 / Zpos m2) as Hq.
  { apply Z.div_le_lower_bound; [lia|]. change (2 ^ 53) with (2 * 2 ^ (53 - 1)). nia. }
  unfold Z.div in Hq. destruct (Z.div_eucl (Zpos m1 * 2 ^ 53) (Zpos m2)) as [q r].
  pose proof (Zdigits2_ge q 53 ltac:(lia) Hq) as Hdq.
  assert (0 < 2 ^ (53 - 1)) by (by apply Z.pow_pos_nonneg).
  apply binary_round_aux_good; [lia|]. rewrite fexp_eq. lia.
Qed.

(** Integers below [2^53] are represented exactly. *)
Lemma f64_of_Z_exact n : 0 <= n < 2 ^ 53 →
  good (f64_of_Z n) = true ∧ is_finite (f64_of_Z n) = true ∧ sval (f64_of_Z n) = n * ONE.
Proof.
  intros Hn. split; [apply f64_of_Z_good; lia|].
  pose proof (Zdigits2_le n 53 ltac:(lia) ltac:(lia)).
  pose proof (binary_normalize_exact n 0 0) as E. rewrite Z.mul_1_r in E.
  unfold f64_of_Z, ONE. destruct E as [-> ->]; [lia..|]. split; [done|]. f_equal; lia.
Qed.

Lemma f64_div_of_Z_good n d m e :
  0 <= n < 2 ^ 53 → f64_of_Z d = S754_finite false m e → Zdigits2 (Zpos m) = 53 → e <= 0 →
  good (f64_div (f64_of_Z n) (f64_of_Z d)) = true.
Proof.
  intros Hn -> Hm He. destruct (Z.eq_dec n 0) as [->|]; [done|].
  destruct (f64_of_Z_exact n Hn) as (Hg & Hf & Hs).
  assert (0 < ONE) by (by apply Z.pow_pos_nonneg).
  destruct (good_ge_one (f64_of_Z n) Hg Hf) as (m1 & e1 & -> & He1 & Hm1); [nia|].
  apply f64_div_good; [done|done|lia].
Qed.

#[global] Opaque ONE.
