(* ===== verification/RateLimit.v ===== *)
(** The message rate limiter of [crates/server/src/state.rs] (lines 19-21, 73-76, 373-410): a
    token bucket per IP address in binary64 arithmetic.  Time is a monotonic clock in
    nanoseconds, read inside the critical section of [allow_message]. *)
From S2P Require Import Prelude Net Config Binary64.
#[local] Open Scope Z_scope.

(** ** Clock *)

Definition Instant := Z.
(** [now.duration_since(earlier)] saturates at zero. *)
Definition duration_since (now earlier : Instant) : Duration := Z.max 0 (now - earlier).

Definition NANOS_PER_SEC : Z := 1000000000.
(** [Duration::as_secs_f64] *)
Definition as_secs_f64 (d : Duration) : f64 :=
  f64_add (f64_of_Z (d `div` NANOS_PER_SEC))
    (f64_div (f64_of_Z (d `mod` NANOS_PER_SEC)) (f64_of_Z NANOS_PER_SEC)).

(** ** The limiter *)

Definition MESSAGE_RATE_PER_SECOND : f64 := f64_of_Z 10.
Definition MESSAGE_BURST_SIZE : f64 := f64_of_Z 20.
Definition RATE_LIMIT_IDLE_EXPIRY : Duration := from_secs 60.

Record RateLimitState := mk_RateLimitState { tokens : f64; last_refill : Instant }.

(** The tokens a limiter holds after the refill at [now]. *)
Definition refilled (limiter : RateLimitState) (now : Instant) : f64 :=
  let elapsed := as_secs_f64 (duration_since now (last_refill limiter)) in
  f64_min (f64_add (tokens limiter) (f64_mul elapsed MESSAGE_RATE_PER_SECOND))
    MESSAGE_BURST_SIZE.

(** The entry of a sender, created full when it is missing. *)
Definition limiter_of (rate_limits : gmap IpAddr RateLimitState) (sender : IpAddr)
    (now : Instant) : RateLimitState :=
  default (mk_RateLimitState MESSAGE_BURST_SIZE now) (rate_limits !! sender).

(** The body of [allow_message] once the map is locked. *)
Definition allow (rate_limits : gmap IpAddr RateLimitState) (sender : IpAddr) (now : Instant)
  : result ServerError unit * gmap IpAddr RateLimitState :=
  let tokens := refilled (limiter_of rate_limits sender now) now in
  if f64_lt tokens (f64_of_Z 1) then
    (Err MessageRateLimitExceeded, <[sender := mk_RateLimitState tokens now]> rate_limits)
  else
    (Ok tt,
     <[sender := mk_RateLimitState (f64_sub tokens (f64_of_Z 1)) now]> rate_limits).

(** The body of [cleanup_rate_limits]; [now] was read before the map was locked. *)
Definition cleanup (rate_limits : gmap IpAddr RateLimitState) (now : Instant)
  : gmap IpAddr RateLimitState :=
  filter (λ '(_, limiter), duration_since now (last_refill limiter) < RATE_LIMIT_IDLE_EXPIRY)
    rate_limits.

(** A sequence of calls for one sender at the given instants: the outcomes. *)
Fixpoint allow_all (rate_limits : gmap IpAddr RateLimitState) (sender : IpAddr)
    (times : list Instant) : list bool * gmap IpAddr RateLimitState :=
  match times with
  | [] => ([], rate_limits)
  | now :: times =>
      let '(r, m) := allow rate_limits sender now in
      let '(rs, m) := allow_all m sender times in
      (is_ok r :: rs, m)
  end.

(** The two operations the server performs on the map, at the instants they read. *)
Inductive LimiterOp := Allow (sender : IpAddr) (now : Instant) | Cleanup (now : Instant).

Definition limiter_op (m : gmap IpAddr RateLimitState) (o : LimiterOp)
  : gmap IpAddr RateLimitState :=
  match o with
  | Allow sender now => snd (allow m sender now)
  | Cleanup now => cleanup m now
  end.

(** ** Lemmas *)

(** A token count the limiter can hold: canonical, not NaN, between zero and the burst. *)
Definition tokens_ok (t : f64) : Prop :=
  good t = true ∧ is_finite t = true ∧ sval t <= 20 * ONE.

Definition limiters_ok (m : gmap IpAddr RateLimitState) : Prop :=
  map_Forall (λ _ limiter, tokens_ok (tokens limiter)) m.

Lemma ONE_pos : 0 < ONE.
Proof. Transparent ONE. by apply Z.pow_pos_nonneg. Qed.

Lemma burst_ok : tokens_ok MESSAGE_BURST_SIZE.
Proof.
  destruct (f64_of_Z_exact 20 ltac:(lia)) as (? & ? & E). split_and!; [done..|].
  unfold MESSAGE_BURST_SIZE. rewrite E. done.
Qed.

Lemma sval_burst : sval MESSAGE_BURST_SIZE = 20 * ONE.
Proof. by destruct (f64_of_Z_exact 20 ltac:(lia)) as (? & ? & E). Qed.

Lemma one_ok : tokens_ok (f64_of_Z 1) ∧ sval (f64_of_Z 1) = ONE.
Proof.
  destruct (f64_of_Z_exact 1 ltac:(lia)) as (? & ? & E).
  pose proof ONE_pos. unfold tokens_ok. rewrite E. split_and!; try done; lia.
Qed.

Lemma as_secs_f64_good d : 0 <= d → good (as_secs_f64 d) = true.
Proof.
  intros Hd. unfold as_secs_f64, NANOS_PER_SEC. apply f64_add_good.
  - apply f64_of_Z_good. apply Z.div_pos; lia.
  - eapply f64_div_of_Z_good; [|reflexivity|reflexivity|done].
    pose proof (Z.mod_pos_bound d 1000000000 ltac:(lia)). lia.
Qed.

Lemma earned_good now earlier :
  good (f64_mul (as_secs_f64 (duration_since now earlier)) MESSAGE_RATE_PER_SECOND) = true.
Proof.
  eapply f64_mul_good; [|reflexivity]. apply as_secs_f64_good. unfold duration_since. lia.
Qed.

Lemma refilled_ok limiter now : tokens_ok (tokens limiter) → tokens_ok (refilled limiter now).
Proof.
  intros (Hg & Hf & Hs). unfold refilled.
  destruct burst_ok as (Hbg & Hbf & Hbs).
  destruct (f64_min_good _ _ (f64_add_good _ _ Hg (earned_good now (last_refill limiter)))
    Hbg Hbf) as (? & ? & ? & _).
  split_and!; [done..|lia].
Qed.

Lemma limiter_of_ok m sender now :
  limiters_ok m → tokens_ok (tokens (limiter_of m sender now)).
Proof.
  intros Hm. unfold limiter_of. destruct (m !! sender) as [l|] eqn:E; cbn.
  - by apply (Hm sender).
  - apply burst_ok.
Qed.

Lemma tokens_lt_one t : tokens_ok t → f64_lt t (f64_of_Z 1) = (sval t <? ONE).
Proof.
  intros (? & ? & ?). destruct one_ok as [(? & ? & ?) <-]. by apply f64_lt_sval.
Qed.

Lemma spend_ok t : tokens_ok t → ONE <= sval t →
  tokens_ok (f64_sub t (f64_of_Z 1)) ∧ sval (f64_sub t (f64_of_Z 1)) = sval t - ONE.
Proof.
  intros (Hg & Hf & Hs) H1. pose proof ONE_pos.
  destruct (f64_sub_one t) as (? & ? & E); [done|done|nia|done|].
  unfold tokens_ok. rewrite E. split_and!; try done; lia.
Qed.

(** The refill that goes with a call at the instant of the last refill changes nothing. *)
Lemma refilled_same_instant limiter :
  tokens_ok (tokens limiter) →
  tokens_ok (refilled limiter (last_refill limiter)) ∧
  sval (refilled limiter (last_refill limiter)) = sval (tokens limiter).
Proof.
  intros Ht. split; [by apply refilled_ok|]. destruct Ht as (Hg & Hf & Hs).
  unfold refilled. unfold duration_since. rewrite Z.sub_diag, Z.max_id.
  change (f64_mul (as_secs_f64 0) MESSAGE_RATE_PER_SECOND) with (S754_zero false).
  destruct burst_ok as (Hbg & Hbf & Hbs).
  assert (sval (f64_add (tokens limiter) (S754_zero false)) = sval (tokens limiter) ∧
    is_finite (f64_add (tokens limiter) (S754_zero false)) = true) as [E1 E2].
  { destruct (tokens limiter) as [[]|[]| |[]]; done. }
  destruct (f64_min_good (f64_add (tokens limiter) (S754_zero false)) MESSAGE_BURST_SIZE)
    as (_ & _ & _ & E); [by apply f64_add_good|done..|].
  rewrite (E E2), sval_burst, E1. lia.
Qed.

Lemma allow_limiters_ok m sender now :
  limiters_ok m → limiters_ok (snd (allow m sender now)).
Proof.
  intros Hm. pose proof (refilled_ok _ now (limiter_of_ok m sender now Hm)) as Hr.
  unfold allow. rewrite tokens_lt_one by done.
  destruct (Z.ltb_spec (sval (refilled (limiter_of m sender now) now)) ONE);
    apply map_Forall_insert_2; try done; cbn. by apply spend_ok.
Qed.

(** What one call does, on values. *)
Lemma allow_spec m sender now :
  limiters_ok m →
  let t := sval (refilled (limiter_of m sender now) now) in
  ∃ l, snd (allow m sender now) = <[sender := l]> m ∧ last_refill l = now ∧
    tokens_ok (tokens l) ∧
    ((ONE <= t ∧ fst (allow m sender now) = Ok tt ∧ sval (tokens l) = t - ONE) ∨
     (t < ONE ∧ fst (allow m sender now) = Err MessageRateLimitExceeded ∧
      sval (tokens l) = t)).
Proof.
  intros Hm t. pose proof (refilled_ok _ now (limiter_of_ok m sender now Hm)) as Hr.
  unfold allow. rewrite tokens_lt_one by done. fold t.
  destruct (Z.ltb_spec t ONE) as [Hlt|Hge]; cbn [fst snd].
  - exists (mk_RateLimitState (refilled (limiter_of m sender now) now) now).
    split_and!; [done..|]. by right.
  - destruct (spend_ok _ Hr Hge) as [? ?].
    exists (mk_RateLimitState (f64_sub (refilled (limiter_of m sender now) now) (f64_of_Z 1)) now).
    split_and!; [done..|]. by left.
Qed.

Lemma cleanup_ok m now : limiters_ok m → limiters_ok (cleanup m now).
Proof. intros Hm i l [Hl _]%map_lookup_filter_Some. by apply (Hm i). Qed.

Lemma limiter_of_insert m sender l now : limiter_of (<[sender := l]> m) sender now = l.
Proof. unfold limiter_of. by rewrite lookup_insert_eq. Qed.

(** Repeated calls at one instant: accepted while a whole token is left. *)
Lemma allow_all_instant n m sender now :
  limiters_ok m →
  let k := Z.to_nat (sval (refilled (limiter_of m sender now) now) / ONE) in
  fst (allow_all m sender (replicate n now)) =
    replicate (n `min` k) true ++ replicate (n - k) false.
Proof.
  pose proof ONE_pos as H1.
  revert m. induction n as [|n IH]; intros m Hm; [done|]. cbn [replicate allow_all].
  pose proof (allow_limiters_ok m sender now Hm) as Hm'.
  pose proof (sval_nonneg (refilled (limiter_of m sender now) now)) as Hpos.
  destruct (allow_spec m sender now Hm) as (l & Em & Hl & Hok & Hcase).
  specialize (IH _ Hm'). destruct (allow m sender now) as [r m']. cbn [fst snd] in *.
  destruct (refilled_same_instant l Hok) as [_ Hsame]. rewrite Hl in Hsame.
  rewrite Em, limiter_of_insert, Hsame, <-Em in IH. clear Em.
  destruct (allow_all m' sender (replicate n now)) as [rs m'']. cbn [fst] in *. rewrite IH.
  destruct Hcase as [(Hge & -> & ->)|(Hlt & -> & ->)]; cbn [is_ok].
  - set (t := sval (refilled (limiter_of m sender now) now)) in *.
    assert (t / ONE = (t - ONE) / ONE + 1) as ->.
    { rewrite <-Z.div_add by lia. f_equal. lia. }
    assert (0 <= (t - ONE) / ONE) by (apply Z.div_pos; lia).
    replace (Z.to_nat ((t - ONE) / ONE + 1)) with (S (Z.to_nat ((t - ONE) / ONE))) by lia.
    done.
  - rewrite Z.div_small by lia. change (Z.to_nat 0) with 0%nat.
    by rewrite Nat.min_0_r, Nat.sub_0_r.
Qed.

(** ** Properties *)

(** C16: every limiter the server ever stores, after any sequence of [allow_message] and
    [cleanup_rate_limits] calls at any instants, holds a canonical finite number of tokens
    (never NaN, infinite or negative) that is at most the burst size; so a decision is always
    made on a number between 0 and 20. *)
Theorem rate_limit_tokens_bounded ops i limiter now :
  foldl limiter_op ∅ ops !! i = Some limiter →
  tokens_ok (tokens limiter) ∧ tokens_ok (refilled limiter now).
Proof.
  intros Hl.
  assert (∀ m, limiters_ok m → limiters_ok (foldl limiter_op m ops)) as Hall.
  { clear. induction ops as [|[s t|t] ops IH]; intros m Hm; [done| |]; apply IH.
    - by apply allow_limiters_ok.
    - by apply cleanup_ok. }
  assert (tokens_ok (tokens limiter)) as Ht by (apply (Hall ∅ (map_Forall_empty _) i _ Hl)).
  split; [done|by apply refilled_ok].
Qed.

Lemma rate_limit_tokens_bounded_witness :
  ∃ limiter, foldl limiter_op ∅ [Allow (V4 1) 5; Cleanup 6; Allow (V4 1) 3] !! V4 1
    = Some limiter ∧ tokens_ok (tokens limiter) ∧ tokens_ok (refilled limiter 7).
Proof.
  destruct (foldl limiter_op ∅ [Allow (V4 1) 5; Cleanup 6; Allow (V4 1) 3] !! V4 1)
    as [l|] eqn:E; [|by vm_compute in E].
  exists l. split; [done|].
  exact (rate_limit_tokens_bounded [Allow (V4 1) 5; Cleanup 6; Allow (V4 1) 3] (V4 1) l 7 E).
Defined.

(** The burst: whatever happened before, at one instant at most twenty messages of a
    sender are accepted, and those come first; a sender without an entry gets exactly
    twenty. *)
Theorem rate_limit_burst m sender now n :
  limiters_ok m →
  ∃ k, (k ≤ 20)%nat ∧ (m !! sender = None → k = 20%nat) ∧
    fst (allow_all m sender (replicate n now)) =
      replicate (n `min` k) true ++ replicate (n - k) false.
Proof.
  intros Hm. eexists. split_and!; [| |by apply allow_all_instant].
  - destruct (refilled_ok _ now (limiter_of_ok m sender now Hm)) as (_ & _ & Hs).
    pose proof ONE_pos. apply Nat2Z.inj_le.
    assert (sval (refilled (limiter_of m sender now) now) / ONE <= 20); [|lia].
    apply Z.div_le_upper_bound; lia.
  - intros Hnone. unfold limiter_of. rewrite Hnone.
    pose proof (refilled_same_instant (mk_RateLimitState MESSAGE_BURST_SIZE now) burst_ok)
      as [_ E].
    cbn [last_refill tokens] in E. unfold default, id. rewrite E, sval_burst.
    pose proof ONE_pos. rewrite Z.div_mul by lia. done.
Qed.

Lemma rate_limit_burst_witness :
  ∃ k, (k ≤ 20)%nat ∧ ((∅ : gmap IpAddr RateLimitState) !! V4 1 = None → k = 20%nat) ∧
    fst (allow_all ∅ (V4 1) (replicate 25 7)) =
      replicate (25 `min` k) true ++ replicate (25 - k) false.
Proof. apply (rate_limit_burst ∅ (V4 1) 7 25). apply map_Forall_empty. Defined.

(** C27: one call of [allow_message]: it touches the sender's entry only; it is accepted
    exactly when at least one token is there after the refill, and then costs exactly one
    token (the subtraction is exact); a rejection costs none; either way the refill is
    recorded. *)
Theorem allow_functional m sender now :
  limiters_ok m →
  let t := sval (refilled (limiter_of m sender now) now) in
  ∃ l, snd (allow m sender now) = <[sender := l]> m ∧ last_refill l = now ∧
    ((ONE <= t ∧ fst (allow m sender now) = Ok tt ∧ sval (tokens l) = t - ONE) ∨
     (t < ONE ∧ fst (allow m sender now) = Err MessageRateLimitExceeded ∧
      sval (tokens l) = t)).
Proof.
  intros Hm t. destruct (allow_spec m sender now Hm) as (l & ? & ? & _ & ?). eauto.
Qed.

Lemma allow_functional_witness :
  ∃ l, snd (allow ∅ (V4 1) 7) = <[V4 1 := l]> ∅ ∧ last_refill l = 7.
Proof.
  destruct (allow_functional ∅ (V4 1) 7) as (l & E & El & _).
  - apply map_Forall_empty.
  - by exists l.
Defined.
