(* ===== verification/Rounding.v ===== *)
(** Bounds on rounded results: what a sum, a product by ten and a quotient of [Binary64] can
    exceed the exact value by, and the powers of two they stay above.  Values are counted in
    units of 2^-1074 ([sval]); an infinite result is within a bound only when the bound is at
    least 2^53. *)
From S2P Require Import Prelude Binary64.
#[local] Open Scope Z_scope.

#[local] Transparent ONE.

Lemma ONE_large : 2 ^ 48 * 100 <= ONE.
Proof. by vm_compute. Qed.

Lemma burst_small : 20 * ONE <= 2 ^ 1082.
Proof. by vm_compute. Qed.

Definition upper (x : f64) (b : Z) : Prop :=
  good x = true ∧ 0 <= b ∧ if is_finite x then sval x <= b else 2 ^ 53 * ONE <= b.

Lemma upper_le x a b : upper x a → a <= b → upper x b.
Proof. intros (? & ? & Hx) Hab. split_and!; [done|lia|]. destruct (is_finite x); lia. Qed.

Lemma upper_finite x : good x = true → is_finite x = true → upper x (sval x).
Proof. intros ? Hf. split_and!; [done|apply sval_nonneg|]. by rewrite Hf. Qed.

(** The bound of a rounded value, and a number that satisfies it. *)
Definition covers (v b : Z) : Prop := (2 ^ 52 + 1) * v + 2 ^ 52 <= 2 ^ 52 * b.
Definition rounded (v : Z) : Z := v + v / 2 ^ 52 + 2.

Lemma rounded_covers v : 0 <= v → covers v (rounded v).
Proof.
  intros Hv. unfold covers, rounded. pose proof (Z.mul_succ_div_gt v (2 ^ 52) ltac:(done)). lia.
Qed.

Lemma covers_nonneg v b : 0 <= v → covers v b → v <= b ∧ 0 <= b.
Proof. unfold covers. lia. Qed.

(** The mantissa of [m * 2 ^ e] aligned to its exponent fills its digits, unless the exponent
    is the smallest. *)
Lemma aligned_mantissa m e n :
  0 < m → 0 <= n → n = Z.max (Zdigits2 m + e - 53) (-1074) - e →
  0 <= m / 2 ^ n < 2 ^ 53 ∧ -1074 <= e + n ∧ (e + n = -1074 ∨ 2 ^ 52 <= m / 2 ^ n).
Proof.
  intros Hm Hn En. pose proof (Zdigits2_bounds m Hm) as Hd. set (d := Zdigits2 m) in *.
  assert (1 <= d) as Hd1.
  { subst d. rewrite Zdigits2_log2 by done. pose proof (Z.log2_nonneg m). lia. }
  assert (0 < 2 ^ n) by (by apply Z.pow_pos_nonneg).
  split_and!; [apply Z.div_pos; lia| |lia|].
  - apply Z.div_lt_upper_bound; [done|]. rewrite <-Z.pow_add_r by lia.
    eapply Z.lt_le_trans; [apply Hd|]. apply Z.pow_le_mono_r; lia.
  - destruct (Z.eq_dec (e + n) (-1074)); [by left|right]. apply Z.div_le_lower_bound; [done|].
    rewrite <-Z.pow_add_r by lia. etrans; [|apply Hd]. apply Z.pow_le_mono_r; lia.
Qed.

(** Rounding: the aligned mantissa or its successor. *)
Lemma binary_round_aux_value m e l :
  0 < m → e <= fexp 53 1024 (Zdigits2 m + e) →
  let n := Z.max (Zdigits2 m + e - 53) (-1074) - e in
  let r := binary_round_aux 53 1024 false m e l in
  ∃ m2, m / 2 ^ n <= m2 <= m / 2 ^ n + 1 ∧
    if is_finite r then sval r = m2 * 2 ^ (e + n + 1074)
    else 2 ^ 53 * ONE <= m2 * 2 ^ (e + n + 1074).
Proof.
  intros Hm He n r. rewrite fexp_eq in He.
  destruct (aligned_mantissa m e n Hm ltac:(lia) eq_refl) as (Hr1 & He1 & _).
  subst r. unfold binary_round_aux.
  pose proof (shr_fexp_spec m e l ltac:(lia)) as [H1 H1e]. rewrite fexp_eq in H1, H1e.
  rewrite Z.max_r in H1, H1e by lia. fold n in H1, H1e.
  destruct (shr_fexp 53 1024 m e l) as [r1 e1]. cbn [fst snd] in H1, H1e.
  rewrite <-H1, <-H1e in *.
  set (m2 := round_nearest_even (shr_m r1) (loc_of_shr_record r1)).
  assert (shr_m r1 <= m2 <= shr_m r1 + 1) as Hm2.
  { subst m2. destruct (round_nearest_even_cases (shr_m r1) (loc_of_shr_record r1))
      as [-> | ->]; lia. }
  exists m2. split; [done|].
  pose proof (shr_fexp_spec m2 e1 loc_Exact ltac:(lia)) as [H2 H2e].
  set (n2 := Z.max 0 (fexp 53 1024 (Zdigits2 m2 + e1) - e1)) in *.
  destruct (shr_fexp 53 1024 m2 e1 loc_Exact) as [r2 e2]. cbn [fst snd] in H2, H2e.
  assert (shr_m r2 * 2 ^ (e2 + 1074) = m2 * 2 ^ (e1 + 1074) ∧ 0 <= shr_m r2) as [Hout Hr2].
  { destruct (Z.eq_dec m2 (2 ^ 53)) as [E|E].
    - assert (n2 = 1) as En2.
      { unfold n2. rewrite fexp_eq, E. change (Zdigits2 (2 ^ 53)) with 54. lia. }
      rewrite H2, H2e, En2, E. change (2 ^ 53 / 2 ^ 1) with (2 ^ 52).
      replace (e1 + 1 + 1074) with (1 + (e1 + 1074)) by lia. rewrite Z.pow_add_r by lia. lia.
    - pose proof (Zdigits2_le m2 53 ltac:(lia) ltac:(lia)).
      assert (n2 = 0) as En2 by (unfold n2; rewrite fexp_eq; lia).
      rewrite H2, H2e, En2. change (2 ^ 0) with 1. rewrite Z.div_1_r, Z.add_0_r. lia. }
  rewrite <-Hout. destruct (shr_m r2) as [|p|p]; [done| |lia].
  destruct (Z.leb_spec e2 (1024 - 53)) as [|Hbig]; cbn [is_finite sval]; [done|].
  unfold ONE. rewrite <-Z.pow_add_r by lia.
  etrans; [apply (Z.pow_le_mono_r 2 _ (e2 + 1074)); lia|].
  assert (0 < 2 ^ (e2 + 1074)) by (apply Z.pow_pos_nonneg; lia). nia.
Qed.

(** Rounding to nearest adds at most half a unit in the last place; a whole unit is enough
    here.  [k] is there for exponents below the smallest one. *)
Lemma binary_round_aux_upper k m e l v b :
  0 < m → e <= fexp 53 1024 (Zdigits2 m + e) → 0 <= k → 0 <= e + 1074 + k →
  m * 2 ^ (e + 1074 + k) <= v * 2 ^ k → covers v b →
  upper (binary_round_aux 53 1024 false m e l) b.
Proof.
  intros Hm He Hk Hek Hv Hb. assert (0 < 2 ^ k) as Hk2 by (by apply Z.pow_pos_nonneg).
  assert (0 <= v) as Hv0.
  { assert (0 <= m * 2 ^ (e + 1074 + k)) by (apply Z.mul_nonneg_nonneg; [lia|by apply Z.pow_nonneg]).
    nia. }
  split; [by apply binary_round_aux_good|]. split; [by apply (covers_nonneg v)|].
  destruct (binary_round_aux_value m e l Hm He) as (m2 & Hm2 & Hr). rewrite fexp_eq in He.
  set (n := Z.max (Zdigits2 m + e - 53) (-1074) - e) in *.
  destruct (aligned_mantissa m e n Hm ltac:(lia) eq_refl) as (Hm1 & He1 & Hnorm).
  set (m1 := m / 2 ^ n) in *. set (p := 2 ^ (e + n + 1074)) in *.
  assert (0 <= p) as Hp by (apply Z.pow_nonneg; lia).
  assert (m1 * p <= v) as Hlow.
  { apply (Z.mul_le_mono_pos_r _ _ (2 ^ k)); [done|]. etrans; [|exact Hv].
    unfold p. rewrite <-Z.mul_assoc, <-Z.pow_add_r by lia.
    replace (e + n + 1074 + k) with (n + (e + 1074 + k)) by lia.
    rewrite Z.pow_add_r, Z.mul_assoc by lia. apply Z.mul_le_mono_nonneg_r; [by apply Z.pow_nonneg|].
    unfold m1. rewrite Z.mul_comm. apply Z.mul_div_le. apply Z.pow_pos_nonneg; lia. }
  assert (m2 * p <= b) as Hm2b.
  { apply Z.le_trans with ((m1 + 1) * p); [apply Z.mul_le_mono_nonneg_r; lia|].
    unfold covers in Hb. destruct Hnorm as [E|Hnorm].
    - assert (p = 1) as Hp1 by (unfold p; by rewrite E). rewrite Hp1 in *. lia.
    - assert (2 ^ 52 * p <= m1 * p) by (by apply Z.mul_le_mono_nonneg_r). lia. }
  destruct (is_finite _); lia.
Qed.

(** ** Sums, products by ten, quotients *)

Lemma binary_normalize_upper m e b :
  0 <= m → -1074 <= e → covers (m * 2 ^ (e + 1074)) b →
  upper (binary_normalize 53 1024 m e false) b.
Proof.
  intros Hm He Hb. destruct m as [|m|m]; [|cbn [binary_normalize]|lia].
  { split_and!; [done| |cbn]; unfold covers in Hb; lia. }
  unfold binary_round. change (Zpos (digits2_pos m)) with (Zdigits2 (Zpos m)).
  pose proof (shl_align_spec m e (fexp 53 1024 (Zdigits2 (Zpos m) + e))) as [H1 H2].
  destruct (shl_align m e _) as [m' e']. cbn [fst snd] in *. rewrite fexp_eq in H1, H2.
  set (j := Z.max 0 (e - Z.max (Zdigits2 (Zpos m) + e - 53) (-1074))) in *.
  apply (binary_round_aux_upper 0) with (v := Zpos m * 2 ^ (e + 1074)); try done; try lia.
  - rewrite fexp_eq, H1, Zdigits2_shl by lia. lia.
  - rewrite H1, Z.add_0_r, Z.mul_1_r, H2, <-Z.mul_assoc, <-Z.pow_add_r by lia.
    by replace (j + (e - j + 1074)) with (e + 1074) by lia.
Qed.

Lemma f64_add_upper x y a b c :
  upper x a → upper y b → covers (a + b) c → upper (f64_add x y) c.
Proof.
  intros (Hgx & Ha & Hx) (Hgy & Hb & Hy) Hc.
  pose proof (covers_nonneg (a + b) c ltac:(lia) Hc) as [Hle Hc0].
  split; [by apply f64_add_good|]. split; [done|].
  destruct x as [sx|[]| |[] mx ex], y as [sy|[]| |[] my ey]; try done; cbn [is_finite sval] in *;
    try (cbn; lia); try (by destruct sx; cbn; lia); try (by destruct sy; cbn; lia);
    try (by destruct sx, sy; cbn; lia).
  assert (-1074 <= ex) as Hex by apply (good_bounded _ _ Hgx).
  assert (-1074 <= ey) as Hey by apply (good_bounded _ _ Hgy).
  unfold f64_add, SFadd.
  pose proof (shl_align_spec mx ex (Z.min ex ey)) as [E1 _].
  pose proof (shl_align_spec my ey (Z.min ex ey)) as [E2 _].
  cbn [cond_Zopp]. rewrite E1, E2.
  set (e := Z.min ex ey) in *.
  apply (binary_normalize_upper _ e c); [lia|lia|].
  rewrite Z.mul_add_distr_r, <-!Z.mul_assoc, <-!Z.pow_add_r by lia.
  replace (Z.max 0 (ex - e) + (e + 1074)) with (ex + 1074) by lia.
  replace (Z.max 0 (ey - e) + (e + 1074)) with (ey + 1074) by lia.
  unfold covers in *. lia.
Qed.

Lemma f64_ten : f64_of_Z 10 = S754_finite false 5629499534213120 (-49).
Proof. reflexivity. Qed.

Lemma f64_mul_ten_upper x a c :
  upper x a → covers (10 * a) c → upper (f64_mul x (f64_of_Z 10)) c.
Proof.
  intros (Hgx & Ha & Hx) Hc. rewrite f64_ten.
  pose proof (covers_nonneg (10 * a) c ltac:(lia) Hc) as [Hle Hc0].
  split; [by apply f64_mul_good|]. split; [done|].
  destruct x as [sx|[]| |[] mx ex]; try done; cbn [is_finite sval] in *;
    try (cbn; lia); try (by destruct sx; cbn; lia).
  pose proof (good_bounded _ _ Hgx) as (Hex & _ & _ & _).
  unfold f64_mul, SFmul. cbn [xorb].
  assert (Zpos (mx * 5629499534213120) = Zpos mx * (10 * 2 ^ 49)) as Em by lia.
  apply (binary_round_aux_upper 49) with (v := Zpos mx * 2 ^ (ex + 1074) * 10);
    try done; try lia.
  - rewrite fexp_eq.
    assert (53 <= Zdigits2 (Zpos (mx * 5629499534213120))); [|lia].
    apply Zdigits2_ge; [lia|]. change (2 ^ (53 - 1)) with 4503599627370496. lia.
  - rewrite Em. replace (ex + -49 + 1074 + 49) with (ex + 1074) by lia.
    set (p := 2 ^ (ex + 1074)). change (10 * 2 ^ 49) with (10 * 562949953421312). 
    change (2 ^ 49) with 562949953421312. lia.
  - unfold covers in *. lia.
Qed.

Definition BILLION : Z := 1000000000.

Lemma f64_billion : f64_of_Z BILLION = S754_finite false 8388608000000000 (-23).
Proof. reflexivity. Qed.

(** A number of nanoseconds below one second, in seconds. *)
Lemma f64_div_billion_upper n v c :
  0 <= n < BILLION → n * ONE <= BILLION * v → covers v c →
  upper (f64_div (f64_of_Z n) (f64_of_Z BILLION)) c.
Proof.
  intros Hn Hv Hc. unfold BILLION in Hn, Hv.
  assert (0 < ONE) as H1 by (by apply Z.pow_pos_nonneg).
  assert (0 <= v) as Hv0 by nia.
  pose proof (covers_nonneg v c Hv0 Hc) as [_ Hc0].
  destruct (Z.eq_dec n 0) as [->|]; [done|].
  destruct (f64_of_Z_exact n ltac:(lia)) as (Hg & Hf & Hs).
  destruct (good_ge_one (f64_of_Z n) Hg Hf) as (m & e & E & He & Hm); [nia|].
  rewrite E in Hs |- *. rewrite f64_billion.
  unfold f64_div, SFdiv. cbn [xorb]. unfold SFdiv_core_binary.
  rewrite Hm, fexp_eq. change (Zdigits2 8388608000000000) with 53.
  assert (Z.min (Z.max (53 + e - (53 + -23) - 53) (-1074)) (e - -23) = e - 30) as -> by lia.
  replace (e - -23 - (e - 30)) with 53 by lia. rewrite Z.shiftl_mul_pow2 by lia.
  assert (2 ^ (53 - 1) <= Zpos m * 2 ^ 53 / 8388608000000000) as Hq.
  { pose proof (Zdigits2_bounds (Zpos m) ltac:(lia)) as Hb. rewrite Hm in Hb.
    apply Z.div_le_lower_bound; [lia|]. change (2 ^ 53) with (2 * 2 ^ (53 - 1)). lia. }
  pose proof (Z.mul_div_le (Zpos m * 2 ^ 53) 8388608000000000 ltac:(lia)) as Hqm.
  unfold Z.div in Hq, Hqm. destruct (Z.div_eucl (Zpos m * 2 ^ 53) 8388608000000000) as [q r].
  pose proof (Zdigits2_ge q 53 ltac:(lia) Hq) as Hdq.
  assert (0 < 2 ^ (53 - 1)) by (by apply Z.pow_pos_nonneg).
  apply (binary_round_aux_upper 0) with (v := v); [lia|rewrite fexp_eq; lia|lia|lia| |done].
  rewrite Z.add_0_r, Z.mul_1_r.
  apply (Z.mul_le_mono_pos_l _ _ 1000000000); [done|]. etrans; [|exact Hv]. rewrite <-Hs.
  cbn [sval]. set (p := 2 ^ (e - 30 + 1074)). assert (0 <= p) by (apply Z.pow_nonneg; lia).
  replace (e + 1074) with (30 + (e - 30 + 1074)) by lia. rewrite Z.pow_add_r by lia. fold p.
  rewrite !Z.mul_assoc. apply Z.mul_le_mono_nonneg_r; [done|].
  change (2 ^ 53) with (2 ^ 30 * 2 ^ 23) in Hqm. change (2 ^ 30) with 1073741824 in *.
  change (2 ^ 23) with 8388608 in *. lia.
Qed.

(** ** Lower bounds *)

(** At least [2 ^ j] units; infinity is. *)
Definition at_least (x : f64) (j : Z) : Prop :=
  good x = true ∧ (is_finite x = true → 2 ^ j <= sval x).

(** Rounding never crosses a power of two downwards. *)
Lemma binary_round_aux_at_least k m e l j :
  0 < m → e <= fexp 53 1024 (Zdigits2 m + e) → 0 <= k → 0 <= e + 1074 + k → 0 <= j →
  2 ^ (j + k) <= m * 2 ^ (e + 1074 + k) →
  at_least (binary_round_aux 53 1024 false m e l) j.
Proof.
  intros Hm He Hk Hek Hj Hv. split; [by apply binary_round_aux_good|]. intros Hf.
  destruct (binary_round_aux_value m e l Hm He) as (m2 & Hm2 & Hr).
  rewrite Hf in Hr. rewrite Hr. rewrite fexp_eq in He. clear Hr Hf.
  set (n := Z.max (Zdigits2 m + e - 53) (-1074) - e) in *.
  destruct (aligned_mantissa m e n Hm ltac:(lia) eq_refl) as (Hm1 & He1 & Hnorm).
  pose proof (Zdigits2_bounds m Hm) as Hd.
  assert (1 <= Zdigits2 m) as Hd1.
  { rewrite Zdigits2_log2 by done. pose proof (Z.log2_nonneg m). lia. }
  (* the leading digit of [m] is worth at least [2 ^ j] *)
  assert (j + k < Zdigits2 m + (e + 1074 + k)) as Hlead.
  { apply (Z.pow_lt_mono_r_iff 2); [done|lia|]. rewrite (Z.pow_add_r 2 (Zdigits2 m)) by lia.
    eapply Z.le_lt_trans; [exact Hv|]. apply Z.mul_lt_mono_pos_r; [by apply Z.pow_pos_nonneg|lia]. }
  assert (0 < 2 ^ (e + n + 1074)) as Hp by (apply Z.pow_pos_nonneg; lia).
  apply Z.le_trans with (m / 2 ^ n * 2 ^ (e + n + 1074));
    [|apply Z.mul_le_mono_nonneg_r; lia].
  destruct (Z.le_gt_cases (e + n + 1074) j) as [Hle|Hgt].
  - replace j with (j - (e + n + 1074) + (e + n + 1074)) at 1 by lia.
    rewrite Z.pow_add_r by lia. apply Z.mul_le_mono_nonneg_r; [lia|].
    apply Z.div_le_lower_bound; [apply Z.pow_pos_nonneg; lia|]. rewrite <-Z.pow_add_r by lia.
    etrans; [|apply Hd]. apply Z.pow_le_mono_r; lia.
  - destruct Hnorm as [|Hnorm]; [lia|].
    assert (2 ^ j <= 2 ^ (e + n + 1074)) by (apply Z.pow_le_mono_r; lia). nia.
Qed.

Lemma binary_normalize_at_least m e j :
  0 < m → -1074 <= e → 0 <= j → 2 ^ j <= m * 2 ^ (e + 1074) →
  at_least (binary_normalize 53 1024 m e false) j.
Proof.
  intros Hm He Hj Hv. destruct m as [|m|m]; [lia|cbn [binary_normalize]|lia].
  unfold binary_round. change (Zpos (digits2_pos m)) with (Zdigits2 (Zpos m)).
  pose proof (shl_align_spec m e (fexp 53 1024 (Zdigits2 (Zpos m) + e))) as [H1 H2].
  destruct (shl_align m e _) as [m' e']. cbn [fst snd] in *. rewrite fexp_eq in H1, H2.
  set (i := Z.max 0 (e - Z.max (Zdigits2 (Zpos m) + e - 53) (-1074))) in *.
  apply (binary_round_aux_at_least 0); try done; try lia.
  - rewrite fexp_eq, H1, Zdigits2_shl by lia. lia.
  - rewrite !Z.add_0_r, H1, H2, <-Z.mul_assoc, <-Z.pow_add_r by lia.
    by replace (i + (e - i + 1074)) with (e + 1074) by lia.
Qed.

(** A sum is at least either of its terms' powers of two. *)
Lemma f64_add_at_least x y j :
  0 <= j → good x = true → good y = true → at_least x j ∨ at_least y j → at_least (f64_add x y) j.
Proof.
  intros Hj Hgx Hgy Hxy. assert (0 < 2 ^ j) as H2 by (by apply Z.pow_pos_nonneg).
  split; [by apply f64_add_good|].
  assert ((is_finite x = true ∧ is_finite y = true → 2 ^ j <= sval x + sval y)) as Hsum.
  { intros [Fx Fy]. pose proof (sval_nonneg x). pose proof (sval_nonneg y).
    destruct Hxy as [[_ Hz]|[_ Hz]]; [specialize (Hz Fx)|specialize (Hz Fy)]; lia. }
  destruct x as [sx|[]| |[] mx ex], y as [sy|[]| |[] my ey]; try done; cbn [is_finite sval] in *;
    try (cbn; lia); try (by destruct sx; cbn; lia); try (by destruct sy; cbn; lia);
    try (by destruct sx, sy; cbn; lia).
  specialize (Hsum (conj eq_refl eq_refl)).
  assert (-1074 <= ex) as Hex by apply (good_bounded _ _ Hgx).
  assert (-1074 <= ey) as Hey by apply (good_bounded _ _ Hgy).
  unfold f64_add, SFadd.
  pose proof (shl_align_spec mx ex (Z.min ex ey)) as [E1 _].
  pose proof (shl_align_spec my ey (Z.min ex ey)) as [E2 _].
  cbn [cond_Zopp]. rewrite E1, E2.
  set (e := Z.min ex ey) in *.
  assert (0 < 2 ^ Z.max 0 (ex - e)) by (apply Z.pow_pos_nonneg; lia).
  assert (0 < 2 ^ Z.max 0 (ey - e)) by (apply Z.pow_pos_nonneg; lia).
  apply binary_normalize_at_least; [lia|lia|done|].
  rewrite Z.mul_add_distr_r, <-!Z.mul_assoc, <-!Z.pow_add_r by lia.
  replace (Z.max 0 (ex - e) + (e + 1074)) with (ex + 1074) by lia.
  replace (Z.max 0 (ey - e) + (e + 1074)) with (ey + 1074) by lia. done.
Qed.

Lemma f64_mul_ten_at_least x j : 0 <= j → at_least x j → at_least (f64_mul x (f64_of_Z 10)) (j + 3).
Proof.
  intros Hj [Hgx Hx]. rewrite f64_ten. assert (0 < 2 ^ j) by (by apply Z.pow_pos_nonneg).
  split; [by apply f64_mul_good|].
  destruct x as [sx|[]| |[] mx ex]; try done; cbn [is_finite sval] in *;
    [specialize (Hx eq_refl); lia|]. specialize (Hx eq_refl).
  pose proof (good_bounded _ _ Hgx) as (Hex & _ & _ & _).
  unfold f64_mul, SFmul. cbn [xorb].
  assert (Zpos (mx * 5629499534213120) = Zpos mx * (10 * 2 ^ 49)) as Em by lia.
  apply (binary_round_aux_at_least 49); try lia.
  - rewrite fexp_eq.
    assert (53 <= Zdigits2 (Zpos (mx * 5629499534213120))); [|lia].
    apply Zdigits2_ge; [lia|]. change (2 ^ (53 - 1)) with 4503599627370496. lia.
  - rewrite Em. replace (ex + -49 + 1074 + 49) with (ex + 1074) by lia.
    rewrite !Z.pow_add_r by lia. set (p := 2 ^ (ex + 1074)) in *. set (q := 2 ^ j) in *.
    change (2 ^ 3) with 8. change (2 ^ 49) with 562949953421312. lia.
Qed.

Lemma f64_of_Z_at_least n j : 0 <= j → 2 ^ j <= n → at_least (f64_of_Z n) (j + 1074).
Proof.
  intros Hj Hn. assert (0 < 2 ^ j) by (by apply Z.pow_pos_nonneg).
  apply binary_normalize_at_least; [lia|lia|lia|]. rewrite Z.pow_add_r by lia.
  apply Z.mul_le_mono_nonneg_r; [by apply Z.pow_nonneg|done].
Qed.
