(* ===== verification/RateWindow.v ===== *)
(** How many messages the rate limiter lets through in a window of time ([allow_message] and
    [cleanup_rate_limits] of [crates/server/src/state.rs]), rounding included: the burst plus
    ten a second; and the clean-up, which cannot be observed: an entry it forgets has been
    idle for a minute, after which a refill gives the burst, to the bit. *)
From S2P Require Import Prelude Net Config Binary64 RateLimit Rounding.
#[local] Open Scope Z_scope.

(** ** What one refill adds *)

Lemma rounded_bounds v : 0 <= v → v <= rounded v ∧ 2 ^ 52 * rounded v <= (2 ^ 52 + 1) * v + 2 ^ 53.
Proof.
  intros Hv. unfold rounded. pose proof (Z.mul_div_le v (2 ^ 52) ltac:(done)).
  pose proof (Z.div_pos v (2 ^ 52) Hv ltac:(done)). lia.
Qed.

(** The seconds of a duration, whole and fraction. *)
Lemma as_secs_upper d :
  0 <= d < 2 ^ 53 * BILLION →
  ∃ x, upper (as_secs_f64 d) x ∧ 2 ^ 50 * BILLION * x <= (2 ^ 50 + 1) * (d * ONE) + 2 ^ 53 * BILLION.
Proof.
  intros Hd. pose proof ONE_pos as H1.
  assert (0 <= d / BILLION < 2 ^ 53) as Hq.
  { split; [apply Z.div_pos; [lia|done]|apply Z.div_lt_upper_bound; [done|lia]]. }
  assert (d = BILLION * (d / BILLION) + d mod BILLION) as Ed by (apply Z.div_mod; done).
  pose proof (Z.mod_pos_bound d BILLION ltac:(done)) as Hr.
  set (q := d / BILLION) in *. set (r := d mod BILLION) in *.
  set (v := r * ONE / BILLION + 1).
  assert (0 < v ∧ r * ONE <= BILLION * v <= r * ONE + BILLION) as [Hv0 Hv].
  { pose proof (Z.mul_div_le (r * ONE) BILLION ltac:(done)).
    pose proof (Z.mul_succ_div_gt (r * ONE) BILLION ltac:(done)).
    pose proof (Z.div_pos (r * ONE) BILLION ltac:(nia) ltac:(done)). lia. }
  destruct (rounded_bounds v ltac:(lia)) as [Hx1 Hx1']. set (x1 := rounded v) in *.
  assert (0 <= q * ONE) as Hw by nia.
  destruct (rounded_bounds (q * ONE + x1) ltac:(lia)) as [Hx2 Hx2'].
  exists (rounded (q * ONE + x1)). split.
  - unfold as_secs_f64. change NANOS_PER_SEC with BILLION.
    apply (f64_add_upper _ _ (q * ONE) x1); [| |by apply rounded_covers; lia].
    + destruct (f64_of_Z_exact q Hq) as (Hg & Hf & <-). by apply upper_finite.
    + apply (f64_div_billion_upper _ v); [done|lia|apply rounded_covers; lia].
  - set (x2 := rounded (q * ONE + x1)) in *.
    assert (d * ONE = BILLION * (q * ONE) + r * ONE) as -> by lia.
    assert (0 <= r * ONE) as Hro by (apply Z.mul_nonneg_nonneg; lia).
    set (w := q * ONE) in *. set (ro := r * ONE) in *. clearbody x1 x2 v w ro.
    clear - Hv Hx1 Hx1' Hx2 Hx2' Hw Hv0 Hro. unfold BILLION in *.
    change (2 ^ 52) with 4503599627370496 in *. change (2 ^ 53) with 9007199254740992 in *.
    change (2 ^ 50) with 1125899906842624. lia.
Qed.

(** Ten tokens a second, and a relative error of less than 2^-48. *)
Lemma refilled_upper l now :
  tokens_ok (tokens l) →
  let d := duration_since now (last_refill l) in
  d < 2 ^ 53 * BILLION →
  2 ^ 48 * BILLION * sval (refilled l now) <=
    (2 ^ 48 + 1) * (BILLION * sval (tokens l) + 10 * (d * ONE)) + 2 ^ 48 * BILLION * 100.
Proof.
  intros (Hg & Hf & Hs) d Hd. pose proof ONE_pos as H1.
  assert (0 <= d) as Hd0 by (unfold d, duration_since; lia).
  destruct (as_secs_upper d ltac:(lia)) as (x2 & He & Hx2').
  assert (0 <= x2) as Hx2 by apply He.
  destruct (rounded_bounds (10 * x2) ltac:(lia)) as [Hx3 Hx3']. set (x3 := rounded (10 * x2)) in *.
  set (t := sval (tokens l)) in *. pose proof (sval_nonneg (tokens l)) as Ht. fold t in Ht.
  destruct (rounded_bounds (t + x3) ltac:(lia)) as [Hx4 Hx4']. set (x4 := rounded (t + x3)) in *.
  assert (upper (f64_add (tokens l) (f64_mul (as_secs_f64 d) MESSAGE_RATE_PER_SECOND)) x4) as Hup.
  { eapply f64_add_upper; [by apply upper_finite| |apply rounded_covers; lia].
    eapply f64_mul_ten_upper; [exact He|]. apply rounded_covers. lia. }
  assert (sval (refilled l now) <= x4) as Hrx.
  { unfold refilled. fold d. set (x := f64_add _ _) in *. destruct Hup as (Hgx & _ & Hx).
    destruct burst_ok as (Hbg & Hbf & Hbs).
    destruct (f64_min_good _ _ Hgx Hbg Hbf) as (_ & _ & Hle & Hmin).
    destruct (is_finite x); [rewrite Hmin by done; lia|lia]. }
  assert (0 <= d * ONE) as Hdo by (apply Z.mul_nonneg_nonneg; lia).
  set (o := d * ONE) in *. clearbody x3 x4 t o.
  clear - Hrx Hx2 Hx2' Hx3' Hx4' Hx3 Hx4 Ht Hdo. unfold BILLION in *.
  change (2 ^ 52) with 4503599627370496 in *. change (2 ^ 53) with 9007199254740992 in *.
  change (2 ^ 50) with 1125899906842624 in *. change (2 ^ 48) with 281474976710656. lia.
Qed.

Lemma refilled_gain l now :
  tokens_ok (tokens l) → duration_since now (last_refill l) < 2 ^ 53 * BILLION →
  2 ^ 48 * BILLION * sval (refilled l now) <=
    2 ^ 48 * BILLION * sval (tokens l) +
    ((2 ^ 48 + 1) * 10 * duration_since now (last_refill l) + 21 * BILLION) * ONE.
Proof.
  intros Ht Hd. pose proof (refilled_upper l now Ht Hd) as H. cbn zeta in H.
  destruct Ht as (_ & _ & Hs). pose proof ONE_pos.
  pose proof ONE_large.
  set (d := duration_since now (last_refill l)) in *. set (o := d * ONE) in *.
  replace (((2 ^ 48 + 1) * 10 * d + 21 * BILLION) * ONE)
    with ((2 ^ 48 + 1) * 10 * o + 21 * BILLION * ONE) by (unfold o; lia).
  clearbody o. unfold BILLION in *. change (2 ^ 48) with 281474976710656 in *. lia.
Qed.

(** ** A window of time *)

(** The instants a sequence of operations reads: the calls of [allow_message] read the clock
    under the lock, so each reads one no earlier than what was read before; a clean-up reads
    it before it takes the lock. *)
Fixpoint clocked (t : Instant) (ops : list LimiterOp) : Prop :=
  match ops with
  | [] => True
  | Allow _ now :: ops => t <= now ∧ clocked now ops
  | Cleanup now :: ops => clocked (Z.max t now) ops
  end.

Definition op_time (o : LimiterOp) : Instant :=
  match o with Allow _ now => now | Cleanup now => now end.

(** The messages of a sender that are accepted. *)
Fixpoint accepted (sender : IpAddr) (m : gmap IpAddr RateLimitState) (ops : list LimiterOp) : nat :=
  match ops with
  | [] => 0
  | o :: ops =>
      (match o with
       | Allow i now => if decide (i = sender) then if is_ok (fst (allow m i now)) then 1 else 0 else 0
       | Cleanup _ => 0
       end + accepted sender (limiter_op m o) ops)%nat
  end.

(** What has been accepted since [t0], and the tokens left, come from the burst and the time
    that has passed; [k] bounds the rounding. *)
Definition credit (t0 t : Instant) (k : Z) : Z := (2 ^ 48 + 1) * 10 * (t - t0) + k * (21 * BILLION).

Record window (sender : IpAddr) (t0 t : Instant) (k a : Z) (m : gmap IpAddr RateLimitState) : Prop := {
  win_ok : limiters_ok m;
  win_time : t0 <= t;
  win_counts : 0 <= k ∧ 0 <= a;
  win_entry : match m !! sender with
    | None => 2 ^ 48 * BILLION * a <= credit t0 t k
    | Some l => last_refill l <= t ∧ (last_refill l < t0 → a = 0) ∧
        (t0 <= last_refill l →
         2 ^ 48 * BILLION * (a * ONE + sval (tokens l)) <=
           (2 ^ 48 * BILLION * 20 + credit t0 (last_refill l) k) * ONE)
    end }.

Lemma window_bound sender t0 t k a m :
  window sender t0 t k a m → 2 ^ 48 * BILLION * a <= 2 ^ 48 * BILLION * 20 + credit t0 t k.
Proof.
  intros [_ Ht [Hk Ha] He]. pose proof ONE_pos.
  assert (0 <= credit t0 t k) by (unfold credit, BILLION; lia).
  destruct (m !! sender) as [l|]; [|unfold BILLION in *; lia].
  destruct He as (Hl & Hfirst & Hle). destruct (Z.lt_ge_cases (last_refill l) t0) as [Hlt|Hge].
  - rewrite Hfirst by done. unfold BILLION. lia.
  - specialize (Hle Hge). pose proof (sval_nonneg (tokens l)).
    assert (credit t0 (last_refill l) k <= credit t0 t k) by (unfold credit; lia).
    apply (Z.mul_le_mono_pos_r _ _ ONE); [done|]. 
    assert (credit t0 (last_refill l) k * ONE <= credit t0 t k * ONE)
      by (apply Z.mul_le_mono_nonneg_r; lia).
    set (c := credit t0 t k) in *. set (c1 := credit t0 (last_refill l) k) in *. clearbody c c1.
    unfold BILLION in *. change (2 ^ 48) with 281474976710656 in *. lia.
Qed.

(** What has been accepted and what the next call can spend. *)
Lemma window_refilled sender t0 t k a m now :
  window sender t0 t k a m → t <= now → now - t0 < 2 ^ 53 * BILLION →
  2 ^ 48 * BILLION * (a * ONE + sval (refilled (limiter_of m sender now) now)) <=
    (2 ^ 48 * BILLION * 20 + credit t0 now (k + 1)) * ONE.
Proof.
  intros [Hok Ht [Hk Ha] He] Hnow Hwin. pose proof ONE_pos as H1.
  pose proof (refilled_ok _ now (limiter_of_ok m sender now Hok)) as (_ & _ & Hr20).
  set (r := sval (refilled (limiter_of m sender now) now)) in *.
  assert (0 <= credit t0 now (k + 1)) as Hc0 by (unfold credit, BILLION; lia).
  assert (a = 0 ∨ m !! sender = None ∨ ∃ l, m !! sender = Some l ∧ t0 <= last_refill l) as Hcases.
  { destruct (m !! sender) as [l|]; [|by auto]. destruct He as (_ & H0 & _).
    destruct (Z.lt_ge_cases (last_refill l) t0); eauto. }
  rewrite Z.mul_add_distr_r. destruct Hcases as [->|[E|(l & E & Hl0)]].
  - assert (0 <= credit t0 now (k + 1) * ONE) by (apply Z.mul_nonneg_nonneg; lia).
    set (c := credit t0 now (k + 1) * ONE) in *. clearbody c. unfold BILLION in *. lia.
  - rewrite E in He.
    assert (credit t0 t k <= credit t0 now (k + 1)) as Hcr by (unfold credit, BILLION; lia).
    assert (2 ^ 48 * BILLION * a * ONE <= credit t0 now (k + 1) * ONE)
      by (apply Z.mul_le_mono_nonneg_r; lia).
    set (c := credit t0 now (k + 1) * ONE) in *. clearbody c. unfold BILLION in *. lia.
  - rewrite E in He. destruct He as (Hlt & _ & Hle). specialize (Hle Hl0).
    assert (r = sval (refilled l now)) as Er by (unfold r, limiter_of; by rewrite E).
    assert (duration_since now (last_refill l) = now - last_refill l) as Hd
      by (unfold duration_since; lia).
    pose proof (refilled_gain l now (Hok sender l E) ltac:(lia)) as Hg. rewrite Hd, <-Er in Hg.
    assert (credit t0 now (k + 1) = credit t0 (last_refill l) k +
      ((2 ^ 48 + 1) * 10 * (now - last_refill l) + 21 * BILLION)) as -> by (unfold credit; lia).
    rewrite Z.mul_add_distr_r in Hle |- *.
    set (x := credit t0 (last_refill l) k * ONE) in *.
    set (y := ((2 ^ 48 + 1) * 10 * (now - last_refill l) + 21 * BILLION) * ONE) in *.
    clearbody x y. unfold BILLION in *. change (2 ^ 48) with 281474976710656 in *. lia.
Qed.

(** What one call accepts and leaves comes from the refilled tokens. *)
Lemma window_allow sender t0 t k a m now :
  window sender t0 t k a m → t <= now → now - t0 < 2 ^ 53 * BILLION →
  window sender t0 now (k + 1)
    (a + if is_ok (fst (allow m sender now)) then 1 else 0) (snd (allow m sender now)).
Proof.
  intros Hw Hnow Hwin. pose proof (window_refilled _ _ _ _ _ _ _ Hw Hnow Hwin) as Hgoal.
  destruct Hw as [Hok Ht [Hk Ha] _].
  destruct (allow_spec m sender now Hok) as (l' & Em & Hl' & Ht' & Hcase).
  set (r := sval (refilled (limiter_of m sender now) now)) in *.
  assert (∃ b, (if is_ok (fst (allow m sender now)) then 1 else 0) = b ∧ 0 <= b ∧
    b * ONE + sval (tokens l') = r) as (b & -> & Hb & Hspent).
  { destruct Hcase as [(_ & -> & ->)|(_ & -> & ->)]; eexists; (split; [reflexivity|]); cbn; lia. }
  split; [by apply allow_limiters_ok|lia|lia|]. rewrite Em, lookup_insert_eq, Hl'.
  split_and!; [lia|lia|]. intros _.
  by replace ((a + b) * ONE + sval (tokens l')) with (a * ONE + r) by lia.
Qed.

Lemma credit_le t0 t t' k : t <= t' → credit t0 t k <= credit t0 t' k.
Proof. unfold credit. lia. Qed.

(** A call for somebody else. *)
Lemma window_other sender i t0 t k a m now :
  window sender t0 t k a m → t <= now → i ≠ sender →
  window sender t0 now k a (snd (allow m i now)).
Proof.
  intros [Hok Ht Hka He] Hnow Hi. destruct (allow_spec m i now Hok) as (l' & Em & _).
  split; [by apply allow_limiters_ok|lia|done|]. rewrite Em, lookup_insert_ne by done.
  destruct (m !! sender) as [l|].
  - destruct He as (? & ? & ?). split_and!; [lia|done|done].
  - etrans; [exact He|]. by apply credit_le.
Qed.

(** What the clean-up forgets has been idle long enough. *)
Lemma window_cleanup sender t0 t k a m now :
  window sender t0 t k a m → window sender t0 (Z.max t now) k a (cleanup m now).
Proof.
  intros [Hok Ht [Hk Ha] He]. pose proof ONE_pos as H1.
  split; [by apply cleanup_ok|lia|done|]. unfold cleanup.
  destruct (m !! sender) as [l|] eqn:E.
  - destruct He as (Hl & Hfirst & Hle).
    destruct (decide (duration_since now (last_refill l) < RATE_LIMIT_IDLE_EXPIRY)) as [Hd|Hd].
    + rewrite (map_lookup_filter_Some_2 _ _ _ l E Hd). split_and!; [lia|done|done].
    + rewrite map_lookup_filter_None_2 by (right; intros x Ex; congruence).
      assert (last_refill l + 60 * BILLION <= now) as Hidle.
      { unfold duration_since, RATE_LIMIT_IDLE_EXPIRY, from_secs in Hd. unfold BILLION. lia. }
      destruct (Z.lt_ge_cases (last_refill l) t0) as [Hlt|Hge].
      * rewrite Hfirst by done. unfold credit, BILLION. lia.
      * specialize (Hle Hge). pose proof (sval_nonneg (tokens l)).
        assert (2 ^ 48 * BILLION * 20 + credit t0 (last_refill l) k <= credit t0 (Z.max t now) k)
          as Hc by (unfold credit, BILLION in *; lia).
        apply (Z.mul_le_mono_pos_r _ _ ONE); [done|].
        apply (Z.mul_le_mono_nonneg_r _ _ ONE) in Hc; [|lia].
        unfold BILLION in *. lia.
  - rewrite map_lookup_filter_None_2 by (by left). etrans; [exact He|]. apply credit_le. lia.
Qed.

Lemma window_ops sender t0 t1 ops : ∀ t k a m,
  window sender t0 t k a m → clocked t ops → Forall (λ o, op_time o <= t1) ops → t <= t1 →
  t1 - t0 < 2 ^ 53 * BILLION →
  window sender t0 t1 (k + zlen ops) (a + Z.of_nat (accepted sender m ops))
    (foldl limiter_op m ops).
Proof.
  assert (∀ t k a m, window sender t0 t k a m → t <= t1 → window sender t0 t1 k a m) as Hlater.
  { intros t k a m [Hok Ht Hka He] Ht1. split; [done|lia|done|].
    destruct (m !! sender) as [l|]; [destruct He as (? & ? & ?); split_and!; [lia|done|done]|].
    etrans; [exact He|]. by apply credit_le. }
  induction ops as [|o ops IH]; intros t k a m Hw Hc Hall Ht Hlen.
  { unfold zlen. cbn. rewrite !Z.add_0_r. by apply (Hlater t). }
  apply Forall_cons in Hall as [Ho Hall].
  replace (k + zlen (o :: ops)) with ((k + 1) + zlen ops) by (unfold zlen; cbn [length]; lia).
  assert (∀ t' m' k' a', window sender t0 t' k' a' m' → k' <= k + 1 → window sender t0 t' (k + 1) a' m')
    as Hmore.
  { intros t' m' k' a' [Hok' Ht' [Hk' Ha'] He'] Hk1. split; [done|done|lia|].
    destruct (m' !! sender) as [l|].
    - destruct He' as (? & ? & Hle). split_and!; [done|done|]. intros Hl. etrans; [by apply Hle|].
      apply Z.mul_le_mono_nonneg_r; [pose proof ONE_pos; lia|]. unfold credit, BILLION. lia.
    - etrans; [exact He'|]. unfold credit, BILLION. lia. }
  cbn [foldl accepted]. destruct o as [i now|now]; cbn [clocked limiter_op op_time] in *.
  - destruct Hc as [Hnow Hc]. rewrite Nat2Z.inj_add, Z.add_assoc.
    destruct (decide (i = sender)) as [->|Hi].
    + apply (IH now); try done.
      replace (Z.of_nat _) with (if is_ok (fst (allow m sender now)) then 1 else 0)
        by (by destruct (is_ok _)).
      apply (window_allow _ _ t); [done|done|lia].
    + apply (IH now); try done. rewrite Z.add_0_r. apply Hmore with k; [|lia].
      by apply (window_other _ _ _ t).
  - rewrite Nat2Z.inj_add, Z.add_assoc, Z.add_0_r. apply (IH (Z.max t now)); try done; [|lia].
    apply Hmore with k; [|lia]. by apply window_cleanup.
Qed.

(** ** What the clean-up forgets *)

(** After a minute the bucket is full, to the bit. *)
Lemma refilled_idle l now :
  tokens_ok (tokens l) → 60 * BILLION <= duration_since now (last_refill l) →
  refilled l now = MESSAGE_BURST_SIZE.
Proof.
  intros (Hg & _ & _) Hd. unfold refilled. set (d := duration_since now (last_refill l)) in *.
  assert (good (f64_mul (as_secs_f64 d) MESSAGE_RATE_PER_SECOND) = true) as Hge by apply earned_good.
  assert (at_least (f64_add (tokens l) (f64_mul (as_secs_f64 d) MESSAGE_RATE_PER_SECOND)) 1082) as Hx.
  { apply f64_add_at_least; [done|done|done|]. right.
    apply (f64_mul_ten_at_least (as_secs_f64 d) 1079); [done|].
    assert (2 ^ 5 <= d / BILLION) as Hq.
    { change (2 ^ 5) with 32. apply Z.div_le_lower_bound; [done|unfold BILLION in *; lia]. }
    unfold as_secs_f64. change NANOS_PER_SEC with BILLION.
    apply f64_add_at_least; [done|apply f64_of_Z_good; lia| |].
    - eapply f64_div_of_Z_good; [|reflexivity|reflexivity|done].
      pose proof (Z.mod_pos_bound d BILLION ltac:(done)). unfold BILLION in *. lia.
    - left. by apply (f64_of_Z_at_least _ 5). }
  set (x := f64_add _ _) in *. destruct Hx as [Hgx Hx]. destruct burst_ok as (Hgb & Hfb & _).
  assert (f64_lt x MESSAGE_BURST_SIZE = false) as Hlt.
  { destruct (is_finite x) eqn:Hf.
    - rewrite f64_lt_sval by done. specialize (Hx eq_refl). apply Z.ltb_ge. rewrite sval_burst.
      etrans; [|exact Hx]. exact burst_small.
    - by destruct x as [|[]| |]. }
  unfold f64_min. rewrite Hlt. by destruct x.
Qed.

Lemma refilled_fresh now :
  refilled (mk_RateLimitState MESSAGE_BURST_SIZE now) now = MESSAGE_BURST_SIZE.
Proof.
  unfold refilled, duration_since. cbn [last_refill tokens]. rewrite Z.sub_diag.
  vm_compute. reflexivity.
Qed.

(** Maps that differ by entries that have been idle for a minute at [t]. *)
Definition forgotten (t : Instant) (m m' : gmap IpAddr RateLimitState) : Prop :=
  ∀ i, m !! i = m' !! i ∨
    m !! i = None ∧ ∃ l, m' !! i = Some l ∧ last_refill l + 60 * BILLION <= t.

Lemma forgotten_refilled t m m' i now :
  limiters_ok m' → forgotten t m m' → t <= now →
  refilled (limiter_of m i now) now = refilled (limiter_of m' i now) now.
Proof.
  intros Hok Hm Ht. unfold limiter_of. destruct (Hm i) as [->|(-> & l & E & Hl)]; [done|].
  rewrite E. cbn [default id]. rewrite refilled_fresh. symmetry.
  apply refilled_idle; [by apply (Hok i)|]. unfold duration_since. lia.
Qed.

Lemma forgotten_allow t m m' i now :
  limiters_ok m' → forgotten t m m' → t <= now →
  fst (allow m i now) = fst (allow m' i now) ∧
  forgotten now (snd (allow m i now)) (snd (allow m' i now)).
Proof.
  intros Hok Hm Ht. unfold allow. rewrite (forgotten_refilled t m m' i now) by done.
  assert (∀ l, forgotten now (<[i := l]> m) (<[i := l]> m')) as Hins.
  { intros l j. destruct (decide (i = j)) as [<-|Hj]; [left; by rewrite !lookup_insert_eq|].
    rewrite !lookup_insert_ne by done. destruct (Hm j) as [?|(? & l' & ? & ?)]; [by left|right].
    split; [done|]. exists l'. split; [done|lia]. }
  destruct (f64_lt _ _); (split; [done|apply Hins]).
Qed.

Lemma forgotten_cleanup t m m' now :
  forgotten t m m' → forgotten (Z.max t now) (cleanup m now) m'.
Proof.
  intros Hm i. unfold cleanup. destruct (Hm i) as [Hi|(Hi & l & E & Hl)].
  - destruct (m !! i) as [l|] eqn:E.
    + destruct (decide (duration_since now (last_refill l) < RATE_LIMIT_IDLE_EXPIRY)) as [Hd|Hd].
      * left. by rewrite (map_lookup_filter_Some_2 _ _ _ l E Hd).
      * right. split; [apply map_lookup_filter_None_2; right; intros x Ex; congruence|].
        exists l. split; [done|].
        unfold duration_since, RATE_LIMIT_IDLE_EXPIRY, from_secs, BILLION in *. lia.
    + left. rewrite map_lookup_filter_None_2 by (by left). done.
  - right. split; [apply map_lookup_filter_None_2; by left|]. exists l. split; [done|lia].
Qed.

(** The answers of the calls of [allow_message]. *)
Fixpoint outcomes (m : gmap IpAddr RateLimitState) (ops : list LimiterOp)
  : list (result ServerError unit) :=
  match ops with
  | [] => []
  | Allow i now :: ops => fst (allow m i now) :: outcomes (snd (allow m i now)) ops
  | Cleanup now :: ops => outcomes (cleanup m now) ops
  end.

Definition is_allow (o : LimiterOp) : bool := match o with Allow _ _ => true | _ => false end.

Lemma forgotten_outcomes ops : ∀ t m m',
  limiters_ok m' → forgotten t m m' → clocked t ops →
  outcomes m ops = outcomes m' (List.filter is_allow ops).
Proof.
  induction ops as [|[i now|now] ops IH]; intros t m m' Hok Hm Hc; [done| |];
    cbn [clocked outcomes List.filter is_allow] in *.
  - destruct Hc as [Ht Hc]. destruct (forgotten_allow t m m' i now Hok Hm Ht) as [-> Hm'].
    f_equal. by apply (IH now); [apply allow_limiters_ok|..].
  - apply (IH (Z.max t now)); [done|by apply forgotten_cleanup|done].
Qed.

(** ** Properties *)

(** C14: the rate limit.  Whatever the limiter held before, in a window of time a sender gets
    at most twenty-one messages and ten for each second accepted: the burst, the rate, and
    less than one message for all rounding errors together (for windows and numbers of calls
    up to 2^40).  Forgetting idle senders does not raise it. *)
Theorem rate_limit_window m sender t0 t1 ops :
  limiters_ok m → (∀ l, m !! sender = Some l → last_refill l <= t0) →
  clocked t0 ops → Forall (λ o, op_time o <= t1) ops → t0 <= t1 →
  zlen ops <= 2 ^ 40 → t1 - t0 <= 2 ^ 40 * 1000000000 →
  Z.of_nat (accepted sender m ops) <= 21 + 10 * (t1 - t0) / 1000000000.
Proof.
  intros Hok Hlast Hc Hall Ht Hn Hlen.
  assert (window sender t0 t0 0 0 m) as Hw.
  { pose proof ONE_pos. split; [done|done|done|]. destruct (m !! sender) as [l|] eqn:E.
    - split_and!; [by apply Hlast|done|]. intros Hl.
      assert (last_refill l = t0) as -> by (specialize (Hlast l eq_refl); lia).
      destruct (Hok sender l E) as (_ & _ & Hs). unfold credit, BILLION. lia.
    - unfold credit, BILLION. lia. }
  apply (window_ops _ _ t1 ops) in Hw; [|done|done|done|unfold BILLION; lia].
  apply window_bound in Hw. unfold credit, BILLION in Hw. rewrite !Z.add_0_l in Hw.
  assert (1000000000 * (Z.of_nat (accepted sender m ops) - 21) <= 10 * (t1 - t0)) as Hfin.
  { change (2 ^ 48) with 281474976710656 in *. change (2 ^ 40) with 1099511627776 in *.
    pose proof (zlen_nonneg ops). lia. }
  pose proof (Z.div_le_lower_bound (10 * (t1 - t0)) 1000000000 _ ltac:(done) Hfin). lia.
Qed.

(** A sender that sends thirty messages in three tenths of a second. *)
Definition busy (from : Z) : list LimiterOp :=
  map (λ i, Allow (V4 1) (from + Z.of_nat i * 10000000)) (seq 0 30).

(** It gets the burst and what the time is worth; forgotten a minute later, it starts again. *)
Lemma busy_accepted :
  accepted (V4 1) ∅ (busy 0) = 22%nat ∧
  accepted (V4 1) ∅ (busy 0 ++ [Cleanup 70000000000] ++ busy 70000000000) = 44%nat.
Proof. split; vm_compute; reflexivity. Qed.

Lemma rate_limit_window_witness :
  Z.of_nat (accepted (V4 1) ∅ (busy 0)) <= 21 + 10 * (290000000 - 0) / 1000000000.
Proof.
  apply (rate_limit_window ∅ (V4 1) 0 290000000 (busy 0)).
  - apply map_Forall_empty.
  - intros l Hl. rewrite lookup_empty in Hl. discriminate Hl.
  - vm_compute. repeat split; discriminate.
  - repeat constructor; vm_compute; discriminate.
  - lia.
  - vm_compute. discriminate.
  - lia.
Defined.

(** C15: the clean-up cannot be observed.  Whatever limiters there are, dropping the idle ones
    at any instants changes no answer of [allow_message], for any sender, now or later:
    after a minute the refill gives exactly the burst, to the last bit, which is what a new
    entry holds. *)
Theorem cleanup_invisible m t ops :
  limiters_ok m → clocked t ops → outcomes m ops = outcomes m (List.filter is_allow ops).
Proof. intros Hok Hc. apply (forgotten_outcomes ops t); [done| |done]. intros i. by left. Qed.

Lemma cleanup_invisible_witness :
  let ops := busy 0 ++ [Cleanup 70000000000] ++ busy 70000000000 in
  length (outcomes ∅ ops) = 60%nat ∧ outcomes ∅ ops = outcomes ∅ (List.filter is_allow ops).
Proof.
  split; [vm_compute; reflexivity|].
  apply (cleanup_invisible ∅ 0).
  - apply map_Forall_empty.
  - vm_compute. repeat split; discriminate.
Defined.
