(* ===== verification/Registry.v ===== *)
(** The client registry of [crates/server/src/state.rs]: who is connected, and the counters
    the connection limits are decided on ([ClientRegistry], [ClientSession], [ClientToken]).
    The operations here are the parts of the server's functions that run while the registry's
    mutex is held; [State] composes them.  [wf_registry] says that the counters are the
    counts, and every operation preserves it. *)
From S2P Require Import Prelude Utf8 Text Presence Net.

(** ** Data *)

(** [ClientToken(Arc<()>)]: the identity of an allocation. *)
Definition ClientToken := nat.
Definition matches (a b : ClientToken) : bool := bool_decide (a = b).

Record ClientSession := mk_ClientSession { token : ClientToken; username : option str }.

Record ClientRegistry := mk_ClientRegistry {
  by_addr : gmap SocketAddr (list ClientSession);
  per_ip : gmap IpAddr nat;
  total : nat }.

Definition MAX_CONNECTIONS : nat := 256.
Definition MAX_CONNECTIONS_PER_IP : nat := 4.

Definition empty_registry : ClientRegistry := mk_ClientRegistry ∅ ∅ 0.

(** ** Operations *)

(** The test [register_client_with_status] starts with. *)
Definition limit_reached (c : ClientRegistry) (address : SocketAddr) : bool :=
  (MAX_CONNECTIONS <=? total c) ||
  (MAX_CONNECTIONS_PER_IP <=? default 0 (per_ip c !! ip address)).

(** Its registry updates. *)
Definition registry_push (c : ClientRegistry) (address : SocketAddr) (t : ClientToken)
  : ClientRegistry :=
  mk_ClientRegistry
    (<[address := default [] (by_addr c !! address) ++ [mk_ClientSession t None]]> (by_addr c))
    (<[ip address := S (default 0 (per_ip c !! ip address))]> (per_ip c))
    (S (total c)).

(** An address keeps its entry while a client is left at it. *)
Definition put_entries {V} (m : gmap SocketAddr (list V)) (address : SocketAddr)
    (entries : list V) : gmap SocketAddr (list V) :=
  if decide (entries = []) then delete address m else <[address := entries]> m.

(** An address family member keeps its counter while it is not zero. *)
Definition put_count (m : gmap IpAddr nat) (i : IpAddr) (n : nat) : gmap IpAddr nat :=
  if n =? 0 then delete i m else <[i := n]> m.

(** [entries.retain(|client| !client.token.matches(target_token))] *)
Definition without (t : ClientToken) (l : list ClientSession) : list ClientSession :=
  filter (λ client, token client ≠ t) l.

(** The registry updates of [remove_client_if_current]: whether the client was there, and the
    registry without it.  The counters are decremented with overflow checks. *)
Definition registry_remove (c : ClientRegistry) (address : SocketAddr) (t : ClientToken)
  : exec (bool * ClientRegistry) :=
  match by_addr c !! address with
  | None => Val (false, c)
  | Some entries =>
      let entries' := without t entries in
      let removed := negb (length entries' =? length entries) in
      let by_addr' := put_entries (by_addr c) address entries' in
      if removed then
        total' ← checked_sub (total c) 1;
        ip_count ← unwrap (per_ip c !! ip address);
        ip_count' ← checked_sub ip_count 1;
        mret (true,
          mk_ClientRegistry by_addr' (put_count (per_ip c) (ip address) ip_count') total')
      else mret (false, mk_ClientRegistry by_addr' (per_ip c) (total c))
  end.

(** The update of [set_client_username]; [None] is its error case. *)
Definition registry_set_username (c : ClientRegistry) (address : SocketAddr) (t : ClientToken)
    (name : str) : option ClientRegistry :=
  entries ← by_addr c !! address;
  if existsb (λ client, matches (token client) t) entries then
    Some (mk_ClientRegistry
      (<[address := alter_first (λ client, matches (token client) t)
          (λ client, mk_ClientSession (token client) (Some name)) entries]> (by_addr c))
      (per_ip c) (total c))
  else None.

(** The body of [usernames]. *)
Definition registry_usernames `{HashOrder} (c : ClientRegistry) : list str :=
  omap username (hash_values (by_addr c)).

(** ** Invariant *)

(** The clients of one address. *)
Definition count_ip (i : IpAddr) (a : SocketAddr) (l : list ClientSession) : nat :=
  if decide (ip a = i) then length l else 0.

Definition clients_at (c : ClientRegistry) (a : SocketAddr) : list ClientSession :=
  default [] (by_addr c !! a).

Record wf_registry (c : ClientRegistry) : Prop := {
  wf_total : total c = msum (λ _ l, length l) (by_addr c);
  wf_per_ip i : default 0 (per_ip c !! i) = msum (count_ip i) (by_addr c);
  wf_no_zero i n : per_ip c !! i = Some n → n ≠ 0;
  wf_no_empty a l : by_addr c !! a = Some l → l ≠ [];
  wf_tokens a : NoDup (token <$> clients_at c a);
  wf_max_total : total c ≤ MAX_CONNECTIONS;
  wf_max_ip i : default 0 (per_ip c !! i) ≤ MAX_CONNECTIONS_PER_IP }.

(** Every username stored is one the handshake accepts. *)
Definition usernames_ok (ok : str → Prop) (c : ClientRegistry) : Prop :=
  ∀ a s u, s ∈ clients_at c a → username s = Some u → ok u.

(** ** Lemmas *)

Lemma wf_empty : wf_registry empty_registry.
Proof.
  split; cbn; try done; unfold clients_at; cbn.
  - intros a. rewrite lookup_empty. apply NoDup_nil_2.
  - lia.
  - intros i. rewrite lookup_empty. cbn. lia.
Qed.

Lemma length_clients_at c a : length (clients_at c a) = from_option length 0 (by_addr c !! a).
Proof. unfold clients_at. by destruct (by_addr c !! a). Qed.

(** A sum over the registry splits at an address. *)
Lemma msum_at c (g : nat → nat) a (f : SocketAddr → list ClientSession → nat) :
  (∀ l, f a l = g (length l)) → g 0 = 0 →
  msum f (by_addr c) = g (length (clients_at c a)) + msum f (delete a (by_addr c)).
Proof.
  intros Hf H0. rewrite (msum_delete_default f (by_addr c) a). unfold clients_at.
  destruct (by_addr c !! a) as [l|]; cbn; by rewrite ?Hf, ?H0.
Qed.

Lemma count_ip_at i a l : count_ip i a l = if decide (ip a = i) then length l else 0.
Proof. done. Qed.

(** Both counters, split at an address. *)
Lemma wf_split c a : wf_registry c →
  total c = length (clients_at c a) + msum (λ _ l, length l) (delete a (by_addr c)) ∧
  ∀ i, default 0 (per_ip c !! i) =
    (if decide (ip a = i) then length (clients_at c a) else 0) +
    msum (count_ip i) (delete a (by_addr c)).
Proof.
  intros Hc. split.
  - rewrite (wf_total c Hc). by apply (msum_at c id).
  - intros i. rewrite (wf_per_ip c Hc).
    apply (msum_at c (λ n, if decide (ip a = i) then n else 0)); [done|by case_decide].
Qed.

Lemma registry_push_wf c a t :
  wf_registry c → limit_reached c a = false → t ∉ token <$> clients_at c a →
  wf_registry (registry_push c a t).
Proof.
  intros Hc [Ht%Nat.leb_gt Hi%Nat.leb_gt]%orb_false_iff Hfresh.
  destruct (wf_split c a Hc) as [Etotal Eip].
  split; cbn.
  - rewrite msum_insert, Etotal, length_app. cbn. fold (clients_at c a). lia.
  - intros i. rewrite msum_insert, count_ip_at, length_app. fold (clients_at c a).
    cbn [length]. specialize (Eip i). destruct (decide (ip a = i)) as [<-|Hne].
    + rewrite lookup_insert_eq. cbn. lia.
    + rewrite lookup_insert_ne by done. lia.
  - intros i n. destruct (decide (ip a = i)) as [<-|Hne].
    + rewrite lookup_insert_eq. intros [= <-]. done.
    + rewrite lookup_insert_ne by done. apply Hc.
  - intros b l. destruct (decide (a = b)) as [<-|Hne].
    + rewrite lookup_insert_eq. intros [= <-]. by destruct (default [] _).
    + rewrite lookup_insert_ne by done. apply Hc.
  - intros b. unfold clients_at. cbn. destruct (decide (a = b)) as [<-|Hne].
    + rewrite lookup_insert_eq. cbn. fold (clients_at c a). rewrite fmap_app.
      apply NoDup_app. split_and!; [apply Hc| |apply NoDup_singleton].
      intros x Hx ->%list_elem_of_singleton. done.
    + rewrite lookup_insert_ne by done. apply Hc.
  - lia.
  - intros i. destruct (decide (ip a = i)) as [<-|Hne].
    + rewrite lookup_insert_eq. cbn. lia.
    + rewrite lookup_insert_ne by done. apply Hc.
Qed.

Lemma without_length c a t : wf_registry c →
  length (without t (clients_at c a)) =
    length (clients_at c a) - (if decide (t ∈ token <$> clients_at c a) then 1 else 0).
Proof. intros Hc. apply filter_key_length, Hc. Qed.

Section put_entries.
Context {V : Type}.
Implicit Types (m : gmap SocketAddr (list V)) (l : list V).

Lemma put_entries_at m a l b :
  default [] (put_entries m a l !! b) = if decide (a = b) then l else default [] (m !! b).
Proof.
  unfold put_entries. destruct (decide (a = b)) as [<-|Hne]; destruct (decide (l = [])) as [->|].
  - by rewrite lookup_delete_eq.
  - by rewrite lookup_insert_eq.
  - by rewrite lookup_delete_ne.
  - by rewrite lookup_insert_ne.
Qed.

Lemma put_entries_sum m a l (f : SocketAddr → list V → nat) :
  f a [] = 0 → msum f (put_entries m a l) = f a l + msum f (delete a m).
Proof.
  intros Hf. unfold put_entries. case_decide as Hl; [by rewrite Hl, Hf|]. apply msum_insert.
Qed.

Lemma put_entries_no_empty m a l :
  (∀ b k, m !! b = Some k → k ≠ []) → ∀ b k, put_entries m a l !! b = Some k → k ≠ [].
Proof.
  intros Hm b k. unfold put_entries. case_decide as Hl.
  - rewrite lookup_delete_Some. intros [_ ?]. by eapply Hm.
  - rewrite lookup_insert_Some. intros [[_ <-]|[_ ?]]; [done|]. by eapply Hm.
Qed.
End put_entries.

Lemma put_count_at m i n j :
  default 0 (put_count m i n !! j) = if decide (i = j) then n else default 0 (m !! j).
Proof.
  unfold put_count. destruct (decide (i = j)) as [<-|Hi]; destruct (Nat.eqb_spec n 0) as [->|].
  - by rewrite lookup_delete_eq.
  - by rewrite lookup_insert_eq.
  - by rewrite lookup_delete_ne.
  - by rewrite lookup_insert_ne.
Qed.

Lemma put_count_no_zero m i n :
  (∀ j k, m !! j = Some k → k ≠ 0) → ∀ j k, put_count m i n !! j = Some k → k ≠ 0.
Proof.
  intros Hm j k. unfold put_count. destruct (Nat.eqb_spec n 0).
  - rewrite lookup_delete_Some. intros [_ ?]. by eapply Hm.
  - rewrite lookup_insert_Some. intros [[_ <-]|[_ ?]]; [done|]. by eapply Hm.
Qed.

(** Both outcomes of a removal leave a well-formed registry. *)
Lemma registry_remove_wf c a t pm n :
  wf_registry c →
  let d := if decide (t ∈ token <$> clients_at c a) then 1 else 0 in
  n = total c - d →
  (∀ i, default 0 (pm !! i) = if decide (ip a = i) then default 0 (per_ip c !! i) - d
                              else default 0 (per_ip c !! i)) →
  (∀ i k, pm !! i = Some k → k ≠ 0) →
  wf_registry (mk_ClientRegistry (put_entries (by_addr c) a (without t (clients_at c a))) pm n).
Proof.
  intros Hc d Hn Hpm Hnz. pose proof (without_length c a t Hc) as Hlen. fold d in Hlen.
  assert (d ≤ length (clients_at c a)) as Hd.
  { subst d. case_decide as Hin; [|lia].
    destruct (clients_at c a); [by apply not_elem_of_nil in Hin|cbn; lia]. }
  clearbody d. destruct (wf_split c a Hc) as [Etotal Eip].
  split; cbn [total per_ip by_addr]; try done.
  - rewrite put_entries_sum, Hlen by done. lia.
  - intros i. rewrite Hpm, put_entries_sum by (unfold count_ip; by case_decide).
    rewrite count_ip_at, Hlen. specialize (Eip i). case_decide; lia.
  - apply put_entries_no_empty, Hc.
  - intros b. unfold clients_at at 1. cbn. rewrite put_entries_at. case_decide; [|apply Hc].
    unfold without. rewrite (filter_map_key token). apply NoDup_filter, Hc.
  - pose proof (wf_max_total c Hc). lia.
  - intros i. rewrite Hpm. pose proof (wf_max_ip c Hc i). case_decide; lia.
Qed.

(** A removal on a well-formed registry: it does not panic, it reports whether the client was
    there, it takes out that client and nobody else, and the counters stay exact. *)
Lemma registry_remove_spec c a t :
  wf_registry c →
  ∃ c', registry_remove c a t = Val (bool_decide (t ∈ token <$> clients_at c a), c') ∧
    wf_registry c' ∧
    (∀ b, clients_at c' b = if decide (a = b) then without t (clients_at c b)
                            else clients_at c b) ∧
    (t ∈ token <$> clients_at c a → S (total c') = total c ∧
      S (default 0 (per_ip c' !! ip a)) = default 0 (per_ip c !! ip a)).
Proof.
  intros Hc. pose proof (without_length c a t Hc) as Hlen.
  pose proof (λ pm n, registry_remove_wf c a t pm n Hc) as Hwf.
  destruct (wf_split c a Hc) as [Etotal Eip]. specialize (Eip (ip a)).
  rewrite decide_True in Eip by done. unfold registry_remove.
  assert (∀ pm n b, clients_at (mk_ClientRegistry
      (put_entries (by_addr c) a (without t (clients_at c a))) pm n) b =
    if decide (a = b) then without t (clients_at c b) else clients_at c b) as Hat.
  { intros pm n b. unfold clients_at at 1. cbn. rewrite put_entries_at.
    by destruct (decide (a = b)) as [<-|]. }
  destruct (by_addr c !! a) as [entries|] eqn:Ea.
  2: { assert (clients_at c a = []) as E0 by (unfold clients_at; by rewrite Ea).
       exists c. rewrite E0. split_and!; [done|done| |by intros ?%not_elem_of_nil].
       intros b. destruct (decide (a = b)) as [<-|]; [by rewrite E0|done]. }
  assert (clients_at c a = entries) as Ent by (unfold clients_at; by rewrite Ea).
  rewrite Ent in *. rewrite Hlen.
  destruct (decide (t ∈ token <$> entries)) as [Hin|Hin].
  - rewrite bool_decide_true by done.
    assert (1 ≤ length entries) by (destruct entries; [by apply not_elem_of_nil in Hin|cbn; lia]).
    destruct (Nat.eqb_spec (length entries - 1) (length entries)); [lia|].
    cbn [negb]. rewrite checked_sub_Val by lia. cbn [mbind exec_bind].
    destruct (per_ip c !! ip a) as [n0|] eqn:Ep; cbn in Eip; [|lia].
    cbn [unwrap mbind exec_bind]. rewrite checked_sub_Val by lia.
    eexists. split; [reflexivity|]. split_and!; [|apply Hat|].
    + apply Hwf; [done| |apply put_count_no_zero, Hc].
      intros i. rewrite put_count_at. case_decide; [|done]. subst i. by rewrite Ep.
    + intros _. cbn. rewrite put_count_at, decide_True by done. lia.
  - rewrite bool_decide_false by done. rewrite Nat.sub_0_r, Nat.eqb_refl. cbn [negb].
    eexists. split; [reflexivity|]. split_and!; [|apply Hat|done].
    apply Hwf; [lia| |apply Hc]. intros i. case_decide; lia.
Qed.

(** Setting a name changes no token, no count and no other client. *)
Lemma alter_first_tokens f t l :
  (∀ s, token (f s) = token s) →
  token <$> alter_first (λ client, matches (token client) t) f l = token <$> l.
Proof.
  intros Hf. induction l as [|x l IH]; [done|]. cbn.
  destruct (matches _ _); cbn; by rewrite ?Hf, ?IH.
Qed.

Lemma existsb_matches t l :
  existsb (λ client, matches (token client) t) l = bool_decide (t ∈ token <$> l).
Proof.
  apply eq_true_iff_eq. rewrite existsb_exists, bool_decide_eq_true, list_elem_of_fmap.
  unfold matches. split.
  - intros (s & Hs & <-%bool_decide_eq_true). exists s. by rewrite list_elem_of_In.
  - intros (s & -> & Hs). exists s. rewrite <-list_elem_of_In. by rewrite bool_decide_eq_true.
Qed.

Lemma msum_insert_same f c a l l' :
  by_addr c !! a = Some l → f a l' = f a l →
  msum f (<[a := l']> (by_addr c)) = msum f (by_addr c).
Proof.
  intros Ha Hf. rewrite msum_insert, Hf. symmetry. by apply msum_delete.
Qed.

Lemma registry_set_username_spec c a t name :
  wf_registry c →
  match registry_set_username c a t name with
  | Some c' => t ∈ token <$> clients_at c a ∧ wf_registry c' ∧
      per_ip c' = per_ip c ∧ total c' = total c ∧
      ∀ b, clients_at c' b = if decide (a = b) then
        alter_first (λ client, matches (token client) t)
          (λ client, mk_ClientSession (token client) (Some name)) (clients_at c b)
        else clients_at c b
  | None => t ∉ token <$> clients_at c a
  end.
Proof.
  intros Hc. unfold registry_set_username.
  destruct (by_addr c !! a) as [entries|] eqn:Ea; cbn.
  2: { unfold clients_at. rewrite Ea. by intros ?%not_elem_of_nil. }
  assert (clients_at c a = entries) as Ent by (unfold clients_at; by rewrite Ea).
  rewrite existsb_matches, Ent. case_bool_decide as Hin; [|done].
  set (entries' := alter_first _ _ entries).
  assert (length entries' = length entries) as Hlen by apply length_alter_first.
  assert (∀ b, clients_at (mk_ClientRegistry (<[a := entries']> (by_addr c)) (per_ip c)
    (total c)) b = if decide (a = b) then entries' else clients_at c b) as Hat.
  { intros b. unfold clients_at. cbn. case_decide; [subst; by rewrite lookup_insert_eq|].
    by rewrite lookup_insert_ne. }
  split_and!; [done| |done|done|].
  - split; cbn [total per_ip by_addr]; try apply Hc.
    + erewrite msum_insert_same; [apply Hc|done|done].
    + intros i. erewrite msum_insert_same; [apply Hc|done|]. unfold count_ip. by rewrite Hlen.
    + intros b l [[_ <-]|[_ ?]]%lookup_insert_Some; [|by eapply Hc].
      intros E. rewrite E in Hlen. pose proof (wf_no_empty c Hc a entries Ea).
      by destruct entries.
    + intros b. rewrite Hat. case_decide; [|apply Hc]. subst entries'.
      rewrite alter_first_tokens by done. rewrite <-Ent. apply Hc.
  - intros b. rewrite Hat. case_decide; [by subst|done].
Qed.

(** The names of the registry are bounded in number by its total. *)
Lemma registry_usernames_length `{HashOrder} c :
  wf_registry c → length (registry_usernames c) ≤ MAX_CONNECTIONS.
Proof.
  intros Hc. unfold registry_usernames.
  assert (∀ l : list ClientSession, length (omap username l) ≤ length l) as Homap.
  { induction l as [|x l IH]; cbn; [lia|]. destruct (username x); cbn; lia. }
  etrans; [apply Homap|]. etrans; [|apply (wf_max_total c Hc)]. rewrite (wf_total c Hc).
  assert (∀ k k' : list (SocketAddr * list ClientSession), k ≡ₚ k' →
    length (concat (map snd k)) = length (concat (map snd k'))) as Hperm.
  { induction 1; cbn; rewrite ?length_app; lia. }
  unfold hash_values. rewrite (Hperm _ _ (hash_iter_perm (by_addr c))). clear Hc.
  apply Nat.eq_le_incl. induction (by_addr c) as [|k v m Hk IH] using map_ind.
  - by rewrite map_to_list_empty, msum_empty.
  - rewrite msum_insert_fresh by done. rewrite (Hperm _ _ (map_to_list_insert m k v Hk)).
    cbn. rewrite length_app. lia.
Qed.

Lemma elem_of_registry_usernames `{HashOrder} c u :
  u ∈ registry_usernames c ↔ ∃ a s, s ∈ clients_at c a ∧ username s = Some u.
Proof.
  unfold registry_usernames. rewrite list_elem_of_omap. split.
  - intros (s & (a & l & Ha & Hs)%elem_of_hash_values & Hu). exists a, s.
    split; [|done]. unfold clients_at. by rewrite Ha.
  - intros (a & s & Hs & Hu). exists s. split; [|done]. apply elem_of_hash_values.
    unfold clients_at in Hs. destruct (by_addr c !! a) as [l|] eqn:Ea; [by exists a, l|].
    by apply not_elem_of_nil in Hs.
Qed.

Section usernames_ok.
Context (ok : str → Prop).

Lemma usernames_ok_push c a t : usernames_ok ok c → usernames_ok ok (registry_push c a t).
Proof.
  intros Hc b s u. unfold clients_at at 1. cbn. destruct (decide (a = b)) as [<-|Hne].
  - rewrite lookup_insert_eq. cbn. intros [Hs| ->%list_elem_of_singleton]%elem_of_app; [|done].
    by apply (Hc a).
  - rewrite lookup_insert_ne by done. by apply (Hc b).
Qed.

Lemma usernames_ok_remove c c' a t :
  (∀ b, clients_at c' b = if decide (a = b) then without t (clients_at c b)
                          else clients_at c b) →
  usernames_ok ok c → usernames_ok ok c'.
Proof.
  intros Hat Hc b s u. rewrite Hat. destruct (decide (a = b)); [|by apply (Hc b)].
  intros [_ Hs]%list_elem_of_filter. by apply (Hc b).
Qed.

Lemma usernames_ok_set c c' a t name :
  (∀ b, clients_at c' b = if decide (a = b) then
    alter_first (λ client, matches (token client) t)
      (λ client, mk_ClientSession (token client) (Some name)) (clients_at c b)
    else clients_at c b) →
  ok name → usernames_ok ok c → usernames_ok ok c'.
Proof.
  intros Hat Hn Hc b s u. rewrite Hat. destruct (decide (a = b)); [|by apply (Hc b)].
  intros Hs Hu. assert (s ∈ clients_at c b ∨ username s = Some name) as [Hs'|Hs'].
  - clear -Hs. induction (clients_at c b) as [|x l IH]; [by apply not_elem_of_nil in Hs|].
    cbn in Hs. destruct (matches _ _); apply elem_of_cons in Hs as [->|Hs].
    + by right.
    + left. by right.
    + left. by left.
    + destruct (IH Hs); [left; by right|by right].
  - by eapply Hc.
  - congruence.
Qed.
End usernames_ok.
