(* ===== verification/State.v ===== *)
(** The server's shared state ([crates/server/src/state.rs], [crates/server/src/delivery.rs]):
    the client registry, the delivery registry, the message history and the rate limiters,
    each behind its mutex, with every function that uses them.

    A function whose body is one critical section is an action [M]; a function made of
    several sections (broadcasting locks the deliveries and then, once per dropped client,
    the registry) is a program [tprog] of [Prog], whose sections other tasks may separate.
    Channels are shared objects: an identifier in a delivery, a state in [channels]. *)
From stdpp Require Import functions.
From S2P Require Import Prelude Utf8 Text Frame Presence Prog Net Config RateLimit Registry.

(** ** Data *)

Record ClientDelivery := mk_ClientDelivery {
  addr : SocketAddr;
  cd_token : ClientToken;
  writer : nat;                        (* a channel *)
  disconnect : option nat;             (* a watch channel *)
  ready : bool;
  pending_messages : list OutboundMessage }.

Record MessageHistory := mk_MessageHistory { entries : list str; limit : nat }.

Definition MESSAGE_HISTORY_LIMIT : nat := 100.
Definition PENDING_MESSAGES_LIMIT : nat := 128.
Definition OUTBOUND_QUEUE_SIZE : nat := MESSAGE_HISTORY_LIMIT + PENDING_MESSAGES_LIMIT.

Definition new_history (limit : nat) : MessageHistory := mk_MessageHistory [] limit.

Definition newline : char := chr 10.

(** [MessageHistory::record] *)
Definition record (h : MessageHistory) (message : str) : MessageHistory :=
  let es := entries h ++ [trim_end_matches newline message] in
  mk_MessageHistory (if limit h <? length es then tail es else es) (limit h).

(** [MessageHistory::snapshot] *)
Definition snapshot (h : MessageHistory) : list str := entries h.

(** The mutexes of [ServerState]; the replay barrier is the one of [Prog]. *)
Inductive Lock := ClientsLock | DeliveriesLock | HistoryLock | RateLimitsLock | AdmissionLock.

#[export] Instance Lock_eq_dec : EqDecision Lock.
Proof. solve_decision. Defined.

Section State.
Context `{HashOrder} `{Tokio}.

(** The sockets, and the admission control of the accept loop ([Admission]).  What has gone
    out on a socket is kept twice: the messages whose write succeeded, and every byte that
    went out, those of a write that failed half-way included.  [written], [wire] and [outlet]
    are read by no section: they are what the program does to the outside. *)
Record IO := mk_IO {
  streams : nat → stream;              (* what is still to be read from each connection *)
  written : nat → list OutboundMessage; (* the messages written to each connection *)
  wire : nat → list u8;                (* the bytes sent on each connection *)
  outlet : nat → option nat;           (* the connection a queue is drained to *)
  permits : semaphore;
  pending_per_ip : gmap IpAddr nat }.

Definition new_io : IO :=
  mk_IO (λ _, closed_stream) (λ _, []) (λ _, []) (λ _, None) (semaphore_new MAX_CONNECTIONS) ∅.

(** Everything the tasks share: [ServerState], the heap its handles point into, the clock. *)
Record World := mk_World {
  clients : ClientRegistry;
  deliveries : gmap SocketAddr (list ClientDelivery);
  history : MessageHistory;
  rate_limits : gmap IpAddr RateLimitState;
  poisoned : list Lock;
  next_id : nat;                       (* the next unused heap identity *)
  channels : nat → chan;
  watches : nat → watch;
  joined_flags : nat → bool;           (* the [AtomicBool]s of the connections *)
  clock : Instant;
  io : IO }.

(** [ServerState::new], with an empty heap. *)
Definition new_shared_state (now : Instant) : World :=
  mk_World empty_registry ∅ (new_history MESSAGE_HISTORY_LIMIT) ∅ [] 0
    (λ _, mpsc_channel OUTBOUND_QUEUE_SIZE) (λ _, watch_channel) (λ _, false) now new_io.

Definition set_clients (x : ClientRegistry) (w : World) : World :=
  mk_World x (deliveries w) (history w) (rate_limits w) (poisoned w) (next_id w)
    (channels w) (watches w) (joined_flags w) (clock w) (io w).
Definition set_deliveries (x : gmap SocketAddr (list ClientDelivery)) (w : World) : World :=
  mk_World (clients w) x (history w) (rate_limits w) (poisoned w) (next_id w)
    (channels w) (watches w) (joined_flags w) (clock w) (io w).
Definition set_history (x : MessageHistory) (w : World) : World :=
  mk_World (clients w) (deliveries w) x (rate_limits w) (poisoned w) (next_id w)
    (channels w) (watches w) (joined_flags w) (clock w) (io w).
Definition set_rate_limits (x : gmap IpAddr RateLimitState) (w : World) : World :=
  mk_World (clients w) (deliveries w) (history w) x (poisoned w) (next_id w)
    (channels w) (watches w) (joined_flags w) (clock w) (io w).
Definition set_poisoned (x : list Lock) (w : World) : World :=
  mk_World (clients w) (deliveries w) (history w) (rate_limits w) x (next_id w)
    (channels w) (watches w) (joined_flags w) (clock w) (io w).
Definition set_next_id (x : nat) (w : World) : World :=
  mk_World (clients w) (deliveries w) (history w) (rate_limits w) (poisoned w) x
    (channels w) (watches w) (joined_flags w) (clock w) (io w).
Definition set_channels (x : nat → chan) (w : World) : World :=
  mk_World (clients w) (deliveries w) (history w) (rate_limits w) (poisoned w) (next_id w)
    x (watches w) (joined_flags w) (clock w) (io w).
Definition set_watches (x : nat → watch) (w : World) : World :=
  mk_World (clients w) (deliveries w) (history w) (rate_limits w) (poisoned w) (next_id w)
    (channels w) x (joined_flags w) (clock w) (io w).
Definition set_joined_flag (i : nat) (x : bool) (w : World) : World :=
  mk_World (clients w) (deliveries w) (history w) (rate_limits w) (poisoned w) (next_id w)
    (channels w) (watches w) (<[i := x]> (joined_flags w)) (clock w) (io w).
Definition set_clock (x : Instant) (w : World) : World :=
  mk_World (clients w) (deliveries w) (history w) (rate_limits w) (poisoned w) (next_id w)
    (channels w) (watches w) (joined_flags w) x (io w).
Definition set_io (x : IO) (w : World) : World :=
  mk_World (clients w) (deliveries w) (history w) (rate_limits w) (poisoned w) (next_id w)
    (channels w) (watches w) (joined_flags w) (clock w) x.

(** ** Actions *)

Definition M (A : Type) : Type := World → outcome ServerError A * World.

#[export] Instance M_ret : MRet M := λ A a w, (Done (Ok a), w).
#[export] Instance M_bind : MBind M := λ A B k m w,
  match m w with
  | (Done (Ok a), w') => k a w'
  | (Done (Err e), w') => (Done (Err e), w')
  | (Panicking, w') => (Panicking, w')
  end.

Definition throw {A} (e : ServerError) : M A := λ w, (Done (Err e), w).
Definition panic {A} : M A := λ w, (Panicking, w).
Definition gets {A} (f : World → A) : M A := λ w, (Done (Ok (f w)), w).
Definition modify (f : World → World) : M unit := λ w, (Done (Ok tt), f w).
Definition from_exec {A} (x : exec A) : M A :=
  match x with Val a => mret a | Panic => panic end.

(** A scope that holds a mutex: an error when a panic has poisoned it; a panic inside
    poisons it. *)
Definition locking {A} (l : Lock) (body : M A) : M A := λ w,
  if decide (l ∈ poisoned w) then (Done (Err ClientStatePoisoned), w)
  else match body w with
       | (Panicking, w') => (Panicking, set_poisoned (l :: poisoned w') w')
       | r => r
       end.

(** Owned values dropped by an early return. *)
Definition on_error {A} (cleanup : M unit) (body : M A) : M A := λ w,
  match body w with
  | (Done (Err e), w') => (Done (Err e), snd (cleanup w'))
  | r => r
  end.

(** Heap objects. *)
Definition set_channel (i : nat) (x : chan) : M unit :=
  modify (λ w, set_channels (<[i := x]> (channels w)) w).
Definition set_watch (i : nat) (x : watch) : M unit :=
  modify (λ w, set_watches (<[i := x]> (watches w)) w).
Definition fresh_id : M nat :=
  i ← gets next_id; _ ← modify (set_next_id (S i)); mret i.
Definition new_channel : M nat :=
  i ← fresh_id; _ ← set_channel i (mpsc_channel OUTBOUND_QUEUE_SIZE); mret i.
Definition new_watch : M nat :=
  i ← fresh_id; _ ← set_watch i watch_channel; mret i.
Definition new_joined_flag : M nat :=
  i ← fresh_id; _ ← modify (set_joined_flag i false); mret i.
Definition ClientToken_new : M ClientToken := fresh_id.

Definition send_on (i : nat) (m : OutboundMessage) : M SendResult :=
  c ← gets channels;
  let '(r, c') := try_send (c i) m in
  _ ← set_channel i c'; mret r.
Definition is_closed_on (i : nat) : M bool := c ← gets channels; mret (chan_is_closed (c i)).
Definition recv_on (i : nat) : M RecvResult :=
  c ← gets channels;
  let '(r, c') := poll_recv (c i) in
  _ ← set_channel i c'; mret r.
Definition clone_writer (i : nat) : M unit :=
  c ← gets channels; set_channel i (clone_sender (c i)).
Definition drop_writer (i : nat) : M unit :=
  c ← gets channels; set_channel i (drop_sender (c i)).
Definition close_on (i : nat) : M unit :=
  c ← gets channels; set_channel i (drop_receiver (c i)).
Definition signal (i : nat) : M unit :=
  s ← gets watches; set_watch i (watch_send (s i)).

(** [for x in xs { f(x) }] inside a section. *)
Fixpoint for_in {A} (xs : list A) (f : A → M unit) : M unit :=
  match xs with [] => mret tt | x :: xs => _ ← f x; for_in xs f end.

(** ** Clients *)

Definition register_client_with_status (address : SocketAddr) (writer : nat)
    (disconnect : option nat) (ready : bool) : M ClientToken :=
  on_error (drop_writer writer) (
    locking ClientsLock (
      c ← gets clients;
      if limit_reached c address then throw ConnectionLimitReached
      else
        token ← ClientToken_new;
        locking DeliveriesLock (
          _ ← modify (set_clients (registry_push c address token));
          ds ← gets deliveries;
          _ ← modify (set_deliveries (<[address := default [] (ds !! address) ++
                [mk_ClientDelivery address token writer disconnect ready []]]> ds));
          mret token))).

Definition register_pending_client (address : SocketAddr) (writer disconnect : nat)
  : M ClientToken :=
  register_client_with_status address writer (Some disconnect) false.

(** Sends in order until one fails; the failed message and the rest are handed back. *)
Fixpoint send_all (writer : nat) (ms : list OutboundMessage)
  : M (option (ServerError * list OutboundMessage)) :=
  match ms with
  | [] => mret None
  | m :: ms =>
      r ← send_on writer m;
      match r with
      | Sent => send_all writer ms
      | QueueFull => mret (Some (OutboundQueueFull, m :: ms))
      | QueueClosed => mret (Some (OutboundWriterGone, m :: ms))
      end
  end.

Definition token_is (t : ClientToken) (d : ClientDelivery) : bool := matches (cd_token d) t.

Definition find_delivery (ds : gmap SocketAddr (list ClientDelivery)) (address : SocketAddr)
    (t : ClientToken) : option ClientDelivery :=
  ds !! address ≫= List.find (token_is t).

Definition set_pending (ms : list OutboundMessage) (d : ClientDelivery) : ClientDelivery :=
  mk_ClientDelivery (addr d) (cd_token d) (writer d) (disconnect d) (ready d) ms.
Definition set_ready (d : ClientDelivery) : ClientDelivery :=
  mk_ClientDelivery (addr d) (cd_token d) (writer d) (disconnect d) true (pending_messages d).

(** In-place update of the entry a lookup has found. *)
Definition update_delivery (address : SocketAddr) (t : ClientToken)
    (f : ClientDelivery → ClientDelivery) : M unit :=
  modify (λ w, set_deliveries (alter (alter_first (token_is t) f) address (deliveries w)) w).

Definition mark_client_ready (address : SocketAddr) (t : ClientToken) : M unit :=
  locking DeliveriesLock (
    ds ← gets deliveries;
    match find_delivery ds address t with
    | None => throw UnknownClient
    | Some client =>
        _ ← update_delivery address t (set_pending []);
        rest ← send_all (writer client) (pending_messages client);
        match rest with
        | Some (e, ms) => _ ← update_delivery address t (set_pending ms); throw e
        | None => update_delivery address t set_ready
        end
    end).

Definition set_client_username (address : SocketAddr) (t : ClientToken) (name : str)
  : M unit :=
  locking ClientsLock (
    c ← gets clients;
    match registry_set_username c address t name with
    | Some c' => modify (set_clients c')
    | None => throw UnknownClient
    end).

(** The delivery half of [remove_client_if_current]: the clients that leave are told to stop
    and their senders dropped. *)
Definition remove_delivery (address : SocketAddr) (t : ClientToken) : M unit :=
  locking DeliveriesLock (
    ds ← gets deliveries;
    match ds !! address with
    | None => mret tt
    | Some es =>
        let leaving := List.filter (token_is t) es in
        let es' := List.filter (λ d, negb (token_is t d)) es in
        _ ← for_in leaving (λ d,
              match disconnect d with Some s => signal s | None => mret tt end);
        _ ← for_in leaving (λ d, drop_writer (writer d));
        modify (set_deliveries (put_entries ds address es'))
    end).

Definition remove_client_if_current (address : SocketAddr) (t : ClientToken) : M bool :=
  locking ClientsLock (
    c ← gets clients;
    '(removed, c') ← from_exec (registry_remove c address t);
    _ ← modify (set_clients c');
    _ ← (if removed : bool then remove_delivery address t else mret tt);
    mret removed).

Definition usernames : M (list str) :=
  locking ClientsLock (c ← gets clients; mret (registry_usernames c)).

(** ** Rate limits *)

Definition allow_message (sender_addr : SocketAddr) : M unit :=
  locking RateLimitsLock (
    now ← gets clock;
    limits ← gets rate_limits;
    let '(r, limits') := allow limits (ip sender_addr) now in
    _ ← modify (set_rate_limits limits');
    match r with Ok _ => mret tt | Err e => throw e end).

Definition cleanup_section (now : Instant) : M unit :=
  locking RateLimitsLock (
    limits ← gets rate_limits; modify (set_rate_limits (cleanup limits now))).

(** ** History *)

Definition record_section (message : str) : M unit :=
  locking HistoryLock (modify (λ w, set_history (record (history w) message) w)).

Definition snapshot_section : M (list str) :=
  locking HistoryLock (h ← gets history; mret (snapshot h)).

(** The writer of a client, one sender cloned. *)
Definition writer_section (address : SocketAddr) (t : ClientToken) : M nat :=
  locking DeliveriesLock (
    ds ← gets deliveries;
    match find_delivery ds address t with
    | Some client => _ ← clone_writer (writer client); mret (writer client)
    | None => throw UnknownClient
    end).

(** ** Delivery *)

(** A client to be dropped, and why. *)
Definition Doomed : Type := SocketAddr * ClientToken * str.

Definition deliver_one (message : OutboundMessage) (exclude_addr : option SocketAddr)
    (client : ClientDelivery) : M (ClientDelivery * list Doomed) :=
  if bool_decide (exclude_addr = Some (addr client)) then mret (client, [])
  else if ready client then
    r ← send_on (writer client) message;
    mret (client,
      match r with
      | Sent => []
      | QueueFull => [(addr client, cd_token client, lit "outbound queue is full")]
      | QueueClosed => [(addr client, cd_token client, lit "outbound writer is gone")]
      end)
  else if PENDING_MESSAGES_LIMIT <=? length (pending_messages client) then
    mret (client, [(addr client, cd_token client, lit "pending queue is full")])
  else mret (set_pending (pending_messages client ++ [message]) client, []).

Fixpoint deliver_list (message : OutboundMessage) (exclude_addr : option SocketAddr)
    (l : list ClientDelivery) : M (list ClientDelivery * list Doomed) :=
  match l with
  | [] => mret ([], [])
  | client :: l =>
      '(client', d) ← deliver_one message exclude_addr client;
      '(l', ds) ← deliver_list message exclude_addr l;
      mret (client' :: l', d ++ ds)
  end.

(** The loop over [by_addr.values_mut().flatten()], in the map's iteration order. *)
Fixpoint deliver_entries (message : OutboundMessage) (exclude_addr : option SocketAddr)
    (es : list (SocketAddr * list ClientDelivery)) : M (list Doomed) :=
  match es with
  | [] => mret []
  | (a, l) :: es =>
      '(l', d) ← deliver_list message exclude_addr l;
      _ ← modify (λ w, set_deliveries (<[a := l']> (deliveries w)) w);
      ds ← deliver_entries message exclude_addr es;
      mret (d ++ ds)
  end.

Definition deliver (message : OutboundMessage) (exclude_addr : option SocketAddr)
  : M (list Doomed) :=
  locking DeliveriesLock (
    ds ← gets deliveries; deliver_entries message exclude_addr (hash_iter ds)).

(** The clients [prune_overloaded_clients] drops. *)
Definition overloaded (chans : nat → chan) (client : ClientDelivery) : bool :=
  if ready client then chan_is_closed (chans (writer client))
  else PENDING_MESSAGES_LIMIT <=? length (pending_messages client).

Definition overloaded_section : M (list (SocketAddr * ClientToken)) :=
  locking DeliveriesLock (
    ds ← gets deliveries;
    chans ← gets channels;
    mret (map (λ d, (addr d, cd_token d)) (List.filter (overloaded chans) (hash_values ds)))).

(** ** Programs *)

Section Programs.
Context {Q : Type → Type}.
Open Scope prog_scope.

Abbreviation program := (tprog World ServerError Q).

Definition done {A} (a : A) : program A := Ret (Ok a).
Definition fail {A} (e : ServerError) : program A := Ret (Err e).

(** The removals after a broadcast or a pruning pass; whether the client was still there is
    ignored, an error is not. *)
Definition remove_each (l : list (SocketAddr * ClientToken)) : program unit :=
  for_each l (λ '(address, t),
    _ ←? section (remove_client_if_current address t); done tt).

Definition broadcast (message : OutboundMessage) (exclude_addr : option SocketAddr)
  : program bool :=
  doomed ←? section (deliver message exclude_addr);
  _ ←? remove_each (map fst doomed);
  done (negb (is_empty doomed)).

Definition record_and_broadcast (message : str) (frame : OutboundMessage)
    (exclude_addr : option SocketAddr) : program bool :=
  with_barrier ClientStatePoisoned (
    _ ←? section (record_section message);
    broadcast frame exclude_addr).

Definition prune_overloaded_clients : program unit :=
  doomed ←? section overloaded_section;
  remove_each doomed.

Definition broadcast_presence : program unit :=
  _ ←? prune_overloaded_clients;
  users ←? section usernames;
  match encode_presence users with
  | Err _ => fail PresenceEncodingFailed
  | Ok frame => _ ←? broadcast frame None; done tt
  end.

(** [history_snapshot_unlocked]: two sections; the cloned sender is dropped when the second
    fails. *)
Definition history_snapshot_unlocked (address : SocketAddr) (t : ClientToken)
  : program (nat * list str) :=
  writer ←? section (writer_section address t);
  history ←? section (on_error (drop_writer writer) snapshot_section);
  done (writer, history).

Definition with_history_replay (address : SocketAddr) (t : ClientToken)
    (replay : nat → list str → program unit) : program unit :=
  with_barrier ClientStatePoisoned (
    '(writer, history) ←? history_snapshot_unlocked address t;
    replay writer history).

(** [cleanup_rate_limits]: the clock is read before the mutex is taken. *)
Definition cleanup_rate_limits : program unit :=
  now ←? section (gets clock);
  section (cleanup_section now).

End Programs.
End State.
