(* ===== verification/StateInv.v ===== *)
(** The invariant of the server's shared state, and what each critical section does in a state
    that satisfies it: it never panics, its result on every branch, and the invariant again. *)
From stdpp Require Import functions.
From S2P Require Import Prelude Utf8 Text Frame Presence Prog Net Config RateLimit Registry.
From S2P Require Import State.

Definition name_ok (u : str) : Prop := is_valid_username u = true ∧ blen u ≤ 32.

Definition deliveries_at (ds : gmap SocketAddr (list ClientDelivery)) (a : SocketAddr)
  : list ClientDelivery := default [] (ds !! a).

(** What holds of each delivery: it is filed under its address, its channel exists, its
    backlog is bounded, and a client that is ready has none. *)
Record delivery_ok (n : nat) (a : SocketAddr) (d : ClientDelivery) : Prop := {
  ok_addr : addr d = a;
  ok_writer : writer d < n;
  ok_bound : length (pending_messages d) ≤ PENDING_MESSAGES_LIMIT;
  ok_ready : ready d = true → pending_messages d = [] }.

Record deliveries_ok (n : nat) (c : ClientRegistry)
    (ds : gmap SocketAddr (list ClientDelivery)) : Prop := {
  ok_mirror a : cd_token <$> deliveries_at ds a = token <$> clients_at c a;
  ok_no_empty a l : ds !! a = Some l → l ≠ [];
  ok_each a : Forall (delivery_ok n a) (deliveries_at ds a);
  ok_writers : NoDup (writer <$> all_values ds) }.

(** A text that fits a frame. *)
Definition fits (text : str) : Prop := (zlen (as_bytes text) <= MAX_FRAME_PAYLOAD_BYTES)%Z.

Record history_ok (h : MessageHistory) : Prop := {
  ok_limit : limit h = MESSAGE_HISTORY_LIMIT;
  ok_entries : length (entries h) ≤ MESSAGE_HISTORY_LIMIT;
  ok_fits : Forall fits (entries h) }.

Section StateInv.
Context `{HashOrder} `{Tokio}.
Implicit Types (w : World) (ds : gmap SocketAddr (list ClientDelivery)).

Record Inv w : Prop := {
  inv_poisoned : poisoned w = [];
  inv_registry : wf_registry (clients w);
  inv_names : usernames_ok name_ok (clients w);
  inv_tokens a : Forall (λ t, t < next_id w) (token <$> clients_at (clients w) a);
  inv_deliveries : deliveries_ok (next_id w) (clients w) (deliveries w);
  inv_history : history_ok (history w);
  inv_limits : limiters_ok (rate_limits w);
  inv_pending_ip i n : pending_per_ip (io w) !! i = Some n →
    n ≠ 0 ∧ n ≤ MAX_CONNECTIONS_PER_IP }.

Lemma new_shared_state_inv now : Inv (new_shared_state now).
Proof.
  assert (∀ a, clients_at empty_registry a = []) as Hc.
  { intros a. unfold clients_at. cbn. by rewrite lookup_empty. }
  assert (∀ a, deliveries_at ∅ a = []) as Hd.
  { intros a. unfold deliveries_at. by rewrite lookup_empty. }
  split; cbn; [done|apply wf_empty| | | | |apply map_Forall_empty|done].
  - intros a s u Hs. rewrite Hc in Hs. by apply not_elem_of_nil in Hs.
  - intros a. rewrite Hc. constructor.
  - split; [intros a; by rewrite Hc, Hd|done|intros a; rewrite Hd; constructor|].
    unfold all_values. rewrite map_to_list_empty. constructor.
  - split; cbn; [done|lia|constructor].
Qed.

(** ** Rules for actions *)

Lemma M_bind_Ok {A B} (m : M A) (k : A → M B) w a w' :
  m w = (Done (Ok a), w') → (m ≫= k) w = k a w'.
Proof. intros E. unfold mbind, M_bind. by rewrite E. Qed.

Lemma M_bind_Err {A B} (m : M A) (k : A → M B) w e w' :
  m w = (Done (Err e), w') → (m ≫= k) w = (Done (Err e), w').
Proof. intros E. unfold mbind, M_bind. by rewrite E. Qed.

Lemma locking_Done {A} l (body : M A) w r w' :
  poisoned w = [] → body w = (Done r, w') → locking l body w = (Done r, w').
Proof.
  intros Hp E. unfold locking. rewrite Hp. rewrite decide_False by apply not_elem_of_nil.
  by rewrite E.
Qed.

Lemma on_error_Ok {A} cleanup (body : M A) w a w' :
  body w = (Done (Ok a), w') → on_error cleanup body w = (Done (Ok a), w').
Proof. intros E. unfold on_error. by rewrite E. Qed.

Lemma on_error_Err {A} cleanup (body : M A) w e w' :
  body w = (Done (Err e), w') → on_error cleanup body w = (Done (Err e), snd (cleanup w')).
Proof. intros E. unfold on_error. by rewrite E. Qed.

(** Only the heap changes: the channels and the watches. *)
Lemma Inv_heap w ch wa : Inv w → Inv (set_watches wa (set_channels ch w)).
Proof. intros []. by split. Qed.
Lemma Inv_channels w ch : Inv w → Inv (set_channels ch w).
Proof. intros []. by split. Qed.

Lemma set_channels_twice w ch ch' : set_channels ch' (set_channels ch w) = set_channels ch' w.
Proof. done. Qed.
Lemma set_channels_id w : set_channels (channels w) w = w.
Proof. by destruct w. Qed.

(** ** Sending *)

Definition sent (c : chan) (m : OutboundMessage) : chan := snd (try_send c m).

Lemma send_on_eq i m w :
  send_on i m w =
    (Done (Ok (fst (try_send (channels w i) m))),
     set_channels (<[i := sent (channels w i) m]> (channels w)) w).
Proof.
  unfold send_on, sent, mbind, M_bind, gets. cbn. by destruct (try_send _ _).
Qed.

Lemma fn_insert_eq {A} (f : nat → A) i x : (<[i := x]> f) i = x.
Proof. unfold insert, fn_insert. by rewrite decide_True. Qed.
Lemma fn_insert_ne {A} (f : nat → A) i j x : i ≠ j → (<[i := x]> f) j = f j.
Proof. intros. unfold insert, fn_insert. by rewrite decide_False. Qed.

(** [send_all] sends a prefix and hands back the rest; it touches one channel. *)
Lemma send_all_spec i ms w :
  ∃ ch sent_ms rest,
    ms = sent_ms ++ rest ∧
    send_all i ms w =
      (Done (Ok (match rest with [] => None | m :: _ => Some (
        match fst (try_send (foldl sent (channels w i) sent_ms) m) with
        | QueueFull => OutboundQueueFull | _ => OutboundWriterGone end, rest) end)),
       set_channels ch w) ∧
    ch i = foldl sent (channels w i) (sent_ms ++ take 1 rest) ∧
    (∀ j, i ≠ j → ch j = channels w j) ∧
    (∀ p m s, sent_ms = p ++ m :: s → fst (try_send (foldl sent (channels w i) p) m) = Sent) ∧
    match rest with
    | [] => True
    | m :: _ => fst (try_send (foldl sent (channels w i) sent_ms) m) ≠ Sent
    end.
Proof.
  revert w. induction ms as [|m ms IH]; intros w.
  - exists (channels w), [], []. split_and!; try done; [by destruct w|by intros []].
  - cbn [send_all]. rewrite (M_bind_Ok _ _ _ _ _ (send_on_eq i m w)).
    destruct (fst (try_send (channels w i) m)) eqn:Es.
    2,3: exists (<[i := sent (channels w i) m]> (channels w)), [], (m :: ms);
      cbn; rewrite Es; split_and!; try done;
      [apply fn_insert_eq|intros j; apply fn_insert_ne|by intros []].
    destruct (IH (set_channels (<[i := sent (channels w i) m]> (channels w)) w))
      as (ch & p & rest & -> & E & Ei & Ej & Hsent & Hrest).
    cbn [channels set_channels] in *. rewrite fn_insert_eq in *.
    exists ch, (m :: p), rest. rewrite E. split_and!; try done.
    + intros j Hj. rewrite Ej by done. by apply fn_insert_ne.
    + intros [|m' q] m2 s [= <- Hq]; cbn; [done|]. by eapply Hsent.
Qed.

(** ** Delivering a frame *)

Section Deliver.
Context (m : OutboundMessage) (exclude : option SocketAddr).

(** A client the frame is sent to right away. *)
Definition gets_frame (d : ClientDelivery) : bool :=
  negb (bool_decide (exclude = Some (addr d))) && ready d.

(** The client afterwards. *)
Definition after (d : ClientDelivery) : ClientDelivery :=
  if bool_decide (exclude = Some (addr d)) || ready d
    || (PENDING_MESSAGES_LIMIT <=? length (pending_messages d)) then d
  else set_pending (pending_messages d ++ [m]) d.

(** Whether it is dropped, and the logged reason. *)
Definition doom (ch : nat → chan) (d : ClientDelivery) : list Doomed :=
  if bool_decide (exclude = Some (addr d)) then []
  else if ready d then
    match fst (try_send (ch (writer d)) m) with
    | Sent => []
    | QueueFull => [(addr d, cd_token d, lit "outbound queue is full")]
    | QueueClosed => [(addr d, cd_token d, lit "outbound writer is gone")]
    end
  else if PENDING_MESSAGES_LIMIT <=? length (pending_messages d) then
    [(addr d, cd_token d, lit "pending queue is full")]
  else [].

Definition after_send (ch : nat → chan) (d : ClientDelivery) : nat → chan :=
  if gets_frame d then <[writer d := sent (ch (writer d)) m]> ch else ch.
Definition after_sends (ch : nat → chan) (l : list ClientDelivery) : nat → chan :=
  foldl after_send ch l.

Lemma deliver_one_eq d w :
  deliver_one m exclude d w =
    (Done (Ok (after d, doom (channels w) d)), set_channels (after_send (channels w) d) w).
Proof.
  unfold deliver_one, after, doom, after_send, gets_frame.
  destruct (bool_decide (exclude = Some (addr d))); cbn [orb negb andb];
    [by rewrite set_channels_id|].
  destruct (ready d); cbn [orb]; [by rewrite (M_bind_Ok _ _ _ _ _ (send_on_eq _ _ _))|].
  destruct (_ <=? _); by rewrite set_channels_id.
Qed.

Lemma after_send_ne ch d i : writer d ≠ i → after_send ch d i = ch i.
Proof. intros Hi. unfold after_send. destruct (gets_frame d); [by apply fn_insert_ne|done]. Qed.

Lemma after_sends_ne ch l i : i ∉ writer <$> l → after_sends ch l i = ch i.
Proof.
  unfold after_sends. revert ch. induction l as [|d l IH]; intros ch Hi; [done|]. cbn.
  rewrite fmap_cons, not_elem_of_cons in Hi. destruct Hi as [Hd Hl].
  rewrite IH by done. by apply after_send_ne.
Qed.

(** With distinct writers each channel gets the frame at most once. *)
Lemma after_sends_at ch l d :
  NoDup (writer <$> l) → d ∈ l →
  after_sends ch l (writer d) =
    if gets_frame d then sent (ch (writer d)) m else ch (writer d).
Proof.
  unfold after_sends. revert ch. induction l as [|d' l IH]; intros ch Hnd Hd.
  { by apply not_elem_of_nil in Hd. }
  rewrite fmap_cons in Hnd. apply NoDup_cons in Hnd as [Hd' Hnd]. cbn.
  apply elem_of_cons in Hd as [->|Hd].
  - fold (after_sends (after_send ch d') l). rewrite after_sends_ne by done.
    unfold after_send. destruct (gets_frame d'); [|done]. by rewrite fn_insert_eq.
  - rewrite IH by done. rewrite after_send_ne; [done|].
    intros Heq. apply Hd'. rewrite Heq. by apply list_elem_of_fmap_2.
Qed.

Lemma doom_ext ch ch' d : ch (writer d) = ch' (writer d) → doom ch d = doom ch' d.
Proof. intros E. unfold doom. by rewrite E. Qed.

Lemma doom_after_sends ch l k :
  NoDup (writer <$> l ++ k) →
  concat (map (doom (after_sends ch l)) k) = concat (map (doom ch) k).
Proof.
  rewrite fmap_app. intros (_ & Hdis & _)%NoDup_app. f_equal. apply map_ext_in.
  intros d Hd%list_elem_of_In. apply doom_ext, after_sends_ne.
  intros Hin. by apply (Hdis _ Hin), list_elem_of_fmap_2.
Qed.

Lemma deliver_list_eq l w :
  NoDup (writer <$> l) →
  deliver_list m exclude l w =
    (Done (Ok (map after l, concat (map (doom (channels w)) l))),
     set_channels (after_sends (channels w) l) w).
Proof.
  revert w. induction l as [|d l IH]; intros w Hnd; [by cbn; rewrite set_channels_id|].
  pose proof (doom_after_sends (channels w) [d] l Hnd) as Hdoom. cbn [after_sends foldl] in Hdoom.
  rewrite fmap_cons in Hnd. apply NoDup_cons in Hnd as [_ Hnd].
  cbn [deliver_list]. rewrite (M_bind_Ok _ _ _ _ _ (deliver_one_eq d w)).
  rewrite (M_bind_Ok _ _ _ _ _ (IH _ Hnd)). cbn [channels set_channels map concat].
  by rewrite Hdoom.
Qed.

Definition put_after (ds : gmap SocketAddr (list ClientDelivery))
    (es : list (SocketAddr * list ClientDelivery)) : gmap SocketAddr (list ClientDelivery) :=
  foldl (λ ds '(a, l), <[a := map after l]> ds) ds es.

Lemma deliver_entries_eq es w :
  NoDup (writer <$> concat es.*2) →
  deliver_entries m exclude es w =
    (Done (Ok (concat (map (doom (channels w)) (concat es.*2)))),
     set_deliveries (put_after (deliveries w) es)
       (set_channels (after_sends (channels w) (concat es.*2)) w)).
Proof.
  revert w. induction es as [|[a l] es IH]; intros w Hnd; [by destruct w|].
  cbn [fmap list_fmap snd concat] in Hnd.
  pose proof (doom_after_sends (channels w) l (concat es.*2) Hnd) as Hdoom.
  rewrite fmap_app in Hnd. apply NoDup_app in Hnd as (Hl & _ & Hes).
  cbn [deliver_entries]. rewrite (M_bind_Ok _ _ _ _ _ (deliver_list_eq l w Hl)).
  unfold modify. erewrite M_bind_Ok by reflexivity. erewrite M_bind_Ok by (by apply IH).
  cbn [channels set_channels set_deliveries deliveries fmap list_fmap snd concat].
  rewrite map_app, concat_app, Hdoom. unfold after_sends. by rewrite foldl_app.
Qed.

Lemma put_after_lookup ds es a :
  NoDup es.*1 →
  put_after ds es !! a =
    match (list_to_map es : gmap _ _) !! a with Some l => Some (map after l) | None => ds !! a end.
Proof.
  unfold put_after. revert ds. induction es as [|[b l] es IH]; intros ds Hnd; [done|].
  rewrite fmap_cons in Hnd. apply NoDup_cons in Hnd as [Hb Hnd]. cbn [foldl list_to_map foldr].
  rewrite IH by done. cbn. destruct (decide (b = a)) as [->|Hne].
  - rewrite !lookup_insert_eq. rewrite not_elem_of_list_to_map_1 by done. done.
  - rewrite !lookup_insert_ne by done. done.
Qed.

(** The section of [broadcast]: every delivery is treated once, whatever the order. *)
Lemma deliver_eq w :
  Inv w →
  deliver m exclude w =
    (Done (Ok (concat (map (doom (channels w)) (hash_values (deliveries w))))),
     set_deliveries (map after <$> deliveries w)
       (set_channels (after_sends (channels w) (hash_values (deliveries w))) w)).
Proof.
  intros Hw. unfold deliver. apply locking_Done; [apply Hw|].
  unfold gets. erewrite M_bind_Ok by reflexivity. rewrite deliver_entries_eq.
  - repeat f_equal. apply map_eq. intros a.
    rewrite put_after_lookup, lookup_fmap by apply hash_iter_NoDup.
    destruct (deliveries w !! a) as [l|] eqn:Ha; cbn.
    + erewrite elem_of_list_to_map_1; [done|apply hash_iter_NoDup|].
      by apply elem_of_hash_iter.
    + rewrite not_elem_of_list_to_map_1; [done|].
      intros ([b l] & -> & Hl)%list_elem_of_fmap. apply elem_of_hash_iter in Hl. cbn in *.
      congruence.
  - change (NoDup (writer <$> hash_values (deliveries w))). rewrite hash_values_perm.
    apply Hw.
Qed.
End Deliver.

(** ** The invariant of the deliveries *)

Lemma after_ok m ex n a d : delivery_ok n a d → delivery_ok n a (after m ex d).
Proof.
  intros Hd. unfold after.
  destruct (bool_decide _); [done|]. destruct (ready d) eqn:Er; [done|].
  cbn [orb]. destruct (Nat.leb_spec PENDING_MESSAGES_LIMIT (length (pending_messages d)));
    [done|].
  destruct Hd as [? ? ? ?]. split; cbn; [done|done|rewrite length_app; cbn; lia|congruence].
Qed.

Lemma after_fields m ex d :
  cd_token (after m ex d) = cd_token d ∧ writer (after m ex d) = writer d.
Proof. unfold after. by destruct (_ || _). Qed.

(** Updating the deliveries of an address without changing who they are. *)
Lemma deliveries_ok_update n c ds a l :
  deliveries_ok n c ds →
  cd_token <$> l = cd_token <$> deliveries_at ds a →
  writer <$> l = writer <$> deliveries_at ds a →
  Forall (delivery_ok n a) l → l ≠ [] →
  deliveries_ok n c (<[a := l]> ds).
Proof.
  intros Hds Htok Hwr Hok Hne.
  assert (∀ b, deliveries_at (<[a := l]> ds) b = if decide (a = b) then l
    else deliveries_at ds b) as Hat.
  { intros b. unfold deliveries_at. destruct (decide (a = b)) as [<-|Hb].
    - by rewrite lookup_insert_eq.
    - by rewrite lookup_insert_ne. }
  split.
  - intros b. rewrite Hat. destruct (decide (a = b)) as [<-|]; [rewrite Htok|]; apply Hds.
  - intros b k [[_ <-]|[_ ?]]%lookup_insert_Some; [done|]. by eapply Hds.
  - intros b. rewrite Hat. destruct (decide (a = b)) as [<-|]; [done|apply Hds].
  - rewrite all_values_insert, fmap_app, Hwr, <-fmap_app. unfold deliveries_at.
    rewrite <-all_values_split. apply Hds.
Qed.

Lemma deliveries_at_fmap f ds a :
  deliveries_at (map f <$> ds) a = map f (deliveries_at ds a).
Proof. unfold deliveries_at. rewrite lookup_fmap. by destruct (ds !! a). Qed.

Lemma all_values_fmap (f : ClientDelivery → ClientDelivery) ds :
  all_values (map f <$> ds) = map f (all_values ds).
Proof.
  unfold all_values. rewrite map_to_list_fmap. induction (map_to_list ds) as [|[k l] es IH];
    [done|]. cbn in *. by rewrite IH, map_app.
Qed.

Lemma deliveries_ok_map n c f ds :
  (∀ d, cd_token (f d) = cd_token d ∧ writer (f d) = writer d) →
  (∀ a d, delivery_ok n a d → delivery_ok n a (f d)) →
  deliveries_ok n c ds → deliveries_ok n c (map f <$> ds).
Proof.
  intros Hf Hok Hds.
  assert (∀ l, cd_token <$> map f l = cd_token <$> l) as Ht.
  { intros l. induction l as [|d l IH]; [done|]. cbn. by rewrite (proj1 (Hf d)), IH. }
  assert (∀ l, writer <$> map f l = writer <$> l) as Hw.
  { intros l. induction l as [|d l IH]; [done|]. cbn. by rewrite (proj2 (Hf d)), IH. }
  split.
  - intros a. rewrite deliveries_at_fmap, Ht. apply Hds.
  - intros a l. rewrite lookup_fmap. destruct (ds !! a) as [k|] eqn:E; [|done].
    intros [= <-]. pose proof (ok_no_empty _ _ _ Hds a k E). by destruct k.
  - intros a. rewrite deliveries_at_fmap. apply Forall_map.
    eapply Forall_impl; [apply Hds|]. intros d. apply Hok.
  - rewrite all_values_fmap, Hw. apply Hds.
Qed.

Lemma deliver_spec m ex w :
  Inv w → ∃ doomed w', deliver m ex w = (Done (Ok doomed), w') ∧ Inv w'.
Proof.
  intros Hw. do 2 eexists. split; [by apply deliver_eq|].
  destruct Hw. split; try done.
  apply deliveries_ok_map; [apply after_fields|intros a d; apply after_ok|done].
Qed.

(** ** Registration *)

Lemma elem_of_all_at ds a d : d ∈ deliveries_at ds a → d ∈ all_values ds.
Proof.
  unfold deliveries_at. destruct (ds !! a) as [l|] eqn:Ea; [|by intros ?%not_elem_of_nil].
  intros Hd. apply elem_of_all_values. eauto.
Qed.

Lemma delivery_ok_mono n n' a d : n ≤ n' → delivery_ok n a d → delivery_ok n' a d.
Proof. intros Hn []. split; try done. lia. Qed.

Lemma deliveries_ok_mono n n' c ds : n ≤ n' → deliveries_ok n c ds → deliveries_ok n' c ds.
Proof.
  intros Hn Hds. split; try apply Hds. intros a. eapply Forall_impl; [apply Hds|].
  intros d. by apply delivery_ok_mono.
Qed.

(** A new identity, for an object nobody shares yet. *)
Lemma Inv_next_id w n : next_id w ≤ n → Inv w → Inv (set_next_id n w).
Proof.
  intros Hn Hw. pose proof Hw as []. split; try done.
  - intros a. eapply Forall_impl; [done|]. cbn. lia.
  - by eapply deliveries_ok_mono.
Qed.

Lemma deliveries_ok_push n c ds a t wr dis r :
  deliveries_ok n c ds → wr < n → wr ∉ writer <$> all_values ds →
  deliveries_ok n (registry_push c a t)
    (<[a := default [] (ds !! a) ++ [mk_ClientDelivery a t wr dis r []]]> ds).
Proof.
  intros Hds Hwr Hfresh. fold (deliveries_at ds a).
  set (d := mk_ClientDelivery a t wr dis r []).
  assert (∀ b, deliveries_at (<[a := deliveries_at ds a ++ [d]]> ds) b =
    if decide (a = b) then deliveries_at ds b ++ [d] else deliveries_at ds b) as Hat.
  { intros b. unfold deliveries_at. destruct (decide (a = b)) as [<-|Hb].
    - by rewrite lookup_insert_eq.
    - by rewrite lookup_insert_ne. }
  split.
  - intros b. rewrite Hat. unfold clients_at. cbn. destruct (decide (a = b)) as [<-|Hb].
    + rewrite lookup_insert_eq, fmap_app, (ok_mirror _ _ _ Hds). cbn. by rewrite fmap_app.
    + rewrite lookup_insert_ne by done. apply Hds.
  - intros b l [[_ <-]|[_ ?]]%lookup_insert_Some; [|by eapply Hds].
    by destruct (deliveries_at ds a).
  - intros b. rewrite Hat. destruct (decide (a = b)) as [<-|]; [|apply Hds].
    apply Forall_app. split; [apply Hds|]. constructor; [|done].
    split; cbn; try done. unfold PENDING_MESSAGES_LIMIT. lia.
  - rewrite all_values_insert, <-(assoc_L (++)), (Permutation_app_comm [d]), (assoc_L (++)).
    unfold deliveries_at. rewrite <-all_values_split, fmap_app. apply NoDup_app.
    split_and!; [apply Hds| |apply NoDup_singleton].
    intros x Hx ->%list_elem_of_singleton. done.
Qed.

Lemma drop_writer_eq i w :
  drop_writer i w =
    (Done (Ok tt), set_channels (<[i := drop_sender (channels w i)]> (channels w)) w).
Proof. done. Qed.

Lemma register_spec a wr dis r w :
  Inv w → wr < next_id w → wr ∉ writer <$> all_values (deliveries w) →
  register_client_with_status a wr dis r w =
    if limit_reached (clients w) a then
      (Done (Err ConnectionLimitReached), snd (drop_writer wr w))
    else
      (Done (Ok (next_id w)),
       set_deliveries (<[a := default [] (deliveries w !! a) ++
           [mk_ClientDelivery a (next_id w) wr dis r []]]> (deliveries w))
         (set_clients (registry_push (clients w) a (next_id w))
           (set_next_id (S (next_id w)) w))).
Proof.
  intros Hw _ _. unfold register_client_with_status.
  destruct (limit_reached (clients w) a) eqn:El.
  - apply on_error_Err, locking_Done; [apply Hw|].
    unfold gets. erewrite M_bind_Ok by reflexivity. by rewrite El.
  - apply on_error_Ok, locking_Done; [apply Hw|].
    unfold gets at 1. erewrite M_bind_Ok by reflexivity. rewrite El.
    unfold ClientToken_new, fresh_id. erewrite M_bind_Ok by reflexivity.
    apply locking_Done; [apply Hw|]. done.
Qed.

Lemma registry_tokens_lt n c a t :
  (∀ b, Forall (λ t, t < n) (token <$> clients_at c b)) → t < n →
  ∀ b, Forall (λ t, t < n) (token <$> clients_at (registry_push c a t) b).
Proof.
  intros Hc Ht b. unfold clients_at at 1. cbn. destruct (decide (a = b)) as [<-|Hb].
  - rewrite lookup_insert_eq. cbn. rewrite fmap_app. apply Forall_app. split; [apply Hc|].
    by constructor.
  - rewrite lookup_insert_ne by done. apply Hc.
Qed.

Lemma register_inv a wr dis r w :
  Inv w → wr < next_id w → wr ∉ writer <$> all_values (deliveries w) →
  ∃ res w', register_client_with_status a wr dis r w = (Done res, w') ∧ Inv w'.
Proof.
  intros Hw Hwr Hfresh. rewrite register_spec by done.
  destruct (limit_reached (clients w) a) eqn:El; do 2 eexists; (split; [reflexivity|]).
  - by apply Inv_channels.
  - assert (Inv (set_next_id (S (next_id w)) w)) as Hw' by (apply Inv_next_id; [lia|done]).
    pose proof (inv_tokens w Hw a) as Htok. destruct Hw'. split; try done; cbn.
    + apply registry_push_wf; [done|done|]. rewrite Forall_forall in Htok.
      intros Hin. specialize (Htok _ Hin). cbn in Htok. lia.
    + by apply usernames_ok_push.
    + apply registry_tokens_lt; [done|]. cbn. lia.
    + apply deliveries_ok_push; [done|cbn; lia|done].
Qed.

(** ** Removal *)

Lemma for_in_watches l w (f : ClientDelivery → option nat) :
  for_in l (λ d, match f d with Some s => signal s | None => mret tt end) w =
    (Done (Ok tt), set_watches (foldl (λ wa d,
       match f d with Some s => <[s := watch_send (wa s)]> wa | None => wa end)
       (watches w) l) w).
Proof.
  revert w. induction l as [|d l IH]; intros w; [by destruct w|]. cbn [for_in foldl].
  destruct (f d) as [s|]; (erewrite M_bind_Ok by reflexivity); by rewrite IH.
Qed.

Lemma for_in_drop l w :
  for_in l (λ d, drop_writer (writer d)) w =
    (Done (Ok tt), set_channels (foldl (λ ch d,
       <[writer d := drop_sender (ch (writer d))]> ch) (channels w) l) w).
Proof.
  revert w. induction l as [|d l IH]; intros w; [by destruct w|]. cbn [for_in foldl].
  erewrite M_bind_Ok by reflexivity. by rewrite IH.
Qed.

Definition leaving (t : ClientToken) (l : list ClientDelivery) : list ClientDelivery :=
  List.filter (token_is t) l.
Definition staying (t : ClientToken) (l : list ClientDelivery) : list ClientDelivery :=
  List.filter (λ d, negb (token_is t d)) l.

Definition signalled (wa : nat → watch) (l : list ClientDelivery) : nat → watch :=
  foldl (λ wa d, match disconnect d with Some s => <[s := watch_send (wa s)]> wa | None => wa end)
    wa l.
Definition dropped (ch : nat → chan) (l : list ClientDelivery) : nat → chan :=
  foldl (λ ch d, <[writer d := drop_sender (ch (writer d))]> ch) ch l.

Lemma remove_delivery_eq a t w :
  poisoned w = [] →
  remove_delivery a t w = (Done (Ok tt),
    match deliveries w !! a with
    | None => w
    | Some es => set_deliveries (put_entries (deliveries w) a (staying t es))
        (set_channels (dropped (channels w) (leaving t es))
          (set_watches (signalled (watches w) (leaving t es)) w))
    end).
Proof.
  intros Hp. unfold remove_delivery. apply locking_Done; [done|].
  unfold gets. erewrite M_bind_Ok by reflexivity.
  destruct (deliveries w !! a) as [es|]; [|done].
  erewrite M_bind_Ok by apply for_in_watches. erewrite M_bind_Ok by apply for_in_drop. done.
Qed.

Lemma filter_tokens t (l : list ClientDelivery) :
  cd_token <$> staying t l = filter (λ t', t' ≠ t) (cd_token <$> l).
Proof.
  unfold staying, token_is, matches. induction l as [|d l IH]; [done|].
  rewrite fmap_cons, filter_cons. cbn. case_bool_decide as Ht; cbn; rewrite IH.
  - by rewrite decide_False by (intros Hn; by apply Hn).
  - by rewrite decide_True by done.
Qed.

Lemma staying_sublist t l : staying t l `sublist_of` l.
Proof.
  unfold staying. induction l as [|d l IH]; [done|]. cbn.
  destruct (negb _); by constructor.
Qed.

Lemma sublist_fmap {A B} (f : A → B) (l k : list A) :
  l `sublist_of` k → (f <$> l) `sublist_of` (f <$> k).
Proof. induction 1; cbn; by constructor. Qed.

Lemma deliveries_at_put ds a l b :
  deliveries_at (put_entries ds a l) b = if decide (a = b) then l else deliveries_at ds b.
Proof. apply put_entries_at. Qed.

Lemma all_values_put ds a l : all_values (put_entries ds a l) ≡ₚ l ++ all_values (delete a ds).
Proof.
  unfold put_entries. destruct (decide (l = [])) as [->|]; [done|]. apply all_values_insert.
Qed.

Lemma deliveries_ok_remove n c c' ds a t :
  deliveries_ok n c ds →
  (∀ b, clients_at c' b = if decide (a = b) then without t (clients_at c b)
                          else clients_at c b) →
  deliveries_ok n c' (put_entries ds a (staying t (deliveries_at ds a))).
Proof.
  intros Hds Hat. pose proof (staying_sublist t (deliveries_at ds a)) as Hsub. split.
  - intros b. rewrite deliveries_at_put, Hat. destruct (decide (a = b)) as [<-|]; [|apply Hds].
    rewrite filter_tokens, (ok_mirror _ _ _ Hds). symmetry. apply (filter_map_key token).
  - apply put_entries_no_empty, Hds.
  - intros b. rewrite deliveries_at_put. destruct (decide (a = b)) as [<-|]; [|apply Hds].
    apply Forall_forall. intros d Hd. pose proof (ok_each _ _ _ Hds a) as Hall.
    rewrite Forall_forall in Hall. apply Hall.
    by eapply elem_of_sublist.
  - rewrite all_values_put.
    assert (NoDup (writer <$> deliveries_at ds a ++ all_values (delete a ds))) as Hnd.
    { unfold deliveries_at. rewrite <-all_values_split. apply Hds. }
    eapply sublist_NoDup; [exact Hnd|]. apply sublist_fmap. by apply sublist_app.
Qed.

Lemma staying_absent t l : t ∉ cd_token <$> l → staying t l = l.
Proof.
  unfold staying, token_is, matches. induction l as [|d l IH]; [done|].
  rewrite fmap_cons, not_elem_of_cons. intros [Hd1 Hl1]. cbn.
  rewrite bool_decide_false by congruence. cbn. by rewrite IH.
Qed.

Lemma put_entries_id n c ds a :
  deliveries_ok n c ds → put_entries ds a (deliveries_at ds a) = ds.
Proof.
  intros Hd. unfold put_entries, deliveries_at. destruct (ds !! a) as [l|] eqn:El; cbn.
  - pose proof (ok_no_empty _ _ _ Hd a l El). rewrite decide_False by done.
    by apply insert_id.
  - by apply delete_id.
Qed.

Lemma tokens_lt_remove n c c' a t :
  (∀ b, clients_at c' b = if decide (a = b) then without t (clients_at c b)
                          else clients_at c b) →
  (∀ b, Forall (λ t, t < n) (token <$> clients_at c b)) →
  ∀ b, Forall (λ t, t < n) (token <$> clients_at c' b).
Proof.
  intros Hat Ht b. rewrite Hat. destruct (decide (a = b)); [|done].
  unfold without. rewrite (filter_map_key token). apply Forall_forall.
  intros x [_ Hx]%list_elem_of_filter. pose proof (Ht b) as Hb. rewrite Forall_forall in Hb.
  by apply Hb.
Qed.

(** The world after a removal. *)
Definition removed_world (a : SocketAddr) (t : ClientToken) (c' : ClientRegistry) w : World :=
  set_deliveries (put_entries (deliveries w) a (staying t (deliveries_at (deliveries w) a)))
    (set_channels (dropped (channels w) (leaving t (deliveries_at (deliveries w) a)))
      (set_watches (signalled (watches w) (leaving t (deliveries_at (deliveries w) a)))
        (set_clients c' w))).

Lemma Inv_removed a t c' w :
  Inv w → wf_registry c' →
  (∀ b, clients_at c' b = if decide (a = b) then without t (clients_at (clients w) b)
                          else clients_at (clients w) b) →
  Inv (removed_world a t c' w).
Proof.
  intros [Hp Hreg Hn Ht Hd Hh Hl Hpi] Hwf Hat. split; try done; cbn.
  - by eapply usernames_ok_remove.
  - by eapply tokens_lt_remove.
  - by eapply deliveries_ok_remove.
Qed.

(** Someone who is not there has nothing to give back. *)
Lemma leaving_absent t l : t ∉ cd_token <$> l → leaving t l = [].
Proof.
  unfold leaving, token_is, matches. induction l as [|d l IH]; [done|].
  rewrite fmap_cons, not_elem_of_cons. intros [Hd1 Hl1]. cbn.
  rewrite bool_decide_false by congruence. by apply IH.
Qed.

Lemma removed_world_absent a t c' w :
  Inv w → t ∉ token <$> clients_at (clients w) a → removed_world a t c' w = set_clients c' w.
Proof.
  intros Hw Ht. rewrite <-(ok_mirror _ _ _ (inv_deliveries w Hw)) in Ht.
  unfold removed_world. rewrite staying_absent, leaving_absent by done.
  rewrite (put_entries_id _ _ _ _ (inv_deliveries w Hw)). by destruct w.
Qed.

(** [remove_client_if_current] in a state that satisfies the invariant. *)
Lemma remove_client_spec a t w :
  Inv w →
  let there := bool_decide (t ∈ token <$> clients_at (clients w) a) in
  ∃ c',
    remove_client_if_current a t w = (Done (Ok there), removed_world a t c' w) ∧
    Inv (removed_world a t c' w) ∧
    (∀ b, clients_at c' b = if decide (a = b) then without t (clients_at (clients w) b)
                            else clients_at (clients w) b) ∧
    (there = true → S (total c') = total (clients w) ∧
      S (default 0 (per_ip c' !! ip a)) = default 0 (per_ip (clients w) !! ip a)).
Proof.
  intros Hw there. pose proof Hw as [Hp Hreg _ _ Hd _ _ _].
  destruct (registry_remove_spec (clients w) a t Hreg) as (c' & E & Hwf & Hat & Hcnt).
  exists c'. fold there in E. split_and!; [|by apply Inv_removed|done|].
  2: { intros Ht. apply Hcnt. by apply bool_decide_eq_true in Ht. }
  apply locking_Done; [done|]. unfold gets. erewrite M_bind_Ok by reflexivity.
  rewrite E. cbn [from_exec]. do 2 (erewrite M_bind_Ok by reflexivity; cbn beta iota).
  destruct there eqn:Et; subst there.
  - apply bool_decide_eq_true in Et. erewrite M_bind_Ok by (apply remove_delivery_eq; exact Hp).
    rewrite <-(ok_mirror _ _ _ Hd a) in Et. cbn [set_clients deliveries channels watches].
    unfold removed_world, deliveries_at in *.
    destruct (deliveries w !! a); [done|]. by apply not_elem_of_nil in Et.
  - apply bool_decide_eq_false in Et. rewrite removed_world_absent by done. done.
Qed.

(** ** Updating one delivery *)

Lemma find_delivery_Some ds a t d :
  find_delivery ds a t = Some d →
  ∃ l, ds !! a = Some l ∧ List.find (token_is t) l = Some d ∧ d ∈ l ∧ cd_token d = t.
Proof.
  unfold find_delivery. intros (l & Hl & Hd)%bind_Some. exists l. split_and!; try done.
  - apply find_some in Hd as [Hd _]. by apply list_elem_of_In.
  - apply find_some in Hd as [_ Hd]. by apply bool_decide_eq_true in Hd.
Qed.

Lemma find_delivery_None n c ds a t :
  deliveries_ok n c ds → find_delivery ds a t = None ↔ t ∉ token <$> clients_at c a.
Proof.
  intros Hd. rewrite <-(ok_mirror _ _ _ Hd). unfold find_delivery, deliveries_at.
  destruct (ds !! a) as [l|]; cbn; [|split; [|done]; intros _ ?%not_elem_of_nil; done].
  rewrite list_elem_of_fmap. split.
  - intros Hnone (d & -> & Hd')%id. apply list_elem_of_In in Hd'.
    pose proof (find_none _ _ Hnone _ Hd') as Hf. unfold token_is, matches in Hf.
    by rewrite bool_decide_true in Hf.
  - intros Hno. destruct (List.find (token_is t) l) as [d|] eqn:E; [|done]. exfalso.
    apply Hno. apply find_some in E as [Hin Ht]. apply bool_decide_eq_true in Ht.
    exists d. split; [done|]. by apply list_elem_of_In.
Qed.

Lemma alter_first_fmap {B} (g : ClientDelivery → B) p f l :
  (∀ d, g (f d) = g d) → g <$> alter_first p f l = g <$> l.
Proof.
  intros Hg. induction l as [|d l IH]; [done|]. cbn. destruct (p d); cbn; by rewrite ?Hg, ?IH.
Qed.

Lemma alter_first_Forall (P : ClientDelivery → Prop) p f l d :
  List.find p l = Some d → Forall P l → P (f d) → Forall P (alter_first p f l).
Proof.
  induction l as [|x l IH]; [done|]. cbn. intros Hf [Hx Hl]%Forall_cons Hd.
  destruct (p x); [simplify_eq; by constructor|]. constructor; [done|]. by apply IH.
Qed.

Lemma alter_first_twice p (f g : ClientDelivery → ClientDelivery) l :
  (∀ d, p (f d) = p d) →
  alter_first p g (alter_first p f l) = alter_first p (λ d, g (f d)) l.
Proof.
  intros Hp. induction l as [|d l IH]; [done|]. cbn.
  destruct (p d) eqn:E; cbn; [by rewrite Hp, E|by rewrite E, IH].
Qed.

Lemma update_delivery_eq a t f w :
  update_delivery a t f w = (Done (Ok tt),
    set_deliveries (alter (alter_first (token_is t) f) a (deliveries w)) w).
Proof. done. Qed.

Lemma deliveries_ok_alter n c ds a t f d :
  deliveries_ok n c ds → find_delivery ds a t = Some d →
  (∀ d, cd_token (f d) = cd_token d ∧ writer (f d) = writer d) →
  (delivery_ok n a d → delivery_ok n a (f d)) →
  deliveries_ok n c (alter (alter_first (token_is t) f) a ds).
Proof.
  intros Hds (l & Hl & Hfind & Hin & Ht)%find_delivery_Some Hf Hok.
  assert (deliveries_at ds a = l) as Hat by (unfold deliveries_at; by rewrite Hl).
  assert (alter (alter_first (token_is t) f) a ds = <[a := alter_first (token_is t) f l]> ds)
    as ->.
  { apply map_eq. intros b. destruct (decide (a = b)) as [<-|Hb].
    - by rewrite lookup_alter_eq, lookup_insert_eq, Hl.
    - by rewrite lookup_alter_ne, lookup_insert_ne. }
  pose proof (ok_each _ _ _ Hds a) as Hall. rewrite Hat in Hall.
  apply deliveries_ok_update; [done|..].
  - rewrite Hat. apply alter_first_fmap. intros x. apply Hf.
  - rewrite Hat. apply alter_first_fmap. intros x. apply Hf.
  - eapply alter_first_Forall; [done..|]. apply Hok. rewrite Forall_forall in Hall. by apply Hall.
  - intros E. pose proof (length_alter_first (token_is t) f l) as El. rewrite E in El.
    destruct l; [by apply not_elem_of_nil in Hin|done].
Qed.

(** [mark_client_ready]: everything the backlog held is sent and the client is ready, or a
    send failed and the backlog is what was not sent. *)
Lemma mark_client_ready_spec a t w :
  Inv w →
  match find_delivery (deliveries w) a t with
  | None => mark_client_ready a t w = (Done (Err UnknownClient), w)
  | Some d => ∃ ch sent_ms rest res f,
      pending_messages d = sent_ms ++ rest ∧
      ch (writer d) = foldl sent (channels w (writer d)) (sent_ms ++ take 1 rest) ∧
      (∀ j, writer d ≠ j → ch j = channels w j) ∧
      (∀ p m s, sent_ms = p ++ m :: s →
        fst (try_send (foldl sent (channels w (writer d)) p) m) = Sent) ∧
      mark_client_ready a t w = (Done res, set_channels ch
        (set_deliveries (alter (alter_first (token_is t) f) a (deliveries w)) w)) ∧
      match rest with
      | [] => res = Ok tt ∧ f = (λ d, set_ready (set_pending [] d))
      | m :: _ => f = set_pending rest ∧
          fst (try_send (foldl sent (channels w (writer d)) sent_ms) m) ≠ Sent ∧
          res = Err (match fst (try_send (foldl sent (channels w (writer d)) sent_ms) m) with
            | QueueFull => OutboundQueueFull | _ => OutboundWriterGone end)
      end
  end.
Proof.
  intros Hw. pose proof (inv_poisoned w Hw) as Hp.
  destruct (find_delivery (deliveries w) a t) as [d|] eqn:Hfind.
  2: { apply locking_Done; [done|]. unfold gets. erewrite M_bind_Ok by reflexivity.
       by rewrite Hfind. }
  destruct (send_all_spec (writer d) (pending_messages d)
    (set_deliveries (alter (alter_first (token_is t) (set_pending [])) a (deliveries w)) w))
    as (ch & ms & rest & Hms & E & Ei & Ej & Hsent & Hrest).
  cbn [channels set_deliveries] in *.
  assert (∀ f, (λ w, set_deliveries (alter (alter_first (token_is t) f) a (deliveries w)) w)
      (set_channels ch (set_deliveries
        (alter (alter_first (token_is t) (set_pending [])) a (deliveries w)) w)) =
    set_channels ch (set_deliveries
      (alter (alter_first (token_is t) (λ d, f (set_pending [] d))) a (deliveries w)) w))
    as Htwice.
  { intros f. cbn. unfold set_channels, set_deliveries. cbn. f_equal.
    rewrite alter_alter_eq. apply alter_ext. intros l _. cbn. by apply alter_first_twice. }
  exists ch, ms, rest.
  destruct rest as [|m rest].
  - exists (Ok tt), (λ d, set_ready (set_pending [] d)). split_and!; try done.
    apply locking_Done; [done|]. unfold gets. erewrite M_bind_Ok by reflexivity.
    rewrite Hfind. erewrite M_bind_Ok by apply update_delivery_eq.
    erewrite M_bind_Ok by apply E. cbn beta iota.
    rewrite update_delivery_eq. by rewrite (Htwice set_ready).
  - eexists (Err _), (set_pending (m :: rest)). split_and!; [done..| |done|done|reflexivity].
    apply locking_Done; [done|]. unfold gets. erewrite M_bind_Ok by reflexivity.
    rewrite Hfind. erewrite M_bind_Ok by apply update_delivery_eq.
    erewrite M_bind_Ok by apply E. cbn beta iota.
    erewrite M_bind_Ok by apply update_delivery_eq. unfold throw. by rewrite (Htwice (set_pending (m :: rest))).
Qed.

Lemma mark_client_ready_inv a t w :
  Inv w → ∃ r w', mark_client_ready a t w = (Done r, w') ∧ Inv w'.
Proof.
  intros Hw. pose proof (mark_client_ready_spec a t w Hw) as Hs.
  destruct (find_delivery (deliveries w) a t) as [d|] eqn:Hfind; [|eauto].
  destruct Hs as (ch & ms & rest & res & f & Hms & _ & _ & _ & E & Hf).
  do 2 eexists. split; [exact E|]. apply Inv_channels.
  assert (deliveries_ok (next_id w) (clients w)
    (alter (alter_first (token_is t) f) a (deliveries w))) as Hd.
  { eapply deliveries_ok_alter; [apply Hw|done|..].
    - intros d'. destruct rest; destruct Hf as [? ?]; by simplify_eq.
    - intros [Ha Hwr Hb Hr]. destruct rest as [|m rest]; destruct Hf as [Hf1 Hf2]; simplify_eq.
      + split; cbn; try done. unfold PENDING_MESSAGES_LIMIT. lia.
      + split; cbn; try done.
        * rewrite Hms, length_app in Hb. cbn in Hb. cbn. lia.
        * intros Hrd. specialize (Hr Hrd). rewrite Hms in Hr. by destruct ms. }
  destruct Hw. by split.
Qed.

(** ** Every section is safe *)

Lemma fresh_writer n c ds i :
  deliveries_ok n c ds → n ≤ i → i ∉ writer <$> all_values ds.
Proof.
  intros Hd Hi (d & -> & (a & l & Ha & Hin)%elem_of_all_values)%list_elem_of_fmap.
  pose proof (ok_each _ _ _ Hd a) as Hall. unfold deliveries_at in Hall. rewrite Ha in Hall.
  cbn in Hall. rewrite Forall_forall in Hall. destruct (Hall _ Hin). lia.
Qed.

Lemma remove_client_ok a t : act_ok Inv (remove_client_if_current a t).
Proof.
  intros w Hw. destruct (remove_client_spec a t w Hw) as (c' & E & Hinv & _). eauto.
Qed.

Lemma mark_client_ready_ok a t : act_ok Inv (mark_client_ready a t).
Proof. intros w Hw. by apply mark_client_ready_inv. Qed.

Lemma deliver_ok m ex : act_ok Inv (deliver m ex).
Proof. intros w Hw. destruct (deliver_spec m ex w Hw) as (? & ? & ? & ?). eauto. Qed.

Lemma usernames_eq w :
  Inv w → usernames w = (Done (Ok (registry_usernames (clients w))), w).
Proof. intros Hw. by apply locking_Done; [apply Hw|]. Qed.

Lemma usernames_ok_act : act_ok Inv usernames.
Proof. intros w Hw. rewrite usernames_eq by done. eauto. Qed.

Lemma overloaded_eq w :
  Inv w → overloaded_section w = (Done (Ok (map (λ d, (addr d, cd_token d))
    (List.filter (overloaded (channels w)) (hash_values (deliveries w))))), w).
Proof. intros Hw. by apply locking_Done; [apply Hw|]. Qed.

Lemma overloaded_ok : act_ok Inv overloaded_section.
Proof. intros w Hw. rewrite overloaded_eq by done. eauto. Qed.

Lemma set_client_username_spec a t name w :
  Inv w →
  if decide (t ∈ token <$> clients_at (clients w) a) then
    ∃ c', set_client_username a t name w = (Done (Ok tt), set_clients c' w) ∧
      wf_registry c' ∧ per_ip c' = per_ip (clients w) ∧ total c' = total (clients w) ∧
      ∀ b, clients_at c' b = if decide (a = b) then
        alter_first (λ client, matches (token client) t)
          (λ client, mk_ClientSession (token client) (Some name)) (clients_at (clients w) b)
        else clients_at (clients w) b
  else set_client_username a t name w = (Done (Err UnknownClient), w).
Proof.
  intros Hw. pose proof (registry_set_username_spec (clients w) a t name (inv_registry w Hw)) as Hs.
  assert (∀ r w', (match registry_set_username (clients w) a t name with
    | Some c' => modify (set_clients c') | None => throw UnknownClient end) w = (Done r, w') →
    set_client_username a t name w = (Done r, w')) as Heq.
  { intros r w' E. apply locking_Done; [apply Hw|]. unfold gets.
    by erewrite M_bind_Ok by reflexivity. }
  destruct (registry_set_username (clients w) a t name) as [c'|].
  - destruct Hs as (Hin & ? & ? & ? & ?). rewrite decide_True by done. exists c'.
    split_and!; try done. by apply Heq.
  - rewrite decide_False by done. by apply Heq.
Qed.

Lemma set_client_username_ok a t name :
  name_ok name → act_ok Inv (set_client_username a t name).
Proof.
  intros Hname w Hw. pose proof (set_client_username_spec a t name w Hw) as Hs.
  destruct (decide _); [|eauto]. destruct Hs as (c' & E & Hwf & _ & _ & Hat).
  do 2 eexists. split; [exact E|]. pose proof Hw as [Hp Hreg Hn Ht Hd Hh Hl Hpi].
  assert (∀ b, token <$> clients_at c' b = token <$> clients_at (clients w) b) as Htok.
  { intros b. rewrite Hat. destruct (decide (a = b)); [|done]. by apply alter_first_tokens. }
  split; try done; cbn.
  - by eapply usernames_ok_set.
  - intros b. rewrite Htok. apply Ht.
  - split; try apply Hd. intros b. rewrite Htok. apply Hd.
Qed.

(** [allow_message] is [allow] on the limiters, at the instant of the section. *)
Lemma allow_message_eq a w :
  Inv w →
  allow_message a w =
    (Done (fst (allow (rate_limits w) (ip a) (clock w))),
     set_rate_limits (snd (allow (rate_limits w) (ip a) (clock w))) w).
Proof.
  intros Hw. apply locking_Done; [apply Hw|]. unfold gets.
  do 2 erewrite M_bind_Ok by reflexivity.
  destruct (allow (rate_limits w) (ip a) (clock w)) as [[[]|e] l]; done.
Qed.

Lemma allow_message_ok a : act_ok Inv (allow_message a).
Proof.
  intros w Hw. rewrite allow_message_eq by done. do 2 eexists. split; [done|].
  destruct Hw. split; try done. by apply allow_limiters_ok.
Qed.

Lemma cleanup_eq now w :
  Inv w →
  cleanup_section now w = (Done (Ok tt), set_rate_limits (cleanup (rate_limits w) now) w).
Proof. intros Hw. by apply locking_Done; [apply Hw|]. Qed.

Lemma cleanup_section_ok now : act_ok Inv (cleanup_section now).
Proof.
  intros w Hw. rewrite cleanup_eq by done. do 2 eexists. split; [done|].
  destruct Hw. split; try done. by apply cleanup_ok.
Qed.

Lemma record_eq message w :
  Inv w → record_section message w =
    (Done (Ok tt), set_history (record (history w) message) w).
Proof. intros Hw. by apply locking_Done; [apply Hw|]. Qed.

Lemma record_lastn h message :
  length (entries h) ≤ limit h →
  entries (record h message) =
    lastn (limit h) (entries h ++ [trim_end_matches newline message]).
Proof.
  intros Hlen. unfold record. rewrite length_app. cbn [length entries].
  destruct (Nat.ltb_spec (limit h) (length (entries h) + 1)) as [Hlt|Hge].
  - unfold lastn. rewrite length_app. cbn [length].
    replace (length (entries h) + 1 - limit h) with 1 by lia. by destruct (entries h).
  - by rewrite lastn_all by (rewrite length_app; cbn [length]; lia).
Qed.

(** The history is the last hundred messages, trimmed. *)
Lemma record_ok h message :
  history_ok h → fits (trim_end_matches newline message) → history_ok (record h message).
Proof.
  intros [Hlim Hlen Hfits] Hm. pose proof (record_lastn h message) as E.
  rewrite Hlim in E. specialize (E Hlen). split; [done|rewrite E, length_lastn; lia|].
  rewrite E. apply Forall_drop, Forall_app. split; [done|]. by constructor.
Qed.

Lemma record_inv message w :
  Inv w → fits (trim_end_matches newline message) →
  Inv (set_history (record (history w) message) w).
Proof. intros [] Hm. split; try done. by apply record_ok. Qed.

Lemma record_section_ok message :
  fits (trim_end_matches newline message) → act_ok Inv (record_section message).
Proof. intros Hm w Hw. rewrite record_eq by done. eauto using record_inv. Qed.

Lemma snapshot_eq w : Inv w → snapshot_section w = (Done (Ok (entries (history w))), w).
Proof. intros Hw. by apply locking_Done; [apply Hw|]. Qed.

Lemma snapshot_ok i : act_ok Inv (on_error (drop_writer i) snapshot_section).
Proof.
  intros w Hw. exists (Ok (entries (history w))), w. split; [|done].
  by apply on_error_Ok, snapshot_eq.
Qed.

Lemma writer_section_eq a t w :
  Inv w →
  writer_section a t w =
    match find_delivery (deliveries w) a t with
    | Some d => (Done (Ok (writer d)),
        set_channels (<[writer d := clone_sender (channels w (writer d))]> (channels w)) w)
    | None => (Done (Err UnknownClient), w)
    end.
Proof.
  intros Hw. destruct (find_delivery (deliveries w) a t) eqn:E;
    (apply locking_Done; [apply Hw|]); unfold gets; (erewrite M_bind_Ok by reflexivity);
    by rewrite E.
Qed.

Lemma writer_section_ok a t : act_ok Inv (writer_section a t).
Proof.
  intros w Hw. rewrite writer_section_eq by done.
  destruct (find_delivery _ _ _); eauto using Inv_channels.
Qed.

(** Channel operations outside the mutexes. *)
Lemma send_on_ok i m : act_ok Inv (send_on i m).
Proof. intros w Hw. rewrite send_on_eq. eauto using Inv_channels. Qed.

Lemma gets_ok {A} (f : World → A) : act_ok Inv (gets f).
Proof. intros w Hw. eauto. Qed.

Lemma drop_writer_ok i : act_ok Inv (drop_writer i).
Proof. intros w Hw. rewrite drop_writer_eq. eauto using Inv_channels. Qed.

(** ** Every program of the state is safe *)

Section Programs.
Context {Q : Type → Type}.

Lemma remove_each_safe l : safe Inv (remove_each (Q := Q) l).
Proof.
  apply safe_for_each. intros [a t]. apply safe_try_bind; [|done].
  apply safe_section, remove_client_ok.
Qed.

Lemma broadcast_safe m ex : safe Inv (broadcast (Q := Q) m ex).
Proof.
  apply safe_try_bind; [apply safe_section, deliver_ok|]. intros doomed.
  apply safe_try_bind; [apply remove_each_safe|done].
Qed.

Lemma record_and_broadcast_safe message frame ex :
  fits (trim_end_matches newline message) →
  safe Inv (record_and_broadcast (Q := Q) message frame ex).
Proof.
  intros Hm. apply safe_with_barrier, safe_try_bind; [by apply safe_section, record_section_ok|].
  intros _. apply broadcast_safe.
Qed.

Lemma prune_safe : safe Inv (prune_overloaded_clients (Q := Q)).
Proof.
  apply safe_try_bind; [apply safe_section, overloaded_ok|]. intros. apply remove_each_safe.
Qed.

Lemma broadcast_presence_safe : safe Inv (broadcast_presence (Q := Q)).
Proof.
  apply safe_try_bind; [apply prune_safe|]. intros _.
  apply safe_try_bind; [apply safe_section, usernames_ok_act|]. intros users.
  destruct (encode_presence users); [|done].
  apply safe_try_bind; [apply broadcast_safe|done].
Qed.

Lemma with_history_replay_safe a t replay :
  (∀ i h, safe Inv (replay i h)) → safe Inv (with_history_replay (Q := Q) a t replay).
Proof.
  intros Hr. apply safe_with_barrier, safe_try_bind.
  - apply safe_try_bind; [apply safe_section, writer_section_ok|]. intros i.
    apply safe_try_bind; [apply safe_section, snapshot_ok|]. done.
  - intros []. apply Hr.
Qed.

Lemma cleanup_rate_limits_safe : safe Inv (cleanup_rate_limits (Q := Q)).
Proof.
  apply safe_try_bind; [apply safe_section, gets_ok|]. intros now.
  apply safe_section, cleanup_section_ok.
Qed.
End Programs.
End StateInv.
