(* ===== verification/Room.v ===== *)
(** What the server promises: a chat room.

    The room is who is in it, each member with the name it has given if any, and everything
    said in it.  Members join within the limits, give a name, leave; somebody says something.
    [Registry] and [State] implement the members by a map from addresses to lists of sessions
    with counters beside it, and the messages by a history of the last hundred; this file
    relates the two, operation by operation.  That the whole server, in every interleaving,
    does nothing else to the room is proved in [OrderProps]. *)
From Stdlib Require Import Sorting.Sorted.
From S2P Require Import Prelude Utf8 Text Presence Net Registry State StateInv.

(** ** The abstract room *)

Definition member : Type := SocketAddr * ClientToken.

Record Room := mk_Room { members : gmap member (option str); said : list str }.

Definition empty_room : Room := mk_Room ∅ [].

(** The members at an IP address. *)
Definition at_ip (i : IpAddr) (ms : gmap member (option str)) : nat :=
  length (filter (λ x : member * option str, ip x.1.1 = i) (map_to_list ms)).

Inductive room_step : Room → Room → Prop :=
  | room_join R a t :
      (∀ b, members R !! (b, t) = None) →
      size (members R) < MAX_CONNECTIONS → at_ip (ip a) (members R) < MAX_CONNECTIONS_PER_IP →
      room_step R (mk_Room (<[(a, t) := None]> (members R)) (said R))
  | room_name R a t u :
      is_Some (members R !! (a, t)) → name_ok u →
      room_step R (mk_Room (<[(a, t) := Some u]> (members R)) (said R))
  | room_leave R a t :
      is_Some (members R !! (a, t)) →
      room_step R (mk_Room (delete (a, t) (members R)) (said R))
  | room_say R m :
      fits m → room_step R (mk_Room (members R) (said R ++ [m])).

(** A step of the server may be none of the room. *)
Definition room_moves (R R' : Room) : Prop := R' = R ∨ room_step R R'.

#[export] Hint Extern 0 (room_moves _ _) => (left; reflexivity) : core.

(** ** The room of a registry *)

Definition sessions (es : list (SocketAddr * list ClientSession)) : list (member * option str) :=
  concat (map (λ '(a, l), map (λ s, ((a, token s), username s)) l) es).

Definition members_of (c : ClientRegistry) : gmap member (option str) :=
  list_to_map (sessions (map_to_list (by_addr c))).

(** ** Lemmas *)

Lemma elem_of_sessions es a t u :
  ((a, t), u) ∈ sessions es ↔ ∃ l, (a, l) ∈ es ∧ mk_ClientSession t u ∈ l.
Proof.
  unfold sessions. rewrite list_elem_of_In, in_concat. split.
  - intros (k & Hk & Hin). apply in_map_iff in Hk as ([b l] & <- & Hl).
    apply in_map_iff in Hin as ([t' u'] & [= <- <- <-] & Hs). exists l.
    by rewrite !list_elem_of_In.
  - intros (l & Hl & Hs). eexists. split.
    + apply in_map_iff. exists (a, l). split; [done|]. by apply list_elem_of_In.
    + apply in_map_iff. exists (mk_ClientSession t u). split; [done|]. by apply list_elem_of_In.
Qed.

Lemma sessions_NoDup es :
  NoDup es.*1 → (∀ a l, (a, l) ∈ es → NoDup (token <$> l)) → NoDup (sessions es).*1.
Proof.
  induction es as [|[a l] es IH]; intros Hes Hl; [constructor|].
  rewrite fmap_cons in Hes. apply NoDup_cons in Hes as [Ha Hes].
  unfold sessions. cbn [map concat]. fold (sessions es). rewrite fmap_app. apply NoDup_app.
  split_and!.
  - specialize (Hl a l ltac:(by left)). clear -Hl. induction l as [|s l IH]; [constructor|].
    rewrite fmap_cons in Hl. apply NoDup_cons in Hl as [Hs Hl]. cbn. apply NoDup_cons.
    split; [|by apply IH]. intros (x & Ex & Hx)%list_elem_of_fmap. apply Hs.
    apply list_elem_of_In, in_map_iff in Hx as (s' & <- & Hs'). injection Ex as ->.
    by apply list_elem_of_fmap_2, list_elem_of_In.
  - intros k (x & -> & Hx)%list_elem_of_fmap (y & Ey & Hy)%list_elem_of_fmap.
    apply list_elem_of_In, in_map_iff in Hx as (s & <- & Hs). destruct y as [[b t] u].
    cbn in Ey. injection Ey as <- <-. apply elem_of_sessions in Hy as (l' & Hl' & _).
    apply Ha. apply (list_elem_of_fmap_2 fst) in Hl'. done.
  - apply IH; [done|]. intros b k Hk. apply (Hl b). by right.
Qed.

Lemma registry_sessions_NoDup c :
  wf_registry c → NoDup (sessions (map_to_list (by_addr c))).*1.
Proof.
  intros Hc. apply sessions_NoDup; [apply NoDup_fst_map_to_list|].
  intros a l Hl%elem_of_map_to_list. pose proof (wf_tokens c Hc a) as Hnd.
  unfold clients_at in Hnd. by rewrite Hl in Hnd.
Qed.

Lemma lookup_members c a t u :
  wf_registry c → members_of c !! (a, t) = Some u ↔ mk_ClientSession t u ∈ clients_at c a.
Proof.
  intros Hc. unfold members_of. rewrite <-elem_of_list_to_map by (by apply registry_sessions_NoDup).
  rewrite elem_of_sessions. unfold clients_at. split.
  - intros (l & Hl%elem_of_map_to_list & Hs). by rewrite Hl.
  - destruct (by_addr c !! a) as [l|] eqn:El; cbn; [|by intros ?%not_elem_of_nil].
    intros Hs. exists l. by rewrite elem_of_map_to_list.
Qed.

Lemma members_is_Some c a t :
  wf_registry c → is_Some (members_of c !! (a, t)) ↔ t ∈ token <$> clients_at c a.
Proof.
  intros Hc. rewrite list_elem_of_fmap. split.
  - intros [u Hu%lookup_members]; [|done]. by exists (mk_ClientSession t u).
  - intros ([t' u] & -> & Hs). exists u. by apply lookup_members.
Qed.

Lemma members_eq c m :
  wf_registry c →
  (∀ a t u, m !! (a, t) = Some u ↔ mk_ClientSession t u ∈ clients_at c a) → members_of c = m.
Proof.
  intros Hc Hm. apply map_eq. intros [a t]. apply option_eq. intros u.
  by rewrite lookup_members, Hm.
Qed.

(** The counters count the members. *)
Lemma length_sessions (f : SocketAddr → list ClientSession → nat) m :
  msum f m = foldr (λ x n, f x.1 x.2 + n) 0 (map_to_list m).
Proof. unfold msum. rewrite map_fold_foldr. by apply foldr_ext; [intros []|..]. Qed.

Lemma size_members c : wf_registry c → size (members_of c) = total c.
Proof.
  intros Hc. rewrite (wf_total c Hc). rewrite <-length_map_to_list.
  rewrite length_sessions. unfold members_of.
  rewrite map_to_list_to_map by (by apply registry_sessions_NoDup).
  unfold sessions. induction (map_to_list (by_addr c)) as [|[a l] es IH]; [done|].
  cbn [map concat foldr fst snd]. rewrite length_app, length_map. f_equal. exact IH.
Qed.

Lemma at_ip_members c i : wf_registry c → at_ip i (members_of c) = default 0 (per_ip c !! i).
Proof.
  intros Hc. rewrite (wf_per_ip c Hc). unfold at_ip.
  rewrite length_sessions. unfold members_of.
  rewrite map_to_list_to_map by (by apply registry_sessions_NoDup).
  unfold sessions. induction (map_to_list (by_addr c)) as [|[a l] es IH]; [done|].
  cbn [map concat foldr fst snd]. rewrite filter_app, length_app. f_equal; [|exact IH].
  unfold count_ip. clear. induction l as [|s l IH]; cbn [map length].
  - rewrite filter_nil. by case_decide.
  - rewrite filter_cons. cbn [fst]. destruct (decide (ip a = i)); [|done]. cbn. by rewrite IH.
Qed.

(** ** What the operations do to the room *)

Lemma clients_at_push c a t b :
  clients_at (registry_push c a t) b =
    if decide (a = b) then clients_at c b ++ [mk_ClientSession t None] else clients_at c b.
Proof.
  unfold clients_at. cbn. destruct (decide (a = b)) as [<-|Hne].
  - by rewrite lookup_insert_eq.
  - by rewrite lookup_insert_ne.
Qed.

Lemma members_push c a t :
  wf_registry c → wf_registry (registry_push c a t) → t ∉ token <$> clients_at c a →
  members_of (registry_push c a t) = <[(a, t) := None]> (members_of c).
Proof.
  intros Hc Hc' Ht. apply members_eq; [done|]. intros b t' u.
  rewrite clients_at_push, lookup_insert_Some, lookup_members by done.
  destruct (decide (a = b)) as [<-|Hne].
  - rewrite elem_of_app, list_elem_of_singleton. split.
    + intros [[[= <-] <-]|[_ ?]]; auto.
    + intros [Hs|[= -> ->]]; [right|by left]. split; [|done]. intros [= ->].
      apply Ht. by apply (list_elem_of_fmap_2 token) in Hs.
  - split; [intros [[[= ? _] _]|[_ ?]]; [by subst|done]|]. intros Hs. right.
    split; [|done]. by intros [= ? _].
Qed.

Lemma members_remove c c' a t :
  wf_registry c → wf_registry c' →
  (∀ b, clients_at c' b = if decide (a = b) then without t (clients_at c b)
                          else clients_at c b) →
  members_of c' = delete (a, t) (members_of c).
Proof.
  intros Hc Hc' Hat. apply members_eq; [done|]. intros b t' u.
  rewrite Hat, lookup_delete_Some, lookup_members by done.
  destruct (decide (a = b)) as [<-|Hne].
  - unfold without. rewrite list_elem_of_filter. cbn [token]. split; intros [Hk ?]; split; try done.
    + intros ->. by apply Hk.
    + by intros [= ->].
  - split; [by intros [_ ?]|]. intros Hs. split; [|done]. by intros [= ? _].
Qed.

Lemma elem_of_named t name l t' u :
  NoDup (token <$> l) → t ∈ token <$> l →
  mk_ClientSession t' u ∈ alter_first (λ client, matches (token client) t)
    (λ client, mk_ClientSession (token client) (Some name)) l ↔
  (t' = t ∧ u = Some name) ∨ (t' ≠ t ∧ mk_ClientSession t' u ∈ l).
Proof.
  unfold matches. induction l as [|s l IH]; [by intros _ ?%not_elem_of_nil|].
  rewrite fmap_cons. intros [Hs Hnd]%NoDup_cons Ht. cbn [alter_first].
  case_bool_decide as Hst.
  - rewrite !elem_of_cons. subst t. split.
    + intros [[= -> ->]|Hin]; [by left|right].
      split; [|by right]. intros ->. apply Hs. by apply (list_elem_of_fmap_2 token) in Hin.
    + intros [[-> ->]|[Hne [<-|Hin]]]; [by left|done|by right].
  - apply elem_of_cons in Ht as [->|Ht]; [done|]. specialize (IH Hnd Ht).
    rewrite !elem_of_cons, IH. split.
    + intros [<-|[?|[? ?]]]; [right|by left|right]; (split; [done|]); [by left|by right].
    + intros [?|[Hne [<-|Hin]]]; [by right; left|by left|right; right; by split].
Qed.

Lemma members_name c c' a t name :
  wf_registry c → wf_registry c' → t ∈ token <$> clients_at c a →
  (∀ b, clients_at c' b = if decide (a = b) then
    alter_first (λ client, matches (token client) t)
      (λ client, mk_ClientSession (token client) (Some name)) (clients_at c b)
    else clients_at c b) →
  members_of c' = <[(a, t) := Some name]> (members_of c).
Proof.
  intros Hc Hc' Ht Hat. apply members_eq; [done|]. intros b t' u.
  rewrite Hat, lookup_insert_Some, lookup_members by done.
  destruct (decide (a = b)) as [<-|Hne].
  - rewrite elem_of_named by (done || apply Hc). split.
    + intros [[[= <-] <-]|[Hk ?]]; [by left|right]. split; [|done]. intros ->. by apply Hk.
    + intros [[-> ->]|[Hne ?]]; [by left|right]. split; [|done]. by intros [= ->].
  - split; [intros [[[= ? _] _]|[_ ?]]; [by subst|done]|]. intros Hs. right.
    split; [|done]. by intros [= ? _].
Qed.

(** The limits are decided on the members. *)
Lemma limit_reached_members c a :
  wf_registry c → limit_reached c a = false ↔
    size (members_of c) < MAX_CONNECTIONS ∧ at_ip (ip a) (members_of c) < MAX_CONNECTIONS_PER_IP.
Proof.
  intros Hc. rewrite size_members, at_ip_members by done. unfold limit_reached.
  by rewrite orb_false_iff, !Nat.leb_gt.
Qed.

(** A removal is a leave, or nothing. *)
Lemma leave_moves c c' a t sd :
  wf_registry c → wf_registry c' →
  (∀ b, clients_at c' b = if decide (a = b) then without t (clients_at c b)
                          else clients_at c b) →
  room_moves (mk_Room (members_of c) sd) (mk_Room (members_of c') sd).
Proof.
  intros Hc Hc' Hat. rewrite (members_remove c c' a t) by done.
  destruct (members_of c !! (a, t)) as [u|] eqn:E.
  - right. apply (room_leave (mk_Room (members_of c) sd)). cbn. rewrite E. eauto.
  - left. by rewrite delete_id.
Qed.

Lemma join_moves c a t sd :
  wf_registry c → wf_registry (registry_push c a t) → limit_reached c a = false →
  (∀ b, t ∉ token <$> clients_at c b) →
  room_moves (mk_Room (members_of c) sd) (mk_Room (members_of (registry_push c a t)) sd).
Proof.
  intros Hc Hc' Hl Ht. rewrite members_push by done. right.
  apply limit_reached_members in Hl as [? ?]; [|done].
  apply (room_join (mk_Room (members_of c) sd)); [|done|done].
  intros b. apply eq_None_not_Some. intros Hb. apply (Ht b). by apply members_is_Some.
Qed.

Lemma name_moves c c' a t name sd :
  wf_registry c → wf_registry c' → t ∈ token <$> clients_at c a → name_ok name →
  (∀ b, clients_at c' b = if decide (a = b) then
    alter_first (λ client, matches (token client) t)
      (λ client, mk_ClientSession (token client) (Some name)) (clients_at c b)
    else clients_at c b) →
  room_moves (mk_Room (members_of c) sd) (mk_Room (members_of c') sd).
Proof.
  intros Hc Hc' Ht Hn Hat. rewrite (members_name c c' a t name) by done. right.
  apply (room_name (mk_Room (members_of c) sd)); [|done]. by apply members_is_Some.
Qed.

(** ** The room's own invariant *)

Record room_ok (R : Room) : Prop := {
  room_size : size (members R) ≤ MAX_CONNECTIONS;
  room_at_ip i : at_ip i (members R) ≤ MAX_CONNECTIONS_PER_IP;
  room_names k u : members R !! k = Some (Some u) → name_ok u;
  room_tokens a b t : is_Some (members R !! (a, t)) → is_Some (members R !! (b, t)) → a = b;
  room_said : Forall fits (said R) }.

Lemma at_ip_insert i k v ms :
  ms !! k = None → at_ip i (<[k := v]> ms) = (if decide (ip k.1 = i) then 1 else 0) + at_ip i ms.
Proof.
  intros Hk. unfold at_ip. rewrite map_to_list_insert by done. rewrite filter_cons. cbn [fst].
  by destruct (decide (ip k.1 = i)).
Qed.

(** Splitting a room at a member. *)
Lemma at_ip_split i k v ms :
  ms !! k = Some v → at_ip i ms = (if decide (ip k.1 = i) then 1 else 0) + at_ip i (delete k ms).
Proof.
  intros Hk. rewrite <-(insert_delete_id ms k v Hk) at 1.
  apply at_ip_insert, lookup_delete_eq.
Qed.

Lemma at_ip_rename i k u ms : is_Some (ms !! k) → at_ip i (<[k := u]> ms) = at_ip i ms.
Proof.
  intros [v Hk]. rewrite <-insert_delete_eq, at_ip_insert by apply lookup_delete_eq.
  by rewrite <-(at_ip_split i k v).
Qed.

Lemma empty_room_ok : room_ok empty_room.
Proof.
  split; cbn; try done.
  - rewrite map_size_empty. lia.
  - intros i. unfold at_ip. rewrite map_to_list_empty. cbn. lia.
  - intros a b t. rewrite lookup_empty. by intros [].
Qed.

(** The room keeps its limits, its names valid, and its members distinct. *)
Lemma room_step_ok R R' : room_step R R' → room_ok R → room_ok R'.
Proof.
  intros [R0 a t Hfresh Hsize Hip|R0 a t u Hin Hu|R0 a t Hin|R0 m Hm] [Hs Hi Hn Ht Hsaid];
    split; cbn; try done.
  - rewrite map_size_insert_None by done. lia.
  - intros i. rewrite at_ip_insert by done. specialize (Hi i).
    cbn [fst]. destruct (decide (ip a = i)) as [<-|]; lia.
  - intros k u [[_ [=]]|[_ ?]]%lookup_insert_Some. by eapply Hn.
  - intros b b' t'. rewrite !lookup_insert_is_Some.
    intros [E1|[_ Hb]] [E2|[_ Hb']]; simplify_eq; try done.
    + rewrite Hfresh in Hb'. by destruct Hb'.
    + rewrite Hfresh in Hb. by destruct Hb.
    + by eapply Ht.
  - rewrite map_size_insert_Some by done. done.
  - intros i. by rewrite at_ip_rename.
  - intros k v [[_ [= <-]]|[_ ?]]%lookup_insert_Some; [done|]. by eapply Hn.
  - intros b b' t'. rewrite !lookup_insert_is_Some.
    intros [E1|[_ Hb]] [E2|[_ Hb']]; simplify_eq; try done; by eapply Ht.
  - rewrite map_size_delete. destruct (_ !! _); cbn; lia.
  - intros i. destruct Hin as [v Hv]. specialize (Hi i).
    rewrite (at_ip_split i (a, t) v) in Hi by done. lia.
  - intros k v [_ ?]%lookup_delete_Some. by eapply Hn.
  - intros b b' t' [? [_ Hb]%lookup_delete_Some] [? [_ Hb']%lookup_delete_Some]. eauto.
  - apply Forall_app. split; [done|]. by constructor.
Qed.

Lemma room_moves_ok R Rs : Sorted room_moves (R :: Rs) → room_ok R → Forall room_ok Rs.
Proof.
  revert R. induction Rs as [|R' Rs IH]; intros R Hs HR; [done|].
  apply Sorted_inv in Hs as [Hs Hhd]. apply HdRel_inv in Hhd.
  assert (room_ok R') as HR' by (destruct Hhd as [->|Hstep]; [done|by eapply room_step_ok]).
  constructor; [done|]. by eapply IH.
Qed.
