(* ===== verification/Admission.v ===== *)
(** Admission control of the accept loop ([ConnectionAdmission] and [ConnectionPermit] of
    [crates/server/src/lib.rs], lines 21-68): a semaphore for all connections and a counter
    per IP address, taken when a connection is accepted and given back when its handler
    ends.  The semaphore is tokio's, by its laws; the counters are behind a mutex. *)
From S2P Require Import Prelude Prog Net Registry State StateInv.

Section Admission.
Context `{HashOrder} `{Tokio}.

(** ** Operations *)

Definition set_permits (s : semaphore) (w : World) : World :=
  set_io (mk_IO (streams (io w)) (written (io w)) (wire (io w)) (outlet (io w)) s
    (pending_per_ip (io w))) w.
Definition set_pending_per_ip (m : gmap IpAddr nat) (w : World) : World :=
  set_io (mk_IO (streams (io w)) (written (io w)) (wire (io w)) (outlet (io w))
    (permits (io w)) m) w.

(** [self.global.clone().try_acquire_owned().ok()] *)
Definition acquire_global : M bool :=
  i ← gets io;
  match try_acquire_owned (permits i) with
  | Some s => _ ← modify (set_permits s); mret true
  | None => mret false
  end.

Definition release_global : M unit :=
  i ← gets io; modify (set_permits (release (permits i))).

(** The rest of [try_acquire], with the counters locked. *)
Definition count_connection (address : SocketAddr) : M bool :=
  locking AdmissionLock (
    i ← gets io;
    let count := default 0 (pending_per_ip i !! ip address) in
    _ ← modify (set_pending_per_ip (<[ip address := count]> (pending_per_ip i)));
    if MAX_CONNECTIONS_PER_IP <=? count then _ ← release_global; mret false
    else
      _ ← modify (set_pending_per_ip (<[ip address := S count]> (pending_per_ip i)));
      mret true).

(** [ConnectionPermit::drop], up to its fields. *)
Definition uncount_connection (i : IpAddr) : M unit :=
  locking AdmissionLock (
    x ← gets io;
    match pending_per_ip x !! i with
    | None => mret tt
    | Some count =>
        count' ← from_exec (checked_sub count 1);
        modify (set_pending_per_ip (put_count (pending_per_ip x) i count'))
    end).

Section Programs.
Context {Q : Type → Type}.

(** A permit is the address it was counted under; [lock().ok()?] turns a poisoned mutex into
    a refusal, which drops the global permit. *)
Definition try_acquire (address : SocketAddr) : prog World ServerError Q (option IpAddr) :=
  Step acquire_global (λ r,
    match r with
    | Ok true =>
        Step (count_connection address) (λ r,
          match r with
          | Ok true => Ret (Some (ip address))
          | Ok false => Ret None
          | Err _ => Step release_global (λ _, Ret None)
          end)
    | _ => Ret None
    end).

(** Dropping a permit: its [Drop], then the semaphore permit it owns. *)
Definition drop_permit (i : IpAddr) : prog World ServerError Q unit :=
  Step (uncount_connection i) (λ _, Step release_global (λ _, Ret tt)).
End Programs.

(** ** Lemmas *)

Lemma Inv_set_io w x :
  Inv w → (∀ i n, pending_per_ip x !! i = Some n → n ≠ 0 ∧ n ≤ MAX_CONNECTIONS_PER_IP) →
  Inv (set_io x w).
Proof. intros [] Hx. by split. Qed.

Lemma release_global_eq w :
  release_global w = (Done (Ok tt), set_permits (release (permits (io w))) w).
Proof. done. Qed.

Lemma count_connection_eq a w :
  Inv w →
  let count := default 0 (pending_per_ip (io w) !! ip a) in
  count_connection a w =
    if MAX_CONNECTIONS_PER_IP <=? count then
      (Done (Ok false), set_permits (release (permits (io w))) w)
    else (Done (Ok true),
      set_pending_per_ip (<[ip a := S count]> (pending_per_ip (io w))) w).
Proof.
  intros Hw count. destruct (MAX_CONNECTIONS_PER_IP <=? count) eqn:Hle;
    (apply locking_Done; [apply Hw|]); unfold gets;
    do 2 (erewrite M_bind_Ok by reflexivity); fold count; rewrite Hle.
  - erewrite M_bind_Ok by apply release_global_eq.
    assert (<[ip a := count]> (pending_per_ip (io w)) = pending_per_ip (io w)) as E.
    { apply insert_id. subst count. destruct (pending_per_ip (io w) !! ip a); [done|].
      discriminate Hle. }
    unfold set_permits, set_pending_per_ip, set_io. cbn. by rewrite E.
  - done.
Qed.

Lemma uncount_connection_eq i w :
  Inv w →
  uncount_connection i w = (Done (Ok tt),
    match pending_per_ip (io w) !! i with
    | None => w
    | Some n => set_pending_per_ip (put_count (pending_per_ip (io w)) i (n - 1)) w
    end).
Proof.
  intros Hw. apply locking_Done; [apply Hw|]. unfold gets. erewrite M_bind_Ok by reflexivity.
  destruct (pending_per_ip (io w) !! i) as [n|] eqn:E; [|done].
  destruct (inv_pending_ip w Hw i n E) as [? ?]. rewrite checked_sub_Val by lia. done.
Qed.

Lemma acquire_global_eq w :
  acquire_global w = match try_acquire_owned (permits (io w)) with
    | Some s => (Done (Ok true), set_permits s w)
    | None => (Done (Ok false), w) end.
Proof. unfold acquire_global, mbind, M_bind, gets. by destruct (try_acquire_owned _). Qed.

Lemma set_permits_inv w s : Inv w → Inv (set_permits s w).
Proof. intros Hw. apply Inv_set_io; [done|apply Hw]. Qed.

Lemma acquire_global_ok : act_ok Inv acquire_global.
Proof.
  intros w Hw. rewrite acquire_global_eq.
  destruct (try_acquire_owned _); eauto using set_permits_inv.
Qed.

Lemma release_global_ok : act_ok Inv release_global.
Proof. intros w Hw. rewrite release_global_eq. eauto using set_permits_inv. Qed.

Lemma count_connection_ok a : act_ok Inv (count_connection a).
Proof.
  intros w Hw. rewrite count_connection_eq by done.
  destruct (Nat.leb_spec MAX_CONNECTIONS_PER_IP (default 0 (pending_per_ip (io w) !! ip a)));
    [eauto using set_permits_inv|].
  do 2 eexists. split; [done|]. apply Inv_set_io; [done|]. cbn.
  intros i n [[_ <-]|[_ ?]]%lookup_insert_Some; [lia|by apply (inv_pending_ip w Hw i)].
Qed.

Lemma uncount_connection_ok i : act_ok Inv (uncount_connection i).
Proof.
  intros w Hw. rewrite uncount_connection_eq by done. do 2 eexists. split; [done|].
  destruct (pending_per_ip (io w) !! i) as [n|] eqn:E; [|done].
  apply Inv_set_io; [done|]. cbn. intros j k Hk. unfold put_count in Hk.
  pose proof (inv_pending_ip w Hw i n E). destruct (Nat.eqb_spec (n - 1) 0).
  - apply lookup_delete_Some in Hk as [_ Hk]. by apply (inv_pending_ip w Hw j).
  - apply lookup_insert_Some in Hk as [[_ <-]|[_ Hk]]; [lia|by apply (inv_pending_ip w Hw j)].
Qed.

Section Safety.
Context {Q : Type → Type}.

Lemma try_acquire_safe a : safe Inv (try_acquire (Q := Q) a).
Proof.
  split; [apply acquire_global_ok|]. intros _ [[]|] _ _ _; [|done|done].
  split; [apply count_connection_ok|]. intros _ [[]|] _ _ _; [done|done|].
  split; [apply release_global_ok|done].
Qed.

Lemma drop_permit_safe i : safe Inv (drop_permit (Q := Q) i).
Proof.
  split; [apply uncount_connection_ok|]. intros. split; [apply release_global_ok|done].
Qed.
End Safety.

(** ** Sequences of admissions *)

Inductive AdmissionOp := Enter (address : SocketAddr) | Leave (i : IpAddr).

(** The permits held under an address. *)
Definition held_under (i : IpAddr) (held : list IpAddr) : nat :=
  length (filter (λ j, j = i) held).

Fixpoint remove_one (i : IpAddr) (held : list IpAddr) : list IpAddr :=
  match held with
  | [] => []
  | j :: held => if decide (j = i) then held else j :: remove_one i held
  end.

(** An admission, or the end of a handler that holds a permit. *)
Definition admission_op (o : AdmissionOp) (x : World * list IpAddr)
  : option (World * list IpAddr) :=
  let '(w, held) := x in
  match o with
  | Enter a =>
      '(permit, _, w) ← run (try_acquire (Q := λ A, A) a) false w;
      Some (w, match permit with Some i => i :: held | None => held end)
  | Leave i =>
      if decide (i ∈ held) then
        '(_, _, w) ← run (drop_permit (Q := λ A, A) i) false w;
        Some (w, remove_one i held)
      else Some (w, held)
  end.

Fixpoint admission_run (ops : list AdmissionOp) (x : World * list IpAddr)
  : option (World * list IpAddr) :=
  match ops with
  | [] => Some x
  | o :: ops => x ← admission_op o x; admission_run ops x
  end.

Section Accounting.
Context {Laws : TokioLaws}.

(** The semaphore and the counters agree with the permits that are out. *)
Definition accounted (x : World * list IpAddr) : Prop :=
  Inv (fst x) ∧ available (permits (io (fst x))) + length (snd x) = MAX_CONNECTIONS ∧
  ∀ i, default 0 (pending_per_ip (io (fst x)) !! i) = held_under i (snd x).

Lemma held_under_cons i j held :
  held_under i (j :: held) = (if decide (j = i) then 1 else 0) + held_under i held.
Proof. unfold held_under. rewrite filter_cons. by destruct (decide (j = i)). Qed.

Lemma held_under_elem i held : i ∈ held → 0 < held_under i held.
Proof.
  induction held as [|j held IH]; [by intros ?%not_elem_of_nil|].
  rewrite held_under_cons. intros [->|Hin]%elem_of_cons.
  - rewrite decide_True by done. lia.
  - specialize (IH Hin). lia.
Qed.

Lemma remove_one_spec i held : i ∈ held →
  S (length (remove_one i held)) = length held ∧
  ∀ j, held_under j (remove_one i held) = held_under j held - (if decide (i = j) then 1 else 0).
Proof.
  induction held as [|k held IH]; [by intros ?%not_elem_of_nil|]. cbn [remove_one].
  intros Hin. destruct (decide (k = i)) as [->|Hne].
  - split; [done|]. intros j. rewrite held_under_cons. destruct (decide (i = j)); lia.
  - apply elem_of_cons in Hin as [->|Hin]; [done|]. destruct (IH Hin) as [Hl Hc].
    split; [cbn [length]; lia|]. intros j. rewrite !held_under_cons, Hc.
    destruct (decide (k = j)), (decide (i = j)); try lia; congruence.
Qed.

(** One admission, exactly. *)
Lemma try_acquire_run a w held :
  accounted (w, held) →
  let room := (length held <? MAX_CONNECTIONS) && (held_under (ip a) held <? MAX_CONNECTIONS_PER_IP) in
  ∃ w', run (try_acquire (Q := λ A, A) a) false w =
      Some (if room then Some (ip a) else None, false, w') ∧
    accounted (w', if room then ip a :: held else held).
Proof.
  intros (Hw & Hav & Hcnt) room. cbn [fst snd] in *. unfold try_acquire. cbn [run].
  rewrite acquire_global_eq. pose proof (available_acquire (permits (io w))) as Hacq.
  destruct (try_acquire_owned (permits (io w))) as [s|].
  2: { exists w. assert (room = false) as ->.
       { subst room. apply andb_false_iff. left. apply Nat.ltb_ge. lia. }
       by split. }
  pose proof (set_permits_inv w s Hw) as Hw1.
  cbn [run]. rewrite (count_connection_eq a _ Hw1).
  cbn [io set_permits set_io pending_per_ip permits]. rewrite Hcnt.
  destruct (Nat.leb_spec MAX_CONNECTIONS_PER_IP (held_under (ip a) held)) as [Hfull|Hroom].
  - assert (room = false) as ->.
    { subst room. apply andb_false_iff. right. by apply Nat.ltb_ge. }
    eexists. split; [reflexivity|]. split_and!; [by apply set_permits_inv| |done].
    cbn. rewrite available_release. lia.
  - assert (room = true) as ->.
    { subst room. apply andb_true_iff. rewrite !Nat.ltb_lt. lia. }
    destruct (count_connection_ok a _ Hw1) as (r & w2 & E2 & Hw2).
    rewrite (count_connection_eq a _ Hw1) in E2.
    cbn [io set_permits set_io pending_per_ip permits] in E2. rewrite Hcnt in E2.
    rewrite (proj2 (Nat.leb_gt _ _)) in E2 by done. injection E2 as <- <-.
    eexists. split; [reflexivity|]. split_and!; [exact Hw2|cbn; lia|].
    intros i. cbn [fst snd io set_pending_per_ip set_io pending_per_ip].
    rewrite held_under_cons. destruct (decide (ip a = i)) as [<-|Hne].
    + by rewrite lookup_insert_eq.
    + rewrite lookup_insert_ne by done. apply Hcnt.
Qed.

Lemma drop_permit_run i w held :
  accounted (w, held) → i ∈ held →
  ∃ w', run (drop_permit (Q := λ A, A) i) false w = Some (tt, false, w') ∧
    accounted (w', remove_one i held).
Proof.
  intros (Hw & Hav & Hcnt) Hin. cbn [fst snd] in *. unfold drop_permit. cbn [run].
  destruct (uncount_connection_ok i w Hw) as (r & w1 & E & Hw1).
  rewrite uncount_connection_eq in * by done. injection E as <- <-.
  pose proof (held_under_elem i held Hin) as Hpos. pose proof (Hcnt i) as Hi.
  destruct (pending_per_ip (io w) !! i) as [n|] eqn:En; cbn in Hi; [|lia].
  destruct (remove_one_spec i held Hin) as [Hl Hc].
  eexists. split; [reflexivity|]. split_and!.
  - by apply set_permits_inv.
  - cbn. rewrite available_release. lia.
  - intros j. cbn [fst snd io set_permits set_pending_per_ip set_io pending_per_ip].
    rewrite put_count_at, Hc. destruct (decide (i = j)) as [<-|]; [lia|].
    rewrite Nat.sub_0_r. apply Hcnt.
Qed.

(** ** Properties *)

(** C11: admission is exact.  After any sequence of accepted connections and ended handlers,
    starting from the fresh server: nothing panics or fails, the semaphore has exactly the
    permits that are not out, the counter of an address is the number of its permits, so at
    most 256 are out and at most four per address; and the next connection is admitted
    exactly when both limits leave room. *)
Theorem admission_exact now ops a :
  ∃ w held, admission_run ops (new_shared_state now, []) = Some (w, held) ∧
    available (permits (io w)) + length held = MAX_CONNECTIONS ∧
    (∀ i, default 0 (pending_per_ip (io w) !! i) = held_under i held ∧
      held_under i held ≤ MAX_CONNECTIONS_PER_IP) ∧
    ∃ w', run (try_acquire (Q := λ A, A) a) false w =
      Some (if (length held <? MAX_CONNECTIONS) &&
               (held_under (ip a) held <? MAX_CONNECTIONS_PER_IP)
            then Some (ip a) else None, false, w').
Proof.
  assert (accounted (new_shared_state now, [])) as Hstart.
  { split_and!; [apply new_shared_state_inv|cbn; by rewrite available_new|].
    intros i. cbn. by rewrite lookup_empty. }
  assert (∀ x, accounted x → ∃ x', admission_run ops x = Some x' ∧ accounted x') as Hrun.
  { clear. induction ops as [|o ops IH]; intros [w held] Hx; [by eexists|]. cbn [admission_run].
    assert (∃ x, admission_op o (w, held) = Some x ∧ accounted x) as (x & -> & Hx').
    { destruct o as [b|i]; cbn [admission_op].
      - destruct (try_acquire_run b w held Hx) as (w' & -> & Hw'). cbn.
        eexists. split; [done|]. by destruct (_ && _).
      - destruct (decide (i ∈ held)) as [Hin|]; [|by eexists].
        destruct (drop_permit_run i w held Hx Hin) as (w' & -> & Hw'). by eexists. }
    by apply IH. }
  destruct (Hrun _ Hstart) as ([w held] & E & Hx). pose proof Hx as (Hw & Hav & Hcnt).
  cbn [fst snd] in *. exists w, held. split_and!; [done|done| |].
  - intros i. split; [apply Hcnt|]. rewrite <-Hcnt.
    destruct (pending_per_ip (io w) !! i) as [n|] eqn:En; cbn; [|lia].
    by apply (inv_pending_ip w Hw i).
  - destruct (try_acquire_run a w held Hx) as (w' & Ew & _). by exists w'.
Qed.
End Accounting.
End Admission.

Lemma admission_exact_witness :
  ∃ (w : @World model_tokio) held,
    admission_run (replicate 5 (Enter (socket_v4 127 0 0 1 5000)))
      (@new_shared_state model_tokio 0%Z, []) = Some (w, held) ∧
    @available model_tokio model_tokio_laws (permits (io w)) + length held = MAX_CONNECTIONS.
Proof.
  destruct (@admission_exact model_tokio model_tokio_laws 0%Z
    (replicate 5 (Enter (socket_v4 127 0 0 1 5000))) (socket_v4 127 0 0 1 5000))
    as (w & held & E & Hav & _).
  exists w, held. split; [exact E|exact Hav].
Defined.
