(* ===== verification/Connection.v ===== *)
(** One connection of the server ([crates/server/src/connection.rs]): reading frames from the
    socket, the handshake, the session of a client from registration to its end, and the task
    that writes a client's outbound queue to its socket.

    The environment answers [Query]s: whether a timeout or a disconnect signal wins a
    [select!], the wall clock, the result of a socket write.  What a client sends is a
    [stream] kept in the world, so that reading a frame is a section of the connection.  A
    write that fails, or that its timeout cancels, leaves a beginning of the frame on the
    socket. *)
From stdpp Require Import functions.
From S2P Require Import Prelude Utf8 Text Frame Presence ChatText Config Prog Net RateLimit.
From S2P Require Import Registry State StateInv Admission.

Definition MAX_USERNAME_BYTES : nat := 32.
Definition HANDSHAKE_TIMEOUT : Duration := from_secs 10.
Definition WRITE_TIMEOUT : Duration := from_secs 10.

Section Connection.
Context `{HashOrder} `{Tokio}.

(** ** Reading *)

(** The end of a stream inside a frame is a truncated frame. *)
Definition exact_error (k : ErrorKind) : ServerError :=
  if decide (k = UnexpectedEof) then TruncatedProtocolFrame else ServerIo k.

Definition read_async_frame (s : stream) : result ServerError (option Frame) * stream :=
  match stream_read s 1 with
  | (Err k, s) => (Err (ServerIo k), s)
  | (Ok [], s) => (Ok None, s)
  | (Ok (b :: _), s) =>
      match stream_read_exact s (FRAME_HEADER_BYTES - 1) with
      | (Err k, s) => (Err (exact_error k), s)
      | (Ok rest, s) =>
          let bytes := b :: rest in
          let payload_len := payload_len bytes in
          if decide (MAX_FRAME_PAYLOAD_BYTES < payload_len)%Z then (Err MessageTooLong, s)
          else
            let version := nth 0 bytes Byte.x00 in
            if decide (version ≠ CURRENT_PROTOCOL_VERSION)
            then (Err UnsupportedProtocolVersion, s)
            else match FrameType_try_from (nth 1 bytes Byte.x00) with
            | Err _ => (Err UnknownProtocolFrameType, s)
            | Ok kind =>
                match stream_read_exact s (Z.to_nat payload_len) with
                | (Err k, s) => (Err (exact_error k), s)
                | (Ok payload, s) => (Ok (Some (mk_Frame version kind payload)), s)
                end
            end
      end
  end.

(** The checks on a handshake frame, in the order of the code. *)
Definition check_username (frame : Frame) : result ServerError str :=
  if decide (kind frame ≠ Handshake) then Err InvalidFrameType
  else
    username ← ok_or (from_utf8 (payload frame)) InvalidUtf8;
    if MAX_USERNAME_BYTES <? blen username then Err UsernameTooLong
    else if is_empty (trim username) then Err EmptyHandshakeUsername
    else if negb (is_valid_username username) then Err UsernameContainsControlCharacters
    else Ok (trim username).

Definition read_handshake_username (s : stream) : result ServerError str * stream :=
  match read_async_frame s with
  | (Ok (Some frame), s) => (check_username frame, s)
  | (Ok None, s) => (Err EmptyHandshakeUsername, s)
  | (Err MessageTooLong, s) => (Err UsernameTooLong, s)
  | (Err e, s) => (Err e, s)
  end.

(** Reading from a connection's socket. *)
Definition on_stream {A} (conn : nat) (f : stream → result ServerError A * stream) : M A := λ w,
  let '(r, s) := f (streams (io w) conn) in
  (Done r, set_io (mk_IO (<[conn := s]> (streams (io w))) (written (io w)) (wire (io w))
    (outlet (io w)) (permits (io w)) (pending_per_ip (io w))) w).

(** A message has gone out, whole, on a connection's socket. *)
Definition log_written (conn : nat) (m : OutboundMessage) : M unit := λ w,
  (Done (Ok tt), set_io (mk_IO (streams (io w))
    (<[conn := written (io w) conn ++ [m]]> (written (io w)))
    (<[conn := wire (io w) conn ++ m]> (wire (io w))) (outlet (io w)) (permits (io w))
    (pending_per_ip (io w))) w).

(** Part of a message has gone out before its write failed or timed out. *)
Definition log_torn (conn : nat) (part : list u8) : M unit := λ w,
  (Done (Ok tt), set_io (mk_IO (streams (io w)) (written (io w))
    (<[conn := wire (io w) conn ++ part]> (wire (io w))) (outlet (io w)) (permits (io w))
    (pending_per_ip (io w))) w).

(** The writing half of a connection is to be fed from a queue. *)
Definition attach (queue conn : nat) : M unit := λ w,
  (Done (Ok tt), set_io (mk_IO (streams (io w)) (written (io w)) (wire (io w))
    (<[queue := Some conn]> (outlet (io w))) (permits (io w)) (pending_per_ip (io w))) w).

(** ** What the environment decides *)

Inductive Query : Type → Type :=
  | HandshakeTimedOut (conn : nat) : Query bool
  | SelectDisconnect (dis : nat) : Query bool
  | LocalTime : Query str
  | Sleep (d : Duration) : Query unit
  | WriteAll (conn : nat) (m : OutboundMessage) : Query (result (nat * ErrorKind) unit)
  | Accept : Query (result ErrorKind (SocketAddr * stream))
  | Elapsed : Query Z.

(** A write that fails, or that [timeout] cancels, has sent any number of the message's bytes.
    A disconnect branch is taken only when the signal is there; time does not run back. *)
Inductive answers : ∀ B, Query B → World → B → Prop :=
  | answer_handshake conn w b : answers bool (HandshakeTimedOut conn) w b
  | answer_select dis w b :
      (b = true → watch_ready (watches w dis) = true) →
      answers bool (SelectDisconnect dis) w b
  | answer_time w s : answers str LocalTime w s
  | answer_sleep d w : answers unit (Sleep d) w tt
  | answer_write conn m w r : answers _ (WriteAll conn m) w r
  | answer_accept w r : answers _ Accept w r
  | answer_elapsed w d : (0 <= d)%Z → answers Z Elapsed w d.

Abbreviation program := (tprog World ServerError Query).
Abbreviation task := (prog World ServerError Query).
Open Scope prog_scope.

(** ** Sessions *)

(** [encode_frame(..).map_err(|_| ServerError::MessageTooLong)] *)
Definition encode_chat (text : str) : result ServerError (list u8) :=
  map_err (λ _, MessageTooLong) (encode_frame Chat (as_bytes text)).

Definition pure {A} (r : result ServerError A) : program A := Ret r.

Definition join_message (username : str) : str :=
  lit "@" ++ username ++ lit " has entered the chat. Say hello!" ++ [newline].
Definition leave_message (username : str) : str :=
  username ++ lit " has left the chat" ++ [newline].

(** [record_and_broadcast(..)?] followed by a presence broadcast when somebody was dropped. *)
Definition announce (message : str) (frame : OutboundMessage) : program unit :=
  removed ←? record_and_broadcast message frame None;
  if removed : bool then broadcast_presence else done tt.

Definition send_error (r : SendResult) : result ServerError unit :=
  match r with
  | Sent => Ok tt
  | QueueFull => Err OutboundQueueFull
  | QueueClosed => Err OutboundWriterGone
  end.

(** The loop of [send_message_history] over the snapshot. *)
Definition replay_message (writer : nat) (message : str) : program unit :=
  frame ←? pure (encode_chat message);
  r ←? section (send_on writer frame);
  pure (send_error r).

(** The closure of [send_message_history]; it owns the cloned sender, dropped at its end. *)
Definition replay (address : SocketAddr) (t : ClientToken) (writer : nat) (history : list str)
  : program unit :=
  pbind
    (_ ←? for_each history (replay_message writer);
     section (mark_client_ready address t))
    (λ r, Step (drop_writer writer) (λ _, Ret r)).

Definition send_message_history (address : SocketAddr) (t : ClientToken) : program unit :=
  with_history_replay address t (replay address t).

Definition finish_session (sender_addr : SocketAddr) (username : str) (t : ClientToken)
    (announce_leave : bool) : program unit :=
  removed ←? section (remove_client_if_current sender_addr t);
  if negb removed then done tt
  else if negb announce_leave then done tt
  else
    frame ←? pure (encode_chat (trim_end (leave_message username)));
    _ ←? record_and_broadcast (leave_message username) frame None;
    broadcast_presence.

(** The text a chat frame carries, or why it ends the session. *)
Definition check_chat (frame : Frame) : result ServerError str :=
  if decide (kind frame ≠ Chat) then Err InvalidFrameType
  else if decide (MAX_CHAT_MESSAGE_BYTES < zlen (payload frame))%Z then Err MessageTooLong
  else ok_or (from_utf8 (payload frame)) InvalidUtf8.

(** One message of a client, after the checks. *)
Definition handle_message (sender_addr : SocketAddr) (username : str)
    (simulated_latency : Duration) (content : str) : program unit :=
  if is_empty (trim content) then done tt
  else
    _ ←? section (allow_message sender_addr);
    pbind (if (simulated_latency =? 0)%Z then Ret tt else Ask (Sleep simulated_latency) Ret)
      (λ _, Ask LocalTime (λ time,
        let message := format_chat_message username time content in
        frame ←? pure (encode_chat message);
        announce message frame)).

(** The body of the session's loop: [None] to go round again, a value to leave it. *)
Definition session_step (conn dis : nat) (sender_addr : SocketAddr) (username : str)
    (simulated_latency : Duration) : task (option (result ServerError unit)) :=
  Ask (SelectDisconnect dis) (λ disconnected,
    if disconnected : bool then Ret (Some (Ok tt))
    else Step (on_stream conn read_async_frame) (λ r,
      match r with
      | Err e => Ret (Some (Err e))
      | Ok None => Ret (Some (Ok tt))
      | Ok (Some frame) =>
          match check_chat frame with
          | Err e => Ret (Some (Err e))
          | Ok content =>
              pbind (handle_message sender_addr username simulated_latency content) (λ r,
                match r with
                | Ok _ => Ret None
                | Err e => Ret (Some (Err e))
                end)
          end
      end)).

(** What precedes the loop: history, presence, and the join announcement. *)
Definition enter (sender_addr : SocketAddr) (username : str) (t : ClientToken)
  : program unit :=
  _ ←? send_message_history sender_addr t;
  _ ←? broadcast_presence;
  frame ←? pure (encode_chat (trim_end (join_message username)));
  announce (join_message username) frame.

(** The result of the session, and the value of its [joined] variable. *)
Definition serve_authenticated (conn dis flag : nat) (sender_addr : SocketAddr)
    (username : str) (t : ClientToken) (simulated_latency : Duration)
  : task (result ServerError unit * bool) :=
  pbind (enter sender_addr username t) (λ r,
    match r with
    | Err e => Ret (Err e, false)
    | Ok _ =>
        Step (modify (set_joined_flag flag true)) (λ _,
          Loop (session_step conn dis sender_addr username simulated_latency) (λ r,
            match r with
            | Err e => Ret (Err e, true)
            | Ok _ => pbind (finish_session sender_addr username t true) (λ r, Ret (r, true))
            end))
    end).

(** [outbound_writer]: the queue's messages in order, until it ends or a write fails; then
    the client is removed, and its leave announced when it had joined. *)
Definition writer_failed (sender_addr : SocketAddr) (t : ClientToken) (username : str)
    (flag : nat) : task unit :=
  Step (remove_client_if_current sender_addr t) (λ r,
    match r with
    | Ok true =>
        Step (gets (λ w, joined_flags w flag)) (λ joined,
          pbind
            (match joined with
             | Ok true =>
                 match encode_chat (trim_end (leave_message username)) with
                 | Ok frame => pbind (record_and_broadcast (leave_message username) frame None)
                     (λ _, Ret tt)
                 | Err _ => Ret tt
                 end
             | _ => Ret tt
             end)
            (λ _, pbind broadcast_presence (λ _, Ret tt)))
    | _ => Ret tt
    end).

Definition writer_step (conn queue flag : nat) (sender_addr : SocketAddr) (t : ClientToken)
    (username : str) : task (option unit) :=
  Step (recv_on queue) (λ r,
    match r with
    | Ok (Received m) =>
        Ask (WriteAll conn m) (λ res,
          match res with
          | Ok _ => Step (log_written conn m) (λ _, Ret None)
          | Err (n, _) =>
              Step (log_torn conn (take n m)) (λ _,
                pbind (writer_failed sender_addr t username flag) (λ _, Ret (Some tt)))
          end)
    | Ok RecvPending => Ret None
    | _ => Ret (Some tt)
    end).

(** The receiver is dropped when the task ends. *)
Definition outbound_writer (conn queue flag : nat) (sender_addr : SocketAddr)
    (t : ClientToken) (username : str) : task unit :=
  Loop (writer_step conn queue flag sender_addr t username) (λ _,
    Step (close_on queue) (λ _, Ret tt)).

(** The queue, the disconnect signal, and the registration that publishes them. *)
Definition open_session (conn : nat) (sender_addr : SocketAddr) : M (ClientToken * nat * nat) :=
  queue ← new_channel;
  _ ← attach queue conn;
  dis ← new_watch;
  t ← register_pending_client sender_addr queue dis;
  mret (t, queue, dis).

(** [ConnectionHandler::serve] without its permit. *)
Definition serve_connection (conn flag : nat) (sender_addr : SocketAddr)
    (simulated_latency : Duration) : program unit :=
  Ask (HandshakeTimedOut conn) (λ timed_out,
    if timed_out : bool then pure (Err (ServerIo TimedOut))
    else
      username ←? section (on_stream conn read_handshake_username);
      '(t, queue, dis) ←? section (open_session conn sender_addr);
      pbind (section (set_client_username sender_addr t username)) (λ r,
        match r with
        | Err e =>
            pbind (section (remove_client_if_current sender_addr t)) (λ _, Ret (Err e))
        | Ok _ =>
            Spawn (outbound_writer conn queue flag sender_addr t username)
              (pbind (serve_authenticated conn dis flag sender_addr username t
                        simulated_latency) (λ '(r, joined),
                match r with
                | Err e =>
                    pbind (finish_session sender_addr username t joined) (λ _, Ret (Err e))
                | Ok _ => Ret (Ok tt)
                end))
        end)).

(** The permit is dropped when the handler is done. *)
Definition serve (conn : nat) (sender_addr : SocketAddr) (permit : IpAddr)
    (simulated_latency : Duration) : program unit :=
  Step new_joined_flag (λ flag,
    match flag with
    | Ok flag =>
        pbind (serve_connection conn flag sender_addr simulated_latency) (λ r,
          pbind (drop_permit permit) (λ _, Ret r))
    | Err e => Ret (Err e)
    end).
End Connection.
