(* ===== verification/Server.v ===== *)
(** The server as a whole ([run_server_async] of [crates/server/src/lib.rs]): the accept loop,
    the periodic clean-up of the rate limiters, one handler task per admitted connection and
    one writer task per session, in every interleaving.  Time is a task of its own. *)
From stdpp Require Import functions.
From S2P Require Import Prelude Utf8 Text Frame Presence Config Prog Net RateLimit Registry.
From S2P Require Import State StateInv Admission Connection.

Section Server.
Context `{HashOrder} `{Tokio}.

Abbreviation task := (prog World ServerError Query).

(** ** Operations *)

(** A connection that has been accepted: its identity and what its peer will send. *)
Definition new_connection (s : stream) : M nat :=
  conn ← fresh_id;
  _ ← modify (λ w, set_io (mk_IO (<[conn := s]> (streams (io w)))
        (<[conn := []]> (written (io w))) (<[conn := []]> (wire (io w))) (outlet (io w))
        (permits (io w)) (pending_per_ip (io w))) w);
  mret conn.

(** One round of the accept loop; it never breaks. *)
Definition accept_step (simulated_latency : Duration) : task (option Empty_set) :=
  Ask Accept (λ accepted,
    match accepted with
    | Err k =>
        if decide (k = Other) then Ask (Sleep (from_millis 50)) (λ _, Ret None) else Ret None
    | Ok (peer_addr, s) =>
        Step (new_connection s) (λ conn,
          pbind (try_acquire peer_addr) (λ permit,
            match conn, permit with
            | Ok conn, Some permit =>
                Spawn (pbind (serve conn peer_addr permit simulated_latency) (λ _, Ret tt))
                  (Ret None)
            | _, _ => Ret None
            end))
    end).

(** The clean-up task: every minute, errors only logged. *)
Definition cleanup_step : task (option Empty_set) :=
  Ask (Sleep (from_secs 60)) (λ _,
    pbind cleanup_rate_limits (λ _, Ret None)).

(** Time passes. *)
Definition tick : task (option Empty_set) :=
  Ask Elapsed (λ d, Step (modify (λ w, set_clock (clock w + Z.max 0 d)%Z w)) (λ _, Ret None)).

Definition forever (body : task (option Empty_set)) : task unit :=
  Loop body (λ r : Empty_set, match r with end).

(** [run_server_async] once the listener is bound. *)
Definition run_server_async (config : ServerConfig) : task unit :=
  Spawn (forever tick)
    (Spawn (forever cleanup_step)
      (forever (accept_step (simulated_latency config)))).

(** The configurations the server can be in. *)
Definition server_start (config : ServerConfig) (now : Instant) : Prog.config World ServerError Query :=
  initial (new_shared_state now) (run_server_async config).

Definition reachable (config : ServerConfig) (now : Instant)
    (c : Prog.config World ServerError Query) : Prop :=
  csteps answers (server_start config now) c.

(** ** What the sections of a connection may rely on *)

Lemma on_stream_ok {A} conn (f : stream → result ServerError A * stream) :
  act_ok Inv (on_stream conn f).
Proof.
  intros w Hw. unfold on_stream. destruct (f _) as [r s]. do 2 eexists. split; [done|].
  apply Inv_set_io; [done|apply Hw].
Qed.

Lemma log_written_ok conn m : act_ok Inv (log_written conn m).
Proof.
  intros w Hw. do 2 eexists. split; [done|]. apply Inv_set_io; [done|apply Hw].
Qed.

Lemma log_torn_ok conn part : act_ok Inv (log_torn conn part).
Proof.
  intros w Hw. do 2 eexists. split; [done|]. apply Inv_set_io; [done|apply Hw].
Qed.

Lemma recv_on_ok i : act_ok Inv (recv_on i).
Proof.
  intros w Hw. unfold recv_on, mbind, M_bind, gets.
  destruct (poll_recv (channels w i)) as [r c]. eauto using Inv_channels.
Qed.

Lemma close_on_ok i : act_ok Inv (close_on i).
Proof. intros w Hw. do 2 eexists. split; [done|]. by apply Inv_channels. Qed.

Lemma fresh_id_ok : act_ok Inv fresh_id.
Proof. intros w Hw. do 2 eexists. split; [done|]. apply Inv_next_id; [lia|done]. Qed.

Lemma set_flag_ok i b : act_ok Inv (modify (set_joined_flag i b)).
Proof. intros w Hw. do 2 eexists. split; [done|]. destruct Hw. by split. Qed.

Lemma new_joined_flag_ok : act_ok Inv new_joined_flag.
Proof.
  intros w Hw. do 2 eexists. split; [done|].
  assert (Inv (set_next_id (S (next_id w)) w)) as [] by (apply Inv_next_id; [lia|done]).
  by split.
Qed.

Lemma new_connection_ok s : act_ok Inv (new_connection s).
Proof.
  intros w Hw. do 2 eexists. split; [done|].
  apply (Inv_set_io (set_next_id (S (next_id w)) w)).
  - apply Inv_next_id; [lia|done].
  - apply Hw.
Qed.

Lemma clock_ok d : act_ok Inv (modify (λ w, set_clock (clock w + Z.max 0 d)%Z w)).
Proof. intros w Hw. do 2 eexists. split; [done|]. destruct Hw. by split. Qed.

(** The state in which a session registers: two fresh identities for its channels. *)
Definition with_channels conn w : World :=
  set_watches (<[S (next_id w) := watch_channel]> (watches w))
    (set_next_id (S (S (next_id w)))
      (snd (attach (next_id w) conn
        (set_channels (<[next_id w := mpsc_channel OUTBOUND_QUEUE_SIZE]> (channels w))
          (set_next_id (S (next_id w)) w))))).

Lemma with_channels_inv conn w : Inv w → Inv (with_channels conn w).
Proof.
  intros Hw. apply (Inv_heap (set_next_id (S (S (next_id w))) (snd (attach (next_id w) conn w)))).
  apply Inv_next_id; [cbn; lia|]. apply Inv_set_io; [done|apply Hw].
Qed.

Lemma open_session_eq conn a w :
  open_session conn a w =
    match register_pending_client a (next_id w) (S (next_id w)) (with_channels conn w) with
    | (Done (Ok t), w') => (Done (Ok (t, next_id w, S (next_id w))), w')
    | (Done (Err e), w') => (Done (Err e), w')
    | (Panicking, w') => (Panicking, w')
    end.
Proof. done. Qed.

Lemma open_session_ok conn a : act_ok Inv (open_session conn a).
Proof.
  intros w Hw. rewrite open_session_eq. unfold register_pending_client.
  destruct (register_inv a (next_id w) (Some (S (next_id w))) false (with_channels conn w))
    as (r & w' & -> & Hw').
  - by apply with_channels_inv.
  - cbn. lia.
  - apply (fresh_writer (next_id w) (clients w)); [apply Hw|cbn; lia].
  - destruct r; eauto.
Qed.

(** ** Texts that fit a frame *)

Lemma as_bytes_app_zlen s k : zlen (as_bytes (s ++ k)) = (zlen (as_bytes s) + zlen (as_bytes k))%Z.
Proof. by rewrite as_bytes_app, zlen_app. Qed.

Lemma trim_end_by_fits p s : fits s → fits (trim_end_by p s).
Proof.
  unfold fits. destruct (trim_end_by_split p s) as (k & Hs & _). rewrite Hs at 1.
  rewrite as_bytes_app_zlen. pose proof (zlen_nonneg (as_bytes k)). lia.
Qed.

Lemma encode_chat_Ok text frame : encode_chat text = Ok frame → fits text.
Proof.
  unfold encode_chat. destruct (encode_frame _ _) eqn:E; [|done]. intros _.
  by apply encode_frame_Ok in E as [_ ?].
Qed.

Lemma encode_chat_fits text : fits text →
  encode_chat text = Ok (frame_header Chat (zlen (as_bytes text)) ++ as_bytes text).
Proof. intros Hf. unfold encode_chat. by rewrite encode_frame_small. Qed.

(** The announcements end in a newline after a visible character, so trimming white space
    and trimming newlines agree. *)
Lemma trim_end_by_snoc p s c : p c = false → trim_end_by p (s ++ [c]) = s ++ [c].
Proof.
  intros Hc. unfold trim_end_by. rewrite reverse_app. change (reverse [c]) with [c].
  cbn [app trim_start_by]. rewrite Hc. change (c :: reverse s) with ([c] ++ reverse s).
  by rewrite reverse_app, reverse_involutive.
Qed.

Lemma trim_end_by_snoc2 p s c d :
  p d = true → p c = false → trim_end_by p (s ++ [c; d]) = s ++ [c].
Proof.
  intros Hd Hc. rewrite <-(trim_end_by_snoc p s c Hc). unfold trim_end_by.
  rewrite !reverse_app. change (reverse [c; d]) with [d; c]. change (reverse [c]) with [c].
  cbn [app trim_start_by]. by rewrite Hd.
Qed.

Lemma whitespace_newline c : is_whitespace c = false → bool_decide (c = newline) = false.
Proof. intros Hc. apply bool_decide_eq_false. by intros ->. Qed.

Lemma trim_end_newline s c :
  is_whitespace c = false →
  trim_end_matches newline (s ++ [c; newline]) = s ++ [c] ∧ trim_end (s ++ [c; newline]) = s ++ [c].
Proof.
  intros Hc. unfold trim_end_matches, trim_end.
  rewrite !trim_end_by_snoc2; try done. by apply whitespace_newline.
Qed.

Lemma join_message_shape username : ∃ s, join_message username = s ++ [chr 33; newline].
Proof.
  exists (lit "@" ++ username ++ lit " has entered the chat. Say hello"). unfold join_message.
  rewrite <-!(assoc_L (++)). reflexivity.
Qed.

Lemma leave_message_shape username : ∃ s, leave_message username = s ++ [chr 116; newline].
Proof.
  exists (username ++ lit " has left the cha"). unfold leave_message.
  rewrite <-!(assoc_L (++)). reflexivity.
Qed.

Lemma announcement_fits message s c frame :
  message = s ++ [c; newline] → is_whitespace c = false →
  encode_chat (trim_end message) = Ok frame → fits (trim_end_matches newline message).
Proof.
  intros -> Hc E%encode_chat_Ok. destruct (trim_end_newline s c Hc) as [-> Et].
  by rewrite Et in E.
Qed.

Lemma join_message_fits username frame :
  encode_chat (trim_end (join_message username)) = Ok frame →
  fits (trim_end_matches newline (join_message username)).
Proof. destruct (join_message_shape username) as [s Hs]. by eapply announcement_fits. Qed.

Lemma leave_message_fits username frame :
  encode_chat (trim_end (leave_message username)) = Ok frame →
  fits (trim_end_matches newline (leave_message username)).
Proof. destruct (leave_message_shape username) as [s Hs]. by eapply announcement_fits. Qed.

(** ** Every program of a connection is safe *)

Lemma safe_pure_bind {A B} (r : result ServerError A) (f : A → tprog World ServerError Query B) :
  (∀ a, r = Ok a → safe Inv (f a)) → safe Inv (try_bind (pure r) f).
Proof. intros Hf. destruct r; [by apply Hf|done]. Qed.

Lemma announce_safe message frame :
  fits (trim_end_matches newline message) → safe Inv (announce message frame).
Proof.
  intros Hm. apply safe_try_bind; [by apply record_and_broadcast_safe|].
  intros []; [apply broadcast_presence_safe|done].
Qed.

Lemma replay_safe a t i h : safe Inv (replay a t i h).
Proof.
  apply safe_bind.
  - apply safe_try_bind.
    + apply safe_for_each. intros m. apply safe_pure_bind. intros frame _.
      apply safe_try_bind; [apply safe_section, send_on_ok|done].
    + intros _. apply safe_section, mark_client_ready_ok.
  - intros r. split; [apply drop_writer_ok|done].
Qed.

Lemma send_message_history_safe a t : safe Inv (send_message_history a t).
Proof. apply with_history_replay_safe. intros. apply replay_safe. Qed.

Lemma finish_session_safe a u t joined : safe Inv (finish_session a u t joined).
Proof.
  apply safe_try_bind; [apply safe_section, remove_client_ok|]. intros [|]; [|done].
  destruct joined; [|done]. apply safe_pure_bind. intros frame Hframe.
  apply safe_try_bind; [|intros; apply broadcast_presence_safe].
  apply record_and_broadcast_safe. by eapply leave_message_fits.
Qed.

Lemma handle_message_safe a u latency content : safe Inv (handle_message a u latency content).
Proof.
  unfold handle_message. destruct (is_empty _); [done|].
  apply safe_try_bind; [apply safe_section, allow_message_ok|]. intros _.
  apply safe_bind; [by destruct (_ =? _)%Z|]. intros _ time.
  apply safe_pure_bind. intros frame Hframe. apply announce_safe.
  apply trim_end_by_fits. by eapply encode_chat_Ok.
Qed.

Lemma session_step_safe conn dis a u latency : safe Inv (session_step conn dis a u latency).
Proof.
  intros [|]; [done|]. split; [apply on_stream_ok|]. intros _ [[frame|]|e] _ _ _; try done.
  destruct (check_chat frame) as [content|]; [|done].
  apply safe_bind; [apply handle_message_safe|]. by intros [].
Qed.

Lemma enter_safe a u t : safe Inv (enter a u t).
Proof.
  apply safe_try_bind; [apply send_message_history_safe|]. intros _.
  apply safe_try_bind; [apply broadcast_presence_safe|]. intros _.
  apply safe_pure_bind. intros frame Hframe. apply announce_safe.
  by eapply join_message_fits.
Qed.

Lemma serve_authenticated_safe conn dis flag a u t latency :
  safe Inv (serve_authenticated conn dis flag a u t latency).
Proof.
  apply safe_bind; [apply enter_safe|]. intros [[]|e]; [|done].
  split; [apply set_flag_ok|]. intros _ _ _ _ _.
  split; [apply session_step_safe|]. intros [[]|e]; [|done].
  apply safe_bind; [apply finish_session_safe|done].
Qed.

Lemma outbound_writer_safe conn queue flag a t u :
  safe Inv (outbound_writer conn queue flag a t u).
Proof.
  split.
  - split; [apply recv_on_ok|]. intros _ [[m| |]|e] _ _ _; try done.
    intros [[]|[n k]]; [split; [apply log_written_ok|done]|].
    split; [apply log_torn_ok|]. intros _ _ _ _ _. apply safe_bind; [|done].
    split; [apply remove_client_ok|]. intros _ [[|]|e] _ _ _; try done.
    split; [apply gets_ok|]. intros _ joined _ _ _.
    apply safe_bind; [|intros; apply safe_bind; [apply broadcast_presence_safe|done]].
    destruct joined as [[|]|]; try done. destruct (encode_chat _) as [frame|] eqn:E; [|done].
    apply safe_bind; [|done]. apply record_and_broadcast_safe. by eapply leave_message_fits.
  - intros _. split; [apply close_on_ok|done].
Qed.

(** The username a handshake accepts, and the rest of the invariant's names. *)
Lemma check_username_ok frame u : check_username frame = Ok u → name_ok u.
Proof.
  unfold check_username. case_decide; [done|].
  destruct (from_utf8 (payload frame)) as [s|]; [|done]. cbn [ok_or mbind result_bind].
  destruct (Nat.ltb_spec MAX_USERNAME_BYTES (blen s)) as [|Hlen]; [done|].
  destruct (is_empty (trim s)); [done|]. destruct (is_valid_username s) eqn:Hv; [|done].
  intros [= <-]. split; [by apply is_valid_username_trim|].
  pose proof (blen_trim s). unfold MAX_USERNAME_BYTES in Hlen. lia.
Qed.

Lemma handshake_name_ok s u s' : read_handshake_username s = (Ok u, s') → name_ok u.
Proof.
  unfold read_handshake_username. destruct (read_async_frame s) as [[[frame|]|e] s1].
  - intros [= E _]. by eapply check_username_ok.
  - done.
  - by destruct e.
Qed.

Lemma serve_connection_safe conn flag a latency : safe Inv (serve_connection conn flag a latency).
Proof.
  intros [|]; [done|]. apply safe_section_bind; [apply on_stream_ok|].
  intros w u w' _ E. assert (name_ok u) as Hu.
  { unfold on_stream in E. destruct (read_handshake_username _) as [r s] eqn:Er.
    simplify_eq. by eapply handshake_name_ok. }
  apply safe_try_bind; [apply safe_section, open_session_ok|]. intros [[t queue] dis].
  apply safe_bind; [by apply safe_section, set_client_username_ok|].
  intros [[]|e].
  - split; [apply outbound_writer_safe|].
    apply safe_bind; [apply serve_authenticated_safe|]. intros [[[]|e] joined]; [done|].
    apply safe_bind; [apply finish_session_safe|done].
  - apply safe_bind; [apply safe_section, remove_client_ok|done].
Qed.

Lemma serve_safe conn a permit latency : safe Inv (serve conn a permit latency).
Proof.
  split; [apply new_joined_flag_ok|]. intros _ [flag|e] _ _ _; [|done].
  apply safe_bind; [apply serve_connection_safe|]. intros r.
  apply safe_bind; [apply drop_permit_safe|done].
Qed.

Lemma accept_step_safe latency : safe Inv (accept_step latency).
Proof.
  intros [[a s]|k].
  - split; [apply new_connection_ok|]. intros _ conn _ _ _.
    apply safe_bind; [apply try_acquire_safe|]. intros permit.
    destruct conn, permit; try done. split; [|done].
    apply safe_bind; [apply serve_safe|done].
  - by destruct (decide _).
Qed.

Lemma run_server_safe config : safe Inv (run_server_async config).
Proof.
  split; [split; [|done]|split; [split; [|done]|split; [|done]]].
  - intros d. split; [apply clock_ok|done].
  - intros _. apply safe_bind; [apply cleanup_rate_limits_safe|done].
  - apply accept_step_safe.
Qed.

Lemma reachable_safe config now c : reachable config now c → config_safe Inv c.
Proof.
  intros Hc. eapply csteps_safe; [exact Hc|].
  apply initial_safe; [apply new_shared_state_inv|apply run_server_safe].
Qed.

(** ** Properties *)

(** C1: no panic, anywhere.  In every configuration the server can reach, in any interleaving
    of any number of connections sending any bytes, with any timing and any socket failure:
    no task has panicked, so neither the replay barrier nor any other mutex is poisoned. *)
Theorem server_never_panics config now c :
  reachable config now c →
  panics c = 0 ∧ barrier_poisoned c = false ∧ poisoned (world c) = [].
Proof. intros (Hw & ? & ? & _)%reachable_safe. split_and!; try done. apply Hw. Qed.

(** C7: the connection limits hold at every moment of every interleaving: the counters the
    limits are decided on are exactly the numbers of registered clients, in total and per
    address, and these are at most 256 and four. *)
Theorem connection_limits_hold config now c :
  reachable config now c →
  let r := clients (world c) in
  total r = msum (λ _ l, length l) (by_addr r) ∧ total r ≤ MAX_CONNECTIONS ∧
  ∀ i, default 0 (per_ip r !! i) = msum (count_ip i) (by_addr r) ∧
    default 0 (per_ip r !! i) ≤ MAX_CONNECTIONS_PER_IP.
Proof.
  intros (Hw & _)%reachable_safe r. pose proof (inv_registry _ Hw) as Hr.
  split_and!; [apply Hr|apply Hr|]. intros i. split; apply Hr.
Qed.

(** C6: the two registries never disagree, and memory is bounded: at every moment of every
    interleaving each address has the same clients, in the same order, in the client
    registry and in the delivery registry; no two deliveries share a channel; a backlog holds
    at most 128 messages, none once the client is ready; the history at most a hundred, each
    of which can be sent; and every registered name is one the handshake accepts. *)
Theorem registries_agree config now c :
  reachable config now c →
  let w := world c in
  (∀ a, cd_token <$> deliveries_at (deliveries w) a = token <$> clients_at (clients w) a) ∧
  NoDup (writer <$> all_values (deliveries w)) ∧
  (∀ a d, d ∈ deliveries_at (deliveries w) a →
    addr d = a ∧ length (pending_messages d) ≤ PENDING_MESSAGES_LIMIT ∧
    (ready d = true → pending_messages d = [])) ∧
  length (entries (history w)) ≤ MESSAGE_HISTORY_LIMIT ∧
  Forall (λ text, is_ok (encode_chat text) = true) (entries (history w)) ∧
  (∀ a s u, s ∈ clients_at (clients w) a → username s = Some u → name_ok u).
Proof.
  intros (Hw & _)%reachable_safe w. pose proof (inv_deliveries _ Hw) as Hd.
  split_and!; [apply Hd|apply Hd| |apply (inv_history _ Hw)| |apply (inv_names _ Hw)].
  - intros a d Hin. pose proof (ok_each _ _ _ Hd a) as Hall. rewrite Forall_forall in Hall.
    destruct (Hall d Hin). done.
  - eapply Forall_impl; [apply (inv_history _ Hw)|]. intros text Hf.
    unfold encode_chat. by rewrite encode_frame_small.
Qed.
End Server.

(** ** A concrete run: the two background tasks have been spawned *)

Definition demo_config : ServerConfig := for_server None None.

Definition demo_pool : Prog.config (@World model_tokio) ServerError (@Query model_tokio) :=
  let rest := forever (@accept_step canonical_order model_tokio (simulated_latency demo_config)) in
  mk_config (new_shared_state 0%Z) None false 0
    (<[0 := Spawn (forever (@cleanup_step model_tokio)) rest]> (<[1 := forever (@tick model_tokio)]>
      {[0 := @run_server_async canonical_order model_tokio demo_config]})).

Lemma demo_reachable : @reachable canonical_order model_tokio demo_config 0%Z demo_pool.
Proof.
  eapply rtc_l; [|apply rtc_refl].
  apply (cstep_spawn answers (server_start demo_config 0%Z) 0 1); reflexivity.
Qed.

Lemma server_never_panics_witness : panics demo_pool = 0 ∧ poisoned (world demo_pool) = [].
Proof.
  destruct (server_never_panics _ _ _ demo_reachable) as (E & _ & Ep). split; [exact E|exact Ep].
Defined.

Lemma connection_limits_hold_witness : total (clients (world demo_pool)) ≤ MAX_CONNECTIONS.
Proof.
  destruct (connection_limits_hold _ _ _ demo_reachable) as (_ & E & _). exact E.
Defined.

Lemma registries_agree_witness : NoDup (writer <$> all_values (deliveries (world demo_pool))).
Proof.
  destruct (registries_agree _ _ _ demo_reachable) as (_ & E & _). exact E.
Defined.
