(* ===== verification/Scenario.v ===== *)
(** A run of the whole server, evaluated by the kernel: [alice] joins and talks, [bob] joins,
    is sent the history, and talks, [alice] leaves.  The run is a schedule of [Schedule] over
    the programs of [Server], so the configurations in it are reachable ones: they are the
    concrete inputs of the theorems about all interleavings. *)
From S2P Require Import Prelude Utf8 Text Frame Presence ChatText Config Prog Schedule Net.
From S2P Require Import RateLimit Registry State Admission Connection Server.

(** ** An environment *)

Record moment := mk_moment {
  accepted_now : result ErrorKind (SocketAddr * reader);
  write_now : result (nat * ErrorKind) unit;
  timed_out_now : bool }.

(** The disconnect signal is taken as soon as it is there. *)
Definition answer_at (m : moment) : environment (@World model_tokio) (@Query model_tokio) :=
  λ B q w,
    match q in @Query _ B return B with
    | HandshakeTimedOut _ => timed_out_now m
    | SelectDisconnect dis => @watch_ready model_tokio (watches w dis)
    | LocalTime => lit "12:00"
    | Sleep _ => tt
    | WriteAll _ _ => write_now m
    | Accept => accepted_now m
    | Elapsed => 1000%Z
    end.

Lemma answer_at_truthful m : truthful (@answers model_tokio) (answer_at m).
Proof. intros B q w. destruct q; by constructor. Qed.

Definition idle : moment := mk_moment (Err Other) (Ok tt) false.
Definition visitor (a : SocketAddr) (frames : list (list u8)) : moment :=
  mk_moment (Ok (a, map Data frames)) (Ok tt) false.

Definition frame_bytes (k : FrameType) (s : str) : list u8 :=
  frame_header k (zlen (as_bytes s)) ++ as_bytes s.

(** ** The run *)

Definition alice_addr : SocketAddr := socket_v4 10 0 0 1 5001.
Definition bob_addr : SocketAddr := socket_v4 10 0 0 2 5002.

Definition alice : moment := visitor alice_addr
  [frame_bytes Handshake (lit "alice"); frame_bytes Chat (lit "hi")].
Definition bob : moment := visitor bob_addr
  [frame_bytes Handshake (lit "bob"); frame_bytes Chat (lit "hello @alice")].

Definition run_start : Prog.config (@World model_tokio) ServerError (@Query model_tokio) :=
  @server_start canonical_order model_tokio (for_server None None) 0%Z.

Definition script_run (l : list (nat * nat * moment))
  : Prog.config (@World model_tokio) ServerError (@Query model_tokio) :=
  follow (map (λ '(t, n, m), Run t n (answer_at m)) l) run_start.

Lemma script_run_reachable l :
  @reachable canonical_order model_tokio (for_server None None) 0%Z (script_run l).
Proof.
  apply follow_reachable, Forall_forall. intros x ([[t n] m] & -> & _)%list_elem_of_fmap.
  apply answer_at_truthful.
Qed.

Definition script_trace (l : list (nat * nat * moment))
  : list (Prog.config (@World model_tokio) ServerError (@Query model_tokio)) :=
  trace (map (λ '(t, n, m), Run t n (answer_at m)) l) run_start.

Lemma script_execution l : execution (@answers model_tokio) run_start (script_trace l).
Proof.
  apply trace_execution, Forall_forall. intros x ([[t n] m] & -> & _)%list_elem_of_fmap.
  apply answer_at_truthful.
Qed.

(** Alice is in the room; bob's handshake is done, his handler about to replay the history. *)
Definition before_replay : list (nat * nat * moment) :=
  [(0, 3, idle); (0, 5, alice); (3, 20, idle); (4, 20, idle); (0, 6, bob); (5, 6, idle)].

(** Alice says "hi" while bob waits. *)
Definition bob_waiting : list (nat * nat * moment) := before_replay ++ [(3, 10, idle)].

(** Alice leaves; bob is let in, talks and leaves; the writers drain their queues. *)
Definition whole_run : list (nat * nat * moment) :=
  bob_waiting ++ [(3, 30, idle); (5, 80, idle); (4, 40, idle); (6, 40, idle)].

(** The chat texts written to a connection. *)
Definition texts_of (frames : list (list u8)) : list str :=
  omap (λ f, if bool_decide (nth 1 f Byte.x00 = FrameType_as_u8 Chat) then from_utf8 (drop 6 f)
             else None) frames.

Definition socket_texts (l : list (nat * nat * moment)) (conn : nat) : list str :=
  texts_of (written (io (world (script_run l))) conn).

(** What bob's client is sent: the history, then what was broadcast while he waited, which he
    gets a second time, then the live messages; alice's is sent what happened while she was
    in the room.  Nobody is left registered, and nobody holds the barrier. *)
Lemma whole_run_sockets :
  socket_texts whole_run 5 = map lit ["@alice has entered the chat. Say hello!"%string;
    "[alice](12:00): hi"%string; "alice has left the chat"%string;
    "[alice](12:00): hi"%string; "alice has left the chat"%string;
    "@bob has entered the chat. Say hello!"%string; "[bob](12:00): hello @alice"%string] ∧
  socket_texts whole_run 0 = map lit ["@alice has entered the chat. Say hello!"%string;
    "[alice](12:00): hi"%string] ∧
  total (clients (world (script_run whole_run))) = 0 ∧
  owner (script_run whole_run) = None ∧ panics (script_run whole_run) = 0.
Proof. split_and!; vm_compute; reflexivity. Qed.
