(* ===== verification/ServerTests.v ===== *)
(** The repository's own tests of the server ([mod tests] of [crates/server/src/state.rs],
    [crates/server/src/connection.rs] and [crates/server/src/lib.rs]) as executable
    definitions over the model, with the test-only helpers of [state.rs].

    A test is an action on the shared state: it runs programs to their end, and an assertion
    or an [unwrap] that fails panics.  The tests that start tasks are schedules.  Sockets are
    the queues behind them: the helpers' threads only copy a queue to a socket. *)
From stdpp Require Import pretty functions.
From S2P Require Import Prelude Utf8 Text Frame Presence Config Prog Schedule Net RateLimit.
From S2P Require Import Registry State Admission Connection Server Scenario.

#[local] Existing Instance canonical_order.
#[local] Existing Instance model_tokio.

Abbreviation program := (tprog World ServerError Query).

Definition eqb {A} `{EqDecision A} (x y : A) : bool := bool_decide (x = y).
Definition assert (b : bool) : M unit := if b then mret tt else panic.

(** A call made by the test's only thread. *)
Definition call {A} (p : program A) : M A := λ w,
  match run p false w with Some (r, _, w') => (Done r, w') | None => (Panicking, w) end.

(** [unwrap_err] *)
Definition unwrap_err {A} (m : M A) : M ServerError := λ w,
  match m w with
  | (Done (Err e), w') => (Done (Ok e), w')
  | (_, w') => (Panicking, w')
  end.

(** [unwrap_err().to_string()]; no test looks at an I/O error. *)
Definition err_text {A} (m : M A) : M str :=
  e ← unwrap_err m; mret (error_message (λ _, []) e).

Definition passes (test : M unit) : bool :=
  match test (new_shared_state 1000000000000%Z) with (Done (Ok _), _) => true | _ => false end.

Definition line (s : string) : str := lit s ++ [newline].
Definition bytes (s : string) : list u8 := as_bytes (line s).

(** The address of the [n]th connection to the test's listener. *)
Definition peer (n : nat) : SocketAddr := socket_v4 127 0 0 1 (50000 + N.of_nat n).

(** [tokio::sync::mpsc::channel(n)] *)
Definition channel_of (n : nat) : M nat :=
  i ← fresh_id; _ ← set_channel i (mpsc_channel n); mret i.
Definition queue_of (ch : nat) : M (list OutboundMessage) :=
  c ← gets channels; mret (queue (c ch)).

(** ** The test-only helpers of [state.rs] *)

(** The channel is the socket the helper's thread copies it to. *)
Definition register_pending_client_for_test (address : SocketAddr) : M (ClientToken * nat) :=
  writer ← new_channel;
  t ← register_client_with_status address writer None false;
  mret (t, writer).

Definition register_client (address : SocketAddr) : M (ClientToken * nat) :=
  writer ← new_channel;
  t ← register_client_with_status address writer None true;
  mret (t, writer).

Definition history_snapshot (address : SocketAddr) (t : ClientToken) : program (nat * list str) :=
  with_barrier ClientStatePoisoned (history_snapshot_unlocked address t).

Definition record_message (message : str) : program unit :=
  with_barrier ClientStatePoisoned (section (record_section message)).

(** ** [state.rs] *)

Definition message_history_evicts_oldest_entry_without_shifting_retained_entries : M unit :=
  let h := record (record (record (new_history 2) (line "first")) (line "second")) (line "third") in
  assert (eqb (snapshot h) [lit "second"; lit "third"]).

Definition message_text (i : nat) : str := lit "message " ++ lit (pretty (N.of_nat i)).

Definition server_history_snapshot_returns_trimmed_retained_messages_in_order : M unit :=
  '(t, _) ← register_client (peer 0);
  _ ← call (for_each (seq 0 101) (λ i, record_message (message_text i ++ [newline])));
  '(_, h) ← call (history_snapshot (peer 0) t);
  _ ← assert (eqb (length h) 100);
  _ ← assert (eqb (head h) (Some (message_text 1)));
  assert (eqb (last h) (Some (message_text 100))).

Definition pending_clients_do_not_receive_live_broadcasts_before_history_replay : M unit :=
  '(t, socket) ← register_pending_client_for_test (peer 0);
  '(writer, _) ← call (history_snapshot (peer 0) t);
  _ ← call (broadcast (bytes "live during history") None);
  unexpected ← queue_of socket;
  _ ← assert (is_empty unexpected);
  r ← send_on writer (bytes "history");
  _ ← assert (match r with Sent => true | _ => false end);
  _ ← mark_client_ready (peer 0) t;
  lines ← queue_of socket;
  assert (eqb lines [bytes "history"; bytes "live during history"]).

(** A session and its delivery, entered by hand. *)
Definition enter_by_hand (address : SocketAddr) (name : option str) (writer : option nat)
  : M ClientToken :=
  t ← ClientToken_new;
  c ← gets clients;
  _ ← modify (set_clients (mk_ClientRegistry
        (<[address := default [] (by_addr c !! address) ++ [mk_ClientSession t name]]> (by_addr c))
        (<[ip address := S (default 0 (per_ip c !! ip address))]> (per_ip c)) (S (total c))));
  ds ← gets deliveries;
  _ ← match writer with
      | Some ch => modify (set_deliveries (<[address := default [] (ds !! address) ++
            [mk_ClientDelivery address t ch None true []]]> ds))
      | None => mret tt
      end;
  mret t.

Definition broadcast_drops_a_client_when_its_outbound_queue_is_full : M unit :=
  let address := socket_v4 127 0 0 1 12345 in
  writer ← channel_of OUTBOUND_QUEUE_SIZE;
  _ ← clone_writer writer;
  _ ← enter_by_hand address (Some (lit "slow-client")) (Some writer);
  _ ← for_in (seq 0 OUTBOUND_QUEUE_SIZE) (λ _,
        r ← send_on writer (bytes "already queued");
        assert (match r with Sent => true | _ => false end));
  _ ← call (broadcast (bytes "new message") None);
  c ← gets clients;
  assert (eqb (size (by_addr c)) 0).

Definition presence_prunes_closed_clients_and_broadcasts_once_to_active_clients : M unit :=
  let closed_address := socket_v4 127 0 0 1 12345 in
  let active_address := socket_v4 127 0 0 2 12345 in
  closed_writer ← channel_of 1;
  active_writer ← channel_of 1;
  _ ← register_client_with_status closed_address closed_writer None true;
  _ ← register_client_with_status active_address active_writer None true;
  _ ← close_on closed_writer;
  _ ← call broadcast_presence;
  c ← gets clients;
  _ ← assert (bool_decide (by_addr c !! closed_address = None));
  _ ← assert (bool_decide (is_Some (by_addr c !! active_address)));
  first ← recv_on active_writer;
  _ ← assert (match first with Received _ => true | _ => false end);
  second ← recv_on active_writer;
  assert (match second with Received _ => false | _ => true end).

Definition removing_a_client_signals_its_session_to_stop_reading : M unit :=
  let address := socket_v4 127 0 0 1 12345 in
  writer ← channel_of 1;
  dis ← new_watch;
  t ← register_client_with_status address writer (Some dis) true;
  _ ← remove_client_if_current address t;
  s ← gets watches;
  assert (watch_ready (s dis)).

Definition stale_writer_cleanup_does_not_remove_a_replacement_client : M unit :=
  let address := socket_v4 127 0 0 1 12345 in
  old_writer ← channel_of 1;
  new_writer ← channel_of 1;
  old_token ← enter_by_hand address (Some (lit "replacement")) (Some old_writer);
  _ ← enter_by_hand address (Some (lit "current")) (Some new_writer);
  _ ← remove_client_if_current address old_token;
  c ← gets clients;
  let entries := default [] (by_addr c !! address) in
  _ ← assert (eqb (length entries) 1);
  assert (eqb (map username entries) [Some (lit "current")]).

Definition per_ip_limit_is_released_when_a_client_is_removed : M unit :=
  '(t, _) ← register_client (peer 0);
  _ ← for_in (seq 1 (MAX_CONNECTIONS_PER_IP - 1)) (λ n, _ ← register_client (peer n); mret tt);
  e ← err_text (register_client (peer 4));
  _ ← assert (eqb e (lit "connection limit reached"));
  _ ← remove_client_if_current (peer 0) t;
  _ ← register_client (peer 5);
  mret tt.

(** Messages until one is refused, in no time. *)
Fixpoint accepted_messages (fuel : nat) (address : SocketAddr) : M nat :=
  match fuel with
  | O => panic
  | S fuel => λ w,
      match allow_message address w with
      | (Done (Ok _), w') => (n ← accepted_messages fuel address; mret (S n)) w'
      | (Done (Err _), w') => (Done (Ok 0), w')
      | (Panicking, w') => (Panicking, w')
      end
  end.

Definition removing_the_last_client_keeps_its_rate_limit_for_reconnects : M unit :=
  '(t, _) ← register_client (peer 0);
  n ← accepted_messages 1001 (peer 0);
  _ ← assert (20 <=? n);
  _ ← remove_client_if_current (peer 0) t;
  '(t', _) ← register_client (peer 1);
  _ ← unwrap_err (allow_message (peer 1));
  _ ← remove_client_if_current (peer 1) t';
  mret tt.

Definition rate_limit_cleanup_reclaims_stale_entries_from_other_ips : M unit :=
  let stale_1 := ip (socket_v4 192 0 2 1 0) in
  let stale_2 := ip (socket_v4 192 0 2 2 0) in
  let active := socket_v4 192 0 2 3 1234 in
  now ← gets clock;
  let stale_time := (now - RATE_LIMIT_IDLE_EXPIRY - from_secs 1)%Z in
  _ ← modify (set_rate_limits
        (<[stale_1 := mk_RateLimitState (Binary64.f64_of_Z 0) stale_time]>
        (<[stale_2 := mk_RateLimitState (Binary64.f64_of_Z 0) stale_time]>
        {[ip active := mk_RateLimitState (Binary64.f64_of_Z 1) now]})));
  _ ← allow_message active;
  _ ← call cleanup_rate_limits;
  limits ← gets rate_limits;
  _ ← assert (bool_decide (limits !! stale_1 = None));
  _ ← assert (bool_decide (limits !! stale_2 = None));
  assert (bool_decide (is_Some (limits !! ip active))).

Definition history_replay_completes_before_live_broadcasts_are_delivered : M unit :=
  '(t, socket) ← register_pending_client_for_test (peer 0);
  _ ← call (with_history_replay (peer 0) t (λ writer history,
        try_bind (section (assert (is_empty history))) (λ _,
        try_bind (section (mark_client_ready (peer 0) t)) (λ _,
        section (drop_writer writer)))));
  _ ← call (record_and_broadcast (line "live") (bytes "live") None);
  lines ← queue_of socket;
  assert (eqb lines [bytes "live"]).

Definition global_connection_limit_uses_the_indexed_total : M unit :=
  _ ← for_in (seq 0 MAX_CONNECTIONS) (λ port,
        _ ← enter_by_hand (socket_v4 127 0 0 1 (10000 + N.of_nat port)) None None; mret tt);
  c ← gets clients;
  _ ← assert (eqb (total c) MAX_CONNECTIONS);
  e ← err_text (register_client (peer 0));
  assert (eqb e (lit "connection limit reached")).

(** ** [connection.rs] *)

Definition handshake_frame (name : str) : list u8 := frame_bytes Handshake name.

Definition accepts_a_valid_handshake_without_allocating_a_session_thread : M unit :=
  assert (eqb (fst (read_handshake_username (H0 := model_tokio)
    [Data (handshake_frame (lit "alice"))])) (Ok (lit "alice"))).

Definition treats_clean_eof_as_a_disconnect : M unit :=
  assert (eqb (fst (read_async_frame (H0 := model_tokio) [])) (Ok None)).

Definition rejects_an_oversized_handshake_as_a_username_error : M unit :=
  assert (eqb (fst (read_handshake_username (H0 := model_tokio)
    [Data (handshake_frame (repeat (chr 0x78) 33))])) (Err UsernameTooLong)).

Definition session_cleanup_is_idempotent_and_updates_presence : M unit :=
  '(t, _) ← register_client (peer 0);
  _ ← set_client_username (peer 0) t (lit "alice");
  _ ← call (finish_session (peer 0) (lit "alice") t true);
  _ ← call (finish_session (peer 0) (lit "alice") t true);
  us ← usernames;
  assert (is_empty us).

(** A handler started by a test: its connection, its permit, and its result unwrapped. *)
Definition spawn_handler (address : SocketAddr) (frames : list (list u8))
    : prog World ServerError Query unit :=
  Step (new_connection (map Data frames)) (λ conn,
    match conn with
    | Ok conn =>
        pbind (try_acquire address) (λ permit,
          match permit with
          | Some permit => pbind (serve conn address permit 0%Z) (λ r,
              Step (assert (is_ok r)) (λ _, Ret tt))
          | None => Step (panic (A := unit)) (λ _, Ret tt)
          end)
    | Err _ => Step (panic (A := unit)) (λ _, Ret tt)
    end).

(** Handlers with the given identities in a fresh state. *)
Definition handlers (ps : list (nat * prog World ServerError Query unit))
  : Prog.config World ServerError Query :=
  mk_config (new_shared_state 0%Z) None false 0 (list_to_map ps).

Definition run_test (l : list (nat * nat)) (c : Prog.config World ServerError Query)
  : Prog.config World ServerError Query :=
  follow (map (λ '(t, n), Run t n (answer_at idle)) l) c.

Definition frame_kind (m : OutboundMessage) : result FrameError FrameType :=
  FrameType_try_from (nth 1 m Byte.x00).

(** The first frame the client is sent is a presence frame; the handler ends well once the
    client has shut its side down. *)
Definition authenticated_tcp_sessions_use_the_async_path : bool :=
  let c := run_test [(0, 100); (1, 100)]
    (handlers [(0, spawn_handler (peer 0) [handshake_frame (lit "alice")])]) in
  bool_decide (pool c = ∅) &&
  match written (io (world c)) 0 with
  | first :: _ => eqb (frame_kind first) (Ok Presence)
  | [] => false
  end.

Definition SESSION_COUNT : nat := 32.

Definition session (i : nat) : prog World ServerError Query unit :=
  spawn_handler (socket_v4 192 0 2 (N.of_nat (i + 1)) (10000 + N.of_nat i))
    (handshake_frame (lit "user-" ++ lit (pretty (N.of_nat i))) ::
     if i =? 0 then [frame_bytes Chat (lit "load-test-message")] else []).

(** The chat frames of a socket that hold a text. *)
Definition shows (text : str) (frames : list OutboundMessage) : bool :=
  existsb (λ m, eqb (frame_kind m) (Ok Chat) &&
    match from_utf8 (drop 6 m) with
    | Some s => bool_decide (is_Some (find text s))
    | None => false
    end) frames.

(** Everybody is let in, one after the other, each with the history to replay, and is written
    a presence frame; then the first session's message is read and the second session's socket
    gets it; then everybody has shut down and every handler ends well.  A session takes five
    identities, the first for its connection; its writer is the task started last. *)
Definition maintains_more_persistent_sessions_than_runtime_workers : bool :=
  let everybody := seq 0 SESSION_COUNT in
  let socket c i := written (io (world c)) (5 * i) in
  let arrive := map (λ i, (i, 23 + i)) everybody in
  let writers := map (λ i, (SESSION_COUNT + i, 400)) everybody in
  let c1 := run_test (arrive ++ writers) (handlers (map (λ i, (i, session i)) everybody)) in
  let c2 := run_test ((0, 9) :: writers) c1 in
  let c3 := run_test (map (λ i, (i, 400)) everybody ++ writers) c2 in
  forallb (λ i, existsb (λ m, eqb (frame_kind m) (Ok Presence)) (socket c1 i)) everybody &&
  negb (shows (lit "load-test-message") (socket c1 1)) &&
  shows (lit "load-test-message") (socket c2 1) &&
  eqb (total (clients (world c2))) SESSION_COUNT &&
  bool_decide (pool c3 = ∅).

(** ** [lib.rs] *)

Definition recognizes_non_loopback_bind_addresses : M unit :=
  _ ← assert (negb (bind_is_not_loopback (ip (socket_v4 127 0 0 1 0))));
  _ ← assert (negb (bind_is_not_loopback (V6 1)));
  _ ← assert (bind_is_not_loopback (ip (socket_v4 0 0 0 0 0)));
  assert (bind_is_not_loopback (V6 0)).

(** A call of the accept loop's admission control. *)
Definition let_in (address : SocketAddr) : M (option IpAddr) := λ w,
  match run (try_acquire (Q := Query) address) false w with
  | Some (r, _, w') => (Done (Ok r), w')
  | None => (Panicking, w)
  end.
Definition dismiss (permit : IpAddr) : M unit := λ w,
  match run (drop_permit (Q := Query) permit) false w with
  | Some (r, _, w') => (Done (Ok r), w')
  | None => (Panicking, w)
  end.

Definition admission_limits_pending_connections_per_ip : M unit :=
  let address := socket_v4 127 0 0 1 7878 in
  _ ← for_in (seq 0 MAX_CONNECTIONS_PER_IP) (λ _,
        permit ← let_in address; assert (bool_decide (is_Some permit)));
  refused ← let_in address;
  _ ← assert (bool_decide (refused = None));
  _ ← for_in (seq 0 MAX_CONNECTIONS_PER_IP) (λ _, dismiss (ip address));
  permit ← let_in address;
  assert (bool_decide (is_Some permit)).

(** ** They pass *)

Lemma state_tests_pass :
  forallb passes
    [message_history_evicts_oldest_entry_without_shifting_retained_entries;
     server_history_snapshot_returns_trimmed_retained_messages_in_order;
     pending_clients_do_not_receive_live_broadcasts_before_history_replay;
     broadcast_drops_a_client_when_its_outbound_queue_is_full;
     presence_prunes_closed_clients_and_broadcasts_once_to_active_clients;
     removing_a_client_signals_its_session_to_stop_reading;
     stale_writer_cleanup_does_not_remove_a_replacement_client;
     per_ip_limit_is_released_when_a_client_is_removed;
     removing_the_last_client_keeps_its_rate_limit_for_reconnects;
     rate_limit_cleanup_reclaims_stale_entries_from_other_ips;
     history_replay_completes_before_live_broadcasts_are_delivered;
     global_connection_limit_uses_the_indexed_total] = true.
Proof. vm_compute. reflexivity. Qed.

Lemma connection_tests_pass :
  forallb passes
    [accepts_a_valid_handshake_without_allocating_a_session_thread;
     treats_clean_eof_as_a_disconnect;
     rejects_an_oversized_handshake_as_a_username_error;
     session_cleanup_is_idempotent_and_updates_presence;
     recognizes_non_loopback_bind_addresses;
     admission_limits_pending_connections_per_ip] = true.
Proof. vm_compute. reflexivity. Qed.

Lemma session_tests_pass :
  forallb id [authenticated_tcp_sessions_use_the_async_path;
    maintains_more_persistent_sessions_than_runtime_workers] = true.
Proof. vm_compute. reflexivity. Qed.
