(* ===== verification/Broadcast.v ===== *)
(** What broadcasting does when nobody interferes ([broadcast], [record_and_broadcast],
    [broadcast_presence] of [crates/server/src/state.rs]): who gets the frame, who keeps it
    pending, who is dropped, for every iteration order of the hash maps; and that presence
    can always be encoded. *)
From stdpp Require Import functions.
From S2P Require Import Prelude Utf8 Text Frame Presence Prog Net Config RateLimit Registry.
From S2P Require Import State StateInv.

Section Broadcast.
Context `{HashOrder} `{Tokio}.
Context {Q : Type → Type}.

(** ** Removing a list of clients *)

Definition keeps {A} (tok : A → ClientToken) (gone : list (SocketAddr * ClientToken))
    (a : SocketAddr) (x : A) : bool := negb (bool_decide ((a, tok x) ∈ gone)).

Lemma keeps_cons {A} (tok : A → ClientToken) b t gone a x :
  keeps tok ((b, t) :: gone) a x =
    keeps tok gone a x && negb (bool_decide (a = b) && bool_decide (tok x = t)).
Proof.
  unfold keeps. apply eq_true_iff_eq. rewrite andb_true_iff, !negb_true_iff, andb_false_iff.
  rewrite !bool_decide_eq_false, not_elem_of_cons. split.
  - intros [Hne Hno]. split; [done|]. destruct (decide (a = b)) as [->|]; [|by left].
    right. congruence.
  - intros [Hno [Hne|Hne]]; (split; [|done]); congruence.
Qed.

Lemma filter_ext {A} (f g : A → bool) l : (∀ x, f x = g x) → List.filter f l = List.filter g l.
Proof. intros E. induction l as [|x l IH]; [done|]. cbn. by rewrite E, IH. Qed.

Lemma filter_andb {A} (f g : A → bool) l :
  List.filter (λ x, f x && g x) l = List.filter f (List.filter g l).
Proof.
  induction l as [|x l IH]; [done|]. cbn. destruct (g x) eqn:Eg.
  - rewrite andb_true_r. cbn. destruct (f x); by rewrite IH.
  - by rewrite andb_false_r.
Qed.

Lemma is_empty_map {A B} (f : A → B) l : is_empty (map f l) = is_empty l.
Proof. by destruct l. Qed.

Lemma filter_all {A} (f : A → bool) l : (∀ x, f x = true) → List.filter f l = l.
Proof. intros E. induction l as [|x l IH]; [done|]. cbn. by rewrite E, IH. Qed.

Lemma filter_keeps_cons {A} (tok : A → ClientToken) b t gone a l :
  List.filter (keeps tok ((b, t) :: gone) a) l =
    List.filter (keeps tok gone a)
      (if decide (b = a) then List.filter (λ x, negb (matches (tok x) t)) l else l).
Proof.
  rewrite (filter_ext _ _ _ (keeps_cons tok b t gone a)). destruct (decide (b = a)) as [<-|Hne].
  - rewrite <-filter_andb. apply filter_ext. intros x. by rewrite (bool_decide_true (b = b)).
  - apply filter_ext. intros x. rewrite (bool_decide_false (a = b)) by congruence.
    by rewrite andb_true_r.
Qed.

Lemma without_filter t l : without t l = List.filter (λ s, negb (matches (token s) t)) l.
Proof.
  unfold without, matches. induction l as [|x l IH]; [done|]. rewrite filter_cons. cbn.
  case_bool_decide as Hx; cbn.
  - rewrite decide_False by (intros Hn; by apply Hn). done.
  - rewrite decide_True by done. by rewrite IH.
Qed.

Lemma dropped_ne ch l i : i ∉ writer <$> l → dropped ch l i = ch i.
Proof.
  unfold dropped. revert ch. induction l as [|d l IH]; intros ch Hi; [done|]. cbn.
  rewrite fmap_cons, not_elem_of_cons in Hi. destruct Hi as [Hd Hl].
  rewrite IH by done. by apply fn_insert_ne.
Qed.

Lemma elem_of_leaving t l d : d ∈ leaving t l ↔ d ∈ l ∧ cd_token d = t.
Proof.
  unfold leaving. rewrite list_elem_of_In, filter_In, <-list_elem_of_In.
  unfold token_is, matches. by rewrite bool_decide_eq_true.
Qed.

Lemma remove_each_run gone held w :
  Inv w →
  ∃ w', run (remove_each (Q := Q) gone) held w = Some (Ok tt, held, w') ∧ Inv w' ∧
    (∀ a, deliveries_at (deliveries w') a =
      List.filter (keeps cd_token gone a) (deliveries_at (deliveries w) a)) ∧
    (∀ a, clients_at (clients w') a =
      List.filter (keeps token gone a) (clients_at (clients w) a)) ∧
    (∀ i, (∀ a d, d ∈ deliveries_at (deliveries w) a → (a, cd_token d) ∈ gone → writer d ≠ i) →
      channels w' i = channels w i) ∧
    history w' = history w ∧ rate_limits w' = rate_limits w ∧ io w' = io w.
Proof.
  revert w. induction gone as [|[b t] gone IH]; intros w Hw.
  - exists w. split_and!; try done; intros a; symmetry; apply filter_all; intros x;
      unfold keeps; by rewrite bool_decide_false by apply not_elem_of_nil.
  - destruct (remove_client_spec b t w Hw) as (c' & E & Hinv & Hat & _).
    destruct (IH _ Hinv) as (w' & Erun & Hw' & Hd & Hc & Hch & Hhist & Hrl & Hio).
    exists w'. split_and!; try done.
    + cbn [remove_each for_each]. rewrite run_try_bind, run_try_bind.
      rewrite (run_section _ _ _ _ _ E). exact Erun.
    + intros a. rewrite Hd, filter_keeps_cons. cbn. rewrite deliveries_at_put.
      by destruct (decide (b = a)) as [<-|].
    + intros a. rewrite Hc, filter_keeps_cons. cbn. rewrite Hat.
      destruct (decide (b = a)) as [<-|]; [by rewrite without_filter|done].
    + intros i Hi. rewrite Hch.
      * cbn. apply dropped_ne. intros (d & -> & [Hd1 Hd2]%elem_of_leaving)%list_elem_of_fmap.
        apply (Hi b d Hd1); [|done]. rewrite Hd2. by left.
      * intros a d. cbn. rewrite deliveries_at_put. intros Hin Hgone. apply (Hi a d).
        -- destruct (decide (b = a)) as [<-|]; [|done].
           by eapply elem_of_sublist, staying_sublist.
        -- by right.
Qed.

(** ** Broadcasting *)

(** The clients a broadcast drops. *)
Definition doomed_clients (m : OutboundMessage) (ex : option SocketAddr) (w : World)
  : list (SocketAddr * ClientToken) :=
  map fst (concat (map (doom m ex (channels w)) (hash_values (deliveries w)))).

Lemma doom_fst m ex ch d x : x ∈ doom m ex ch d → fst x = (addr d, cd_token d).
Proof.
  unfold doom. destruct (bool_decide _); [by intros ?%not_elem_of_nil|].
  destruct (ready d).
  - destruct (fst _); rewrite ?list_elem_of_singleton; try (by intros ->).
    by intros ?%not_elem_of_nil.
  - destruct (_ <=? _); rewrite ?list_elem_of_singleton; try (by intros ->).
    by intros ?%not_elem_of_nil.
Qed.

Lemma delivery_addr w b d : Inv w → d ∈ deliveries_at (deliveries w) b → addr d = b.
Proof.
  intros Hw Hd. pose proof (ok_each _ _ _ (inv_deliveries w Hw) b) as Hall.
  rewrite Forall_forall in Hall. by destruct (Hall d Hd).
Qed.

(** A client is dropped when the frame cannot be handed to it. *)
Lemma elem_of_doomed m ex w a t :
  Inv w →
  (a, t) ∈ doomed_clients m ex w ↔
    ∃ d, d ∈ deliveries_at (deliveries w) a ∧ cd_token d = t ∧ doom m ex (channels w) d ≠ [].
Proof.
  intros Hw. unfold doomed_clients.
  pose proof (λ b d, delivery_addr w b d Hw) as Haddr.
  rewrite list_elem_of_In, in_map_iff. split.
  - intros (x & Hx & (l & Hl & Hin)%in_concat). apply in_map_iff in Hl as (d & <- & Hd).
    apply list_elem_of_In, doom_fst in Hin as Hfst. rewrite Hx in Hfst. simplify_eq.
    apply list_elem_of_In, elem_of_hash_values in Hd as (b & l & Hb & Hd).
    assert (d ∈ deliveries_at (deliveries w) b) as Hdb by (unfold deliveries_at; by rewrite Hb).
    exists d. rewrite (Haddr b d Hdb). split_and!; [done|done|].
    intros E. rewrite E in Hin. by apply not_elem_of_nil in Hin.
  - intros (d & Hd & <- & Hdoom). destruct (doom m ex (channels w) d) as [|x l] eqn:E; [done|].
    assert (x ∈ doom m ex (channels w) d) as Hx by (rewrite E; by left).
    exists x. split; [rewrite (doom_fst _ _ _ _ _ Hx); by rewrite (Haddr a d Hd)|].
    apply in_concat. exists (doom m ex (channels w) d). split; [|by apply list_elem_of_In].
    apply in_map. apply list_elem_of_In, elem_of_hash_values. unfold deliveries_at in Hd.
    destruct (deliveries w !! a) as [k|] eqn:Ea; [by exists a, k|].
    by apply not_elem_of_nil in Hd.
Qed.

(** Tokens are unique at an address. *)
Lemma delivery_unique w a d d' :
  Inv w → d ∈ deliveries_at (deliveries w) a → d' ∈ deliveries_at (deliveries w) a →
  cd_token d = cd_token d' → d = d'.
Proof.
  intros Hw Hd Hd' Ht. pose proof (wf_tokens _ (inv_registry w Hw) a) as Hnd.
  rewrite <-(ok_mirror _ _ _ (inv_deliveries w Hw)) in Hnd.
  apply list_elem_of_lookup in Hd as [i Hi]. apply list_elem_of_lookup in Hd' as [j Hj].
  assert (i = j) as ->; [|congruence].
  eapply (NoDup_lookup _ i j (cd_token d) Hnd);
    rewrite list_lookup_fmap; [by rewrite Hi|rewrite Hj; cbn; by f_equal].
Qed.

(** So being dropped is a matter of the client alone. *)
Lemma keeps_doomed m ex w a d :
  Inv w → d ∈ deliveries_at (deliveries w) a →
  keeps cd_token (doomed_clients m ex w) a d = is_empty (doom m ex (channels w) d).
Proof.
  intros Hw Hd. unfold keeps. destruct (bool_decide _) eqn:E; cbn.
  - apply bool_decide_eq_true in E. apply elem_of_doomed in E as (d' & Hd' & Ht & Hdoom); [|done].
    rewrite (delivery_unique w a d' d Hw Hd' Hd Ht) in Hdoom.
    by destruct (doom m ex (channels w) d).
  - apply bool_decide_eq_false in E. destruct (doom m ex (channels w) d) eqn:Ed; [done|].
    exfalso. apply E. apply elem_of_doomed; [done|]. exists d. split_and!; [done..|]. by rewrite Ed.
Qed.

Lemma filter_ext_in {A} (f g : A → bool) l :
  (∀ x, x ∈ l → f x = g x) → List.filter f l = List.filter g l.
Proof.
  induction l as [|x l IH]; intros E; [done|]. cbn. rewrite (E x) by (by left).
  rewrite IH; [done|]. intros y Hy. apply E. by right.
Qed.

Lemma filter_map_comm {A} (f : A → A) (p q : A → bool) l :
  (∀ x, p (f x) = q x) → List.filter p (map f l) = map f (List.filter q l).
Proof.
  intros E. induction l as [|x l IH]; [done|]. cbn. rewrite E. destruct (q x); cbn; by rewrite IH.
Qed.

(** A queue is one client's. *)
Lemma writer_unique w a b d d' :
  Inv w → d ∈ deliveries_at (deliveries w) a → d' ∈ deliveries_at (deliveries w) b →
  writer d' = writer d → d' = d.
Proof.
  intros Hw Hin%elem_of_all_at Hd'%elem_of_all_at Hwr.
  apply list_elem_of_lookup in Hd' as [i Hi]. apply list_elem_of_lookup in Hin as [j Hj].
  assert (i = j) as ->; [|congruence].
  eapply (NoDup_lookup _ i j (writer d) (ok_writers _ _ _ (inv_deliveries w Hw)));
    rewrite list_lookup_fmap; [rewrite Hi; cbn; by f_equal|by rewrite Hj].
Qed.

Lemma broadcast_run m ex held w :
  Inv w →
  ∃ w', run (broadcast (Q := Q) m ex) held w =
      Some (Ok (negb (is_empty (doomed_clients m ex w))), held, w') ∧ Inv w' ∧
    (∀ a, deliveries_at (deliveries w') a = map (after m ex)
      (List.filter (λ d, is_empty (doom m ex (channels w) d)) (deliveries_at (deliveries w) a))) ∧
    (∀ a, clients_at (clients w') a =
      List.filter (keeps token (doomed_clients m ex w) a) (clients_at (clients w) a)) ∧
    (∀ a d, d ∈ deliveries_at (deliveries w) a → doom m ex (channels w) d = [] →
      channels w' (writer d) =
        if gets_frame ex d then sent (channels w (writer d)) m else channels w (writer d)) ∧
    history w' = history w ∧ rate_limits w' = rate_limits w ∧ io w' = io w.
Proof.
  intros Hw. destruct (deliver_spec m ex w Hw) as (dl & w1 & E & Hw1).
  pose proof (deliver_eq m ex w Hw) as E2. rewrite E2 in E. simplify_eq.
  destruct (remove_each_run (doomed_clients m ex w) held _ Hw1)
    as (w' & Erun & Hw' & Hd & Hc & Hch & Hhist & Hrl & Hio).
  assert (is_empty (concat (map (doom m ex (channels w)) (hash_values (deliveries w)))) =
    is_empty (doomed_clients m ex w)) as Hempty.
  { unfold doomed_clients. by destruct (concat _). }
  exists w'. split_and!; try done.
  - unfold broadcast. rewrite run_try_bind. rewrite (run_section _ _ _ _ _ E2). cbn [mbind option_bind].
    rewrite run_try_bind. fold (doomed_clients m ex w). rewrite Erun. cbn. by rewrite Hempty.
  - intros a. rewrite Hd. cbn. rewrite deliveries_at_fmap.
    rewrite (filter_map_comm _ _ (keeps cd_token (doomed_clients m ex w) a)).
    + f_equal. apply filter_ext_in. intros d Hin. by apply keeps_doomed.
    + intros d. unfold keeps. by rewrite (proj1 (after_fields m ex d)).
  - intros a d Hin Hdoom. rewrite Hch.
    + cbn. apply after_sends_at; [rewrite hash_values_perm; apply (inv_deliveries w Hw)|].
      rewrite hash_values_perm. by eapply elem_of_all_at.
    + intros b d' Hd' Hgone Hwr. cbn in Hd'. rewrite deliveries_at_fmap in Hd'.
      apply list_elem_of_In, in_map_iff in Hd' as (d0 & <- & Hd0). apply list_elem_of_In in Hd0.
      rewrite (proj2 (after_fields m ex d0)) in Hwr.
      pose proof (writer_unique w a b d d0 Hw Hin Hd0 Hwr) as ->.
      rewrite (proj1 (after_fields m ex d)) in Hgone.
      pose proof (keeps_doomed m ex w b d Hw Hd0) as Hk. unfold keeps in Hk.
      rewrite bool_decide_true, Hdoom in Hk by done. done.
Qed.

Lemma record_and_broadcast_run message frame ex w :
  Inv w → fits (trim_end_matches newline message) →
  let w1 := set_history (record (history w) message) w in
  ∃ w', run (record_and_broadcast (Q := Q) message frame ex) false w =
      Some (Ok (negb (is_empty (doomed_clients frame ex w))), false, w') ∧ Inv w' ∧
    run (broadcast (Q := Q) frame ex) true w1 =
      Some (Ok (negb (is_empty (doomed_clients frame ex w))), true, w').
Proof.
  intros Hw Hfits w1.
  destruct (broadcast_run frame ex true w1 (record_inv message w Hw Hfits)) as (w' & E & Hw' & _).
  exists w'. split_and!; [|done|done].
  apply run_with_barrier. rewrite run_try_bind.
  rewrite (run_section _ _ _ _ _ (record_eq message w Hw)). exact E.
Qed.

(** *** The sections of a broadcast *)

Lemma remove_each_steady l : steady (remove_each (Q := Q) l).
Proof. apply steady_for_each. intros [a t]. by apply steady_try_bind. Qed.

Lemma broadcast_steady m ex : steady (broadcast (Q := Q) m ex).
Proof.
  apply steady_try_bind; [done|]. intros doomed.
  apply steady_try_bind; [apply remove_each_steady|]. done.
Qed.

Lemma remove_each_sections l held w :
  Inv w → sections_held (remove_each (Q := Q) l) held w = replicate (length l) held.
Proof.
  revert w. induction l as [|[b t] l IH]; intros w Hw; [done|].
  destruct (remove_client_spec b t w Hw) as (c' & E & Hinv & _).
  unfold remove_each. cbn [for_each]. unfold try_bind at 1.
  rewrite held_bind, run_try_bind, (run_section _ _ _ _ _ E). cbn [mbind option_bind].
  unfold try_bind. cbn [section pbind sections_held]. rewrite E.
  cbn. f_equal. by apply IH.
Qed.

Lemma broadcast_sections m ex held w :
  Inv w → sections_held (broadcast (Q := Q) m ex) held w =
    replicate (1 + length (doomed_clients m ex w)) held.
Proof.
  intros Hw. destruct (deliver_spec m ex w Hw) as (dl & w1 & E & Hw1).
  pose proof (deliver_eq m ex w Hw) as E2. rewrite E2 in E. simplify_eq.
  unfold broadcast. unfold try_bind at 1. cbn [section pbind sections_held]. rewrite E2.
  cbn [replicate]. f_equal. unfold try_bind. rewrite held_bind.
  fold (doomed_clients m ex w). rewrite remove_each_sections by done.
  destruct (remove_each_run (doomed_clients m ex w) held _ Hw1) as (w' & Erun & _).
  rewrite Erun. cbn. by rewrite app_nil_r.
Qed.

(** ** Presence *)

Lemma usernames_sendable w :
  Inv w → encode_presence (registry_usernames (clients w)) =
    Ok (frame_header Presence (zlen (presence_payload (registry_usernames (clients w)))) ++
        presence_payload (registry_usernames (clients w))).
Proof.
  intros Hw. apply encode_presence_small.
  - pose proof (registry_usernames_length (clients w) (inv_registry w Hw)).
    unfold MAX_CONNECTIONS in *. lia.
  - apply Forall_forall. intros u (a & s & Hs & Hu)%elem_of_registry_usernames.
    by apply (inv_names w Hw a s u).
Qed.

(** The clients the pruning pass drops. *)
Definition pruned_clients (w : World) : list (SocketAddr * ClientToken) :=
  map (λ d, (addr d, cd_token d))
    (List.filter (overloaded (channels w)) (hash_values (deliveries w))).

Lemma keeps_pruned w a d :
  Inv w → d ∈ deliveries_at (deliveries w) a →
  keeps cd_token (pruned_clients w) a d = negb (overloaded (channels w) d).
Proof.
  intros Hw Hd. unfold keeps. f_equal. apply eq_true_iff_eq. rewrite bool_decide_eq_true.
  unfold pruned_clients. rewrite list_elem_of_In, in_map_iff. split.
  - intros (d' & Heq & [Hin Ho]%filter_In). injection Heq as Ha Ht.
    apply list_elem_of_In, elem_of_hash_values in Hin as (b & l & Hb & Hd').
    assert (d' ∈ deliveries_at (deliveries w) b) as Hdb by (unfold deliveries_at; by rewrite Hb).
    rewrite (delivery_addr w b d' Hw Hdb) in Ha. subst b.
    by rewrite <-(delivery_unique w a d' d Hw Hdb Hd Ht).
  - intros Ho. exists d. rewrite (delivery_addr w a d Hw Hd). split; [done|].
    apply filter_In. split; [|done]. apply list_elem_of_In. rewrite hash_values_perm.
    by eapply elem_of_all_at.
Qed.

(** A client's session survives the pruning with its delivery. *)
Lemma keeps_pruned_session w a s :
  Inv w → s ∈ clients_at (clients w) a →
  keeps token (pruned_clients w) a s =
    existsb (λ d, bool_decide (cd_token d = token s) && negb (overloaded (channels w) d))
      (deliveries_at (deliveries w) a).
Proof.
  intros Hw Hs. pose proof (ok_mirror _ _ _ (inv_deliveries w Hw) a) as Hm.
  assert (token s ∈ cd_token <$> deliveries_at (deliveries w) a) as Ht.
  { rewrite Hm. by apply list_elem_of_fmap_2. }
  apply list_elem_of_fmap in Ht as (d & Et & Hd).
  assert (keeps token (pruned_clients w) a s = keeps cd_token (pruned_clients w) a d) as ->
    by (unfold keeps; by rewrite Et).
  rewrite keeps_pruned by done. apply eq_true_iff_eq. rewrite existsb_exists. split.
  - intros Ho. exists d. by rewrite bool_decide_true, Ho, <-list_elem_of_In by done.
  - intros (d' & Hd'%list_elem_of_In & [Ht' Ho]%andb_true_iff). apply bool_decide_eq_true in Ht'.
    rewrite <-(delivery_unique w a d' d Hw Hd' Hd); [done|congruence].
Qed.

Lemma broadcast_presence_run held w :
  Inv w →
  ∃ w1 w' frame, run (prune_overloaded_clients (Q := Q)) held w = Some (Ok tt, held, w1) ∧
    Inv w1 ∧
    (∀ a, deliveries_at (deliveries w1) a =
      List.filter (λ d, negb (overloaded (channels w) d)) (deliveries_at (deliveries w) a)) ∧
    (∀ a, clients_at (clients w1) a =
      List.filter (keeps token (pruned_clients w) a) (clients_at (clients w) a)) ∧
    (∀ a d, d ∈ deliveries_at (deliveries w) a → overloaded (channels w) d = false →
      channels w1 (writer d) = channels w (writer d)) ∧
    encode_presence (registry_usernames (clients w1)) = Ok frame ∧
    run (broadcast (Q := Q) frame None) held w1 =
      Some (Ok (negb (is_empty (doomed_clients frame None w1))), held, w') ∧
    run (broadcast_presence (Q := Q)) held w = Some (Ok tt, held, w') ∧ Inv w' ∧
    history w' = history w.
Proof.
  intros Hw.
  destruct (remove_each_run (pruned_clients w) held w Hw) as (w1 & E1 & Hw1 & Hd1 & Hc1 & Hch1 & Hh1 & _).
  assert (run (prune_overloaded_clients (Q := Q)) held w = Some (Ok tt, held, w1)) as Eprune.
  { unfold prune_overloaded_clients. rewrite run_try_bind.
    rewrite (run_section _ _ _ _ _ (overloaded_eq w Hw)). exact E1. }
  pose proof (usernames_sendable w1 Hw1) as Efr.
  destruct (broadcast_run (frame_header Presence (zlen (presence_payload
      (registry_usernames (clients w1)))) ++
    presence_payload (registry_usernames (clients w1))) None held w1 Hw1)
    as (w' & E2 & Hw' & _ & _ & _ & Hh2 & _).
  exists w1, w'. eexists. split_and!; [done|done| |done| |done|exact E2| |done|congruence].
  { intros a. rewrite Hd1. apply filter_ext_in. intros d Hin. by apply keeps_pruned. }
  { intros a d Hin Ho. apply Hch1. intros b d' Hd' Hgone Hwr.
    pose proof (writer_unique w a b d d' Hw Hin Hd' Hwr) as ->.
    pose proof (keeps_pruned w b d Hw Hd') as Hk. unfold keeps in Hk.
    rewrite bool_decide_true, Ho in Hk by done. done. }
  unfold broadcast_presence. rewrite run_try_bind, Eprune. cbn [mbind option_bind].
  rewrite run_try_bind. rewrite (run_section _ _ _ _ _ (usernames_eq w1 Hw1)).
  cbn [mbind option_bind]. rewrite Efr, run_try_bind, E2. done.
Qed.

(** ** Properties *)

(** C9: a broadcast, whatever the order the hash map iterates in.  Every client except the
    excluded address gets the frame exactly once: on its queue when it is ready, appended to
    its backlog when it is not; the clients that cannot take it (queue full or closed,
    backlog of 128) are removed from both registries, and the result says whether there were
    any; everybody else, the history and the rate limits are untouched. *)
Theorem broadcast_functional m ex held w :
  Inv w →
  let dropped d := negb (is_empty (doom m ex (channels w) d)) in
  ∃ w', run (broadcast (Q := Q) m ex) held w =
      Some (Ok (existsb dropped (all_values (deliveries w))), held, w') ∧ Inv w' ∧
    (∀ a, deliveries_at (deliveries w') a = map (after m ex)
      (List.filter (λ d, negb (dropped d)) (deliveries_at (deliveries w) a))) ∧
    (∀ a s, s ∈ clients_at (clients w') a → s ∈ clients_at (clients w) a) ∧
    (∀ a d, d ∈ deliveries_at (deliveries w) a → dropped d = false →
      channels w' (writer d) =
        if gets_frame ex d then sent (channels w (writer d)) m else channels w (writer d)) ∧
    history w' = history w ∧ rate_limits w' = rate_limits w.
Proof.
  intros Hw dropped.
  destruct (broadcast_run m ex held w Hw) as (w' & E & Hw' & Hd & Hc & Hch & Hh & Hr & _).
  exists w'. split_and!; try done.
  - rewrite E. do 4 f_equal. unfold doomed_clients. rewrite (is_empty_map fst).
    apply eq_true_iff_eq. rewrite negb_true_iff, existsb_exists.
    setoid_rewrite <-list_elem_of_In. setoid_rewrite <-(hash_values_perm (deliveries w)).
    subst dropped. cbn beta.
    induction (hash_values (deliveries w)) as [|d l IH]; cbn.
    + split; [done|]. by intros (d & ?%not_elem_of_nil & _).
    + split.
      * destruct (doom m ex (channels w) d) eqn:Ed; cbn.
        -- intros (d' & Hin & Hd')%IH. exists d'. split; [by right|done].
        -- intros _. exists d. split; [by left|by rewrite Ed].
      * intros (d' & [->|Hin]%elem_of_cons & Hd').
        -- by destruct (doom m ex (channels w) d).
        -- destruct (doom m ex (channels w) d); [|done]. cbn. apply IH. by exists d'.
  - intros a. rewrite Hd. f_equal. apply filter_ext. intros d. subst dropped.
    cbn. by rewrite negb_involutive.
  - intros a s. rewrite Hc, list_elem_of_In, filter_In, <-list_elem_of_In. by intros [? _].
  - intros a d Hin Hno. apply (Hch a); [done|]. subst dropped. cbn in Hno.
    by destruct (doom m ex (channels w) d).
Qed.

(** C22: recording and broadcasting: the history gains exactly this message (and loses its
    oldest beyond a hundred) and the frame is broadcast in that state; the recording, the
    delivery and every removal after it, one section each, are executed with the replay
    barrier held, which is free again at the end, and while somebody else holds it nothing is
    done. *)
Theorem record_and_broadcast_functional message frame ex w :
  Inv w → fits (trim_end_matches newline message) →
  ∃ w' b, run (record_and_broadcast (Q := Q) message frame ex) false w =
      Some (Ok b, false, w') ∧ Inv w' ∧
    entries (history w') = lastn MESSAGE_HISTORY_LIMIT
      (entries (history w) ++ [trim_end_matches newline message]) ∧
    run (broadcast (Q := Q) frame ex) true
      (set_history (record (history w) message) w) = Some (Ok b, true, w') ∧
    sections_held (record_and_broadcast (Q := Q) message frame ex) false w =
      replicate (2 + length (doomed_clients frame ex w)) true ∧
    run (record_and_broadcast (Q := Q) message frame ex) true w = None.
Proof.
  intros Hw Hfits.
  destruct (record_and_broadcast_run message frame ex w Hw Hfits) as (w' & E & Hw' & Eb).
  exists w'. eexists. split_and!; [exact E|done| |exact Eb| |done].
  - destruct (broadcast_run frame ex true _ (record_inv message w Hw Hfits)) as (w2 & E2 & _ & _ & _ & _ & Hh & _).
    rewrite Eb in E2. injection E2 as <-. rewrite Hh. cbn [history set_history].
    pose proof (inv_history w Hw) as [Hlim Hlen _]. rewrite <-Hlim. apply record_lastn. lia.
  - unfold record_and_broadcast. rewrite with_barrier_held.
    + unfold try_bind. cbn [section pbind sections_held]. rewrite record_eq by done.
      by rewrite broadcast_sections by (by apply record_inv).
    + apply steady_try_bind; [done|]. intros _. apply broadcast_steady.
Qed.

(** C18: presence cannot fail.  Whoever is connected, the clients whose queue is closed or whose
    backlog is full are removed from both registries and nobody else is, and the user list of
    those that are left can be encoded: the frame parses to exactly their names, each as often
    as it is taken; every one of them whose queue or backlog takes the frame stays, and gets it
    once. *)
Theorem presence_lists_everyone held w :
  Inv w →
  let survives a s := existsb (λ d, bool_decide (cd_token d = token s) &&
    negb (overloaded (channels w) d)) (deliveries_at (deliveries w) a) in
  ∃ w1 w' p users,
    run (prune_overloaded_clients (Q := Q)) held w = Some (Ok tt, held, w1) ∧
    (∀ a, deliveries_at (deliveries w1) a =
      List.filter (λ d, negb (overloaded (channels w) d)) (deliveries_at (deliveries w) a)) ∧
    (∀ a, clients_at (clients w1) a =
      List.filter (survives a) (clients_at (clients w) a)) ∧
    run (broadcast_presence (Q := Q)) held w = Some (Ok tt, held, w') ∧ Inv w' ∧
    parse_presence p = Some users ∧
    users ≡ₚ omap username (all_values (by_addr (clients w1))) ∧
    let frame := frame_header Presence (zlen p) ++ p in
    ∀ a d, d ∈ deliveries_at (deliveries w) a → overloaded (channels w) d = false →
      doom frame None (channels w) d = [] →
      after frame None d ∈ deliveries_at (deliveries w') a ∧
      channels w' (writer d) =
        if ready d then sent (channels w (writer d)) frame else channels w (writer d).
Proof.
  intros Hw survives.
  destruct (broadcast_presence_run held w Hw) as
    (w1 & w' & frame & Ep & Hw1 & Hd & Hc & Hch1 & Efr & Eb & E & Hw' & _).
  exists w1, w', (presence_payload (registry_usernames (clients w1))),
    (registry_usernames (clients w1)).
  pose proof (usernames_sendable w1 Hw1) as Efr2. rewrite Efr in Efr2.
  set (fr := frame_header Presence _ ++ _) in Efr2.
  assert (frame = fr) as -> by congruence.
  destruct (broadcast_run fr None held w1 Hw1) as (w2 & E2 & _ & Hd2 & _ & Hch & _).
  assert (w2 = w') as -> by congruence.
  split_and!; [done|done| |done|done| | |].
  - intros a. rewrite Hc. apply filter_ext_in. intros s Hs. by apply keeps_pruned_session.
  - apply parse_presence_payload.
    + pose proof (registry_usernames_length (clients w1) (inv_registry w1 Hw1)).
      unfold zlen, U16_MAX, MAX_CONNECTIONS in *. lia.
    + apply Forall_forall. intros u (a & s & Hs & Hu)%elem_of_registry_usernames.
      destruct (inv_names w1 Hw1 a s u Hs Hu) as [Hv Hl]. split; [done|].
      unfold blen, zlen, U16_MAX in *. lia.
  - unfold registry_usernames. by rewrite hash_values_perm.
  - intros fr' a d Hin Ho Hdoom.
    assert (d ∈ deliveries_at (deliveries w1) a) as Hin1.
    { rewrite Hd. apply list_elem_of_In, filter_In. rewrite Ho. by rewrite <-list_elem_of_In. }
    pose proof (Hch1 a d Hin Ho) as Hsame.
    assert (doom fr None (channels w1) d = []) as Hdoom1.
    { rewrite <-Hdoom. unfold doom. by rewrite Hsame. }
    rewrite (Hch a d Hin1 Hdoom1), Hsame, Hd2. unfold gets_frame.
    rewrite bool_decide_false by done. split; [|done].
    apply list_elem_of_In, in_map_iff. exists d. split; [done|].
    apply filter_In. rewrite Hdoom1. by rewrite <-list_elem_of_In.
Qed.
End Broadcast.

(** ** Concrete runs *)

Definition reader_addr : SocketAddr := socket_v4 127 0 0 1 5000.

(** A world with one ready client, whose queue is channel 0. *)
Definition ready_client : @World model_tokio :=
  snd (@register_client_with_status model_tokio reader_addr 0 None true
    (set_next_id 1 (@new_shared_state model_tokio 0%Z))).

Lemma ready_client_inv : @Inv model_tokio ready_client.
Proof.
  destruct (@register_inv model_tokio reader_addr 0 None true
    (set_next_id 1 (@new_shared_state model_tokio 0%Z))) as (r & w & E & Hw).
  - apply Inv_next_id; [cbn; lia|apply new_shared_state_inv].
  - cbn. lia.
  - apply (fresh_writer 0 empty_registry); [apply new_shared_state_inv|lia].
  - unfold ready_client. by rewrite E.
Qed.

Lemma broadcast_functional_witness :
  ∃ w' : @World model_tokio,
    run (@broadcast canonical_order model_tokio (λ A, A) [Byte.x07] None) false ready_client =
      Some (Ok false, false, w') ∧
    channels w' 0 = mk_ChanView [[Byte.x07]] OUTBOUND_QUEUE_SIZE 1 true.
Proof.
  destruct (@broadcast_functional canonical_order model_tokio (λ A, A) [Byte.x07] None false
    ready_client ready_client_inv) as (w' & E & _ & _ & _ & Hch & _).
  exists w'. split; [rewrite E; vm_compute; reflexivity|].
  specialize (Hch reader_addr (mk_ClientDelivery reader_addr 1 0 None true [])).
  vm_compute in Hch |- *. apply Hch; [left|reflexivity].
Defined.

Lemma record_and_broadcast_functional_witness :
  ∃ (w' : @World model_tokio) b,
    run (@record_and_broadcast canonical_order model_tokio (λ A, A) (lit "hi") [Byte.x07] None)
      false ready_client = Some (Ok b, false, w') ∧
    entries (history w') = [lit "hi"] ∧
    sections_held (@record_and_broadcast canonical_order model_tokio (λ A, A) (lit "hi")
      [Byte.x07] None) false ready_client = [true; true].
Proof.
  destruct (@record_and_broadcast_functional canonical_order model_tokio (λ A, A) (lit "hi")
    [Byte.x07] None ready_client ready_client_inv) as (w' & b & E & _ & Eh & _ & Es & _).
  - by vm_compute.
  - exists w', b. split; [exact E|]. split; [rewrite Eh|rewrite Es]; vm_compute; reflexivity.
Defined.

Lemma presence_lists_everyone_witness :
  ∃ (w1 w' : @World model_tokio) p users,
    run (@prune_overloaded_clients canonical_order model_tokio (λ A, A)) false ready_client =
      Some (Ok tt, false, w1) ∧
    run (@broadcast_presence canonical_order model_tokio (λ A, A)) false ready_client =
      Some (Ok tt, false, w') ∧ parse_presence p = Some users ∧
    users ≡ₚ omap username (all_values (by_addr (clients w1))).
Proof.
  destruct (@presence_lists_everyone canonical_order model_tokio (λ A, A) false
    ready_client ready_client_inv) as (w1 & w' & p & users & E1 & _ & _ & E & _ & Ep & Eu & _).
  exists w1, w', p, users. split; [exact E1|]. split; [exact E|]. split; [exact Ep|exact Eu].
Defined.
