(* ===== verification/StateProps.v ===== *)
(** Properties of the server's shared state: registration and its limits, removal, the
    disconnect signal, the message history. *)
From stdpp Require Import functions.
From S2P Require Import Prelude Utf8 Text Frame Presence Prog Net Config RateLimit Registry.
From S2P Require Import State StateInv Admission Connection Broadcast Server.

Section StateProps.
Context `{HashOrder} `{Tokio}.

(** ** Lemmas *)

Lemma limit_reached_iff c a :
  wf_registry c →
  limit_reached c a = true ↔
    msum (λ _ l, length l) (by_addr c) = MAX_CONNECTIONS ∨
    msum (count_ip (ip a)) (by_addr c) = MAX_CONNECTIONS_PER_IP.
Proof.
  intros Hc. unfold limit_reached. rewrite orb_true_iff, !Nat.leb_le.
  rewrite <-(wf_total c Hc), <-(wf_per_ip c Hc (ip a)).
  pose proof (wf_max_total c Hc). pose proof (wf_max_ip c Hc (ip a)). lia.
Qed.

Lemma without_absent t l : t ∉ token <$> without t l.
Proof.
  intros (s & Hs & [Hn _]%list_elem_of_filter)%list_elem_of_fmap. by apply Hn.
Qed.

Lemma signalled_mono `{TokioLaws} wa l s :
  watch_ready (wa s) = true → watch_ready (signalled wa l s) = true.
Proof.
  unfold signalled. revert wa. induction l as [|d l IH]; intros wa Hs; [done|]. cbn.
  apply IH. destruct (disconnect d) as [s'|]; [|done].
  destruct (decide (s' = s)) as [->|]; [rewrite fn_insert_eq; apply watch_send_ready|].
  by rewrite fn_insert_ne.
Qed.

Lemma signalled_ready `{TokioLaws} wa l d s :
  d ∈ l → disconnect d = Some s → watch_ready (signalled wa l s) = true.
Proof.
  revert wa. induction l as [|d' l IH]; intros wa; [by intros ?%not_elem_of_nil|].
  intros [->|Hd]%elem_of_cons Hs; cbn.
  - rewrite Hs. apply (signalled_mono _ l). rewrite fn_insert_eq. apply watch_send_ready.
  - by apply IH.
Qed.

(** A registry with one client, for the concrete runs. *)
Definition client_addr : SocketAddr := socket_v4 127 0 0 1 5000.
Definition one_client : World := snd (open_session 0 client_addr (new_shared_state 0%Z)).

Lemma one_client_inv : Inv one_client.
Proof.
  destruct (open_session_ok 0 client_addr (new_shared_state 0%Z) (new_shared_state_inv 0%Z))
    as (r & w & E & Hw).
  unfold one_client. by rewrite E.
Qed.

(** ** Properties *)

(** C23: registration.  A client is refused exactly when 256 clients are connected or four
    from its address; a refusal changes nothing but the sender it was given, which is
    dropped.  An admitted client gets a token nobody holds, appears last at its address, in
    both registries, without a name and without a backlog, as ready as the caller says (the
    server says not); nobody else is touched, both counters go up by one, and the invariant is
    kept. *)
Theorem register_functional a wr dis r w :
  Inv w → wr < next_id w → wr ∉ writer <$> all_values (deliveries w) →
  let full := limit_reached (clients w) a in
  (full = true ↔ msum (λ _ l, length l) (by_addr (clients w)) = MAX_CONNECTIONS ∨
    msum (count_ip (ip a)) (by_addr (clients w)) = MAX_CONNECTIONS_PER_IP) ∧
  (full = true → register_client_with_status a wr dis r w =
    (Done (Err ConnectionLimitReached),
     set_channels (<[wr := drop_sender (channels w wr)]> (channels w)) w)) ∧
  (full = false → ∃ t w', register_client_with_status a wr dis r w = (Done (Ok t), w') ∧
    Inv w' ∧ (∀ b, t ∉ token <$> clients_at (clients w) b) ∧
    (∀ b, clients_at (clients w') b =
      clients_at (clients w) b ++ if decide (a = b) then [mk_ClientSession t None] else []) ∧
    (∀ b, deliveries_at (deliveries w') b = deliveries_at (deliveries w) b ++
      if decide (a = b) then [mk_ClientDelivery a t wr dis r []] else []) ∧
    total (clients w') = S (total (clients w)) ∧
    default 0 (per_ip (clients w') !! ip a) = S (default 0 (per_ip (clients w) !! ip a))).
Proof.
  intros Hw Hwr Hfresh full. pose proof (register_spec a wr dis r w Hw Hwr Hfresh) as Hspec.
  fold full in Hspec. split_and!; [by apply limit_reached_iff, Hw| |].
  - intros Hf. by rewrite Hf in Hspec.
  - intros Hf. rewrite Hf in Hspec.
    destruct (register_inv a wr dis r w Hw Hwr Hfresh) as (res & w' & E & Hw').
    rewrite E in Hspec. injection Hspec as -> ->. do 2 eexists. split_and!; [exact E|done|..].
    + intros b Hin. pose proof (inv_tokens w Hw b) as Hb. rewrite Forall_forall in Hb.
      specialize (Hb _ Hin). cbn in Hb. lia.
    + intros b. unfold clients_at. cbn. destruct (decide (a = b)) as [<-|Hne].
      * by rewrite lookup_insert_eq.
      * rewrite lookup_insert_ne by done. by rewrite app_nil_r.
    + intros b. unfold deliveries_at. cbn. destruct (decide (a = b)) as [<-|Hne].
      * by rewrite lookup_insert_eq.
      * rewrite lookup_insert_ne by done. by rewrite app_nil_r.
    + done.
    + cbn. by rewrite lookup_insert_eq.
Qed.

(** C17: removal.  [remove_client_if_current] reports whether the client was there, takes
    exactly that client out of both registries and nobody else, gives its place in the
    connection limits back, leaves history and rate limits alone, and a second removal
    reports [false] and touches neither channels nor signals. *)
Theorem remove_functional a t w :
  Inv w →
  let there := bool_decide (t ∈ token <$> clients_at (clients w) a) in
  ∃ w', remove_client_if_current a t w = (Done (Ok there), w') ∧ Inv w' ∧
    (∀ b, clients_at (clients w') b = if decide (a = b) then without t (clients_at (clients w) b)
                                      else clients_at (clients w) b) ∧
    (∀ b, deliveries_at (deliveries w') b =
      if decide (a = b) then staying t (deliveries_at (deliveries w) b)
      else deliveries_at (deliveries w) b) ∧
    (there = true → S (total (clients w')) = total (clients w) ∧
      limit_reached (clients w') a = false) ∧
    (there = false → channels w' = channels w ∧ watches w' = watches w) ∧
    history w' = history w ∧ rate_limits w' = rate_limits w ∧
    ∃ w'', remove_client_if_current a t w' = (Done (Ok false), w'') ∧
      channels w'' = channels w' ∧ watches w'' = watches w'.
Proof.
  intros Hw there.
  destruct (remove_client_spec a t w Hw) as (c' & E & Hw' & Hat & Hcnt).
  fold there in E, Hcnt. exists (removed_world a t c' w).
  assert (t ∉ token <$> clients_at c' a) as Hgone.
  { rewrite Hat, decide_True by done. apply without_absent. }
  assert (∀ c1 w1, Inv w1 → t ∉ token <$> clients_at (clients w1) a →
    channels (removed_world a t c1 w1) = channels w1 ∧
    watches (removed_world a t c1 w1) = watches w1) as Hsame.
  { intros c1 w1 Hw1 Ht. by rewrite (removed_world_absent a t c1 w1 Hw1 Ht). }
  split_and!; [done|done|exact Hat| | | |done|done|].
  - intros b. cbn. rewrite deliveries_at_put. by destruct (decide (a = b)) as [<-|].
  - intros Ht. destruct (Hcnt Ht) as [Htot Hip]. split; [done|].
    unfold limit_reached. cbn [clients removed_world set_deliveries set_channels set_watches
      set_clients]. apply orb_false_iff. rewrite !Nat.leb_gt.
    pose proof (wf_max_total _ (inv_registry w Hw)).
    pose proof (wf_max_ip _ (inv_registry w Hw) (ip a)). lia.
  - intros Ht. apply Hsame; [done|]. by apply bool_decide_eq_false in Ht.
  - destruct (remove_client_spec a t _ Hw') as (c2 & E2 & _ & _ & _).
    cbn [clients removed_world set_deliveries set_channels set_watches set_clients] in E2.
    rewrite bool_decide_false in E2 by done.
    exists (removed_world a t c2 (removed_world a t c' w)). split; [exact E2|].
    by apply Hsame.
Qed.

(** A client that is removed is told to stop: the [changed()] its session waits for has
    completed, so the session can only end. *)
Theorem remove_signals `{TokioLaws} a d s w :
  Inv w → d ∈ deliveries_at (deliveries w) a → disconnect d = Some s →
  ∃ w', remove_client_if_current a (cd_token d) w = (Done (Ok true), w') ∧
    watch_ready (watches w' s) = true.
Proof.
  intros Hw Hd Hs. destruct (remove_client_spec a (cd_token d) w Hw) as (c' & E & _).
  rewrite bool_decide_true in E.
  - eexists. split; [exact E|]. cbn. eapply signalled_ready; [|exact Hs].
    by apply elem_of_leaving.
  - rewrite <-(ok_mirror _ _ _ (inv_deliveries w Hw)). by apply list_elem_of_fmap_2.
Qed.

End StateProps.

Lemma register_functional_witness :
  ∃ t w', @register_client_with_status model_tokio client_addr 0 (Some 1) false
      (@with_channels model_tokio 0 (new_shared_state 0%Z)) = (Done (Ok t), w') ∧
    total (clients w') = 1.
Proof.
  destruct (@register_functional model_tokio client_addr 0 (Some 1) false
    (@with_channels model_tokio 0 (new_shared_state 0%Z))) as (_ & _ & Hok).
  - apply with_channels_inv, new_shared_state_inv.
  - cbn. lia.
  - apply (fresh_writer 0 empty_registry); [apply new_shared_state_inv|lia].
  - destruct Hok as (t & w' & E & _ & _ & _ & _ & Et & _); [reflexivity|]. by exists t, w'.
Defined.

Lemma remove_functional_witness :
  ∃ w', remove_client_if_current client_addr 2 (@one_client model_tokio) = (Done (Ok true), w') ∧
    total (clients w') = 0.
Proof.
  destruct (@remove_functional model_tokio client_addr 2 (@one_client model_tokio))
    as (w' & E & _ & _ & _ & Hcnt & _); [apply one_client_inv|].
  exists w'. split; [exact E|]. destruct Hcnt as [Hn _]; [vm_compute; reflexivity|].
  vm_compute in Hn. by injection Hn.
Defined.

Lemma remove_signals_witness :
  ∃ w', remove_client_if_current client_addr 2 (@one_client model_tokio) = (Done (Ok true), w') ∧
    watch_ready (watches w' 1) = true.
Proof.
  apply (@remove_signals model_tokio model_tokio_laws client_addr
    (mk_ClientDelivery client_addr 2 0 (Some 1) false []) 1 (@one_client model_tokio)).
  - apply one_client_inv.
  - vm_compute. left.
  - reflexivity.
Defined.

(** The history is a sliding window: after any sequence of messages it holds the last
    [limit] of them, oldest first, each without its trailing newlines. *)
Theorem history_window n messages :
  entries (foldl record (new_history n) messages) =
    lastn n (map (trim_end_matches newline) messages).
Proof.
  assert (∀ h, length (entries h) ≤ limit h →
    entries (foldl record h messages) =
      lastn (limit h) (entries h ++ map (trim_end_matches newline) messages)) as Hall.
  { induction messages as [|m messages IH]; intros h Hh; cbn [foldl map].
    - by rewrite app_nil_r, lastn_all.
    - pose proof (record_lastn h m Hh) as E.
      rewrite IH; rewrite E; [|rewrite length_lastn; cbn; lia].
      cbn [record limit]. rewrite lastn_app, <-(assoc_L (++)). done. }
  rewrite Hall; [done|cbn; lia].
Qed.
