(* ===== verification/Replay.v ===== *)
(** The replay of the message history to a client that has just registered
    ([send_message_history] of [crates/server/src/connection.rs] with [with_history_replay]
    and [mark_client_ready] of [crates/server/src/state.rs]): the outbound queue is large
    enough for the whole history and the whole backlog, so the replay cannot overflow it, and
    the client gets the history, then what was broadcast meanwhile. *)
From stdpp Require Import functions.
From S2P Require Import Prelude Utf8 Text Frame Presence Prog Net Config RateLimit Registry.
From S2P Require Import State StateInv Admission Connection Broadcast Server StateProps.

Section Replay.
Context `{HashOrder} `{Tokio}.

(** The frame a history entry is replayed as. *)
Definition frame_of (text : str) : OutboundMessage :=
  frame_header Chat (zlen (as_bytes text)) ++ as_bytes text.

Lemma encode_chat_frame_of text : fits text → encode_chat text = Ok (frame_of text).
Proof. apply encode_chat_fits. Qed.

Section Laws.
Context {Laws : TokioLaws}.

(** ** Sending into a queue with room *)

Lemma sent_view c m :
  receiver_alive (view c) = true → length (queue (view c)) < capacity (view c) →
  fst (try_send c m) = Sent ∧
  view (sent c m) =
    mk_ChanView (queue (view c) ++ [m]) (capacity (view c)) (senders (view c)) true.
Proof.
  intros Ha Hl. destruct (view_try_send c m) as [E1 E2]. unfold sent. rewrite E1, E2.
  unfold view_send. rewrite Ha. cbn [negb]. by rewrite decide_True.
Qed.

Lemma sent_all_view c ms :
  receiver_alive (view c) = true →
  length (queue (view c)) + length ms ≤ capacity (view c) →
  view (foldl sent c ms) =
    mk_ChanView (queue (view c) ++ ms) (capacity (view c)) (senders (view c)) true.
Proof.
  revert c. induction ms as [|m ms IH]; intros c Ha Hl; cbn [foldl length] in *.
  - rewrite app_nil_r, <-Ha. by destruct (view c).
  - destruct (sent_view c m Ha) as [_ Ev]; [lia|].
    rewrite IH; rewrite Ev; cbn; [|done|rewrite length_app; cbn; lia].
    by rewrite <-(assoc_L (++)).
Qed.

Lemma replay_message_run i m held w :
  fits m →
  run (replay_message i m) held w =
    Some (send_error (fst (try_send (channels w i) (frame_of m))), held,
      set_channels (<[i := sent (channels w i) (frame_of m)]> (channels w)) w).
Proof.
  intros Hm. unfold replay_message. rewrite encode_chat_frame_of by done.
  cbn [pure try_bind pbind]. rewrite run_try_bind.
  rewrite (run_section _ _ _ _ _ (send_on_eq _ _ _)). done.
Qed.

Lemma replay_messages_run i ms held w :
  Forall fits ms → receiver_alive (view (channels w i)) = true →
  length (queue (view (channels w i))) + length ms ≤ capacity (view (channels w i)) →
  ∃ ch, run (for_each ms (replay_message i)) held w = Some (Ok tt, held, set_channels ch w) ∧
    ch i = foldl sent (channels w i) (map frame_of ms) ∧
    ∀ j, i ≠ j → ch j = channels w j.
Proof.
  revert w. induction ms as [|m ms IH]; intros w Hfits Ha Hl.
  - exists (channels w). split_and!; try done. by destruct w.
  - apply Forall_cons in Hfits as [Hm Hms]. cbn [length] in Hl.
    destruct (sent_view (channels w i) (frame_of m) Ha) as [Es Ev]; [lia|].
    destruct (IH (set_channels (<[i := sent (channels w i) (frame_of m)]> (channels w)) w) Hms)
      as (ch & E & Ei & Ej).
    { cbn [channels set_channels]. by rewrite fn_insert_eq, Ev. }
    { cbn [channels set_channels]. rewrite fn_insert_eq, Ev. cbn [queue capacity].
      rewrite length_app. cbn [length]. lia. }
    cbn [channels set_channels] in *. rewrite fn_insert_eq in Ei.
    exists ch. split_and!; [|done|].
    + cbn [for_each]. rewrite run_try_bind, replay_message_run by done.
      rewrite Es. exact E.
    + intros j Hj. rewrite Ej by done. by apply fn_insert_ne.
Qed.

(** ** Getting ready *)

Lemma mark_client_ready_room a t d w :
  Inv w → find_delivery (deliveries w) a t = Some d →
  receiver_alive (view (channels w (writer d))) = true →
  length (queue (view (channels w (writer d)))) + length (pending_messages d) ≤
    capacity (view (channels w (writer d))) →
  ∃ ch, mark_client_ready a t w = (Done (Ok tt), set_channels ch (set_deliveries
      (alter (alter_first (token_is t) (λ d, set_ready (set_pending [] d))) a (deliveries w)) w)) ∧
    ch (writer d) = foldl sent (channels w (writer d)) (pending_messages d) ∧
    ∀ j, writer d ≠ j → ch j = channels w j.
Proof.
  intros Hw Hfind Ha Hl. pose proof (mark_client_ready_spec a t w Hw) as Hs.
  rewrite Hfind in Hs. destruct Hs as (ch & ms & rest & res & f & Hms & Ei & Ej & _ & E & Hf).
  destruct rest as [|m rest].
  - destruct Hf as [-> ->]. rewrite app_nil_r in Hms. cbn [take] in Ei.
    rewrite app_nil_r, <-Hms in Ei. exists ch. done.
  - destruct Hf as (_ & Hns & _). exfalso. apply Hns.
    rewrite Hms, length_app in Hl. cbn [length] in Hl.
    pose proof (sent_all_view (channels w (writer d)) ms Ha ltac:(lia)) as Ev.
    apply sent_view; rewrite Ev; [done|]. cbn [queue capacity]. rewrite length_app. lia.
Qed.

Lemma find_delivery_alter ds a t f d :
  (∀ d, cd_token (f d) = cd_token d) → find_delivery ds a t = Some d →
  find_delivery (alter (alter_first (token_is t) f) a ds) a t = Some (f d).
Proof.
  intros Hf. unfold find_delivery. rewrite lookup_alter_eq.
  destruct (ds !! a) as [l|]; cbn; [|done].
  induction l as [|x l IH]; cbn; [done|]. destruct (token_is t x) eqn:E; cbn.
  - intros [= ->]. unfold token_is in *. by rewrite Hf, E.
  - rewrite E. exact IH.
Qed.

(** The replay run to its end. *)
Lemma replay_run a t d w :
  Inv w → find_delivery (deliveries w) a t = Some d →
  receiver_alive (view (channels w (writer d))) = true →
  length (queue (view (channels w (writer d)))) + length (entries (history w)) +
    length (pending_messages d) ≤ capacity (view (channels w (writer d))) →
  ∃ w', run (send_message_history a t) false w = Some (Ok tt, false, w') ∧
    find_delivery (deliveries w') a t = Some (set_ready (set_pending [] d)) ∧
    view (channels w' (writer d)) = mk_ChanView
      (queue (view (channels w (writer d))) ++ map frame_of (entries (history w)) ++
       pending_messages d)
      (capacity (view (channels w (writer d)))) (senders (view (channels w (writer d)))) true ∧
    (∀ j, writer d ≠ j → channels w' j = channels w j) ∧
    clients w' = clients w ∧ history w' = history w ∧ rate_limits w' = rate_limits w.
Proof.
  intros Hw Hfind Ha Hl. set (i := writer d) in *.
  set (w1 := set_channels (<[i := clone_sender (channels w i)]> (channels w)) w).
  assert (Inv w1) as Hw1 by (by apply Inv_channels).
  assert (view (channels w1 i) = mk_ChanView (queue (view (channels w i)))
    (capacity (view (channels w i))) (S (senders (view (channels w i)))) true) as Ev1.
  { cbn. rewrite fn_insert_eq, view_clone. by rewrite Ha. }
  assert (Forall fits (entries (history w))) as Hfits by apply (inv_history w Hw).
  destruct (replay_messages_run i (entries (history w)) true w1 Hfits)
    as (ch1 & E1 & Ech1 & Hch1); [by rewrite Ev1|rewrite Ev1; cbn; lia|].
  set (w2 := set_channels ch1 w1) in *.
  assert (view (channels w2 i) = mk_ChanView
    (queue (view (channels w i)) ++ map frame_of (entries (history w)))
    (capacity (view (channels w i))) (S (senders (view (channels w i)))) true) as Ev2.
  { cbn [w2 channels set_channels]. rewrite Ech1, sent_all_view; rewrite Ev1; [done|done|].
    cbn [queue capacity]. rewrite length_map. lia. }
  destruct (mark_client_ready_room a t d w2) as (ch2 & E2 & Ech2 & Hch2);
    [by apply Inv_channels|done|fold i; by rewrite Ev2| |].
  { fold i. rewrite Ev2. cbn [queue capacity]. rewrite length_app, length_map. lia. }
  fold i in Ech2, Hch2.
  eexists. split.
  - apply run_with_barrier. rewrite run_try_bind. unfold history_snapshot_unlocked.
    rewrite run_try_bind. erewrite run_section by (rewrite writer_section_eq by done;
      rewrite Hfind; reflexivity). cbn [mbind option_bind]. fold i. fold w1.
    rewrite run_try_bind. erewrite run_section by (apply on_error_Ok, snapshot_eq; done).
    cbn [mbind option_bind run done]. unfold replay. rewrite run_bind, run_try_bind.
    change (entries (history w1)) with (entries (history w)). rewrite E1. cbn [mbind option_bind].
    erewrite run_section by exact E2. cbn [mbind option_bind run]. rewrite drop_writer_eq. reflexivity.
  - cbn [deliveries channels clients history rate_limits set_channels set_deliveries].
    split_and!; try done.
    + by apply (find_delivery_alter _ _ _ (λ d, set_ready (set_pending [] d))).
    + rewrite fn_insert_eq, view_drop, Ech2.
      rewrite sent_all_view; rewrite Ev2; cbn [queue capacity receiver_alive senders pred];
        [by rewrite <-(assoc_L (++))|done|].
      rewrite length_app, length_map. lia.
    + intros j Hj. rewrite fn_insert_ne, Hch2 by done. cbn. rewrite Hch1 by done.
      cbn. by rewrite fn_insert_ne.
Qed.
End Laws.


Section Properties.
Context {Laws : TokioLaws}.

Lemma find_delivery_iff w a t d :
  Inv w → find_delivery (deliveries w) a t = Some d ↔
    d ∈ deliveries_at (deliveries w) a ∧ cd_token d = t.
Proof.
  intros Hw. split.
  - intros (l & Hl & _ & Hin & Ht)%find_delivery_Some. unfold deliveries_at. by rewrite Hl.
  - intros [Hin Ht]. destruct (find_delivery (deliveries w) a t) as [d'|] eqn:E.
    + apply find_delivery_Some in E as (l & Hl & _ & Hin' & Ht').
      f_equal. apply (delivery_unique w a); [done| |done|congruence].
      unfold deliveries_at. by rewrite Hl.
    + apply (find_delivery_None _ _ _ _ _ (inv_deliveries w Hw)) in E. destruct E.
      rewrite <-(ok_mirror _ _ _ (inv_deliveries w Hw)), <-Ht. by apply list_elem_of_fmap_2.
Qed.

(** ** Properties *)

(** C10: the replay cannot fail for lack of room.  For a client that has just registered (its
    queue empty, of the size the server gives it, its writer alive) the history is replayed
    in order, followed by the whole backlog in order; the client is ready with an empty
    backlog; the sender cloned for the replay is dropped again; nobody else's queue, the
    client registry and the history do not change. *)
Theorem replay_complete a t d n w :
  Inv w → find_delivery (deliveries w) a t = Some d →
  view (channels w (writer d)) = mk_ChanView [] OUTBOUND_QUEUE_SIZE n true →
  ∃ w', run (send_message_history a t) false w = Some (Ok tt, false, w') ∧ Inv w' ∧
    find_delivery (deliveries w') a t = Some (set_ready (set_pending [] d)) ∧
    view (channels w' (writer d)) =
      mk_ChanView (map frame_of (entries (history w)) ++ pending_messages d)
        OUTBOUND_QUEUE_SIZE n true ∧
    (∀ j, writer d ≠ j → channels w' j = channels w j) ∧
    clients w' = clients w ∧ history w' = history w.
Proof.
  intros Hw Hfind Hv. pose proof (inv_history w Hw) as [_ Hlen _].
  pose proof Hfind as [Hin _]%find_delivery_iff; [|done].
  pose proof (ok_each _ _ _ (inv_deliveries w Hw) a) as Hall. rewrite Forall_forall in Hall.
  destruct (Hall d Hin) as [_ _ Hpend _].
  destruct (replay_run a t d w Hw Hfind) as (w' & E & Hf & Hq & Hj & Hc & Hh & _).
  - by rewrite Hv.
  - rewrite Hv. cbn [queue length capacity]. unfold OUTBOUND_QUEUE_SIZE. lia.
  - exists w'. split_and!; try done.
    + exact (run_safe _ _ _ _ _ _ _ (send_message_history_safe a t) Hw E).
    + rewrite Hq, Hv. done.
Qed.

(** C26: the duplicate of the registration race.  A message that is broadcast between a
    client's registration and its replay is both in the history the replay sends and in the
    backlog the replay flushes: the client gets its frame twice. *)
Theorem replay_race_duplicates a t d n text w :
  Inv w → find_delivery (deliveries w) a t = Some d → ready d = false →
  length (pending_messages d) < PENDING_MESSAGES_LIMIT →
  view (channels w (writer d)) = mk_ChanView [] OUTBOUND_QUEUE_SIZE n true →
  fits (trim_end_matches newline text) →
  let frame := frame_of (trim_end_matches newline text) in
  ∃ b w1 w2 before,
    run (record_and_broadcast (Q := Query) text frame None) false w = Some (b, false, w1) ∧
    run (send_message_history a t) false w1 = Some (Ok tt, false, w2) ∧
    queue (view (channels w2 (writer d))) =
      (before ++ [frame]) ++ pending_messages d ++ [frame].
Proof.
  intros Hw Hfind Hready Hroom Hv Hfits frame.
  destruct (record_and_broadcast_run (Q := Query) text frame None w Hw Hfits)
    as (w1 & E1 & Hw1 & Eb).
  destruct (broadcast_run (Q := Query) frame None true _ (record_inv text w Hw Hfits))
    as (w1' & E1' & _ & Hd & _ & Hch & Hh & _).
  assert (w1' = w1) as -> by congruence. cbn [deliveries channels history set_history] in *.
  pose proof Hfind as [Hin Ht]%find_delivery_iff; [|done].
  assert (doom frame None (channels w) d = []) as Hdoom.
  { unfold doom. rewrite bool_decide_false, Hready by done.
    by rewrite (proj2 (Nat.leb_gt _ _)). }
  assert (after frame None d = set_pending (pending_messages d ++ [frame]) d) as Hafter.
  { unfold after. rewrite bool_decide_false, Hready by done.
    by rewrite (proj2 (Nat.leb_gt _ _)). }
  set (d1 := set_pending (pending_messages d ++ [frame]) d) in *.
  assert (find_delivery (deliveries w1) a t = Some d1) as Hfind1.
  { apply find_delivery_iff; [done|]. split; [|done]. rewrite Hd.
    apply list_elem_of_In, in_map_iff. exists d. split; [done|]. apply filter_In.
    split; [by apply list_elem_of_In|by rewrite Hdoom]. }
  assert (channels w1 (writer d1) = channels w (writer d)) as Ech.
  { change (writer d1) with (writer d). rewrite (Hch a d Hin Hdoom). unfold gets_frame.
    by rewrite Hready, andb_false_r. }
  pose proof (inv_history w1 Hw1) as [_ Hlen1 _].
  pose proof (ok_each _ _ _ (inv_deliveries w1 Hw1) a) as Hall. rewrite Forall_forall in Hall.
  pose proof Hfind1 as [Hin1 _]%find_delivery_iff; [|done].
  destruct (Hall d1 Hin1) as [_ _ Hpend1 _].
  destruct (replay_run a t d1 w1 Hw1 Hfind1) as (w2 & E2 & _ & Hq & _).
  { by rewrite Ech, Hv. }
  { rewrite Ech, Hv. cbn [queue length capacity]. unfold OUTBOUND_QUEUE_SIZE. lia. }
  destruct (lastn_snoc_ex 99 (entries (history w)) (trim_end_matches newline text)) as [es Ees].
  eexists _, w1, w2, (map frame_of es). split_and!; [exact E1|exact E2|].
  change (writer d1) with (writer d) in *. rewrite Hq, Ech, Hv, Hh. cbn [queue app].
  pose proof (inv_history w Hw) as [Hlim Hlen _].
  rewrite record_lastn by lia. rewrite Hlim. unfold MESSAGE_HISTORY_LIMIT. rewrite Ees, map_app.
  done.
Qed.
End Properties.
End Replay.

(** ** Concrete runs *)

Lemma replay_complete_witness :
  ∃ w', run (@send_message_history model_tokio client_addr 2) false (@one_client model_tokio) =
      Some (Ok tt, false, w') ∧
    channels w' 0 = mk_ChanView [] OUTBOUND_QUEUE_SIZE 1 true.
Proof.
  destruct (@replay_complete model_tokio model_tokio_laws client_addr 2
    (mk_ClientDelivery client_addr 2 0 (Some 1) false []) 1 (@one_client model_tokio))
    as (w' & E & _ & _ & Hv & _).
  - apply one_client_inv.
  - vm_compute. reflexivity.
  - vm_compute. reflexivity.
  - exists w'. split; [exact E|exact Hv].
Defined.

Lemma replay_race_duplicates_witness :
  ∃ b (w1 w2 : @World model_tokio) before,
    run (@record_and_broadcast canonical_order model_tokio (@Query model_tokio) (lit "hi")
      (frame_of (lit "hi")) None) false (@one_client model_tokio) = Some (b, false, w1) ∧
    run (@send_message_history model_tokio client_addr 2) false w1 = Some (Ok tt, false, w2) ∧
    queue (@view model_tokio model_tokio_laws (channels w2 0)) =
      (before ++ [frame_of (lit "hi")]) ++ [] ++ [frame_of (lit "hi")].
Proof.
  apply (@replay_race_duplicates canonical_order model_tokio model_tokio_laws client_addr 2
    (mk_ClientDelivery client_addr 2 0 (Some 1) false []) 1 (lit "hi") (@one_client model_tokio)).
  - apply one_client_inv.
  - vm_compute. reflexivity.
  - reflexivity.
  - vm_compute. lia.
  - vm_compute. reflexivity.
  - by vm_compute.
Defined.
