(* ===== verification/Order.v ===== *)
(** The order of live messages, in every interleaving ([record_and_broadcast],
    [with_history_replay] and [mark_client_ready] of [crates/server/src/state.rs],
    [outbound_writer] and [send_message_history] of [crates/server/src/connection.rs]).

    The replay barrier is there so that a client that joins while others talk gets the
    history and then the live messages, in one global order and without a gap.  This file
    proves it of the whole server with the logic of [Rely]: the ghost state is the log of all
    chat messages ever broadcast, everything each queue has accepted, and the message each
    writer task has taken off its queue and not yet written; what a socket has been sent is
    always a window of the log, replayed, followed by the log from some point on, and what its
    queue has accepted is what was written, what is in hand and what is still queued. *)
From stdpp Require Import functions.
From S2P Require Import Prelude Utf8 Text Frame Presence Config Prog Rely Net RateLimit.
From S2P Require Import Registry State StateInv Room Admission Connection Server Broadcast.
From S2P Require Import StateProps Replay.

#[local] Arguments frame_of : simpl never.

(** ** What a client is meant to see *)

(** The history entry of a message. *)
Definition text (message : str) : str := trim_end_matches newline message.

(** A presence frame that lists some users, and what is anything else. *)
Definition is_presence (frame : list u8) : bool :=
  match parse_presence (drop FRAME_HEADER_BYTES frame) with
  | Some users => bool_decide (encode_presence users = Ok frame)
  | None => false
  end.
Definition is_chat (frame : list u8) : bool := negb (is_presence frame).
Definition chat (frames : list (list u8)) : list (list u8) := List.filter is_chat frames.

(** The last hundred of the first [n] messages as the history replays them, then every
    message from the [c]th on as it was broadcast. *)
Definition live (log : list str) : list (list u8) := map frame_of log.
Definition expected (log : list str) (n c : nat) : list (list u8) :=
  map (λ m, frame_of (text m)) (lastn MESSAGE_HISTORY_LIMIT (take n log)) ++ live (drop c log).

(** A prefix of that: nothing is skipped, and the live part begins no later than the replay
    ends. *)
Definition in_order (log : list str) (frames : list (list u8)) : Prop :=
  ∃ n c, c ≤ n ≤ length log ∧ chat frames `prefix_of` expected log n c.

(** ** Lemmas on the above *)

Lemma is_presence_iff frame : is_presence frame = true ↔ ∃ users, encode_presence users = Ok frame.
Proof.
  unfold is_presence. split.
  - destruct (parse_presence _) as [users|]; [|done]. intros H%bool_decide_eq_true. eauto.
  - intros [users H]. pose proof H as (Hn & Hu & Hf)%encode_presence_Ok.
    apply encode_frame_Ok in Hf as [-> _].
    rewrite drop_app_length' by (by rewrite length_frame_header).
    rewrite parse_presence_payload by done. by apply bool_decide_eq_true.
Qed.

Lemma is_chat_frame_of m : is_chat (frame_of m) = true.
Proof.
  apply negb_true_iff, not_true_iff_false. intros (users & Hf)%is_presence_iff.
  apply encode_presence_Ok in Hf as (_ & _ & Hf). by apply encode_frame_Ok in Hf as [? _].
Qed.

Lemma chat_app fs gs : chat (fs ++ gs) = chat fs ++ chat gs.
Proof. apply List.filter_app. Qed.

Lemma chat_live log : chat (live log) = live log.
Proof.
  unfold chat, live. induction log as [|m log IH]; [done|]. cbn [map List.filter].
  by rewrite is_chat_frame_of, IH.
Qed.

Lemma chat_one m : chat [frame_of m] = [frame_of m].
Proof. apply (chat_live [m]). Qed.

Lemma chat_frames {A} (f : A → str) l :
  chat (map (λ m, frame_of (f m)) l) = map (λ m, frame_of (f m)) l.
Proof. rewrite <-(map_map f frame_of). apply chat_live. Qed.

Lemma expected_snoc log n c m :
  n ≤ length log → c ≤ length log →
  expected (log ++ [m]) n c = expected log n c ++ [frame_of m].
Proof.
  intros Hn Hc. unfold expected, live. rewrite take_app_le, drop_app_le by done.
  rewrite map_app. cbn. by rewrite (assoc_L (++)).
Qed.

Lemma in_order_nil log : in_order log [].
Proof. exists 0, 0. split; [lia|]. apply prefix_nil. Qed.

Lemma in_order_snoc log m fs : in_order log fs → in_order (log ++ [m]) fs.
Proof.
  intros (n & c & ? & Hp). exists n, c. rewrite length_app. split; [cbn; lia|].
  rewrite expected_snoc by lia. by apply prefix_app_r.
Qed.

Lemma in_order_prefix log fs gs : gs `prefix_of` fs → in_order log fs → in_order log gs.
Proof.
  intros [k ->] (n & c & ? & Hp). exists n, c. split; [done|]. rewrite chat_app in Hp.
  etrans; [|exact Hp]. by apply prefix_app_r.
Qed.

Lemma live_suffix log c fs gs :
  live (drop c log) = fs ++ gs → ∃ c', c ≤ c' ≤ length log `max` c ∧ gs = live (drop c' log).
Proof.
  intros E. exists (c + length fs). split.
  - apply (f_equal length) in E. unfold live in E. rewrite length_map, length_drop, length_app in E.
    lia.
  - unfold live in *. rewrite <-drop_drop, <-skipn_map, E, drop_app_length. done.
Qed.

(** ** Ghost state *)

(** Who acts on what: the task that fills a queue before its client is ready, the one that
    empties it, and the one that writes to a socket. *)
Inductive Res := SendSide (ch : nat) | RecvSide (ch : nat) | Socket (conn : nat).

#[export] Instance Res_eq_dec : EqDecision Res.
Proof. solve_decision. Defined.
#[export] Instance Res_countable : Countable Res.
Proof.
  refine (inj_countable'
    (λ r, match r with SendSide i => inl i | RecvSide i => inr (inl i) | Socket i => inr (inr i) end)
    (λ s, match s with inl i => SendSide i | inr (inl i) => RecvSide i | inr (inr i) => Socket i end)
    _).
  by intros [].
Defined.

Definition res_id (r : Res) : nat :=
  match r with SendSide i => i | RecvSide i => i | Socket i => i end.

Record Ghost := mk_Ghost {
  log : list str;                          (* every message delivered so far *)
  infl : option str;                       (* recorded, and about to be delivered *)
  accepted : nat → list OutboundMessage;   (* everything a queue has accepted *)
  inflight : nat → list OutboundMessage;   (* taken from a queue, and not written yet *)
  used : gset Res }.

Section Order.
Context `{HashOrder} `{Tokio} {Laws : TokioLaws}.

Abbreviation state := (World * Ghost)%type.
Implicit Types (s : state) (w : World) (g : Ghost).

Definition queue_of w (ch : nat) : list OutboundMessage := queue (view (channels w ch)).
Definition reg w : list ClientDelivery := all_values (deliveries w).
Definition key (d : ClientDelivery) : SocketAddr * ClientToken := (addr d, cd_token d).

(** A registered client has missed nothing: its queue has accepted all it should, or its
    backlog goes to the end of the log. *)
Definition complete g (d : ClientDelivery) : Prop :=
  if ready d then
    ∃ n c, c ≤ n ≤ length (log g) ∧ chat (accepted g (writer d)) = expected (log g) n c
  else ∃ c, c ≤ length (log g) ∧ chat (pending_messages d) = live (drop c (log g)).

(** The room the server is, the message being delivered included. *)
Definition room_of s : Room :=
  mk_Room (members_of (clients s.1)) (log s.2 ++ option_list (infl s.2)).

(** What has gone out on a socket: all that was written, and perhaps a part of one message
    more. *)
Definition on_socket (l : list str) (frames : list OutboundMessage) (bytes : list u8) : Prop :=
  ∃ next, length next ≤ 1 ∧ in_order l (frames ++ next) ∧
    concat frames `prefix_of` bytes ∧ bytes `prefix_of` concat (frames ++ next).

(** What has been written to the socket a queue is drained to, what is being written, and what
    is still in the queue are together all that the queue has accepted. *)
Record flows (conn ch : nat) s : Prop := {
  fl_conn : conn < next_id s.1;
  fl_ch : ch < next_id s.1;
  fl_one : length (inflight s.2 ch) ≤ 1;
  fl_all : accepted s.2 ch =
    written (io s.1) conn ++ inflight s.2 ch ++ queue_of s.1 ch }.

(** What always holds; what holds when nobody is between recording and delivering; what a
    task does to the state the others see. *)
Record always s : Prop := {
  al_inv : Inv s.1;
  al_history : entries (history s.1) =
    lastn MESSAGE_HISTORY_LIMIT (map text (log s.2 ++ option_list (infl s.2)));
  al_accepted ch : in_order (log s.2) (accepted s.2 ch);
  al_written conn : on_socket (log s.2) (written (io s.1) conn) (wire (io s.1) conn);
  al_used r : r ∈ used s.2 → res_id r < next_id s.1;
  al_flow ch conn : outlet (io s.1) ch = Some conn → flows conn ch s;
  al_outlet ch ch' conn :
    outlet (io s.1) ch = Some conn → outlet (io s.1) ch' = Some conn → ch = ch';
  al_reg d : d ∈ reg s.1 → is_Some (outlet (io s.1) (writer d)) }.

Lemma on_socket_snoc l m fs bs : on_socket l fs bs → on_socket (l ++ [m]) fs bs.
Proof.
  intros (next & ? & ? & ? & ?). exists next. split_and!; try done. by apply in_order_snoc.
Qed.

Definition between s : Prop := infl s.2 = None ∧ ∀ d, d ∈ reg s.1 → complete s.2 d.

Record guarantee (h : bool) (r : gset Res) s s' : Prop := {
  gu_next : next_id s.1 ≤ next_id s'.1;
  gu_room : room_moves (room_of s) (room_of s');
  gu_log : h = false →
    log s'.2 = log s.2 ∧ infl s'.2 = infl s.2 ∧ history s'.1 = history s.1;
  gu_recv ch : RecvSide ch ∉ r → ch < next_id s.1 →
    inflight s'.2 ch = inflight s.2 ch ∧ outlet (io s'.1) ch = outlet (io s.1) ch ∧
    ∃ ms, accepted s'.2 ch = accepted s.2 ch ++ ms ∧ queue_of s'.1 ch = queue_of s.1 ch ++ ms;
  gu_socket conn : Socket conn ∉ r → conn < next_id s.1 →
    written (io s'.1) conn = written (io s.1) conn ∧ wire (io s'.1) conn = wire (io s.1) conn ∧
    ∀ ch, outlet (io s'.1) ch = Some conn → outlet (io s.1) ch = Some conn;
  gu_send ch : SendSide ch ∉ r → ch < next_id s.1 →
    (∀ d, d ∈ reg s.1 → writer d = ch → ready d = false) → accepted s'.2 ch = accepted s.2 ch;
  gu_reg d' : d' ∈ reg s'.1 →
    (next_id s.1 ≤ writer d' ∧ next_id s.1 ≤ cd_token d' ∧ complete s'.2 d') ∨
    ∃ d, d ∈ reg s.1 ∧ key d = key d' ∧ writer d = writer d' ∧
      (SendSide (writer d) ∉ r → ready d' = ready d) ∧
      (h = false → complete s.2 d → complete s'.2 d') }.

Abbreviation tri := (Rely.tri always between used guarantee).
Abbreviation stable := (Rely.stable always between used guarantee).
Abbreviation mild := (Rely.mild always between used guarantee).
Abbreviation plain := (Rely.plain always between used guarantee).

Lemma guarantee_monotone : G_monotone (Ghost := Ghost) guarantee.
Proof.
  intros h r r' s s' Hr. assert (∀ x, x ∉ r' → x ∉ r) as Hn by (intros x Hx ?; by apply Hx, Hr).
  intros []. split; eauto.
  intros d' Hd'. destruct (gu_reg0 d' Hd') as [?|(d & ? & ? & ? & ? & ?)]; [by left|right].
  exists d. split_and!; eauto.
Qed.

Lemma guarantee_refl : G_refl (Ghost := Ghost) guarantee.
Proof.
  intros h r s. split; try done.
  - intros ch _ _. split_and!; [done|done|]. exists []. by rewrite !app_nil_r.
  - intros d Hd. right. by exists d.
Qed.

Lemma guarantee_weak : G_weak (Ghost := Ghost) guarantee.
Proof.
  intros h s s' []. split; try done.
  - intros _. by apply gu_log0.
  - intros d' Hd'. destruct (gu_reg0 d' Hd') as [?|(d & ? & ? & ? & ? & Hc)]; [by left|right].
    exists d. split_and!; try done. intros _. by apply Hc.
Qed.

(** Without the barrier nobody misses anything. *)
Lemma guarantee_between r s s' : guarantee false r s s' → between s → between s'.
Proof.
  intros Hg [Hi Hc]. destruct (gu_log _ _ _ _ Hg) as (_ & Ei & _); [done|]. split; [congruence|].
  intros d' Hd'. destruct (gu_reg _ _ _ _ Hg d' Hd') as [(_ & _ & ?)|(d & Hd & _ & _ & _ & Hcd)];
    [done|]. by apply Hcd, Hc.
Qed.

Lemma reg_addr w d : Inv w → d ∈ reg w → d ∈ deliveries_at (deliveries w) (addr d).
Proof.
  intros Hw (a & l & Hl & Hd)%elem_of_all_values.
  assert (d ∈ deliveries_at (deliveries w) a) as Hin by (unfold deliveries_at; by rewrite Hl).
  pose proof (ok_each _ _ _ (inv_deliveries w Hw) a) as Hall. rewrite Forall_forall in Hall.
  destruct (Hall d Hin) as [<- _ _ _]. done.
Qed.

Lemma reg_ok w d : Inv w → d ∈ reg w → delivery_ok (next_id w) (addr d) d.
Proof.
  intros Hw Hd%reg_addr; [|done]. pose proof (ok_each _ _ _ (inv_deliveries w Hw) (addr d)) as Hall.
  rewrite Forall_forall in Hall. by apply Hall.
Qed.

(** ** Quiet sections: nothing is sent, nobody registers *)

Record quiet w w' : Prop := {
  q_next : next_id w ≤ next_id w';
  q_history : history w' = history w;
  q_room said : room_moves (mk_Room (members_of (clients w)) said)
    (mk_Room (members_of (clients w')) said);
  q_queue ch : ch < next_id w → queue_of w' ch = queue_of w ch;
  q_written conn : written (io w') conn = written (io w) conn;
  q_wire conn : wire (io w') conn = wire (io w) conn;
  q_outlet ch : outlet (io w') ch = outlet (io w) ch;
  q_reg d : d ∈ reg w' → d ∈ reg w }.

Lemma quiet_refl w : quiet w w.
Proof. by split. Qed.

Lemma quiet_trans w1 w2 w3 :
  clients w2 = clients w1 → quiet w1 w2 → quiet w2 w3 → quiet w1 w3.
Proof.
  intros Hc [] []. split; eauto; [lia|congruence|by rewrite <-Hc| |intros; congruence..].
  intros ch Hch. rewrite q_queue1 by lia. auto.
Qed.

Lemma always_quiet w w' g : quiet w w' → Inv w' → always (w, g) → always (w', g).
Proof.
  intros [] Hw' []. cbn in *. split; cbn; try done.
  - by rewrite q_history0.
  - intros conn. by rewrite q_written0, q_wire0.
  - intros r Hr. specialize (al_used0 r Hr). lia.
  - intros ch conn. rewrite q_outlet0. intros [? ? ? Hall]%al_flow0. cbn in *.
    split; cbn; [lia|lia|done|]. by rewrite Hall, q_written0, q_queue0.
  - intros ch ch' conn. rewrite !q_outlet0. eauto.
  - intros d Hd%q_reg0. rewrite q_outlet0. auto.
Qed.

Lemma guarantee_quiet w w' g : quiet w w' → guarantee false ∅ (w, g) (w', g).
Proof.
  intros []. split; cbn; try done.
  - apply q_room0.
  - intros ch _ Hch. split_and!; [done|auto|]. exists []. rewrite !app_nil_r. auto.
  - intros conn _ _. split_and!; auto. intros ch. by rewrite q_outlet0.
  - intros d Hd. right. exists d. split_and!; auto.
Qed.

Lemma mild_quiet {B} (act : M B) (R : result ServerError B → Prop) :
  (∀ w, Inv w → ∃ r w', act w = (Done r, w') ∧ Inv w' ∧ quiet w w' ∧ R r) → mild act R.
Proof.
  intros Hact [w g] Hs. destruct (Hact w (al_inv _ Hs)) as (r & w' & E & Hw' & Hq & HR).
  pose proof (guarantee_quiet w w' g Hq) as Hg.
  exists r, w', g. split_and!; [done|by eapply always_quiet|done| |done|done].
  by apply (guarantee_between ∅).
Qed.

(** Changes of the heap that leave the queues alone. *)
Lemma quiet_channels w ch :
  (∀ i, queue (view (ch i)) = queue_of w i) → quiet w (set_channels ch w).
Proof. intros Hq. split; try done. intros i _. apply Hq. Qed.

Lemma queue_insert ch (i : nat) c j :
  queue (view c) = queue (view (ch i)) → queue (view ((<[i := c]> ch) j)) = queue (view (ch j)).
Proof.
  intros Hq. destruct (decide (i = j)) as [<-|]; [by rewrite fn_insert_eq|by rewrite fn_insert_ne].
Qed.

Lemma quiet_drop_writer i w : quiet w (snd (drop_writer i w)).
Proof.
  apply quiet_channels. intros j. apply queue_insert. by rewrite view_drop.
Qed.

Lemma dropped_queue l ch i : queue (view (dropped ch l i)) = queue (view (ch i)).
Proof.
  unfold dropped. revert ch. induction l as [|d l IH]; intros ch; [done|]. cbn [foldl].
  rewrite IH. apply queue_insert. by rewrite view_drop.
Qed.

Lemma reg_removed a t c' w d :
  Inv w → d ∈ reg (removed_world a t c' w) → d ∈ reg w ∧ key d ≠ (a, t).
Proof.
  intros Hw Hd. unfold reg in *. cbn [removed_world deliveries set_deliveries] in Hd.
  rewrite all_values_put, elem_of_app in Hd. destruct Hd as [Hd|Hd].
  - unfold staying in Hd. apply list_elem_of_In, filter_In in Hd as [Hd Ht].
    apply list_elem_of_In in Hd. split; [by eapply elem_of_all_at|].
    intros [= _ <-]. unfold token_is, matches in Ht. by rewrite bool_decide_true in Ht.
  - apply elem_of_all_values in Hd as (b & l & [Hb Hl]%lookup_delete_Some & Hd).
    assert (d ∈ reg w) as Hr by (apply elem_of_all_values; eauto). split; [done|].
    intros [= Ha _]. pose proof (ok_each _ _ _ (inv_deliveries w Hw) b) as Hall.
    rewrite Forall_forall in Hall. unfold deliveries_at in Hall. rewrite Hl in Hall.
    destruct (Hall d Hd) as [Hab _ _ _]. congruence.
Qed.

Lemma quiet_removed a t c' w :
  Inv w → Inv (removed_world a t c' w) →
  (∀ b, clients_at c' b = if decide (a = b) then without t (clients_at (clients w) b)
                          else clients_at (clients w) b) →
  quiet w (removed_world a t c' w).
Proof.
  intros Hw Hw' Hat. split; try done.
  - intros said. eapply leave_moves; [apply Hw|apply Hw'|exact Hat].
  - intros ch _. apply dropped_queue.
  - intros d Hd. by eapply reg_removed.
Qed.

(** The sections that are quiet. *)

Lemma remove_mild a t : mild (remove_client_if_current a t) (λ r, is_ok r = true).
Proof.
  apply mild_quiet. intros w Hw. destruct (remove_client_spec a t w Hw) as (c' & E & Hw' & Hat & _).
  do 2 eexists. split; [exact E|]. split_and!; [done|by apply quiet_removed|done].
Qed.

(** A section that returns, keeps [Inv], and touches none of the fields that matter. *)
Lemma mild_ok {B} (act : M B) :
  act_ok Inv act → (∀ w r w', act w = (Done r, w') → quiet w w') → mild act (λ _, True).
Proof.
  intros Hok Hq. apply mild_quiet. intros w Hw. destruct (Hok w Hw) as (r & w' & E & Hw').
  exists r, w'. split_and!; [done|done|by eapply Hq|done].
Qed.

(** A section that only reads. *)
Lemma mild_read {B} (act : M B) :
  (∀ w, Inv w → ∃ r, act w = (Done r, w)) → mild act (λ _, True).
Proof.
  intros Hact. apply mild_quiet. intros w Hw. destruct (Hact w Hw) as [r E].
  exists r, w. split_and!; [done|done|apply quiet_refl|done].
Qed.

Lemma usernames_mild : mild usernames (λ _, True).
Proof. apply mild_read. intros w Hw. rewrite usernames_eq by done. eauto. Qed.

Lemma overloaded_mild : mild overloaded_section (λ _, True).
Proof. apply mild_read. intros w Hw. rewrite overloaded_eq by done. eauto. Qed.

Lemma gets_mild {A} (f : World → A) : mild (gets f) (λ _, True).
Proof. apply mild_read. eauto. Qed.

Lemma cleanup_mild now : mild (cleanup_section now) (λ _, True).
Proof.
  apply mild_quiet. intros w Hw. destruct (cleanup_section_ok now w Hw) as (r & w' & E & Hw').
  exists r, w'. split_and!; try done. rewrite cleanup_eq in E by done. simplify_eq. by split.
Qed.

Lemma allow_mild a : mild (allow_message a) (λ _, True).
Proof.
  apply mild_quiet. intros w Hw. destruct (allow_message_ok a w Hw) as (r & w' & E & Hw').
  exists r, w'. split_and!; try done. rewrite allow_message_eq in E by done. simplify_eq. by split.
Qed.

Lemma set_username_mild a t name :
  name_ok name → mild (set_client_username a t name) (λ _, True).
Proof.
  intros Hn. apply mild_quiet. intros w Hw.
  destruct (set_client_username_ok a t name Hn w Hw) as (r & w' & E & Hw').
  exists r, w'. split_and!; try done. pose proof (set_client_username_spec a t name w Hw) as Hs.
  destruct (decide _) as [Ht|].
  - destruct Hs as (c' & E' & Hwf & _ & _ & Hat). rewrite E in E'. simplify_eq.
    split; try done. intros said. eapply name_moves; [apply Hw|done|done|exact Hn|exact Hat].
  - rewrite E in Hs. simplify_eq. apply quiet_refl.
Qed.

Lemma clock_mild d : mild (modify (λ w, set_clock (clock w + Z.max 0 d)%Z w)) (λ _, True).
Proof. apply mild_ok; [apply clock_ok|]. intros w r w' [= <- <-]. by split. Qed.

Lemma set_flag_mild i b : mild (modify (set_joined_flag i b)) (λ _, True).
Proof. apply mild_ok; [apply set_flag_ok|]. intros w r w' [= <- <-]. by split. Qed.

Lemma new_joined_flag_mild : mild new_joined_flag (λ _, True).
Proof.
  apply mild_ok; [apply new_joined_flag_ok|]. intros w r w' [= <- <-]. split; try done. cbn. lia.
Qed.

Lemma drop_writer_mild i : mild (drop_writer i) (λ _, True).
Proof.
  apply mild_ok; [apply drop_writer_ok|]. intros w r w' [= <- <-]. apply quiet_drop_writer.
Qed.

Lemma close_on_mild i : mild (close_on i) (λ _, True).
Proof.
  apply mild_ok; [apply close_on_ok|]. intros w r w' [= <- <-]. apply quiet_channels. intros j.
  apply queue_insert. by rewrite view_drop_receiver.
Qed.

Lemma on_stream_mild {A} conn (f : stream → result ServerError A * stream) :
  mild (on_stream conn f) (λ r, ∃ str : stream, fst (f str) = r).
Proof.
  apply mild_quiet. intros w Hw. destruct (on_stream_ok conn f w Hw) as (r & w' & E & Hw').
  exists r, w'. split_and!; try done; unfold on_stream in E;
    destruct (f _) as [r' s'] eqn:Ef; simplify_eq; [by split|].
  eexists. by rewrite Ef.
Qed.

(** The counters of the accept loop. *)
Lemma acquire_global_mild : mild acquire_global (λ _, True).
Proof.
  apply mild_ok; [apply acquire_global_ok|]. intros w r w' E. rewrite acquire_global_eq in E.
  destruct (try_acquire_owned _); simplify_eq; by split.
Qed.

Lemma release_global_mild : mild release_global (λ _, True).
Proof.
  apply mild_ok; [apply release_global_ok|]. intros w r w' E. rewrite release_global_eq in E.
  simplify_eq. by split.
Qed.

Lemma count_connection_mild a : mild (count_connection a) (λ _, True).
Proof.
  apply mild_quiet. intros w Hw. destruct (count_connection_ok a w Hw) as (r & w' & E & Hw').
  exists r, w'. split_and!; try done. rewrite count_connection_eq in E by done. cbn beta zeta in E.
  destruct (_ <=? _); simplify_eq; by split.
Qed.

Lemma uncount_connection_mild i : mild (uncount_connection i) (λ _, True).
Proof.
  apply mild_quiet. intros w Hw. destruct (uncount_connection_ok i w Hw) as (r & w' & E & Hw').
  exists r, w'. split_and!; try done. rewrite uncount_connection_eq in E by done.
  destruct (_ !! i); simplify_eq; by split.
Qed.

(** ** Delivering a frame *)

(** What a queue accepts between two states in which nothing is received. *)
Definition push (w w' : World) (acc : nat → list OutboundMessage) (ch : nat)
  : list OutboundMessage :=
  acc ch ++ drop (length (queue_of w ch)) (queue_of w' ch).

Lemma push_queue w w' acc ch ms : queue_of w' ch = queue_of w ch ++ ms → push w w' acc ch = acc ch ++ ms.
Proof. intros E. unfold push. by rewrite E, drop_app_length. Qed.

Lemma sent_queue c m :
  queue (view (sent c m)) =
    queue (view c) ++ match fst (try_send c m) with Sent => [m] | _ => [] end.
Proof.
  destruct (view_try_send c m) as [E1 E2]. unfold sent. rewrite E1, E2. unfold view_send.
  destruct (receiver_alive (view c)); cbn; [|by rewrite app_nil_r].
  case_decide; cbn; [done|by rewrite app_nil_r].
Qed.

Definition delivered (m : OutboundMessage) w : World :=
  set_deliveries (map (after m None) <$> deliveries w)
    (set_channels (after_sends m None (channels w) (hash_values (deliveries w))) w).

Section Deliver.
Context (m : OutboundMessage) (w : World) (Hw : Inv w).

Abbreviation w' := (delivered m w).

(** Whether a registered client's queue takes the frame. *)
Definition takes (d : ClientDelivery) : list OutboundMessage :=
  if ready d then
    match fst (try_send (channels w (writer d)) m) with Sent => [m] | _ => [] end
  else [].

Lemma deliver_queue d : d ∈ reg w → queue_of w' (writer d) = queue_of w (writer d) ++ takes d.
Proof using Hw Laws.
  intros Hd. unfold queue_of, delivered, takes. cbn [channels set_deliveries set_channels].
  rewrite after_sends_at.
  - unfold gets_frame. rewrite bool_decide_false by done. cbn [negb andb].
    destruct (ready d); [apply sent_queue|by rewrite app_nil_r].
  - rewrite hash_values_perm. apply Hw.
  - by rewrite hash_values_perm.
Qed.

Lemma deliver_queue_other ch :
  (∀ d, d ∈ reg w → writer d ≠ ch) → queue_of w' ch = queue_of w ch.
Proof using Hw Laws.
  intros Hch. unfold queue_of, delivered. cbn [channels set_deliveries set_channels].
  rewrite after_sends_ne; [done|]. rewrite hash_values_perm.
  intros (d & -> & Hd)%list_elem_of_fmap. by apply (Hch d).
Qed.

(** Every queue grows by the frame or not at all. *)
Lemma deliver_queue_any ch :
  (∃ d, d ∈ reg w ∧ writer d = ch ∧ queue_of w' ch = queue_of w ch ++ takes d) ∨
  ((∀ d, d ∈ reg w → writer d ≠ ch) ∧ queue_of w' ch = queue_of w ch).
Proof using Hw Laws.
  destruct (decide (ch ∈ writer <$> reg w)) as [(d & -> & Hd)%list_elem_of_fmap|Hch].
  - left. exists d. split_and!; [done|done|by apply deliver_queue].
  - right. assert (∀ d, d ∈ reg w → writer d ≠ ch) as Hne.
    { intros d Hd <-. by apply Hch, list_elem_of_fmap_2. }
    split; [done|by apply deliver_queue_other].
Qed.

Lemma deliver_queue_grows ch : ∃ ms, queue_of w' ch = queue_of w ch ++ ms.
Proof using Hw Laws.
  destruct (deliver_queue_any ch) as [(d & _ & _ & E)|[_ E]]; [eauto|].
  exists []. by rewrite app_nil_r.
Qed.

Lemma deliver_reg d' : d' ∈ reg w' ↔ ∃ d, d ∈ reg w ∧ d' = after m None d.
Proof using Hw.
  unfold reg, delivered. cbn [deliveries set_deliveries]. rewrite all_values_fmap.
  rewrite list_elem_of_In, in_map_iff. split.
  - intros (d & <- & Hd%list_elem_of_In). eauto.
  - intros (d & Hd%list_elem_of_In & ->). eauto.
Qed.

Lemma after_ready d : ready (after m None d) = ready d.
Proof. unfold after. by destruct (_ || _). Qed.

Lemma after_key d : key (after m None d) = key d.
Proof. unfold after. by destruct (_ || _). Qed.

Lemma after_writer d : writer (after m None d) = writer d.
Proof. apply after_fields. Qed.

(** The clients dropped are those the frame did not reach. *)
Lemma not_doomed d :
  doom m None (channels w) d = [] →
  if ready d then takes d = [m]
  else pending_messages (after m None d) = pending_messages d ++ [m].
Proof.
  unfold doom, takes, after. rewrite !bool_decide_false by done. destruct (ready d); cbn [orb].
  - by destruct (fst _).
  - destruct (_ <=? _); done.
Qed.

Lemma doom_key d x : x ∈ doom m None (channels w) d → x.1 = key d.
Proof.
  unfold doom. destruct (bool_decide _); [by intros ?%not_elem_of_nil|].
  destruct (ready d); [destruct (fst _)|destruct (_ <=? _)];
    by try intros ?%not_elem_of_nil; try intros ->%list_elem_of_singleton.
Qed.
End Deliver.

(** The ghost state after queues have accepted frames. *)
Definition pushed w w' g : Ghost :=
  mk_Ghost (log g) (infl g) (push w w' (accepted g)) (inflight g) (used g).

Lemma takes_chat m w d : chat (takes m w d) = [] ∨ chat (takes m w d) = chat [m].
Proof. unfold takes. destruct (ready d); [destruct (fst _)|]; auto. Qed.

Lemma takes_presence m w d : is_chat m = false → chat (takes m w d) = [].
Proof. intros Hm. destruct (takes_chat m w d) as [->| ->]; [done|]. cbn. by rewrite Hm. Qed.

(** What delivering does to the queues, whatever the frame. *)
Lemma deliver_guarantee h m w g g' :
  Inv w → accepted g' = push w (delivered m w) (accepted g) → inflight g' = inflight g →
  log g' ++ option_list (infl g') = log g ++ option_list (infl g) →
  (h = false → log g' = log g ∧ infl g' = infl g) →
  (h = false → ∀ d, d ∈ reg w → complete g d → complete g' (after m None d)) →
  guarantee h ∅ (w, g) (delivered m w, g').
Proof.
  intros Hw Ha Hi Hsaid Hlog Hc. split; cbn [fst snd].
  - done.
  - left. unfold room_of. cbn [fst snd]. by rewrite Hsaid.
  - intros Hh. split_and!; [by apply Hlog..|done].
  - intros ch _ _. split_and!; [by rewrite Hi|done|]. destruct (deliver_queue_grows m w Hw ch) as [ms E].
    exists ms. rewrite Ha. split; [by apply push_queue|done].
  - done.
  - intros ch _ _ Hready. rewrite Ha.
    assert (queue_of (delivered m w) ch = queue_of w ch ++ []) as E.
    { rewrite app_nil_r. destruct (deliver_queue_any m w Hw ch) as [(d & Hd & Hch & ->)|[_ ->]];
        [|done]. unfold takes. rewrite (Hready d Hd Hch). by rewrite app_nil_r. }
    by rewrite (push_queue _ _ _ _ _ E), app_nil_r.
  - intros d' (d & Hd & ->)%deliver_reg; [|done]. right. exists d. split_and!; try done.
    + by rewrite after_key.
    + by rewrite after_writer.
    + intros _. by rewrite after_ready.
    + intros Hh. by apply Hc.
Qed.

Lemma deliver_flows m w g g' ch conn :
  always (w, g) → accepted g' = push w (delivered m w) (accepted g) → inflight g' = inflight g →
  outlet (io w) ch = Some conn → flows conn ch (delivered m w, g').
Proof.
  intros Hs Ha Hi [? ? ? Hall]%(al_flow _ Hs). pose proof (al_inv _ Hs) as Hw. cbn in *.
  destruct (deliver_queue_grows m w Hw ch) as [ms E]. split; cbn; [done|done|by rewrite Hi|].
  by rewrite Ha, (push_queue _ _ _ _ _ E), E, Hi, Hall, <-!(assoc_L (++)).
Qed.

Lemma deliver_reg_outlet m w g d' :
  always (w, g) → d' ∈ reg (delivered m w) → is_Some (outlet (io w) (writer d')).
Proof.
  intros Hs. pose proof (al_inv _ Hs) as Hw. cbn in Hw.
  intros (d & Hd & ->)%deliver_reg; [|done]. rewrite after_writer. by apply (al_reg _ Hs).
Qed.

(** A presence frame changes nothing in the order of the messages. *)
Lemma deliver_presence_chat m w g ch :
  Inv w → is_chat m = false → chat (push w (delivered m w) (accepted g) ch) = chat (accepted g ch).
Proof.
  intros Hw Hm. destruct (deliver_queue_any m w Hw ch) as [(d & _ & _ & E)|[_ E]].
  - by rewrite (push_queue _ _ _ _ _ E), chat_app, takes_presence, app_nil_r.
  - rewrite (push_queue _ _ _ _ []) by (by rewrite E, app_nil_r). by rewrite app_nil_r.
Qed.

Lemma complete_presence m w g d :
  Inv w → is_chat m = false → d ∈ reg w →
  complete g d → complete (pushed w (delivered m w) g) (after m None d).
Proof.
  intros Hw Hm Hd. unfold complete. rewrite after_ready, after_writer.
  cbn [log accepted pushed]. rewrite deliver_presence_chat by done.
  destruct (ready d) eqn:Er; [done|]. intros (c & ? & Hc). exists c. split; [done|].
  unfold after. rewrite bool_decide_false, Er by done. cbn [orb].
  destruct (_ <=? _); [done|]. cbn [pending_messages set_pending]. rewrite chat_app. cbn. by rewrite Hm, app_nil_r.
Qed.

Lemma in_order_chat log fs gs : chat fs = chat gs → in_order log gs → in_order log fs.
Proof. intros E (n & c & ? & Hp). exists n, c. by rewrite E. Qed.

Lemma deliver_mild m : is_chat m = false → mild (deliver m None) (λ r, is_ok r = true).
Proof.
  intros Hm [w g] Hs. pose proof (al_inv _ Hs) as Hw. cbn in Hw.
  destruct (deliver_spec m None w Hw) as (doomed & w' & E & Hw').
  pose proof E as E'. rewrite deliver_eq in E' by done. injection E' as _ E'.
  change (delivered m w = w') in E'. subst w'.
  assert (guarantee false ∅ (w, g) (delivered m w, pushed w (delivered m w) g)) as Hg.
  { apply deliver_guarantee; try done. intros _ d. by apply complete_presence. }
  exists (Ok doomed), (delivered m w), (pushed w (delivered m w) g).
  split_and!; [done| |done| |done|done]; [|by apply (guarantee_between ∅)].
  pose proof Hs as Hs'. destruct Hs'. split; cbn in *; try done.
  - intros ch. eapply in_order_chat; [|apply al_accepted0]. by apply deliver_presence_chat.
  - intros ch conn. by apply (deliver_flows m w g (pushed w (delivered m w) g)).
  - intros d. by apply (deliver_reg_outlet m w g).
Qed.

(** ** Recording and delivering a chat message *)

(** The message is in the history, not yet in the queues. *)
Definition recorded (msg : str) s : Prop :=
  infl s.2 = Some msg ∧ ∀ d, d ∈ reg s.1 → complete s.2 d.

(** The message is in the queues; the clients listed may have missed it. *)
Definition dropping (l : list (SocketAddr * ClientToken)) s : Prop :=
  infl s.2 = None ∧ ∀ d, d ∈ reg s.1 → key d ∈ l ∨ complete s.2 d.

Lemma record_message_section message msg w g :
  always (w, g) → between (w, g) → fits msg → text message = text msg →
  ∃ w', record_section message w = (Done (Ok tt), w') ∧
    always (w', mk_Ghost (log g) (Some msg) (accepted g) (inflight g) (used g)) ∧
    guarantee true ∅ (w, g) (w', mk_Ghost (log g) (Some msg) (accepted g) (inflight g) (used g)) ∧
    recorded msg (w', mk_Ghost (log g) (Some msg) (accepted g) (inflight g) (used g)).
Proof.
  intros Hs [Hi Hc] Hf Ht. pose proof (al_inv _ Hs) as Hw. cbn in *.
  eexists. split; [by apply record_eq|]. split_and!.
  - destruct Hs. split; cbn in *; try done.
    + apply record_inv; [done|]. change (fits (text message)). rewrite Ht. by apply trim_end_by_fits.
    + destruct (inv_history w Hw) as [Hlim Hlen _].
      change (entries (record (history w) message) =
        lastn MESSAGE_HISTORY_LIMIT (map text (log g ++ [msg]))).
      rewrite record_lastn by lia.
      rewrite Hlim, al_history0, Hi. fold (text message). rewrite Ht. cbn [option_list].
      by rewrite lastn_app, app_nil_r, map_app.
    + intros ch conn []%al_flow0. by split.
  - split; cbn; try done.
    + right. unfold room_of. cbn [fst snd log infl option_list]. rewrite Hi.
      cbn [option_list]. rewrite app_nil_r.
      by apply (room_say (mk_Room (members_of (clients w)) (log g))).
    + intros ch _ _. split_and!; [done|done|]. exists []. by rewrite !app_nil_r.
    + intros d Hd. right. exists d. done.
  - done.
Qed.

Lemma complete_chat msg w g d :
  Inv w → d ∈ reg w → complete g d → doom (frame_of msg) None (channels w) d = [] →
  complete (mk_Ghost (log g ++ [msg]) None
    (push w (delivered (frame_of msg) w) (accepted g)) (inflight g) (used g)) (after (frame_of msg) None d).
Proof.
  intros Hw Hd Hc Hdoom. pose proof (not_doomed _ _ _ Hdoom) as Hn.
  unfold complete in *. rewrite after_ready, after_writer. cbn [log accepted].
  rewrite length_app. cbn [length].
  rewrite (push_queue _ _ _ _ _ (deliver_queue (frame_of msg) w Hw d Hd)).
  destruct (ready d).
  - rewrite Hn. destruct Hc as (n & c & ? & Hc). exists n, c. split; [lia|].
    by rewrite expected_snoc, <-Hc, chat_app, chat_one by lia.
  - rewrite Hn. destruct Hc as (c & ? & Hc). exists c. split; [lia|].
    rewrite drop_app_le, chat_app, Hc, chat_one by lia. unfold live. by rewrite map_app.
Qed.

Lemma in_order_pushed msg w g ch :
  always (w, g) → (∀ d, d ∈ reg w → complete g d) →
  in_order (log g ++ [msg]) (push w (delivered (frame_of msg) w) (accepted g) ch).
Proof.
  intros Hs Hc. pose proof (al_inv _ Hs) as Hw. cbn in Hw.
  destruct (deliver_queue_any (frame_of msg) w Hw ch) as [(d & Hd & <- & E)|[_ E]].
  - rewrite (push_queue _ _ _ _ _ E). specialize (Hc d Hd). unfold complete in Hc.
    unfold takes. destruct (ready d).
    2: { rewrite app_nil_r. apply in_order_snoc, (al_accepted _ Hs). }
    destruct (fst _); try (rewrite app_nil_r; apply in_order_snoc, (al_accepted _ Hs)).
    destruct Hc as (n & c & ? & Hc). exists n, c. rewrite length_app. split; [lia|].
    by rewrite expected_snoc, chat_app, Hc, chat_one by lia.
  - rewrite (push_queue _ _ _ _ []) by (by rewrite E, app_nil_r).
    rewrite app_nil_r. apply in_order_snoc, (al_accepted _ Hs).
Qed.

Lemma deliver_message_section msg w g :
  always (w, g) → recorded msg (w, g) →
  let g' := mk_Ghost (log g ++ [msg]) None
    (push w (delivered (frame_of msg) w) (accepted g)) (inflight g) (used g) in
  ∃ dropped w', deliver (frame_of msg) None w = (Done (Ok dropped), w') ∧
    always (w', g') ∧ guarantee true ∅ (w, g) (w', g') ∧ dropping (map fst dropped) (w', g').
Proof.
  intros Hs [Hi Hc] g'. pose proof (al_inv _ Hs) as Hw. cbn in Hw, Hi, Hc.
  destruct (deliver_spec (frame_of msg) None w Hw) as (l & w' & E & Hw').
  pose proof E as E'. rewrite deliver_eq in E' by done. injection E' as El E'.
  change (delivered (frame_of msg) w = w') in E'. subst w'.
  exists l, (delivered (frame_of msg) w). split_and!; [done| | |].
  - split; cbn in *; try done.
    + rewrite app_nil_r. pose proof (al_history _ Hs) as Hh. cbn in Hh. by rewrite Hh, Hi.
    + intros ch. by apply in_order_pushed.
    + intros conn. apply on_socket_snoc, (al_written _ Hs).
    + apply (al_used _ Hs).
    + intros ch conn. by apply (deliver_flows (frame_of msg) w g g').
    + apply (al_outlet _ Hs).
    + intros d. by apply (deliver_reg_outlet (frame_of msg) w g).
  - apply deliver_guarantee; try done. cbn. by rewrite Hi, app_nil_r.
  - split; [done|]. cbn. intros d' (d & Hd & ->)%deliver_reg; [|done]. rewrite after_key.
    destruct (doom (frame_of msg) None (channels w) d) as [|x xs] eqn:Ed.
    + right. by apply complete_chat; auto.
    + left. rewrite <-El. apply list_elem_of_In, in_map_iff. exists x. split.
      * apply (doom_key (frame_of msg) w). rewrite Ed. by left.
      * apply in_concat. exists (x :: xs). split; [|by left]. apply in_map_iff. exists d.
        split; [done|]. by rewrite <-list_elem_of_In, hash_values_perm.
Qed.
End Order.
