(* ===== verification/OrderProps.v ===== *)
(** The order of live messages, continued: the server's programs in the logic of [Rely], with
    the state, invariant and guarantee of [Order], and the properties that follow for every
    reachable configuration. *)
From Stdlib Require Import Sorting.Sorted.
From stdpp Require Import functions.
From S2P Require Import Prelude Utf8 Text Frame Presence ChatText Config Prog Rely Net RateLimit.
From S2P Require Import Registry State StateInv Room Admission Connection Server Broadcast.
From S2P Require Import StateProps Replay Scenario Order.

#[local] Arguments frame_of : simpl never.
#[local] Hint Resolve guarantee_monotone guarantee_refl guarantee_weak : core.

Section OrderProps.
Context `{HashOrder} `{Tokio} {Laws : TokioLaws}.

Abbreviation state := (World * Ghost)%type.
Implicit Types (s : state) (w : World) (g : Ghost).
Abbreviation tri := (Rely.tri (Q := Query) always between used guarantee).
Abbreviation stable := (Rely.stable always between used guarantee).
Abbreviation rely := (Rely.rely between used guarantee).
Abbreviation mild := (Rely.mild always between used guarantee).
Abbreviation plain := (Rely.plain (Q := Query) always between used guarantee).
Abbreviation nothing := (λ _, ∅ : gset Res).

(** ** What is stable *)

Lemma stable_recorded msg r : stable true r (recorded msg).
Proof.
  intros s s' _ _ _ (h' & r' & _ & Hh & _ & _ & Hg) [Hi Hc].
  rewrite (Hh eq_refl) in Hg. destruct (gu_log _ _ _ _ Hg) as (_ & Ei & _); [done|].
  split; [congruence|]. intros d' Hd'.
  destruct (gu_reg _ _ _ _ Hg d' Hd') as [(_ & _ & ?)|(d & Hd & _ & _ & _ & Hcd)]; [done|].
  by apply Hcd, Hc.
Qed.

Lemma stable_dropping l r : stable true r (dropping l).
Proof.
  intros s s' _ _ _ (h' & r' & _ & Hh & _ & _ & Hg) [Hi Hc].
  rewrite (Hh eq_refl) in Hg. destruct (gu_log _ _ _ _ Hg) as (_ & Ei & _); [done|].
  split; [congruence|]. intros d' Hd'.
  destruct (gu_reg _ _ _ _ Hg d' Hd') as [(_ & _ & ?)|(d & Hd & Ek & _ & _ & Hcd)]; [by right|].
  rewrite <-Ek. destruct (Hc d Hd); auto.
Qed.

(** ** Broadcasting *)

Lemma remove_each_plain l : plain (remove_each l).
Proof.
  apply plain_for_each; auto. intros [a t]. apply plain_try_bind; auto.
  - eapply plain_section; auto. apply remove_mild.
  - intros. by apply plain_ret.
Qed.

(** Removing everybody who missed the message. *)
Lemma remove_each_dropping l :
  tri (remove_each l) true ∅ (dropping l) true nothing (λ _, between).
Proof.
  induction l as [|[a t] l IH].
  - split_and!; [done|done|]. intros s _ _ [Hi Hc]. split; [done|]. intros d Hd.
    destruct (Hc d Hd) as [?%not_elem_of_nil|?]; done.
  - intros [w g] Hs _ [Hi Hc]. pose proof (al_inv _ Hs) as Hw. cbn in Hw, Hi, Hc.
    destruct (remove_client_spec a t w Hw) as (c' & E & Hw' & Hat & _).
    pose proof (quiet_removed a t c' w Hw Hw' Hat) as Hq.
    eexists _, _, g, ∅, (dropping l). split_and!; [exact E| | | |exact IH].
    + split_and!; [by eapply always_quiet| |done|done|set_solver].
      by apply guarantee_weak, guarantee_quiet.
    + apply stable_dropping.
    + split; [done|]. cbn. intros d Hd. apply reg_removed in Hd as [Hd Hne]; [|done].
      destruct (Hc d Hd) as [[?|?]%elem_of_cons|?]; auto. done.
Qed.

Lemma record_and_broadcast_plain message msg :
  fits msg → text message = text msg →
  plain (record_and_broadcast message (frame_of msg) None).
Proof.
  intros Hf Ht. apply tri_with_barrier; auto; [done| |done].
  intros [w g] Hs _ [_ HJ].
  destruct (record_message_section message msg w g Hs HJ Hf Ht) as (w' & E & Hs' & Hg & HP).
  eexists _, w', _, ∅, (recorded msg). split_and!; [exact E| |apply stable_recorded|exact HP|].
  { split_and!; [done|done|done|done|set_solver]. }
  clear. intros [w g] Hs _ HP.
  destruct (deliver_message_section msg w g Hs HP) as (l & w' & E & Hs' & Hg & HP').
  eexists _, w', _, ∅, (dropping (map fst l)).
  split_and!; [exact E| |apply stable_dropping|exact HP'|].
  { split_and!; [done|done|done|done|set_solver]. }
  cbn [pbind]. eapply tri_bind; [auto|apply remove_each_dropping|]. intros [[]|e]; split_and!; try done; naive_solver.
Qed.

Lemma encode_presence_frame users frame : encode_presence users = Ok frame → is_chat frame = false.
Proof.
  intros Hf. apply negb_false_iff, is_presence_iff. eauto.
Qed.

(** The frame a broadcast of [message] carries. *)
Definition carries (message : str) (frame : OutboundMessage) : Prop :=
  ∃ msg, fits msg ∧ text message = text msg ∧ frame = frame_of msg.

Lemma announced message (s : str) c frame :
  message = s ++ [c; newline] → is_whitespace c = false →
  encode_chat (trim_end message) = Ok frame → carries message frame.
Proof.
  intros -> Hc Hf. destruct (trim_end_newline s c Hc) as [Et1 Et2]. rewrite Et2 in Hf.
  pose proof (encode_chat_Ok _ _ Hf) as Hfits.
  rewrite encode_chat_frame_of in Hf by done. injection Hf as <-.
  exists (s ++ [c]). split_and!; [done| |done]. unfold text. rewrite Et1. symmetry.
  by apply trim_end_by_snoc, whitespace_newline.
Qed.

Lemma join_carries username frame :
  encode_chat (trim_end (join_message username)) = Ok frame →
  carries (join_message username) frame.
Proof. destruct (join_message_shape username) as [s Hs]. by eapply announced. Qed.

Lemma leave_carries username frame :
  encode_chat (trim_end (leave_message username)) = Ok frame →
  carries (leave_message username) frame.
Proof. destruct (leave_message_shape username) as [s Hs]. by eapply announced. Qed.

Lemma message_carries message frame : encode_chat message = Ok frame → carries message frame.
Proof.
  intros Hf. pose proof (encode_chat_Ok _ _ Hf) as Hfits.
  rewrite encode_chat_frame_of in Hf by done. injection Hf as <-. by exists message.
Qed.

Lemma carries_plain message frame :
  carries message frame → plain (record_and_broadcast message frame None).
Proof. intros (msg & Hf & Ht & ->). by apply record_and_broadcast_plain. Qed.

Lemma broadcast_presence_plain : plain broadcast_presence.
Proof.
  apply plain_try_bind; auto.
  { apply plain_try_bind; auto; [|intros; apply remove_each_plain].
    eapply plain_section; auto. apply overloaded_mild. }
  intros _. apply plain_try_bind; auto.
  { eapply plain_section; auto. apply usernames_mild. }
  intros users. destruct (encode_presence users) as [frame|] eqn:E; [|by apply plain_ret].
  apply plain_try_bind; auto; [|intros; by apply plain_ret].
  apply plain_try_bind; auto.
  { eapply plain_section; auto. by eapply deliver_mild, encode_presence_frame. }
  intros l. apply plain_try_bind; auto; [apply remove_each_plain|intros; by apply plain_ret].
Qed.

Lemma announce_plain message frame : carries message frame → plain (announce message frame).
Proof.
  intros Hc. apply plain_try_bind; auto; [by apply carries_plain|].
  intros []; [apply broadcast_presence_plain|by apply plain_ret].
Qed.

(** A fallible value that is computed, not awaited. *)
Lemma plain_pure {A B} (r : result ServerError A) (f : A → tprog World ServerError Query B) :
  (∀ a, r = Ok a → plain (f a)) → plain (try_bind (pure r) f).
Proof. intros Hf. destruct r; [by apply Hf|by apply plain_ret]. Qed.

(** ** The programs of a session that rely on nothing *)

Lemma finish_session_plain a u t joined : plain (finish_session a u t joined).
Proof.
  apply plain_try_bind; auto; [eapply plain_section; auto; apply remove_mild|].
  intros [|]; [|by apply plain_ret]. destruct joined; [|by apply plain_ret].
  apply plain_pure. intros frame Hf. apply plain_try_bind; auto.
  - by apply carries_plain, leave_carries.
  - intros _. apply broadcast_presence_plain.
Qed.

Lemma handle_message_plain a u latency content : plain (handle_message a u latency content).
Proof.
  unfold handle_message. destruct (is_empty _); [by apply plain_ret|].
  apply plain_try_bind; auto; [eapply plain_section; auto; apply allow_mild|]. intros _.
  apply plain_bind; auto.
  { destruct (_ =? _)%Z; [by apply plain_ret|]. intros b. by apply plain_ret. }
  intros _ time. apply plain_pure. intros frame Hf. by apply announce_plain, message_carries.
Qed.

Lemma session_step_plain conn dis a u latency : plain (session_step conn dis a u latency).
Proof.
  intros [|]; [by apply plain_ret|]. eapply plain_step; auto; [apply on_stream_mild|].
  intros [[frame|]|e] _; try by apply plain_ret.
  destruct (check_chat frame) as [content|]; [|by apply plain_ret].
  apply plain_bind; auto; [apply handle_message_plain|]. intros []; by apply plain_ret.
Qed.

Lemma writer_failed_plain a t u flag : plain (writer_failed a t u flag).
Proof.
  eapply plain_step; auto; [apply remove_mild|]. intros [[|]|e] _; try by apply plain_ret.
  eapply plain_step; auto; [apply gets_mild|]. intros joined _. apply plain_bind; auto.
  - destruct joined as [[|]|]; try by apply plain_ret.
    destruct (encode_chat _) as [frame|] eqn:E; [|by apply plain_ret].
    apply plain_bind; auto; [|intros; by apply plain_ret]. by apply carries_plain, leave_carries.
  - intros _. apply plain_bind; auto; [apply broadcast_presence_plain|intros; by apply plain_ret].
Qed.

Lemma cleanup_plain : plain cleanup_rate_limits.
Proof.
  apply plain_try_bind; auto; [eapply plain_section; auto; apply gets_mild|]. intros now.
  eapply plain_section; auto. apply cleanup_mild.
Qed.

(** ** The replay *)

(** What a session knows of its client until it is ready: the queue is filled by nobody
    else. *)
Record filling (a : SocketAddr) (t : ClientToken) (ch : nat) (fs : list OutboundMessage) s
  : Prop := {
  fi_ch : ch < next_id s.1;
  fi_token : t < next_id s.1;
  fi_accepted : accepted s.2 ch = fs;
  fi_writer d : d ∈ reg s.1 → key d = (a, t) → writer d = ch;
  fi_unready d : d ∈ reg s.1 → writer d = ch → ready d = false }.

Lemma stable_filling h r a t ch fs : SendSide ch ∈ r → stable h r (filling a t ch fs).
Proof.
  intros Hr s s' _ _ _ (h' & r' & Hd & _ & _ & _ & Hg) [].
  assert (SendSide ch ∉ r') as Hn by set_solver. pose proof (gu_next _ _ _ _ Hg).
  split; try lia.
  - rewrite (gu_send _ _ _ _ Hg); auto.
  - intros d' Hd' Hk. destruct (gu_reg _ _ _ _ Hg d' Hd') as [(_ & Ht & _)|(d & ? & Ek & <- & _)].
    + injection Hk as _ Hk. lia.
    + apply fi_writer0; [done|congruence].
  - intros d' Hd' Hk. destruct (gu_reg _ _ _ _ Hg d' Hd') as [(Ht & _)|(d & ? & _ & Ew & Er & _)].
    + lia.
    + rewrite Er by congruence. apply fi_unready0; [done|congruence].
Qed.

(** During the replay: the history does not move, and nobody has missed anything. *)
Definition replaying a t ch h0 fs s : Prop :=
  filling a t ch fs s ∧ between s ∧ entries (history s.1) = h0.

Lemma stable_replaying r a t ch h0 fs : SendSide ch ∈ r → stable true r (replaying a t ch h0 fs).
Proof.
  intros Hr. apply stable_and; [by apply stable_filling|]. apply stable_and; [apply stable_J|].
  intros s s' _ _ _ (h' & r' & _ & Hh & _ & _ & Hg) <-.
  rewrite (Hh eq_refl) in Hg. by destruct (gu_log _ _ _ _ Hg) as (_ & _ & ->).
Qed.

(** Frames put into the queue of a client that is not ready yet. *)
Lemma sends_section a t ch fs ms w w' g :
  always (w, g) → filling a t ch fs (w, g) → Inv w' →
  next_id w' = next_id w → clients w' = clients w → history w' = history w →
  io w' = io w →
  (∀ d', d' ∈ reg w' → ∃ d, d ∈ reg w ∧ key d = key d' ∧ writer d = writer d' ∧
    (writer d ≠ ch → d' = d)) →
  queue_of w' ch = queue_of w ch ++ ms → (∀ j, ch ≠ j → queue_of w' j = queue_of w j) →
  in_order (log g) (fs ++ ms) →
  let g' := mk_Ghost (log g) (infl g) (<[ch := fs ++ ms]> (accepted g)) (inflight g) (used g) in
  always (w', g') ∧ guarantee true {[SendSide ch]} (w, g) (w', g').
Proof.
  intros Hs [] Hw' Hn Hcl Hh Hio Hreg Hq Hqj Hord g'. cbn in *.
  assert (∀ j, ∃ k, accepted g' j = accepted g j ++ k ∧ queue_of w' j = queue_of w j ++ k) as Hgrow.
  { intros j. destruct (decide (ch = j)) as [<-|Hj].
    - exists ms. unfold g'. cbn. by rewrite fn_insert_eq, fi_accepted0.
    - exists []. unfold g'. cbn. by rewrite fn_insert_ne, !app_nil_r, Hqj. }
  split.
  - destruct Hs. split; cbn in *; try done.
    + by rewrite Hh.
    + intros j. destruct (decide (ch = j)) as [<-|Hj];
        [by rewrite fn_insert_eq|by rewrite fn_insert_ne].
    + intros conn. by rewrite Hio.
    + intros r Hr. rewrite Hn. auto.
    + intros j conn. rewrite Hio. intros [? ? ? Hall]%al_flow. cbn in *.
      destruct (Hgrow j) as (k & Ea & Eq). split; cbn; [lia|lia|done|].
      unfold g' in Ea. cbn in Ea. by rewrite Ea, Eq, Hall, Hio, <-!(assoc_L (++)).
    + rewrite Hio. done.
    + rewrite Hio. intros d' (d & Hd & _ & <- & _)%Hreg. auto.
  - split; cbn; try done.
    + lia.
    + left. unfold room_of. cbn. by rewrite Hcl.
    + intros j _ _. rewrite Hio. split_and!; [done|done|apply Hgrow].
    + intros conn _ _. rewrite Hio. by split_and!.
    + intros j Hj _ _. apply fn_insert_ne. set_solver.
    + intros d' (d & Hd & Ek & Ew & Er)%Hreg. right. exists d. split_and!; try done.
      intros Hn'. rewrite Er; [done|]. set_solver.
Qed.

(** Clients that are not ready do not notice. *)
Lemma complete_unready_other a t ch fs s g' d :
  filling a t ch fs s → log g' = log s.2 → (∀ j, ch ≠ j → accepted g' j = accepted s.2 j) →
  d ∈ reg s.1 → complete s.2 d → complete g' d.
Proof.
  intros [] Hl Ha Hd. unfold complete. destruct (ready d) eqn:Er; [|by rewrite Hl].
  rewrite Hl, Ha; [done|]. intros Ech. by rewrite fi_unready0 in Er.
Qed.

(** The history as a window of the log. *)
Lemma expected_history s h0 :
  always s → infl s.2 = None → entries (history s.1) = h0 →
  ∀ c, expected (log s.2) (length (log s.2)) c = map frame_of h0 ++ live (drop c (log s.2)).
Proof.
  intros Hs Hi <- c. rewrite (al_history _ Hs), Hi. cbn [option_list]. rewrite app_nil_r.
  unfold expected. rewrite firstn_all. f_equal.
  unfold lastn. rewrite length_map, skipn_map, map_map. done.
Qed.

Lemma replay_in_order s h0 c fs k :
  always s → infl s.2 = None → entries (history s.1) = h0 → c ≤ length (log s.2) →
  chat fs ++ k = map frame_of h0 ++ live (drop c (log s.2)) → in_order (log s.2) fs.
Proof.
  intros Hs Hi Hh Hc E. exists (length (log s.2)), c. split; [lia|].
  rewrite (expected_history s h0) by done. rewrite <-E. by apply prefix_app_r.
Qed.

Lemma map_frames_chat h : chat (map frame_of h) = map frame_of h.
Proof. apply chat_live. Qed.

(** One message of the history. *)
Lemma replay_message_tri a t ch h0 before m after :
  h0 = before ++ m :: after →
  tri (replay_message ch m) true {[SendSide ch]} (replaying a t ch h0 (map frame_of before))
    true (λ r, match r with Ok _ => {[SendSide ch]} | Err _ => ∅ end)
    (λ r s, match r with
     | Ok _ => replaying a t ch h0 (map frame_of (before ++ [m])) s
     | Err _ => between s end).
Proof.
  intros Hh0. unfold replay_message. destruct (encode_chat m) as [frame|e] eqn:Ef; cbn [pure try_bind pbind].
  2: { split_and!; [done|set_solver|]. by intros s _ _ (_ & ? & _). }
  pose proof (encode_chat_Ok _ _ Ef) as Hfits.
  rewrite encode_chat_frame_of in Ef by done. injection Ef as <-.
  intros [w g] Hs Hu (Hfi & HJ & Hh). pose proof (al_inv _ Hs) as Hw. cbn in Hw, Hh.
  set (r := fst (try_send (channels w ch) (frame_of m))).
  set (ms := match r with Sent => [frame_of m] | _ => [] end).
  set (w' := set_channels (<[ch := sent (channels w ch) (frame_of m)]> (channels w)) w).
  set (g' := mk_Ghost (log g) (infl g) (<[ch := map frame_of before ++ ms]> (accepted g)) (inflight g) (used g)).
  assert (in_order (log g) (map frame_of before ++ ms)) as Hord.
  { pose proof HJ as [Hi _]. apply (replay_in_order (w, g) h0 (length (log g))
      (map frame_of before ++ ms) (drop (length ms) (map frame_of (m :: after)))); try done.
    cbn [fst snd]. unfold live. rewrite drop_all, app_nil_r, chat_app, map_frames_chat, Hh0, map_app.
    rewrite <-(assoc_L (++)). f_equal. subst ms. destruct r; [|done..]. by rewrite chat_one. }
  destruct (sends_section a t ch (map frame_of before) ms w w' g) as [Hs' Hg]; try done.
  { by apply Inv_channels. }
  { intros d Hd. by exists d. }
  { unfold queue_of, w'. cbn [channels set_channels]. rewrite fn_insert_eq. apply sent_queue. }
  { intros j Hj. unfold queue_of, w'. cbn [channels set_channels]. by rewrite fn_insert_ne. }
  fold g' in Hs', Hg.
  assert (replaying a t ch h0 (map frame_of before ++ ms) (w', g')) as HP.
  { split_and!; [|split; [apply HJ|]|done].
    - destruct Hfi. split; try done. apply fn_insert_eq.
    - intros d Hd. apply (complete_unready_other a t ch (map frame_of before) (w, g)); try done.
      + intros j Hj. by apply fn_insert_ne.
      + by apply HJ. }
  exists (Ok r), w', g', {[SendSide ch]}, (replaying a t ch h0 (map frame_of before ++ ms)).
  split_and!; [by rewrite send_on_eq| |apply stable_replaying; set_solver|done|].
  { split_and!; [done|done|done|done|set_solver]. }
  cbn [pbind]. unfold send_error, pure. subst ms. destruct r; cbn; split_and!; try done.
  - rewrite map_app. by intros.
  - intros s _ _ (_ & ? & _). done.
  - intros s _ _ (_ & ? & _). done.
Qed.

Lemma replay_messages_tri a t ch h0 before after :
  h0 = before ++ after →
  tri (for_each after (replay_message ch)) true {[SendSide ch]}
    (replaying a t ch h0 (map frame_of before))
    true (λ r, match r with Ok _ => {[SendSide ch]} | Err _ => ∅ end)
    (λ r s, match r with Ok _ => replaying a t ch h0 (map frame_of h0) s | Err _ => between s end).
Proof.
  revert before. induction after as [|m after IH]; intros before Hh0; cbn [for_each].
  - rewrite app_nil_r in Hh0. subst. split_and!; done.
  - eapply tri_try_bind; auto; [by eapply replay_message_tri|]. intros [].
    apply IH. by rewrite <-(assoc_L (++)).
Qed.

(** ** Becoming ready *)

Lemma sent_all_queue c ms :
  (∀ p m k, ms = p ++ m :: k → fst (try_send (foldl sent c p) m) = Sent) →
  queue (view (foldl sent c ms)) = queue (view c) ++ ms.
Proof.
  revert c. induction ms as [|m ms IH]; intros c Hsent; cbn [foldl]; [by rewrite app_nil_r|].
  rewrite IH.
  - rewrite sent_queue. pose proof (Hsent [] m ms eq_refl) as E. cbn in E. rewrite E.
    by rewrite <-(assoc_L (++)).
  - intros p m' k ->. apply (Hsent (m :: p) m' k). done.
Qed.

Lemma elem_of_alter_token t f l d d' :
  NoDup (cd_token <$> l) → List.find (token_is t) l = Some d →
  d' ∈ alter_first (token_is t) f l → d' = f d ∨ (d' ∈ l ∧ cd_token d' ≠ t).
Proof.
  unfold token_is, matches. induction l as [|x l IH]; [done|]. rewrite fmap_cons.
  intros [Hx Hnd]%NoDup_cons. cbn. case_bool_decide as Ht.
  - intros [= ->] [->|Hd']%elem_of_cons; [by left|right]. split; [by right|].
    intros Ht'. apply Hx. rewrite Ht, <-Ht'. by apply list_elem_of_fmap_2.
  - intros Hf [->|Hd']%elem_of_cons; [right; split; [by left|done]|].
    destruct (IH Hnd Hf Hd') as [?|[? ?]]; [by left|right]. split; [by right|done].
Qed.

Lemma reg_alter w a t f d d' :
  Inv w → find_delivery (deliveries w) a t = Some d →
  d' ∈ all_values (alter (alter_first (token_is t) f) a (deliveries w)) →
  d' = f d ∨ (d' ∈ reg w ∧ key d' ≠ (a, t)).
Proof.
  intros Hw Hfind (b & l & Hl & Hd')%elem_of_all_values.
  apply find_delivery_Some in Hfind as (k & Hk & Hf & _).
  assert (∀ l, deliveries w !! b = Some l → d' ∈ l → d' ∈ reg w ∧ addr d' = b) as Hin.
  { intros l' Hl' Hd. split; [apply elem_of_all_values; eauto|].
    pose proof (ok_each _ _ _ (inv_deliveries w Hw) b) as Hall. rewrite Forall_forall in Hall.
    unfold deliveries_at in Hall. rewrite Hl' in Hall. by destruct (Hall d' Hd). }
  destruct (decide (a = b)) as [<-|Hb].
  - rewrite lookup_alter_eq, Hk in Hl. injection Hl as <-.
    destruct (elem_of_alter_token t f k d d') as [->|[Hd Ht]]; [|done|done|by left|right].
    + pose proof (wf_tokens _ (inv_registry w Hw) a) as Hnd.
      rewrite <-(ok_mirror _ _ _ (inv_deliveries w Hw)) in Hnd. unfold deliveries_at in Hnd.
      by rewrite Hk in Hnd.
    + split; [by eapply Hin|]. by intros [= _ ?].
  - rewrite lookup_alter_ne in Hl by done. right. destruct (Hin l Hl Hd') as [? Ha].
    split; [done|]. intros [= ? _]. congruence.
Qed.

Lemma find_delivery_key w a t d :
  Inv w → find_delivery (deliveries w) a t = Some d → d ∈ reg w ∧ key d = (a, t).
Proof.
  intros Hw (l & Hl & _ & Hd & Ht)%find_delivery_Some.
  split; [apply elem_of_all_values; eauto|]. unfold key. f_equal; [|done].
  pose proof (ok_each _ _ _ (inv_deliveries w Hw) a) as Hall. rewrite Forall_forall in Hall.
  unfold deliveries_at in Hall. rewrite Hl in Hall. by destruct (Hall d Hd).
Qed.

(** What [mark_client_ready] leaves in the queue, and the client it leaves behind. *)
Lemma mark_client_ready_effect a t d w :
  Inv w → find_delivery (deliveries w) a t = Some d →
  ∃ r w' ms rest d', mark_client_ready a t w = (Done r, w') ∧ Inv w' ∧
    next_id w' = next_id w ∧ clients w' = clients w ∧ history w' = history w ∧ io w' = io w ∧
    pending_messages d = ms ++ rest ∧
    queue_of w' (writer d) = queue_of w (writer d) ++ ms ∧
    (∀ j, writer d ≠ j → queue_of w' j = queue_of w j) ∧
    key d' = key d ∧ writer d' = writer d ∧
    (ready d = false → if ready d' then rest = [] else pending_messages d' = rest) ∧
    (∀ x, x ∈ reg w' → x = d' ∨ (x ∈ reg w ∧ key x ≠ (a, t))).
Proof.
  intros Hw Hfind. pose proof (mark_client_ready_spec a t w Hw) as Hs. rewrite Hfind in Hs.
  destruct Hs as (ch & ms & rest & res & f & Hms & Ei & Ej & Hsent & E & Hf).
  destruct (mark_client_ready_inv a t w Hw) as (r' & w' & E' & Hw').
  rewrite E in E'. injection E' as <- <-.
  eexists res, _, ms, rest, (f d). split_and!; [exact E|done|done|done|done|done|done|..].
  - unfold queue_of. cbn [channels set_channels set_deliveries]. rewrite Ei, foldl_app.
    pose proof (sent_all_queue (channels w (writer d)) ms Hsent) as Eq.
    destruct rest as [|m rest]; [done|]. change (take 1 (m :: rest)) with [m]; cbn [foldl].
    destruct Hf as (_ & Hns & _). rewrite sent_queue, Eq. destruct (fst _); [done|..];
      by rewrite app_nil_r.
  - intros j Hj. unfold queue_of. cbn [channels set_channels set_deliveries]. by rewrite Ej.
  - destruct rest; destruct Hf as [? ?]; by simplify_eq.
  - destruct rest; destruct Hf as [? ?]; by simplify_eq.
  - intros Er. destruct rest; destruct Hf as [? ?]; simplify_eq; cbn; [done|by rewrite Er].
  - intros x Hx. by eapply reg_alter.
Qed.

Lemma mark_ready_section a t ch h0 w g :
  always (w, g) → replaying a t ch h0 (map frame_of h0) (w, g) →
  ∃ r w' g', mark_client_ready a t w = (Done r, w') ∧ always (w', g') ∧
    guarantee true {[SendSide ch]} (w, g) (w', g') ∧ used g' = used g ∧ between (w', g').
Proof.
  intros Hs (Hfi & HJ & Hh). pose proof (al_inv _ Hs) as Hw. cbn in Hw, Hh.
  destruct (find_delivery (deliveries w) a t) as [d|] eqn:Hfind.
  2: { pose proof (mark_client_ready_spec a t w Hw) as E. rewrite Hfind in E.
       exists (Err UnknownClient), w, g. split_and!; try done. apply guarantee_refl. }
  destruct (find_delivery_key w a t d Hw Hfind) as [Hd Hk].
  pose proof (fi_writer _ _ _ _ _ Hfi d Hd Hk) as Hch.
  pose proof (fi_unready _ _ _ _ _ Hfi d Hd Hch) as Er.
  pose proof HJ as [Hi Hc]. pose proof (Hc d Hd) as Hcd. unfold complete in Hcd.
  rewrite Er in Hcd. destruct Hcd as (c & Hcl & Hp). cbn in Hcl, Hp, Hi, Hc.
  destruct (mark_client_ready_effect a t d w Hw Hfind) as (r & w' & ms & rest & d' & E & Hw' &
    Hn & Hcli & Hhist & Hio & Hms & Hq & Hqj & Hk' & Hwr & Hd' & Hreg).
  rewrite Hch in *. specialize (Hd' Er). rewrite Hms, chat_app in Hp.
  pose proof (expected_history (w, g) h0 Hs Hi Hh c) as Eexp. cbn [snd] in Eexp.
  assert (in_order (log g) (map frame_of h0 ++ ms)) as Hord.
  { apply (replay_in_order (w, g) h0 c _ (chat rest)); try done.
    cbn [snd]. by rewrite chat_app, map_frames_chat, <-(assoc_L (++)), Hp. }
  destruct (sends_section a t ch (map frame_of h0) ms w w' g) as [Hs' Hg]; try done.
  { intros x [->|[Hx Hne]]%Hreg; [exists d|exists x; done].
    split_and!; [done|done|congruence|]. by rewrite Hch. }
  eexists r, w', _. split_and!; [exact E|exact Hs'|exact Hg|done|]. split; [done|].
  intros x [->|[Hx Hne]]%Hreg.
  - unfold complete. cbn [log accepted snd]. rewrite Hwr, fn_insert_eq. destruct (ready d').
    + exists (length (log g)), c. split; [lia|]. rewrite Eexp, chat_app, map_frames_chat.
      f_equal. rewrite <-Hp, Hd'. by rewrite app_nil_r.
    + destruct (live_suffix (log g) c (chat ms) (chat rest) (eq_sym Hp)) as (c' & ? & Ec).
      exists c'. split; [lia|]. by rewrite Hd'.
  - apply (complete_unready_other a t ch (map frame_of h0) (w, g)); try done; [|by apply Hc].
    intros j Hj. by apply fn_insert_ne.
Qed.

Lemma replay_tri a t ch h0 :
  tri (replay a t ch h0) true {[SendSide ch]} (replaying a t ch h0 []) true nothing (λ _, between).
Proof.
  eapply tri_bind with (h1 := true) (rf1 := nothing) (Mid := λ _, between); auto.
  - eapply tri_try_bind with (rf1 := λ _, {[SendSide ch]})
      (Mid := λ _, replaying a t ch h0 (map frame_of h0)); auto.
    + by apply (replay_messages_tri a t ch h0 []).
    + intros _ [w g] Hs Hu HP. destruct (mark_ready_section a t ch h0 w g Hs HP)
        as (r & w' & g' & E & Hs' & Hg & Hu' & HJ).
      exists r, w', g', {[SendSide ch]}, between. split_and!; [done| |apply stable_J|done|].
      * split_and!; [done|done|done|cbn; by rewrite Hu'|set_solver].
      * split_and!; [done|set_solver|done].
  - intros r. eapply tri_mild; auto; [apply stable_J|apply drop_writer_mild|].
    intros _ _. by split_and!.
Qed.

(** The session's replay, from what it knows since it registered. *)
Lemma send_message_history_tri a t ch :
  tri (send_message_history a t) false {[SendSide ch]} (filling a t ch []) false nothing (λ _ _, True).
Proof.
  apply tri_with_barrier; auto; [apply stable_filling; set_solver| |done].
  unfold history_snapshot_unlocked, try_bind, section. cbn [pbind].
  apply tri_mild_at; auto.
  { apply stable_and; [apply stable_filling; set_solver|apply stable_J]. }
  intros [w g] Hs [Hfi HJ]. pose proof (al_inv _ Hs) as Hw. cbn in Hw.
  cbn [fst]. rewrite writer_section_eq by done.
  destruct (find_delivery (deliveries w) a t) as [d|] eqn:Hfind.
  2: { exists (Err UnknownClient), w, g. split_and!; try done; [apply guarantee_refl|].
       split_and!; [done|set_solver|naive_solver]. }
  destruct (find_delivery_key w a t d Hw Hfind) as [Hd Hk].
  pose proof (fi_writer _ _ _ _ _ Hfi d Hd Hk) as Hch. rewrite Hch.
  set (w' := set_channels (<[ch := clone_sender (channels w ch)]> (channels w)) w).
  assert (quiet w w') as Hq.
  { apply quiet_channels. intros j. apply queue_insert. by rewrite view_clone. }
  assert (Inv w') as Hw' by (by apply Inv_channels).
  exists (Ok ch), w', g. split_and!; try done.
  - by eapply always_quiet.
  - by apply guarantee_quiet.
  - clear. cbn [pbind]. intros [w g] Hs Hu [Hfi HJ]. pose proof (al_inv _ Hs) as Hw. cbn in Hw.
    exists (Ok (entries (history w))), w, g, {[SendSide ch]}, (replaying a t ch (entries (history w)) []).
    split_and!; try done.
    + by apply on_error_Ok, snapshot_eq.
    + split_and!; [done|apply guarantee_refl|done|done|set_solver].
    + apply stable_replaying. set_solver.
    + eapply tri_post; auto; [|apply replay_tri]. naive_solver.
Qed.

(** ** The writer task *)

(** What the writer task knows: the message it has in hand, and that all it has written has
    gone out whole. *)
Record writing (conn ch : nat) (now : list OutboundMessage) s : Prop := {
  wr_conn : conn < next_id s.1;
  wr_ch : ch < next_id s.1;
  wr_outlet : outlet (io s.1) ch = Some conn;
  wr_now : inflight s.2 ch = now;
  wr_wire : wire (io s.1) conn = concat (written (io s.1) conn) }.

Definition writer_side (conn ch : nat) : gset Res := {[RecvSide ch; Socket conn]}.

Lemma stable_writing h conn ch now : stable h (writer_side conn ch) (writing conn ch now).
Proof.
  intros s s' _ _ _ (h' & r' & Hd & _ & _ & _ & Hg) [].
  assert (RecvSide ch ∉ r' ∧ Socket conn ∉ r') as [Hn1 Hn2].
  { unfold writer_side in Hd. split; intros Hin; eapply Hd; [|exact Hin| |exact Hin]; set_solver. }
  pose proof (gu_next _ _ _ _ Hg). destruct (gu_recv _ _ _ _ Hg ch) as (Ef & Eo & _); [done..|].
  destruct (gu_socket _ _ _ _ Hg conn) as (Ew & Eb & _); [done..|].
  split; [lia|lia|congruence..].
Qed.

Lemma recv_queue c :
  match fst (poll_recv c) with
  | Received m => queue (view c) = m :: queue (view (snd (poll_recv c)))
  | _ => queue (view (snd (poll_recv c))) = queue (view c)
  end.
Proof.
  destruct (view_poll_recv c) as [E1 E2]. rewrite E1, E2. unfold view_recv.
  destruct (queue (view c)) as [|m q] eqn:Eq; [|done]. destruct (decide _); cbn; congruence.
Qed.

Lemma recv_on_eq ch w :
  recv_on ch w = (Done (Ok (fst (poll_recv (channels w ch)))),
    set_channels (<[ch := snd (poll_recv (channels w ch))]> (channels w)) w).
Proof. unfold recv_on, mbind, M_bind, gets. by destruct (poll_recv _). Qed.

(** The writer task has another message in hand. *)
Definition in_hand (ch : nat) (now : list OutboundMessage) g : Ghost :=
  mk_Ghost (log g) (infl g) (accepted g) (<[ch := now]> (inflight g)) (used g).

(** What the writer task does, to its queue and to its socket: what it has written, what it has
    in hand and what is left in the queue are still all the queue has accepted. *)
Lemma writer_section conn ch now now' w w' g :
  always (w, g) → writing conn ch now (w, g) → Inv w' →
  next_id w' = next_id w → history w' = history w → outlet (io w') = outlet (io w) →
  deliveries w' = deliveries w → clients w' = clients w →
  (∀ j, ch ≠ j → queue_of w' j = queue_of w j) →
  (∀ j, conn ≠ j → written (io w') j = written (io w) j ∧ wire (io w') j = wire (io w) j) →
  written (io w) conn ++ now ++ queue_of w ch =
    written (io w') conn ++ now' ++ queue_of w' ch →
  length now' ≤ 1 → on_socket (log g) (written (io w') conn) (wire (io w') conn) →
  always (w', in_hand ch now' g) ∧
  guarantee false (writer_side conn ch) (w, g) (w', in_hand ch now' g) ∧
  (between (w, g) → between (w', in_hand ch now' g)).
Proof.
  intros Hs HP Hw' Hn Hh Ho Hds Hcl Hqj Hsj Hall Hlen Hsock. cbn in *.
  assert (reg w' = reg w) as Hreg by (unfold reg; by rewrite Hds).
  destruct HP as [_ _ Hch Hnow _]. cbn in Hch, Hnow.
  assert (guarantee false (writer_side conn ch) (w, g) (w', in_hand ch now' g)) as Hg.
  { unfold writer_side. split; cbn; try done.
    - lia.
    - left. unfold room_of. cbn. by rewrite Hcl.
    - intros j Hj _. assert (ch ≠ j) as Hne by (intros ->; set_solver).
      rewrite fn_insert_ne, Ho by done. split_and!; [done|done|]. exists []. by rewrite !app_nil_r, Hqj.
    - intros j Hj _. rewrite Ho. destruct (Hsj j) as [-> ->]; [intros ->; set_solver|]. done.
    - intros d Hd. rewrite Hreg in Hd. right. by exists d. }
  split_and!; [|done|by apply (guarantee_between _ _ _ Hg)].
  pose proof Hs as [_ Hhi Ha Hwr Hu Hfl Hout Hr]. split; cbn in *; try done.
  - by rewrite Hh.
  - intros j. destruct (decide (conn = j)) as [<-|Hne]; [done|].
    destruct (Hsj j Hne) as [-> ->]. apply Hwr.
  - intros x Hx. rewrite Hn. by apply Hu.
  - intros j conn'. rewrite Ho. intros Hj. pose proof (Hfl j conn' Hj) as [? ? ? Hacc]. cbn in *.
    destruct (decide (ch = j)) as [<-|Hne].
    + assert (conn' = conn) as -> by congruence.
      split; cbn; rewrite ?fn_insert_eq; [lia|lia|done|]. by rewrite Hacc, Hnow.
    + assert (conn ≠ conn') as Hne' by (intros <-; by apply Hne, (Hout ch j conn)).
      split; cbn; rewrite ?fn_insert_ne by done; [lia|lia|done|].
      rewrite Hqj by done. by destruct (Hsj conn' Hne') as [-> _].
  - by rewrite Ho.
  - intros d Hd. rewrite Ho. apply Hr. by rewrite <-Hreg.
Qed.

(** The frames of a queue up to the one in hand are in order. *)
Lemma in_order_now conn ch now w g :
  always (w, g) → writing conn ch now (w, g) →
  in_order (log g) (written (io w) conn ++ now).
Proof.
  intros Hs [_ _ Ho Hn _]. cbn in *. destruct (al_flow _ Hs ch conn Ho) as [_ _ _ Hall].
  cbn in Hall. eapply in_order_prefix; [|apply (al_accepted _ Hs ch)]. cbn. rewrite Hall, Hn.
  exists (queue_of w ch). by rewrite <-(assoc_L (++)).
Qed.

Lemma on_socket_whole l fs : in_order l fs → on_socket l fs (concat fs).
Proof. intros. exists []. rewrite !app_nil_r. split_and!; [cbn; lia|done..]. Qed.

Lemma log_written_section conn ch m w g :
  always (w, g) → writing conn ch [m] (w, g) →
  let g' := in_hand ch [] g in
  ∃ w', log_written conn m w = (Done (Ok tt), w') ∧ always (w', g') ∧
    guarantee false (writer_side conn ch) (w, g) (w', g') ∧
    (between (w, g) → between (w', g')) ∧ writing conn ch [] (w', g').
Proof.
  intros Hs HP g'. pose proof (in_order_now _ _ _ _ _ Hs HP) as Hord.
  pose proof HP as [? ? Ho _ Hb]. cbn in *.
  eexists. split; [reflexivity|]. rewrite !(assoc (∧)). split.
  - rewrite <-(assoc (∧)). apply (writer_section conn ch [m] []); cbn; try done.
    + apply Inv_set_io; [apply Hs|apply (al_inv _ Hs)].
    + intros j Hj. by rewrite !fn_insert_ne.
    + by rewrite fn_insert_eq, <-(assoc_L (++)).
    + lia.
    + rewrite !fn_insert_eq, Hb. replace (concat _ ++ m) with (concat (written (io w) conn ++ [m])).
      * by apply on_socket_whole.
      * by rewrite concat_app; cbn; rewrite app_nil_r.
  - split; cbn; rewrite ?fn_insert_eq; try done. by rewrite Hb, concat_app; cbn; rewrite app_nil_r.
Qed.

(** A write that fails leaves its message in hand, and a part of it on the socket. *)
Lemma log_torn_section conn ch m n w g :
  always (w, g) → writing conn ch [m] (w, g) →
  let g' := in_hand ch [m] g in
  ∃ w', log_torn conn (take n m) w = (Done (Ok tt), w') ∧ always (w', g') ∧
    guarantee false (writer_side conn ch) (w, g) (w', g') ∧ (between (w, g) → between (w', g')).
Proof.
  intros Hs HP g'. pose proof (in_order_now _ _ _ _ _ Hs HP) as Hord.
  pose proof HP as [? ? Ho _ Hb]. cbn in *.
  eexists. split; [reflexivity|]. apply (writer_section conn ch [m] [m]); cbn; try done.
  - apply Inv_set_io; [apply Hs|apply (al_inv _ Hs)].
  - intros j Hj. by rewrite fn_insert_ne.
  - rewrite fn_insert_eq, Hb. exists [m]. split_and!; [done|done|by apply prefix_app_r|].
    rewrite concat_app. cbn. rewrite app_nil_r. apply prefix_app, prefix_take.
Qed.

Lemma outbound_writer_tri conn queue flag a t u :
  tri (outbound_writer conn queue flag a t u) false (writer_side conn queue) (writing conn queue [])
    false nothing (λ _ _, True).
Proof.
  exists (writer_side conn queue), nothing, (writing conn queue []), (λ _ _, True).
  split_and!; [done|apply stable_writing|done| |].
  2: { intros _. eapply tri_mild; auto; [done|apply close_on_mild|]. intros. by apply plain_ret. }
  intros [w g] Hs Hu HP. pose proof (al_inv _ Hs) as Hw. cbn in Hw.
  set (r := fst (poll_recv (channels w queue))).
  set (w' := set_channels (<[queue := snd (poll_recv (channels w queue))]> (channels w)) w).
  set (now := match r with Received m => [m] | _ => [] end).
  assert (queue_of w queue = now ++ queue_of w' queue) as Eq.
  { unfold queue_of, w', now, r. cbn [channels set_channels]. rewrite fn_insert_eq.
    pose proof (recv_queue (channels w queue)) as E. by destruct (fst _). }
  destruct (writer_section conn queue [] now w w' g Hs HP) as (Hs' & Hg & HJ); try done.
  { by apply Inv_channels. }
  { intros j Hj. unfold queue_of, w'. cbn [channels set_channels]. by rewrite fn_insert_ne. }
  { cbn [app]. by rewrite Eq. }
  { unfold now. destruct r; cbn; lia. }
  { apply (al_written _ Hs). }
  exists (Ok r), w', (in_hand queue now g), (writer_side conn queue), (writing conn queue now).
  split_and!; [apply recv_on_eq| |apply stable_writing| |].
  - by split_and!; [done|done|done|done|set_solver].
  - destruct HP. split; try done. apply fn_insert_eq.
  - unfold now. destruct r as [m| |]; [|by split_and!..].
    intros [[]|[n k]]; clear; intros [w g] Hs Hu HP.
    + destruct (log_written_section conn queue m w g Hs HP) as (w' & E & Hs' & Hg & HJ & HP').
      exists (Ok tt), w', (in_hand queue [] g), (writer_side conn queue), (writing conn queue []).
      split_and!; [exact E| |apply stable_writing|done|by split_and!].
      split_and!; [done|done|auto|done|set_solver].
    + destruct (log_torn_section conn queue m n w g Hs HP) as (w' & E & Hs' & Hg & HJ).
      exists (Ok tt), w', (in_hand queue [m] g), ∅, (λ _, True).
      split_and!; [exact E| |done|done|].
      * split_and!; [done|done|auto|done|set_solver].
      * eapply tri_bind; auto; [apply writer_failed_plain|]. intros ?. split_and!; done.
Qed.

(** ** Opening a session *)

(** A connection nothing has been sent on, and no queue is drained to. *)
Definition silent (conn : nat) s : Prop :=
  conn < next_id s.1 ∧ written (io s.1) conn = [] ∧ wire (io s.1) conn = [] ∧
  ∀ ch, outlet (io s.1) ch ≠ Some conn.

Lemma stable_silent h conn : stable h {[Socket conn]} (silent conn).
Proof.
  intros s s' _ _ _ (h' & r' & Hd & _ & _ & _ & Hg) (Hn & Hw & Hb & Ho).
  pose proof (gu_next _ _ _ _ Hg).
  destruct (gu_socket _ _ _ _ Hg conn) as (Ew & Eb & Eo); [set_solver|done|].
  split_and!; [lia|congruence..|]. intros ch Hch%Eo. by apply (Ho ch).
Qed.

(** A new channel, and what else its session needs, before it is published. *)
Lemma with_channels_queue conn w j :
  j < next_id w → queue_of (with_channels conn w) j = queue_of w j.
Proof.
  intros Hj. unfold queue_of, with_channels. cbn.
  by rewrite fn_insert_ne by lia.
Qed.

(** The world after a registration. *)
Definition opened (conn : nat) (a : SocketAddr) w : World :=
  let n := next_id w in
  set_deliveries (<[a := default [] (deliveries w !! a) ++
      [mk_ClientDelivery a (S (S n)) n (Some (S n)) false []]]> (deliveries w))
    (set_clients (registry_push (clients w) a (S (S n)))
      (set_next_id (S (S (S n))) (with_channels conn w))).

(** The world after a registration that is refused: the queue was made, and dropped. *)
Definition refused (conn : nat) w : World :=
  snd (drop_writer (next_id w) (with_channels conn w)).

Lemma open_session_cases conn a w :
  Inv w →
  (open_session conn a w = (Done (Err ConnectionLimitReached), refused conn w) ∧
   Inv (refused conn w)) ∨
  (open_session conn a w =
     (Done (Ok (S (S (next_id w)), next_id w, S (next_id w))), opened conn a w) ∧
   Inv (opened conn a w) ∧ limit_reached (clients w) a = false).
Proof.
  intros Hw. pose proof (with_channels_inv conn w Hw) as Hwc.
  destruct (open_session_ok conn a w Hw) as (r & w' & E & Hw').
  pose proof E as E'. rewrite open_session_eq in E'. unfold register_pending_client in E'.
  rewrite register_spec in E'; [|done|cbn; lia|].
  2: { apply (fresh_writer (next_id w) (clients w)); [apply Hw|cbn; lia]. }
  change (clients (with_channels conn w)) with (clients w) in E'.
  destruct (limit_reached (clients w) a).
  - left. injection E' as <- <-. done.
  - right. injection E' as <- <-. done.
Qed.

Lemma opened_reg conn a w d' :
  d' ∈ reg (opened conn a w) →
  d' = mk_ClientDelivery a (S (S (next_id w))) (next_id w) (Some (S (next_id w))) false [] ∨
  d' ∈ reg w.
Proof.
  unfold reg. cbn [opened deliveries set_deliveries].
  rewrite all_values_insert, <-(assoc_L (++)), !elem_of_app, list_elem_of_singleton.
  rewrite (all_values_split (deliveries w) a), elem_of_app. tauto.
Qed.

Lemma opened_queue conn a w :
  queue_of (opened conn a w) (next_id w) = [] ∧
  ∀ j, j < next_id w → queue_of (opened conn a w) j = queue_of w j.
Proof.
  split; [|apply with_channels_queue]. unfold queue_of. cbn.
  by rewrite fn_insert_eq, view_new.
Qed.

Lemma refused_queue conn w :
  queue_of (refused conn w) (next_id w) = [] ∧
  ∀ j, j < next_id w → queue_of (refused conn w) j = queue_of w j.
Proof.
  pose proof (q_queue _ _ (quiet_drop_writer (next_id w) (with_channels conn w))) as Hq.
  fold (refused conn w) in Hq. split.
  - rewrite Hq by (cbn; lia). unfold queue_of. cbn. by rewrite fn_insert_eq, view_new.
  - intros j Hj. rewrite Hq by (cbn; lia). by apply with_channels_queue.
Qed.

(** A session's queue is made: empty, and drained to its connection. *)
Definition made (conn : nat) w w' : Prop :=
  let n := next_id w in
  n < next_id w' ∧ Inv w' ∧ history w' = history w ∧
  io w' = io (with_channels conn w) ∧
  queue_of w' n = [] ∧ ∀ j, j < n → queue_of w' j = queue_of w j.

Lemma made_opened conn a w : Inv (opened conn a w) → made conn w (opened conn a w).
Proof. intros Hw. destruct (opened_queue conn a w). split_and!; try done. cbn. lia. Qed.

Lemma made_refused conn w : Inv (refused conn w) → made conn w (refused conn w).
Proof.
  intros Hw. destruct (refused_queue conn w). split_and!; try done. change (next_id w < S (S (next_id w))). lia.
Qed.

(** The ghost state then: nothing accepted, nothing in hand. *)
Definition with_queue n (r : gset Res) g : Ghost :=
  mk_Ghost (log g) (infl g) (<[n := []]> (accepted g)) (<[n := []]> (inflight g)) (used g ∪ r).

Lemma accepted_with_queue n r g j : j < n → accepted (with_queue n r g) j = accepted g j.
Proof. intros. apply fn_insert_ne. lia. Qed.

Lemma made_always conn w w' g r :
  always (w, g) → silent conn (w, g) → made conn w w' →
  (∀ x, x ∈ r → res_id x < next_id w') →
  (∀ d, d ∈ reg w' → writer d = next_id w ∨ d ∈ reg w) →
  always (w', with_queue (next_id w) r g).
Proof.
  intros Hs (Hconn & Hwritten & Hwire & Hno) (Hn & Hw' & Hh & Hio & Hq & Hqj) Hr Hreg. cbn in *.
  pose proof Hs as [_ Hhi Ha Hwr Hu Hfl Hout Hregs]. cbn in *.
  assert (∀ j c, outlet (io w') j = Some c →
    (j = next_id w ∧ c = conn) ∨ (j < next_id w ∧ c ≠ conn ∧ outlet (io w) j = Some c)) as Ho.
  { intros j c. rewrite Hio. cbn. destruct (decide (next_id w = j)) as [<-|Hne].
    - rewrite fn_insert_eq. intros [= ->]. by left.
    - rewrite fn_insert_ne by done. intros Hj. right. destruct (Hfl j c Hj) as [_ ? _ _].
      split_and!; [done|intros ->; by apply (Hno j)|done]. }
  split; cbn; try done.
  - by rewrite Hh.
  - intros j. destruct (decide (next_id w = j)) as [<-|Hne];
      [rewrite fn_insert_eq; apply in_order_nil|by rewrite fn_insert_ne].
  - intros j. rewrite Hio. apply Hwr.
  - intros x [Hx|Hx]%elem_of_union; [specialize (Hu x Hx); lia|auto].
  - intros j c [(-> & ->)|(Hj & Hc & Hjc)]%Ho.
    + split; cbn; rewrite ?fn_insert_eq; [lia|lia|cbn; lia|].
      rewrite Hq, Hio. cbn. by rewrite Hwritten.
    + destruct (Hfl j c Hjc) as [? ? ? Hall]. cbn in *.
      split; cbn; rewrite ?fn_insert_ne by lia; [lia|lia|done|].
      rewrite Hqj, Hio by done. done.
  - intros j j' c [(-> & ->)|(Hj & Hc & Hjc)]%Ho [(-> & Hc')|(Hj' & Hc' & Hjc')]%Ho; try done.
    by apply (Hout j j' c).
  - intros d [->|Hd]%Hreg; rewrite Hio; cbn; [by rewrite fn_insert_eq|].
    destruct (Hregs d Hd) as [c Hc]. destruct (Hfl _ c Hc) as [_ ? _ _].
    cbn in *. rewrite fn_insert_ne by lia. by exists c.
Qed.

Lemma made_guarantee conn w w' g rs :
  always (w, g) → made conn w w' →
  (∀ said, room_moves (mk_Room (members_of (clients w)) said)
    (mk_Room (members_of (clients w')) said)) →
  (∀ d, d ∈ reg w' →
    (next_id w ≤ writer d ∧ next_id w ≤ cd_token d ∧ complete (with_queue (next_id w) rs g) d) ∨
    d ∈ reg w) →
  guarantee false {[Socket conn]} (w, g) (w', with_queue (next_id w) rs g).
Proof.
  intros Hs (Hn & Hw' & Hh & Hio & Hq & Hqj) Hroom Hreg. pose proof (al_inv _ Hs) as Hw. cbn in *.
  split; cbn [fst snd]; try done.
  - lia.
  - apply Hroom.
  - intros j _ Hj. cbn. rewrite fn_insert_ne, Hio by lia. cbn. rewrite fn_insert_ne by lia.
    split_and!; [done|done|]. exists []. rewrite !app_nil_r, fn_insert_ne by lia. auto.
  - intros j Hj _. rewrite Hio. cbn. split_and!; [done|done|]. intros ch.
    destruct (decide (next_id w = ch)) as [<-|Hne]; [|by rewrite fn_insert_ne].
    rewrite fn_insert_eq. intros [= ->]. set_solver.
  - intros j _ Hj _. by apply accepted_with_queue.
  - intros d [Hd|Hd]%Hreg; [by left|right]. exists d. split_and!; try done.
    intros _. unfold complete. rewrite accepted_with_queue; [done|].
    by destruct (reg_ok w d Hw Hd).
Qed.

Lemma fresh_used w g n (r : gset Res) :
  always (w, g) → n = next_id w → (∀ x, x ∈ r → res_id x = n) → ∀ x, x ∈ r → x ∉ used g.
Proof.
  intros Hs -> Hr x Hx Hu. apply (al_used _ Hs) in Hu. rewrite (Hr x Hx) in Hu. cbn in Hu. lia.
Qed.

Lemma refused_section conn w g :
  always (w, g) → Inv (refused conn w) → silent conn (w, g) →
  let g' := with_queue (next_id w) ∅ g in
  always (refused conn w, g') ∧ guarantee false {[Socket conn]} (w, g) (refused conn w, g').
Proof.
  intros Hs Hw' Hsilent g'. pose proof (made_refused conn w Hw') as Hm. split.
  - apply (made_always conn); try done. intros d Hd. by right.
  - apply made_guarantee; try done. intros d Hd. by right.
Qed.

Lemma opened_section a conn w g :
  always (w, g) → Inv (opened conn a w) → limit_reached (clients w) a = false →
  silent conn (w, g) →
  let n := next_id w in
  let g' := with_queue n {[SendSide n; RecvSide n]} g in
  always (opened conn a w, g') ∧ guarantee false {[Socket conn]} (w, g) (opened conn a w, g') ∧
  (∀ x, x ∈ ({[SendSide n; RecvSide n]} : gset Res) → x ∉ used g) ∧
  filling a (S (S n)) n [] (opened conn a w, g') ∧ writing conn n [] (opened conn a w, g').
Proof.
  intros Hs Hw' Hlim Hsilent n g'. pose proof (al_inv _ Hs) as Hw. cbn in Hw.
  pose proof (made_opened conn a w Hw') as Hm.
  assert (∀ x, x ∈ ({[SendSide n; RecvSide n]} : gset Res) → res_id x = n) as Hr.
  { by intros x [->%elem_of_singleton| ->%elem_of_singleton]%elem_of_union. }
  assert (∀ d, d ∈ reg w → writer d < n) as Hreg by (intros d Hd; by destruct (reg_ok w d Hw Hd)).
  split_and!.
  - apply (made_always conn); try done.
    + intros x Hx. rewrite (Hr x Hx). cbn. lia.
    + intros d [->|Hd]%opened_reg; auto.
  - apply made_guarantee; try done.
    + intros said. apply join_moves; [apply Hw|apply (inv_registry _ Hw')|done|].
      intros b Hb. pose proof (inv_tokens w Hw b) as Htok. rewrite Forall_forall in Htok.
      specialize (Htok _ Hb). cbn in Htok. lia.
    + intros d [->|Hd]%opened_reg; [left|by right]. split_and!; [done|cbn; lia|].
      exists (length (log g)). split; [done|]. unfold live. cbn [log with_queue].
      by rewrite drop_all.
  - by apply (fresh_used w g n).
  - split; cbn [fst snd]; [cbn; lia|cbn; lia|apply fn_insert_eq| |].
    + intros d [->|Hd]%opened_reg; [done|]. intros [= _ Ht]. exfalso.
      pose proof (inv_tokens w Hw (addr d)) as Htok.
      rewrite <-(ok_mirror _ _ _ (inv_deliveries w Hw)), Forall_forall in Htok.
      apply reg_addr in Hd; [|done]. specialize (Htok (cd_token d)). cbn in Htok.
      rewrite Ht in Htok. assert (S (S n) < n); [|lia]. apply Htok. rewrite <-Ht.
      by apply list_elem_of_fmap_2.
    + intros d [->|Hd]%opened_reg; [done|]. specialize (Hreg d Hd). lia.
  - destruct Hsilent as (? & Hwr & Hwi & _). cbn in *.
    split; cbn; rewrite ?fn_insert_eq; [lia|lia|done|done|]. by rewrite Hwr, Hwi.
Qed.

(** ** The session, the connection, the server *)

(** A sequence whose second half relies on nothing. *)
Lemma tri_then_plain {A B} (p : prog World ServerError Query A) f r P
    (rf : A → gset Res) (Post : A → state → Prop) :
  tri p false r P false rf Post → (∀ x : A, plain (f x)) →
  tri (pbind p f) false r P false nothing (λ (_ : B) _, True).
Proof.
  intros Hp Hf. eapply tri_bind; auto; [exact Hp|]. intros x. apply tri_plain; auto.
Qed.

Lemma enter_tri a u t ch :
  tri (enter a u t) false {[SendSide ch]} (filling a t ch []) false nothing (λ _ _, True).
Proof.
  eapply tri_then_plain; [apply send_message_history_tri|].
  intros [_|e]; [|by apply plain_ret].
  apply plain_try_bind; auto; [apply broadcast_presence_plain|]. intros _.
  apply plain_pure. intros frame Hf. by apply announce_plain, join_carries.
Qed.

Lemma serve_authenticated_tri conn dis flag a u t latency ch :
  tri (serve_authenticated conn dis flag a u t latency) false {[SendSide ch]} (filling a t ch [])
    false nothing (λ _ _, True).
Proof.
  eapply tri_then_plain; [apply enter_tri|]. intros [_|e]; [|by apply plain_ret].
  eapply plain_step; auto; [apply set_flag_mild|]. intros _ _.
  apply plain_loop; auto; [apply session_step_plain|]. intros [_|e]; [|by apply plain_ret].
  apply plain_bind; auto; [apply finish_session_plain|]. intros. by apply plain_ret.
Qed.

(** The session from its registration on. *)
Lemma session_tri conn flag a u t ch dis latency :
  name_ok u →
  tri (pbind (section (set_client_username a t u)) (λ r,
        match r with
        | Err e =>
            pbind (section (remove_client_if_current a t)) (λ _, Ret (Err e))
        | Ok _ =>
            Spawn (outbound_writer conn ch flag a t u)
              (pbind (serve_authenticated conn dis flag a u t latency) (λ '(r, joined),
                match r with
                | Err e => pbind (finish_session a u t joined) (λ _, Ret (Err e))
                | Ok _ => Ret (Ok tt)
                end))
        end)) false ({[SendSide ch]} ∪ writer_side conn ch)
    (λ s, filling a t ch [] s ∧ writing conn ch [] s) false nothing
    (λ (_ : result ServerError unit) _, True).
Proof.
  intros Hu. eapply tri_mild; auto.
  { apply stable_and; [apply stable_filling; set_solver|].
    eapply stable_weaken; [|apply stable_writing]. set_solver. }
  { by apply set_username_mild. }
  intros [_|e] _; cbn [pbind].
  - exists (writer_side conn ch), {[SendSide ch]}, (writing conn ch []), (filling a t ch []).
    split_and!.
    + unfold writer_side. set_solver.
    + set_solver.
    + apply stable_writing.
    + apply stable_filling. set_solver.
    + naive_solver.
    + apply outbound_writer_tri.
    + eapply tri_then_plain; [apply serve_authenticated_tri|].
      intros [[_|e] joined]; [by apply plain_ret|].
      apply plain_bind; auto; [apply finish_session_plain|]. intros. by apply plain_ret.
  - apply tri_plain; auto. eapply plain_step; auto; [apply remove_mild|]. intros.
    by apply plain_ret.
Qed.

Lemma serve_connection_tri conn flag a latency :
  tri (serve_connection conn flag a latency) false {[Socket conn]} (silent conn)
    false nothing (λ _ _, True).
Proof.
  intros [|]; [split_and!; done|].
  eapply tri_mild; auto; [apply stable_silent|apply on_stream_mild|].
  intros [u|e] [str Hstr]; [|split_and!; done]. cbn [pbind].
  assert (name_ok u) as Hu.
  { destruct (read_handshake_username str) as [r str'] eqn:E. cbn in Hstr. subst r.
    by eapply handshake_name_ok. }
  intros [w g] Hs Hused HP. pose proof (al_inv _ Hs) as Hw. cbn in Hw.
  destruct (open_session_cases conn a w Hw) as [(E & Hw')|(E & Hw' & Hlim)].
  - destruct (refused_section conn w g Hs Hw' HP) as [Hs' Hg].
    eexists (Err ConnectionLimitReached), _, _, ∅, (λ _, True).
    split_and!; [exact E| |done|done|by split_and!].
    split_and!; [exact Hs'|done| |cbn; set_solver|set_solver].
    intros _. by apply (guarantee_between _ _ _ Hg).
  - destruct (opened_section a conn w g Hs Hw' Hlim HP) as (Hs' & Hg & Hn & Hfi & Hwr).
    eexists _, _, _, ({[SendSide (next_id w)]} ∪ writer_side conn (next_id w)),
      (λ s, filling a (S (S (next_id w))) (next_id w) [] s ∧ writing conn (next_id w) [] s).
    split_and!; [exact E| | |exact Hfi|exact Hwr|].
    + split_and!; [exact Hs'|done| |cbn; set_solver|].
      * intros _. by apply (guarantee_between _ _ _ Hg).
      * cbn. unfold writer_side. set_solver.
    + apply stable_and; [apply stable_filling; set_solver|].
      eapply stable_weaken; [|apply stable_writing]. set_solver.
    + by apply session_tri.
Qed.

Lemma drop_permit_plain i : plain (drop_permit i).
Proof.
  eapply plain_step; auto; [apply uncount_connection_mild|]. intros _ _.
  eapply plain_step; auto; [apply release_global_mild|]. intros. by apply plain_ret.
Qed.

Lemma serve_tri conn a permit latency :
  tri (serve conn a permit latency) false {[Socket conn]} (silent conn) false nothing (λ _ _, True).
Proof.
  eapply tri_mild; auto; [apply stable_silent|apply new_joined_flag_mild|].
  intros [flag|e] _; [|split_and!; done].
  eapply tri_then_plain; [apply serve_connection_tri|]. intros r.
  apply plain_bind; auto; [apply drop_permit_plain|]. intros. by apply plain_ret.
Qed.

Lemma try_acquire_tri a r P :
  stable false r P →
  tri (try_acquire a) false r P false (λ _, r) (λ _, P).
Proof.
  intros HP. eapply tri_mild; auto; [apply acquire_global_mild|].
  intros [[|]|e] _; try by split_and!.
  eapply tri_mild; auto; [apply count_connection_mild|].
  intros [[|]|e'] _; try by split_and!.
  eapply tri_mild; auto; [apply release_global_mild|]. intros _ _. by split_and!.
Qed.

Lemma new_connection_section str w g :
  always (w, g) →
  let n := next_id w in
  let g' := mk_Ghost (log g) (infl g) (accepted g) (inflight g) (used g ∪ {[Socket n]}) in
  ∃ w', new_connection str w = (Done (Ok n), w') ∧ always (w', g') ∧
    guarantee false ∅ (w, g) (w', g') ∧ Socket n ∉ used g ∧ silent n (w', g').
Proof.
  intros Hs n g'. pose proof (al_inv _ Hs) as Hw. cbn in Hw.
  destruct (new_connection_ok str w Hw) as (r & w' & E & Hw').
  assert (∀ x, x ∈ used g → res_id x < n) as Hused by apply (al_used _ Hs).
  injection E as <- <-. eexists. split; [reflexivity|]. split_and!.
  - destruct Hs as [_ Hh Ha Hwr Hu Hfl Hout Hr]. split; try done; cbn [fst snd].
    + intros j. cbn. destruct (decide (n = j)) as [<-|Hj].
      * rewrite !fn_insert_eq. apply (on_socket_whole _ []), in_order_nil.
      * rewrite !fn_insert_ne by done. apply Hwr.
    + intros x [Hx|Hx]%elem_of_union; [specialize (Hused x Hx); cbn; lia|].
      apply elem_of_singleton in Hx as ->. cbn. lia.
    + intros j conn Hj. destruct (Hfl j conn Hj) as [? ? ? Hall]. cbn in *.
      split; cbn; [lia|lia|done|]. rewrite fn_insert_ne by (unfold n; lia). done.
  - split; cbn; try done.
    + lia.
    + intros j _ _. split_and!; [done|done|]. exists []. by rewrite !app_nil_r.
    + intros j _ Hj. rewrite !fn_insert_ne by (unfold n; lia). done.
    + intros d Hd. right. by exists d.
  - intros Hx. specialize (Hused _ Hx). cbn in Hused. lia.
  - split_and!; cbn; [lia|apply fn_insert_eq..|]. intros j [? _ _ _]%(al_flow _ Hs).
    cbn in *. unfold n in *. lia.
Qed.

Lemma accept_step_plain latency : plain (accept_step latency).
Proof.
  intros [[a str]|k].
  2: { destruct (decide _); [|by apply plain_ret]. intros _. by apply plain_ret. }
  intros [w g] Hs Hused _. destruct (new_connection_section str w g Hs) as (w' & E & Hs' & Hg & Hn & HP).
  eexists _, w', _, {[Socket (next_id w)]}, (silent (next_id w)).
  split_and!; [exact E| |apply stable_silent|exact HP|].
  { split; [exact Hs'|]. split; [exact Hg|]. split; [|split; [cbn; set_solver|cbn; set_solver]].
    intros _. by apply (guarantee_between ∅). }
  eapply tri_bind; auto; [apply try_acquire_tri, stable_silent|].
  intros [permit|]; cbn beta iota; [|by split_and!].
  exists {[Socket (next_id w)]}, ∅, (silent (next_id w)), (λ _, True).
  split_and!; try done; [set_solver|apply stable_silent|].
  eapply tri_then_plain; [apply serve_tri|]. intros. by apply plain_ret.
Qed.

Lemma run_server_plain config : plain (run_server_async config).
Proof.
  apply plain_spawn; auto.
  - apply plain_loop; auto; [|by intros []]. intros d.
    eapply plain_step; auto; [apply clock_mild|]. intros. by apply plain_ret.
  - apply plain_spawn; auto.
    + apply plain_loop; auto; [|by intros []]. intros _.
      apply plain_bind; auto; [apply cleanup_plain|]. intros. by apply plain_ret.
    + apply plain_loop; auto; [apply accept_step_plain|by intros []].
Qed.

(** ** Adequacy *)

Definition no_messages : Ghost := mk_Ghost [] None (λ _, []) (λ _, []) ∅.

Lemma start_ok config now :
  config_ok always between used guarantee (server_start config now) no_messages (λ _, ∅).
Proof.
  set (w := new_shared_state now).
  assert (reg w = []) as Hreg by (unfold reg, w, all_values; cbn; by rewrite map_to_list_empty).
  assert (always (w, no_messages)) as Hs.
  { split; cbn; try done.
    - apply new_shared_state_inv.
    - intros ch. apply in_order_nil.
    - intros conn. apply (on_socket_whole _ []), in_order_nil.
    - intros d Hd. rewrite Hreg in Hd. by apply not_elem_of_nil in Hd. }
  assert (between (w, no_messages)) as HJ.
  { split; [done|]. intros d Hd. cbn in Hd. rewrite Hreg in Hd. by apply not_elem_of_nil in Hd. }
  apply initial_ok with (P := λ _, True); auto; try done. apply run_server_plain.
Qed.

Lemma reachable_always config now c :
  reachable config now c →
  ∃ g, always (world c, g) ∧ (owner c = None → between (world c, g)).
Proof.
  intros Hc. destruct (csteps_ok (Q := Query) _ always between used guarantee
    guarantee_monotone guarantee_refl _ _ _ _ Hc (start_ok config now)) as (g & T & Hok).
  exists g. split; apply Hok.
Qed.

Lemma start_room config now : room_of (world (server_start config now), no_messages) = empty_room.
Proof. unfold room_of, empty_room, members_of. cbn. by rewrite map_to_list_empty. Qed.

(** The rooms of an execution, one for each configuration. *)
Lemma execution_rooms config now cs :
  execution answers (server_start config now) cs →
  ∃ Rs, Forall2 (λ c R, ∃ g, always (world c, g) ∧ R = room_of (world c, g)) cs Rs ∧
    Sorted room_moves (empty_room :: Rs) ∧ Forall room_ok Rs.
Proof.
  intros Hex. destruct (execution_ok (Q := Query) _ always between used guarantee
    guarantee_monotone guarantee_refl room_of room_moves _ _ _ _
    (λ h r s s' Hg, gu_room h r s s' Hg) Hex (start_ok config now)) as (Rs & HRs & Hsorted).
  rewrite start_room in Hsorted. exists Rs. split_and!; [|done|].
  - eapply Forall2_impl; [exact HRs|]. intros c R (g & T & Hg & ->). exists g. split; [apply Hg|done].
  - by apply (room_moves_ok empty_room), empty_room_ok.
Qed.

(** The room of a configuration is within its limits. *)
Lemma reachable_room config now c :
  reachable config now c →
  ∃ g, always (world c, g) ∧ room_ok (room_of (world c, g)).
Proof.
  intros Hc. destruct (csteps_execution _ _ _ Hc) as [->|(cs & Hex)].
  - exists no_messages. rewrite start_room. split; [apply (start_ok config now)|apply empty_room_ok].
  - destruct (execution_rooms _ _ _ Hex) as (Rs & HRs & _ & Hok).
    apply Forall2_app_inv_l in HRs as (Rs1 & Rs2 & _ & HRs & ->).
    apply Forall_app in Hok as [_ Hok].
    inversion HRs as [|? ? ? ? (g & Hg & ->)]; subst. inversion Hok; subst. by exists g.
Qed.

(** ** Properties *)

(** C2: one order for everybody.  In every configuration the server can reach, in any
    interleaving of joins, leaves, messages, slow writers and failing sockets, there is one
    log of chat messages of which the history is the last hundred.  The frames written to a
    socket, those that list the users apart, are, without omission, repetition or reordering,
    a beginning of: a window of at most a hundred messages of the log, as the history replays
    them, followed by the messages of the log from some point inside or before the end of
    that window on, as they were broadcast.  The log may run one message ahead of the queues,
    the one being delivered. *)
Theorem sockets_in_order config now c :
  reachable config now c →
  ∃ log last : list str,
    length last ≤ 1 ∧
    entries (history (world c)) = lastn MESSAGE_HISTORY_LIMIT (map text (log ++ last)) ∧
    ∀ conn, ∃ n k, k ≤ n ≤ length log ∧
      chat (written (io (world c)) conn) `prefix_of`
        map (λ m, frame_of (text m)) (lastn MESSAGE_HISTORY_LIMIT (take n log)) ++
        map frame_of (drop k log).
Proof using Laws.
  intros (g & Hs & _)%reachable_always. exists (log g), (option_list (infl g)).
  split_and!; [by destruct (infl g); cbn; lia|apply (al_history _ Hs)|].
  intros conn. destruct (al_written _ Hs conn) as (next & _ & Ho & _).
  eapply in_order_prefix in Ho; [exact Ho|by apply prefix_app_r].
Qed.

Lemma Forall2_with_r {A B} (P : A → B → Prop) (Q : B → Prop) l k :
  Forall2 P l k → Forall Q k → Forall2 (λ x y, P x y ∧ Q y) l k.
Proof. induction 1; intros HQ; inversion HQ; subst; constructor; auto. Qed.

(** What the shared state shows of a room: its members, and the end of what was said in it. *)
Definition represents (w : World) (R : Room) : Prop :=
  members R = members_of (clients w) ∧
  entries (history w) = lastn MESSAGE_HISTORY_LIMIT (map text (said R)) ∧
  size (members R) = total (clients w) ∧ room_ok R.

(** C5: the server is a chat room.  Every execution of the server, whatever the interleaving,
    is accompanied by a sequence of abstract rooms that starts with the empty one: each
    configuration represents its room (the registry holds the members and their number, the
    history the last hundred messages), and from one configuration to the next the room stays
    as it is, or one member joins within the limits, gives a valid name, or leaves, or one
    message that fits a frame is said. *)
Theorem server_refines_room config now cs :
  execution answers (server_start config now) cs →
  ∃ Rs, Forall2 (λ c R, represents (world c) R) cs Rs ∧ Sorted room_moves (empty_room :: Rs).
Proof using Laws.
  intros Hex. destruct (execution_rooms _ _ _ Hex) as (Rs & HRs & Hsorted & Hok).
  exists Rs. split; [|done]. eapply Forall2_impl; [exact (Forall2_with_r _ _ _ _ HRs Hok)|].
  intros c R [(g & Hs & ->) HR]. split_and!; [done|apply (al_history _ Hs)| |done].
  apply size_members, (al_inv _ Hs).
Qed.

(** C3: nobody misses a message.  Whenever the replay barrier is free, the history is the
    last hundred messages of the log, and every registered client that is ready has been given
    everything: the chat frames written to the connection its queue is drained to, then the
    one its writer task has in hand, if any, then those still in its queue, are exactly a
    replay of at most a hundred messages of the log followed by every message of the log from
    some point inside or before the end of that window on, up to the last.  Two clients' queues
    are not drained to one connection.  The backlog of a client that is not ready is, presence
    frames apart, the end of the log. *)
Theorem queues_complete config now c :
  reachable config now c → owner c = None →
  ∃ log : list str,
    entries (history (world c)) = lastn MESSAGE_HISTORY_LIMIT (map text log) ∧
    (∀ a d, d ∈ deliveries_at (deliveries (world c)) a →
      if ready d then
        ∃ conn inflight n k,
          outlet (io (world c)) (writer d) = Some conn ∧
          length inflight ≤ 1 ∧ k ≤ n ≤ length log ∧
          chat (written (io (world c)) conn ++ inflight ++
                queue (view (channels (world c) (writer d)))) =
            map (λ m, frame_of (text m)) (lastn MESSAGE_HISTORY_LIMIT (take n log)) ++
            map frame_of (drop k log)
      else ∃ k, k ≤ length log ∧ chat (pending_messages d) = map frame_of (drop k log)) ∧
    ∀ ch ch' conn, outlet (io (world c)) ch = Some conn →
      outlet (io (world c)) ch' = Some conn → ch = ch'.
Proof using Laws.
  intros (g & Hs & HJ)%reachable_always Ho. destruct (HJ Ho) as [Hi Hc]. exists (log g).
  split; [|split; [|apply (al_outlet _ Hs)]].
  - pose proof (al_history _ Hs) as Hh. cbn in Hi, Hh. by rewrite Hh, Hi, app_nil_r.
  - intros a d Hd%elem_of_all_at. specialize (Hc d Hd). unfold complete in Hc.
    destruct (ready d); [|done]. destruct Hc as (n & k & ? & Hc).
    destruct (al_reg _ Hs d Hd) as [conn Hconn].
    destruct (al_flow _ Hs (writer d) conn Hconn) as [_ _ Hone Hall].
    exists conn, (inflight g (writer d)), n, k. cbn in Hall, Hc. rewrite Hall in Hc.
    split_and!; try done; cbn in *; lia.
Qed.
End OrderProps.

(** ** The run of [Scenario] *)

Lemma sockets_in_order_witness :
  length (socket_texts whole_run 5) = 7 ∧
  ∃ log last : list str, length last ≤ 1 ∧ length (log ++ last) ≥ 5 ∧
    ∃ n k, k ≤ n ≤ length log ∧
      chat (written (io (world (script_run whole_run))) 5) `prefix_of`
        map (λ m, frame_of (text m)) (lastn MESSAGE_HISTORY_LIMIT (take n log)) ++
        map frame_of (drop k log).
Proof.
  split; [vm_compute; reflexivity|].
  destruct (@sockets_in_order canonical_order model_tokio model_tokio_laws _ _ _
    (script_run_reachable whole_run)) as (log & last & Hlast & Hh & Hs).
  exists log, last. split; [exact Hlast|]. split; [|exact (Hs 5)].
  apply (f_equal length) in Hh. rewrite length_lastn, length_map in Hh.
  assert (length (entries (history (world (script_run whole_run)))) = 6) as E
    by (vm_compute; reflexivity).
  lia.
Defined.

(** Bob waits for the history with one message in his backlog; alice is ready, and has been
    given all there is. *)
Lemma queues_complete_witness :
  let w := world (script_run bob_waiting) in
  map (λ d, (ready d, outlet (io w) (writer d))) (all_values (deliveries w)) =
    [(false, Some 5); (true, Some 0)] ∧
  ∃ log : list str,
    entries (history w) = lastn MESSAGE_HISTORY_LIMIT (map text log) ∧
    (∃ d k, d ∈ deliveries_at (deliveries w) bob_addr ∧
      k ≤ length log ∧ chat (pending_messages d) = map frame_of (drop k log)) ∧
    ∃ d inflight n k, d ∈ deliveries_at (deliveries w) alice_addr ∧
      length inflight ≤ 1 ∧ k ≤ n ≤ length log ∧
      chat (written (io w) 0 ++ inflight ++ queue (@view model_tokio model_tokio_laws (channels w (writer d)))) =
        map (λ m, frame_of (text m)) (lastn MESSAGE_HISTORY_LIMIT (take n log)) ++
        map frame_of (drop k log).
Proof.
  intros w. split; [vm_compute; reflexivity|].
  destruct (@queues_complete canonical_order model_tokio model_tokio_laws _ _ _
    (script_run_reachable bob_waiting)) as (log & Hh & Hq & _); [vm_compute; reflexivity|].
  exists log. split; [exact Hh|]. split.
  - assert (∃ d, d ∈ deliveries_at (deliveries w) bob_addr ∧ ready d = false) as (d & Hd & Hr).
    { eexists. split; [|shelve]. vm_compute. left. Unshelve. reflexivity. }
    specialize (Hq bob_addr d Hd). rewrite Hr in Hq. destruct Hq as (k & Hk & Hc).
    exists d, k. split; [exact Hd|]. split; [exact Hk|exact Hc].
  - assert (∃ d, d ∈ deliveries_at (deliveries w) alice_addr ∧ ready d = true ∧
      outlet (io w) (writer d) = Some 0) as (d & Hd & Hr & Ho).
    { eexists. split; [|shelve]. vm_compute. left. Unshelve. split; vm_compute; reflexivity. }
    specialize (Hq alice_addr d Hd). rewrite Hr in Hq.
    destruct Hq as (conn & inflight & n & k & Ho' & Hi & Hk & Hc).
    pose proof (eq_trans (eq_sym Ho') Ho) as [= ->].
    exists d, inflight, n, k. split; [exact Hd|]. split; [exact Hi|]. split; [exact Hk|exact Hc].
Defined.

(** The room of that run: 171 configurations, at most two members at a time. *)
Lemma server_refines_room_witness :
  ∃ Rs, Forall2 (λ c R, @represents model_tokio (world c) R) (script_trace whole_run) Rs ∧
    Sorted room_moves (empty_room :: Rs) ∧ length Rs = 171.
Proof.
  destruct (@server_refines_room canonical_order model_tokio model_tokio_laws _ _ _
    (script_execution whole_run)) as (Rs & HRs & Hsorted).
  exists Rs. split; [exact HRs|]. split; [exact Hsorted|].
  rewrite <-(Forall2_length _ _ _ HRs). vm_compute. reflexivity.
Defined.
