(* ===== verification/ConnectionProps.v ===== *)
(** Properties of one connection: the asynchronous frame reader against the format and
    against the protocol crate's reader, the handshake on every branch, the checks on chat
    frames, and what a session does with one message. *)
From stdpp Require Import functions.
From S2P Require Import Prelude Utf8 Text Frame Presence ChatText Config Prog Net RateLimit.
From S2P Require Import Registry State StateInv Admission Connection Server Broadcast StateProps.

(** ** The format, as the server reads it *)

(** One frame off the front of a byte string, with the server's errors and the server's order
    of checks: the size comes before the version. *)
Definition parse_async (bs : list u8) : result ServerError (option (Frame * list u8)) :=
  match bs with
  | [] => Ok None
  | v :: t :: b3 :: b2 :: b1 :: b0 :: rest =>
      let n := u32_from_be_bytes b3 b2 b1 b0 in
      if decide (MAX_FRAME_PAYLOAD_BYTES < n)%Z then Err MessageTooLong
      else if decide (v ≠ CURRENT_PROTOCOL_VERSION) then Err UnsupportedProtocolVersion
      else match FrameType_try_from t with
      | Err _ => Err UnknownProtocolFrameType
      | Ok k =>
          if decide (length rest < Z.to_nat n) then Err TruncatedProtocolFrame
          else Ok (Some (mk_Frame v k (take (Z.to_nat n) rest), drop (Z.to_nat n) rest))
      end
  | _ => Err TruncatedProtocolFrame
  end.

Section Reading.
Context `{Laws : TokioLaws}.

Lemma arriving_one s bs :
  arriving s = Some bs →
  match bs with
  | [] => ∃ s', stream_read s 1 = (Ok [], s')
  | b :: rest => ∃ s', stream_read s 1 = (Ok [b], s') ∧ arriving s' = Some rest
  end.
Proof.
  intros Hs. destruct (arriving_read s bs 1 Hs) as (k & s' & E & Ha & Hk & Hl & Hz); [lia|].
  destruct bs as [|b rest].
  - exists s'. rewrite E. by rewrite take_nil.
  - destruct k as [|k]; [by specialize (Hz eq_refl)|]. assert (k = 0) as -> by lia.
    exists s'. rewrite E. cbn in *. by rewrite drop_0 in Ha.
Qed.

Lemma read_async_frame_spec s bs :
  arriving s = Some bs →
  ∃ s', read_async_frame s = (fmap (M := result ServerError) (fmap fst) (parse_async bs), s') ∧
    ∀ f rest, parse_async bs = Ok (Some (f, rest)) → arriving s' = Some rest.
Proof.
  intros Hs. pose proof (arriving_one s bs Hs) as H1. unfold read_async_frame.
  destruct bs as [|v bs]; [destruct H1 as (s1 & ->); by exists s1|].
  destruct H1 as (s1 & -> & Hs1). change (FRAME_HEADER_BYTES - 1) with 5.
  destruct (decide (5 ≤ length bs)) as [Hlen|Hlen].
  2: { destruct (arriving_read_short s1 bs 5 Hs1) as (s2 & ->); [lia|]. exists s2.
       destruct bs as [|? [|? [|? [|? [|? ?]]]]]; cbn in Hlen; try lia; done. }
  destruct (arriving_read_exact s1 bs 5 Hs1 Hlen) as (s2 & -> & Hs2).
  destruct bs as [|t [|b3 [|b2 [|b1 [|b0 rest]]]]]; cbn [length] in Hlen; try lia.
  rewrite ?firstn_cons, ?skipn_cons, ?take_0, ?drop_0 in *. cbn [parse_async nth payload_len].
  set (n := u32_from_be_bytes b3 b2 b1 b0).

  destruct (decide (MAX_FRAME_PAYLOAD_BYTES < n)%Z); [by exists s2|].
  destruct (decide (v ≠ CURRENT_PROTOCOL_VERSION)); [by exists s2|].
  destruct (FrameType_try_from t) as [k|e]; [|by exists s2].
  destruct (decide (length rest < Z.to_nat n)) as [Hshort|Hok].
  - destruct (arriving_read_short s2 rest _ Hs2 Hshort) as (s3 & ->). by exists s3.
  - destruct (arriving_read_exact s2 rest (Z.to_nat n) Hs2) as (s3 & -> & Hs3); [lia|].
    exists s3. split; [done|]. intros f r [= <- <-]. done.
Qed.

(** C24: the asynchronous reader implements the format.  On a socket that delivers [bs], in
    whatever pieces, it returns what [parse_async] says of [bs]: the clean end, the frame, or
    the error, and after a frame the rest of the bytes is still to be read. *)
Theorem read_async_frame_refines s bs :
  arriving s = Some bs →
  ∃ s', read_async_frame s = (fmap (M := result ServerError) (fmap fst) (parse_async bs), s') ∧
    ∀ f rest, parse_async bs = Ok (Some (f, rest)) → arriving s' = Some rest.
Proof. apply read_async_frame_spec. Qed.

(** What the protocol crate's parser accepts, the server's does. *)
Lemma parse_async_agrees bs :
  (∀ f rest, parse_async bs = Ok (Some (f, rest)) ↔ parse_frame bs = Ok (Some (f, rest))) ∧
  (parse_async bs = Ok None ↔ parse_frame bs = Ok None).
Proof.
  unfold parse_async, parse_frame.
  destruct bs as [|v [|t [|b3 [|b2 [|b1 [|b0 rest]]]]]]; try naive_solver.
  set (n := u32_from_be_bytes b3 b2 b1 b0). cbn zeta.
  destruct (decide (v ≠ CURRENT_PROTOCOL_VERSION)) as [Hv|Hv].
  { destruct (decide (MAX_FRAME_PAYLOAD_BYTES < n)%Z); naive_solver. }
  destruct (FrameType_try_from t) as [k|e]; cbn [mbind result_bind];
    destruct (decide (MAX_FRAME_PAYLOAD_BYTES < n)%Z); try naive_solver.
  destruct (decide (length rest < Z.to_nat n)); naive_solver.
Qed.

(** A frame the protocol crate encoded, off a socket. *)
Lemma read_async_frame_encoded s k p rest :
  arriving s = Some (encode_all [(k, p)] ++ rest) → (zlen p <= MAX_FRAME_PAYLOAD_BYTES)%Z →
  ∃ s', read_async_frame s = (Ok (Some (mk_Frame CURRENT_PROTOCOL_VERSION k p)), s') ∧
    arriving s' = Some rest.
Proof.
  intros Hs Hp. destruct (read_async_frame_spec s _ Hs) as (s' & E & Ha). exists s'.
  assert (parse_async (encode_all [(k, p)] ++ rest) =
    Ok (Some (mk_Frame CURRENT_PROTOCOL_VERSION k p, rest))) as Ep.
  { apply parse_async_agrees. cbn [encode_all mbind list_bind]. rewrite app_nil_r.
    by apply parse_frame_encoded. }
  rewrite Ep in E. split; [exact E|]. by apply (Ha _ _ Ep).
Qed.

(** A valid name, by its characters. *)
Lemma is_valid_username_bools name :
  is_valid_username name = true ↔
    forallb is_whitespace name = false ∧ existsb is_control name = false.
Proof.
  unfold is_valid_username. rewrite andb_true_iff, !negb_true_iff, is_empty_false, trim_nil_iff.
  by rewrite not_true_iff_false.
Qed.

(** The checks on a handshake frame, by the payload's bytes and characters. *)
Lemma check_username_cases v k bytes :
  check_username (mk_Frame v k bytes) =
    match k with
    | Handshake =>
        match from_utf8 bytes with
        | None => Err InvalidUtf8
        | Some name =>
            if decide (length bytes ≤ 32) then
              match forallb is_whitespace name, existsb is_control name with
              | true, _ => Err EmptyHandshakeUsername
              | false, true => Err UsernameContainsControlCharacters
              | false, false => Ok (trim name)
              end
            else Err UsernameTooLong
        end
    | _ => Err InvalidFrameType
    end.
Proof.
  unfold check_username. cbn [kind payload].
  destruct k; [rewrite decide_False by (intros Hk; by apply Hk)|rewrite decide_True by done..];
    [|done..].
  destruct (from_utf8 bytes) as [name|] eqn:Eu; [|done]. cbn [ok_or mbind result_bind].
  apply from_utf8_iff in Eu as <-. change (length (as_bytes name)) with (blen name).
  change MAX_USERNAME_BYTES with 32.
  destruct (Nat.ltb_spec 32 (blen name)); [by rewrite decide_False by lia|].
  rewrite decide_True by lia.
  destruct (forallb is_whitespace name) eqn:Ew.
  - apply trim_nil_iff in Ew. by rewrite Ew.
  - destruct (is_empty (trim name)) eqn:Et.
    { exfalso. destruct (trim name) eqn:E; [|done]. apply trim_nil_iff in E. congruence. }
    unfold is_valid_username. rewrite Et. by destruct (existsb _ _).
Qed.

(** The handshake of a valid name, whatever its length. *)
Lemma handshake_sent s name rest :
  arriving s = Some (encode_all [(Handshake, as_bytes name)] ++ rest) →
  (zlen (as_bytes name) <= MAX_FRAME_PAYLOAD_BYTES)%Z → is_valid_username name = true →
  ∃ s', read_handshake_username s =
      (if MAX_USERNAME_BYTES <? blen name then Err UsernameTooLong else Ok (trim name), s') ∧
    arriving s' = Some rest.
Proof.
  intros Hs Hl Hv. apply read_async_frame_encoded in Hs as (s' & E & Hs'); [|done].
  exists s'. unfold read_handshake_username. rewrite E. split; [|done]. f_equal.
  unfold check_username. cbn [kind payload]. rewrite decide_False by (by intros []).
  rewrite from_utf8_as_bytes. cbn [ok_or mbind result_bind].
  pose proof Hv as [Hne _]%andb_true_iff. apply negb_true_iff in Hne. by rewrite Hne, Hv.
Qed.
(** How the two parsers differ: in the order of their checks only. *)
Lemma parse_async_frame bs :
  match parse_async bs, parse_frame bs with
  | Ok x, Ok y => x = y
  | Err TruncatedProtocolFrame, Err Truncated => True
  | Err UnsupportedProtocolVersion, Err (UnsupportedVersion _) => True
  | Err UnknownProtocolFrameType, Err (UnknownType _) => True
  | Err MessageTooLong, Err (TooLarge _ | UnsupportedVersion _ | UnknownType _) => True
  | _, _ => False
  end.
Proof.
  unfold parse_async, parse_frame.
  destruct bs as [|v [|t [|b3 [|b2 [|b1 [|b0 rest]]]]]]; try done.
  set (n := u32_from_be_bytes b3 b2 b1 b0). cbn zeta.
  destruct (decide (MAX_FRAME_PAYLOAD_BYTES < n)%Z), (decide (v ≠ CURRENT_PROTOCOL_VERSION)); try done;
    destruct (FrameType_try_from t) as [k|e] eqn:Ek; cbn [mbind result_bind]; try done.
  - by apply FrameType_try_from_Err in Ek as ->.
  - by destruct (decide (length rest < Z.to_nat n)).
  - by apply FrameType_try_from_Err in Ek as ->.
Qed.

(** C25: the two readers of the repository agree.  The server's asynchronous reader, on a
    socket, and the protocol crate's blocking one, on a stream, that deliver the same bytes in
    whatever pieces: both return the same frame and leave the same bytes, or both see the clean
    end, or both fail; a truncated frame is one for both, and they differ in no error but for a
    frame that is too large, where the blocking reader may complain about the version or the
    type first. *)
Theorem readers_agree s r bs :
  arriving s = Some bs → clean r = true → contents r = bs →
  let '(x, s') := read_async_frame s in
  let '(y, r') := read_frame r in
  match x, y with
  | Ok (Some f), Ok (Some f') =>
      f = f' ∧ arriving s' = Some (contents r') ∧ clean r' = true
  | Ok None, Ok None => True
  | Err TruncatedProtocolFrame, Err Truncated => True
  | Err UnsupportedProtocolVersion, Err (UnsupportedVersion _) => True
  | Err UnknownProtocolFrameType, Err (UnknownType _) => True
  | Err MessageTooLong, Err (TooLarge _ | UnsupportedVersion _ | UnknownType _) => True
  | _, _ => False
  end.
Proof.
  intros Hs Hr <-. destruct (read_async_frame_spec s _ Hs) as (s' & -> & Hs').
  pose proof (read_frame_parse r Hr) as Hp. pose proof (parse_async_frame (contents r)) as Ha.
  destruct (parse_async (contents r)) as [x|e], (parse_frame (contents r)) as [y|e'];
    [subst x|done|by destruct e|destruct Hp as (r' & ->); by destruct e].
  destruct y as [[f rest]|].
  - destruct Hp as (r' & -> & Hr' & <-). cbn. split_and!; [done|by apply (Hs' f)|done].
  - by destruct Hp as (r' & ->).
Qed.

(** ** The handshake *)

(** C21: the handshake, on every branch.  What the client's bytes begin with decides: an end
    of the stream is an empty name, a frame larger than any is a name too long, another broken
    frame is what is wrong with it; a frame of another type, a payload that is not UTF-8, more
    than 32 bytes of it, a blank name, a name with control characters are refused in this
    order, each with its error; any other name is accepted, trimmed.  So exactly the valid
    names of at most 32 bytes are accepted. *)
Theorem handshake_functional s bs :
  arriving s = Some bs →
  fst (read_handshake_username s) =
    match parse_async bs with
    | Err MessageTooLong => Err UsernameTooLong
    | Err e => Err e
    | Ok None => Err EmptyHandshakeUsername
    | Ok (Some (mk_Frame _ Handshake bytes, _)) =>
        match from_utf8 bytes with
        | None => Err InvalidUtf8
        | Some name =>
            if decide (length bytes ≤ 32) then
              match forallb is_whitespace name, existsb is_control name with
              | true, _ => Err EmptyHandshakeUsername
              | false, true => Err UsernameContainsControlCharacters
              | false, false => Ok (trim name)
              end
            else Err UsernameTooLong
        end
    | Ok (Some _) => Err InvalidFrameType
    end ∧
  ∀ u, fst (read_handshake_username s) = Ok u ↔ ∃ v rest name,
    parse_async bs = Ok (Some (mk_Frame v Handshake (as_bytes name), rest)) ∧
    blen name ≤ 32 ∧ is_valid_username name = true ∧ u = trim name.
Proof.
  intros Hs. destruct (read_async_frame_spec s bs Hs) as (s' & E & _).
  unfold read_handshake_username. rewrite E.
  destruct (parse_async bs) as [[[[v k bytes] r]|]|e]; cbn [fmap result_fmap option_fmap option_map fst].
  2: { split; [done|]. intros u. by split; [|intros (? & ? & ? & ? & _)]. }
  2: { split; [by destruct e|]. intros u. by split; [destruct e|intros (? & ? & ? & ? & _)]. }
  rewrite check_username_cases. split; [done|]. intros u. split.
  - destruct k; try done. destruct (from_utf8 bytes) as [name|] eqn:Eu; [|done].
    apply from_utf8_iff in Eu as <-. case_decide as Hl; [|done].
    destruct (forallb is_whitespace name) eqn:Ew; [done|].
    destruct (existsb is_control name) eqn:Ec; [done|]. intros [= <-].
    exists v, r, name. split_and!; try done. by apply is_valid_username_bools.
  - intros (v' & r' & name & [= -> -> -> ->] & Hl & [Ew Ec]%is_valid_username_bools & ->).
    rewrite from_utf8_as_bytes, decide_True by done. by rewrite Ew, Ec.
Qed.
End Reading.

Lemma readers_agree_witness :
  let '(x, s) := @read_async_frame model_tokio [Data [Byte.x01]; Data (tail (frame_header Chat 0) ++ [Byte.x07])] in
  let '(y, r) := read_frame [Data (frame_header Chat 0); Data [Byte.x07]] in
  x = Ok (Some (mk_Frame CURRENT_PROTOCOL_VERSION Chat [])) ∧ y = Ok (Some (mk_Frame CURRENT_PROTOCOL_VERSION Chat [])) ∧
  @arriving model_tokio model_tokio_laws s = Some [Byte.x07] ∧ contents r = [Byte.x07].
Proof.
  pose proof (@readers_agree model_tokio model_tokio_laws
    [Data [Byte.x01]; Data (tail (frame_header Chat 0) ++ [Byte.x07])]
    [Data (frame_header Chat 0); Data [Byte.x07]] (frame_header Chat 0 ++ [Byte.x07])
    eq_refl eq_refl eq_refl) as H.
  vm_compute in H |- *. destruct H as (_ & Hs & _). split; [reflexivity|].
  split; [reflexivity|]. split; [exact Hs|reflexivity].
Defined.

Lemma handshake_functional_witness :
  fst (@read_handshake_username model_tokio
    [Data (frame_header Handshake 4 ++ as_bytes (lit " bo"));
     Data (as_bytes (lit " "))]) = Ok (lit "bo").
Proof.
  destruct (@handshake_functional model_tokio model_tokio_laws
    [Data (frame_header Handshake 4 ++ as_bytes (lit " bo")); Data (as_bytes (lit " "))]
    (frame_header Handshake 4 ++ as_bytes (lit " bo "))) as [E _].
  - vm_compute. reflexivity.
  - rewrite E. vm_compute. reflexivity.
Defined.

Lemma read_async_frame_refines_witness :
  ∃ s', @read_async_frame model_tokio [Data [Byte.x01]; Data (tail (frame_header Chat 0))] =
    (Ok (Some (mk_Frame CURRENT_PROTOCOL_VERSION Chat [])), s').
Proof.
  destruct (@read_async_frame_refines model_tokio model_tokio_laws
    [Data [Byte.x01]; Data (tail (frame_header Chat 0))] (frame_header Chat 0)) as (s' & E & _).
  - vm_compute. reflexivity.
  - exists s'. rewrite E. vm_compute. reflexivity.
Defined.

(** ** One message of a session *)

Section Session.
Context `{HashOrder} `{Tokio}.

(** The lengths that make an accepted message fit a frame: a content the server accepts, a
    name the handshake accepts, a five-byte time of day. *)
Lemma formatted_fits username time content :
  blen username ≤ MAX_USERNAME_BYTES → blen time ≤ 5 →
  (Z.of_nat (blen content) <= MAX_CHAT_MESSAGE_BYTES)%Z →
  fits (format_chat_message username time content).
Proof.
  intros Hu Ht Hc. unfold fits, zlen, format_chat_message.
  change (length (as_bytes ?s)) with (blen s). rewrite !blen_app.
  change (blen (lit "[")) with 1. change (blen (lit "](")) with 2.
  change (blen (lit "): ")) with 3.
  unfold MAX_FRAME_PAYLOAD_BYTES, MAX_CHAT_MESSAGE_BYTES, MAX_USERNAME_BYTES in *. lia.
Qed.

Lemma set_rate_limits_inv w m : limiters_ok m → Inv w → Inv (set_rate_limits m w).
Proof. intros Hm []. by split. Qed.

(** What a session does with one text. *)
Lemma handle_message_run (env : ∀ B, Query B → B) a username latency content w :
  Inv w → name_ok username → (Z.of_nat (blen content) <= MAX_CHAT_MESSAGE_BYTES)%Z →
  blen (env str LocalTime) ≤ 5 →
  let time := env str LocalTime in
  let message := format_chat_message username time content in
  let frame := frame_header Chat (zlen (as_bytes message)) ++ as_bytes message in
  let '(allowed, limits) := allow (rate_limits w) (ip a) (clock w) in
  run_env env (handle_message a username latency content) false w =
    (if is_empty (trim content) then Some (Ok tt, false, w)
     else match allowed with
     | Err e => Some (Err e, false, set_rate_limits limits w)
     | Ok _ => run (announce message frame) false (set_rate_limits limits w)
     end) ∧
  (is_ok allowed = true →
   ∃ w', run (announce message frame) false (set_rate_limits limits w) =
       Some (Ok tt, false, w') ∧ Inv w' ∧
     last (entries (history w')) = Some (trim_end_matches newline message)).
Proof.
  intros Hw [_ Hu] Hc Ht time message frame.
  assert (fits message) as Hfits by (apply formatted_fits; [exact Hu|done|done]).
  pose proof (allow_message_eq a w Hw) as Eallow.
  pose proof (allow_limiters_ok (rate_limits w) (ip a) (clock w) (inv_limits w Hw)) as Hlim.
  destruct (allow (rate_limits w) (ip a) (clock w)) as [allowed limits] eqn:Ea.
  cbn [fst snd] in *.
  pose proof (set_rate_limits_inv w limits Hlim Hw) as Hw1.
  assert (fits (trim_end_matches newline message)) as Hfits' by (by apply trim_end_by_fits).
  assert (∃ w', run (announce message frame) false (set_rate_limits limits w) =
    Some (Ok tt, false, w') ∧ Inv w' ∧
    last (entries (history w')) = Some (trim_end_matches newline message)) as Hann.
  { destruct (record_and_broadcast_run (Q := Query) message frame None _ Hw1 Hfits')
      as (w1 & E1 & Hw1' & Eb).
    destruct (broadcast_run (Q := Query) frame None true _ (record_inv message _ Hw1 Hfits'))
      as (w2 & E2 & _ & _ & _ & _ & Hh & _).
    assert (w2 = w1) as -> by congruence. cbn [history set_history] in Hh.
    assert (last (entries (history w1)) = Some (trim_end_matches newline message)) as Hlast.
    { rewrite Hh. pose proof (inv_history _ Hw1) as [Hl Hle _].
      rewrite record_lastn by (rewrite Hl; done). rewrite Hl.
      destruct (lastn_snoc_ex 99 (entries (history (set_rate_limits limits w)))
        (trim_end_matches newline message)) as [es Ees].
      unfold MESSAGE_HISTORY_LIMIT. rewrite Ees. apply last_snoc. }
    destruct (broadcast_presence_run (Q := Query) false w1 Hw1')
      as (_ & w3 & _ & _ & _ & _ & _ & _ & _ & _ & E3 & Hw3 & Hh3).
    unfold announce. rewrite run_try_bind, E1. cbn [mbind option_bind].
    destruct (negb _); [|by exists w1]. exists w3. rewrite Hh3. done. }
  split; [|done].
  unfold handle_message. destruct (is_empty (trim content)); [done|].
  cbn [try_bind section pbind run_env]. rewrite Eallow.
  destruct allowed as [[]|e]; [|done].
  destruct Hann as (w' & Erun & _). rewrite Erun.
  rewrite run_env_bind. destruct (latency =? 0)%Z; cbn [run_env mbind option_bind];
    fold time; fold message; rewrite encode_chat_fits by done; cbn [pure try_bind pbind];
    by apply run_env_run.
Qed.

(** The last of a text that does not end in white space is not a newline. *)
Lemma trimmed_last s t : t ≠ [] → trim t = t → trim_end_matches newline (s ++ t) = s ++ t.
Proof.
  intros Ht Et. unfold trim_end_matches. apply trim_end_by_id.
  destruct t as [|c t _] using rev_ind; [done|]. rewrite (assoc_L (++)), last_snoc.
  apply bool_decide_eq_false. intros ->.
  assert (last (trim (t ++ [newline])) = Some newline) as Hl by (by rewrite Et, last_snoc).
  by apply trim_last in Hl.
Qed.

(** A name made of a valid name, a time and a text. *)
Definition disguise (victim time text : str) : str :=
  victim ++ lit "](" ++ time ++ lit "): " ++ text.

Lemma existsb_app_false {A} (f : A → bool) l k :
  existsb f l = false → existsb f k = false → existsb f (l ++ k) = false.
Proof. intros Hl Hk. by rewrite existsb_app, Hl, Hk. Qed.

Lemma disguise_valid victim time text :
  is_valid_username victim = true → existsb is_control time = false →
  is_valid_username text = true → is_valid_username (disguise victim time text) = true.
Proof.
  intros [Hw Hc]%is_valid_username_bools Ht [_ Hc']%is_valid_username_bools.
  apply is_valid_username_bools. unfold disguise. split.
  - by rewrite forallb_app, Hw.
  - by repeat apply existsb_app_false.
Qed.

Lemma disguise_trim victim time text :
  is_valid_username victim = true → trim victim = victim →
  is_valid_username text = true → trim text = text →
  trim (disguise victim time text) = disguise victim time text.
Proof.
  intros [Hw _]%is_valid_username_bools Ev [Hw' _]%is_valid_username_bools Et.
  apply trim_id; unfold disguise.
  - destruct victim as [|c victim]; [done|]. by eapply trim_head.
  - destruct text as [|c text _] using rev_ind; [done|].
    rewrite !(assoc_L (++)), last_snoc. apply (trim_last (text ++ [c])). by rewrite Et, last_snoc.
Qed.

(** ** Properties *)

(** C20: what a session does with one chat text.  A blank text is ignored and costs nothing.
    Otherwise one token is asked for: without one the session ends with the rate-limit
    error and only the limiter has changed; with one the text is recorded and broadcast as
    [\[name\](time): text], which always fits a frame, in a state that differs by the limiter
    only. *)
Theorem handle_message_functional (env : ∀ B, Query B → B) a username latency content w :
  Inv w → name_ok username → (Z.of_nat (blen content) <= MAX_CHAT_MESSAGE_BYTES)%Z →
  blen (env str LocalTime) ≤ 5 →
  let time := env str LocalTime in
  let message := format_chat_message username time content in
  let frame := frame_header Chat (zlen (as_bytes message)) ++ as_bytes message in
  let '(allowed, limits) := allow (rate_limits w) (ip a) (clock w) in
  run_env env (handle_message a username latency content) false w =
    (if is_empty (trim content) then Some (Ok tt, false, w)
     else match allowed with
     | Err e => Some (Err e, false, set_rate_limits limits w)
     | Ok _ => run (announce message frame) false (set_rate_limits limits w)
     end) ∧
  (is_ok allowed = true →
   ∃ w', run (announce message frame) false (set_rate_limits limits w) =
       Some (Ok tt, false, w') ∧ Inv w' ∧
     last (entries (history w')) = Some (trim_end_matches newline message)).
Proof. apply handle_message_run. Qed.

End Session.

(** An environment at twelve o'clock in which nothing fails. *)
Definition noon (B : Type) (q : @Query model_tokio B) : B :=
  match q with
  | HandshakeTimedOut _ => false
  | SelectDisconnect _ => false
  | LocalTime => lit "12:00"
  | Sleep _ => tt
  | WriteAll _ _ => Ok tt
  | Accept => Err Other
  | Elapsed => 0%Z
  end.

Lemma handle_message_functional_witness :
  ∃ w' : @World model_tokio,
    run_env noon (@handle_message canonical_order model_tokio client_addr (lit "bo") 0%Z (lit "hi"))
      false one_client = Some (Ok tt, false, w') ∧
    last (entries (history w')) = Some (lit "[bo](12:00): hi").
Proof.
  destruct (@handle_message_functional canonical_order model_tokio noon client_addr (lit "bo") 0%Z
    (lit "hi") one_client) as [E Hok].
  - apply one_client_inv.
  - split; [reflexivity|]. vm_compute. lia.
  - by vm_compute.
  - vm_compute. lia.
  - destruct Hok as (w' & Erun & _ & Hlast); [vm_compute; reflexivity|].
    exists w'. split.
    + rewrite E. exact Erun.
    + rewrite Hlast. vm_compute. reflexivity.
Defined.

