(* ===== verification/ClientNet.v ===== *)
(** The network half of the client ([crates/client/src/network.rs]): what it sends, and the
    reader thread that turns the server's frames into events for the user interface.  The
    bounded event channel blocks when it is full, so the events sent are the events
    received; the socket is the trace of [Frame]. *)
From S2P Require Import Prelude Utf8 Text Frame Presence.

(** ** Data *)

Inductive NetworkEvent :=
  | Message (text : str)
  | UserList (users : list str)
  | Disconnected (reason : str).

(** [std::io::Error]: its kind and its text. *)
Record io_error := mk_io_error { error_kind : ErrorKind; error_text : str }.

(** ** Sending *)

Definition message_too_large : io_error := mk_io_error InvalidInput (lit "message is too large").
Definition username_too_large : io_error :=
  mk_io_error InvalidInput (lit "username is too large").

Definition encode_chat_frame (message : str) : result io_error (list u8) :=
  if (MAX_CHAT_MESSAGE_BYTES <? Z.of_nat (blen message))%Z then Err message_too_large
  else map_err (λ _, message_too_large) (encode_frame Chat (as_bytes message)).

(** The first bytes a client sends ([ClientConnection::connect]). *)
Definition handshake_bytes (username : str) : result io_error (list u8) :=
  map_err (λ _, username_too_large) (encode_frame Handshake (as_bytes username)).

(** What the operating system answers while a client connects. *)
Record TcpStream := mk_TcpStream {
  tcp_connect : str → result io_error unit;
  try_clone : result io_error unit;
  write_handshake : list u8 → result io_error unit }.

(** [ClientConnection::connect]: what has been written once it is up.  The reader thread it
    starts is [reader_loop]. *)
Definition connect (tcp : TcpStream) (username connect_addr : str) : result io_error (list u8) :=
  _ ← tcp_connect tcp connect_addr;
  _ ← try_clone tcp;
  handshake ← handshake_bytes username;
  _ ← write_handshake tcp handshake;
  Ok handshake.

(** A socket's [write_all]: everything is sent, or an error comes after some bytes. *)
Definition WriteAll : Type := list u8 → result (nat * io_error) unit.

(** [send_message]: its result, and what has gone out. *)
Definition send_message (write_all : WriteAll) (message : str)
  : result io_error unit * list u8 :=
  match encode_chat_frame message with
  | Err error => (Err error, [])
  | Ok frame =>
      match write_all frame with
      | Ok _ => (Ok tt, frame)
      | Err (n, error) => (Err error, take n frame)
      end
  end.

Definition is_disconnect_error (e : io_error) : bool :=
  match error_kind e with
  | BrokenPipe | ConnectionAborted | ConnectionReset => true
  | _ => false
  end.

(** ** Receiving *)

(** The events a frame gives, and whether the reader goes on. *)
Definition process_frame (frame : Frame) : list NetworkEvent * bool :=
  match kind frame with
  | Chat =>
      match from_utf8 (payload frame) with
      | None => ([Disconnected (lit "server sent invalid UTF-8 chat payload")], false)
      | Some message => (if is_empty (trim message) then [] else [Message message], true)
      end
  | Presence =>
      match parse_presence (payload frame) with
      | None => ([Disconnected (lit "server sent an invalid presence payload")], false)
      | Some users => ([UserList users], true)
      end
  | Handshake => ([Disconnected (lit "server sent an unexpected handshake frame")], false)
  end.

Lemma connect_Ok tcp username connect_addr handshake :
  connect tcp username connect_addr = Ok handshake → handshake_bytes username = Ok handshake.
Proof.
  unfold connect. destruct (tcp_connect tcp _); [|done]. destruct (try_clone tcp); [|done].
  cbn [mbind result_bind]. destruct (handshake_bytes username) as [hs|]; [|done].
  cbn [mbind result_bind]. by destruct (write_handshake tcp hs).
Qed.

(** A connection on which everything works. *)
Definition open_connection : TcpStream := mk_TcpStream (λ _, Ok tt) (Ok tt) (λ _, Ok tt).

Section Reader.
(** The derived [Debug] text of an error. *)
Context (debug : FrameError → str).

(** The reader thread; [None] when the fuel runs out. *)
Fixpoint reader_loop (fuel : nat) (r : reader) : option (list NetworkEvent) :=
  match fuel with
  | O => None
  | S fuel =>
      match read_frame r with
      | (Ok (Some frame), r) =>
          match process_frame frame with
          | (events, true) => app events <$> reader_loop fuel r
          | (events, false) => Some events
          end
      | (Ok None, _) => Some [Disconnected (lit "server disconnected")]
      | (Err e, _) => Some [Disconnected (lit "connection error: " ++ debug e)]
      end
  end.

(** ** Lemmas *)

Definition is_disconnected (e : NetworkEvent) : bool :=
  match e with Disconnected _ => true | _ => false end.

Lemma process_frame_shape frame :
  (∃ reason, process_frame frame = ([Disconnected reason], false)) ∨
  (∃ events, process_frame frame = (events, true) ∧
    Forall (λ e, is_disconnected e = false) events).
Proof.
  unfold process_frame. destruct (kind frame); [eauto| |].
  - destruct (from_utf8 (payload frame)) as [m|]; [|eauto]. right.
    destruct (is_empty (trim m)); eexists; (split; [done|]); by repeat constructor.
  - destruct (parse_presence (payload frame)) as [us|]; [|eauto]. right.
    eexists. split; [done|]. by repeat constructor.
Qed.

(** Each frame takes at least its header off the trace. *)
Lemma read_frame_shrinks r f r' :
  read_frame r = (Ok (Some f), r') → length (contents r') < length (contents r).
Proof.
  intros Hr. pose proof (read_frame_wire r f r' Hr) as E.
  destruct (encode_frame (kind f) (payload f)) as [e|] eqn:Ee; [|done]. cbn in E.
  injection E as <-. apply encode_frame_Ok in Ee as [-> _].
  rewrite !length_app, length_frame_header. unfold FRAME_HEADER_BYTES. lia.
Qed.

Lemma reader_loop_shape fuel r :
  length (contents r) < fuel →
  ∃ events reason, reader_loop fuel r = Some (events ++ [Disconnected reason]) ∧
    Forall (λ e, is_disconnected e = false) events.
Proof.
  revert r. induction fuel as [|fuel IH]; intros r Hf; [lia|]. cbn [reader_loop].
  destruct (read_frame r) as [[[frame|]|e] r'] eqn:Er.
  - apply read_frame_shrinks in Er.
    destruct (process_frame_shape frame) as [[reason E]|(events & E & Hev)]; rewrite E.
    + by exists [], reason.
    + destruct (IH r') as (es & reason & -> & Hes); [lia|]. cbn [fmap option_fmap option_map].
      exists (events ++ es), reason. split; [by rewrite (assoc_L (++))|by apply Forall_app].
  - by exists [], (lit "server disconnected").
  - by exists [], (lit "connection error: " ++ debug e).
Qed.

(** The events of a list of frames the server sends. *)
Definition frame_events (f : FrameType * list u8) : list NetworkEvent :=
  fst (process_frame (mk_Frame CURRENT_PROTOCOL_VERSION (fst f) (snd f))).

Definition server_frame (f : FrameType * list u8) : bool :=
  snd (process_frame (mk_Frame CURRENT_PROTOCOL_VERSION (fst f) (snd f))).

Lemma reader_loop_encoded fs r :
  Forall (λ f, server_frame f = true ∧ (zlen (snd f) <= MAX_FRAME_PAYLOAD_BYTES)%Z) fs →
  clean r = true → contents r = encode_all fs →
  reader_loop (S (length fs)) r =
    Some (concat (map frame_events fs) ++ [Disconnected (lit "server disconnected")]).
Proof.
  intros Hfs. revert r. induction Hfs as [|[k p] fs [Hsf Hp] Hfs IH]; intros r Hr Hc.
  - pose proof (read_frame_parse r Hr) as H. rewrite Hc in H. cbn in H.
    destruct H as (r' & H). cbn [reader_loop length]. by rewrite H.
  - cbn [encode_all mbind list_bind] in Hc. pose proof (read_frame_parse r Hr) as H.
    cbn [snd] in Hp. rewrite Hc, parse_frame_encoded in H by done.
    destruct H as (r' & H & Hr' & Hc').
    specialize (IH r' Hr' Hc'). remember (S (length fs)) as n eqn:Hn.
    cbn [length]. rewrite <-Hn. cbn [reader_loop]. rewrite H.
    unfold server_frame, frame_events in *. cbn [fst snd map concat] in *.
    destruct (process_frame _) as [events b]. cbn [fst snd] in *. rewrite Hsf, IH.
    cbn. by rewrite <-(assoc_L (++)).
Qed.

(** ** Properties *)

(** C31: the reader thread ends, and says so exactly once.  Whatever bytes and failures the
    socket carries, the thread sends finitely many events; the last one reports the
    disconnection, and no other does. *)
Theorem reader_reports_end_once r :
  ∃ events reason, reader_loop (S (length (contents r))) r =
      Some (events ++ [Disconnected reason]) ∧
    Forall (λ e, is_disconnected e = false) events.
Proof. apply reader_loop_shape. lia. Qed.

(** The client shows what the server sent: from the encodings of any chat and presence
    frames it accepts, cut into chunks in any way, the events are those of the frames in
    their order, none lost, then the end of the connection. *)
Theorem reader_shows_server_frames fs r :
  Forall (λ f, server_frame f = true ∧ (zlen (snd f) <= MAX_FRAME_PAYLOAD_BYTES)%Z) fs →
  clean r = true → contents r = encode_all fs →
  reader_loop (S (length fs)) r =
    Some (concat (map frame_events fs) ++ [Disconnected (lit "server disconnected")]).
Proof. apply reader_loop_encoded. Qed.
End Reader.

Lemma reader_shows_server_frames_witness :
  reader_loop (λ _, []) 3
    (map (λ b, Data [b]) (encode_all [(Chat, as_bytes (lit "hi")); (Chat, as_bytes (lit " "))])) =
  Some [Message (lit "hi"); Disconnected (lit "server disconnected")].
Proof.
  apply (reader_shows_server_frames (λ _, [])
    [(Chat, as_bytes (lit "hi")); (Chat, as_bytes (lit " "))]).
  - repeat constructor; vm_compute; done.
  - vm_compute. reflexivity.
  - vm_compute. reflexivity.
Defined.
