(* ===== verification/Tests.v ===== *)
(** The repository's own unit tests of the protocol, the configuration and the client
    ([mod tests] of [crates/protocol/src/lib.rs], [crates/config/src/lib.rs] and
    [crates/client/src/network.rs]) as executable definitions over the model: each test is
    the conjunction of its assertions, [unwrap] an assertion too.  That they hold here says
    that the model does what the authors check of the code.  The command line's tests are not
    here: they test the parser clap derives. *)
From Stdlib Require Import Strings.Byte.
From S2P Require Import Prelude Utf8 Text Frame Presence ChatText Config ClientNet.

(** [assert_eq!] *)
Definition eqb {A} `{EqDecision A} (x y : A) : bool := bool_decide (x = y).

(** [Cursor::new(bytes)] *)
Definition cursor (bytes : list u8) : reader := [Data bytes].

(** A transport that delivers at most [n] bytes at a time ([ChunkedReader]); the header and
    the payloads of the test that uses it are multiples of [n]. *)
Fixpoint chunked (fuel n : nat) (bytes : list u8) : reader :=
  match fuel, bytes with
  | S fuel, _ :: _ => Data (take n bytes) :: chunked fuel n (drop n bytes)
  | _, _ => []
  end.

Definition ascii (s : string) : list u8 := as_bytes (lit s).
Definition esc : char := chr 27.
Definition newline_char : char := chr 10.
Definition byte (z : Z) : u8 := u8_of_Z z.

(** ** [crates/protocol] *)

Definition hello_world : list u8 :=
  as_bytes (lit "hello" ++ [newline_char] ++ lit "world").

Definition encodes_and_decodes_typed_frames : bool :=
  match encode_frame Chat hello_world with
  | Ok encoded =>
      match fst (read_frame (cursor encoded)) with
      | Ok (Some decoded) =>
          eqb (version decoded) CURRENT_PROTOCOL_VERSION && eqb (kind decoded) Chat &&
          eqb (payload decoded) hello_world
      | _ => false
      end
  | Err _ => false
  end.

(** ["x€"], in UTF-8 *)
Definition x_euro : list u8 := as_bytes [chr 0x78; chr 0x20AC].

Definition reads_frames_when_transport_returns_partial_chunks : bool :=
  match encode_frame Chat x_euro with
  | Ok encoded =>
      match read_frame (chunked (length encoded) 2 encoded) with
      | (Ok (Some decoded), r) =>
          eqb (payload decoded) x_euro && eqb (fst (read_frame r)) (Ok None)
      | _ => false
      end
  | Err _ => false
  end.

Definition rejects_unsupported_versions_and_unknown_types : bool :=
  eqb (fst (read_frame (cursor [byte 9; FrameType_as_u8 Chat; byte 0; byte 0; byte 0; byte 0])))
    (Err (UnsupportedVersion (byte 9))) &&
  eqb (fst (read_frame (cursor [CURRENT_PROTOCOL_VERSION; byte 99; byte 0; byte 0; byte 0; byte 0])))
    (Err (UnknownType (byte 99))).

Definition rejects_truncated_and_oversized_frames : bool :=
  eqb (fst (read_frame (cursor ([CURRENT_PROTOCOL_VERSION; FrameType_as_u8 Chat;
    byte 0; byte 0; byte 0; byte 3] ++ ascii "x")))) (Err Truncated) &&
  (let too_large := repeat (byte 0) (Z.to_nat (MAX_FRAME_PAYLOAD_BYTES + 1)) in
   eqb (encode_frame Chat too_large) (Err (TooLarge (zlen too_large)))) &&
  eqb (fst (read_frame (cursor [CURRENT_PROTOCOL_VERSION; FrameType_as_u8 Chat;
    byte 0; byte 0; byte 0x40; byte 1])))
    (Err (TooLarge (MAX_FRAME_PAYLOAD_BYTES + 1))).

Definition distinguishes_clean_eof_from_truncated_header : bool :=
  eqb (fst (read_frame (cursor []))) (Ok None) &&
  eqb (fst (read_frame (cursor [CURRENT_PROTOCOL_VERSION; FrameType_as_u8 Chat])))
    (Err Truncated).

(** [encode_presence], a frame read back, and [parse_presence] of its payload. *)
Definition presence_comes_back (users : list str) : bool :=
  match encode_presence users with
  | Ok frame =>
      match fst (read_frame (cursor frame)) with
      | Ok (Some decoded) =>
          eqb (kind decoded) Presence && eqb (parse_presence (payload decoded)) (Some users)
      | _ => false
      end
  | Err _ => false
  end.

Definition encodes_and_parses_presence_without_a_reserved_prefix : bool :=
  presence_comes_back [lit "alice,ops"; lit "bob"].

Definition supports_presence_payloads_larger_than_chat_messages : bool :=
  presence_comes_back [repeat (chr 0x78) 4096].

Definition encodes_and_parses_empty_presence : bool := presence_comes_back [].

Definition rejects_malformed_presence_payloads : bool :=
  eqb (parse_presence []) None &&
  eqb (parse_presence [byte 0; byte 1; byte 0]) None &&
  eqb (parse_presence ([byte 0; byte 0; byte 0; byte 1] ++ ascii "aextra")) None.

Definition rejects_invalid_usernames_in_presence_payloads : bool :=
  forallb (λ user, eqb (encode_presence [user]) (Err InvalidUsername))
    [[]; lit "alice" ++ [newline_char] ++ lit "admin"; lit "alice" ++ [esc] ++ lit "[2J"].

Definition formats_and_parses_chat_message : bool :=
  let message := format_chat_message (lit "alice") (lit "12:34") (lit "hello") in
  eqb (parse_chat_message message) (Val (Some (lit "alice", lit "12:34", lit "hello"))) &&
  eqb message (lit "[alice](12:34): hello").

Definition rejects_invalid_chat_message_shape : bool :=
  forallb (λ m, eqb (parse_chat_message (lit m)) (Val None))
    ["alice(12:34): hello"%string; "[alice](12:34 hello"%string; "[alice] 12:34: hello"%string].

#[local] Existing Instance latin_tables.

Definition detects_mentions_with_word_boundary : bool :=
  forallb (λ m, eqb (message_mentions_user (lit m) (lit "alice")) (Val true))
    ["hello @alice"%string; "@alice, are you there?"%string].

Definition rejects_partial_mentions : bool :=
  forallb (λ m, eqb (message_mentions_user (lit m) (lit "alice")) (Val false))
    ["hello @alice1"%string; "hello @alice_name"%string; "hello alice"%string].

Definition rejects_usernames_with_control_characters : bool :=
  forallb (λ name, negb (is_valid_username name))
    [lit "alice" ++ [esc] ++ lit "[2J"; lit "alice" ++ [newline_char] ++ lit "admin";
     lit "alice" ++ [chr 13] ++ lit "admin"; lit "alice" ++ [chr 9] ++ lit "admin"].

Definition accepts_usernames_with_printable_characters : bool :=
  is_valid_username (lit "alice_42") && is_valid_username (lit "caf" ++ [chr 0xE9]).

(** ** [crates/config] *)

Definition default_server_config_values_are_stable : bool :=
  let config := for_server None None in
  eqb (bind_addr config) (lit "127.0.0.1:7878") &&
  eqb (connect_addr config) (lit "127.0.0.1:7878") &&
  eqb (simulated_latency config) (from_millis 0).

Definition applies_server_overrides : bool :=
  let config := for_server (Some (lit "127.0.0.1:9000")) (Some 25%Z) in
  eqb (bind_addr config) (lit "127.0.0.1:9000") &&
  eqb (simulated_latency config) (from_millis 25).

Definition applies_client_connection_override : bool :=
  eqb (connect_addr (for_client (Some (lit "chat.example.com:7878"))))
    (lit "chat.example.com:7878").

(** ** [crates/client] *)

(** The reader stops, and the one event says why. *)
Definition disconnects_with (k : FrameType) (payload : list u8) (reason : str) : bool :=
  match process_frame (mk_Frame (byte 1) k payload) with
  | ([Disconnected r], false) => eqb r reason
  | _ => false
  end.

Definition disconnects_on_invalid_chat_utf8 : bool :=
  disconnects_with Chat [byte 0xff] (lit "server sent invalid UTF-8 chat payload").

Definition disconnects_on_malformed_presence_payload : bool :=
  disconnects_with Presence [byte 0; byte 1; byte 0]
    (lit "server sent an invalid presence payload").

Definition disconnects_on_unexpected_handshake_frame : bool :=
  disconnects_with Handshake (ascii "alice") (lit "server sent an unexpected handshake frame").

Definition rejects_chat_messages_over_the_wire_limit_before_encoding : bool :=
  match encode_chat_frame (repeat (chr 0x78) (Z.to_nat (MAX_CHAT_MESSAGE_BYTES + 1))) with
  | Err e => eqb (error_kind e) InvalidInput
  | Ok _ => false
  end.

(** ** They pass *)

Lemma protocol_tests_pass :
  forallb id
    [encodes_and_decodes_typed_frames;
     reads_frames_when_transport_returns_partial_chunks;
     rejects_unsupported_versions_and_unknown_types;
     rejects_truncated_and_oversized_frames;
     distinguishes_clean_eof_from_truncated_header;
     encodes_and_parses_presence_without_a_reserved_prefix;
     supports_presence_payloads_larger_than_chat_messages;
     encodes_and_parses_empty_presence;
     rejects_malformed_presence_payloads;
     rejects_invalid_usernames_in_presence_payloads;
     formats_and_parses_chat_message;
     rejects_invalid_chat_message_shape;
     detects_mentions_with_word_boundary;
     rejects_partial_mentions;
     rejects_usernames_with_control_characters;
     accepts_usernames_with_printable_characters] = true.
Proof. vm_compute. reflexivity. Qed.

Lemma config_tests_pass :
  forallb id
    [default_server_config_values_are_stable; applies_server_overrides;
     applies_client_connection_override] = true.
Proof. vm_compute. reflexivity. Qed.

Lemma client_tests_pass :
  forallb id
    [disconnects_on_invalid_chat_utf8; disconnects_on_malformed_presence_payload;
     disconnects_on_unexpected_handshake_frame;
     rejects_chat_messages_over_the_wire_limit_before_encoding] = true.
Proof. vm_compute. reflexivity. Qed.
