(* ===== verification/ClientApp.v ===== *)
(** The state of the chat client and its operations ([crates/client/src/app.rs]).  Indexing
    the candidate list and slicing the input panic in Rust when they are out of range; here
    they are [Panic], and the invariant of [Tui] shows it is never reached. *)
From S2P Require Import Prelude Utf8 Text ChatText.

(** ** Data *)

Definition MESSAGE_LIMIT : nat := 300.

Inductive MessageState := Pending | Confirmed.

#[export] Instance MessageState_eq_dec : EqDecision MessageState.
Proof. solve_decision. Defined.

Record ChatMessage := mk_ChatMessage { text : str; state : MessageState }.

Record ChatApp := mk_ChatApp {
  username : str;
  input : str;
  messages : list ChatMessage;
  connected_users : list str;
  mention_selection : nat;
  connected : bool;
  exit_notice : option str;
  should_quit : bool }.

(** ** Operations *)

Definition system (s : str) : str := lit "[system] " ++ s.

Definition new_app (name server_addr : str) : ChatApp :=
  mk_ChatApp name []
    [mk_ChatMessage (system (lit "Connected to " ++ server_addr)) Confirmed;
     mk_ChatMessage (system (lit "Type a message and press Enter.")) Confirmed]
    [name] 0 true None false.

Definition set_input (s : str) (app : ChatApp) : ChatApp :=
  mk_ChatApp (username app) s (messages app) (connected_users app) (mention_selection app)
    (connected app) (exit_notice app) (should_quit app).
Definition set_messages (l : list ChatMessage) (app : ChatApp) : ChatApp :=
  mk_ChatApp (username app) (input app) l (connected_users app) (mention_selection app)
    (connected app) (exit_notice app) (should_quit app).
Definition set_connected_users (l : list str) (app : ChatApp) : ChatApp :=
  mk_ChatApp (username app) (input app) (messages app) l (mention_selection app)
    (connected app) (exit_notice app) (should_quit app).
Definition set_mention_selection (n : nat) (app : ChatApp) : ChatApp :=
  mk_ChatApp (username app) (input app) (messages app) (connected_users app) n
    (connected app) (exit_notice app) (should_quit app).
Definition set_connected (b : bool) (app : ChatApp) : ChatApp :=
  mk_ChatApp (username app) (input app) (messages app) (connected_users app)
    (mention_selection app) b (exit_notice app) (should_quit app).
Definition set_exit_notice (o : option str) (app : ChatApp) : ChatApp :=
  mk_ChatApp (username app) (input app) (messages app) (connected_users app)
    (mention_selection app) (connected app) o (should_quit app).
Definition set_should_quit (b : bool) (app : ChatApp) : ChatApp :=
  mk_ChatApp (username app) (input app) (messages app) (connected_users app)
    (mention_selection app) (connected app) (exit_notice app) b.

Definition push_message (message : str) (st : MessageState) (app : ChatApp) : ChatApp :=
  let l := messages app ++ [mk_ChatMessage message st] in
  set_messages (if MESSAGE_LIMIT <? length l then drop (length l - MESSAGE_LIMIT) l else l) app.

Definition is_pending (message : str) (entry : ChatMessage) : bool :=
  bool_decide (text entry = message) && bool_decide (state entry = Pending).

(** [confirm_message]: the first pending entry with that text becomes confirmed. *)
Definition confirm_message (message : str) (app : ChatApp) : option ChatApp :=
  if existsb (is_pending message) (messages app) then
    Some (set_messages (alter_first (is_pending message)
      (λ entry, mk_ChatMessage (text entry) Confirmed) (messages app)) app)
  else None.

Definition receive_message (message : str) (app : ChatApp) : ChatApp :=
  match confirm_message message app with
  | Some app => app
  | None => push_message message Confirmed app
  end.

(** [active_mention_query]: the text after the last [@], when it is a word being typed. *)
Definition active_mention_query (s : str) : exec (option str) :=
  match rfind at_sign s with
  | None => Val None
  | Some at_index =>
      match get_from s (at_index + 1) with
      | None => Val None
      | Some mention =>
          if contains_char is_whitespace mention then Val None
          else if 0 <? at_index then
            before ← index_to s at_index;
            Val (previous ← last before;
                 if is_whitespace previous then Some mention else None)
          else Val (Some mention)
      end
  end.

Definition mention_candidates (app : ChatApp) : exec (list str) :=
  query ← active_mention_query (input app);
  match query with
  | None => Val []
  | Some query =>
      let query_lower := to_ascii_lowercase query in
      Val (List.filter (λ user, starts_with query_lower (to_ascii_lowercase user))
        (connected_users app))
  end.

Definition update_connected_users (users : list str) (app : ChatApp) : exec ChatApp :=
  let app := set_connected_users users app in
  candidates ← mention_candidates app;
  let candidates_len := length candidates in
  Val (if candidates_len =? 0 then set_mention_selection 0 app
       else if candidates_len <=? mention_selection app
       then set_mention_selection (candidates_len - 1) app else app).

Definition begin_shutdown (reason : str) (app : ChatApp) : ChatApp :=
  set_exit_notice (Some reason)
    (push_message (system reason) Confirmed (set_connected false app)).

Definition mark_offline (reason : str) (app : ChatApp) : ChatApp :=
  push_message (system reason) Confirmed (set_connected false app).

Definition append_input (c : char) (app : ChatApp) : ChatApp :=
  set_mention_selection 0 (set_input (input app ++ [c]) app).

Definition pop_input (app : ChatApp) : ChatApp :=
  set_mention_selection 0 (set_input (removelast (input app)) app).

Definition take_input (app : ChatApp) : str * ChatApp :=
  (trim (input app), set_input [] app).

Definition has_exit_notice (app : ChatApp) : bool :=
  match exit_notice app with Some _ => true | None => false end.

Definition select_previous_mention (app : ChatApp) : exec ChatApp :=
  candidates ← mention_candidates app;
  Val (if is_empty candidates then app
       else if mention_selection app =? 0
       then set_mention_selection (length candidates - 1) app
       else set_mention_selection (mention_selection app - 1) app).

Definition select_next_mention (app : ChatApp) : exec ChatApp :=
  candidates ← mention_candidates app;
  Val (if is_empty candidates then app
       else set_mention_selection ((mention_selection app + 1) mod length candidates) app).

Definition apply_selected_mention (app : ChatApp) : exec ChatApp :=
  candidates ← mention_candidates app;
  if is_empty candidates then Val app
  else
    mention ← unwrap (candidates !! mention_selection app);
    match rfind at_sign (input app) with
    | None => Val app
    | Some at_index =>
        s ← truncate (input app) at_index;
        Val (set_mention_selection 0
          (set_input (s ++ [at_sign] ++ mention ++ lit " ") app))
    end.

Definition message_mentions_current_user `{UnicodeTables} (s : str) (app : ChatApp) : exec bool :=
  message_mentions_user s (username app).

(** ** The query being typed *)

(** What is being completed: a word after an [@] that starts the input or follows white
    space. *)
Definition query_of (s : str) : option str :=
  match active_mention_query s with Val q => q | Panic => None end.

Lemma active_mention_query_eq s :
  (at_sign ∉ s ∧ active_mention_query s = Val None) ∨
  ∃ before query, s = before ++ at_sign :: query ∧ at_sign ∉ query ∧
    active_mention_query s = Val (
      if contains_char is_whitespace query then None
      else match last before with
           | Some c => if is_whitespace c then Some query else None
           | None => Some query
           end).
Proof.
  unfold active_mention_query. destruct (rfind at_sign s) as [i|] eqn:E.
  2: { left. split; [by apply rfind_None|done]. }
  right. apply rfind_Some in E as (before & query & -> & <- & Hq).
  exists before, query. split_and!; [done|done|].
  assert (get_from (before ++ at_sign :: query) (blen before + 1) = Some query) as ->.
  { change (before ++ at_sign :: query) with (before ++ [at_sign] ++ query).
    rewrite (assoc_L (++)). replace (blen before + 1) with (blen (before ++ [at_sign])).
    - apply get_from_app.
    - by rewrite blen_app. }
  destruct (contains_char is_whitespace query); [done|].
  destruct (Nat.ltb_spec 0 (blen before)) as [Hlt|Hge].
  - rewrite index_to_app. cbn [mbind exec_bind].
    destruct (last before) eqn:El; [done|].
    apply last_None in El as ->. rewrite blen_nil in Hlt. lia.
  - rewrite (blen_zero before) by lia. done.
Qed.

Lemma active_mention_query_total s : active_mention_query s = Val (query_of s).
Proof.
  unfold query_of. destruct (active_mention_query_eq s) as [[_ ->]|(? & ? & _ & _ & ->)]; done.
Qed.

Lemma query_of_split s query :
  query_of s = Some query → ∃ before, s = before ++ at_sign :: query ∧ at_sign ∉ query.
Proof.
  unfold query_of. destruct (active_mention_query_eq s) as [[_ ->]|(before & q & -> & Hq & ->)];
    [done|]. intros E. exists before.
  assert (q = query) as ->; [|done].
  destruct (contains_char is_whitespace q); [done|].
  destruct (last before) as [c|]; [destruct (is_whitespace c)|]; congruence.
Qed.

Definition candidates (app : ChatApp) : list str :=
  match query_of (input app) with
  | None => []
  | Some query =>
      List.filter (λ user, starts_with (to_ascii_lowercase query) (to_ascii_lowercase user))
        (connected_users app)
  end.

(** Computing the candidates never panics. *)
Lemma mention_candidates_eq app : mention_candidates app = Val (candidates app).
Proof.
  unfold mention_candidates, candidates. rewrite active_mention_query_total.
  cbn [mbind exec_bind]. by destruct (query_of (input app)).
Qed.

Lemma query_of_nil : query_of [] = None.
Proof. done. Qed.

(** ** Invariant *)

(** The selection is inside the candidate list, the list of messages is bounded and has no
    pending entry, and a client that is offline shows its exit notice. *)
Record app_ok (app : ChatApp) : Prop := {
  ok_selection : candidates app ≠ [] → mention_selection app < length (candidates app);
  ok_messages : length (messages app) ≤ MESSAGE_LIMIT;
  ok_confirmed : Forall (λ m, state m = Confirmed) (messages app);
  ok_offline : connected app = false → has_exit_notice app = true }.

Lemma new_app_ok name addr : app_ok (new_app name addr).
Proof.
  split; cbn; try done.
  - unfold MESSAGE_LIMIT. lia.
  - by repeat constructor.
Qed.

(** The shown messages are the last three hundred. *)
Lemma push_message_messages m st app :
  messages (push_message m st app) =
    lastn MESSAGE_LIMIT (messages app ++ [mk_ChatMessage m st]).
Proof.
  unfold push_message. cbn [messages set_messages]. destruct (Nat.ltb_spec MESSAGE_LIMIT
    (length (messages app ++ [mk_ChatMessage m st]))); [done|]. by rewrite lastn_all.
Qed.

Lemma push_message_confirmed_ok m app :
  length (messages (push_message m Confirmed app)) ≤ MESSAGE_LIMIT ∧
  (Forall (λ m, state m = Confirmed) (messages app) →
   Forall (λ m, state m = Confirmed) (messages (push_message m Confirmed app))).
Proof.
  rewrite push_message_messages. split; [rewrite length_lastn; lia|].
  intros Hf. apply Forall_drop, Forall_app. split; [done|]. by constructor.
Qed.

Lemma push_message_ok m app : app_ok app → app_ok (push_message m Confirmed app).
Proof.
  intros []. destruct (push_message_confirmed_ok m app). by split; auto.
Qed.

Lemma no_pending m app : app_ok app → confirm_message m app = None.
Proof.
  intros Ha. unfold confirm_message. destruct (existsb _ _) eqn:E; [|done].
  apply existsb_exists in E as (x & Hx & [_ Hp]%andb_true_iff).
  apply bool_decide_eq_true in Hp. pose proof (ok_confirmed app Ha) as Hf.
  rewrite Forall_forall in Hf. apply list_elem_of_In in Hx. specialize (Hf x Hx). congruence.
Qed.

Lemma receive_message_ok m app : app_ok app → app_ok (receive_message m app).
Proof. intros Ha. unfold receive_message. rewrite no_pending by done. by apply push_message_ok. Qed.

Lemma begin_shutdown_ok reason app : app_ok app → app_ok (begin_shutdown reason app).
Proof.
  intros []. destruct (push_message_confirmed_ok (system reason) (set_connected false app)).
  by split; auto.
Qed.

Lemma update_connected_users_ok users app :
  app_ok app → ∃ app', update_connected_users users app = Val app' ∧ app_ok app' ∧
    connected_users app' = users ∧ messages app' = messages app ∧ input app' = input app.
Proof.
  intros []. unfold update_connected_users. rewrite mention_candidates_eq.
  cbn [mbind exec_bind]. set (app1 := set_connected_users users app).
  eexists. split; [reflexivity|].
  assert (∀ n, candidates (set_mention_selection n app1) = candidates app1) as Hc by done.
  destruct (Nat.eqb_spec (length (candidates app1)) 0) as [E|E]; [|
    destruct (Nat.leb_spec (length (candidates app1)) (mention_selection app1))];
    (split; [split|done]); try done; rewrite ?Hc; cbn [mention_selection set_mention_selection];
    intros Hne; try lia.
  destruct (candidates app1); [done|cbn in E; lia].
Qed.

(** Operations that reset the selection. *)
Lemma reset_selection_ok app s :
  app_ok app → app_ok (set_mention_selection 0 (set_input s app)).
Proof.
  intros []. split; try done. intros Hne.
  change (mention_selection (set_mention_selection 0 (set_input s app))) with 0.
  destruct (candidates (set_mention_selection 0 (set_input s app))) eqn:E; [by destruct Hne|].
  cbn. lia.
Qed.

Lemma set_selection_ok app n :
  app_ok app → (candidates app ≠ [] → n < length (candidates app)) →
  app_ok (set_mention_selection n app).
Proof. intros [] Hn. by split. Qed.

Lemma select_previous_ok app :
  app_ok app → ∃ app', select_previous_mention app = Val app' ∧ app_ok app'.
Proof.
  intros Ha. unfold select_previous_mention. rewrite mention_candidates_eq.
  cbn [mbind exec_bind]. eexists. split; [reflexivity|].
  pose proof (ok_selection app Ha) as Hsel. destruct (candidates app) as [|c l] eqn:E; [done|].
  cbn [is_empty]. specialize (Hsel ltac:(done)).
  destruct (Nat.eqb_spec (mention_selection app) 0); apply set_selection_ok; try done;
    rewrite E; intros _; lia.
Qed.

Lemma select_next_ok app :
  app_ok app → ∃ app', select_next_mention app = Val app' ∧ app_ok app'.
Proof.
  intros Ha. unfold select_next_mention. rewrite mention_candidates_eq.
  cbn [mbind exec_bind]. eexists. split; [reflexivity|].
  destruct (candidates app) as [|c l] eqn:E; [done|]. cbn [is_empty].
  apply set_selection_ok; [done|]. rewrite E. intros _. apply Nat.mod_upper_bound. done.
Qed.

(** [apply_selected_mention] on a state that satisfies the invariant. *)
Lemma apply_selected_mention_eq app :
  app_ok app →
  apply_selected_mention app = Val (
    match query_of (input app), candidates app !! mention_selection app with
    | Some query, Some mention =>
        set_mention_selection 0 (set_input
          (take (length (input app) - length query) (input app) ++ mention ++ lit " ") app)
    | _, _ => app
    end).
Proof.
  intros Ha. unfold apply_selected_mention. rewrite mention_candidates_eq.
  cbn [mbind exec_bind]. pose proof (ok_selection app Ha) as Hsel.
  unfold candidates in *. unfold query_of in *.
  destruct (active_mention_query_eq (input app)) as [[_ E]|(before & query & Ein & Hq & E)];
    rewrite E in *; [done|].
  destruct (if contains_char is_whitespace query then _ else _) as [q|] eqn:Eq; [|done].
  assert (q = query) as ->.
  { destruct (contains_char is_whitespace query); [done|].
    destruct (last before) as [c|]; [destruct (is_whitespace c)|]; congruence. }
  destruct (List.filter _ (connected_users app)) as [|c l] eqn:El; [done|].
  cbn [is_empty]. specialize (Hsel ltac:(done)).
  apply lookup_lt_is_Some_2 in Hsel as [mention Em]. rewrite Em. cbn [unwrap mbind exec_bind].
  rewrite Ein, (rfind_app at_sign before query Hq), truncate_app. cbn [mbind exec_bind].
  do 3 f_equal.
  assert (take (length (before ++ at_sign :: query) - length query) (before ++ at_sign :: query)
    = before ++ [at_sign]) as ->; [|by rewrite <-(assoc_L (++))].
  rewrite length_app. cbn [length].
  replace (length before + S (length query) - length query) with (length (before ++ [at_sign]))
    by (rewrite length_app; cbn; lia).
  change (before ++ at_sign :: query) with (before ++ [at_sign] ++ query).
  by rewrite (assoc_L (++)), take_app_length.
Qed.

(** A trailing blank ends the query. *)
Lemma query_of_blank s : query_of (s ++ lit " ") = None.
Proof.
  unfold query_of. destruct (active_mention_query_eq (s ++ lit " "))
    as [[_ ->]|(before & query & E & Hq & ->)]; [done|].
  assert (contains_char is_whitespace query = true) as ->; [|done].
  destruct query as [|c query _] using rev_ind.
  - change (lit " ") with [chr 32] in E. apply app_inj_2 in E as [_ E]; [done|done].
  - change (lit " ") with [chr 32] in E.
    rewrite app_comm_cons, (assoc_L (++)) in E. apply app_inj_2 in E as [_ [= <-]]; [|done].
    unfold contains_char. rewrite existsb_app. cbn. by rewrite orb_true_r.
Qed.
