(* ===== verification/Render.v ===== *)
(** What the terminal client draws ([crates/tui/src/components.rs], [theme.rs]): the text and
    style of each line, and the geometry the widgets are placed with.  Terminal output,
    wrapping and borders are the widget library's; a line is its styled spans. *)
From S2P Require Import Prelude Utf8 Text ChatText ClientApp.

(** ** Styles ([theme.rs]) *)

Inductive Color :=
  | Black | Red | Green | Yellow | Blue | Magenta | Cyan | Gray | DarkGray | White
  | Rgb (r g b : Z).

Record Style := mk_Style { fg : option Color; bg : option Color; bold : bool; dim : bool }.

Definition plain : Style := mk_Style None None false false.
Definition with_fg (c : Color) (s : Style) : Style := mk_Style (Some c) (bg s) (bold s) (dim s).
Definition with_bg (c : Color) (s : Style) : Style := mk_Style (fg s) (Some c) (bold s) (dim s).

Definition PASTEL_YELLOW : Color := Rgb 245 229 168.
Definition PASTEL_YELLOW_BORDER : Color := Rgb 226 208 140.

Definition brand_style : Style := mk_Style (Some Cyan) None true false.
Definition client_badge_style : Style := with_bg Green (with_fg Black plain).
Definition messages_border_style : Style := with_fg Blue plain.
Definition session_border_style : Style := with_fg Green plain.
Definition input_border_style : Style := with_fg PASTEL_YELLOW_BORDER plain.
Definition mention_selected_style : Style := with_bg PASTEL_YELLOW (with_fg Black plain).
Definition mention_plain_style : Style := with_fg White plain.
Definition system_message_style : Style := with_fg Magenta plain.
Definition username_style (pending : bool) : Style :=
  with_fg (if pending then Gray else Cyan) plain.
Definition timestamp_style : Style := mk_Style (Some DarkGray) None false true.
Definition body_style (pending : bool) : Style :=
  with_fg (if pending then Gray else White) plain.
Definition fallback_message_style (pending : bool) : Style :=
  if pending then with_fg Gray plain else plain.
Definition disconnected_title_style : Style := mk_Style (Some Red) None true false.
Definition disconnected_border_style : Style := with_fg Red plain.
Definition muted_style : Style := with_fg DarkGray plain.
Definition users_title_style : Style := mk_Style (Some Green) None true false.
Definition online_user_style : Style := with_fg Cyan plain.
Definition input_text_style : Style := with_fg White plain.

(** ** Lines *)

Record Span := mk_Span { content : str; style : Style }.
Definition Line := list Span.

(** The characters a line shows. *)
Definition line_text (l : Line) : str := concat (map content l).

Definition pending (m : ChatMessage) : bool := bool_decide (state m = Pending).

Section Lines.
Context `{UnicodeTables}.

Definition chat_message_line (m : ChatMessage) (app : ChatApp) (name timestamp body : str)
  : exec Line :=
  mention_highlight ← message_mentions_current_user body app;
  let user_style := username_style (pending m) in
  let body_style := body_style (pending m) in
  let mark s := with_bg PASTEL_YELLOW (with_fg Black s) in
  let '(user_style, time_style, colon_style, body_style) :=
    if mention_highlight : bool then
      (with_bg PASTEL_YELLOW user_style, with_bg PASTEL_YELLOW timestamp_style,
       mark body_style, mark body_style)
    else (user_style, timestamp_style, body_style, body_style) in
  Val [mk_Span (lit "[" ++ name ++ lit "]") user_style;
       mk_Span (lit "(" ++ timestamp ++ lit ")") time_style;
       mk_Span (lit ":") colon_style;
       mk_Span (lit " ") plain;
       mk_Span body body_style].

Definition fallback_line_style (m : ChatMessage) (app : ChatApp) : exec Style :=
  let fallback_style := fallback_message_style (pending m) in
  mentioned ← message_mentions_current_user (text m) app;
  Val (if mentioned : bool then with_bg PASTEL_YELLOW (with_fg Black fallback_style)
       else fallback_style).

Definition chat_line (m : ChatMessage) (app : ChatApp) : exec Line :=
  if starts_with (lit "[system]") (text m) then
    Val [mk_Span (text m) system_message_style]
  else
    parsed ← parse_chat_message (text m);
    match parsed with
    | Some (name, timestamp, body) => chat_message_line m app name timestamp body
    | None =>
        fallback_style ← fallback_line_style m app;
        Val [mk_Span (text m) fallback_style]
    end.

Fixpoint chat_lines (ms : list ChatMessage) (app : ChatApp) : exec (list Line) :=
  match ms with
  | [] => Val []
  | m :: ms => l ← chat_line m app; ls ← chat_lines ms app; Val (l :: ls)
  end.

Definition messages_text (app : ChatApp) : exec (list Line) := chat_lines (messages app) app.
End Lines.

Definition sidebar_text (app : ChatApp) : list Line :=
  [mk_Span (lit "users") users_title_style] ::
  (if is_empty (connected_users app) then
     [[mk_Span (lit "  nobody connected") muted_style]]
   else map (λ user, [mk_Span (lit "  ") plain; mk_Span user online_user_style])
     (connected_users app)).

(** ** Geometry, in 16-bit arithmetic *)

Record Rect := mk_Rect { x : Z; y : Z; width : Z; height : Z }.

Definition as_u16 (n : Z) : Z := n `mod` 65536.
Definition sat_sub (a b : Z) : Z := Z.max 0 (a - b).
Definition sat_add (a b : Z) : Z := Z.min U16_MAX (a + b).
(** Checked addition: an overflow panics. *)
Definition u16_add (a b : Z) : exec Z :=
  if decide (a + b <= U16_MAX)%Z then Val (a + b)%Z else Panic.

(** The number of lines the message panel is scrolled by. *)
Definition message_scroll_offset (lines : Z) (area : Rect) : Z :=
  as_u16 (sat_sub lines (sat_sub (height area) 1)).

(** [candidates.iter().map(|c| c.len() as u16 + 3).max().unwrap_or(12)] *)
Fixpoint max_width (cs : list str) : exec (option Z) :=
  match cs with
  | [] => Val None
  | c :: cs =>
      w ← u16_add (as_u16 (Z.of_nat (blen c))) 3;
      ws ← max_width cs;
      Val (Some (match ws with None => w | Some w' => Z.max w w' end))
  end.

(** The popup of [render_mention_popup]: its area and lines; [None] when there is none. *)
Definition mention_popup (app : ChatApp) (frame_area input_area : Rect)
  : exec (option (Rect * list Line)) :=
  candidates ← mention_candidates app;
  if is_empty candidates then Val None
  else
    popup_height ← u16_add (as_u16 (Z.of_nat (length candidates `min` 5))) 2;
    widest ← max_width candidates;
    below ← u16_add popup_height 1;
    let popup_width := Z.max (default 12%Z widest) 18 in
    let area := mk_Rect (x input_area) (sat_sub (y input_area) below)
      (Z.min popup_width (sat_sub (width frame_area) (x input_area))) popup_height in
    let lines := imap (λ index candidate,
      [mk_Span (lit "@" ++ candidate)
        (if decide (index = mention_selection app) then mention_selected_style
         else mention_plain_style)]) (take 5 candidates) in
    Val (Some (area, lines)).

(** Where [set_input_cursor] puts the cursor, in the inner area of the input panel. *)
Definition input_cursor (app : ChatApp) (inner : Rect) : Z * Z :=
  let cursor_x := sat_add (x inner) (as_u16 (zlen (input app))) in
  let max_cursor_x := sat_add (x inner) (sat_sub (width inner) 1) in
  (Z.min cursor_x max_cursor_x, y inner).

(** ** Lemmas *)

Section Lemmas.
Context `{UnicodeTables}.

Lemma mentions_total s app : ∃ b, message_mentions_current_user s app = Val b.
Proof.
  unfold message_mentions_current_user, message_mentions_user.
  destruct (mentions_from_spec [] s (username app)) as (r & E & _). eauto.
Qed.

Lemma chat_line_shows m app :
  ∃ l, chat_line m app = Val l ∧ line_text l = text m.
Proof.
  unfold chat_line. destruct (starts_with _ _).
  { eexists. split; [reflexivity|]. unfold line_text. cbn. by rewrite app_nil_r. }
  destruct (parse_chat_message_total (text m)) as (o & -> & Ho). cbn [mbind exec_bind].
  destruct o as [[[u t] b]|].
  - destruct (Ho u t b eq_refl) as [Hm _]. unfold chat_message_line.
    destruct (mentions_total b app) as [hl ->]. cbn [mbind exec_bind].
    destruct hl; (eexists; split; [reflexivity|]); unfold line_text; cbn [map content concat];
      rewrite Hm; unfold format_chat_message; rewrite <-!(assoc_L (++)), app_nil_r; reflexivity.
  - unfold fallback_line_style. destruct (mentions_total (text m) app) as [hl ->].
    cbn [mbind exec_bind]. eexists. split; [reflexivity|]. unfold line_text. cbn.
    by rewrite app_nil_r.
Qed.

Lemma chat_lines_total ms app :
  ∃ ls, chat_lines ms app = Val ls ∧ map line_text ls = map text ms.
Proof.
  induction ms as [|m ms (ls & E & Hls)]; [by exists []|].
  destruct (chat_line_shows m app) as (l & El & Hl). exists (l :: ls).
  cbn [chat_lines map]. rewrite El. cbn [mbind exec_bind]. rewrite E. cbn [mbind exec_bind].
  by rewrite Hl, Hls.
Qed.

(** ** Properties *)

(** A user can write system messages: a valid username that starts with [system\\]] turns
    every message of that user into a line the client shows as its own system notice,
    without name or time. *)
Theorem system_message_spoof name time content app st :
  chat_line (mk_ChatMessage
    (format_chat_message (lit "system]" ++ name) time content) st) app =
  Val [mk_Span (format_chat_message (lit "system]" ++ name) time content) system_message_style].
Proof. reflexivity. Qed.
End Lemmas.
