(* ===== verification/Screen.v ===== *)
(** The whole screen of the client ([crates/tui/src/layout.rs], [components.rs], [render] of
    [lib.rs]): what is drawn, where and in which order.  The solver that divides an area among
    constraints and the inner area of a border belong to the widget library: they are the
    class [Widgets], with the documented facts the code relies on in [WidgetsLaws]. *)
From S2P Require Import Prelude Utf8 Text ChatText ClientApp Render.

(** ** The widget library *)

Inductive Constraint := Length (n : Z) | Min (n : Z) | Percentage (n : Z).

Class Widgets := {
  split_vertical : list Constraint → Rect → list Rect;
  split_horizontal : list Constraint → Rect → list Rect;
  (** [Block::bordered().inner(area)] *)
  bordered_inner : Rect → Rect }.

(** A split gives one area per constraint. *)
Class WidgetsLaws `{Widgets} := {
  length_split_vertical cs area : length (split_vertical cs area) = length cs;
  length_split_horizontal cs area : length (split_horizontal cs area) = length cs }.

(** ** Layout *)

Record AppLayout := mk_AppLayout {
  header : Rect; messages_area : Rect; sidebar : Rect; input_area : Rect; footer : Rect }.

Definition u16_sub (a b : Z) : exec Z := if decide (b <= a)%Z then Val (a - b)%Z else Panic.

Section Layout.
Context `{Widgets}.

Definition AppLayout_new (area : Rect) : exec AppLayout :=
  let rows := split_vertical [Length 3; Min 8; Length 3; Length 2] area in
  row1 ← unwrap (rows !! 1);
  let body := split_horizontal [Percentage 72; Percentage 28] row1 in
  row0 ← unwrap (rows !! 0);
  body0 ← unwrap (body !! 0);
  body1 ← unwrap (body !! 1);
  row2 ← unwrap (rows !! 2);
  row3 ← unwrap (rows !! 3);
  Val (mk_AppLayout row0 body0 body1 row2 row3).

Definition centered_rect (area : Rect) (width_percent height_percent : Z) : exec Rect :=
  dv ← u16_sub 100 height_percent;
  let vertical := split_vertical
    [Percentage (dv `div` 2); Percentage height_percent; Percentage (dv `div` 2)] area in
  middle ← unwrap (vertical !! 1);
  dh ← u16_sub 100 width_percent;
  unwrap (split_horizontal
    [Percentage (dh `div` 2); Percentage width_percent; Percentage (dh `div` 2)] middle !! 1).
End Layout.

(** ** Drawing *)

Inductive Borders := NoBorders | Top | Bottom | All (title : str) (border : Style).

(** A paragraph as it is handed to the library. *)
Record Paragraph := mk_Paragraph {
  lines : list Line; borders : Borders; text_style : Style; scroll : Z;
  centered : bool; wrapped : bool }.

Inductive Drawn :=
  | Clear (area : Rect)
  | Draw (p : Paragraph) (area : Rect)
  | Cursor (position : Z * Z).

Definition raw (s : str) : Line := [mk_Span s plain].

Definition render_header (area : Rect) : list Drawn :=
  [Draw (mk_Paragraph
    [[mk_Span (lit "drocsid") brand_style; mk_Span (lit "  ") plain;
      mk_Span (lit "client") client_badge_style]] Bottom plain 0 true false) area].

Definition render_session_panel (app : ChatApp) (area : Rect) : list Drawn :=
  [Draw (mk_Paragraph (sidebar_text app) (All (lit "Session") session_border_style)
    plain 0 false true) area].

Definition render_input_panel (app : ChatApp) (area : Rect) : list Drawn :=
  [Draw (mk_Paragraph [raw (input app)] (All (lit "Input") input_border_style)
    input_text_style 0 false false) area].

Definition key_style : Style := mk_Style (Some Yellow) None true false.

Definition render_help_bar (area : Rect) : list Drawn :=
  [Draw (mk_Paragraph
    [[mk_Span (lit "Enter") key_style; mk_Span (lit " send  ") plain;
      mk_Span (lit "Tab") key_style; mk_Span (lit " mention  ") plain;
      mk_Span (lit "Esc") key_style; mk_Span (lit " quit  ") plain;
      mk_Span (lit "Ctrl+Q") key_style; mk_Span (lit " force quit") plain]]
    Top plain 0 false false) area].

Definition render_mention_popup (app : ChatApp) (frame_area area : Rect)
  : exec (list Drawn) :=
  popup ← mention_popup app frame_area area;
  Val (match popup with
       | None => []
       | Some (popup_area, ls) =>
           [Clear popup_area;
            Draw (mk_Paragraph ls (All (lit "Mention") input_border_style) plain 0 false true)
              popup_area]
       end).

Section Render.
Context `{UnicodeTables, Widgets}.

Definition render_messages_panel (app : ChatApp) (area : Rect) : exec (list Drawn) :=
  ls ← messages_text app;
  let scroll := message_scroll_offset (zlen ls) (bordered_inner area) in
  Val [Draw (mk_Paragraph ls (All (lit "Messages") messages_border_style)
         plain scroll false true) area].

Definition shutdown_lines (reason : str) : list Line :=
  [[mk_Span (lit "Server connection lost") disconnected_title_style]; raw [];
   raw reason; raw []; [mk_Span (lit "[ OK ]") mention_selected_style]; raw [];
   [mk_Span (lit "Press Enter to close") muted_style]].

Definition render_shutdown_popup (app : ChatApp) (frame_area : Rect) : exec (list Drawn) :=
  match exit_notice app with
  | None => Val []
  | Some reason =>
      popup_area ← centered_rect frame_area 50 20;
      Val [Clear popup_area;
           Draw (mk_Paragraph (shutdown_lines reason)
             (All (lit "Disconnected") disconnected_border_style) plain 0 true true) popup_area]
  end.

Definition set_input_cursor (app : ChatApp) (area : Rect) : list Drawn :=
  [Cursor (input_cursor app (bordered_inner area))].

(** [render]: later items are drawn over earlier ones. *)
Definition render (frame_area : Rect) (app : ChatApp) : exec (list Drawn) :=
  app_layout ← AppLayout_new frame_area;
  messages_panel ← render_messages_panel app (messages_area app_layout);
  mention_panel ← render_mention_popup app frame_area (input_area app_layout);
  shutdown_panel ← render_shutdown_popup app frame_area;
  Val ([Clear frame_area] ++ render_header (header app_layout) ++ messages_panel ++
       render_session_panel app (sidebar app_layout) ++
       render_input_panel app (input_area app_layout) ++
       render_help_bar (footer app_layout) ++ mention_panel ++ shutdown_panel ++
       set_input_cursor app (input_area app_layout)).
End Render.

(** ** Lemmas *)

(** The users a client can be told of: names that fit a presence frame, whose payload is at
    most 16 KiB. *)
Definition users_fit (app : ChatApp) : Prop :=
  Forall (λ u, (Z.of_nat (blen u) <= 16384)%Z) (connected_users app).

Lemma u16_add_Val a b : (a + b <= U16_MAX)%Z → u16_add a b = Val (a + b)%Z.
Proof. intros. unfold u16_add. by rewrite decide_True. Qed.

Lemma max_width_total cs :
  Forall (λ u, (Z.of_nat (blen u) <= 16384)%Z) cs →
  ∃ w, max_width cs = Val w ∧ (w = None ↔ cs = []) ∧
    ∀ z, w = Some z → (3 <= z <= 16387)%Z ∧
      Forall (λ u, (Z.of_nat (blen u) + 3 <= z)%Z) cs.
Proof.
  induction 1 as [|u cs Hu Hcs (w & IH & Hn & Hw)]; [by exists None|].
  cbn [max_width]. unfold as_u16. rewrite Z.mod_small by lia.
  rewrite u16_add_Val by (unfold U16_MAX; lia). cbn [mbind exec_bind]. rewrite IH.
  cbn [mbind exec_bind]. eexists. split; [reflexivity|]. split; [by split|].
  intros z [= <-]. destruct w as [w|].
  - destruct (Hw w eq_refl) as [Hb Hf]. split; [lia|]. constructor; [lia|].
    eapply Forall_impl; [exact Hf|]. cbn. intros. lia.
  - destruct Hn as [Hn _]. rewrite (Hn eq_refl). split; [lia|]. constructor; [lia|done].
Qed.

Lemma candidates_fit app :
  users_fit app → Forall (λ u, (Z.of_nat (blen u) <= 16384)%Z) (candidates app).
Proof.
  unfold users_fit, candidates. destruct (query_of (input app)); [|done].
  rewrite !Forall_forall. intros Hf u [Hin _]%list_elem_of_In%filter_In.
  apply Hf. by apply list_elem_of_In.
Qed.

(** The lines of the popup. *)
Definition popup_lines (app : ChatApp) : list Line :=
  imap (λ index candidate,
    [mk_Span (lit "@" ++ candidate)
      (if decide (index = mention_selection app) then mention_selected_style
       else mention_plain_style)]) (take 5 (candidates app)).

Lemma mention_popup_eq app frame_area area :
  users_fit app →
  (candidates app = [] ∧ mention_popup app frame_area area = Val None) ∨
  (candidates app ≠ [] ∧ ∃ w, (18 <= w <= 16387)%Z ∧
    Forall (λ u, (Z.of_nat (blen u) + 3 <= w)%Z) (candidates app) ∧
    let h := (Z.of_nat (length (candidates app) `min` 5) + 2)%Z in
    mention_popup app frame_area area = Val (Some
      (mk_Rect (x area) (sat_sub (y area) (h + 1))
         (Z.min w (sat_sub (width frame_area) (x area))) h, popup_lines app))).
Proof.
  intros Hf. unfold mention_popup. rewrite mention_candidates_eq. cbn [mbind exec_bind].
  destruct (is_empty (candidates app)) eqn:E; [left; by apply is_empty_nil in E|].
  right. apply is_empty_false in E. split; [done|].
  destruct (max_width_total _ (candidates_fit app Hf)) as (w & Hw & Hn & Hb). rewrite Hw.
  destruct w as [w|]; [|by destruct E; apply Hn].
  destruct (Hb w eq_refl) as [Hb1 Hb2].
  unfold as_u16. rewrite Z.mod_small by lia. rewrite u16_add_Val by (unfold U16_MAX; lia).
  cbn [mbind exec_bind]. rewrite u16_add_Val by (unfold U16_MAX; lia). cbn [mbind exec_bind].
  exists (Z.max w 18). split; [lia|]. split; [|reflexivity].
  eapply Forall_impl; [exact Hb2|]. cbn. intros. lia.
Qed.

Lemma popup_lines_selected app :
  Exists (λ l, ∃ s, l = [mk_Span s mention_selected_style]) (popup_lines app) ↔
  mention_selection app < length (candidates app) `min` 5.
Proof.
  unfold popup_lines. rewrite Exists_exists. split.
  - intros (l & Hin & s & ->). apply elem_of_lookup_imap in Hin as (i & c & [= _ E] & Hi).
    destruct (decide (i = mention_selection app)) as [<-|]; [|done].
    apply lookup_lt_Some in Hi. rewrite length_take in Hi. lia.
  - intros Hlt. destruct (lookup_lt_is_Some_2 (take 5 (candidates app)) (mention_selection app))
      as [c Hc]; [rewrite length_take; lia|].
    eexists. split; [|by eexists]. apply elem_of_lookup_imap.
    exists (mention_selection app), c. split; [|exact Hc]. by rewrite decide_True.
Qed.

Section Lemmas.
Context `{UnicodeTables, W : Widgets, !WidgetsLaws}.
#[local] Set Default Proof Using "Type*".

Lemma lookup_split {A} (l : list A) n i : length l = n → i < n → ∃ a, l !! i = Some a.
Proof. intros <- Hi. by apply lookup_lt_is_Some_2. Qed.

Lemma AppLayout_new_total area : ∃ l, AppLayout_new area = Val l.
Proof.
  unfold AppLayout_new.
  set (rows := split_vertical _ area). assert (length rows = 4) as Hr
    by apply length_split_vertical.
  destruct (lookup_split rows 4 0 Hr) as [r0 ->]; [lia|].
  destruct (lookup_split rows 4 1 Hr) as [r1 ->]; [lia|].
  destruct (lookup_split rows 4 2 Hr) as [r2 ->]; [lia|].
  destruct (lookup_split rows 4 3 Hr) as [r3 ->]; [lia|].
  cbn [unwrap mbind exec_bind]. set (body := split_horizontal _ r1).
  assert (length body = 2) as Hb by apply length_split_horizontal.
  destruct (lookup_split body 2 0 Hb) as [b0 ->]; [lia|].
  destruct (lookup_split body 2 1 Hb) as [b1 ->]; [lia|].
  by eexists.
Qed.

Lemma centered_rect_total area w h :
  (w <= 100)%Z → (h <= 100)%Z → ∃ r, centered_rect area w h = Val r.
Proof.
  intros Hw Hh. unfold centered_rect, u16_sub. rewrite !decide_True by done.
  cbn [mbind exec_bind].
  match goal with |- context [split_vertical ?cs ?a] =>
    destruct (lookup_split (split_vertical cs a) 3 1) as [m ->];
      [apply length_split_vertical|lia|] end.
  cbn [unwrap mbind exec_bind].
  match goal with |- context [split_horizontal ?cs ?a] =>
    destruct (lookup_split (split_horizontal cs a) 3 1) as [r ->];
      [apply length_split_horizontal|lia|] end.
  by exists r.
Qed.

Lemma render_shutdown_popup_total app frame_area :
  (exit_notice app = None ∧ render_shutdown_popup app frame_area = Val []) ∨
  ∃ reason area, exit_notice app = Some reason ∧
    render_shutdown_popup app frame_area = Val
      [Clear area; Draw (mk_Paragraph (shutdown_lines reason)
         (All (lit "Disconnected") disconnected_border_style) plain 0 true true) area].
Proof.
  unfold render_shutdown_popup. destruct (exit_notice app) as [reason|]; [|by left].
  right. destruct (centered_rect_total frame_area 50 20) as [r ->]; [lia|lia|].
  by exists reason, r.
Qed.

Lemma render_mention_popup_total app frame_area area :
  users_fit app → ∃ ds, render_mention_popup app frame_area area = Val ds.
Proof.
  intros Hf. unfold render_mention_popup.
  destruct (mention_popup_eq app frame_area area Hf) as [[_ ->]|(_ & w & _ & _ & ->)];
    by eexists.
Qed.

(** The panels of a frame that bear a title. *)
Definition titled (title : str) (d : Drawn) : bool :=
  match d with
  | Draw p _ => match borders p with All t _ => bool_decide (t = title) | _ => false end
  | _ => false
  end.
Definition panels (title : str) : list Drawn → list Drawn := List.filter (titled title).

Lemma panels_app t l k : panels t (l ++ k) = panels t l ++ panels t k.
Proof. apply List.filter_app. Qed.

Lemma panels_mention t app frame_area area ds :
  bool_decide (lit "Mention" = t) = false →
  render_mention_popup app frame_area area = Val ds → panels t ds = [].
Proof.
  intros Ht. unfold render_mention_popup.
  destruct (mention_popup app frame_area area) as [[[r ls]|]|]; [|by intros [= <-]|done].
  cbn [mbind exec_bind]. intros [= <-]. unfold panels. cbn [List.filter titled borders].
  by rewrite Ht.
Qed.

(** The text of the session panel: one line per user. *)
Lemma sidebar_text_lines app :
  map line_text (sidebar_text app) =
    lit "users" ::
    match connected_users app with
    | [] => [lit "  nobody connected"]
    | users => map (λ user, lit "  " ++ user) users
    end.
Proof.
  unfold sidebar_text. destruct (connected_users app) as [|u us]; [done|].
  cbn [is_empty]. rewrite map_cons. f_equal. rewrite map_map. apply map_ext. intros user.
  unfold line_text. cbn [map concat content]. by rewrite app_nil_r.
Qed.

Lemma render_eq app frame_area :
  users_fit app → ∃ l ls mention shutdown,
    AppLayout_new frame_area = Val l ∧
    messages_text app = Val ls ∧ map line_text ls = map text (messages app) ∧
    render_mention_popup app frame_area (input_area l) = Val mention ∧
    render_shutdown_popup app frame_area = Val shutdown ∧
    render frame_area app = Val ([Clear frame_area] ++ render_header (header l) ++
      [Draw (mk_Paragraph ls (All (lit "Messages") messages_border_style) plain
         (message_scroll_offset (zlen ls) (bordered_inner (messages_area l))) false true)
         (messages_area l)] ++
      render_session_panel app (sidebar l) ++ render_input_panel app (input_area l) ++
      render_help_bar (footer l) ++ mention ++ shutdown ++ set_input_cursor app (input_area l)).
Proof.
  intros Hf. unfold render. destruct (AppLayout_new_total frame_area) as [l E].
  destruct (chat_lines_total (messages app) app) as (ls & Els & Hls).
  destruct (render_mention_popup_total app frame_area (input_area l) Hf) as [mention Em].
  destruct (render_shutdown_popup_total app frame_area) as [[_ Es]|(? & ? & _ & Es)];
    (exists l, ls, mention; eexists; split_and!; [exact E|exact Els|exact Hls|exact Em|exact Es|];
     rewrite E; cbn [mbind exec_bind]; unfold render_messages_panel, messages_text;
     rewrite Els; cbn [mbind exec_bind]; rewrite Em; cbn [mbind exec_bind]; rewrite Es;
     reflexivity).
Qed.

(** ** Properties *)

(** C36: a frame can always be drawn, and it shows the client's state.  When the user names are
    as short as a presence frame forces them to be, drawing never panics: no slice, index or
    16-bit sum fails.  A frame has one message panel, with one line per message of exactly the
    message's text; one session panel, with one line per connected user, of the user's name,
    in order; and one notice, after every other panel, with the reason on a line of its own,
    when the connection is lost, and none otherwise. *)
Theorem render_shows_state app frame_area :
  users_fit app →
  ∃ drawn position messages_panel session_panel area area' scroll,
    render frame_area app = Val (drawn ++ [Cursor position]) ∧
    panels (lit "Messages") drawn =
      [Draw (mk_Paragraph messages_panel (All (lit "Messages") messages_border_style) plain
        scroll false true) area] ∧
    scroll = message_scroll_offset (zlen (messages app)) (bordered_inner area) ∧
    map line_text messages_panel = map text (messages app) ∧
    panels (lit "Session") drawn =
      [Draw (mk_Paragraph session_panel (All (lit "Session") session_border_style) plain
        0 false true) area'] ∧
    map line_text session_panel =
      lit "users" ::
      match connected_users app with
      | [] => [lit "  nobody connected"]
      | users => map (λ user, lit "  " ++ user) users
      end ∧
    match exit_notice app with
    | None => panels (lit "Disconnected") drawn = []
    | Some reason => ∃ before notice popup_area,
        drawn = before ++ [Clear popup_area; Draw (mk_Paragraph notice
          (All (lit "Disconnected") disconnected_border_style) plain 0 true true) popup_area] ∧
        panels (lit "Disconnected") before = [] ∧
        map line_text notice =
          [lit "Server connection lost"; []; reason; []; lit "[ OK ]"; [];
           lit "Press Enter to close"]
    end.
Proof.
  intros Hf. destruct (render_eq app frame_area Hf)
    as (l & ls & mention & shutdown & _ & _ & Hls & Em & Es & Er).
  set (before := [Clear frame_area] ++ render_header (header l) ++
      [Draw (mk_Paragraph ls (All (lit "Messages") messages_border_style) plain
         (message_scroll_offset (zlen ls) (bordered_inner (messages_area l))) false true)
         (messages_area l)] ++
      render_session_panel app (sidebar l) ++ render_input_panel app (input_area l) ++
      render_help_bar (footer l)) in *.
  exists ((before ++ mention) ++ shutdown), (input_cursor app (bordered_inner (input_area l))), ls,
    (sidebar_text app), (messages_area l), (sidebar l),
    (message_scroll_offset (zlen ls) (bordered_inner (messages_area l))).
  assert (∀ t, panels t ((before ++ mention) ++ shutdown) =
    panels t before ++ panels t mention ++ panels t shutdown) as Hp.
  { intros t. by rewrite !panels_app, <-(assoc_L (++)). }
  assert (∀ t, bool_decide (lit "Disconnected" = t) = false → panels t shutdown = []) as Hs.
  { intros t Ht. destruct (render_shutdown_popup_total app frame_area) as [[_ E]|(r & a & _ & E)];
      rewrite E in Es; injection Es as <-; [done|]. unfold panels. cbn [List.filter titled borders].
    by rewrite Ht. }
  split_and!; [| | |exact Hls| |apply sidebar_text_lines|].
  - rewrite Er. f_equal. unfold before, set_input_cursor. by rewrite <-!(assoc_L (++)).
  - by rewrite Hp, Hs, (panels_mention (lit "Messages") _ _ _ _ ltac:(by vm_compute) Em) by (by vm_compute).
  - do 2 f_equal. unfold zlen. apply (f_equal length) in Hls. rewrite !length_map in Hls.
    by rewrite Hls.
  - by rewrite Hp, Hs, (panels_mention (lit "Session") _ _ _ _ ltac:(by vm_compute) Em) by (by vm_compute).
  - pose proof (panels_mention (lit "Disconnected") _ _ _ _ ltac:(by vm_compute) Em) as Hm.
    destruct (render_shutdown_popup_total app frame_area) as [[-> E]|(r & a & -> & E)];
      rewrite E in Es; injection Es as <-.
    + rewrite Hp, Hm. reflexivity.
    + exists (before ++ mention), (shutdown_lines r), a. rewrite panels_app, Hm.
      split_and!; [done|reflexivity|]. unfold shutdown_lines, line_text.
      cbn [map concat content raw]. by rewrite !app_nil_r.
Qed.
End Lemmas.

(** The mention popup lies inside its bounds.  With candidates to offer it never overflows
    16-bit arithmetic; its right edge stays inside the frame; it is wide enough for every name
    unless the frame is not; where the input panel leaves room it ends one row above it; and
    it offers the first five candidates in the order of the user list. *)
Theorem mention_popup_placed app frame_area area :
  users_fit app → candidates app ≠ [] →
  (0 <= x area <= width frame_area)%Z →
  ∃ r ls, mention_popup app frame_area area = Val (Some (r, ls)) ∧
    (x r + width r <= width frame_area)%Z ∧
    ((∀ u, u ∈ candidates app → (Z.of_nat (blen u) + 3 <= width r)%Z) ∨
     (x r + width r = width frame_area)%Z) ∧
    ((height r < y area)%Z → (y r + height r + 1 = y area)%Z) ∧
    map line_text ls = map (λ u, lit "@" ++ u) (take 5 (candidates app)).
Proof.
  intros Hf Hne Hx. destruct (mention_popup_eq app frame_area area Hf)
    as [[? _]|(_ & w & Hw & Hc & E)]; [done|]. do 2 eexists. split; [exact E|].
  cbn [x y width height]. unfold sat_sub. split_and!; [lia| |lia|].
  - destruct (Z.le_gt_cases w (width frame_area - x area)); [left|right; lia].
    intros u Hu. rewrite Forall_forall in Hc. specialize (Hc u Hu). lia.
  - unfold popup_lines. clear. generalize (take 5 (candidates app)) as cs.
    intros cs. apply list_eq. intros i. rewrite !list_lookup_fmap, list_lookup_imap.
    destruct (cs !! i); [|done]. cbn. unfold line_text. cbn. by rewrite app_nil_r.
Qed.

(** C40: the selection is only visible among the first five candidates.  Down and Up move the
    selection over all candidates, round and round; the popup lists the first five of them and
    highlights the selected one among these and no other: from the sixth on nothing is
    highlighted, and nothing shows what [Tab] will insert. *)
Theorem mention_selection_visible app frame_area area :
  app_ok app → users_fit app → candidates app ≠ [] →
  let n := length (candidates app) in
  let selected := mention_selection app in
  selected < n ∧
  select_next_mention app =
    Val (set_mention_selection (if decide (S selected = n) then 0 else S selected) app) ∧
  select_previous_mention app =
    Val (set_mention_selection (if decide (selected = 0) then n - 1 else selected - 1) app) ∧
  ∃ r ls, mention_popup app frame_area area = Val (Some (r, ls)) ∧
    length ls = n `min` 5 ∧
    (∀ j user, j < 5 → candidates app !! j = Some user →
      ls !! j = Some [mk_Span (lit "@" ++ user)
        (if decide (j = selected) then mention_selected_style else mention_plain_style)]) ∧
    (Forall (λ l, Forall (λ s, style s = mention_plain_style) l) ls ↔ 5 ≤ selected).
Proof.
  intros Ha Hf Hne n selected. pose proof (ok_selection app Ha Hne) as Hsel.
  destruct (mention_popup_eq app frame_area area Hf)
    as [[? _]|(_ & w & _ & _ & E)]; [done|].
  assert (is_empty (candidates app) = false) as Hemp by (by apply is_empty_false).
  split_and!; [done| | |].
  - unfold select_next_mention. rewrite mention_candidates_eq. cbn [mbind exec_bind].
    rewrite Hemp. do 2 f_equal. fold n selected. rewrite Nat.add_1_r. case_decide as Hn.
    + rewrite Hn. apply Nat.Div0.mod_same.
    + apply Nat.mod_small. unfold selected, n in *. lia.
  - unfold select_previous_mention. rewrite mention_candidates_eq. cbn [mbind exec_bind].
    rewrite Hemp. fold n selected. destruct (Nat.eqb_spec selected 0); by case_decide.
  - do 2 eexists. split; [exact E|]. split; [|split].
    + unfold popup_lines. rewrite length_imap, length_take. unfold n. lia.
    + intros j user Hj Hu. unfold popup_lines. rewrite list_lookup_imap, lookup_take_lt by done.
      by rewrite Hu.
    + unfold popup_lines. fold selected. split.
      * intros Hls. destruct (decide (5 ≤ selected)) as [|Hlt]; [done|exfalso].
        destruct (lookup_lt_is_Some_2 (candidates app) selected) as [user Hu]; [done|].
        rewrite Forall_lookup in Hls. specialize (Hls selected).
        rewrite list_lookup_imap, lookup_take_lt, Hu, decide_True in Hls by (done || lia).
        specialize (Hls _ eq_refl). by inversion Hls.
      * intros Hle. apply Forall_lookup. intros j l. rewrite list_lookup_imap.
        destruct (take 5 (candidates app) !! j) as [user|] eqn:Hj; [|done].
        apply lookup_lt_Some in Hj. rewrite length_take in Hj. intros [= <-].
        rewrite decide_False by lia. by repeat constructor.
Qed.

(** The message panel is scrolled to the end: with an inner area of [h > 0] rows, exactly
    the last [h - 1] of the (at most three hundred) message lines are in the first [h - 1]
    rows; the conversion to 16 bits loses nothing. *)
Theorem messages_scrolled_to_end app area (i : Z) :
  app_ok app → (0 < height area)%Z → (0 <= i < zlen (messages app))%Z →
  (zlen (messages app) - (height area - 1) <= i)%Z ↔
  (0 <= i - message_scroll_offset (zlen (messages app)) area < height area - 1)%Z.
Proof.
  intros Ha Hh Hi. pose proof (ok_messages app Ha) as Hm. unfold MESSAGE_LIMIT in Hm.
  unfold message_scroll_offset, as_u16, sat_sub. unfold zlen in *.
  rewrite Z.mod_small by lia. lia.
Qed.

(** ** Witnesses *)

(** A client that types [@] in a room of six. *)
Definition six_users : ChatApp :=
  set_mention_selection 5 (set_input (lit "@")
    (set_connected_users (map (λ c, [chr c]) [97; 98; 99; 100; 101; 102]%Z)
      (new_app (lit "a") (lit "localhost:7878")))).

Lemma six_users_ok : app_ok six_users.
Proof.
  split; [|cbn; unfold MESSAGE_LIMIT; lia|by repeat constructor|done].
  intros _. vm_compute. lia.
Qed.

Lemma six_users_fit : users_fit six_users.
Proof. unfold users_fit. repeat constructor; vm_compute; done. Qed.

(** Every panel gets the whole area. *)
Definition whole_area : Widgets :=
  {| split_vertical cs a := map (λ _, a) cs; split_horizontal cs a := map (λ _, a) cs;
     bordered_inner a := a |}.

Lemma whole_area_laws : @WidgetsLaws whole_area.
Proof. split; intros; apply length_map. Qed.

Definition terminal : Rect := mk_Rect 0 0 80 24.
Definition input_row : Rect := mk_Rect 0 19 80 3.

(** The six users have lost their server. *)
Definition six_lost : ChatApp := begin_shutdown (lit "server disconnected") six_users.

Lemma render_shows_state_witness :
  ∃ drawn position session_panel area' before notice popup_area,
    @render latin_tables whole_area terminal six_lost = Val (drawn ++ [Cursor position]) ∧
    panels (lit "Session") drawn =
      [Draw (mk_Paragraph session_panel (All (lit "Session") session_border_style) plain
        0 false true) area'] ∧
    map line_text session_panel =
      map lit ["users"; "  a"; "  b"; "  c"; "  d"; "  e"; "  f"]%string ∧
    drawn = before ++ [Clear popup_area; Draw (mk_Paragraph notice
      (All (lit "Disconnected") disconnected_border_style) plain 0 true true) popup_area] ∧
    nth 2 (map line_text notice) [] = lit "server disconnected".
Proof.
  destruct (@render_shows_state latin_tables whole_area whole_area_laws six_lost terminal)
    as (drawn & pos & ms & side & a & a' & scroll & E & _ & _ & _ & Es & Et & Hn).
  - unfold users_fit. repeat constructor; vm_compute; done.
  - destruct Hn as (before & notice & popup & Ed & _ & El).
    exists drawn, pos, side, a', before, notice, popup.
    split; [exact E|]. split; [exact Es|]. split; [exact Et|]. split; [exact Ed|].
    rewrite El. reflexivity.
Defined.

Lemma mention_popup_placed_witness :
  ∃ r ls, mention_popup six_users terminal input_row = Val (Some (r, ls)) ∧
    (x r + width r <= 80)%Z ∧ (y r + height r + 1 = 19)%Z ∧ length ls = 5.
Proof.
  destruct (mention_popup_placed six_users terminal input_row six_users_fit)
    as (r & ls & E & Hx & _ & Hy & Hl); [by vm_compute|vm_compute; done|].
  exists r, ls. split; [exact E|]. split; [exact Hx|].
  assert (r = mk_Rect 0 11 18 7) as -> by (vm_compute in E; congruence).
  split; [apply Hy; vm_compute; done|].
  rewrite <-(length_map line_text), Hl. reflexivity.
Defined.

Lemma mention_selection_visible_witness :
  ∃ r ls, mention_popup six_users terminal input_row = Val (Some (r, ls)) ∧
    Forall (λ l, Forall (λ s, style s = mention_plain_style) l) ls ∧
    mention_selection six_users = 5.
Proof.
  destruct (mention_selection_visible six_users terminal input_row six_users_ok six_users_fit)
    as (_ & _ & _ & r & ls & E & _ & _ & Hl); [by vm_compute|].
  exists r, ls. split; [exact E|]. split; [|reflexivity]. apply Hl. vm_compute. lia.
Defined.

Lemma messages_scrolled_to_end_witness :
  (0 <= 1 - message_scroll_offset 2 (mk_Rect 0 0 10 2) < 1)%Z.
Proof.
  apply (messages_scrolled_to_end six_users (mk_Rect 0 0 10 2) 1 six_users_ok);
    vm_compute; done.
Defined.
