(* ===== verification/Tui.v ===== *)
(** The client's main loop ([crates/tui/src/lib.rs]): network events drained into the
    application state, a frame drawn, one terminal event handled.  A run of the loop is a list
    of iterations, each with what the environment gives: the events in the channel, the
    outcome of drawing, polling and reading the terminal, and what a write to the socket would
    return. *)
From S2P Require Import Prelude Utf8 Text Frame Presence ChatText ClientNet ClientApp Render.
From S2P Require Import Screen.

(** ** Terminal events *)

Inductive KeyCode :=
  | Char (c : char) | Esc | Up | Down | Tab | Enter | Backspace | OtherKey.

#[export] Instance KeyCode_eq_dec : EqDecision KeyCode.
Proof. solve_decision. Defined.

Record KeyEvent := mk_KeyEvent { code : KeyCode; control : bool; press : bool }.

Inductive Event := Key (key : KeyEvent) | Resize | OtherEvent.

(** ** The connection: every byte sent on it, those of a write that failed half-way included *)

Definition ClientConnection := list u8.

(** The outcome of an operation on both. *)
Definition step : Type := result io_error unit * (ChatApp * ClientConnection).

Section Client.
Context (display : io_error → str).

Definition offline_notice : str :=
  system (lit "message not sent because the client is offline").

Definition submit_input (write_all : WriteAll)
    (app : ChatApp) (conn : ClientConnection) : step :=
  let '(content, app) := take_input app in
  if is_empty content then (Ok tt, (app, conn))
  else if negb (connected app) then
    (Ok tt, (push_message offline_notice Confirmed app, conn))
  else
    let '(result, sent) := send_message write_all content in
    let conn := conn ++ sent in
    match result with
    | Err error =>
        if is_disconnect_error error then
          (Ok tt, (begin_shutdown (lit "server unavailable: " ++ display error) app, conn))
        else
          (Err error, (mark_offline (lit "failed to send message: " ++ display error) app, conn))
    | Ok _ => (Ok tt, (app, conn))
    end.

Definition unchanged (conn : ClientConnection) (app : exec ChatApp) : exec step :=
  app ← app; Val (Ok tt, (app, conn)).

Definition handle_key_event (write_all : WriteAll)
    (app : ChatApp) (conn : ClientConnection) (key : KeyEvent) : exec step :=
  if has_exit_notice app then
    Val (Ok tt, (if decide (code key = Enter) then set_should_quit true app else app, conn))
  else
    match code key with
    | Char c =>
        if control key then
          Val (Ok tt, (if decide (c = chr 113) then set_should_quit true app else app, conn))
        else Val (Ok tt, (append_input c app, conn))
    | Esc => Val (Ok tt, (set_should_quit true app, conn))
    | Up => unchanged conn (select_previous_mention app)
    | Down => unchanged conn (select_next_mention app)
    | Tab => unchanged conn (apply_selected_mention app)
    | Enter => Val (submit_input write_all app conn)
    | Backspace => Val (Ok tt, (pop_input app, conn))
    | OtherKey => Val (Ok tt, (app, conn))
    end.

(** What an iteration gets from outside; [terminal_event] is [None] when the poll times out,
    and an error when the poll or the read fails. *)
Record iteration := mk_iteration {
  arrived : list NetworkEvent;
  drawn : result io_error unit;
  frame_area : Rect;
  terminal_event : result io_error (option Event);
  write_result : WriteAll }.

Definition handle_terminal_event (it : iteration) (app : ChatApp) (conn : ClientConnection)
  : exec step :=
  match terminal_event it with
  | Err error => Val (Err error, (app, conn))
  | Ok (Some (Key key)) =>
      if press key then handle_key_event (write_result it) app conn key
      else Val (Ok tt, (app, conn))
  | Ok _ => Val (Ok tt, (app, conn))
  end.

Fixpoint drain_network_events (events : list NetworkEvent) (app : ChatApp) : exec ChatApp :=
  match events with
  | [] => Val app
  | Message message :: events => drain_network_events events (receive_message message app)
  | UserList users :: events =>
      app ← update_connected_users users app; drain_network_events events app
  | Disconnected reason :: events => drain_network_events events (begin_shutdown reason app)
  end.

(** How a run stands: going on, left by the user, or ended by an error. *)
Inductive outcome :=
  | Running (app : ChatApp) (conn : ClientConnection)
  | Closed (app : ChatApp) (conn : ClientConnection)
  | Failed (error : io_error) (app : ChatApp) (conn : ClientConnection).

Section Loop.
Context `{UnicodeTables, Widgets}.

(** The body of [while !app.should_quit]. *)
Definition client_step (it : iteration) (app : ChatApp) (conn : ClientConnection) : exec step :=
  app ← drain_network_events (arrived it) app;
  _ ← render (frame_area it) app;
  match drawn it with
  | Err error => Val (Err error, (app, conn))
  | Ok _ => handle_terminal_event it app conn
  end.

Fixpoint client_loop (its : list iteration) (app : ChatApp) (conn : ClientConnection)
  : exec outcome :=
  if should_quit app then Val (Closed app conn)
  else
    match its with
    | [] => Val (Running app conn)
    | it :: its =>
        s ← client_step it app conn;
        match s with
        | (Err error, (app, conn)) => Val (Failed error app conn)
        | (Ok _, (app, conn)) => client_loop its app conn
        end
    end.

Definition empty_username : io_error :=
  mk_io_error InvalidInput (lit "username cannot be empty").

(** [run_client]; [tcp] is the operating system's side of connecting. *)
Definition run_client (name server_addr : str) (tcp : TcpStream) (its : list iteration)
  : exec (result io_error outcome) :=
  if is_empty (trim name) then Val (Err empty_username)
  else
    match connect tcp name server_addr with
    | Err error => Val (Err error)
    | Ok handshake =>
        end_state ← client_loop its (new_app name server_addr) handshake;
        Val (Ok end_state)
    end.
End Loop.

(** ** Invariant *)

(** The names a client hears of fit a presence frame. *)
Definition event_ok (e : NetworkEvent) : Prop :=
  match e with
  | UserList users => Forall (λ u, (Z.of_nat (blen u) <= 16384)%Z) users
  | _ => True
  end.

(** A line that can be sent: not blank, no white space around it, at most 4 KiB. *)
Definition sendable_line (s : str) : Prop :=
  s ≠ [] ∧ trim s = s ∧ (Z.of_nat (blen s) <= MAX_CHAT_MESSAGE_BYTES)%Z.

Record client_ok (app : ChatApp) : Prop := {
  client_app : app_ok app;
  client_users : users_fit app }.

Lemma encode_all_app fs gs : encode_all (fs ++ gs) = encode_all fs ++ encode_all gs.
Proof. apply bind_app. Qed.

Lemma encode_chat_frame_Ok s b :
  encode_chat_frame s = Ok b →
  (Z.of_nat (blen s) <= MAX_CHAT_MESSAGE_BYTES)%Z ∧ b = encode_all [(Chat, as_bytes s)].
Proof.
  unfold encode_chat_frame. destruct (Z.ltb_spec MAX_CHAT_MESSAGE_BYTES (Z.of_nat (blen s)));
    [done|]. intros E. split; [done|].
  destruct (encode_frame Chat (as_bytes s)) as [f|] eqn:Ef; [|done]. cbn [map_err] in E.
  injection E as <-. apply encode_frame_Ok in Ef as [-> _].
  unfold encode_all. cbn [mbind list_bind]. by rewrite app_nil_r.
Qed.

Lemma encode_chat_frame_small s :
  (Z.of_nat (blen s) <= MAX_CHAT_MESSAGE_BYTES)%Z →
  encode_chat_frame s = Ok (encode_all [(Chat, as_bytes s)]).
Proof.
  intros Hs. unfold encode_chat_frame.
  destruct (Z.ltb_spec MAX_CHAT_MESSAGE_BYTES (Z.of_nat (blen s))); [lia|].
  rewrite encode_frame_small.
  - unfold encode_all. cbn [map_err mbind list_bind]. by rewrite app_nil_r.
  - rewrite zlen_as_bytes. unfold MAX_CHAT_MESSAGE_BYTES, MAX_FRAME_PAYLOAD_BYTES in *. lia.
Qed.

(** Changing the application without touching the users. *)
Lemma client_ok_app app app' :
  client_ok app → app_ok app' → connected_users app' = connected_users app → client_ok app'.
Proof. intros [_ Hu] Ha E. split; [done|]. unfold users_fit. by rewrite E. Qed.

Lemma set_should_quit_ok b app : app_ok app → app_ok (set_should_quit b app).
Proof. by intros []. Qed.

Lemma push_message_users m st app :
  connected_users (push_message m st app) = connected_users app.
Proof. done. Qed.

Lemma receive_message_users m app :
  connected_users (receive_message m app) = connected_users app.
Proof. unfold receive_message, confirm_message. by destruct (existsb _ _). Qed.

Lemma drain_ok events app :
  client_ok app → Forall event_ok events →
  ∃ app', drain_network_events events app = Val app' ∧ client_ok app' ∧
    should_quit app' = should_quit app.
Proof.
  intros Hc Hev. revert app Hc. induction Hev as [|e events He _ IH]; intros app Hc.
  { by exists app. }
  pose proof (client_app _ Hc) as Ha. destruct e as [m|users|reason]; cbn [drain_network_events].
  - destruct (IH (receive_message m app)) as (app' & E & Hc' & Hq).
    { eapply client_ok_app; [done|by apply receive_message_ok|apply receive_message_users]. }
    exists app'. split_and!; [done|done|]. rewrite Hq. unfold receive_message.
    by rewrite no_pending.
  - destruct (update_connected_users_ok users app Ha) as (app1 & E1 & Ha1 & Hu & _).
    rewrite E1. cbn [mbind exec_bind]. destruct (IH app1) as (app' & E & Hc' & Hq).
    { split; [done|]. unfold users_fit. by rewrite Hu. }
    exists app'. split_and!; [done|done|]. rewrite Hq. unfold update_connected_users in E1.
    rewrite mention_candidates_eq in E1. cbn [mbind exec_bind] in E1.
    injection E1 as <-. by repeat case_match.
  - apply (IH (begin_shutdown reason app)).
    eapply client_ok_app; [done|by apply begin_shutdown_ok|done].
Qed.

(** What submitting the input does. *)
Lemma submit_input_eq write_all app conn :
  app_ok app → has_exit_notice app = false →
  let content := trim (input app) in
  let app0 := set_input [] app in
  submit_input write_all app conn =
    if is_empty content then (Ok tt, (app0, conn))
    else if decide (MAX_CHAT_MESSAGE_BYTES < Z.of_nat (blen content))%Z then
      (Err message_too_large, (mark_offline
        (lit "failed to send message: " ++ display message_too_large) app0, conn))
    else
      let frame := encode_all [(Chat, as_bytes content)] in
      match write_all frame with
      | Ok _ => (Ok tt, (app0, conn ++ frame))
      | Err (n, e) =>
          if is_disconnect_error e
          then (Ok tt, (begin_shutdown (lit "server unavailable: " ++ display e) app0,
                        conn ++ take n frame))
          else (Err e, (mark_offline (lit "failed to send message: " ++ display e) app0,
                        conn ++ take n frame))
      end.
Proof.
  intros Ha Hn. cbn zeta. unfold submit_input, take_input.
  destruct (is_empty (trim (input app))); [done|].
  assert (connected (set_input [] app) = true) as ->.
  { change (connected app = true). destruct (connected app) eqn:E; [done|].
    apply (ok_offline app Ha) in E. congruence. }
  cbn [negb]. destruct (decide _) as [Hl|Hl].
  - unfold send_message, encode_chat_frame.
    destruct (Z.ltb_spec MAX_CHAT_MESSAGE_BYTES (Z.of_nat (blen (trim (input app))))); [|lia].
    cbn. by rewrite app_nil_r.
  - unfold send_message. rewrite encode_chat_frame_small by lia.
    by destruct (write_all _) as [[]|[n e]].
Qed.

Lemma set_input_empty_ok app : app_ok app → app_ok (set_input [] app).
Proof. by intros []. Qed.

Lemma submit_input_ok write_all app conn app' conn' :
  client_ok app → has_exit_notice app = false →
  submit_input write_all app conn = (Ok tt, (app', conn')) → client_ok app'.
Proof.
  intros Hc Hn. pose proof (client_app _ Hc) as Ha. rewrite submit_input_eq by done. cbn zeta.
  assert (client_ok (set_input [] app)) as Hc0.
  { eapply client_ok_app; [done|by apply set_input_empty_ok|done]. }
  destruct (is_empty (trim (input app))); [by intros [= <- <-]|].
  destruct (decide _); [done|]. destruct (write_all _) as [u|[k e]]; [by intros [= <- <-]|].
  destruct (is_disconnect_error e); [|done]. intros [= <- <-].
  eapply client_ok_app; [exact Hc0|apply begin_shutdown_ok, Hc0|done].
Qed.

Lemma apply_selected_mention_ok app :
  app_ok app → ∃ app', apply_selected_mention app = Val app' ∧ app_ok app' ∧
    connected_users app' = connected_users app.
Proof.
  intros Ha. rewrite apply_selected_mention_eq by done. eexists. split; [reflexivity|].
  destruct (query_of (input app)); [|done].
  destruct (candidates app !! mention_selection app); [|done].
  split; [by apply reset_selection_ok|done].
Qed.

Lemma select_previous_users app app' :
  select_previous_mention app = Val app' → connected_users app' = connected_users app.
Proof.
  unfold select_previous_mention. rewrite mention_candidates_eq. cbn [mbind exec_bind].
  intros [= <-]. by repeat case_match.
Qed.

Lemma select_next_users app app' :
  select_next_mention app = Val app' → connected_users app' = connected_users app.
Proof.
  unfold select_next_mention. rewrite mention_candidates_eq. cbn [mbind exec_bind].
  intros [= <-]. by repeat case_match.
Qed.

(** A key press keeps the invariant, or ends the client with an error. *)
Lemma handle_key_event_ok write_all app conn key :
  client_ok app →
  ∃ r app' conn', handle_key_event write_all app conn key = Val (r, (app', conn')) ∧
    (r = Ok tt → client_ok app').
Proof.
  intros Hc. pose proof (client_app _ Hc) as Ha.
  assert (∀ app', app_ok app' → connected_users app' = connected_users app →
    ∃ r app'' conn', Val (Ok (E := io_error) tt, (app', conn)) = Val (r, (app'', conn')) ∧
      (r = Ok tt → client_ok app'')) as Hsame.
  { intros app' Ha' Hu. do 3 eexists. split; [reflexivity|]. intros _. by eapply client_ok_app. }
  unfold handle_key_event. destruct (has_exit_notice app) eqn:En.
  { apply Hsame; [|by destruct (decide _)]. destruct (decide _); [|done].
    by apply set_should_quit_ok. }
  destruct (code key) as [c| | | | | | |].
  - destruct (control key); apply Hsame; try (by destruct (decide _)).
    + destruct (decide _); [|done]. by apply set_should_quit_ok.
    + by apply reset_selection_ok.
    + done.
  - apply Hsame; [|done]. by apply set_should_quit_ok.
  - destruct (select_previous_ok app Ha) as (app' & E & Ha'). rewrite E.
    apply Hsame; [done|by apply select_previous_users].
  - destruct (select_next_ok app Ha) as (app' & E & Ha'). rewrite E.
    apply Hsame; [done|by apply select_next_users].
  - destruct (apply_selected_mention_ok app Ha) as (app' & E & Ha' & Hu). rewrite E.
    by apply Hsame.
  - destruct (submit_input write_all app conn) as [r [app' conn']] eqn:E.
    exists r, app', conn'. split; [done|]. intros ->. by eapply submit_input_ok.
  - apply Hsame; [|done]. by apply reset_selection_ok.
  - by apply Hsame.
Qed.

(** ** What a run sends *)

Lemma submit_input_conn write_all app conn :
  submit_input write_all app conn =
    let '(r, (app', sent)) := submit_input write_all app [] in (r, (app', conn ++ sent)).
Proof.
  unfold submit_input. destruct (take_input app) as [content app0].
  destruct (is_empty content); [by rewrite app_nil_r|].
  destruct (negb (connected app0)); [by rewrite app_nil_r|].
  destruct (send_message write_all content) as [[[]|e] sent]; [done|].
  by destruct (is_disconnect_error e).
Qed.

Lemma unchanged_conn conn x :
  unchanged conn x = (s ← unchanged [] x; Val (s.1, (s.2.1, conn ++ s.2.2))).
Proof. unfold unchanged. destruct x; cbn; by rewrite ?app_nil_r. Qed.

Lemma handle_key_event_conn write_all app conn key :
  handle_key_event write_all app conn key =
    (s ← handle_key_event write_all app [] key; Val (s.1, (s.2.1, conn ++ s.2.2))).
Proof.
  unfold handle_key_event.
  destruct (has_exit_notice app); [cbn; by rewrite app_nil_r|].
  destruct (code key); try apply unchanged_conn; try (cbn; by rewrite app_nil_r).
  - destruct (control key); cbn; by rewrite app_nil_r.
  - rewrite submit_input_conn. by destruct (submit_input write_all app []) as [r [app' s]].
Qed.

(** The line an iteration sends, from the state after its events. *)
Definition submitted_line (it : iteration) (app : ChatApp) : list str :=
  match drawn it, terminal_event it with
  | Ok _, Ok (Some (Key key)) =>
      if press key && bool_decide (code key = Enter) && negb (has_exit_notice app) then
        let line := trim (input app) in
        if negb (is_empty line) &&
           bool_decide (Z.of_nat (blen line) <= MAX_CHAT_MESSAGE_BYTES)%Z &&
           is_ok (write_result it (encode_all [(Chat, as_bytes line)]))
        then [line] else []
      else []
  | _, _ => []
  end.

(** The bytes of a line whose write fails: as many as went out. *)
Definition torn_part (it : iteration) (app : ChatApp) : list u8 :=
  match drawn it, terminal_event it with
  | Ok _, Ok (Some (Key key)) =>
      if press key && bool_decide (code key = Enter) && negb (has_exit_notice app) then
        let line := trim (input app) in
        if negb (is_empty line) &&
           bool_decide (Z.of_nat (blen line) <= MAX_CHAT_MESSAGE_BYTES)%Z
        then match write_result it (encode_all [(Chat, as_bytes line)]) with
             | Ok _ => []
             | Err (n, _) => take n (encode_all [(Chat, as_bytes line)])
             end
        else []
      else []
  | _, _ => []
  end.

(** [tail] is what a failed write of the run has sent. *)
Definition half_way (its : list iteration) (tail : list u8) : Prop :=
  ∃ it line n e, it ∈ its ∧ sendable_line line ∧
    write_result it (encode_all [(Chat, as_bytes line)]) = Err (n, e) ∧
    tail = take n (encode_all [(Chat, as_bytes line)]).

(** A write fails only while there are bytes left to send. *)
Definition honest_writes (its : list iteration) : Prop :=
  ∀ it bs n e, it ∈ its → write_result it bs = Err (n, e) → n < length bs.

Lemma torn_part_half_way it its app :
  it ∈ its → torn_part it app = [] ∨ half_way its (torn_part it app).
Proof.
  intros Hit. unfold torn_part. destruct (drawn it); [|by left].
  destruct (terminal_event it) as [[[key| |]|]|]; try by left.
  destruct (_ && _ && _); [|by left]. cbn zeta. destruct (_ && _) eqn:Eg; [|by left].
  apply andb_true_iff in Eg as [Ee Hl%bool_decide_eq_true].
  apply negb_true_iff in Ee. destruct (write_result it _) as [|[n e]] eqn:Ew; [by left|].
  right. exists it, (trim (input app)), n, e. split_and!; try done.
  split_and!; [by apply is_empty_false|apply trim_trim|done].
Qed.

(** The frames of lines. *)
Definition chat_frames (lines : list str) : list (FrameType * list u8) :=
  map (λ s, (Chat, as_bytes s)) lines.

(** Only [Enter] sends, and only that line; a failed write is the last. *)
Lemma handle_key_event_sends it app key r app' s :
  app_ok app → drawn it = Ok tt → terminal_event it = Ok (Some (Key key)) → press key = true →
  handle_key_event (write_result it) app [] key = Val (r, (app', s)) →
  s = encode_all (chat_frames (submitted_line it app)) ++ torn_part it app ∧
  (torn_part it app ≠ [] → r = Ok tt → has_exit_notice app' = true).
Proof.
  intros Ha Hd Ht Hp. unfold submitted_line, torn_part. rewrite Hd, Ht, Hp. cbn [andb].
  unfold handle_key_event. destruct (has_exit_notice app) eqn:En.
  { intros [= <- <- <-]. by rewrite andb_false_r. }
  destruct (decide (code key = Enter)) as [Hk|Hk].
  2: { rewrite bool_decide_eq_false_2 by done. cbn [andb].
       destruct (code key); try done; unfold unchanged, mbind, exec_bind; intros E;
         repeat case_match; by simplify_eq/=. }
  rewrite bool_decide_eq_true_2 by done. cbn [andb negb]. rewrite Hk, submit_input_eq by done.
  cbn zeta. set (line := trim (input app)). destruct (is_empty line); [by intros [= <- <- <-]|].
  cbn [andb negb]. destruct (decide _) as [Hl|Hl].
  { rewrite bool_decide_eq_false_2 by lia. by intros [= <- <- <-]. }
  rewrite bool_decide_eq_true_2 by lia. cbn [andb].
  destruct (write_result it _) as [[]|[n e]]; cbn [is_ok];
    [intros [= <- <- <-]; split; [symmetry; apply app_nil_r|done]|].
  destruct (is_disconnect_error e); intros [= <- <- <-]; by split.
Qed.

(** What handling a terminal event adds to the bytes sent does not depend on them. *)
Lemma handle_terminal_event_sends it app :
  client_ok app → drawn it = Ok tt →
  ∃ r app', (∀ c, handle_terminal_event it app c =
    Val (r, (app', c ++ encode_all (chat_frames (submitted_line it app)) ++ torn_part it app))) ∧
    (torn_part it app ≠ [] → r = Ok tt → has_exit_notice app' = true).
Proof.
  intros Hc Hd. unfold handle_terminal_event.
  destruct (terminal_event it) as [[[key| |]|]|e] eqn:Et.
  1: destruct (press key) eqn:Ep.
  2-6: unfold submitted_line, torn_part; rewrite Hd, Et, ?Ep; do 2 eexists; (split; [intros c|done]);
       cbn [andb chat_frames map encode_all mbind list_bind Datatypes.app]; by rewrite app_nil_r.
  destruct (handle_key_event_ok (write_result it) app [] key Hc) as (r & app' & s & Ek & _).
  destruct (handle_key_event_sends it app key r app' s (client_app _ Hc) Hd Et Ep Ek) as [-> Hn].
  exists r, app'. split; [|done]. intros c. rewrite handle_key_event_conn, Ek.
  by cbn [mbind exec_bind fst snd].
Qed.

Section Loop_lemmas.
Context `{UnicodeTables, W : Widgets, !WidgetsLaws}.
#[local] Set Default Proof Using "Type*".

Lemma client_step_ok it app conn :
  client_ok app → Forall event_ok (arrived it) →
  ∃ r app' conn', client_step it app conn = Val (r, (app', conn')) ∧
    (r = Ok tt → client_ok app').
Proof.
  intros Hc Hev. unfold client_step.
  destruct (drain_ok (arrived it) app Hc Hev) as (app1 & E & Hc1 & _). rewrite E.
  cbn [mbind exec_bind].
  destruct (render_eq app1 (frame_area it)) as (l & ls & m & s & _ & _ & _ & _ & _ & Er);
    [apply Hc1|].
  rewrite Er. cbn [mbind exec_bind].
  destruct (drawn it) as [[]|e]; [|by do 3 eexists].
  unfold handle_terminal_event.
  destruct (terminal_event it) as [[[key| |]|]|e]; try (by do 3 eexists).
  destruct (press key); [|by do 3 eexists]. by apply handle_key_event_ok.
Qed.

(** How a run from a good state ends. *)
Lemma client_loop_ok its app conn :
  client_ok app → Forall event_ok (concat (map arrived its)) →
  ∃ o, client_loop its app conn = Val o ∧
    match o with
    | Running app _ => client_ok app ∧ should_quit app = false
    | Closed app _ => client_ok app ∧ should_quit app = true
    | Failed _ _ _ => True
    end.
Proof.
  revert app conn. induction its as [|it its IH]; intros app conn Hc Hev; cbn [client_loop].
  - destruct (should_quit app) eqn:E; by eexists.
  - destruct (should_quit app) eqn:E; [by eexists|].
    cbn [map concat] in Hev. apply Forall_app in Hev as [Hev1 Hev2].
    destruct (client_step_ok it app conn Hc Hev1) as (r & app' & conn' & -> & Hok).
    cbn [mbind exec_bind]. destruct r as [[]|e]; [by apply IH, Hev2; apply Hok|].
    by eexists.
Qed.

(** The lines a run submits. *)
Fixpoint submitted (its : list iteration) (app : ChatApp) : list str :=
  if should_quit app then []
  else
    match its with
    | [] => []
    | it :: its =>
        match drain_network_events (arrived it) app, client_step it app [] with
        | Val app1, Val (Ok _, (app', _)) => submitted_line it app1 ++ submitted its app'
        | Val app1, Val (Err _, _) => submitted_line it app1
        | _, _ => []
        end
    end.

(** A step of the loop: its bytes are those of the submitted line, or the part of one whose
    write failed. *)
Lemma client_step_sends it app :
  client_ok app → Forall event_ok (arrived it) →
  ∃ app1 r app', drain_network_events (arrived it) app = Val app1 ∧
    (∀ c, client_step it app c =
      Val (r, (app', c ++ encode_all (chat_frames (submitted_line it app1)) ++
                     torn_part it app1))) ∧
    (torn_part it app1 ≠ [] → r = Ok tt → has_exit_notice app' = true).
Proof.
  intros Hc Hev. destruct (drain_ok (arrived it) app Hc Hev) as (app1 & E & Hc1 & _).
  destruct (render_eq app1 (frame_area it)) as (l & ls & m & s & _ & _ & _ & _ & _ & Er);
    [apply Hc1|].
  exists app1. unfold client_step. rewrite E. cbn [mbind exec_bind]. rewrite Er.
  cbn [mbind exec_bind]. destruct (drawn it) as [[]|e] eqn:Ed.
  - destruct (handle_terminal_event_sends it app1 Hc1 Ed) as (r & app' & Ht & Hn).
    by exists r, app'.
  - exists (Err e), app1. split; [done|]. split; [|done]. intros c.
    unfold submitted_line, torn_part. rewrite Ed.
    cbn [chat_frames map encode_all mbind list_bind Datatypes.app]. by rewrite app_nil_r.
Qed.

(** With the notice up nothing is sent. *)
Lemma drain_notice events app app' :
  drain_network_events events app = Val app' → has_exit_notice app = true →
  has_exit_notice app' = true.
Proof.
  revert app. induction events as [|[m|users|reason] events IH]; intros app E Hn;
    cbn [drain_network_events] in E.
  - by injection E as <-.
  - apply (IH _ E). unfold receive_message, confirm_message. by destruct (existsb _ _).
  - unfold update_connected_users in E. rewrite mention_candidates_eq in E.
    cbn [mbind exec_bind] in E. apply (IH _ E). by repeat case_match.
  - by apply (IH _ E).
Qed.

Lemma notice_line it app :
  has_exit_notice app = true → submitted_line it app = [] ∧ torn_part it app = [].
Proof.
  intros Hn. unfold submitted_line, torn_part. rewrite Hn. destruct (drawn it); [|done].
  destruct (terminal_event it) as [[[key| |]|]|]; try done. by rewrite andb_false_r.
Qed.

Lemma notice_stays it app conn r app' conn' :
  has_exit_notice app = true → client_step it app conn = Val (r, (app', conn')) →
  has_exit_notice app' = true.
Proof.
  intros Hn. unfold client_step.
  destruct (drain_network_events (arrived it) app) as [app1|] eqn:Ed; [|done].
  pose proof (drain_notice _ _ _ Ed Hn) as Hn1. cbn [mbind exec_bind].
  destruct (render _ _); [|done]. cbn [mbind exec_bind].
  destruct (drawn it); [|by intros [= _ <- _]]. unfold handle_terminal_event.
  destruct (terminal_event it) as [[[key| |]|]|]; try by intros [= _ <- _].
  destruct (press key); [|by intros [= _ <- _]]. unfold handle_key_event. rewrite Hn1.
  intros [= _ <- _]. by destruct (decide _).
Qed.

Definition outcome_conn (o : outcome) : ClientConnection :=
  match o with Running _ conn | Closed _ conn | Failed _ _ conn => conn end.

Lemma notice_silent its app conn o :
  client_ok app → Forall event_ok (concat (map arrived its)) → has_exit_notice app = true →
  client_loop its app conn = Val o → outcome_conn o = conn ∧ submitted its app = [].
Proof.
  revert app conn. induction its as [|it its IH]; intros app conn Hc Hev Hn;
    cbn [client_loop submitted]; (destruct (should_quit app); [by intros [= <-]|]).
  { by intros [= <-]. }
  cbn [map concat] in Hev. apply Forall_app in Hev as [Hev1 Hev2].
  destruct (client_step_sends it app Hc Hev1) as (app1 & r & app' & Ed & Hstep & _).
  destruct (client_step_ok it app conn Hc Hev1) as (r' & app'' & conn' & E & Hok).
  destruct (notice_line it app1 (drain_notice _ _ _ Ed Hn)) as [El Et].
  pose proof (notice_stays _ _ _ _ _ _ Hn E) as Hn'.
  rewrite Hstep in E. injection E as <- <- <-. rewrite Ed, !Hstep, El, Et.
  cbn [mbind exec_bind chat_frames map encode_all list_bind Datatypes.app].
  destruct r as [[]|e]; [|intros [= <-]; cbn [outcome_conn]; by rewrite !app_nil_r].
  rewrite !app_nil_r. intros Ho. destruct (IH _ _ (Hok eq_refl) Hev2 Hn' Ho) as [-> ->].
  done.
Qed.

Lemma half_way_cons it its tail : half_way its tail → half_way (it :: its) tail.
Proof. intros (it' & line & n & e & Hin & ?). exists it', line, n, e. split; [by right|done]. Qed.

Lemma client_loop_sends its app conn o :
  client_ok app → Forall event_ok (concat (map arrived its)) →
  client_loop its app conn = Val o →
  ∃ tail, outcome_conn o = conn ++ encode_all (chat_frames (submitted its app)) ++ tail ∧
    (tail = [] ∨ half_way its tail).
Proof.
  revert app conn. induction its as [|it its IH]; intros app conn Hc Hev;
    cbn [client_loop submitted]; (destruct (should_quit app);
      [intros [= <-]; exists []; rewrite !app_nil_r; auto|]).
  { intros [= <-]. exists []. rewrite !app_nil_r. auto. }
  cbn [map concat] in Hev. apply Forall_app in Hev as [Hev1 Hev2].
  destruct (client_step_sends it app Hc Hev1) as (app1 & r & app' & -> & Hstep & Hn).
  destruct (client_step_ok it app conn Hc Hev1) as (r' & app'' & conn' & E & Hok).
  destruct (torn_part_half_way it (it :: its) app1) as [Et|Et]; [by left| |].
  - rewrite Hstep in E. injection E as <- <- <-. rewrite !Hstep, Et. cbn [mbind exec_bind].
    rewrite app_nil_r. destruct r as [[]|e].
    2: { intros [= <-]. exists []. rewrite app_nil_r. auto. }
    intros Ho. destruct (IH _ _ (Hok eq_refl) Hev2 Ho) as (tail & -> & Ht).
    exists tail. split; [|destruct Ht as [|Ht]; [by left|right; by apply half_way_cons]].
    unfold chat_frames. by rewrite map_app, encode_all_app, <-!(assoc_L (++)).
  - rewrite Hstep in E. injection E as <- <- <-. rewrite !Hstep. cbn [mbind exec_bind].
    destruct r as [[]|e]; [|intros [= <-]; exists (torn_part it app1); auto].
    destruct (decide (torn_part it app1 = [])) as [E0|Hne].
    + intros Ho. destruct (IH _ _ (Hok eq_refl) Hev2 Ho) as (tail & -> & Ht).
      exists tail. split; [|destruct Ht as [|Ht]; [by left|right; by apply half_way_cons]].
      unfold chat_frames. by rewrite E0, app_nil_r, map_app, encode_all_app, <-!(assoc_L (++)).
    + intros Ho. destruct (notice_silent _ _ _ _ (Hok eq_refl) Hev2 (Hn Hne eq_refl) Ho) as [-> ->].
      exists (torn_part it app1). rewrite app_nil_r. auto.
Qed.
End Loop_lemmas.

(** ** What the network thread delivers *)

Lemma in_sum_list {A} (f : A → nat) x l : x ∈ l → f x ≤ sum_list_with f l.
Proof. induction 1; cbn; lia. Qed.

Lemma process_frame_events frame :
  (zlen (payload frame) <= MAX_FRAME_PAYLOAD_BYTES)%Z →
  Forall event_ok (process_frame frame).1.
Proof.
  intros Hp. unfold process_frame. destruct (kind frame); [by repeat constructor| |].
  - destruct (from_utf8 _); [|by repeat constructor]. cbn [fst].
    destruct (is_empty _); by repeat constructor.
  - destruct (parse_presence (payload frame)) as [users|] eqn:E; [|by repeat constructor].
    cbn [fst]. constructor; [|done]. cbn [event_ok].
    apply parse_presence_Some in E as (E & _ & _). rewrite E, zlen_presence_payload in Hp.
    unfold MAX_FRAME_PAYLOAD_BYTES in Hp. apply Forall_forall. intros u Hu.
    apply (in_sum_list (λ u, 2 + blen u)) in Hu. cbn beta in Hu. lia.
Qed.

Lemma reader_loop_events debug fuel r events :
  reader_loop debug fuel r = Some events → Forall event_ok events.
Proof.
  revert r events. induction fuel as [|fuel IH]; intros r events; [done|]. cbn [reader_loop].
  destruct (read_frame r) as [[[frame|]|e] r'] eqn:Er; [|by intros [= <-]; repeat constructor..].
  assert (zlen (payload frame) <= MAX_FRAME_PAYLOAD_BYTES)%Z as Hp.
  { apply read_frame_Some in Er as (? & ? & _ & _ & _ & _ & _ & ? & -> & _). done. }
  pose proof (process_frame_events frame Hp) as Hev.
  destruct (process_frame frame) as [es []]; cbn [fst] in Hev.
  - destruct (reader_loop debug fuel r') as [es'|] eqn:E; [|done].
    cbn [fmap option_fmap option_map]. intros [= <-]. apply Forall_app. by eauto.
  - by intros [= <-].
Qed.

Lemma run_client_start name server_addr handshake :
  handshake_bytes name = Ok handshake →
  client_ok (new_app name server_addr) ∧ handshake = encode_all [(Handshake, as_bytes name)] ∧
  (zlen (as_bytes name) <= MAX_FRAME_PAYLOAD_BYTES)%Z.
Proof.
  unfold handshake_bytes. intros E.
  destruct (encode_frame Handshake (as_bytes name)) as [f|] eqn:Ef; [|done]. cbn [map_err] in E.
  injection E as <-. apply encode_frame_Ok in Ef as [-> Hl]. split_and!; [split| |done].
  - apply new_app_ok.
  - unfold users_fit. cbn [connected_users new_app]. constructor; [|done].
    rewrite zlen_as_bytes in Hl. unfold MAX_FRAME_PAYLOAD_BYTES in Hl. lia.
  - unfold encode_all. cbn [mbind list_bind]. by rewrite app_nil_r.
Qed.

(** A run of the client whose events come from the network thread reading [r]. *)
Definition events_from (debug : FrameError → str) (r : reader) (its : list iteration) : Prop :=
  ∃ events, reader_loop debug (S (length (contents r))) r = Some events ∧
    concat (map arrived its) `prefix_of` events.

Lemma run_client_ok `{UnicodeTables, W : Widgets, !WidgetsLaws} name server_addr
    tcp its debug r :
  events_from debug r its →
  ∃ res, run_client name server_addr tcp its = Val res ∧
    match res with
    | Ok o =>
        (zlen (as_bytes name) <= MAX_FRAME_PAYLOAD_BYTES)%Z ∧
        (∃ tail, outcome_conn o = encode_all ((Handshake, as_bytes name) ::
           chat_frames (submitted its (new_app name server_addr))) ++ tail ∧
           (tail = [] ∨ half_way its tail)) ∧
        match o with
        | Running app _ => client_ok app ∧ should_quit app = false
        | Closed app _ => client_ok app ∧ should_quit app = true
        | Failed _ _ _ => True
        end
    | Err _ => True
    end.
Proof using Type.
  intros (events & E & [rest Hpre]). apply reader_loop_events in E. rewrite Hpre in E.
  apply Forall_app in E as [E _]. unfold run_client.
  destruct (is_empty (trim name)); [by eexists|].
  destruct (connect tcp name server_addr) as [hs|] eqn:Eh; [apply connect_Ok in Eh|by eexists].
  destruct (run_client_start name server_addr hs Eh) as (Hc & Hhs & Hl).
  destruct (client_loop_ok its (new_app name server_addr) hs Hc E) as (o & Ho & Hok).
  rewrite Ho. cbn [mbind exec_bind]. eexists. split; [reflexivity|]. split; [done|]. split.
  - destruct (client_loop_sends its (new_app name server_addr) hs o Hc E Ho) as (tail & -> & Ht).
    exists tail. split; [|done]. by rewrite Hhs, (assoc_L (++)), <-encode_all_app.
  - by destruct o.
Qed.

Lemma submitted_line_sendable it app : Forall sendable_line (submitted_line it app).
Proof.
  unfold submitted_line. destruct (drawn it); [|done].
  destruct (terminal_event it) as [[[key| |]|]|]; try done.
  destruct (_ && _ && negb (has_exit_notice app)); [|done]. cbn zeta.
  set (line := trim (input app)).
  destruct (is_empty line) eqn:Ee; [done|]. cbn [negb andb].
  destruct (bool_decide _) eqn:Hl; [|done]. destruct (is_ok _); [|done]. constructor; [|done].
  split_and!; [by apply is_empty_false|apply trim_trim|by apply bool_decide_eq_true in Hl].
Qed.

Lemma submitted_sendable `{UnicodeTables, W : Widgets} its app :
  Forall sendable_line (submitted its app).
Proof using Type.
  revert app. induction its as [|it its IH]; intros app; cbn [submitted];
    (destruct (should_quit app); [done|]); [done|].
  destruct (drain_network_events (arrived it) app) as [app1|]; [|done].
  destruct (client_step it app []) as [[[u|e] [app' s]]|]; [|apply submitted_line_sendable|done].
  apply Forall_app. split; [apply submitted_line_sendable|apply IH].
Qed.

(** ** Properties *)

(** C12: the client never panics, and its state stays well formed.  Whatever bytes and failures
    the socket carries, whatever the user types and however the terminal and the writes
    answer, a run of the client computes a state: no index, slice or 16-bit sum fails while
    it handles a key, an event or draws.  While it runs and when the user closes it, the
    mention selection is inside the candidate list, at most three hundred messages are kept
    and none of them is pending, and a client that is offline shows why. *)
Theorem client_never_panics `{UnicodeTables, W : Widgets, !WidgetsLaws} name server_addr
    tcp its debug r :
  events_from debug r its →
  ∃ res, run_client name server_addr tcp its = Val res ∧
    ∀ app conn, res = Ok (Running app conn) ∨ res = Ok (Closed app conn) → app_ok app.
Proof using Type.
  intros He. destruct (run_client_ok name server_addr tcp its debug r He)
    as (res & E & Hres). exists res. split; [done|].
  intros app conn [-> | ->]; apply Hres.
Qed.

(** C32: what pressing [Enter] sends.  Without a disconnection notice the input is cleared and
    its text, trimmed, decides: a blank line does nothing; a line of at most 4 KiB is written
    as one chat frame, and nothing is added to the shown messages until the server sends it
    back; when the write fails, after some bytes, because the connection is gone the notice
    appears; any other failure, and a line over 4 KiB, ends the client with that error. *)
Theorem submit_functional write_all app conn key :
  app_ok app → has_exit_notice app = false → code key = Enter →
  let content := trim (input app) in
  let frame := encode_all [(Chat, as_bytes content)] in
  ∃ r app' conn', handle_key_event write_all app conn key = Val (r, (app', conn')) ∧
    input app' = [] ∧
    (content = [] → r = Ok tt ∧ app' = set_input [] app ∧ conn' = conn) ∧
    ((MAX_CHAT_MESSAGE_BYTES < Z.of_nat (blen content))%Z →
       r = Err message_too_large ∧ conn' = conn) ∧
    (content ≠ [] → (Z.of_nat (blen content) <= MAX_CHAT_MESSAGE_BYTES)%Z →
       match write_all frame with
       | Ok _ => r = Ok tt ∧ app' = set_input [] app ∧ conn' = conn ++ frame
       | Err (n, e) => conn' = conn ++ take n frame ∧ connected app' = false ∧
           if is_disconnect_error e
           then r = Ok tt ∧ exit_notice app' = Some (lit "server unavailable: " ++ display e)
           else r = Err e ∧ exit_notice app' = None
       end).
Proof.
  intros Ha Hn Hk content frame. unfold handle_key_event. rewrite Hn, Hk.
  rewrite submit_input_eq by done. fold content frame. cbn zeta.
  assert (exit_notice app = None) as Hno.
  { unfold has_exit_notice in Hn. by destruct (exit_notice app). }
  destruct (is_empty content) eqn:Ee.
  { apply is_empty_nil in Ee. do 3 eexists. split; [reflexivity|]. rewrite Ee.
    by split_and!. }
  apply is_empty_false in Ee. destruct (decide _) as [Hl|Hl].
  { do 3 eexists. split; [reflexivity|]. split_and!; try done; lia. }
  destruct (write_all frame) as [u|[n e]].
  { do 3 eexists. split; [reflexivity|]. split_and!; try done; lia. }
  destruct (is_disconnect_error e);
    (do 3 eexists; split; [reflexivity|]; split_and!; try done; lia).
Qed.

(** An iteration without the [Enter] key, in which the terminal works. *)
Definition no_enter (it : iteration) : bool :=
  is_ok (drawn it) &&
  match terminal_event it with
  | Ok (Some (Key key)) => negb (press key) || negb (bool_decide (code key = Enter))
  | Ok _ => true
  | Err _ => false
  end.

Definition presses_enter (it : iteration) : Prop :=
  is_ok (drawn it) = true ∧
  ∃ key, terminal_event it = Ok (Some (Key key)) ∧ press key = true ∧ code key = Enter.

(** With the notice up, only [Enter] counts. *)
Lemma notice_step `{UnicodeTables, W : Widgets, !WidgetsLaws} it app conn :
  client_ok app → has_exit_notice app = true → Forall event_ok (arrived it) →
  should_quit app = false →
  ∃ app', has_exit_notice app' = true ∧ client_ok app' ∧
    (no_enter it = true → should_quit app' = false ∧
       client_step it app conn = Val (Ok tt, (app', conn))) ∧
    (presses_enter it → client_step it app conn = Val (Ok tt, (set_should_quit true app', conn))).
Proof using Type.
  intros Hc Hn Hev Hq. unfold client_step.
  destruct (drain_ok (arrived it) app Hc Hev) as (app1 & E & Hc1 & Hq1).
  pose proof (drain_notice _ _ _ E Hn) as Hn1. rewrite E. cbn [mbind exec_bind].
  destruct (render_eq app1 (frame_area it)) as (l & ls & m & s & _ & _ & _ & _ & _ & Er);
    [apply Hc1|].
  rewrite Er. cbn [mbind exec_bind]. exists app1. split_and!; [done|done| |].
  - unfold no_enter. intros [Hd Ht]%andb_true_iff. split; [congruence|].
    destruct (drawn it); [|done]. unfold handle_terminal_event.
    destruct (terminal_event it) as [[[key| |]|]|]; try done.
    destruct (press key); [|done]. unfold handle_key_event. rewrite Hn1.
    cbn [negb orb] in Ht. apply negb_true_iff, bool_decide_eq_false in Ht.
    by destruct (decide (code key = Enter)).
  - intros (Hd & key & Ht & Hp & Hk). destruct (drawn it); [|done].
    unfold handle_terminal_event. rewrite Ht, Hp. unfold handle_key_event.
    rewrite Hn1. by destruct (decide (code key = Enter)).
Qed.

(** C35: once the connection is lost only [Enter] closes the client.  With the disconnection
    notice up, any sequence of iterations in which [Enter] is not pressed, [Esc] and [Ctrl+Q]
    included, leaves the client running with the notice and sends nothing; and the first
    [Enter] closes it. *)
Theorem notice_waits_for_enter `{UnicodeTables, W : Widgets, !WidgetsLaws} app conn its it :
  client_ok app → has_exit_notice app = true → should_quit app = false →
  Forall event_ok (concat (map arrived (its ++ [it]))) →
  forallb no_enter its = true → presses_enter it →
  (∃ app', client_loop its app conn = Val (Running app' conn) ∧ has_exit_notice app' = true) ∧
  (∃ app', client_loop (its ++ [it]) app conn = Val (Closed app' conn)).
Proof using Type.
  revert app. induction its as [|it0 its IH]; intros app Hc Hn Hq Hev Hno Hit;
    cbn [Datatypes.app client_loop forallb map concat] in *; rewrite Hq.
  - split; [by exists app|]. rewrite app_nil_r in Hev.
    destruct (notice_step it app conn Hc Hn Hev Hq) as (app1 & _ & _ & _ & Henter).
    rewrite (Henter Hit). cbn [mbind exec_bind]. by exists (set_should_quit true app1).
  - apply Forall_app in Hev as [Hev1 Hev2]. apply andb_true_iff in Hno as [Hno0 Hno].
    destruct (notice_step it0 app conn Hc Hn Hev1 Hq) as (app1 & Hn1 & Hc1 & Hstep & _).
    destruct (Hstep Hno0) as [Hq1 ->]. cbn [mbind exec_bind]. by apply IH.
Qed.

(** C34: completing a mention.  [Tab] on a query with candidates replaces what follows the last
    [@] by the selected user's name and a blank, and leaves nothing to complete; the user is
    connected and its name starts with the query, letter case aside.  Without candidates the
    key changes nothing. *)
Theorem mention_completion write_all app conn key :
  app_ok app → has_exit_notice app = false → code key = Tab →
  ∃ app', handle_key_event write_all app conn key = Val (Ok tt, (app', conn)) ∧
    (candidates app = [] → app' = app) ∧
    (candidates app ≠ [] → ∃ before query user,
       input app = before ++ at_sign :: query ∧ at_sign ∉ query ∧
       candidates app !! mention_selection app = Some user ∧ user ∈ connected_users app ∧
       starts_with (to_ascii_lowercase query) (to_ascii_lowercase user) = true ∧
       input app' = before ++ at_sign :: user ++ lit " " ∧
       candidates app' = [] ∧ messages app' = messages app).
Proof.
  intros Ha Hn Hk. unfold handle_key_event. rewrite Hn, Hk, apply_selected_mention_eq by done.
  eexists. split; [reflexivity|]. pose proof (ok_selection app Ha) as Hsel.
  split.
  { intros E. rewrite E. by destruct (query_of (input app)). }
  intros Hne. specialize (Hsel Hne). apply lookup_lt_is_Some_2 in Hsel as [user Hu].
  rewrite Hu. unfold candidates in Hne, Hu.
  destruct (query_of (input app)) as [query|] eqn:Eq; [|done].
  destruct (query_of_split _ _ Eq) as (before & Ein & Hat).
  exists before, query, user. apply list_elem_of_lookup_2 in Hu as Hin.
  apply list_elem_of_In, filter_In in Hin as [Hin Hst]. apply list_elem_of_In in Hin.
  assert (take (length (input app) - length query) (input app) = before ++ [at_sign]) as Ht.
  { rewrite Ein, length_app. cbn [length].
    change (before ++ at_sign :: query) with (before ++ [at_sign] ++ query).
    rewrite (assoc_L (++)).
    replace (length before + S (length query) - length query) with (length (before ++ [at_sign]))
      by (rewrite length_app; cbn; lia).
    by rewrite take_app_length. }
  split_and!; try done.
  - cbn [input set_mention_selection set_input]. rewrite Ht, <-(assoc_L (++)). done.
  - unfold candidates. cbn [input set_mention_selection set_input connected_users].
    by rewrite (assoc_L (++)), query_of_blank.
Qed.

(** The messages, users and notice the events of a drain bring. *)
Definition event_messages (e : NetworkEvent) : list str :=
  match e with
  | Message m => [m]
  | UserList _ => []
  | Disconnected reason => [system reason]
  end.

Definition event_users (users : list str) (e : NetworkEvent) : list str :=
  match e with UserList users => users | _ => users end.

Definition event_notice (notice : option str) (e : NetworkEvent) : option str :=
  match e with Disconnected reason => Some reason | _ => notice end.

Lemma push_shown m app :
  map text (messages (push_message m Confirmed app)) =
    lastn MESSAGE_LIMIT (map text (messages app) ++ [m]).
Proof.
  rewrite push_message_messages. unfold lastn.
  rewrite <-skipn_map, map_app, !length_app, length_map. done.
Qed.

(** C33: what the network sends is shown.  Handling the waiting events shows, after the messages
    already there, the text of every message event and a system line for a disconnection, in
    the order of arrival, keeping the last three hundred; the user list is that of the last
    presence event, and the notice the reason of the last disconnection. *)
Theorem drain_functional events app :
  app_ok app →
  ∃ app', drain_network_events events app = Val app' ∧ app_ok app' ∧
    map text (messages app') =
      lastn MESSAGE_LIMIT (map text (messages app) ++ concat (map event_messages events)) ∧
    connected_users app' = foldl event_users (connected_users app) events ∧
    exit_notice app' = foldl event_notice (exit_notice app) events ∧
    input app' = input app.
Proof.
  revert app. induction events as [|e events IH]; intros app Ha.
  { exists app. cbn. rewrite app_nil_r, lastn_all; [done|].
    rewrite length_map. apply (ok_messages app Ha). }
  destruct e as [m|users|reason]; cbn [drain_network_events foldl map concat].
  - assert (receive_message m app = push_message m Confirmed app) as Em.
    { unfold receive_message. by rewrite no_pending. }
    destruct (IH (receive_message m app)) as (app' & E & Ha' & Hm & Hu & Hn & Hi);
      [by apply receive_message_ok|].
    exists app'. rewrite E, Hm, Hu, Hn, Hi, Em, push_shown, lastn_app, <-(assoc_L (++)). done.
  - destruct (update_connected_users_ok users app Ha) as (app1 & E1 & Ha1 & Hu1 & Hm1 & Hi1).
    rewrite E1. cbn [mbind exec_bind].
    destruct (IH app1 Ha1) as (app' & E & Ha' & Hm & Hu & Hn & Hi).
    exists app'. rewrite E, Hm, Hu, Hn, Hi, Hm1, Hu1, Hi1. split_and!; try done.
    unfold update_connected_users in E1. rewrite mention_candidates_eq in E1.
    cbn [mbind exec_bind] in E1. injection E1 as <-. by repeat case_match.
  - destruct (IH (begin_shutdown reason app)) as (app' & E & Ha' & Hm & Hu & Hn & Hi);
      [by apply begin_shutdown_ok|].
    exists app'. rewrite E, Hm, Hu, Hn, Hi.
    change (messages (begin_shutdown reason app)) with
      (messages (push_message (system reason) Confirmed (set_connected false app))).
    by rewrite push_shown, lastn_app, <-(assoc_L (++)).
Qed.
End Client.

(** ** Witnesses: a short session *)

Definition no_text : io_error → str := λ _, [].
Definition press_key (c : KeyCode) (arrived : list NetworkEvent) : iteration :=
  mk_iteration arrived (Ok tt) terminal (Ok (Some (Key (mk_KeyEvent c false true)))) (λ _, Ok tt).

Definition server_bytes : reader :=
  [Data (encode_all [(Chat, as_bytes (lit "hello"))])].

Definition short_session : list iteration :=
  [press_key (Char (chr 104)) [Message (lit "hello")]; press_key (Char (chr 105)) [];
   press_key Enter []].

Definition short_session_bytes : list u8 :=
  encode_all [(Handshake, as_bytes (lit "ann")); (Chat, as_bytes (lit "hi"))].

Lemma short_session_events : events_from (λ _, []) server_bytes short_session.
Proof.
  exists [Message (lit "hello"); Disconnected (lit "server disconnected")]. split.
  - vm_compute. reflexivity.
  - by exists [Disconnected (lit "server disconnected")].
Qed.

Definition run_short_session : exec (result io_error outcome) :=
  @run_client no_text latin_tables whole_area (lit "ann") (lit "localhost") open_connection
    short_session.

Lemma client_never_panics_witness :
  ∃ res, run_short_session = Val res ∧
    ∀ app conn, res = Ok (Running app conn) ∨ res = Ok (Closed app conn) → app_ok app.
Proof.
  apply (@client_never_panics no_text latin_tables whole_area whole_area_laws (lit "ann")
    (lit "localhost") open_connection short_session (λ _, []) server_bytes short_session_events).
Defined.

(** The client of [six_users] with a line to send. *)
Definition ready_to_send : ChatApp := set_input (lit " hi ") six_users.

Lemma ready_to_send_ok : app_ok ready_to_send.
Proof.
  split; [by vm_compute|cbn; unfold MESSAGE_LIMIT; lia|by repeat constructor|done].
Qed.

Definition enter_key : KeyEvent := mk_KeyEvent Enter false true.

Lemma submit_functional_witness :
  ∃ app' conn', handle_key_event no_text (λ _, Ok tt) ready_to_send [] enter_key =
    Val (Ok tt, (app', conn')) ∧ conn' = encode_all [(Chat, as_bytes (lit "hi"))].
Proof.
  destruct (submit_functional no_text (λ _, Ok tt) ready_to_send [] enter_key ready_to_send_ok
    eq_refl eq_refl) as (r & app' & conn' & E & _ & _ & _ & H).
  destruct H as (-> & _ & Hc); [by vm_compute|vm_compute; discriminate|].
  exists app', conn'. split; [exact E|]. rewrite Hc. vm_compute. reflexivity.
Defined.

Definition disconnected_app : ChatApp :=
  begin_shutdown (lit "server disconnected") (new_app (lit "ann") (lit "localhost")).

Lemma disconnected_ok : client_ok disconnected_app.
Proof.
  split; [apply begin_shutdown_ok, new_app_ok|].
  unfold users_fit. repeat constructor. vm_compute. done.
Qed.

(** [Esc] and [Ctrl+Q], then [Enter]. *)
Definition impatient : list iteration :=
  [press_key Esc [];
   mk_iteration [] (Ok tt) terminal (Ok (Some (Key (mk_KeyEvent (Char (chr 113)) true true))))
     (λ _, Ok tt)].

Lemma notice_waits_for_enter_witness :
  (∃ app', @client_loop no_text latin_tables whole_area impatient disconnected_app
     (encode_all [(Handshake, as_bytes (lit "ann"))]) =
     Val (Running app' (encode_all [(Handshake, as_bytes (lit "ann"))])) ∧
     has_exit_notice app' = true) ∧
  (∃ app', @client_loop no_text latin_tables whole_area (impatient ++ [press_key Enter []])
     disconnected_app (encode_all [(Handshake, as_bytes (lit "ann"))]) =
     Val (Closed app' (encode_all [(Handshake, as_bytes (lit "ann"))]))).
Proof.
  apply (@notice_waits_for_enter no_text latin_tables whole_area whole_area_laws).
  - exact disconnected_ok.
  - reflexivity.
  - reflexivity.
  - by constructor.
  - reflexivity.
  - split; [reflexivity|]. exists enter_key. by split_and!.
Defined.

Lemma mention_completion_witness :
  ∃ app', handle_key_event no_text (λ _, Ok tt) six_users [] (mk_KeyEvent Tab false true) =
    Val (Ok tt, (app', [])) ∧ candidates app' = [].
Proof.
  destruct (mention_completion no_text (λ _, Ok tt) six_users [] (mk_KeyEvent Tab false true)
    six_users_ok eq_refl eq_refl) as (app' & E & _ & H).
  destruct H as (before & query & user & _ & _ & _ & _ & _ & _ & Hc & _); [by vm_compute|].
  exists app'. split; [exact E|exact Hc].
Defined.

Lemma drain_functional_witness :
  ∃ app', drain_network_events [Message (lit "hello"); UserList [lit "bob"]] six_users = Val app' ∧
    connected_users app' = [lit "bob"].
Proof.
  destruct (drain_functional [Message (lit "hello"); UserList [lit "bob"]]
    six_users six_users_ok) as (app' & E & _ & _ & Hu & _).
  exists app'. split; [exact E|exact Hu].
Defined.
