(* ===== verification/Main.v ===== *)
(** The executable ([apps/drocsid/src/main.rs]): logging, command line, dispatch, and the exit
    status.  The operating system and the libraries [main] calls are the record [host]; the
    server and the client it starts are those of [Server] and [Tui]. *)
From S2P Require Import Prelude Utf8 Text Frame Presence Config Prog Net RateLimit Registry State.
From S2P Require Import StateInv Admission Connection Server ClientNet ClientApp Render Screen Tui.

Section Main.
Context `{HashOrder} `{Tokio} `{UnicodeTables} `{Widgets}.
Context {ClapError EnvFilter : Type}.

(** ** Outside the program *)

Record host := mk_host {
  (* tracing_subscriber *)
  try_from_default_env : option EnvFilter;
  EnvFilter_new : str → EnvFilter;
  try_init : EnvFilter → bool → result str unit;
  (* the process's environment and clock *)
  env_var : str → option str;
  now : Instant;
  (* clap *)
  try_parse_from : list str → result ClapError CliCommand;
  exit_code : ClapError → Z;
  print : ClapError → result io_error unit;
  (* the operating system under the server: [bind] also asks for the address bound *)
  build_runtime : result ErrorKind unit;
  bind : str → result ErrorKind unit;
  (* the operating system under the client, and its terminal *)
  tcp : TcpStream;
  iterations : list iteration;
  (* error texts *)
  kind_text : ErrorKind → str;
  io_text : io_error → str }.

Context (h : host).

(** What the program writes, and how it stands: ended with a status, serving, or in the
    client's main loop. *)
Inductive output :=
  | Eprintln (line : str)
  | LogError (error : str)
  | Printed (error : ClapError).

Inductive process :=
  | Exited (status : Z)
  | Serving (start : Prog.config World ServerError Query)
  | InClient (app : ChatApp) (conn : ClientConnection).

Definition SUCCESS : Z := 0.
Definition FAILURE : Z := 1.

(** ** [init_tracing] *)

(** [str::eq_ignore_ascii_case] *)
Definition to_ascii_lowercase (c : char) : char :=
  if (65 <=? Utf8.code c)%Z && (Utf8.code c <=? 90)%Z then chr (Utf8.code c + 32) else c.
Definition eq_ignore_ascii_case (s t : str) : bool :=
  bool_decide (map to_ascii_lowercase s = map to_ascii_lowercase t).

Definition json_logs : bool :=
  match env_var h (lit "DROCSID_LOG_FORMAT") with
  | Some value => eq_ignore_ascii_case value (lit "json")
  | None => false
  end.

Definition init_tracing : result str unit :=
  let filter := default (EnvFilter_new h (lit "info")) (try_from_default_env h) in
  try_init h filter json_logs.

(** ** [run] *)

(** [run] returns, or the process is elsewhere for good. *)
Definition returning : Type := process + result str unit.

(** [run_server]; its accept loop never returns. *)
Definition launch_server (config : ServerConfig) : returning :=
  match (_ ← build_runtime h; bind h (bind_addr config)) with
  | Err kind => inr (Err (error_message (kind_text h) (ServerIo kind)))
  | Ok _ => inl (Serving (server_start config (now h)))
  end.

Definition launch_client (username : str) (config : ServerConfig) : exec returning :=
  r ← run_client (io_text h) username (connect_addr config) (tcp h) (iterations h);
  Val match r with
  | Err error => inr (Err (io_text h error))
  | Ok (Failed error _ _) => inr (Err (io_text h error))
  | Ok (Closed _ _) => inr (Ok tt)
  | Ok (Running app conn) => inl (InClient app conn)
  end.

Definition run (args : list str) : exec (list output * returning) :=
  match parse_command (try_parse_from h) args with
  | Err error =>
      Val ([Printed error], match print h error with
      | Err e => inr (Err (io_text h e))
      | Ok _ => inl (Exited (exit_code h error))
      end)
  | Ok command =>
      r ← match dispatch command with
          | RunServer config => Val (launch_server config)
          | RunClient username config => launch_client username config
          end;
      Val ([], r)
  end.

(** ** [main] *)

Definition main (args : list str) : exec (list output * process) :=
  match init_tracing with
  | Err error =>
      Val ([Eprintln (lit "failed to initialize logging: " ++ error)], Exited FAILURE)
  | Ok _ =>
      '(out, r) ← run args;
      Val match r with
      | inl p => (out, p)
      | inr (Ok _) => (out, Exited SUCCESS)
      | inr (Err error) => (out ++ [LogError error], Exited FAILURE)
      end
  end.

(** ** Lemmas *)

(** An answer of clap went through the declared value parser. *)
Definition value_parser_applied : Prop :=
  ∀ args u c, try_parse_from h args = Ok (CliClient u c) →
    ∃ v, v ∈ args ∧ non_empty_username v = Ok u.

Lemma launch_server_cases config :
  (build_runtime h = Ok tt ∧ bind h (bind_addr config) = Ok tt ∧
   launch_server config = inl (Serving (server_start config (now h)))) ∨
  ∃ kind, (build_runtime h = Err kind ∨ bind h (bind_addr config) = Err kind) ∧
    launch_server config = inr (Err (lit "io error: " ++ kind_text h kind)).
Proof.
  unfold launch_server. destruct (build_runtime h) as [[]|kind]; cbn [mbind result_bind].
  - destruct (bind h _) as [[]|kind] eqn:E; [by left|]. right. exists kind. split; [by right|done].
  - right. exists kind. split; [by left|done].
Qed.

Lemma run_client_Err username config error :
  is_valid_username username = true →
  run_client (io_text h) username (connect_addr config) (tcp h) (iterations h) = Val (Err error) →
  connect (tcp h) username (connect_addr config) = Err error.
Proof.
  intros Hu. apply andb_true_iff in Hu as [Hne _]. apply negb_true_iff in Hne.
  unfold run_client. rewrite Hne. destruct (connect _ _ _) as [hs|e]; [|congruence].
  by destruct (client_loop _ _ _ _).
Qed.

(** How the client stands after what the terminal gave it. *)
Lemma run_client_stands `{!WidgetsLaws} debug r username config :
  events_from debug r (iterations h) → is_valid_username username = true →
  ∃ res, run_client (io_text h) username (connect_addr config) (tcp h) (iterations h) = Val res ∧
    match res with
    | Ok (Running app _) => client_ok app ∧ should_quit app = false
    | Ok (Closed app _) => should_quit app = true
    | Ok (Failed _ _ _) => True
    | Err error => connect (tcp h) username (connect_addr config) = Err error
    end.
Proof.
  intros He Hu.
  destruct (run_client_ok (io_text h) username (connect_addr config) (tcp h) _ debug r He)
    as (res & E & Hres). exists res. split; [done|].
  destruct res as [[app conn|app conn|error app conn]|error]; [apply Hres|apply Hres|done|].
  by apply run_client_Err.
Qed.

(** ** Property *)

(** C19: what the executable does with its arguments, and the status it ends with.  It never
    panics.  Without logging it starts nothing and says why; arguments clap refuses end it
    with clap's status, the message printed; [server] serves the address asked for, or the
    default one, or ends with the operating system's error; [client] connects with a name
    the protocol accepts: while the user has not closed it it runs, and says nothing; once the
    user has closed it, and only then, the process ends with success; when it cannot connect,
    or fails later, the process ends with that error.  Every failure has status one and is
    reported once. *)
Theorem main_functional `{!WidgetsLaws} debug r args :
  value_parser_applied → events_from debug r (iterations h) →
  ∃ out p, main args = Val (out, p) ∧
    match init_tracing, try_parse_from h args with
    | Err e, _ =>
        out = [Eprintln (lit "failed to initialize logging: " ++ e)] ∧ p = Exited FAILURE
    | Ok _, Err e =>
        match print h e with
        | Ok _ => out = [Printed e] ∧ p = Exited (exit_code h e)
        | Err e' => out = [Printed e; LogError (io_text h e')] ∧ p = Exited FAILURE
        end
    | Ok _, Ok (CliServer listen latency_ms) =>
        let config := mk_ServerConfig (default (lit "127.0.0.1:7878") listen)
          (lit "127.0.0.1:7878") (from_millis (default 0%Z latency_ms)) in
        (build_runtime h = Ok tt ∧ bind h (bind_addr config) = Ok tt ∧
         out = [] ∧ p = Serving (server_start config (now h))) ∨
        ∃ kind, (build_runtime h = Err kind ∨ bind h (bind_addr config) = Err kind) ∧
          out = [LogError (lit "io error: " ++ kind_text h kind)] ∧ p = Exited FAILURE
    | Ok _, Ok (CliClient username address) =>
        let config := for_client address in
        is_valid_username username = true ∧
        match run_client (io_text h) username (connect_addr config) (tcp h) (iterations h) with
        | Val (Ok (Running app conn)) =>
            out = [] ∧ p = InClient app conn ∧ client_ok app ∧ should_quit app = false
        | Val (Ok (Closed app _)) =>
            out = [] ∧ p = Exited SUCCESS ∧ should_quit app = true
        | Val (Ok (Failed error _ _)) =>
            out = [LogError (io_text h error)] ∧ p = Exited FAILURE
        | Val (Err error) =>
            connect (tcp h) username (connect_addr config) = Err error ∧
            out = [LogError (io_text h error)] ∧ p = Exited FAILURE
        | Panic => False
        end
    end.
Proof.
  intros Hp He. unfold main. destruct init_tracing as [[]|e]; [|by eexists _, _].
  unfold run, parse_command. destruct (try_parse_from h args) as [cli|e] eqn:Ep.
  2: { cbn. destruct (print h e); by eexists _, _. }
  cbn [fmap result_fmap]. destruct cli as [listen latency_ms|username address]; cbn [dispatch].
  - cbn [mbind exec_bind].
    destruct (launch_server_cases (for_server listen latency_ms)) as [(Hb & Hl & ->)|(kind & Hk & ->)];
      eexists _, _; (split; [reflexivity|]); [by left|right; by exists kind].
  - destruct (Hp _ _ _ Ep) as (v & _ & [-> Hu]%non_empty_username_Ok).
    destruct (run_client_stands debug r v (for_client address) He Hu) as (res & E & Hres).
    unfold launch_client. rewrite E. cbn [mbind exec_bind].
    destruct res as [[app conn|app conn|error app conn]|error];
      eexists _, _; (split; [reflexivity|]); by split.
Qed.
End Main.

(** A machine on which everything works, and a user who leaves at once. *)
Definition quiet_host : host (ClapError := unit) (EnvFilter := str) :=
  mk_host None id (λ _ _, Ok tt) (λ v, if decide (v = lit "DROCSID_LOG_FORMAT")
      then Some (lit "JSON") else None) 0%Z
    tiny_parser (λ _, 2%Z) (λ _, Ok tt) (Ok tt) (λ _, Ok tt) open_connection
    [press_key Esc []] (λ _, []) (λ _, []).

Lemma quiet_host_json : json_logs quiet_host = true.
Proof. vm_compute. reflexivity. Qed.

Lemma main_functional_witness :
  @main canonical_order model_tokio latin_tables whole_area _ _ quiet_host
    [lit "drocsid"; lit "client"; lit "ann"] = Val ([], Exited SUCCESS).
Proof.
  assert (∃ app conn, @run_client (λ _, []) latin_tables whole_area (lit "ann")
    (lit "127.0.0.1:7878") open_connection [press_key Esc []] = Val (Ok (Closed app conn)))
    as (app & conn & Er) by (do 2 eexists; vm_compute; reflexivity).
  destruct (@main_functional canonical_order model_tokio latin_tables whole_area _ _ quiet_host
    whole_area_laws (λ _, []) [] [lit "drocsid"; lit "client"; lit "ann"])
    as (out & p & E & _ & Hp).
  - exact tiny_parser_value_parser.
  - exists [Disconnected (lit "server disconnected")]. split; [reflexivity|]. apply prefix_nil.
  - change (run_client _ _ _ _ _) with
      (@run_client (λ _, []) latin_tables whole_area (lit "ann")
        (lit "127.0.0.1:7878") open_connection [press_key Esc []]) in Hp.
    rewrite Er in Hp. destruct Hp as (-> & -> & _). exact E.
Defined.
