(* ===== verification/EndToEnd.v ===== *)
(** Client and server together: from the command line and the keyboard of one user to the
    session that serves them, and from the shared log of the server to the events every
    client shows. *)
From stdpp Require Import functions.
From S2P Require Import Prelude Utf8 Text Frame Presence Config Prog Net RateLimit Registry State.
From S2P Require Import StateInv Room Admission Connection Server Scenario Replay Order OrderProps.
From S2P Require Import ConnectionProps ClientNet ClientApp Render Screen Tui.

(** ** From the server to the clients *)

(** The chat texts among the events of a client. *)
Definition shown_text (e : NetworkEvent) : option str :=
  match e with Message m => Some m | _ => None end.
Definition shown_texts (events : list NetworkEvent) : list str := omap shown_text events.

(** A client shows no blank text. *)
Definition nonblank (m : str) : bool := negb (is_empty (trim m)).

Lemma shown_texts_app es fs : shown_texts (es ++ fs) = shown_texts es ++ shown_texts fs.
Proof. apply omap_app. Qed.

Lemma filter_prefix {A} (f : A → bool) l k :
  l `prefix_of` k → List.filter f l `prefix_of` List.filter f k.
Proof. intros [x ->]. rewrite List.filter_app. by apply prefix_app_r. Qed.

(** A presence frame, as the client reads it. *)
Lemma presence_frame_read frame :
  is_presence frame = true →
  ∃ p users, frame = encode_all [(Presence, p)] ∧ (zlen p <= MAX_FRAME_PAYLOAD_BYTES)%Z ∧
    frame_events (Presence, p) = [UserList users] ∧ server_frame (Presence, p) = true.
Proof.
  intros (users & (Hn & Hu & Hf)%encode_presence_Ok)%is_presence_iff.
  apply encode_frame_Ok in Hf as [-> Hp]. exists (presence_payload users), users.
  unfold frame_events, server_frame, process_frame. cbn [fst snd kind payload].
  rewrite parse_presence_payload by done. cbn [encode_all mbind list_bind].
  by rewrite app_nil_r.
Qed.

(** A chat frame, as the client reads it. *)
Lemma chat_frame_read m :
  fits m →
  frame_of m = encode_all [(Chat, as_bytes m)] ∧
  frame_events (Chat, as_bytes m) = (if nonblank m then [Message m] else []) ∧
  server_frame (Chat, as_bytes m) = true.
Proof.
  intros Hm. unfold frame_events, server_frame, process_frame, nonblank. cbn [fst snd kind payload].
  rewrite from_utf8_as_bytes. cbn [fst snd encode_all mbind list_bind]. rewrite app_nil_r.
  by destruct (is_empty (trim m)).
Qed.

(** Frames of which all but the presence frames are those of some texts. *)
Lemma frames_read frames texts :
  chat frames = map frame_of texts → Forall fits texts →
  ∃ fs, concat frames = encode_all fs ∧ length fs = length frames ∧
    Forall (λ f, server_frame f = true ∧ (zlen (snd f) <= MAX_FRAME_PAYLOAD_BYTES)%Z) fs ∧
    Forall (λ e, is_disconnected e = false) (concat (map frame_events fs)) ∧
    shown_texts (concat (map frame_events fs)) = List.filter nonblank texts.
Proof.
  revert texts. induction frames as [|frame frames IH]; intros texts Hc Ht; cbn [chat List.filter] in Hc.
  { destruct texts; [|done]. by exists []. }
  change (List.filter is_chat frames) with (chat frames) in Hc.
  unfold is_chat at 1 in Hc. destruct (is_presence frame) eqn:Ep; cbn [negb] in Hc.
  - destruct (presence_frame_read frame Ep) as (p & users & -> & Hp & Hev & Hsf).
    destruct (IH texts Hc Ht) as (fs & E & Hl & Hfs & Hd & Hs).
    exists ((Presence, p) :: fs). cbn [concat map length]. rewrite Hev, E, Hl. split_and!; try done.
    + rewrite <-encode_all_app. done.
    + by constructor.
    + by constructor.
  - destruct texts as [|m texts]; [done|]. injection Hc as -> Hc.
    apply Forall_cons in Ht as [Hm Ht]. destruct (chat_frame_read m Hm) as (Ef & Hev & Hsf).
    destruct (IH texts Hc Ht) as (fs & E & Hl & Hfs & Hd & Hs).
    exists ((Chat, as_bytes m) :: fs). cbn [concat map length List.filter].
    rewrite Hev, Ef, E, Hl, shown_texts_app, Hs. split_and!; try done.
    + by rewrite <-encode_all_app.
    + by constructor.
    + apply Forall_app. split; [|done]. destruct (nonblank m); by repeat constructor.
    + by destruct (nonblank m).
Qed.

(** *** A stream that stops anywhere *)

(** Any beginning of some frames: those that are whole, then less than the next one. *)
Lemma frames_cut {A} (frames : list (list A)) bs :
  bs `prefix_of` concat frames →
  ∃ j cut, bs = concat (take j frames) ++ cut ∧ j ≤ length frames ∧
    (cut = [] ∨ ∃ frame, frames !! j = Some frame ∧ cut `prefix_of` frame ∧
      length cut < length frame).
Proof.
  revert bs. induction frames as [|f frames IH]; intros bs Hp; cbn [concat] in Hp.
  { apply prefix_nil_inv in Hp as ->. exists 0, []. auto. }
  destruct (decide (length bs < length f)) as [Hl|Hl].
  - exists 0, bs. split; [done|]. split; [lia|]. right. exists f. split_and!; [done| |done].
    destruct Hp as [k E]. exists (drop (length bs) f).
    rewrite <-(take_drop (length bs) f) at 1. f_equal.
    apply (f_equal (take (length bs))) in E. rewrite take_app_le, take_app_length in E by lia. done.
  - destruct Hp as [k E].
    assert (bs = f ++ drop (length f) bs) as Eb.
    { rewrite <-(take_drop (length f) bs) at 1. f_equal.
      apply (f_equal (take (length f))) in E. rewrite take_app_length, take_app_le in E by lia. done. }
    destruct (IH (drop (length f) bs)) as (j & cut & Ec & Hj & Hcut).
    { exists k. rewrite Eb, <-(assoc_L (++)) in E. by apply app_inv_head in E. }
    exists (S j), cut. cbn [take concat length]. rewrite <-(assoc_L (++)), <-Ec.
    split_and!; [done|lia|done].
Qed.

(** What is less than a frame is truncated, for the client. *)
Lemma parse_frame_cut k p cut :
  (zlen p <= MAX_FRAME_PAYLOAD_BYTES)%Z → cut `prefix_of` encode_all [(k, p)] →
  length cut < length (encode_all [(k, p)]) → cut ≠ [] → parse_frame cut = Err Truncated.
Proof.
  intros Hp [rest E] Hl Hne. cbn [encode_all mbind list_bind] in *. rewrite app_nil_r in *.
  destruct (decide (length cut < FRAME_HEADER_BYTES)) as [Hs|Hs].
  { by rewrite parse_frame_short, decide_False by done. }
  assert (cut = frame_header k (zlen p) ++ drop FRAME_HEADER_BYTES cut) as Ec.
  { rewrite <-(take_drop FRAME_HEADER_BYTES cut) at 1. f_equal.
    apply (f_equal (take FRAME_HEADER_BYTES)) in E. rewrite (take_app_le cut) in E by lia. done. }
  set (body := drop FRAME_HEADER_BYTES cut) in *.
  assert (p = body ++ rest) as Ep.
  { rewrite Ec, <-(assoc_L (++)) in E. by apply app_inv_head in E. }
  assert (length body < length p) as Hb.
  { rewrite Ec, !length_app in Hl. lia. }
  pose proof (zlen_nonneg p) as H0. unfold MAX_FRAME_PAYLOAD_BYTES in *.
  assert (payload_len (frame_header k (zlen p)) = zlen p) as Hn
    by (apply payload_len_frame_header; lia).
  rewrite Ec. clearbody body. clear -Hp Hn Hb.
  cbn -[u8_of_Z Z.land Z.shiftr zlen u32_from_be_bytes FrameType_try_from] in Hn |- *.
  rewrite decide_False by (intros Hne; by apply Hne). rewrite FrameType_try_from_as_u8, Hn.
  cbn [mbind result_bind]. unfold MAX_FRAME_PAYLOAD_BYTES. rewrite decide_False by lia.
  unfold zlen. by rewrite Nat2Z.id, decide_True by lia.
Qed.

(** How the client calls such an end. *)
Definition end_reason (debug : FrameError → str) (cut : list u8) : str :=
  if decide (cut = []) then lit "server disconnected"
  else lit "connection error: " ++ debug Truncated.

Lemma reader_loop_cut debug fs k p cut r :
  Forall (λ f, server_frame f = true ∧ (zlen (snd f) <= MAX_FRAME_PAYLOAD_BYTES)%Z) fs →
  (cut = [] ∨ (zlen p <= MAX_FRAME_PAYLOAD_BYTES)%Z ∧ cut `prefix_of` encode_all [(k, p)] ∧
    length cut < length (encode_all [(k, p)])) →
  clean r = true → contents r = encode_all fs ++ cut →
  reader_loop debug (S (length fs)) r =
    Some (concat (map frame_events fs) ++ [Disconnected (end_reason debug cut)]).
Proof.
  intros Hfs Hcut. revert r. induction Hfs as [|[k' p'] fs [Hsf Hp'] Hfs IH]; intros r Hr Hc.
  - cbn [encode_all mbind list_bind app] in Hc. pose proof (read_frame_parse r Hr) as H.
    rewrite Hc in H. unfold end_reason. cbn [reader_loop length map concat app].
    destruct (decide (cut = [])) as [->|Hne].
    + destruct H as (r' & ->). done.
    + destruct Hcut as [?|(Hp & Hpre & Hl)]; [done|].
      rewrite (parse_frame_cut k p cut) in H by done. by destruct H as (r' & ->).
  - change (encode_all ((k', p') :: fs)) with ((frame_header k' (zlen p') ++ p') ++ encode_all fs) in Hc.
    pose proof (read_frame_parse r Hr) as H. cbn [snd] in Hp'.
    rewrite <-(assoc_L (++)) in Hc. rewrite Hc, parse_frame_encoded in H by done.
    destruct H as (r' & H & Hr' & Hc').
    specialize (IH r' Hr' Hc'). remember (S (length fs)) as n eqn:Hn.
    cbn [length]. rewrite <-Hn. cbn [reader_loop]. rewrite H.
    unfold server_frame, frame_events in *. cbn [fst snd map concat] in *.
    destruct (process_frame _) as [events b]. cbn [fst snd] in *. rewrite Hsf, IH.
    cbn. by rewrite <-(assoc_L (++)).
Qed.

Section Clients.
Context `{HashOrder} `{Tokio} {Laws : TokioLaws}.

(** What the replay and the broadcasts put on a socket, as texts. *)
Definition expected_texts (log : list str) (n k : nat) : list str :=
  map Order.text (lastn MESSAGE_HISTORY_LIMIT (take n log)) ++ drop k log.

Lemma expected_frames log n k : expected log n k = map frame_of (expected_texts log n k).
Proof. unfold expected, expected_texts, live. by rewrite map_app, map_map. Qed.

Lemma expected_fits log n k : Forall fits log → Forall fits (expected_texts log n k).
Proof.
  intros Hl. apply Forall_app. split; [|by apply Forall_drop].
  apply Forall_map. unfold lastn. apply Forall_drop, Forall_take.
  eapply Forall_impl; [exact Hl|]. intros m Hm. by apply trim_end_by_fits.
Qed.

(** Frames in order, as the client reads those of them that are whole. *)
Lemma in_order_read l frames :
  Forall fits l → in_order l frames →
  ∃ texts n k, chat frames = map frame_of texts ∧ k ≤ n ≤ length l ∧
    texts `prefix_of` expected_texts l n k ∧ Forall fits texts.
Proof.
  intros Hl (n & k & Hnk & Hp). rewrite expected_frames in Hp. destruct Hp as [rest Hp].
  apply map_eq_app in Hp as (texts & more & E & Hc & _).
  exists texts, n, k. rewrite E. split_and!; [done|lia|lia|by apply prefix_app_r|].
  pose proof (expected_fits l n k Hl) as Hf. rewrite E in Hf. by apply Forall_app in Hf as [? _].
Qed.

Lemma in_order_shapes l frames :
  Forall fits l → in_order l frames →
  Forall (λ f, ∃ k p, f = encode_all [(k, p)] ∧ (zlen p <= MAX_FRAME_PAYLOAD_BYTES)%Z) frames.
Proof.
  intros Hl (texts & _ & _ & Hc & _ & _ & Ht)%in_order_read; [|done].
  revert texts Hc Ht. induction frames as [|f frames IH]; intros texts Hc Ht; [constructor|].
  cbn [chat List.filter] in Hc. change (List.filter is_chat frames) with (chat frames) in Hc.
  unfold is_chat at 1 in Hc. destruct (is_presence f) eqn:Ep; cbn [negb] in Hc.
  - destruct (presence_frame_read f Ep) as (p & users & -> & Hp & _).
    constructor; [by exists Presence, p|]. by eapply IH.
  - destruct texts as [|m texts]; [done|]. injection Hc as -> Hc.
    apply Forall_cons in Ht as [Hm Ht]. destruct (chat_frame_read m Hm) as (Ef & _).
    constructor; [by exists Chat, (as_bytes m)|]. by eapply IH.
Qed.

Lemma in_order_take l frames j : in_order l frames → in_order l (take j frames).
Proof. apply in_order_prefix, prefix_take. Qed.

(** C4: one room on every screen.  In every configuration the server can reach there is one
    log of chat messages, of which the history is the last hundred, such that the following
    holds of every connection and of a client whose network thread has read any beginning of
    the bytes sent on it, cut in any pieces, up to the end of the stream.  The frames sent are
    those written, and at most one more, whose write failed; the thread has taken the frames
    that arrived whole, and reports only then a disconnection: the server's, or, when less
    than a frame was left over, a truncated frame.  The messages it has shown are the texts of
    the chat frames it took, the blank ones apart, and these are a beginning of: a window of at
    most a hundred messages of the log, followed by the messages of the log from some point
    inside or before the end of that window on; in order, without a gap, the same for every
    client. *)
Theorem clients_show_the_room config now c :
  reachable config now c →
  ∃ log last : list str,
    length last ≤ 1 ∧
    entries (history (world c)) = lastn MESSAGE_HISTORY_LIMIT (map Order.text (log ++ last)) ∧
    ∀ conn, ∃ frames,
      length frames ≤ S (length (written (io (world c)) conn)) ∧
      written (io (world c)) conn `prefix_of` frames ∧
      concat (written (io (world c)) conn) `prefix_of` wire (io (world c)) conn ∧
      ∀ debug r, clean r = true → contents r `prefix_of` wire (io (world c)) conn →
        ∃ j cut events texts n k,
          contents r = concat (take j frames) ++ cut ∧ j ≤ length frames ∧
          (cut = [] ∨ ∃ frame, frames !! j = Some frame ∧ cut `prefix_of` frame ∧
            length cut < length frame) ∧
          reader_loop debug (S j) r =
            Some (events ++ [Disconnected (if decide (cut = []) then lit "server disconnected"
                                           else lit "connection error: " ++ debug Truncated)]) ∧
          Forall (λ e, is_disconnected e = false) events ∧
          shown_texts events = List.filter nonblank texts ∧
          chat (take j frames) = map frame_of texts ∧ k ≤ n ≤ length log ∧
          texts `prefix_of`
            map Order.text (lastn MESSAGE_HISTORY_LIMIT (take n log)) ++ drop k log.
Proof using Laws.
  intros (g & Hs & Hroom)%reachable_room. exists (log g), (option_list (infl g)).
  split_and!; [by destruct (infl g); cbn; lia|apply (al_history _ Hs)|].
  intros conn. destruct (al_written _ Hs conn) as (next & Hnext & Hord & Hpre & Hwire).
  cbn [fst snd] in *. set (written (io (world c)) conn) as frames in *.
  exists (frames ++ next). rewrite length_app.
  split_and!; [lia|by apply prefix_app_r|done|].
  pose proof (room_said _ Hroom) as Hsaid. cbn [said room_of snd] in Hsaid.
  apply Forall_app in Hsaid as [Hlog _].
  intros debug r Hr Hc. destruct (frames_cut (frames ++ next) (contents r)) as (j & cut & Ec & Hj & Hcut).
  { by etrans. }
  pose proof (in_order_take _ _ j Hord) as Hordj.
  destruct (in_order_read _ _ Hlog Hordj) as (texts & n & k & Ht & Hnk & Hpt & Hfits).
  destruct (frames_read (take j (frames ++ next)) texts Ht Hfits) as (fs & Ef & Hl & Hfs & Hd & Hsh).
  exists j, cut, (concat (map frame_events fs)), texts, n, k.
  rewrite length_app in Hj. rewrite length_take, length_app, Nat.min_l in Hl by done.
  split_and!; try done; [|lia..]. rewrite <-Hl. rewrite Ef in Ec.
  destruct Hcut as [->|(frame & Hframe & Hcf & Hcl)].
  - apply (reader_loop_cut debug fs Chat [] [] r); auto.
  - pose proof (in_order_shapes _ _ Hlog Hord) as Hshapes.
    rewrite Forall_lookup in Hshapes. destruct (Hshapes j frame Hframe) as (k' & p & -> & Hp).
    apply (reader_loop_cut debug fs k' p cut r); auto.
Qed.
End Clients.

(** ** From the keyboard to the session *)

Section Session.
Context `{Laws : TokioLaws}.

(** What a session that is never told to stop reads off its socket after the handshake: the
    contents it handles, and how the reading ends. *)
Fixpoint session_contents (fuel : nat) (s : stream) : list str * option (result ServerError unit) :=
  match fuel with
  | O => ([], None)
  | S fuel =>
      match read_async_frame s with
      | (Err e, _) => ([], Some (Err e))
      | (Ok None, _) => ([], Some (Ok tt))
      | (Ok (Some frame), s) =>
          match check_chat frame with
          | Err e => ([], Some (Err e))
          | Ok content => let '(contents, r) := session_contents fuel s in (content :: contents, r)
          end
      end
  end.

Lemma check_chat_sent line :
  (Z.of_nat (blen line) <= MAX_CHAT_MESSAGE_BYTES)%Z →
  check_chat (mk_Frame CURRENT_PROTOCOL_VERSION Chat (as_bytes line)) = Ok line.
Proof.
  intros Hl. unfold check_chat. cbn [kind payload]. rewrite decide_False by (by intros []).
  rewrite zlen_as_bytes, decide_False by lia. by rewrite from_utf8_as_bytes.
Qed.

(** The end of what a session reads: less than a frame is a truncated one. *)
Definition session_end (tail : list u8) : result ServerError unit :=
  if decide (tail = []) then Ok tt else Err TruncatedProtocolFrame.

Lemma session_contents_sent s lines line tail :
  Forall sendable_line lines → arriving s = Some (encode_all (chat_frames lines) ++ tail) →
  tail = [] ∨ (zlen (as_bytes line) <= MAX_FRAME_PAYLOAD_BYTES)%Z ∧
    tail `prefix_of` encode_all [(Chat, as_bytes line)] ∧
    length tail < length (encode_all [(Chat, as_bytes line)]) →
  session_contents (S (length lines)) s = (lines, Some (session_end tail)).
Proof.
  intros Hl Hs Htail. revert s Hs.
  induction Hl as [|line' lines (_ & _ & Hline) Hl IH]; intros s Hs.
  - cbn [chat_frames map encode_all mbind list_bind Datatypes.app] in Hs.
    cbn [session_contents length]. destruct (read_async_frame_spec s _ Hs) as (s' & -> & _).
    unfold session_end. destruct (decide (tail = [])) as [->|Hne]; [done|].
    destruct Htail as [?|(Hp & Hpre & Hlen)]; [done|].
    pose proof (parse_async_frame tail) as Ha.
    rewrite (parse_frame_cut Chat (as_bytes line) tail) in Ha by done.
    by destruct (parse_async tail) as [x|[]].
  - change (chat_frames (line' :: lines)) with ([(Chat, as_bytes line')] ++ chat_frames lines) in Hs.
    rewrite encode_all_app, <-(assoc_L (++)) in Hs. apply read_async_frame_encoded in Hs as (s' & E & Hs').
    2: { rewrite zlen_as_bytes. unfold MAX_CHAT_MESSAGE_BYTES, MAX_FRAME_PAYLOAD_BYTES in *. lia. }
    specialize (IH s' Hs'). cbn [length]. remember (S (length lines)) as fuel.
    cbn [session_contents]. by rewrite E, check_chat_sent, IH.
Qed.
End Session.

(** What a failed write has sent is less than a frame. *)
Lemma half_way_cut its tail :
  honest_writes its → tail = [] ∨ half_way its tail →
  ∃ line, tail = [] ∨ (zlen (as_bytes line) <= MAX_FRAME_PAYLOAD_BYTES)%Z ∧
    tail `prefix_of` encode_all [(Chat, as_bytes line)] ∧
    length tail < length (encode_all [(Chat, as_bytes line)]).
Proof.
  intros Hw [->|(it & line & n & e & Hit & (_ & _ & Hl) & E & ->)]; [exists []; by left|].
  exists line. right. split_and!.
  - rewrite zlen_as_bytes. unfold MAX_CHAT_MESSAGE_BYTES, MAX_FRAME_PAYLOAD_BYTES in *. lia.
  - apply prefix_take.
  - rewrite length_take. pose proof (Hw it _ n e Hit E). lia.
Qed.

(** C8: from the command line and the keyboard to the session.  When the command line is
    accepted and starts a client, and the server has received what that client has sent, in
    whatever pieces, the server takes the handshake for the name given, trimmed, if the name
    has at most 32 bytes, and refuses it as too long otherwise; then its session is given
    exactly the lines the user submitted while connected, in their order, none of them blank,
    none refused, and then the end of the connection, or, when the last write of the client
    failed half-way, a truncated frame. *)
Theorem keyboard_to_session {ClapError} (try_parse_from : list str → result ClapError CliCommand)
    `{UnicodeTables, W : Widgets, !WidgetsLaws} `{Laws : TokioLaws} io_text args name config
    tcp its debug r o (s : stream) :
  (∀ u c, try_parse_from args = Ok (CliClient u c) → ∃ v, v ∈ args ∧ non_empty_username v = Ok u) →
  dispatch <$> parse_command try_parse_from args = Ok (RunClient name config) →
  events_from debug r its → honest_writes its →
  run_client io_text name (connect_addr config) tcp its = Val (Ok o) →
  arriving s = Some (outcome_conn o) →
  let lines := submitted io_text its (new_app name (connect_addr config)) in
  ∃ s' tail,
    outcome_conn o = encode_all ((Handshake, as_bytes name) :: chat_frames lines) ++ tail ∧
    (tail = [] ∨ half_way its tail) ∧
    read_handshake_username s =
      (if MAX_USERNAME_BYTES <? blen name then Err UsernameTooLong else Ok (trim name), s') ∧
    session_contents (S (length lines)) s' =
      (lines, Some (if decide (tail = []) then Ok tt else Err TruncatedProtocolFrame)) ∧
    Forall (λ line, trim line = line ∧ line ≠ []) lines.
Proof.
  intros Hparser Hcmd He Hw Hrun Hs lines.
  pose proof (submitted_sendable io_text its (new_app name (connect_addr config))) as Hlines.
  fold lines in Hlines.
  assert (is_valid_username name = true) as Hv.
  { unfold parse_command in Hcmd. destruct (try_parse_from args) as [[l ms|u c]|e] eqn:E; try done.
    destruct (Hparser u c eq_refl) as (v & _ & [-> Hv]%non_empty_username_Ok).
    by injection Hcmd as <- _. }
  destruct (run_client_ok io_text name (connect_addr config) tcp its debug r He)
    as (res & E & Hres). rewrite E in Hrun. injection Hrun as ->.
  destruct Hres as (Hname & (tail & Hsent & Htail) & _). fold lines in Hsent. rewrite Hsent in Hs.
  change (encode_all (?x :: ?y)) with (encode_all ([x] ++ y)) in Hs.
  rewrite encode_all_app, <-(assoc_L (++)) in Hs.
  destruct (handshake_sent s name _ Hs Hname Hv) as (s' & Eh & Hs').
  exists s', tail. split_and!; [done|done|done| |].
  - destruct (half_way_cut its tail Hw Htail) as [line Hcut].
    by apply (session_contents_sent s' lines line tail).
  - eapply Forall_impl; [exact Hlines|]. by intros line (? & ? & _).
Qed.

(** ** Concrete runs *)

(** The bytes sent to bob in the run of [Scenario]. *)
Definition bob_wire : list u8 := wire (io (world (script_run whole_run))) 5.

(** The same run up to bob's second frame, of which the write fails after nine bytes. *)
Definition torn_run : list (nat * nat * moment) :=
  bob_waiting ++ [(3, 30, idle); (5, 80, idle); (4, 40, idle); (6, 5, idle);
    (6, 40, mk_moment (Err Other) (Err (9, TimedOut)) false)].
Definition torn_wire : list u8 := wire (io (world (script_run torn_run))) 5.

(** Bob's client has read what was sent to it, the part of a frame included. *)
Lemma clients_show_the_room_witness :
  length (written (io (world (script_run torn_run))) 5) = 1 ∧
  ∃ log frames j cut events texts n k,
    torn_wire = concat (take j frames) ++ cut ∧
    reader_loop (λ _, lit "Truncated") (S j) [Data torn_wire] =
      Some (events ++ [Disconnected (if decide (cut = []) then lit "server disconnected"
                                     else lit "connection error: " ++ lit "Truncated")]) ∧
    shown_texts events = List.filter nonblank texts ∧
    k ≤ n ≤ length log ∧
    texts `prefix_of` map Order.text (lastn MESSAGE_HISTORY_LIMIT (take n log)) ++ drop k log.
Proof.
  split; [vm_compute; reflexivity|].
  destruct (@clients_show_the_room canonical_order model_tokio model_tokio_laws _ _ _
    (script_run_reachable torn_run)) as (log & last & _ & _ & Hs).
  destruct (Hs 5) as (frames & _ & _ & _ & Hr).
  assert (contents [Data torn_wire] = torn_wire) as E by (vm_compute; reflexivity).
  destruct (Hr (λ _, lit "Truncated") [Data torn_wire]) as
    (j & cut & events & texts & n & k & Ec & _ & _ & El & _ & Et & _ & Hnk & Hp).
  - vm_compute. reflexivity.
  - rewrite E. reflexivity.
  - exists log, frames, j, cut, events, texts, n, k. rewrite E in Ec.
    split; [exact Ec|]. split; [exact El|]. split; [exact Et|]. split; [exact Hnk|exact Hp].
Defined.

Lemma torn_run_shown :
  reader_loop (λ _, lit "Truncated") 20 [Data torn_wire] =
    Some [Message (lit "@alice has entered the chat. Say hello!");
          Disconnected (lit "connection error: Truncated")].
Proof. vm_compute. reflexivity. Qed.

(** Bob sees the history, where alice's message and leave come a second time from his backlog,
    his own arrival and his message. *)
Lemma bob_sees :
  shown_texts <$> reader_loop (λ _, []) 20 [Data bob_wire] = Some (socket_texts whole_run 5).
Proof. vm_compute. reflexivity. Qed.

(** A socket that breaks after [k] bytes. *)
Definition break_after (k : nat) : ClientNet.WriteAll := λ bs,
  if length bs <=? k then Ok tt else Err (k, mk_io_error BrokenPipe []).

(** The short session of [Tui], started from the command line: "hi" is sent, then four bytes of
    the frame of "y" before the connection breaks; the server reads it. *)
Definition broken_session : list iteration :=
  short_session ++ [press_key (Char (chr 121)) [];
    mk_iteration [] (Ok tt) terminal (Ok (Some (Key enter_key))) (break_after 4)].

Lemma broken_session_events : events_from (λ _, []) server_bytes broken_session.
Proof.
  exists [Message (lit "hello"); Disconnected (lit "server disconnected")]. split.
  - vm_compute. reflexivity.
  - by exists [Disconnected (lit "server disconnected")].
Qed.

Lemma broken_session_honest : honest_writes broken_session.
Proof.
  intros it bs n e Hit. unfold broken_session, short_session in Hit.
  repeat (apply elem_of_cons in Hit as [->|Hit]; [cbn; try done|]); [|by apply not_elem_of_nil in Hit].
  unfold break_after. destruct (Nat.leb_spec (length bs) 4); [done|]. by intros [= <- _].
Qed.

Definition broken_session_bytes : list u8 :=
  short_session_bytes ++ take 4 (encode_all [(Chat, as_bytes (lit "y"))]).

Lemma keyboard_to_session_witness :
  ∃ s', @read_handshake_username model_tokio [Data broken_session_bytes] = (Ok (lit "ann"), s') ∧
    @session_contents model_tokio 2 s' = ([lit "hi"], Some (Err TruncatedProtocolFrame)).
Proof.
  assert (∃ app, @run_client no_text latin_tables whole_area (lit "ann")
    (connect_addr (for_client None)) open_connection broken_session =
    Val (Ok (Running app broken_session_bytes))) as [app E] by (eexists; vm_compute; reflexivity).
  assert (@submitted no_text latin_tables whole_area broken_session
    (new_app (lit "ann") (connect_addr (for_client None))) = [lit "hi"]) as El
    by (vm_compute; reflexivity).
  destruct (@keyboard_to_session unit tiny_parser latin_tables whole_area whole_area_laws
    model_tokio model_tokio_laws no_text [lit "drocsid"; lit "client"; lit "ann"] (lit "ann")
    (for_client None) open_connection broken_session (λ _, []) server_bytes
    (Running app broken_session_bytes) [Data broken_session_bytes])
    as (s' & tail & Eo & _ & Hh & Hs & _).
  - apply tiny_parser_value_parser.
  - vm_compute. reflexivity.
  - exact broken_session_events.
  - exact broken_session_honest.
  - exact E.
  - vm_compute. reflexivity.
  - exists s'. split; [exact Hh|]. rewrite El in Hs, Eo. destruct (decide (tail = [])) as [->|_].
    + vm_compute in Eo. discriminate Eo.
    + exact Hs.
Defined.
